(* ===== verification/_CoqProject ===== *)
-Q . S2P
Prelude.v
CLib.v
CFloat.v
SimpleMap.v
Errors.v
Net.v
Protocol.v
KeyVal.v
Expiry.v
SetParser.v
SetExec.v
GetCmd.v
Match.v
Echo.v
Config.v
Dispatch.v
App.v
Termination.v
Setup.v
Queue.v
Rdb.v
Server.v
Boot.v
Session.v
Client.v
Race.v
Reader.v
Safety.v
Program.v
Robust.v
Workers.v
