(* ===== verification/Prelude.v ===== *)
(** * A verified model of the Redis server of this repository

    The program is a small Redis in C: a threaded TCP server that reads
    requests in the RESP protocol, executes [SET], [GET], [ECHO] and
    [CONFIG GET] on maps kept in growing arrays, and answers. This library
    translates its code function by function into executable definitions and
    proves what makes them correct, and, where the code is wrong, exactly what
    it does instead.

    ** How the C is rendered

    A function of the source is a definition of the same name. Its result is in
    [res] (this file): [Ok] a value, [UB] for undefined behaviour (a null or
    dangling dereference, an access out of bounds, a read of memory never
    written, signed overflow), [SIGPIPE] for the end of the process by that signal
    (a [send] on a connection the peer has closed; nothing in the sources guards
    against it), [OOF] for a loop that has used up its fuel. State
    the C mutates is passed and returned; a message is a list of [node]s, the
    first being the one the C points at; NULL is [None]. Integers are in [Z] with
    their width written out ([uint8], [int32], ... of [CLib]); a C string is the
    list of the bytes of its object, and [c_str] cuts it at the first NUL.
    Floating point is exact rational arithmetic with the rounding of IEEE single
    and double precision ([CFloat]). Loops are structural where they can be and
    otherwise run on fuel computed from their input; [Termination] and the exact
    results of the other files show that the fuel is enough on every input.

    ** The files

    - [Prelude] (this file): [res], its notations, the generic lemmas, hints and
      tactics. [CLib]: integers, bytes, strings, decimal text, [calloc],
      [memcpy], [snprintf]; the class [Heap] answers which allocations that grow
      are granted. [CFloat]: rounding.
    - [SimpleMap]: src/simple_map.c. The two parallel arrays of pointers, with
      slots that may be null or indeterminate, doubling by [realloc], [set],
      [get], [remove_key], [next], [delete_map]. Its clients use it through the
      class [KeyCompare] and the relation [implements] to a finite map.
    - [Errors], [Net]: src/errors.c and the socket functions of src/server.c and
      [msleep] of src/util.c. A [Sock] is what the system will answer: the items
      still to be received (bytes or errors), the outcomes of the next sends and
      sleeps, and what has been sent.
    - [Protocol]: src/protocol.c and [string_to_uint], [print_array] of
      src/util.c: [get_el_size] with its 8192-byte buffer, [lex_bulk_str],
      [lexer], [delete_array].
    - [KeyVal], [Expiry]: the key and value objects of src/cmd_handler.c and
      [has_key_expired].
    - [SetParser], [SetExec], [GetCmd], [Match], [Echo], [Config], [Dispatch]:
      the commands of src/cmd_handler.c, from [parse_command] down.
    - [App]: [app_code] of src/app.c on one connection. [Session]: the
      connections a worker serves one after the other, on the global store.
      [Workers]: several connections at the same time, one round of the loop
      ([app_round]) after the other in any order ([work]).
    - [Termination]: no function above runs out of fuel. [Safety]: the type of
      messages, what [lexer] returns and what is safe to do with it; [post] is
      the postcondition of a computation, with its rule for a bind.
    - [Setup]: [cli_parser] and [setup] of src/util.c.
    - [Queue]: src/queue.c on a heap of list nodes.
      The class [Fifo] and its laws are what the queue promises; lists keep them,
      and so does the linked queue ([linked_fifo_laws]).
    - [Rdb]: src/rdb_file_parser.c over a file given as its bytes.
    - [Server]: the threads of src/server.c. A thread is a program counter whose
      constructors are its calls; [world] holds the counters, the queues (any
      [Fifo]), the owners of the mutexes, the semaphores and the history;
      [act] runs one call of one thread, and [reachable] interleaves them.
    - [Boot]: src/server.c up to the first [accept], in a monad of its own
      ([boot]: a heap of typed objects, the answers of [calloc] and
      [pthread_create], [exit] as a result): [get_server_sock], the argument
      blocks, [create_thread], [run_thread], the pool. [world_of] reads the world
      of [Server] off the memory the threads start in.
    - [Race]: [set] of src/simple_map.c one access at a time ([set_step]), with
      the two [realloc]s of [__double_arrays] and the stores of their results as
      steps of their own, alone and with a second thread ([run_schedule]).
      [Reader]: [get] in the same way ([get_step]), beside a [set] ([run_pair]).
    - [Client]: src/client/client.c, on a machine whose [connect] answers for each
      port.
    - [Program]: [main] of src/app.c. [Robust]: the ways in which [app_code] can end
      on any connection ([outcome]), and what the messages are that bring the
      process down ([fatal], [breaks]).

    [Program] calls [Setup], [Boot] and, for the workers, [Session]; this calls
    [App], [App] calls [Net], [Protocol] and [Dispatch]; [Dispatch] calls the
    command files; these share the store, a [SimpleMap] of key and value objects.

    ** What the theorems show

    - The program as a whole: [Program.program_serves] (from the command line to
      the answers), [Workers.clients_interleave] (the clients see one order of all
      commands, run by the abstract server on one key space),
      [Dispatch.command_refines_step] (a request is one step of it), and
      [Client.client_outcome] for the other side.
    - The commands: the grammar of [SET] ([SetParser.validate_set_cmd_language]),
      its meaning ([SetExec.set_command_semantics], [set_without_effect]), [GET]
      ([GetCmd.get_command_semantics], [get_after_set]), [Echo.echo_answers],
      [Config.config_get_exact]; the objects of every [SET] are accounted for, the
      one leak included ([SetExec.set_conserves_objects]).
    - Types: [Safety.message_typed] (what any stream can become) and
      [typed_message_runs] (what cannot go wrong with it); with them
      [Robust.app_survives]: a connection ends, and with it the process only
      at a fatal message, at an interrupted sleep or by [SIGPIPE].
    - The data structures: [SimpleMap.simple_map_refines], [iteration_complete],
      [set_refused]; [Queue.queue_is_fifo].
    - The wire: [Protocol.lexer_roundtrip], [get_el_size_bounds],
      [Net.socket_errors_handled].
    - Time: [Expiry.expiry_monotone], [expiry_accuracy].
    - Termination: [Termination.server_terminates].
    - Concurrency, over every interleaving: [Server.connections_conserved],
      [locks_exclusive_and_live], [no_connection_stranded],
      [denied_after_one_second]; on the store, which no lock protects,
      [Reader.store_threads_alone], [Race.unlocked_sets_race] and
      [Reader.get_beside_set], and [Race.workers_overlap] that the program can
      come to it.
    - The start: [Boot.server_boots], [server_socket], [Setup.setup_outcome].
    - RDB files: [Rdb.aux_fields_roundtrip], [rdb_file_never_accepted].
    - What is wrong: [Race.unlocked_sets_race], [Reader.get_beside_set],
      [Safety.fatal_requests], [Robust.app_survives] ([SIGPIPE]),
      [Protocol.get_el_size_bounds], [Boot.server_socket],
      [SetExec.set_without_effect], [set_conserves_objects], [Echo.echo_answers],
      [Dispatch.nesting_depth_wraps], [App.binary_value_truncated],
      [Setup.setup_outcome], [Rdb.rdb_file_never_accepted].
    - What the documents say otherwise: [GetCmd.get_after_set] ([EXAT] and [PXAT]),
      [SetParser.validate_set_cmd_language] ([KEEPTTL]), [Config.config_get_exact]
      (no match), [Queue.queue_is_fifo] ([get_front]), [Client.client_outcome] (the
      port).

    ** Bounds and parameters

    [fnmatch] is a class ([Match.Fnmatch]) whose one law, that a pattern without
    special characters matches by case-folded equality, is used only where
    command names are compared. [getopt_long] is a list of answers ([Setup]), and
    so are [socket], [bind], [listen], [calloc] and [pthread_create] in [Boot];
    [getaddrinfo] and the client's [connect] are functions of the port.
    The clock is an argument. [Heap] decides the allocations whose failure the
    code meets in earnest: the arrays of a map that grows, the buffer of a bulk
    string, the answer of [CONFIG GET]; other allocations of a few bytes are
    taken as granted. The theorems that need the heap to grant say so.
    The fuel of a loop is computed from its input: the bytes of the connection,
    the nodes of a message, the keys of a map, the workers still to be created.

    ** What is not modelled

    The text of the log and of [print_array] on the terminal beyond its bytes, and
    the progress messages of the client; the code behind the endless loop of
    [start_server], which is never reached; the tests. [Workers]
    interleaves whole rounds, and [Race] and [Reader] the accesses of
    two commands, each access atomic and seen at once by the other thread;
    [remove_key] is not split into accesses. Key and value objects
    are values, not cells of a heap: their release is the log of what is freed,
    counted by [SetExec.set_conserves_objects].

    ** Plan

    The next steps: [remove_key] as a thread beside [Reader]; a store in the heap
    of [Queue], so that the ownership between commands is checked cell by cell; and
    the quantitative converse of [Server.denied_after_one_second].
*)

From Stdlib Require Export ZArith Lia.
From stdpp Require Export base numbers strings gmap countable.
From stdpp Require Export list.

#[global] Open Scope Z_scope.

(** ** Outcomes of a C function

    [Ok a] is a normal return; [UB] is undefined behaviour (a dereference of a
    bad pointer, an access outside an object, a read of an indeterminate
    value, a signed overflow); [SIGPIPE] is the end of the process by that
    signal; [OOF] is the answer of a bounded definition whose fuel ran out, which
    the development shows does not happen. *)

Inductive fault := Undefined | Broken_pipe.

#[export] Instance fault_eq_dec : EqDecision fault.
Proof. solve_decision. Defined.

Inductive res (A : Type) : Type :=
  | Ok (a : A)
  | Stop (f : fault)
  | OOF.
Arguments Ok {A} a.
Arguments Stop {A} f.
Arguments OOF {A}.

Abbreviation UB := (Stop Undefined).
Abbreviation SIGPIPE := (Stop Broken_pipe).

#[export] Instance res_ret : MRet res := fun A a => Ok a.
#[export] Instance res_bind : MBind res := fun A B f m =>
  match m with Ok a => f a | Stop f => Stop f | OOF => OOF end.
#[export] Instance res_fmap : FMap res := fun A B f m =>
  match m with Ok a => Ok (f a) | Stop f => Stop f | OOF => OOF end.

#[export] Instance res_eq_dec {A} `{EqDecision A} : EqDecision (res A).
Proof. solve_decision. Defined.

(** [ub_unless b m] runs [m] when the access condition [b] holds. *)
Definition ub_unless {A} (b : bool) (m : res A) : res A :=
  if b then m else UB.

(** The pointer view of an [option]: a dereference of [NULL] is undefined. *)
Definition deref {A} (p : option A) : res A :=
  match p with Some a => Ok a | None => UB end.

Definition is_null {A} (p : option A) : bool :=
  match p with Some _ => false | None => true end.

Section res_lemmas.
Context {A B : Type}.
Implicit Types (m : res A) (f : A -> res B).

Lemma bind_Ok_inv m f b :
  (m ≫= f) = Ok b -> exists a, m = Ok a /\ f a = Ok b.
Proof. destruct m; simpl; [eauto | discriminate | discriminate]. Qed.

Lemma bind_Ok a f : (Ok a ≫= f) = f a.
Proof. reflexivity. Qed.

Lemma bind_not_OOF m f :
  m <> OOF -> (forall a, m = Ok a -> f a <> OOF) -> (m ≫= f) <> OOF.
Proof. destruct m; simpl; auto. Qed.

Lemma deref_Some (a : A) : deref (Some a) = Ok a.
Proof. reflexivity. Qed.
End res_lemmas.

(** ** Automation *)

Create HintDb redis discriminated.
Create Rewrite HintDb redis_rw.

#[export] Hint Rewrite @bind_Ok @deref_Some : redis_rw.

(** [res_inv H] splits a successful sequence of binds into its steps. *)
Ltac res_inv H :=
  repeat match type of H with
  | (_ ≫= _) = Ok _ =>
      let a := fresh "a" in let E := fresh "E" in
      apply bind_Ok_inv in H; destruct H as (a & E & H)
  | mbind _ _ = Ok _ =>
      let a := fresh "a" in let E := fresh "E" in
      apply bind_Ok_inv in H; destruct H as (a & E & H)
  end.

(** [case_if] splits on the boolean test of the first [if] of the goal and
    turns comparisons on [Z] into propositions. *)
Ltac zify_bool :=
  repeat match goal with
  | H : (_ && _) = true |- _ => apply andb_true_iff in H as [? ?]
  | H : (_ || _) = false |- _ => apply orb_false_iff in H as [? ?]
  | H : negb _ = true |- _ => apply negb_true_iff in H
  | H : negb _ = false |- _ => apply negb_false_iff in H
  | H : (_ <? _) = true |- _ => apply Z.ltb_lt in H
  | H : (_ <? _) = false |- _ => apply Z.ltb_ge in H
  | H : (_ <=? _) = true |- _ => apply Z.leb_le in H
  | H : (_ <=? _) = false |- _ => apply Z.leb_gt in H
  | H : (_ =? _) = true |- _ => apply Z.eqb_eq in H
  | H : (_ =? _) = false |- _ => apply Z.eqb_neq in H
  end.

Ltac case_if :=
  match goal with
  | |- context [if ?b then _ else _] =>
      let E := fresh "Hif" in destruct b eqn:E; zify_bool
  end.

(** [if_true] / [if_false] decide the first test of the goal by [lia]. *)
Ltac if_true :=
  match goal with
  | |- context [if ?b then _ else _] =>
      replace b with true by (symmetry; rewrite ?andb_true_iff, ?orb_true_iff,
        ?negb_true_iff, ?Z.ltb_lt, ?Z.leb_le, ?Z.eqb_eq; lia)
  end.
Ltac if_false :=
  match goal with
  | |- context [if ?b then _ else _] =>
      replace b with false by (symmetry; rewrite ?andb_false_iff, ?orb_false_iff,
        ?negb_false_iff, ?Z.ltb_ge, ?Z.leb_gt, ?Z.eqb_neq; lia)
  end.

(** [not_OOF] follows the structure of a function to show that it does not
    run out of fuel, given hints for the functions it calls. *)
Ltac not_OOF :=
  repeat first
    [ solve [done | auto with redis]
    | apply bind_not_OOF; [| intros ? _]
    | match goal with |- context [match ?x with _ => _ end] => destruct x end ].

(** ** Arrays indexed by C integers *)

(** [aread l i] reads slot [i] of an array of [length l] slots. *)
Definition aread {A} (l : list A) (i : Z) : res A :=
  if (0 <=? i) then
    match l !! Z.to_nat i with Some a => Ok a | None => UB end
  else UB.

(** [awrite l i a] writes slot [i]; outside the array it is undefined. *)
Definition awrite {A} (l : list A) (i : Z) (a : A) : res (list A) :=
  if (0 <=? i) && (i <? Z.of_nat (length l))
  then Ok (<[Z.to_nat i := a]> l) else UB.

Section array_lemmas.
Context {A : Type}.
Implicit Types (l : list A) (i : Z).

Lemma aread_lookup l (i : nat) a : l !! i = Some a -> aread l (Z.of_nat i) = Ok a.
Proof.
  intros H. unfold aread. if_true. by rewrite Nat2Z.id, H.
Qed.

Lemma aread_middle l1 a l2 :
  aread (l1 ++ a :: l2) (Z.of_nat (length l1)) = Ok a.
Proof. apply aread_lookup. by apply list_lookup_middle. Qed.

Lemma awrite_middle l1 a b l2 :
  awrite (l1 ++ a :: l2) (Z.of_nat (length l1)) b = Ok (l1 ++ b :: l2).
Proof.
  unfold awrite. rewrite length_app. simpl. if_true.
  rewrite Nat2Z.id, <- (Nat.add_0_r (length l1)), insert_app_r. done.
Qed.

Lemma awrite_after_map {B} (f : B -> A) (lb : list B) a b l2 :
  awrite (map f lb ++ a :: l2) (Z.of_nat (length lb)) b = Ok (map f lb ++ b :: l2).
Proof. rewrite <- (length_map f lb). apply awrite_middle. Qed.

Lemma aread_after_map {B} (f : B -> A) (lb : list B) a l2 :
  aread (map f lb ++ a :: l2) (Z.of_nat (length lb)) = Ok a.
Proof. rewrite <- (length_map f lb). apply aread_middle. Qed.

Lemma aread_head a l : aread (a :: l) 0 = Ok a.
Proof. done. Qed.

Lemma awrite_head a b l : awrite (a :: l) 0 b = Ok (b :: l).
Proof. done. Qed.

Lemma awrite_not_OOF l i a : awrite l i a <> OOF.
Proof. unfold awrite. by case_if. Qed.

(** An access that does not succeed is undefined. *)
Lemma awrite_stops l i a f : awrite l i a = Stop f -> f = Undefined.
Proof. unfold awrite. case_if; congruence. Qed.

Lemma aread_stops l i f : aread l i = Stop f -> f = Undefined.
Proof. unfold aread. case_if; [destruct (l !! _)|]; congruence. Qed.

(** An access inside the array succeeds. *)
Lemma awrite_inside l i a :
  0 <= i < Z.of_nat (length l) -> exists l', awrite l i a = Ok l' /\ length l' = length l.
Proof. intros Hi. unfold awrite. if_true. eexists. split; [done|]. apply length_insert. Qed.

Lemma aread_inside l i : 0 <= i < Z.of_nat (length l) -> exists a, aread l i = Ok a.
Proof.
  intros Hi. unfold aread. if_true. destruct (lookup_lt_is_Some_2 l (Z.to_nat i)) as [a ->]; [lia|by exists a].
Qed.

Lemma aread_not_OOF l i : aread l i <> OOF.
Proof. unfold aread. case_if; [by destruct (l !! _) | done]. Qed.
End array_lemmas.

Lemma deref_not_OOF {A} (p : option A) : deref p <> OOF.
Proof. by destruct p. Qed.

#[export] Hint Resolve awrite_not_OOF aread_not_OOF deref_not_OOF : redis.

(** ** Lists *)

Section list_lemmas.
Context {A : Type}.
Implicit Types (l : list A).

Lemma split_at_length l (n : nat) :
  (n <= length l)%nat -> exists l1 l2, l = l1 ++ l2 /\ length l1 = n.
Proof.
  intros H. exists (take n l), (drop n l).
  split; [by rewrite take_drop | rewrite length_take; lia].
Qed.

Lemma snoc_inv l (n : nat) :
  length l = S n -> exists l' a, l = l' ++ [a] /\ length l' = n.
Proof.
  intros H. destruct l as [|a l' _] using rev_ind; [done|].
  exists l', a. rewrite length_app in H. simpl in H. split; [done | lia].
Qed.
End list_lemmas.
