(* ===== verification/CLib.v ===== *)
(** The C language and libc facts the sources rely on: integer conversions at
    their widths (x86-64 Linux: 8-bit signed [char], 32-bit [int]), bytes,
    NUL-terminated strings, the decimal conversions of [printf], block copies
    and the heap's answer to a request. *)

From Stdlib Require Export Strings.Byte.
From S2P Require Export Prelude.

(** ** Integers *)

Definition INT_MAX : Z := 2 ^ 31 - 1.
Definition uint8 (z : Z) : Z := z mod 2 ^ 8.
Definition int8 (z : Z) : Z := (z + 2 ^ 7) mod 2 ^ 8 - 2 ^ 7.
Definition uint32 (z : Z) : Z := z mod 2 ^ 32.
Definition int32 (z : Z) : Z := (z + 2 ^ 31) mod 2 ^ 32 - 2 ^ 31.

Lemma uint32_small z : 0 <= z < 2 ^ 32 -> uint32 z = z.
Proof. intros H. unfold uint32. by rewrite Z.mod_small. Qed.

Lemma uint32_range z : 0 <= uint32 z < 2 ^ 32.
Proof. unfold uint32. apply Z.mod_pos_bound. lia. Qed.

Lemma int32_small z : - 2 ^ 31 <= z < 2 ^ 31 -> int32 z = z.
Proof. intros H. unfold int32. rewrite Z.mod_small; lia. Qed.

Lemma int32_range z : - 2 ^ 31 <= int32 z < 2 ^ 31.
Proof.
  unfold int32. pose proof (Z.mod_pos_bound (z + 2 ^ 31) (2 ^ 32)). lia.
Qed.

Lemma int32_high z : 2 ^ 31 <= z < 2 ^ 32 -> int32 z = z - 2 ^ 32.
Proof.
  intros H. unfold int32.
  replace (z + 2 ^ 31) with ((z - 2 ^ 31) + 1 * 2 ^ 32) by lia.
  rewrite Z.mod_add by lia. rewrite Z.mod_small; lia.
Qed.

#[export] Hint Rewrite uint32_small int32_small using lia : redis_rw.

(** ** Bytes *)

#[export] Instance byte_eq_dec : EqDecision byte := Byte.byte_eq_dec.
#[export] Program Instance byte_countable : Countable byte :=
  inj_countable Byte.to_N Byte.of_N Byte.of_to_N.

Definition NUL : byte := Byte.x00.
Definition CR : byte := Byte.x0d.
Definition LF : byte := Byte.x0a.
Definition crlf : list byte := [CR; LF].

(** The value of a byte read as [unsigned char] and as (signed) [char]. *)
Definition byte_val (b : byte) : Z := Z.of_N (Byte.to_N b).
Definition char_val (b : byte) : Z := int8 (byte_val b).
Definition byte_of (z : Z) : byte := default NUL (Byte.of_N (Z.to_N z)).

(** A string literal, without its terminating NUL. *)
Definition bs (s : string) : list byte := String.list_byte_of_string s.
Arguments bs s%_string_scope.

Lemma byte_val_range b : 0 <= byte_val b < 256.
Proof. unfold byte_val. pose proof (Byte.to_N_bounded b). lia. Qed.

Lemma byte_val_of z : 0 <= z < 256 -> byte_val (byte_of z) = z.
Proof.
  intros H. unfold byte_val, byte_of.
  destruct (Byte.of_N (Z.to_N z)) as [b|] eqn:E; simpl.
  - apply Byte.to_of_N in E. rewrite E. lia.
  - apply Byte.of_N_None_iff in E. lia.
Qed.

Lemma byte_val_inj a b : byte_val a = byte_val b -> a = b.
Proof.
  unfold byte_val. intros H. apply N2Z.inj in H.
  pose proof (Byte.of_to_N a) as Ha. rewrite H, Byte.of_to_N in Ha. congruence.
Qed.

(** [c > 47 && c < 58], the digit test of the sources, on a signed [char]. *)
Definition is_digit (b : byte) : bool := (47 <? char_val b) && (char_val b <? 58).

Lemma char_val_small b : byte_val b < 128 -> char_val b = byte_val b.
Proof.
  intros H. unfold char_val, int8. pose proof (byte_val_range b).
  rewrite Z.mod_small; lia.
Qed.

Lemma char_val_digit b : is_digit b = true -> 48 <= byte_val b <= 57 /\ char_val b = byte_val b.
Proof.
  unfold is_digit, char_val, int8. intros H. zify_bool.
  pose proof (byte_val_range b).
  assert (byte_val b < 128).
  { destruct (Z_lt_ge_dec (byte_val b) 128); [done|].
    replace (byte_val b + 2 ^ 7) with ((byte_val b - 128) + 1 * 2 ^ 8) in * by lia.
    rewrite Z.mod_add in * by lia. rewrite Z.mod_small in *; lia. }
  rewrite Z.mod_small in *; lia.
Qed.

Lemma is_digit_of b : 48 <= byte_val b <= 57 -> is_digit b = true.
Proof.
  intros H. unfold is_digit. rewrite char_val_small by lia.
  rewrite andb_true_iff, !Z.ltb_lt. lia.
Qed.

(** ** NUL-terminated strings

    A [char*] is the list of bytes of its object; the byte after the last one
    is the terminating NUL the sources always allocate and write, so a C
    string function sees the bytes before the first NUL. *)

Fixpoint c_str (l : list byte) : list byte :=
  match l with
  | [] => []
  | b :: l' => if decide (b = NUL) then [] else b :: c_str l'
  end.

Definition strlen (l : list byte) : Z := Z.of_nat (length (c_str l)).

(** [strcmp(a,b)==0] *)
Definition strcmp_eq (a b : list byte) : bool := bool_decide (c_str a = c_str b).

Definition nul_free (l : list byte) : Prop := NUL ∉ l.

#[export] Instance nul_free_dec l : Decision (nul_free l).
Proof. unfold nul_free. apply _. Defined.

Lemma c_str_nul_free l : nul_free l -> c_str l = l.
Proof.
  unfold nul_free. induction l as [|b l IH]; simpl; [done|]. intros H.
  rewrite decide_False by set_solver. f_equal. apply IH. set_solver.
Qed.

Lemma nul_free_c_str l : nul_free (c_str l).
Proof.
  unfold nul_free. induction l as [|b l IH]; simpl; [set_solver|].
  case_decide; set_solver.
Qed.

Lemma c_str_idemp l : c_str (c_str l) = c_str l.
Proof. apply c_str_nul_free, nul_free_c_str. Qed.

Lemma nul_free_nil : nul_free [].
Proof. unfold nul_free. set_solver. Qed.

Lemma nul_free_app l1 l2 : nul_free (l1 ++ l2) <-> nul_free l1 /\ nul_free l2.
Proof. unfold nul_free. rewrite elem_of_app. tauto. Qed.

Lemma nul_free_cons b l : nul_free (b :: l) <-> b <> NUL /\ nul_free l.
Proof. unfold nul_free. rewrite elem_of_cons. naive_solver. Qed.

Lemma nul_free_take n l : nul_free l -> nul_free (take n l).
Proof.
  unfold nul_free. intros H Hin. apply H. rewrite <- (take_drop n l). apply elem_of_app. by left.
Qed.

Lemma c_str_app l1 l2 : nul_free l1 -> c_str (l1 ++ l2) = l1 ++ c_str l2.
Proof.
  induction l1 as [|b l1 IH]; [done|]. rewrite nul_free_cons. intros [Hb H].
  simpl. rewrite decide_False by done. by rewrite IH.
Qed.

Lemma c_str_snoc_nul l : nul_free l -> c_str (l ++ [NUL]) = l.
Proof. intros H. rewrite c_str_app by done. simpl. by rewrite app_nil_r. Qed.

Lemma strlen_nul_free l : nul_free l -> strlen l = Z.of_nat (length l).
Proof. intros H. unfold strlen. by rewrite c_str_nul_free. Qed.

Lemma length_c_str l : (length (c_str l) <= length l)%nat.
Proof. induction l as [|b l IH]; simpl; [lia|]. case_decide; simpl; lia. Qed.

(** A literal without NUL. *)
Ltac nul_free_literal := refine (bool_decide_eq_true_1 _ _); vm_compute; reflexivity.

#[export] Hint Resolve nul_free_nil nul_free_c_str : redis.

(** ** Decimal conversions: [%d], [%zu] *)

Definition digit (d : Z) : byte := byte_of (48 + d).

Fixpoint dec_loop (fuel : nat) (n : Z) : list byte :=
  match fuel with
  | O => []
  | S f => if n <? 10 then [digit n] else dec_loop f (n / 10) ++ [digit (n mod 10)]
  end.

Definition dec_digits (n : Z) : list byte := dec_loop (S (Z.to_nat (Z.log2 n))) n.

Definition decimal (n : Z) : list byte :=
  if n <? 0 then "-"%byte :: dec_digits (- n) else dec_digits n.

(** The value of a string of digits, most significant first. *)
Definition dec_value (l : list byte) : Z :=
  foldl (fun acc b => acc * 10 + (byte_val b - 48)) 0 l.

Lemma is_digit_digit d : 0 <= d < 10 -> is_digit (digit d) = true.
Proof. intros H. apply is_digit_of. unfold digit. rewrite byte_val_of; lia. Qed.

Lemma dec_loop_digits f n :
  0 <= n -> Forall (fun b => is_digit b = true) (dec_loop f n).
Proof.
  revert n. induction f as [|f IH]; intros n Hn; simpl; [constructor|].
  case_if.
  - repeat constructor. apply is_digit_digit. lia.
  - apply Forall_app. split.
    + apply IH. apply Z.div_pos; lia.
    + repeat constructor. apply is_digit_digit. apply Z.mod_pos_bound. lia.
Qed.

Lemma dec_loop_value f n :
  0 <= n -> n < 10 ^ Z.of_nat f -> dec_value (dec_loop f n) = n.
Proof.
  revert n. induction f as [|f IH]; intros n Hn Hf.
  - simpl in Hf. simpl. unfold dec_value. simpl. lia.
  - simpl dec_loop. case_if.
    + unfold dec_value, digit. simpl. rewrite byte_val_of; lia.
    + unfold dec_value in *. rewrite foldl_app. simpl.
      rewrite IH.
      * unfold digit. rewrite byte_val_of by (pose proof (Z.mod_pos_bound n 10); lia).
        pose proof (Z.div_mod n 10). lia.
      * apply Z.div_pos; lia.
      * apply Z.div_lt_upper_bound; [lia|].
        rewrite Nat2Z.inj_succ, Z.pow_succ_r in Hf by lia. lia.
Qed.

Lemma dec_loop_length f n k :
  (1 <= k)%nat -> 0 <= n < 10 ^ Z.of_nat k -> (length (dec_loop f n) <= k)%nat.
Proof.
  revert n k. induction f as [|f IH]; intros n k Hk Hn; simpl; [lia|].
  case_if; simpl; [lia|].
  destruct k as [|k]; [lia|]. rewrite length_app. simpl.
  rewrite Nat2Z.inj_succ, Z.pow_succ_r in Hn by lia.
  destruct k as [|k]; [simpl in Hn; lia|].
  enough (length (dec_loop f (n / 10)) <= S k)%nat by lia.
  apply IH; [lia|]. split; [apply Z.div_pos; lia|].
  apply Z.div_lt_upper_bound; lia.
Qed.

Lemma dec_fuel_ok n : 0 <= n -> n < 10 ^ Z.of_nat (S (Z.to_nat (Z.log2 n))).
Proof.
  intros Hn. destruct (Z.eq_dec n 0) as [->|Hn0]; [simpl; lia|].
  rewrite Nat2Z.inj_succ, Z2Nat.id by apply Z.log2_nonneg.
  pose proof (Z.log2_spec n).
  assert (2 ^ Z.succ (Z.log2 n) <= 10 ^ Z.succ (Z.log2 n)).
  { apply Z.pow_le_mono_l. lia. }
  lia.
Qed.

Lemma dec_digits_value n : 0 <= n -> dec_value (dec_digits n) = n.
Proof. intros Hn. apply dec_loop_value; [done | by apply dec_fuel_ok]. Qed.

Lemma dec_digits_digits n :
  0 <= n -> Forall (fun b => is_digit b = true) (dec_digits n).
Proof. intros. by apply dec_loop_digits. Qed.

Lemma dec_digits_length n k :
  (1 <= k)%nat -> 0 <= n < 10 ^ Z.of_nat k -> (length (dec_digits n) <= k)%nat.
Proof. apply dec_loop_length. Qed.

Lemma dec_digits_nonempty n : dec_digits n <> [].
Proof.
  unfold dec_digits. simpl. case_if; [done|]. intros H. by apply app_nil in H as [_ ?].
Qed.

Lemma digits_nul_free l : Forall (fun b => is_digit b = true) l -> nul_free l.
Proof.
  unfold nul_free. intros H Hin.
  rewrite Forall_forall in H. apply H in Hin. discriminate.
Qed.

Lemma decimal_nonneg n : 0 <= n -> decimal n = dec_digits n.
Proof. intros. unfold decimal. by if_false. Qed.

Lemma decimal_nul_free n : nul_free (decimal n).
Proof.
  unfold decimal. case_if.
  - apply nul_free_cons. split; [done|]. apply digits_nul_free, dec_digits_digits. lia.
  - apply digits_nul_free, dec_digits_digits. lia.
Qed.

Lemma decimal_length n k :
  (1 <= k)%nat -> - 10 ^ Z.of_nat k < n < 10 ^ Z.of_nat k -> (length (decimal n) <= S k)%nat.
Proof.
  intros Hk Hn. unfold decimal. case_if; simpl.
  - apply le_n_S. apply dec_digits_length; lia.
  - etrans; [apply dec_digits_length; [exact Hk | lia] | lia].
Qed.

#[export] Hint Resolve decimal_nul_free : redis.

(** ** Formatted output and block copies *)

(** [snprintf(dst, n, ...)]: the text that stays in [dst], for [n > 0]. *)
Definition snprintf (n : Z) (text : list byte) : list byte := take (Z.to_nat (n - 1)) text.

Lemma snprintf_fits n text :
  Z.of_nat (length text) < n -> snprintf n text = text.
Proof. intros H. unfold snprintf. apply take_ge. lia. Qed.

(** [calloc(n, 1)] with [n > 0]: [n] zero bytes. *)
Definition calloc (n : Z) : list byte := replicate (Z.to_nat n) NUL.

Arguments calloc _ : simpl never.

(** [memcpy(dst + pos, src, length src)] into an object [dst]. *)
Definition memcpy (dst : list byte) (pos : Z) (src : list byte) : res (list byte) :=
  if (0 <=? pos) && (pos + Z.of_nat (length src) <=? Z.of_nat (length dst))
  then Ok (take (Z.to_nat pos) dst ++ src ++ drop (Z.to_nat pos + length src) dst)
  else UB.

Lemma memcpy_at (done_ src : list byte) (room : nat) :
  (length src <= room)%nat ->
  memcpy (done_ ++ replicate room NUL) (Z.of_nat (length done_)) src
  = Ok ((done_ ++ src) ++ replicate (room - length src) NUL).
Proof.
  intros H. unfold memcpy. rewrite length_app, length_replicate. if_true.
  f_equal. rewrite Nat2Z.id, take_app_length, <- (assoc_L (++)). do 2 f_equal.
  rewrite drop_app_ge by lia. rewrite drop_replicate. f_equal. lia.
Qed.

(** ** The heap's answer to a request

    Whether the [n]-th request of an operation, for that many bytes, is
    granted by [realloc] is the platform's decision: every theorem that does
    not say otherwise holds for each answer. *)

Class Heap := heap_grants : nat -> Z -> bool.
