(* ===== verification/CFloat.v ===== *)
(** Binary floating point as the sources use it for elapsed times: a value is
    a rational, and every C operation rounds its exact result to nearest, ties
    to even, with 24 bits ([float]) or 53 bits ([double]) of precision.  The
    times involved are far from the exponent limits of both formats, so the
    exponent is unbounded here.  The lemmas show that rounding is monotone and
    exact on the integers below [2 ^ p]. *)

From Stdlib Require Import QArith Qround Qpower Lqa.
From S2P Require Import Prelude.

#[local] Open Scope Q_scope.

Definition pow2 (k : Z) : Q := Qpower 2 k.

(** Round to the nearest integer, ties to even. *)
Definition rne (x : Q) : Z :=
  let q := Qfloor x in
  match ((x - inject_Z q) ?= (1 # 2))%Q with
  | Lt => q
  | Gt => (q + 1)%Z
  | Eq => if Z.even q then q else (q + 1)%Z
  end.

(** The exponent of a positive rational: [2 ^ ilog2 x <= x < 2 ^ (ilog2 x + 1)]. *)
Definition ilog2 (x : Q) : Z :=
  let k := (Z.log2 (Qnum x) - Z.log2 (Zpos (Qden x)))%Z in
  if Qle_bool (pow2 k) x then k else (k - 1)%Z.

Definition round_pos (p : Z) (x : Q) : Q :=
  let e := (ilog2 x - (p - 1))%Z in
  inject_Z (rne (x * pow2 (- e))) * pow2 e.

Definition round (p : Z) (x : Q) : Q :=
  match x ?= 0 with
  | Eq => 0
  | Gt => round_pos p x
  | Lt => - round_pos p (- x)
  end.

Definition to_double : Q -> Q := round 53.
Definition to_float : Q -> Q := round 24.

(** ** Rounding to an integer *)

Lemma rne_bounds x : x - (1 # 2) <= inject_Z (rne x) <= x + (1 # 2).
Proof.
  pose proof (Qfloor_le x) as H1. pose proof (Qlt_floor x) as H2.
  rewrite inject_Z_plus in H2. change (inject_Z 1) with 1 in H2.
  unfold rne. destruct (Qcompare_spec (x - inject_Z (Qfloor x)) (1 # 2)) as [E|E|E].
  - destruct (Z.even (Qfloor x)); rewrite ?inject_Z_plus;
      change (inject_Z 1) with 1; split; lra.
  - split; lra.
  - rewrite inject_Z_plus. change (inject_Z 1) with 1. split; lra.
Qed.

#[export] Instance rne_proper : Proper (Qeq ==> eq) rne.
Proof.
  intros x y E. unfold rne. rewrite (Qfloor_comp _ _ E).
  assert (((x - inject_Z (Qfloor y)) ?= (1 # 2)) = ((y - inject_Z (Qfloor y)) ?= (1 # 2))) as ->.
  { apply Qcompare_comp; [now rewrite E | reflexivity]. }
  reflexivity.
Qed.

Lemma rne_mono x y : x <= y -> (rne x <= rne y)%Z.
Proof.
  intros H. destruct (Z_le_gt_dec (rne x) (rne y)) as [?|G]; [done|exfalso].
  pose proof (rne_bounds x) as Hx. pose proof (rne_bounds y) as Hy.
  assert (inject_Z (rne y + 1) <= inject_Z (rne x)) as H1.
  { apply inject_Z_le_iff || rewrite <- Zle_Qle. lia. }
  rewrite inject_Z_plus in H1. change (inject_Z 1) with 1 in H1.
  assert (x == y) as E by lra. rewrite E in G. lia.
Qed.

Lemma rne_int n : rne (inject_Z n) = n.
Proof.
  unfold rne. rewrite Qfloor_Z.
  destruct (Qcompare_spec (inject_Z n - inject_Z n) (1 # 2)) as [E|E|E];
    [lra | done | lra].
Qed.

(** ** Exponents *)

Lemma pow2_pos k : 0 < pow2 k.
Proof. apply Qpower_0_lt. lra. Qed.

Lemma pow2_plus j k : pow2 (j + k) == pow2 j * pow2 k.
Proof. apply Qpower_plus. lra. Qed.

Lemma pow2_succ k : pow2 (k + 1) == 2 * pow2 k.
Proof. rewrite pow2_plus. change (pow2 1) with 2. lra. Qed.

Lemma pow2_mono j k : (j <= k)%Z -> pow2 j <= pow2 k.
Proof. intros H. apply Qpower_le_compat_l; [done | lra]. Qed.

Lemma pow2_inv k : pow2 k * pow2 (- k) == 1.
Proof.
  rewrite <- pow2_plus. replace (k + - k)%Z with 0%Z by lia. reflexivity.
Qed.

Lemma pow2_int k : (0 <= k)%Z -> pow2 k == inject_Z (2 ^ k).
Proof. intros H. unfold pow2. now rewrite Zpower_Qpower by done. Qed.

Lemma ilog2_aux n d a b :
  pow2 a <= n < pow2 (a + 1) -> pow2 b <= d < pow2 (b + 1) ->
  n < d * pow2 (a - b + 1) /\ d * pow2 (a - b - 1) <= n.
Proof.
  intros [H1 H2] [H3 H4].
  pose proof (pow2_pos (a - b + 1)). pose proof (pow2_pos (a - b - 1)).
  split.
  - apply Qlt_le_trans with (pow2 (a + 1)); [done|].
    replace (a + 1)%Z with (b + (a - b + 1))%Z by lia. rewrite pow2_plus.
    apply Qmult_le_compat_r; [done | lra].
  - apply Qle_trans with (pow2 a); [|done].
    replace a with ((b + 1) + (a - b - 1))%Z at 2 by lia. rewrite (pow2_plus (b + 1)).
    apply Qmult_le_compat_r; lra.
Qed.

Lemma log2_pow2 n : (0 < n)%Z ->
  pow2 (Z.log2 n) <= inject_Z n /\ inject_Z n < pow2 (Z.log2 n + 1).
Proof.
  intros H. pose proof (Z.log2_spec n H) as [H1 H2].
  pose proof (Z.log2_nonneg n). rewrite !pow2_int by lia.
  rewrite <- Zle_Qle, <- Zlt_Qlt. replace (Z.log2 n + 1)%Z with (Z.succ (Z.log2 n)) by lia.
  done.
Qed.

Lemma ilog2_spec x : 0 < x -> pow2 (ilog2 x) <= x /\ x < pow2 (ilog2 x + 1).
Proof.
  intros Hx. destruct x as [n d].
  assert (0 < n)%Z as Hn. { unfold Qlt in Hx. simpl in Hx. lia. }
  assert (n # d == inject_Z n / inject_Z (Zpos d)) as E by (rewrite (Qmake_Qdiv n d); reflexivity).
  assert (0 < inject_Z (Zpos d)) as Hd by (rewrite <- (Zlt_Qlt 0); lia).
  destruct (ilog2_aux _ _ _ _ (log2_pow2 n Hn) (log2_pow2 (Zpos d) ltac:(lia))) as [H1 H2].
  unfold ilog2. simpl Qnum. simpl Qden.
  set (k := (Z.log2 n - Z.log2 (Zpos d))%Z) in *.
  assert (n # d < pow2 (k + 1)) as H3.
  { rewrite E. apply Qlt_shift_div_r; [done|]. rewrite Qmult_comm. exact H1. }
  assert (pow2 (k - 1) <= n # d) as H4.
  { rewrite E. apply Qle_shift_div_l; [done|]. rewrite Qmult_comm. exact H2. }
  destruct (Qle_bool (pow2 k) (n # d)) eqn:Hk.
  - apply Qle_bool_iff in Hk. done.
  - split; [done|]. replace (k - 1 + 1)%Z with k by lia.
    apply Qnot_le_lt. rewrite <- Qle_bool_iff. congruence.
Qed.

Lemma ilog2_mono x y : 0 < x -> x <= y -> (ilog2 x <= ilog2 y)%Z.
Proof.
  intros Hx H. destruct (ilog2_spec x Hx) as [H1 _].
  destruct (ilog2_spec y ltac:(lra)) as [_ H2].
  destruct (Z_le_gt_dec (ilog2 x) (ilog2 y)) as [?|G]; [done|exfalso].
  pose proof (pow2_mono (ilog2 y + 1) (ilog2 x) ltac:(lia)). lra.
Qed.

(** ** Rounding to [p] bits *)

Section round_to.
Context (p : Z) (Hp : (1 <= p)%Z).

(** A positive value scaled to its [p]-bit significand. *)
Lemma scaled_bounds x (e := (ilog2 x - (p - 1))%Z) :
  0 < x -> pow2 (p - 1) <= x * pow2 (- e) /\ x * pow2 (- e) < pow2 p.
Proof.
  intros Hx. destruct (ilog2_spec x Hx) as [H1 H2].
  pose proof (pow2_pos (- e)) as Hs. split.
  - apply Qle_trans with (pow2 (ilog2 x) * pow2 (- e)).
    + rewrite <- pow2_plus. apply pow2_mono. lia.
    + apply Qmult_le_compat_r; lra.
  - apply Qlt_le_trans with (pow2 (ilog2 x + 1) * pow2 (- e)).
    + apply Qmult_lt_compat_r; lra.
    + rewrite <- pow2_plus. apply pow2_mono. lia.
Qed.

Lemma significand_bounds x (e := (ilog2 x - (p - 1))%Z) :
  0 < x -> (2 ^ (p - 1) <= rne (x * pow2 (- e)) <= 2 ^ p)%Z.
Proof.
  intros Hx. destruct (scaled_bounds x Hx) as [H1 H2]. fold e in H1, H2.
  rewrite (pow2_int (p - 1)) in H1 by lia. rewrite (pow2_int p) in H2 by lia.
  split.
  - rewrite <- (rne_int (2 ^ (p - 1))). now apply rne_mono.
  - rewrite <- (rne_int (2 ^ p)). apply rne_mono. lra.
Qed.

Lemma round_pos_bounds x :
  0 < x -> pow2 (ilog2 x) <= round_pos p x /\ round_pos p x <= pow2 (ilog2 x + 1).
Proof.
  intros Hx. destruct (significand_bounds x Hx) as [H1 H2].
  unfold round_pos. set (e := (ilog2 x - (p - 1))%Z) in *.
  pose proof (pow2_pos e). rewrite Zle_Qle in H1, H2.
  rewrite <- (pow2_int (p - 1)) in H1 by lia. rewrite <- (pow2_int p) in H2 by lia. split.
  - replace (ilog2 x) with ((p - 1) + e)%Z by lia. rewrite pow2_plus.
    apply Qmult_le_compat_r; lra.
  - replace (ilog2 x + 1)%Z with (p + e)%Z by lia. rewrite pow2_plus.
    apply Qmult_le_compat_r; lra.
Qed.

Lemma round_pos_pos x : 0 < x -> 0 < round_pos p x.
Proof.
  intros Hx. pose proof (round_pos_bounds x Hx). pose proof (pow2_pos (ilog2 x)). lra.
Qed.

Lemma round_pos_mono x y : 0 < x -> x <= y -> round_pos p x <= round_pos p y.
Proof.
  intros Hx Hxy. pose proof (ilog2_mono x y Hx Hxy) as He.
  destruct (Z.eq_dec (ilog2 x) (ilog2 y)) as [E|NE].
  - unfold round_pos. rewrite E. set (e := (ilog2 y - (p - 1))%Z).
    pose proof (pow2_pos e). pose proof (pow2_pos (- e)).
    apply Qmult_le_compat_r; [|lra]. rewrite <- Zle_Qle.
    apply rne_mono. apply Qmult_le_compat_r; lra.
  - destruct (round_pos_bounds x Hx) as [_ H1].
    destruct (round_pos_bounds y ltac:(lra)) as [H2 _].
    pose proof (pow2_mono (ilog2 x + 1) (ilog2 y) ltac:(lia)). lra.
Qed.

Lemma round_mono x y : x <= y -> round p x <= round p y.
Proof.
  intros H. unfold round.
  destruct (Qcompare_spec x 0) as [Ex|Ex|Ex], (Qcompare_spec y 0) as [Ey|Ey|Ey];
    try lra.
  - pose proof (round_pos_pos y ltac:(lra)). lra.
  - pose proof (round_pos_pos (- x) ltac:(lra)). lra.
  - pose proof (round_pos_mono (- y) (- x) ltac:(lra) ltac:(lra)). lra.
  - pose proof (round_pos_pos (- x) ltac:(lra)).
    pose proof (round_pos_pos y ltac:(lra)). lra.
  - apply round_pos_mono; lra.
Qed.

#[export] Instance round_proper : Proper (Qeq ==> Qeq) (round p).
Proof.
  intros x y E. apply Qle_antisym; apply round_mono; lra.
Qed.

(** Integers of at most [p] bits are representable. *)
Lemma round_pos_int n : (0 < n < 2 ^ p)%Z -> round_pos p (inject_Z n) == inject_Z n.
Proof.
  intros Hn. assert (0 < inject_Z n) as Hq by (rewrite <- (Zlt_Qlt 0); lia).
  destruct (ilog2_spec _ Hq) as [H1 H2].
  assert (ilog2 (inject_Z n) <= p - 1)%Z as Hle.
  { destruct (Z_le_gt_dec (ilog2 (inject_Z n)) (p - 1)) as [?|G]; [done|exfalso].
    pose proof (pow2_mono p (ilog2 (inject_Z n)) ltac:(lia)) as H3.
    rewrite (pow2_int p) in H3 by lia.
    assert (inject_Z (2 ^ p) <= inject_Z n) as H4 by lra.
    rewrite <- Zle_Qle in H4. lia. }
  unfold round_pos. set (e := (ilog2 (inject_Z n) - (p - 1))%Z) in *.
  assert (inject_Z n * pow2 (- e) == inject_Z (n * 2 ^ (- e))) as E.
  { rewrite inject_Z_mult, pow2_int by lia. reflexivity. }
  rewrite E, rne_int, <- E, <- Qmult_assoc, (Qmult_comm (pow2 (- e))), pow2_inv. lra.
Qed.

Lemma round_int n : (- 2 ^ p < n < 2 ^ p)%Z -> round p (inject_Z n) == inject_Z n.
Proof.
  intros Hn. unfold round.
  destruct (Qcompare_spec (inject_Z n) 0) as [E|E|E]; [lra| |].
  - assert (n < 0)%Z by (rewrite Zlt_Qlt; exact E).
    rewrite <- inject_Z_opp, round_pos_int by lia. rewrite inject_Z_opp. lra.
  - assert (0 < n)%Z by (rewrite Zlt_Qlt; exact E). apply round_pos_int. lia.
Qed.
End round_to.

(** ** The error of a rounding *)

Section error.
Context (p : Z).

Lemma round_pos_error k x :
  0 < x -> x < pow2 k -> x - pow2 (k - p - 1) <= round_pos p x <= x + pow2 (k - p - 1).
Proof.
  intros Hx Hk. destruct (ilog2_spec x Hx) as [H1 _].
  assert (ilog2 x <= k - 1)%Z as Hle.
  { destruct (Z_le_gt_dec (ilog2 x) (k - 1)) as [?|G]; [done|exfalso].
    pose proof (pow2_mono k (ilog2 x) ltac:(lia)). lra. }
  unfold round_pos. set (e := (ilog2 x - (p - 1))%Z).
  pose proof (rne_bounds (x * pow2 (- e))) as [B1 B2]. pose proof (pow2_pos e) as He.
  assert (x == x * pow2 (- e) * pow2 e) as Ex.
  { rewrite <- Qmult_assoc, (Qmult_comm (pow2 (- e))), pow2_inv. lra. }
  assert (pow2 e == 2 * pow2 (e - 1)) as E2.
  { rewrite <- pow2_succ. now replace (e - 1 + 1)%Z with e by lia. }
  pose proof (pow2_mono (e - 1) (k - p - 1) ltac:(lia)) as Hm.
  set (y := x * pow2 (- e)) in *. set (r := inject_Z (rne y)) in *.
  apply (Qmult_le_compat_r _ _ (pow2 e)) in B1; [|lra].
  apply (Qmult_le_compat_r _ _ (pow2 e)) in B2; [|lra].
  split; lra.
Qed.

Lemma round_error k x :
  - pow2 k < x -> x < pow2 k -> x - pow2 (k - p - 1) <= round p x <= x + pow2 (k - p - 1).
Proof.
  intros H1 H2. pose proof (pow2_pos (k - p - 1)). unfold round.
  destruct (Qcompare_spec x 0) as [E|E|E]; [lra| |].
  - pose proof (round_pos_error k (- x) ltac:(lra) ltac:(lra)). lra.
  - pose proof (round_pos_error k x E H2). lra.
Qed.

(** A strict comparison of rounded values is one of the exact values. *)
Lemma round_lt_inv x y : (1 <= p)%Z -> round p x < round p y -> x < y.
Proof.
  intros Hp H. apply Qnot_le_lt. intros Hle. pose proof (round_mono p Hp y x Hle). lra.
Qed.
End error.
