(* ===== verification/SimpleMap.v ===== *)
(** The key-value store of [simple_map.c]: two parallel arrays of wrapper
    pointers that grow by doubling, searched linearly with the caller's
    comparison function.  The operations are generic in the key and value
    objects, which the source sees through [void*]. *)

From S2P Require Import Prelude CLib.

(** ** Data *)

(** A slot of a [KeyWrapper**] or [ValueWrapper**] array: memory [realloc]
    has not initialised, a null pointer, or a pointer to a wrapper. *)
Inductive slot (A : Type) : Type :=
  | Junk
  | Null
  | Ptr (a : A).
Arguments Junk {A}.
Arguments Null {A}.
Arguments Ptr {A} a.

(** [!sm->keys[i]] and [sm->keys[i]->...] *)
Definition slot_null {A} (s : slot A) : res bool :=
  match s with Junk => UB | Null => Ok true | Ptr _ => Ok false end.
Definition slot_deref {A} (s : slot A) : res A :=
  match s with Ptr a => Ok a | _ => UB end.

Record KeyWrapper (K : Type) := mkKeyWrapper { kw_key : option K }.
Record ValueWrapper (V : Type) := mkValueWrapper { vw_value : option V }.
Arguments mkKeyWrapper {K} kw_key.
Arguments kw_key {K} _.
Arguments mkValueWrapper {V} vw_value.
Arguments vw_value {V} _.

Record KeyValuePair (K V : Type) := mkKVP { kvp_key : option K; kvp_value : option V }.
Arguments mkKVP {K V} kvp_key kvp_value.
Arguments kvp_key {K V} _.
Arguments kvp_value {K V} _.

Record SimpleMap (K V : Type) := mkSM {
  sm_keys : option (list (slot (KeyWrapper K)));
  sm_values : option (list (slot (ValueWrapper V)));
  sm_capacity : Z;
  sm_top : Z
}.
Arguments mkSM {K V} sm_keys sm_values sm_capacity sm_top.
Arguments sm_keys {K V} _.
Arguments sm_values {K V} _.
Arguments sm_capacity {K V} _.
Arguments sm_top {K V} _.

(** An iterator over a map: [SimpleMapWrapper]. *)
Record SimpleMapWrapper (K V : Type) := mkSMW { smw_index : Z; smw_sm : SimpleMap K V }.
Arguments mkSMW {K V} smw_index smw_sm.
Arguments smw_index {K V} _.
Arguments smw_sm {K V} _.

Definition FIND_KEY_ERROR : Z := -1.
Definition KEY_ARR_ERROR : Z := -2.
Definition KEY_NOT_FOUND : Z := -3.

Inductive SetKeyValueRtn := ERROR_SET_SM_RTN | SUCESS_SET | SUCESS_UPGRADE.
Inductive RemoveItemState := REMOVE_ERROR | REMOVE_SUCCESS | REMOVE_KEY_NOT_FOUND.

#[export] Instance SetKeyValueRtn_eq_dec : EqDecision SetKeyValueRtn.
Proof. solve_decision. Defined.
#[export] Instance RemoveItemState_eq_dec : EqDecision RemoveItemState.
Proof. solve_decision. Defined.

(** ** Operations *)

Section operations.
  Context {K V : Type} `{Heap}.
  Implicit Types (sm : SimpleMap K V) (kvp : KeyValuePair K V).

  (** The caller's comparison function, on [void*] arguments: whether it
      returns a non-null pointer. *)
  Implicit Type cmp_fptr : option K -> option K -> res bool.

Definition create_key_val_pair (key : option K) (value : option V) : option (KeyValuePair K V) :=
  match key with
  | None => None
  | Some _ => Some (mkKVP key value)
  end.

Definition create_simple_map : SimpleMap K V :=
  mkSM (Some [Null]) (Some [Null]) 1 (-1).

Definition __is_full sm : bool := sm_top sm + 1 =? sm_capacity sm.

(** [realloc] to more slots keeps the old ones; the rest is indeterminate. *)
Definition realloc_grow {A} (l : list (slot A)) (n : Z) : list (slot A) :=
  l ++ replicate (Z.to_nat n - length l) Junk.

Definition sizeof_ptr : Z := 8.

(** Returns whether the result is [sm] (and not [NULL]), and the map. *)
Definition __double_arrays sm : res (bool * SimpleMap K V) :=
  match sm_keys sm, sm_values sm with
  | Some ks, Some vs =>
      if (sm_capacity sm =? 0) || negb (__is_full sm) then Ok (false, sm)
      else
        let new_capacity := 2 * sm_capacity sm in
        ub_unless (new_capacity <=? INT_MAX) (
        if negb (heap_grants 0 (new_capacity * sizeof_ptr)) then Ok (false, sm)
        else
          let keys := realloc_grow ks new_capacity in
          if negb (heap_grants 1 (new_capacity * sizeof_ptr)) then
            let keys' :=
              if heap_grants 2 (sm_capacity sm * sizeof_ptr)
              then Some (take (Z.to_nat (sm_capacity sm)) keys) else None in
            Ok (false, mkSM keys' (sm_values sm) (sm_capacity sm) (sm_top sm))
          else
            let values := realloc_grow vs new_capacity in
            Ok (true, mkSM (Some keys) (Some values) new_capacity (sm_top sm)))
  | _, _ => Ok (false, sm)
  end.

(** Returns whether the result is [key_par] (and not [NULL]), and the map. *)
Definition __set sm kvp : res (bool * SimpleMap K V) :=
  if is_null (sm_keys sm) || is_null (sm_values sm) || is_null (kvp_key kvp)
     || (sm_capacity sm =? 0)
  then Ok (false, sm)
  else
    let key := mkKeyWrapper (kvp_key kvp) in
    let value := mkValueWrapper (kvp_value kvp) in
    '(grown, sm) ← (if __is_full sm then __double_arrays sm else Ok (true, sm));
    if negb grown then Ok (false, sm)
    else
      let top := sm_top sm + 1 in
      ks ← deref (sm_keys sm);
      vs ← deref (sm_values sm);
      ks ← awrite ks top (Ptr key);
      vs ← awrite vs top (Ptr value);
      Ok (true, mkSM (Some ks) (Some vs) (sm_capacity sm) top).

(** Swaps the pair with the one at [pos]: the wrappers are updated in place. *)
Definition __upgrade sm (pos : Z) kvp : res (bool * SimpleMap K V * KeyValuePair K V) :=
  if is_null (sm_values sm) || is_null (sm_keys sm) || (pos <? 0) || (sm_top sm <? pos)
     || is_null (kvp_key kvp)
  then Ok (false, sm, kvp)
  else
    ks ← deref (sm_keys sm);
    vs ← deref (sm_values sm);
    vslot ← aread vs pos; old_v ← slot_deref vslot;
    kslot ← aread ks pos; old_k ← slot_deref kslot;
    vs ← awrite vs pos (Ptr (mkValueWrapper (kvp_value kvp)));
    ks ← awrite ks pos (Ptr (mkKeyWrapper (kvp_key kvp)));
    Ok (true, mkSM (Some ks) (Some vs) (sm_capacity sm) (sm_top sm),
        mkKVP (kw_key old_k) (vw_value old_v)).

(** The loop [while(i <= sm->top)] of [__find]. *)
Fixpoint find_loop (fuel : nat) (ks : list (slot (KeyWrapper K))) (top : Z)
    (key : option K) cmp_fptr (i : Z) : res Z :=
  if i <=? top then
    match fuel with
    | O => OOF
    | S fuel =>
        s ← aread ks i;
        null ← slot_null s;
        if (null : bool) then Ok KEY_ARR_ERROR
        else
          w ← slot_deref s;
          equal ← cmp_fptr (kw_key w) key;
          if (equal : bool) then Ok i
          else find_loop fuel ks top key cmp_fptr (i + 1)
    end
  else Ok KEY_NOT_FOUND.

Definition __find sm (key : option K) cmp_fptr : res Z :=
  if is_null key then Ok FIND_KEY_ERROR
  else
    match sm_keys sm with
    | None => Ok FIND_KEY_ERROR
    | Some ks => find_loop (Z.to_nat (sm_top sm + 1)) ks (sm_top sm) key cmp_fptr 0
    end.

(** [set] may store the pair or swap it with an older one, which it hands
    back in [key_par]. *)
Definition set sm kvp cmp_fptr : res (SetKeyValueRtn * SimpleMap K V * KeyValuePair K V) :=
  if is_null (kvp_key kvp) then Ok (ERROR_SET_SM_RTN, sm, kvp)
  else
    pos ← __find sm (kvp_key kvp) cmp_fptr;
    if (pos =? FIND_KEY_ERROR) || (pos =? KEY_ARR_ERROR) then Ok (ERROR_SET_SM_RTN, sm, kvp)
    else if pos =? KEY_NOT_FOUND then
      '(ok, sm) ← __set sm kvp;
      if (ok : bool) then Ok (SUCESS_SET, sm, kvp) else Ok (ERROR_SET_SM_RTN, sm, kvp)
    else
      '(ok, sm, kvp) ← __upgrade sm pos kvp;
      if (ok : bool) then Ok (SUCESS_UPGRADE, sm, kvp) else Ok (ERROR_SET_SM_RTN, sm, kvp).

Definition get sm (key : option K) cmp_fptr : res (option (KeyValuePair K V)) :=
  if is_null key then Ok None
  else
    pos ← __find sm key cmp_fptr;
    if (pos =? KEY_NOT_FOUND) || (pos =? FIND_KEY_ERROR) || (pos =? KEY_ARR_ERROR) then Ok None
    else
      ks ← deref (sm_keys sm);
      vs ← deref (sm_values sm);
      kslot ← aread ks pos; kw ← slot_deref kslot;
      vslot ← aread vs pos; vw ← slot_deref vslot;
      Ok (Some (mkKVP (kw_key kw) (vw_value vw))).

(** The inner loop of [remove_key]: shift the tail down, clear the last slot. *)
Fixpoint shift_loop (fuel : nat) (ks : list (slot (KeyWrapper K)))
    (vs : list (slot (ValueWrapper V))) (top i : Z)
    : res (list (slot (KeyWrapper K)) * list (slot (ValueWrapper V))) :=
  match fuel with
  | O => OOF
  | S fuel =>
      if i =? top then
        ks ← awrite ks i Null;
        vs ← awrite vs i Null;
        Ok (ks, vs)
      else
        k ← aread ks (i + 1);
        ks ← awrite ks i k;
        v ← aread vs (i + 1);
        vs ← awrite vs i v;
        shift_loop fuel ks vs top (i + 1)
  end.

(** The outer loop of [remove_key]. *)
Fixpoint remove_loop (fuel : nat) sm (ks : list (slot (KeyWrapper K)))
    (vs : list (slot (ValueWrapper V))) (key : option K) cmp_fptr (i : Z)
    : res (RemoveItemState * SimpleMap K V * option (KeyValuePair K V)) :=
  if i <=? sm_top sm then
    match fuel with
    | O => OOF
    | S fuel =>
        s ← aread ks i;
        null ← slot_null s;
        if (null : bool) then Ok (REMOVE_ERROR, sm, None)
        else
          kw ← slot_deref s;
          let rmv_key := kw_key kw in
          equal ← cmp_fptr key rmv_key;
          if negb equal then remove_loop fuel sm ks vs key cmp_fptr (i + 1)
          else
            vslot ← aread vs i;
            vw ← slot_deref vslot;
            '(ks, vs) ← shift_loop (S fuel) ks vs (sm_top sm) i;
            Ok (REMOVE_SUCCESS, mkSM (Some ks) (Some vs) (sm_capacity sm) (sm_top sm - 1),
                Some (mkKVP rmv_key (vw_value vw)))
    end
  else Ok (REMOVE_KEY_NOT_FOUND, sm, None).

(** The last component is what [rmv_pair] receives, when it is written. *)
Definition remove_key sm (key : option K) cmp_fptr
    : res (RemoveItemState * SimpleMap K V * option (KeyValuePair K V)) :=
  if is_null key then Ok (REMOVE_ERROR, sm, None)
  else
    match sm_keys sm, sm_values sm with
    | Some ks, Some vs =>
        remove_loop (Z.to_nat (sm_top sm + 1)) sm ks vs key cmp_fptr 0
    | _, _ => Ok (REMOVE_ERROR, sm, None)
    end.

(** The loop of [delete_map]: the pairs handed to [clean_up], in order. *)
Fixpoint delete_loop (fuel : nat) (ks : list (slot (KeyWrapper K)))
    (vs : list (slot (ValueWrapper V))) (top i : Z) : res (list (option K * option V)) :=
  if i <=? top then
    match fuel with
    | O => OOF
    | S fuel =>
        k ← aread ks i; knull ← slot_null k;
        v ← aread vs i; vnull ← slot_null v;
        cleaned ← (if (knull : bool) || (vnull : bool) then Ok []
                   else kw ← slot_deref k; vw ← slot_deref v;
                        Ok [(kw_key kw, vw_value vw)]);
        rest ← delete_loop fuel ks vs top (i + 1);
        Ok (cleaned ++ rest)
    end
  else Ok [].

(** Returns the C result and the pairs cleaned up. *)
Definition delete_map sm : res (Z * list (option K * option V)) :=
  match sm_keys sm, sm_values sm with
  | Some ks, Some vs =>
      cleaned ← delete_loop (Z.to_nat (sm_top sm + 1)) ks vs (sm_top sm) 0;
      Ok (1, cleaned)
  | _, _ => Ok (0, [])
  end.

Definition init_simple_map_wrapper sm : SimpleMapWrapper K V := mkSMW 0 sm.

Definition next (self : SimpleMapWrapper K V)
    : res (option (KeyValuePair K V) * SimpleMapWrapper K V) :=
  let sm := smw_sm self in
  match sm_keys sm, sm_values sm with
  | Some ks, Some vs =>
      if sm_top sm <? 0 then Ok (None, self)
      else
        let curr := smw_index self in
        if sm_top sm <? curr then Ok (None, self)
        else
          kslot ← aread ks curr; kw ← slot_deref kslot;
          vslot ← aread vs curr; vw ← slot_deref vslot;
          Ok (create_key_val_pair (kw_key kw) (vw_value vw), mkSMW (curr + 1) sm)
  | _, _ => Ok (None, self)
  end.

End operations.

(** ** The abstract store: an association list in insertion order *)

Section specification.
Context {K V : Type}.
Implicit Types (l : list (K * option V)).
Implicit Type cmp : K -> K -> bool.

(** The position of the first pair whose key compares equal to [k]. *)
Fixpoint assoc_find cmp (k : K) l : option nat :=
  match l with
  | [] => None
  | p :: l' =>
      if cmp p.1 k then Some O else S <$> assoc_find cmp k l'
  end.

Definition assoc_set cmp (k : K) (v : option V) l : list (K * option V) :=
  match assoc_find cmp k l with
  | None => l ++ [(k, v)]
  | Some i => <[i := (k, v)]> l
  end.

Definition assoc_get cmp (k : K) l : option (K * option V) :=
  i ← assoc_find cmp k l; l !! i.

Definition assoc_remove cmp (k : K) l : list (K * option V) :=
  match assoc_find cmp k l with
  | None => l
  | Some i => delete i l
  end.

Definition kslot (p : K * option V) : slot (KeyWrapper K) := Ptr (mkKeyWrapper (Some p.1)).
Definition vslot (p : K * option V) : slot (ValueWrapper V) := Ptr (mkValueWrapper p.2).

(** [smap_repr sm l]: the arrays of [sm] hold the pairs of [l] in the slots
    up to [top]; what lies beyond is never looked at. *)
Definition smap_repr (sm : SimpleMap K V) l : Prop :=
  exists jk jv,
    sm_keys sm = Some (map kslot l ++ jk) /\
    sm_values sm = Some (map vslot l ++ jv) /\
    sm_top sm = Z.of_nat (length l) - 1 /\
    sm_capacity sm = Z.of_nat (length l + length jk) /\
    length jk = length jv /\
    1 <= sm_capacity sm <= INT_MAX.

End specification.

(** ** The arrays implement the association list *)

Section repr_lemmas.
Context {K V : Type}.
Implicit Types (sm : SimpleMap K V) (l : list (K * option V)).
Implicit Types (cmp : K -> K -> bool) (cmp_fptr : option K -> option K -> res bool).

(** On the keys of [l], [cmp_fptr] decides [cmp] against [k], in either order
    of its arguments. *)
Definition decides cmp_fptr cmp (k : K) l : Prop :=
  Forall (fun p => cmp_fptr (Some p.1) (Some k) = Ok (cmp p.1 k) /\
                   cmp_fptr (Some k) (Some p.1) = Ok (cmp p.1 k)) l.

Lemma repr_create : smap_repr (create_simple_map : SimpleMap K V) [].
Proof. exists [Null], [Null]. vm_compute. repeat split; intros; discriminate. Qed.

Lemma assoc_find_lt cmp k l i : assoc_find cmp k l = Some i -> (i < length l)%nat.
Proof.
  revert i. induction l as [|p l IH]; intros i; simpl; [done|].
  destruct (cmp _ _); [intros [= <-]; lia|].
  destruct (assoc_find cmp k l); simpl; [|done]. intros [= <-].
  specialize (IH _ eq_refl). lia.
Qed.

Lemma assoc_find_app cmp k l1 l2 :
  assoc_find cmp k l1 = None ->
  assoc_find cmp k (l1 ++ l2) = (fun i => length l1 + i)%nat <$> assoc_find cmp k l2.
Proof.
  induction l1 as [|p l1 IH]; simpl; [by destruct (assoc_find cmp k l2)|].
  destruct (cmp _ _); [done|]. destruct (assoc_find cmp k l1); [done|].
  intros _. rewrite IH by done. by destruct (assoc_find cmp k l2).
Qed.

Lemma map_slot_lookup {A B} (f : A -> B) (l : list A) j i p :
  l !! i = Some p -> aread (map f l ++ j) (Z.of_nat i) = Ok (f p).
Proof.
  intros H. apply aread_lookup. apply lookup_app_l_Some.
  rewrite list_lookup_fmap, H. done.
Qed.

Lemma map_slot_write {A B} (f : A -> B) (l : list A) j i p :
  (i < length l)%nat -> awrite (map f l ++ j) (Z.of_nat i) (f p) = Ok (map f (<[i := p]> l) ++ j).
Proof.
  intros H. unfold awrite. rewrite length_app, length_map. if_true.
  rewrite Nat2Z.id, insert_app_l by (rewrite length_map; lia).
  by rewrite list_fmap_insert.
Qed.

(** The search loop, started anywhere, follows the list. *)
Lemma find_loop_spec cmp_fptr cmp k l1 l2 jk fuel :
  decides cmp_fptr cmp k l2 -> length l2 = fuel ->
  find_loop fuel (map kslot (l1 ++ l2) ++ jk) (Z.of_nat (length (l1 ++ l2)) - 1)
    (Some k) cmp_fptr (Z.of_nat (length l1))
  = Ok (match assoc_find cmp k l2 with
        | Some i => Z.of_nat (length l1 + i)
        | None => KEY_NOT_FOUND
        end).
Proof.
  intros Hd. revert l1 fuel. induction Hd as [|p l2 [Hp _] _ IH]; intros l1 fuel <-.
  - simpl. rewrite app_nil_r. if_false. done.
  - simpl. rewrite length_app. simpl. if_true.
    rewrite (map_slot_lookup _ _ _ _ p) by (by apply list_lookup_middle). simpl.
    rewrite Hp. simpl. destruct (cmp p.1 k); [do 2 f_equal; lia|].
    specialize (IH (l1 ++ [p]) _ eq_refl).
    rewrite <- (assoc_L (++)) in IH. simpl in IH.
    rewrite !length_app in IH. simpl in IH.
    replace (Z.of_nat (length l1) + 1) with (Z.of_nat (length l1 + 1)) by lia.
    rewrite IH. f_equal. destruct (assoc_find cmp k l2); simpl; [lia | done].
Qed.

Lemma find_spec sm l cmp_fptr cmp k :
  smap_repr sm l -> decides cmp_fptr cmp k l ->
  __find sm (Some k) cmp_fptr
  = Ok (match assoc_find cmp k l with Some i => Z.of_nat i | None => KEY_NOT_FOUND end).
Proof.
  intros (jk & jv & Hk & Hv & Ht & Hc & Hj & Hcap) Hd. unfold __find. simpl.
  rewrite Hk, Ht. pose proof (find_loop_spec cmp_fptr cmp k [] l jk _ Hd eq_refl) as H. simpl in H.
  rewrite <- H. f_equal. lia.
Qed.

(** A search never runs out of fuel, whatever the map holds. *)
Lemma find_loop_not_OOF fuel ks top (k : option K) cmp_fptr i :
  (forall a b, cmp_fptr a b <> OOF) ->
  0 <= i -> (Z.to_nat (top + 1 - i) <= fuel)%nat ->
  find_loop fuel ks top k cmp_fptr i <> OOF.
Proof.
  intros Hcmp. revert i. induction fuel as [|f IH]; intros i Hi Hf; simpl; case_if; try done.
  - lia.
  - apply bind_not_OOF; [auto with redis|]. intros s _.
    apply bind_not_OOF; [by destruct s|]. intros [] _; [done|].
    apply bind_not_OOF; [by destruct s|]. intros w _.
    apply bind_not_OOF; [auto|]. intros [] _; [done|]. apply IH; lia.
Qed.

Lemma repr_not_null sm l : smap_repr sm l ->
  is_null (sm_keys sm) = false /\ is_null (sm_values sm) = false /\ (sm_capacity sm =? 0) = false.
Proof.
  intros (jk & jv & -> & -> & _ & _ & _ & Hcap). repeat split. apply Z.eqb_neq. lia.
Qed.

(** A map with a free slot stores the new pair after the others. *)
Lemma set_room sm l k v ks vs a jk b jv :
  sm_keys sm = Some ks -> ks = map kslot l ++ a :: jk ->
  sm_values sm = Some vs -> vs = map vslot l ++ b :: jv ->
  sm_top sm = Z.of_nat (length l) - 1 ->
  (ks' ← awrite ks (sm_top sm + 1) (Ptr (mkKeyWrapper (Some k)));
   vs' ← awrite vs (sm_top sm + 1) (Ptr (mkValueWrapper v));
   Ok (true, mkSM (Some ks') (Some vs') (sm_capacity sm) (sm_top sm + 1)))
  = Ok (true, mkSM (Some (map kslot (l ++ [(k, v)]) ++ jk)) (Some (map vslot (l ++ [(k, v)]) ++ jv))
          (sm_capacity sm) (Z.of_nat (length l))).
Proof.
  intros _ -> _ -> Ht.
  replace (sm_top sm + 1) with (Z.of_nat (length (map kslot l))) by (rewrite length_map; lia).
  rewrite awrite_middle. simpl.
  replace (length (map kslot l)) with (length (map vslot l)) by (by rewrite !length_map).
  rewrite awrite_middle. simpl. rewrite !length_map, !map_app. simpl.
  by rewrite <- !(assoc_L (++)).
Qed.

Context `{Heap}.

(** The key array after a refused growth: it is lost when the keys were moved
    to a larger block and the move back is refused as well. *)
Definition refused_keys sm : option (list (slot (KeyWrapper K))) :=
  if heap_grants 0 (2 * sm_capacity sm * 8) && negb (heap_grants 2 (sm_capacity sm * 8))
  then None else sm_keys sm.

(** The three ways a full map answers a request to grow. *)
Lemma double_arrays_full sm l :
  smap_repr sm l -> __is_full sm = true -> 2 * sm_capacity sm <= INT_MAX ->
  exists ok sm', __double_arrays sm = Ok (ok, sm') /\
    (ok = true -> smap_repr sm' l /\ sm_capacity sm' = 2 * sm_capacity sm) /\
    (ok = false -> sm_top sm' = sm_top sm /\ sm_capacity sm' = sm_capacity sm /\
       sm_values sm' = sm_values sm /\ sm_keys sm' = refused_keys sm) /\
    (ok = true <-> heap_grants 0 (2 * sm_capacity sm * 8) = true /\
                   heap_grants 1 (2 * sm_capacity sm * 8) = true).
Proof.
  intros (jk & jv & Hk & Hv & Ht & Hc & Hj & Hcap) Hfull Hmax.
  unfold __is_full in *. apply Z.eqb_eq in Hfull.
  destruct jk as [|]; [|simpl in *; lia]. destruct jv as [|]; [|simpl in *; lia].
  rewrite app_nil_r in Hk, Hv.
  unfold __double_arrays, __is_full. rewrite Hk, Hv. if_false. unfold ub_unless. if_true.
  unfold sizeof_ptr, refused_keys.
  destruct (heap_grants 0 _); simpl; [|eexists _, _; split; [done|]; naive_solver].
  destruct (heap_grants 1 _); simpl.
  - eexists _, _. split; [done|]. split; [|naive_solver]. intros _. split; [|done].
    unfold realloc_grow. eexists _, _. simpl.
    rewrite !length_replicate, !length_map, !Hc. repeat split; try done; simpl in *; lia.
  - eexists _, _. split; [done|]. split; [naive_solver|]. split; [|naive_solver].
    intros _. simpl. repeat split; try done.
    destruct (heap_grants 2 _); [|done]. cbn [negb]. rewrite Hk. f_equal.
    unfold realloc_grow. apply take_app_length'. rewrite length_map. simpl in *. lia.
Qed.

(** Storing into a map that is not full. *)
Lemma store_room sm l k v :
  smap_repr sm l -> __is_full sm = false ->
  exists sm', (ks ← deref (sm_keys sm); vs ← deref (sm_values sm);
      ks ← awrite ks (sm_top sm + 1) (Ptr (mkKeyWrapper (Some k)));
      vs ← awrite vs (sm_top sm + 1) (Ptr (mkValueWrapper v));
      Ok (true, mkSM (Some ks) (Some vs) (sm_capacity sm) (sm_top sm + 1))) = Ok (true, sm')
    /\ smap_repr sm' (l ++ [(k, v)]) /\ sm_capacity sm' = sm_capacity sm.
Proof.
  intros (jk & jv & Hk & Hv & Ht & Hc & Hj & Hcap) Hnf.
  unfold __is_full in Hnf. apply Z.eqb_neq in Hnf.
  destruct jk as [|a jk]; [simpl in *; lia|]. destruct jv as [|b jv]; [done|].
  rewrite Hk, Hv. simpl. eexists. split; [by eapply set_room|]. split; [|done].
  exists jk, jv. simpl in *. rewrite length_app. simpl. repeat split; try done; lia.
Qed.

(** [__set] appends the pair, or fails when the arrays cannot grow. *)
Lemma __set_spec sm l k v :
  smap_repr sm l -> 2 * sm_capacity sm <= INT_MAX ->
  exists ok sm', __set sm (mkKVP (Some k) v) = Ok (ok, sm') /\
    (ok = true -> smap_repr sm' (l ++ [(k, v)]) /\
       sm_capacity sm' <= Z.max (sm_capacity sm) (2 * Z.of_nat (length l))) /\
    (ok = false -> sm_top sm' = sm_top sm /\ sm_capacity sm' = sm_capacity sm /\
       sm_values sm' = sm_values sm /\ sm_keys sm' = refused_keys sm) /\
    (ok = true <-> __is_full sm = false \/
       (heap_grants 0 (2 * sm_capacity sm * 8) = true /\
        heap_grants 1 (2 * sm_capacity sm * 8) = true)).
Proof.
  intros R Hmax. destruct (repr_not_null _ _ R) as (Hnk & Hnv & Hc0).
  unfold __set. rewrite Hnk, Hnv, Hc0. simpl.
  destruct (__is_full sm) eqn:Hfull; simpl.
  - destruct (double_arrays_full sm l R Hfull Hmax) as (ok & sm' & -> & Ht & Hf & Hiff). simpl.
    destruct ok; simpl.
    + destruct (Ht eq_refl) as [R' Hc']. destruct (store_room sm' l k v R') as (sm'' & -> & R'' & Hc'').
      { destruct R' as (? & ? & ? & ? & Ht' & Hcc & ? & ?). destruct R as (? & ? & ? & ? & Ht0 & ? & ? & ?).
        unfold __is_full in *. zify_bool. apply Z.eqb_neq. lia. }
      eexists _, _. split; [done|]. split; [|naive_solver]. intros _. split; [done|].
      destruct R as (? & ? & ? & ? & Ht0 & ? & ? & ?). unfold __is_full in Hfull. zify_bool. lia.
    + eexists _, _. split; [done|]. naive_solver.
  - destruct (store_room sm l k v R Hfull) as (sm'' & -> & R'' & Hc'').
    eexists _, _. split; [done|]. split; [|naive_solver]. intros _. split; [done|]. lia.
Qed.

(** [__upgrade] swaps the pair at a position of the list. *)
Lemma __upgrade_spec sm l i k v k0 v0 :
  smap_repr sm l -> l !! i = Some (k0, v0) ->
  exists sm', __upgrade sm (Z.of_nat i) (mkKVP (Some k) v) = Ok (true, sm', mkKVP (Some k0) v0)
    /\ smap_repr sm' (<[i := (k, v)]> l) /\ sm_capacity sm' = sm_capacity sm.
Proof.
  intros R Hi. destruct (repr_not_null _ _ R) as (Hnk & Hnv & _).
  destruct R as (jk & jv & Hk & Hv & Ht & Hc & Hj & Hcap).
  pose proof (lookup_lt_Some _ _ _ Hi) as Hlt.
  unfold __upgrade. rewrite Hnk, Hnv, Ht. simpl. if_false. rewrite Hk, Hv. simpl.
  rewrite (map_slot_lookup vslot _ _ _ _ Hi). simpl.
  rewrite (map_slot_lookup kslot _ _ _ _ Hi). simpl.
  change (Ptr (mkValueWrapper v)) with (vslot (k, v)). rewrite map_slot_write by done. simpl.
  change (Ptr (mkKeyWrapper (Some k))) with (kslot (k, v)). rewrite map_slot_write by done. simpl.
  eexists. split; [done|]. split; [|done].
  exists jk, jv. simpl. rewrite length_insert. repeat split; try done; lia.
Qed.

(** The platform lets the arrays of [sm] hold one more pair. *)
Definition can_grow sm : Prop :=
  __is_full sm = true ->
  2 * sm_capacity sm <= INT_MAX /\
  heap_grants 0 (2 * sm_capacity sm * 8) = true /\ heap_grants 1 (2 * sm_capacity sm * 8) = true.

Definition set_result cmp (k : K) l : SetKeyValueRtn :=
  match assoc_find cmp k l with None => SUCESS_SET | Some _ => SUCESS_UPGRADE end.

(** What [key_par] holds after [set]: the pair that was replaced, if any. *)
Definition set_leftover cmp (k : K) (v : option V) l : KeyValuePair K V :=
  match assoc_get cmp k l with
  | None => mkKVP (Some k) v
  | Some (k0, v0) => mkKVP (Some k0) v0
  end.

Lemma pos_not_error (i : nat) :
  (Z.of_nat i =? FIND_KEY_ERROR) = false /\ (Z.of_nat i =? KEY_ARR_ERROR) = false /\
  (Z.of_nat i =? KEY_NOT_FOUND) = false.
Proof. rewrite !Z.eqb_neq. unfold FIND_KEY_ERROR, KEY_ARR_ERROR, KEY_NOT_FOUND. lia. Qed.

Lemma set_upgrade_spec sm l cmp_fptr cmp k v i :
  smap_repr sm l -> decides cmp_fptr cmp k l -> assoc_find cmp k l = Some i ->
  exists sm', set sm (mkKVP (Some k) v) cmp_fptr = Ok (SUCESS_UPGRADE, sm', set_leftover cmp k v l) /\
    smap_repr sm' (assoc_set cmp k v l) /\ sm_capacity sm' = sm_capacity sm.
Proof.
  intros R Hd Hf. unfold set. simpl. rewrite (find_spec _ _ _ _ _ R Hd), Hf. simpl.
  destruct (pos_not_error i) as (-> & -> & ->). simpl.
  pose proof (assoc_find_lt _ _ _ _ Hf) as Hlt. apply lookup_lt_is_Some_2 in Hlt as [[k0 v0] Hi].
  destruct (__upgrade_spec sm l i k v k0 v0 R Hi) as (sm' & -> & R' & Hc). simpl.
  exists sm'. unfold set_leftover, assoc_get, assoc_set. rewrite Hf. simpl. by rewrite Hi.
Qed.

Lemma set_new_spec sm l cmp_fptr cmp k v :
  smap_repr sm l -> decides cmp_fptr cmp k l -> assoc_find cmp k l = None -> 2 * sm_capacity sm <= INT_MAX ->
  exists ok sm', set sm (mkKVP (Some k) v) cmp_fptr
      = Ok (if ok : bool then SUCESS_SET else ERROR_SET_SM_RTN, sm', mkKVP (Some k) v) /\
    (ok = true -> smap_repr sm' (l ++ [(k, v)]) /\
       sm_capacity sm' <= Z.max (sm_capacity sm) (2 * Z.of_nat (length l))) /\
    (ok = false -> sm_top sm' = sm_top sm /\ sm_capacity sm' = sm_capacity sm /\
       sm_values sm' = sm_values sm /\ sm_keys sm' = refused_keys sm) /\
    (ok = true <-> __is_full sm = false \/
       (heap_grants 0 (2 * sm_capacity sm * 8) = true /\
        heap_grants 1 (2 * sm_capacity sm * 8) = true)).
Proof.
  intros R Hd Hf Hmax. unfold set. simpl. rewrite (find_spec _ _ _ _ _ R Hd), Hf. simpl.
  destruct (__set_spec sm l k v R Hmax) as (ok & sm' & -> & Ht & Hff & Hiff). simpl.
  exists ok, sm'. by destruct ok.
Qed.

Lemma __set_room sm l k v :
  smap_repr sm l -> __is_full sm = false ->
  exists sm', __set sm (mkKVP (Some k) v) = Ok (true, sm') /\ smap_repr sm' (l ++ [(k, v)]) /\
    sm_capacity sm' = sm_capacity sm.
Proof.
  intros R Hnf. destruct (repr_not_null _ _ R) as (Hnk & Hnv & Hc0).
  unfold __set. rewrite Hnk, Hnv, Hc0, Hnf. simpl. by apply store_room.
Qed.

(** [set] on a represented map that may grow always succeeds. *)
Lemma set_spec sm l cmp_fptr cmp k v :
  smap_repr sm l -> decides cmp_fptr cmp k l -> can_grow sm ->
  exists sm', set sm (mkKVP (Some k) v) cmp_fptr
      = Ok (set_result cmp k l, sm', set_leftover cmp k v l) /\
    smap_repr sm' (assoc_set cmp k v l) /\
    sm_capacity sm' <= Z.max (sm_capacity sm) (2 * Z.of_nat (length l)).
Proof.
  intros R Hd Hg. unfold set_result. destruct (assoc_find cmp k l) as [i|] eqn:Hf.
  - destruct (set_upgrade_spec sm l cmp_fptr cmp k v i R Hd Hf) as (sm' & -> & R' & Hc').
    exists sm'. split; [done|]. split; [done|]. lia.
  - unfold assoc_set, set_leftover, assoc_get. rewrite Hf. simpl.
    destruct (__is_full sm) eqn:Hfull.
    + destruct (Hg Hfull) as (Hmax & G0 & G1).
      destruct (set_new_spec sm l cmp_fptr cmp k v R Hd Hf Hmax) as (ok & sm' & -> & Ht & _ & Hiff).
      exists sm'. destruct ok; [naive_solver|]. naive_solver.
    + unfold set. simpl. rewrite (find_spec _ _ _ _ _ R Hd), Hf. simpl.
      destruct (__set_room sm l k v R Hfull) as (sm' & -> & R' & Hc'). simpl.
      exists sm'. split; [done|]. split; [done|]. lia.
Qed.

Lemma get_spec sm l cmp_fptr cmp k :
  smap_repr sm l -> decides cmp_fptr cmp k l ->
  get sm (Some k) cmp_fptr
  = Ok ((fun p => mkKVP (Some p.1) p.2) <$> assoc_get cmp k l).
Proof.
  intros R Hd. unfold get. simpl. rewrite (find_spec _ _ _ _ _ R Hd). unfold assoc_get.
  destruct (assoc_find cmp k l) as [i|] eqn:Hf; simpl; [|done].
  destruct (pos_not_error i) as (-> & -> & ->). simpl.
  destruct R as (jk & jv & Hk & Hv & Ht & Hc & Hj & Hcap). rewrite Hk, Hv. simpl.
  pose proof (assoc_find_lt _ _ _ _ Hf) as Hlt. apply lookup_lt_is_Some_2 in Hlt as [p Hi].
  rewrite (map_slot_lookup kslot _ _ _ _ Hi). simpl.
  rewrite (map_slot_lookup vslot _ _ _ _ Hi). simpl. by rewrite Hi.
Qed.

(** The shift closes the gap and leaves a null pointer in the last slot. *)
Lemma shift_loop_spec l1 p l2 jk jv fuel :
  length l2 = fuel ->
  shift_loop (S fuel) (map kslot (l1 ++ p :: l2) ++ jk) (map vslot (l1 ++ p :: l2) ++ jv)
    (Z.of_nat (length l1 + fuel)) (Z.of_nat (length l1))
  = Ok (map kslot (l1 ++ l2) ++ Null :: jk, map vslot (l1 ++ l2) ++ Null :: jv).
Proof.
  intros <-. revert l1 p. induction l2 as [|q l2 IH]; intros l1 p.
  - simpl. rewrite Nat.add_0_r. if_true. rewrite !map_app, <- !(assoc_L (++)). simpl.
    rewrite <- (length_map kslot l1) at 1. rewrite awrite_middle. simpl.
    rewrite <- (length_map vslot l1) at 1. rewrite awrite_middle. simpl.
    done.
  - cbn [shift_loop]. simpl length. if_false.
    replace (Z.of_nat (length l1) + 1) with (Z.of_nat (length (l1 ++ [p])))
      by (rewrite length_app; simpl; lia).
    assert ((l1 ++ p :: q :: l2) !! length (l1 ++ [p]) = Some q) as Hq.
    { replace (l1 ++ p :: q :: l2) with ((l1 ++ [p]) ++ q :: l2)
        by (by rewrite <- (assoc_L (++))). by apply list_lookup_middle. }
    rewrite (map_slot_lookup kslot _ _ _ q Hq). simpl mbind.
    rewrite map_slot_write by (rewrite length_app; simpl; lia). simpl mbind.
    rewrite (map_slot_lookup vslot _ _ _ q Hq). simpl mbind.
    rewrite map_slot_write by (rewrite length_app; simpl; lia). simpl mbind.
    replace (<[length l1 := q]> (l1 ++ p :: q :: l2)) with ((l1 ++ [q]) ++ q :: l2).
    2: { rewrite <- (Nat.add_0_r (length l1)), insert_app_r. simpl.
         by rewrite <- (assoc_L (++)). }
    specialize (IH (l1 ++ [q]) q). rewrite <- !(assoc_L (++)) in IH. simpl in IH.
    rewrite length_app in IH. simpl length in IH.
    rewrite length_app. simpl length. rewrite <- (assoc_L (++)). simpl.
    replace (length l1 + S (length l2))%nat with (length l1 + 1 + length l2)%nat by lia.
    exact IH.
Qed.

Lemma remove_loop_spec sm l1 l2 jk jv cmp_fptr cmp k fuel :
  decides cmp_fptr cmp k l2 -> sm_top sm = Z.of_nat (length (l1 ++ l2)) - 1 -> length l2 = fuel ->
  remove_loop fuel sm (map kslot (l1 ++ l2) ++ jk) (map vslot (l1 ++ l2) ++ jv)
    (Some k) cmp_fptr (Z.of_nat (length l1))
  = Ok (match assoc_find cmp k l2 with
        | Some i => (REMOVE_SUCCESS,
            mkSM (Some (map kslot (l1 ++ delete i l2) ++ Null :: jk))
                 (Some (map vslot (l1 ++ delete i l2) ++ Null :: jv))
                 (sm_capacity sm) (sm_top sm - 1),
            (fun p => mkKVP (Some p.1) p.2) <$> l2 !! i)
        | None => (REMOVE_KEY_NOT_FOUND, sm, None)
        end).
Proof.
  intros Hd Ht <-. revert l1 Ht. induction Hd as [|p l2 [_ Hp] _ IH]; intros l1 Ht.
  - simpl. rewrite app_nil_r in Ht. if_false. done.
  - cbn [remove_loop length]. rewrite length_app in Ht. simpl in Ht. if_true.
    rewrite (map_slot_lookup kslot _ _ _ p) by (by apply list_lookup_middle).
    cbn [slot_null slot_deref kslot kw_key mbind res_bind assoc_find]. 
    rewrite Hp. cbn [mbind res_bind]. destruct (cmp p.1 k); cbn [negb].
    + rewrite (map_slot_lookup vslot _ _ _ p) by (by apply list_lookup_middle).
      cbn [slot_deref vslot vw_value mbind res_bind].
      replace (sm_top sm) with (Z.of_nat (length l1 + length l2)) at 1 by lia.
      by rewrite shift_loop_spec.
    + specialize (IH (l1 ++ [p])). rewrite <- !(assoc_L (++)) in IH. simpl in IH.
      replace (Z.of_nat (length l1) + 1) with (Z.of_nat (length (l1 ++ [p])))
        by (rewrite length_app; simpl; lia).
      rewrite IH by (rewrite length_app; simpl; lia).
      destruct (assoc_find _ k l2); simpl; [|done]. by rewrite <- !(assoc_L (++)).
Qed.

Definition remove_result cmp (k : K) l : RemoveItemState :=
  match assoc_find cmp k l with
  | Some _ => REMOVE_SUCCESS | None => REMOVE_KEY_NOT_FOUND end.

Lemma remove_spec sm l cmp_fptr cmp k :
  smap_repr sm l -> decides cmp_fptr cmp k l ->
  exists sm', remove_key sm (Some k) cmp_fptr
      = Ok (remove_result cmp k l, sm',
            (fun p => mkKVP (Some p.1) p.2) <$> assoc_get cmp k l) /\
    smap_repr sm' (assoc_remove cmp k l) /\ sm_capacity sm' = sm_capacity sm.
Proof.
  intros R Hd. pose proof R as (jk & jv & Hk & Hv & Ht & Hc & Hj & Hcap).
  unfold remove_key. simpl. rewrite Hk, Hv.
  replace (Z.to_nat (sm_top sm + 1)) with (length l) by lia.
  pose proof (remove_loop_spec sm [] l jk jv cmp_fptr cmp k _ Hd Ht eq_refl) as Hr. simpl in Hr.
  change (Z.of_nat 0) with 0 in Hr. rewrite Hr.
  unfold remove_result, assoc_get, assoc_remove.
  destruct (assoc_find _ k l) as [i|] eqn:Hf; simpl; [|eauto].
  pose proof (assoc_find_lt _ _ _ _ Hf) as Hlt.
  eexists. split; [done|]. split; [|done]. exists (Null :: jk), (Null :: jv). simpl.
  rewrite length_delete by (by apply lookup_lt_is_Some_2).
  repeat split; try done; lia.
Qed.

End repr_lemmas.

(** ** The finite-map contract

    A client names keys by an identity; the comparison function must decide
    equality of identities on the keys it stores. *)

Class KeyCompare {K I : Type} `{EqDecision I} (cmp_fptr : option K -> option K -> res bool)
    (valid : K -> Prop) (ident : K -> I) : Prop :=
  cmp_ident a b : valid a -> valid b ->
    cmp_fptr (Some a) (Some b) = Ok (bool_decide (ident a = ident b)).

Section contract.
Context {K V I : Type} `{Countable I}.
Context (cmp_fptr : option K -> option K -> res bool) (valid : K -> Prop) (ident : K -> I).
Context `{!KeyCompare cmp_fptr valid ident} `{Heap}.
Implicit Types (sm : SimpleMap K V) (l : list (K * option V)) (m : gmap I (K * option V)).

Definition same_ident (a b : K) : bool := bool_decide (ident a = ident b).
#[local] Abbreviation cmp := same_ident.

Definition store_of l : gmap I (K * option V) :=
  list_to_map (map (fun p => (ident p.1, p)) l).

(** [implements sm m]: the map object [sm] holds the finite map [m], from the
    identity of a key to the key and value objects stored for it. *)
Definition implements sm m : Prop :=
  exists l, smap_repr sm l /\ Forall (fun p => valid p.1) l /\
    NoDup (map (fun p => ident p.1) l) /\ m = store_of l.

Lemma implements_create : implements create_simple_map ∅.
Proof.
  exists []. split; [apply repr_create|]. repeat split; constructor.
Qed.

Lemma decides_ident l k :
  valid k -> Forall (fun p => valid p.1) l -> decides cmp_fptr cmp k l.
Proof.
  intros Hk Hl. eapply Forall_impl; [exact Hl|]. intros p Hp. cbn beta in *.
  rewrite !cmp_ident by done.
  split; [done|]. f_equal. apply bool_decide_ext. naive_solver.
Qed.

Lemma find_store_None k l :
  valid k -> Forall (fun p => valid p.1) l ->
  assoc_find cmp k l = None -> ident k ∉ map (fun p => ident p.1) l.
Proof.
  intros Hk. induction 1 as [|p l Hp Hl IH]; simpl; [set_solver|].
  unfold same_ident at 1. case_bool_decide as E; [done|].
  destruct (assoc_find cmp k l); [done|]. intros _. specialize (IH eq_refl). set_solver.
Qed.

Lemma find_store_Some k l i :
  valid k -> Forall (fun p => valid p.1) l ->
  assoc_find cmp k l = Some i -> exists p, l !! i = Some p /\ ident p.1 = ident k.
Proof.
  intros Hk. revert i. induction l as [|p l IH]; intros i Hl; simpl; [done|].
  apply Forall_cons in Hl as [Hp Hl]. unfold same_ident at 1.
  case_bool_decide as E; [intros [= <-]; simpl; eauto|].
  destruct (assoc_find cmp k l) as [j|]; [|done]. intros [= <-]. simpl. by apply IH.
Qed.

Lemma store_lookup l i p :
  NoDup (map (fun p => ident p.1) l) -> l !! i = Some p -> store_of l !! ident p.1 = Some p.
Proof.
  intros Hnd Hi. unfold store_of. apply elem_of_list_to_map.
  - by rewrite map_map.
  - apply list_elem_of_In, in_map_iff. exists p. split; [done|].
    apply list_elem_of_In. by eapply list_elem_of_lookup_2.
Qed.

Lemma store_lookup_None l i :
  i ∉ map (fun p => ident p.1) l -> store_of l !! i = None.
Proof.
  intros Hn. unfold store_of. apply not_elem_of_list_to_map. by rewrite map_map.
Qed.

Lemma assoc_get_store l k :
  valid k -> Forall (fun p => valid p.1) l -> NoDup (map (fun p => ident p.1) l) ->
  assoc_get cmp k l = store_of l !! ident k.
Proof.
  intros Hk Hv Hnd. unfold assoc_get.
  destruct (assoc_find cmp k l) as [i|] eqn:Hf; simpl.
  - destruct (find_store_Some k l i Hk Hv Hf) as (p & Hi & <-).
    by rewrite (store_lookup l i p Hnd Hi).
  - symmetry. by apply store_lookup_None, find_store_None.
Qed.

Lemma set_result_store l k :
  valid k -> Forall (fun p => valid p.1) l -> NoDup (map (fun p => ident p.1) l) ->
  set_result cmp k l = match store_of l !! ident k with
                       | None => SUCESS_SET | Some _ => SUCESS_UPGRADE end.
Proof.
  intros Hk Hv Hnd. rewrite <- assoc_get_store by done. unfold set_result, assoc_get.
  destruct (assoc_find cmp k l) as [i|] eqn:Hf; simpl; [|done].
  destruct (find_store_Some k l i Hk Hv Hf) as (p & -> & _). done.
Qed.

Lemma store_split l i p :
  l !! i = Some p -> l = take i l ++ p :: drop (S i) l.
Proof. intros. by rewrite take_drop_middle. Qed.

Lemma assoc_set_ident l k v :
  valid k -> Forall (fun p => valid p.1) l -> NoDup (map (fun p => ident p.1) l) ->
  Forall (fun p => valid p.1) (assoc_set cmp k v l) /\
  NoDup (map (fun p => ident p.1) (assoc_set cmp k v l)) /\
  store_of (assoc_set cmp k v l) = <[ident k := (k, v)]> (store_of l).
Proof.
  intros Hk Hv Hnd. unfold assoc_set.
  destruct (assoc_find cmp k l) as [i|] eqn:Hf.
  - destruct (find_store_Some k l i Hk Hv Hf) as (p & Hi & E).
    pose proof (lookup_lt_Some _ _ _ Hi).
    rewrite insert_take_drop by done.
    pose proof (store_split l i p Hi) as Hl.
    set (l1 := take i l) in *. set (l2 := drop (S i) l) in *. rewrite Hl in Hv, Hnd |- *.
    apply Forall_app in Hv as [Hv1 [_ Hv2]%Forall_cons].
    rewrite map_app in Hnd. simpl in Hnd. rewrite E in Hnd.
    split; [by apply Forall_app; split; [|constructor]|].
    split; [by rewrite map_app|].
    unfold store_of. rewrite !map_app. simpl. rewrite E, !list_to_map_app. simpl.
    apply NoDup_app in Hnd as (Hnd1 & Hdisj & Hnd2).
    assert (ident k ∉ map (fun p => ident p.1) l1) as Hn1 by set_solver.
    apply store_lookup_None in Hn1. unfold store_of in Hn1.
    rewrite <- !insert_union_r by done. by rewrite insert_insert_eq.
  - pose proof (find_store_None k l Hk Hv Hf) as Hn.
    split; [by apply Forall_app; repeat constructor|].
    split.
    + rewrite map_app. simpl. apply NoDup_app. repeat split; [done| |apply NoDup_singleton].
      set_solver.
    + apply store_lookup_None in Hn as Hn'. unfold store_of in *.
      rewrite map_app, list_to_map_app. simpl.
      rewrite <- insert_union_r by done. by rewrite (right_id_L ∅ (∪)).
Qed.

Lemma assoc_remove_ident l k :
  valid k -> Forall (fun p => valid p.1) l -> NoDup (map (fun p => ident p.1) l) ->
  Forall (fun p => valid p.1) (assoc_remove cmp k l) /\
  NoDup (map (fun p => ident p.1) (assoc_remove cmp k l)) /\
  store_of (assoc_remove cmp k l) = delete (ident k) (store_of l).
Proof.
  intros Hk Hv Hnd. unfold assoc_remove.
  destruct (assoc_find cmp k l) as [i|] eqn:Hf.
  - destruct (find_store_Some k l i Hk Hv Hf) as (p & Hi & E).
    rewrite delete_take_drop.
    pose proof (store_split l i p Hi) as Hl.
    set (l1 := take i l) in *. set (l2 := drop (S i) l) in *. rewrite Hl in Hv, Hnd |- *.
    apply Forall_app in Hv as [Hv1 [_ Hv2]%Forall_cons].
    rewrite map_app in Hnd. simpl in Hnd. rewrite E in Hnd.
    apply NoDup_app in Hnd as (Hnd1 & Hdisj & [Hn2 Hnd2]%NoDup_cons).
    split; [by apply Forall_app|].
    split; [rewrite map_app; apply NoDup_app; set_solver|].
    unfold store_of. rewrite !map_app. simpl. rewrite E, !list_to_map_app. simpl.
    assert (ident k ∉ map (fun p => ident p.1) l1) as Hn1 by set_solver.
    apply store_lookup_None in Hn1, Hn2. unfold store_of in Hn1, Hn2.
    rewrite delete_union, delete_insert_eq, !delete_id by done. done.
  - split; [done|]. split; [done|]. rewrite delete_id; [done|].
    by apply store_lookup_None, find_store_None.
Qed.

(** What an operation may add to the arrays. *)
Definition grows sm sm' : Prop :=
  sm_top sm' <= sm_top sm + 1 /\ sm_capacity sm' <= Z.max (sm_capacity sm) (2 * (sm_top sm + 1)).

Lemma grows_refl sm : grows sm sm.
Proof. unfold grows. lia. Qed.

Lemma repr_grows sm sm' l l' :
  smap_repr sm l -> smap_repr sm' l' -> (length l' <= S (length l))%nat ->
  sm_capacity sm' <= Z.max (sm_capacity sm) (2 * Z.of_nat (length l)) -> grows sm sm'.
Proof.
  intros (? & ? & _ & _ & Ht & _) (? & ? & _ & _ & Ht' & _) Hl Hc. unfold grows. lia.
Qed.

Lemma assoc_set_length (k : K) (v : option V) l :
  (length (assoc_set cmp k v l) <= S (length l))%nat.
Proof.
  unfold assoc_set. destruct (assoc_find cmp k l); rewrite ?length_insert, ?length_app; simpl; lia.
Qed.

Lemma assoc_remove_length (k : K) l :
  (length (assoc_remove cmp k l) <= length l)%nat.
Proof.
  unfold assoc_remove. destruct (assoc_find cmp k l) as [i|] eqn:Hf; [|lia].
  apply assoc_find_lt in Hf as Hl. rewrite length_delete by (by apply lookup_lt_is_Some_2). lia.
Qed.

(** The clients of the store use the four lemmas below. *)
Lemma implements_set sm m k v :
  implements sm m -> valid k -> can_grow sm ->
  exists sm', set sm (mkKVP (Some k) v) cmp_fptr
      = Ok (match m !! ident k with None => SUCESS_SET | Some _ => SUCESS_UPGRADE end, sm',
            match m !! ident k with
            | None => mkKVP (Some k) v | Some (k0, v0) => mkKVP (Some k0) v0 end) /\
    implements sm' (<[ident k := (k, v)]> m) /\ grows sm sm'.
Proof.
  intros (l & R & Hv & Hnd & ->) Hk Hg.
  destruct (set_spec sm l cmp_fptr cmp k v R (decides_ident l k Hk Hv) Hg) as (sm' & -> & R' & Hcap).
  exists sm'.
  rewrite set_result_store by done. unfold set_leftover. rewrite assoc_get_store by done.
  split; [done|]. split; [|by eapply repr_grows; [..|apply assoc_set_length|]].
  exists (assoc_set cmp k v l).
  destruct (assoc_set_ident l k v Hk Hv Hnd) as (? & ? & ?). done.
Qed.

Lemma implements_get sm m k :
  implements sm m -> valid k ->
  get sm (Some k) cmp_fptr = Ok ((fun p => mkKVP (Some p.1) p.2) <$> m !! ident k).
Proof.
  intros (l & R & Hv & Hnd & ->) Hk. rewrite (get_spec _ _ _ cmp _ R) by (by apply decides_ident).
  by rewrite assoc_get_store.
Qed.

Lemma implements_same_keys sm m k k' v' :
  implements sm m -> m !! ident k = Some (k', v') -> valid k' /\ ident k' = ident k.
Proof.
  intros (l & _ & Hv & Hnd & ->) Hl. unfold store_of in Hl.
  apply elem_of_list_to_map_2 in Hl. apply list_elem_of_In, in_map_iff in Hl as (p & [= E1 E2] & Hin%list_elem_of_In).
  subst p. split; [|done]. rewrite Forall_forall in Hv. by apply (Hv _ Hin).
Qed.

Lemma implements_remove sm m k :
  implements sm m -> valid k ->
  exists sm', remove_key sm (Some k) cmp_fptr
      = Ok (match m !! ident k with
            | None => REMOVE_KEY_NOT_FOUND | Some _ => REMOVE_SUCCESS end, sm',
            (fun p => mkKVP (Some p.1) p.2) <$> m !! ident k) /\
    implements sm' (delete (ident k) m) /\ grows sm sm'.
Proof.
  intros (l & R & Hv & Hnd & ->) Hk.
  destruct (remove_spec sm l cmp_fptr cmp k R (decides_ident l k Hk Hv)) as (sm' & -> & R' & Hcap).
  exists sm'. pose proof (set_result_store l k Hk Hv Hnd) as Hs.
  rewrite assoc_get_store by done. split.
  - f_equal. do 2 f_equal. revert Hs. unfold set_result, remove_result.
    destruct (assoc_find _ k l), (store_of l !! ident k); done.
  - split; [|eapply repr_grows; [exact R|exact R'|pose proof (assoc_remove_length k l); lia|lia]].
    exists (assoc_remove cmp k l).
    by destruct (assoc_remove_ident l k Hk Hv Hnd) as (? & ? & ?).
Qed.

End contract.

#[export] Hint Resolve grows_refl : core.

(** ** Iteration and disposal *)

Section iteration.
Context {K V : Type}.
Implicit Types (sm : SimpleMap K V) (l : list (K * option V)).

Lemma next_spec sm l (i : nat) :
  smap_repr sm l ->
  next (mkSMW (Z.of_nat i) sm)
  = Ok (match l !! i with
        | Some p => (Some (mkKVP (Some p.1) p.2), mkSMW (Z.of_nat (S i)) sm)
        | None => (None, mkSMW (Z.of_nat i) sm)
        end).
Proof.
  intros (jk & jv & Hk & Hv & Ht & Hc & Hj & Hcap). unfold next. simpl smw_sm. rewrite Hk, Hv, Ht.
  destruct (l !! i) as [p|] eqn:Hi.
  - pose proof (lookup_lt_Some _ _ _ Hi). if_false. simpl smw_index. if_false.
    rewrite (map_slot_lookup kslot _ _ _ _ Hi). cbn [mbind res_bind slot_deref kslot].
    rewrite (map_slot_lookup vslot _ _ _ _ Hi). cbn [mbind res_bind slot_deref vslot].
    by replace (Z.of_nat i + 1) with (Z.of_nat (S i)) by lia.
  - apply lookup_ge_None in Hi. case_if; [done|]. simpl smw_index. by if_true.
Qed.

(** The loop [while ((kvp = smw.next(&smw)))] of the wrapper's users: the pairs
    it sees, and the wrapper at its end. *)
Fixpoint iterate (fuel : nat) (w : SimpleMapWrapper K V) : res (list (KeyValuePair K V) * SimpleMapWrapper K V) :=
  match fuel with
  | O => OOF
  | S fuel =>
      '(kvp, w) ← next w;
      match kvp with
      | None => Ok ([], w)
      | Some kvp => '(rest, w) ← iterate fuel w; Ok (kvp :: rest, w)
      end
  end.

Lemma iterate_from sm l (i : nat) fuel :
  smap_repr sm l -> (i <= length l)%nat -> (length l - i < fuel)%nat ->
  iterate fuel (mkSMW (Z.of_nat i) sm)
  = Ok (map (fun p => mkKVP (Some p.1) p.2) (drop i l), mkSMW (Z.of_nat (length l)) sm).
Proof.
  intros R. revert i. induction fuel as [|fuel IH]; intros i Hi Hf; [lia|]. cbn [iterate].
  rewrite (next_spec sm l) by done. destruct (l !! i) as [p|] eqn:E; cbn [mbind res_bind].
  - apply lookup_lt_Some in E as Hlt. rewrite IH by lia. cbn [mbind res_bind].
    by rewrite (drop_S l p i E).
  - apply lookup_ge_None in E. rewrite drop_ge by done. by replace i with (length l) by lia.
Qed.

Lemma delete_loop_spec l1 l2 jk jv fuel :
  length l2 = fuel ->
  delete_loop fuel (map kslot (l1 ++ l2) ++ jk) (map vslot (l1 ++ l2) ++ jv)
    (Z.of_nat (length (l1 ++ l2)) - 1) (Z.of_nat (length l1))
  = Ok (map (fun p : K * option V => (Some p.1, p.2)) l2).
Proof.
  intros <-. revert l1. induction l2 as [|p l2 IH]; intros l1.
  - simpl. rewrite app_nil_r. by if_false.
  - cbn [delete_loop length]. rewrite length_app. cbn [length]. if_true.
    rewrite (map_slot_lookup kslot _ _ _ p) by (by apply list_lookup_middle).
    cbn [mbind res_bind slot_null kslot].
    rewrite (map_slot_lookup vslot _ _ _ p) by (by apply list_lookup_middle).
    cbn [mbind res_bind slot_null vslot orb slot_deref kw_key vw_value].
    specialize (IH (l1 ++ [p])). rewrite <- (assoc_L (++)) in IH. cbn [app] in IH.
    rewrite !length_app in IH. cbn [length] in IH.
    replace (Z.of_nat (length l1) + 1) with (Z.of_nat (length l1 + 1)) by lia.
    by rewrite IH.
Qed.

End iteration.

(** ** Runs of operations, and the finite map they denote *)

Section runs.
Context {K V I : Type} `{Countable I}.
Context (cmp_fptr : option K -> option K -> res bool) (valid : K -> Prop) (ident : K -> I).

Inductive map_op :=
  | OpSet (k : K) (v : option V)
  | OpGet (k : K)
  | OpRemove (k : K).

Inductive map_answer :=
  | ASet (r : SetKeyValueRtn) (key_par : KeyValuePair K V)
  | AGet (r : option (KeyValuePair K V))
  | ARemove (r : RemoveItemState) (rmv_pair : option (KeyValuePair K V)).

Definition op_key (o : map_op) : K :=
  match o with OpSet k _ | OpGet k | OpRemove k => k end.

Section run.
Context `{Heap}.

Definition run_op (sm : SimpleMap K V) (o : map_op) : res (map_answer * SimpleMap K V) :=
  match o with
  | OpSet k v => '(r, sm, kvp) ← set sm (mkKVP (Some k) v) cmp_fptr; Ok (ASet r kvp, sm)
  | OpGet k => r ← get sm (Some k) cmp_fptr; Ok (AGet r, sm)
  | OpRemove k => '(r, sm, p) ← remove_key sm (Some k) cmp_fptr; Ok (ARemove r p, sm)
  end.

Fixpoint run_ops (sm : SimpleMap K V) (os : list map_op) : res (list map_answer * SimpleMap K V) :=
  match os with
  | [] => Ok ([], sm)
  | o :: os =>
      '(a, sm) ← run_op sm o;
      '(r, sm) ← run_ops sm os;
      Ok (a :: r, sm)
  end.
End run.

(** The finite map's own reading of an operation. *)
Definition spec_op (m : gmap I (K * option V)) (o : map_op) : map_answer * gmap I (K * option V) :=
  match o with
  | OpSet k v =>
      (match m !! ident k with
       | None => ASet SUCESS_SET (mkKVP (Some k) v)
       | Some (k0, v0) => ASet SUCESS_UPGRADE (mkKVP (Some k0) v0)
       end, <[ident k := (k, v)]> m)
  | OpGet k => (AGet ((fun p => mkKVP (Some p.1) p.2) <$> m !! ident k), m)
  | OpRemove k =>
      (ARemove (match m !! ident k with None => REMOVE_KEY_NOT_FOUND | Some _ => REMOVE_SUCCESS end)
               ((fun p => mkKVP (Some p.1) p.2) <$> m !! ident k), delete (ident k) m)
  end.

Fixpoint spec_ops (m : gmap I (K * option V)) (os : list map_op)
    : list map_answer * gmap I (K * option V) :=
  match os with
  | [] => ([], m)
  | o :: os => let '(a, m) := spec_op m o in let '(r, m) := spec_ops m os in (a :: r, m)
  end.

Context `{!KeyCompare cmp_fptr valid ident} `{Heap}.
Context (Hheap : forall n z, heap_grants n z = true).

(** Where an operation leaves the pairs: a new key goes to the end, a known one
    keeps its place, and those behind a removed one close up. *)
Definition order_op (l : list (K * option V)) (o : map_op) : list (K * option V) :=
  match o with
  | OpSet k v => assoc_set (same_ident ident) k v l
  | OpGet _ => l
  | OpRemove k => assoc_remove (same_ident ident) k l
  end.

Definition order_ops (l : list (K * option V)) (os : list map_op) : list (K * option V) :=
  fold_left order_op os l.

(** [arranges n sm l]: [sm] holds the pairs of [l], at most [n] of them, in arrays
    that are not larger than [n] insertions can have made them. *)
Definition arranges (n : nat) (sm : SimpleMap K V) (l : list (K * option V)) : Prop :=
  smap_repr sm l /\ Forall (fun p => valid p.1) l /\ NoDup (map (fun p => ident p.1) l) /\
  (length l <= n)%nat /\ sm_capacity sm <= Z.max 1 (2 * Z.of_nat n).

Lemma arranges_implements n sm l : arranges n sm l -> implements valid ident sm (store_of ident l).
Proof. intros (? & ? & ? & _). by exists l. Qed.

Lemma run_op_spec n sm l o :
  arranges n sm l -> valid (op_key o) -> 4 * (Z.of_nat n + 1) <= INT_MAX ->
  exists sm', run_op sm o = Ok ((spec_op (store_of ident l) o).1, sm') /\ arranges (S n) sm' (order_op l o) /\
    store_of ident (order_op l o) = (spec_op (store_of ident l) o).2.
Proof.
  intros W Hk Hn. pose proof W as (R & Hv & Hnd & Hl & Hc).
  destruct o as [k v|k|k]; cbn [run_op spec_op op_key order_op fst snd] in *.
  - assert (can_grow sm) as Hg by (intros _; rewrite !Hheap; split; [lia|done]).
    destruct (set_spec sm l cmp_fptr (same_ident ident) k v R (decides_ident cmp_fptr valid ident l k Hk Hv) Hg)
      as (sm' & E & R' & Hc'). rewrite E. cbn [mbind res_bind]. exists sm'.
    rewrite (set_result_store cmp_fptr valid ident) by done. unfold set_leftover.
    rewrite (assoc_get_store cmp_fptr valid ident) by done.
    destruct (assoc_set_ident cmp_fptr valid ident l k v Hk Hv Hnd) as (Hv' & Hnd' & Hst).
    split; [by destruct (store_of ident l !! ident k) as [[]|]|]. split; [|done].
    pose proof (assoc_set_length ident k v l). unfold arranges. split_and!; try done; lia.
  - rewrite (implements_get cmp_fptr valid ident sm (store_of ident l) k) by
      (done || by eapply arranges_implements).
    exists sm. unfold arranges. split_and!; try done; lia.
  - destruct (remove_spec sm l cmp_fptr (same_ident ident) k R (decides_ident cmp_fptr valid ident l k Hk Hv))
      as (sm' & E & R' & Hc').
    destruct (implements_remove cmp_fptr valid ident sm (store_of ident l) k) as (sm'' & E' & _);
      [by eapply arranges_implements|done|].
    assert (sm'' = sm') as -> by congruence. rewrite E'. cbn [mbind res_bind]. exists sm'.
    destruct (assoc_remove_ident cmp_fptr valid ident l k Hk Hv Hnd) as (Hv' & Hnd' & Hst).
    pose proof (assoc_remove_length ident k l). unfold arranges. split_and!; try done; lia.
Qed.

Lemma run_ops_spec os n sm l :
  arranges n sm l -> Forall (fun o => valid (op_key o)) os ->
  4 * (Z.of_nat (n + length os) + 1) <= INT_MAX ->
  exists sm', run_ops sm os = Ok ((spec_ops (store_of ident l) os).1, sm') /\
    arranges (n + length os) sm' (order_ops l os) /\
    store_of ident (order_ops l os) = (spec_ops (store_of ident l) os).2.
Proof.
  revert n sm l. induction os as [|o os IH]; intros n sm l W Hv Hn.
  - exists sm. by rewrite Nat.add_0_r.
  - apply Forall_cons in Hv as [Ho Hv]. cbn [run_ops spec_ops length order_ops fold_left] in *.
    destruct (run_op_spec n sm l o W Ho ltac:(lia)) as (sm1 & -> & W1 & Hst).
    destruct (spec_op (store_of ident l) o) as [a m1]. cbn [mbind res_bind fst snd] in *. subst m1.
    destruct (IH (S n) sm1 _ W1 Hv ltac:(lia)) as (sm2 & -> & W2 & Hst2).
    destruct (spec_ops (store_of ident (order_op l o)) os) as [r m2]. cbn [mbind res_bind fst snd] in *.
    exists sm2. rewrite Nat.add_succ_r. done.
Qed.

Lemma fresh_map_spec os :
  Forall (fun o => valid (op_key o)) os -> 4 * (Z.of_nat (length os) + 1) <= INT_MAX ->
  exists sm', run_ops create_simple_map os = Ok ((spec_ops ∅ os).1, sm') /\
    arranges (length os) sm' (order_ops [] os) /\ store_of ident (order_ops [] os) = (spec_ops ∅ os).2.
Proof.
  intros Hv Hn. apply (run_ops_spec os 0 create_simple_map []); [|done|done].
  split; [apply repr_create|]. split_and!; try constructor; simpl; lia.
Qed.

End runs.

(** ** Properties *)

Section properties.
Context {K V I : Type} `{Countable I}.
Context (cmp_fptr : option K -> option K -> res bool) (valid : K -> Prop) (ident : K -> I).
Context `{!KeyCompare cmp_fptr valid ident} `{Heap}.

(** C10. The growing arrays implement a finite map: any sequence of [set], [get]
    and [remove_key] on a fresh map answers what the map from key identities to
    pairs answers - the stored pair, the pair handed back by an update, the
    removed pair - and never touches a bad slot. *)
Theorem simple_map_refines (os : list (@map_op K V)) :
  (forall n z, heap_grants n z = true) -> Forall (fun o => valid (op_key o)) os ->
  4 * (Z.of_nat (length os) + 1) <= INT_MAX ->
  exists sm : SimpleMap K V,
    run_ops cmp_fptr create_simple_map os = Ok ((spec_ops ident ∅ os).1, sm) /\
    implements valid ident sm (spec_ops ident ∅ os).2.
Proof.
  intros Hheap Hv Hn. destruct (fresh_map_spec cmp_fptr valid ident Hheap os Hv Hn) as (sm & E & W & Hst).
  exists sm. split; [exact E|]. rewrite <- Hst. by eapply arranges_implements.
Qed.

(** C34. When a full map cannot grow, [set] of a new key fails and hands the
    pair back; the map keeps every pair, unless the heap grants the larger key
    array, refuses the larger value array, and refuses to shrink the key array
    back, when the keys are lost. *)
Theorem set_refused (sm : SimpleMap K V) m k v :
  implements valid ident sm m -> valid k -> m !! ident k = None ->
  __is_full sm = true -> 2 * sm_capacity sm <= INT_MAX ->
  heap_grants 0 (2 * sm_capacity sm * 8) && heap_grants 1 (2 * sm_capacity sm * 8) = false ->
  exists sm', set sm (mkKVP (Some k) v) cmp_fptr = Ok (ERROR_SET_SM_RTN, sm', mkKVP (Some k) v) /\
    match refused_keys sm with
    | Some _ => sm' = sm /\ implements valid ident sm' m
    | None => sm_keys sm' = None
    end.
Proof.
  intros Hi Hk Hm Hfull Hmax Hg. pose proof Hi as (l & R & Hv & Hnd & Em).
  assert (assoc_find (same_ident ident) k l = None) as Hf.
  { rewrite Em in Hm. rewrite <- (assoc_get_store cmp_fptr valid ident) in Hm by done. unfold assoc_get in Hm.
    destruct (assoc_find _ k l) as [i|] eqn:E; [|done]. simpl in Hm.
    destruct (find_store_Some valid ident k l i Hk Hv E) as (p & Hp & _). congruence. }
  destruct (set_new_spec sm l cmp_fptr (same_ident ident) k v R (decides_ident cmp_fptr valid ident l k Hk Hv) Hf Hmax)
    as (ok & sm' & E & _ & Hbad & Hiff).
  destruct ok.
  { destruct Hiff as [Hiff _]. destruct (Hiff eq_refl) as [?|[E0 E1]]; [congruence|].
    rewrite E0, E1 in Hg. done. }
  destruct (Hbad eq_refl) as (Et & Ec & Ev & Ek). exists sm'. split; [exact E|].
  destruct (refused_keys sm) as [ks|] eqn:Er; [|done].
  assert (refused_keys sm = sm_keys sm) as Es by (revert Er; unfold refused_keys; by case_if).
  assert (sm' = sm) as ->; [|done].
  destruct sm as [a b c d], sm' as [a' b' c' d']. simpl in *. congruence.
Qed.

(** C33. Iteration is complete, on any map that operations can have made: after any
    sequence of [set], [get] and [remove_key] on a fresh map, the loop over the
    wrapper that [init_simple_map_wrapper] sets up sees every pair once - in the
    order in which their keys were first stored, updates in place and removed keys
    gone - and the wrapper then answers [NULL] for ever; [delete_map] hands exactly
    these pairs to the clean-up function. *)
Theorem iteration_complete (os : list (@map_op K V)) :
  (forall n z, heap_grants n z = true) -> Forall (fun o => valid (op_key o)) os ->
  4 * (Z.of_nat (length os) + 1) <= INT_MAX ->
  let l := order_ops ident [] os in
  exists (sm : SimpleMap K V) w,
    run_ops cmp_fptr create_simple_map os = Ok ((spec_ops ident ∅ os).1, sm) /\
    (forall fuel, (length l < fuel)%nat ->
       iterate fuel (init_simple_map_wrapper sm) = Ok (map (fun p => mkKVP (Some p.1) p.2) l, w)) /\
    next w = Ok (None, w) /\
    delete_map sm = Ok (1, map (fun p => (Some p.1, p.2)) l) /\
    NoDup (map (fun p => ident p.1) l) /\ store_of ident l = (spec_ops ident ∅ os).2.
Proof.
  intros Hheap Hv Hn l. destruct (fresh_map_spec cmp_fptr valid ident Hheap os Hv Hn) as (sm & E & (R & _ & Hnd & _) & Hst).
  fold l in R, Hnd, Hst. exists sm, (mkSMW (Z.of_nat (length l)) sm). split_and!; try done.
  - intros fuel Hf. by rewrite (iterate_from sm l 0) by (done || lia).
  - rewrite (next_spec sm l) by done. by rewrite lookup_ge_None_2.
  - destruct R as (jk & jv & Hk & Hvs & Ht & _). unfold delete_map. rewrite Hk, Hvs, Ht.
    pose proof (delete_loop_spec [] l jk jv _ eq_refl) as Hd. cbn [app length] in Hd.
    change (Z.of_nat 0) with 0 in Hd.
    replace (Z.to_nat (Z.of_nat (length l) - 1 + 1)) with (length l) by lia. by rewrite Hd.
Qed.
End properties.

(** ** Witnesses *)

(** Maps keyed by numbers. *)
Definition compare_nat (a b : option nat) : res bool :=
  match a, b with Some a, Some b => Ok (bool_decide (a = b)) | _, _ => Ok false end.

Lemma compare_nat_ok : KeyCompare compare_nat (fun _ => True) (fun k => k).
Proof. by intros a b _ _. Qed.

Definition generous : Heap := fun _ _ => true.
(** A heap that moves no array of more than 100 bytes. *)
Definition tight : Heap := fun _ z => z <=? 8.

Definition sample_ops : list (@map_op nat nat) :=
  [OpSet 1%nat (Some 10%nat); OpSet 2%nat (Some 20%nat); OpSet 1%nat (Some 11%nat); OpGet 1%nat;
   OpRemove 2%nat; OpGet 2%nat].

Lemma simple_map_refines_witness :
  exists sm, @run_ops nat nat compare_nat generous create_simple_map sample_ops
    = Ok ((spec_ops (fun k => k) ∅ sample_ops).1, sm) /\
    implements (fun _ => True) (fun k => k) sm (spec_ops (fun k => k) ∅ sample_ops).2.
Proof.
  apply (@simple_map_refines nat nat nat _ _ compare_nat (fun _ => True) (fun k => k) compare_nat_ok
           generous sample_ops).
  - reflexivity.
  - repeat constructor.
  - vm_compute. discriminate.
Defined.

Lemma repr_one (k v : nat) :
  implements (fun _ => True) (fun k => k)
    (mkSM (Some [Ptr (mkKeyWrapper (Some k))]) (Some [Ptr (mkValueWrapper (Some v))]) 1 0)
    {[ k := (k, Some v) ]}.
Proof.
  exists [(k, Some v)]. split.
  - exists [], []. vm_compute. repeat split; discriminate.
  - repeat split; repeat constructor; set_solver.
Qed.

Lemma set_refused_witness :
  exists sm', @set nat nat tight
      (mkSM (Some [Ptr (mkKeyWrapper (Some 1%nat))]) (Some [Ptr (mkValueWrapper (Some 7%nat))]) 1 0)
      (mkKVP (Some 2%nat) (Some 8%nat)) compare_nat
    = Ok (ERROR_SET_SM_RTN, sm', mkKVP (Some 2%nat) (Some 8%nat)) /\
    match @refused_keys nat nat tight
      (mkSM (Some [Ptr (mkKeyWrapper (Some 1%nat))]) (Some [Ptr (mkValueWrapper (Some 7%nat))]) 1 0) with
    | Some _ => sm' = mkSM (Some [Ptr (mkKeyWrapper (Some 1%nat))]) (Some [Ptr (mkValueWrapper (Some 7%nat))]) 1 0 /\
        implements (fun _ => True) (fun k => k) sm' {[ 1%nat := (1%nat, Some 7%nat) ]}
    | None => sm_keys sm' = None
    end.
Proof.
  apply (@set_refused nat nat nat _ _ compare_nat (fun _ => True) (fun k => k) compare_nat_ok tight).
  - apply repr_one.
  - exact I.
  - apply lookup_singleton_ne. discriminate.
  - reflexivity.
  - vm_compute. discriminate.
  - reflexivity.
Defined.

Lemma iteration_complete_witness :
  exists (sm : SimpleMap nat nat) w,
    @run_ops nat nat compare_nat generous create_simple_map sample_ops = Ok ((spec_ops (fun k => k) ∅ sample_ops).1, sm) /\
    (forall fuel, (length (order_ops (fun k => k) [] sample_ops) < fuel)%nat ->
       iterate fuel (init_simple_map_wrapper sm)
       = Ok (map (fun p => mkKVP (Some p.1) p.2) (order_ops (fun k => k) [] sample_ops), w)) /\
    next w = Ok (None, w) /\
    delete_map sm = Ok (1, map (fun p => (Some p.1, p.2)) (order_ops (fun k => k) [] sample_ops)) /\
    NoDup (map (fun p => p.1) (order_ops (fun k => k) [] sample_ops)) /\
    store_of (fun k => k) (order_ops (fun k => k) [] sample_ops) = (spec_ops (fun k => k) ∅ sample_ops).2.
Proof.
  apply (@iteration_complete nat nat nat _ _ compare_nat (fun _ => True) (fun k => k) compare_nat_ok generous sample_ops).
  - reflexivity.
  - repeat constructor.
  - vm_compute. discriminate.
Defined.
