(* ===== verification/Errors.v ===== *)
(** The error categories of [errors.c]: which [errno] values a caller may
    retry after.  Numbers are those of Linux. *)

From S2P Require Import Prelude.

Definition EINTR : Z := 4.
Definition EIO : Z := 5.
Definition EWOULDBLOCK : Z := 11.
Definition EFAULT : Z := 14.
Definition EPIPE : Z := 32.
Definition EMSGSIZE : Z := 90.
Definition ENOBUFS : Z := 105.
Definition EOWNERDEAD : Z := 130.

Inductive ErrorCategory := ERROR_RECOVERABLE | ERROR_FATAL.

#[export] Instance ErrorCategory_eq_dec : EqDecision ErrorCategory.
Proof. solve_decision. Defined.

(** [SendErrorInfo], [RecvErrorInfo] and [PthreadMutexLockErrorInfo] have the
    same two fields. *)
Record ErrorInfo := mkErrorInfo { error_code : Z; category : ErrorCategory }.

Definition categorize_send_error (err_no : Z) : ErrorInfo :=
  mkErrorInfo err_no
    (if (err_no =? EINTR) || (err_no =? ENOBUFS) || (err_no =? EMSGSIZE) || (err_no =? EWOULDBLOCK)
     then ERROR_RECOVERABLE else ERROR_FATAL).

Definition categorize_recv_error (err_no : Z) : ErrorInfo :=
  mkErrorInfo err_no
    (if (err_no =? EINTR) || (err_no =? EIO) || (err_no =? ENOBUFS)
     then ERROR_RECOVERABLE else ERROR_FATAL).

(** The code field is left as [calloc] zeroed it. *)
Definition categorize_mtx_lck_error (err_no : Z) : ErrorInfo :=
  mkErrorInfo 0 (if err_no =? EOWNERDEAD then ERROR_RECOVERABLE else ERROR_FATAL).
