(* ===== verification/Net.v ===== *)
(** A client connection and the receive and send routines of [server.c] with
    their retries, on top of [recv], [send] and [nanosleep]. *)

From S2P Require Import Prelude CLib Errors.

(** ** A connected socket

    What the network will do, as the system calls report it: the bytes that
    arrive and the errors raised between them ([rx]; its end is the peer's
    orderly shutdown), the outcome of each [send] ([tx_plan]; past its end
    [send] takes everything) and of each [nanosleep] ([naps]; past its end it
    succeeds).  [tx] is what the peer has been sent. *)

Inductive rx_item := RxByte (b : byte) | RxErr (errno : Z).
Inductive tx_item := TxErr (errno : Z) | TxCount (n : Z).

Record Sock := mkSock {
  rx : list rx_item;
  tx_plan : list tx_item;
  naps : list (option Z);
  tx : list byte
}.

Definition with_rx (r : list rx_item) (s : Sock) : Sock :=
  mkSock r (tx_plan s) (naps s) (tx s).

(** The leading bytes of a stream, at most [n] of them. *)
Fixpoint take_bytes (n : Z) (r : list rx_item) : list byte * list rx_item :=
  match r with
  | RxByte b :: r' =>
      if n <=? 0 then ([], r)
      else let '(bytes, r'') := take_bytes (n - 1) r' in (b :: bytes, r'')
  | _ => ([], r)
  end.

(** [recv(fd, buf, n, MSG_WAITALL)]: the return value, the bytes stored in
    [buf], [errno] and the socket.  It waits for [n] bytes, and returns fewer
    when the stream ends or an error is pending behind them; an error met first
    is reported as -1.  A null [buf] is a bad address. *)
Definition sys_recv (buf_ok : bool) (n : Z) (s : Sock) : Z * list byte * Z * Sock :=
  match rx s with
  | RxErr e :: r => (-1, [], e, with_rx r s)
  | [] => (0, [], 0, s)
  | _ =>
      if buf_ok then
        let '(bytes, r) := take_bytes n (rx s) in
        (Z.of_nat (length bytes), bytes, 0, with_rx r s)
      else (-1, [], EFAULT, s)
  end.

(** [send(fd, buf, size, ...)]: the return value, [errno] and the socket. Neither
    program sets [MSG_NOSIGNAL] or handles the signal, so a connection that the
    peer has closed ends the process: [EPIPE] comes with [SIGPIPE]. *)
Definition sys_send (buf : list byte) (s : Sock) : res (Z * Z * Sock) :=
  match tx_plan s with
  | TxErr e :: p => if e =? EPIPE then SIGPIPE else Ok (-1, e, mkSock (rx s) p (naps s) (tx s))
  | TxCount n :: p =>
      let sent := take (Z.to_nat n) buf in
      Ok (Z.of_nat (length sent), 0, mkSock (rx s) p (naps s) (tx s ++ sent))
  | [] => Ok (Z.of_nat (length buf), 0, mkSock (rx s) [] (naps s) (tx s ++ buf))
  end.

(** [nanosleep]: 0, or -1 with [errno]. *)
Definition nanosleep (s : Sock) : Z * Z * Sock :=
  match naps s with
  | Some e :: n => (-1, e, mkSock (rx s) (tx_plan s) n (tx s))
  | None :: n => (0, 0, mkSock (rx s) (tx_plan s) n (tx s))
  | [] => (0, 0, s)
  end.

(** ** [util.c]: [msleep]

    The counter [retries] has no initial value, so the increment after an
    interrupted sleep reads an indeterminate value. *)
Definition msleep (msec max_retries : Z) (s : Sock) : res (Z * Sock) :=
  let '(r, errno, s) := nanosleep s in
  if negb (r =? -1) then Ok (r, s)
  else if errno =? EINTR then UB
  else Ok (r, s).

(** ** [server.c]: receiving and sending with retries *)

Section retries.
Context (retry_tm : Z).

(** The [for] loop of [recv_resp_fm_clnt], after a [recv] that set [errno]. *)
Fixpoint recv_retry (n_retries : nat) (buf_ok : bool) (size errno : Z) (s : Sock)
    : res (Z * list byte * Sock) :=
  match n_retries with
  | O => Ok (-1, [], s)
  | S n =>
      let err_info := categorize_recv_error errno in
      if decide (category err_info = ERROR_FATAL) then Ok (-1, [], s)
      else
        '(r, s) ← msleep retry_tm 3 s;
        if r =? -1 then Ok (-1, [], s)
        else
          let '(rtn, bytes, errno, s) := sys_recv buf_ok size s in
          if negb (rtn =? -1) then Ok (rtn, bytes, s)
          else recv_retry n buf_ok size errno s
  end.

Definition recv_resp_fm_clnt (buf_ok : bool) (size : Z) (n_retries : nat) (s : Sock)
    : res (Z * list byte * Sock) :=
  let '(rtn, bytes, errno, s) := sys_recv buf_ok size s in
  if negb (rtn =? -1) then Ok (rtn, bytes, s)
  else recv_retry n_retries buf_ok size errno s.

Fixpoint send_retry (n_retries : nat) (buf : list byte) (errno : Z) (s : Sock)
    : res (Z * Sock) :=
  match n_retries with
  | O => Ok (-1, s)
  | S n =>
      let err_info := categorize_send_error errno in
      if decide (category err_info = ERROR_FATAL) then Ok (-1, s)
      else
        '(r, s) ← msleep retry_tm 3 s;
        if r =? -1 then Ok (-1, s)
        else
          '(rtn, errno, s) ← sys_send buf s;
          if negb (rtn =? -1) then Ok (rtn, s)
          else send_retry n buf errno s
  end.

Definition send_resp_to_clnt (buf : list byte) (n_retries : nat) (s : Sock) : res (Z * Sock) :=
  '(rtn, errno, s) ← sys_send buf s;
  if negb (rtn =? -1) then Ok (rtn, s)
  else send_retry n_retries buf errno s.

End retries.

(** 1 with the bytes read, 0 when the peer closed or sent fewer, -1 on error. *)
Definition read_exact_bytes (buf_ok : bool) (len : Z) (s : Sock) : res (Z * list byte * Sock) :=
  '(rtn, bytes, s) ← recv_resp_fm_clnt 500 buf_ok len 3 s;
  if rtn =? 0 then Ok (0, bytes, s)
  else if rtn =? -1 then Ok (-1, bytes, s)
  else if rtn <? len then Ok (0, bytes, s)
  else Ok (1, bytes, s).

(** ** Properties of the socket *)

Definition rx_data (l : list byte) : list rx_item := map RxByte l.

Lemma take_bytes_data l r :
  take_bytes (Z.of_nat (length l)) (rx_data l ++ r) = (l, r).
Proof.
  induction l as [|b l IH].
  - simpl. by destruct r as [|[]].
  - cbn [length rx_data map app take_bytes]. if_false.
    replace (Z.of_nat (S (length l)) - 1) with (Z.of_nat (length l)) by lia.
    unfold rx_data in IH. by rewrite IH.
Qed.

Lemma take_bytes_split n r bytes r' :
  take_bytes n r = (bytes, r') -> r = rx_data bytes ++ r' /\ Z.of_nat (length bytes) <= Z.max 0 n.
Proof.
  revert n bytes r'. induction r as [|[b|e] r IH]; intros n bytes r'; simpl.
  - intros [= <- <-]. split; [done | simpl; lia].
  - case_if; [intros [= <- <-]; split; [done | simpl; lia]|].
    destruct (take_bytes (n - 1) r) as [bs' r''] eqn:E. intros [= <- <-].
    destruct (IH _ _ _ E) as [-> Hl]. split; [done|]. simpl length. lia.
  - intros [= <- <-]. split; [done | simpl; lia].
Qed.

(** A receive takes from the stream at least what it reports. *)
Definition consumes (rtn : Z) (s s' : Sock) : Prop :=
  Z.of_nat (length (rx s')) + Z.max 0 rtn <= Z.of_nat (length (rx s)).

Lemma sys_recv_consumes b n s rtn bytes e s' :
  sys_recv b n s = (rtn, bytes, e, s') -> consumes rtn s s'.
Proof.
  unfold sys_recv, consumes. destruct (rx s) as [|[x|x] r] eqn:E.
  - intros [= <- _ _ <-]. rewrite E. simpl. lia.
  - destruct b; [|intros [= <- _ _ <-]; rewrite E; lia].
    destruct (take_bytes n (RxByte x :: r)) as [bs' r'] eqn:Et. intros [= <- _ _ <-].
    apply take_bytes_split in Et as [Et%(f_equal length) _].
    rewrite length_app in Et. unfold rx_data in Et. rewrite length_map in Et. simpl in *. lia.
  - intros [= <- _ _ <-]. simpl. lia.
Qed.

Lemma nanosleep_rx s r e s' : nanosleep s = (r, e, s') -> rx s' = rx s.
Proof. unfold nanosleep. by destruct (naps s) as [|[]]; intros [= _ _ <-]. Qed.

Lemma msleep_rx m k s r s' : msleep m k s = Ok (r, s') -> rx s' = rx s.
Proof.
  unfold msleep. destruct (nanosleep s) as [[r0 e] s0] eqn:E.
  apply nanosleep_rx in E. repeat case_if; intros H; by simplify_eq.
Qed.

Lemma msleep_not_OOF m k s : msleep m k s <> OOF.
Proof. unfold msleep. destruct (nanosleep s) as [[r e] s']. by repeat case_if. Qed.

Lemma recv_retry_consumes tm k b n e s rtn bytes s' :
  recv_retry tm k b n e s = Ok (rtn, bytes, s') -> consumes rtn s s'.
Proof.
  unfold consumes. revert e s.
  induction k as [|k IH]; intros e s; simpl; [intros [= <- _ <-]; lia|].
  case_decide; [intros [= <- _ <-]; lia|]. intros H'.
  apply bind_Ok_inv in H' as ([r0 s0] & E0 & H'). apply msleep_rx in E0. rewrite <- E0.
  revert H'. case_if; [intros [= <- _ <-]; lia|].
  destruct (sys_recv b n s0) as [[[rt by_] e'] s1] eqn:E1. apply sys_recv_consumes in E1.
  unfold consumes in E1. case_if.
  - intros [= <- _ <-]. lia.
  - intros H'. apply IH in H'. lia.
Qed.

Lemma recv_consumes tm b n k s rtn bytes s' :
  recv_resp_fm_clnt tm b n k s = Ok (rtn, bytes, s') -> consumes rtn s s'.
Proof.
  unfold recv_resp_fm_clnt. destruct (sys_recv b n s) as [[[rt by_] e'] s1] eqn:E1.
  apply sys_recv_consumes in E1. case_if; [by intros [= <- _ <-]|].
  intros H. apply recv_retry_consumes in H. unfold consumes in *. lia.
Qed.

Lemma recv_retry_not_OOF tm k b n e s : recv_retry tm k b n e s <> OOF.
Proof.
  revert e s. induction k as [|k IH]; intros e s; simpl; [done|].
  case_decide; [done|]. apply bind_not_OOF; [apply msleep_not_OOF|].
  intros [r s0] _. case_if; [done|].
  destruct (sys_recv b n s0) as [[[rt by_] e'] s1]. by case_if.
Qed.

Lemma recv_not_OOF tm b n k s : recv_resp_fm_clnt tm b n k s <> OOF.
Proof.
  unfold recv_resp_fm_clnt. destruct (sys_recv b n s) as [[[rt by_] e'] s1].
  case_if; [done | apply recv_retry_not_OOF].
Qed.

(** A successful read of [len] bytes consumes them. *)
Lemma read_exact_consumes b len s rtn bytes s' :
  read_exact_bytes b len s = Ok (rtn, bytes, s') ->
  (length (rx s') <= length (rx s))%nat /\ (rtn = 1 -> Z.of_nat (length (rx s')) + len <= Z.of_nat (length (rx s))).
Proof.
  unfold read_exact_bytes. intros H.
  apply bind_Ok_inv in H as ([[r by_] s0] & E & H). apply recv_consumes in E.
  unfold consumes in E. revert H. repeat case_if; intros [= <- _ <-]; split; lia.
Qed.

Lemma read_exact_not_OOF b len s : read_exact_bytes b len s <> OOF.
Proof.
  unfold read_exact_bytes. apply bind_not_OOF; [apply recv_not_OOF|].
  intros [[r by_] s0] _. by repeat case_if.
Qed.

Lemma read_exact_cases b len s rtn bytes s' :
  read_exact_bytes b len s = Ok (rtn, bytes, s') -> rtn = 0 \/ rtn = -1 \/ rtn = 1.
Proof.
  unfold read_exact_bytes. intros H. apply bind_Ok_inv in H as ([[r by_] s0] & E & H).
  revert H. repeat case_if; intros [= <- _ <-]; auto.
Qed.

#[export] Hint Resolve read_exact_not_OOF recv_not_OOF msleep_not_OOF : redis.

(** Bytes that are there are delivered. *)
Lemma sys_recv_data l r s :
  l <> [] -> rx s = rx_data l ++ r ->
  sys_recv true (Z.of_nat (length l)) s = (Z.of_nat (length l), l, 0, with_rx r s).
Proof.
  intros Hl Hrx. pose proof (take_bytes_data l r) as Ht. unfold sys_recv. rewrite Hrx.
  destruct l as [|b l]; [done|]. unfold rx_data in *. cbn [map app] in *. by rewrite Ht.
Qed.

Lemma read_exact_data l r s :
  l <> [] -> rx s = rx_data l ++ r ->
  read_exact_bytes true (Z.of_nat (length l)) s = Ok (1, l, with_rx r s).
Proof.
  intros Hl Hrx. unfold read_exact_bytes, recv_resp_fm_clnt.
  rewrite (sys_recv_data l r s Hl Hrx).
  assert (0 < Z.of_nat (length l)) by (destruct l; [done | simpl; lia]).
  if_true. simpl. if_false. if_false. if_false. done.
Qed.

Lemma read_byte b r s :
  rx s = RxByte b :: r -> read_exact_bytes true 1 s = Ok (1, [b], with_rx r s).
Proof. intros H. by apply (read_exact_data [b]). Qed.

(** ** Retries *)

(** Sleeps that are not disturbed. *)
Definition calm (s : Sock) : Prop := Forall (eq None) (naps s).

#[export] Instance calm_dec s : Decision (calm s).
Proof. unfold calm. apply _. Defined.

Lemma msleep_calm m k s :
  calm s -> exists s', msleep m k s = Ok (0, s') /\ calm s' /\
    rx s' = rx s /\ tx_plan s' = tx_plan s /\ tx s' = tx s.
Proof.
  intros Hc. unfold calm, msleep, nanosleep in *. destruct (naps s) as [|o ns] eqn:E.
  - exists s. rewrite E. done.
  - apply Forall_cons in Hc as [<- Hc]. eexists. split; [done|]. done.
Qed.

Definition recoverable_recv (e : Z) : Prop := category (categorize_recv_error e) <> ERROR_FATAL.
Definition recoverable_send (e : Z) : Prop := category (categorize_send_error e) <> ERROR_FATAL.

Lemma recoverable_not_pipe e : recoverable_send e -> (e =? EPIPE) = false.
Proof. intros He. apply Z.eqb_neq. intros ->. by apply He. Qed.

Lemma recv_retry_absorbs tm errs l r e n s :
  l <> [] -> recoverable_recv e -> Forall recoverable_recv errs -> (length errs < n)%nat -> calm s ->
  rx s = map RxErr errs ++ rx_data l ++ r ->
  exists s', recv_retry tm n true (Z.of_nat (length l)) e s = Ok (Z.of_nat (length l), l, s') /\
    rx s' = r /\ tx s' = tx s.
Proof.
  intros Hl. revert errs e s. induction n as [|n IH]; intros errs e s He Herr Hn Hc Hrx; [lia|].
  cbn [recv_retry]. rewrite decide_False by done.
  destruct (msleep_calm tm 3 s Hc) as (s1 & -> & Hc1 & Hrx1 & _ & Htx1). cbn [mbind res_bind].
  change (0 =? -1) with false. cbv iota. rewrite <- Hrx1 in Hrx. destruct errs as [|e' errs].
  - rewrite (sys_recv_data l r s1 Hl Hrx).
    replace (Z.of_nat (length l) =? -1) with false by (symmetry; apply Z.eqb_neq; lia).
    eexists. split; [done|]. done.
  - unfold sys_recv. rewrite Hrx. cbn [map app]. change (-1 =? -1) with true. cbn [negb].
    apply Forall_cons in Herr as [He' Herr].
    destruct (IH errs e' (with_rx (map RxErr errs ++ rx_data l ++ r) s1)) as (s2 & E & Hr2 & Ht2);
      [done|done|simpl in Hn; lia|done|done|].
    exists s2. split; [exact E|]. split; [done|]. by rewrite Ht2.
Qed.

Lemma send_retry_absorbs tm errs buf e n s :
  recoverable_send e -> Forall recoverable_send errs -> (length errs < n)%nat -> calm s ->
  tx_plan s = map TxErr errs ->
  exists s', send_retry tm n buf e s = Ok (Z.of_nat (length buf), s') /\
    tx s' = tx s ++ buf /\ rx s' = rx s.
Proof.
  revert errs e s. induction n as [|n IH]; intros errs e s He Herr Hn Hc Hp; [lia|].
  cbn [send_retry]. rewrite decide_False by done.
  destruct (msleep_calm tm 3 s Hc) as (s1 & -> & Hc1 & Hrx1 & Hp1 & Htx1). cbn [mbind res_bind].
  change (0 =? -1) with false. cbv iota. rewrite <- Hp1 in Hp. unfold sys_send. rewrite Hp.
  destruct errs as [|e' errs]; cbn [map mbind res_bind].
  - replace (Z.of_nat (length buf) =? -1) with false by (symmetry; apply Z.eqb_neq; lia).
    eexists. split; [done|]. simpl. by rewrite Htx1.
  - apply Forall_cons in Herr as [He' Herr]. rewrite recoverable_not_pipe by done. cbn [mbind res_bind].
    change (-1 =? -1) with true. cbn [negb].
    destruct (IH errs e' (mkSock (rx s1) (map TxErr errs) (naps s1) (tx s1))) as (s2 & E & Ht2 & Hr2);
      [done|done|simpl in Hn; lia|done|done|].
    exists s2. split; [exact E|]. simpl in *. by rewrite Ht2, Hr2, Htx1.
Qed.

(** ** Properties *)

Lemma recv_absorbs_errors tm errs l r n s :
  l <> [] -> Forall recoverable_recv errs -> (length errs <= n)%nat -> calm s ->
  rx s = map RxErr errs ++ rx_data l ++ r ->
  exists s', recv_resp_fm_clnt tm true (Z.of_nat (length l)) n s = Ok (Z.of_nat (length l), l, s') /\
    rx s' = r /\ tx s' = tx s.
Proof.
  intros Hl Herr Hn Hc Hrx. unfold recv_resp_fm_clnt. destruct errs as [|e errs].
  - rewrite (sys_recv_data l r s Hl Hrx).
    replace (Z.of_nat (length l) =? -1) with false by (symmetry; apply Z.eqb_neq; lia). by eexists.
  - unfold sys_recv. rewrite Hrx. cbn [map app]. change (-1 =? -1) with true. cbn [negb].
    apply Forall_cons in Herr as [He Herr].
    by apply (recv_retry_absorbs tm errs l r e n (with_rx (map RxErr errs ++ rx_data l ++ r) s)).
Qed.

Lemma send_absorbs_errors tm errs buf n s :
  Forall recoverable_send errs -> (length errs <= n)%nat -> calm s -> tx_plan s = map TxErr errs ->
  exists s', send_resp_to_clnt tm buf n s = Ok (Z.of_nat (length buf), s') /\
    tx s' = tx s ++ buf /\ rx s' = rx s.
Proof.
  intros Herr Hn Hc Hp. unfold send_resp_to_clnt, sys_send. rewrite Hp.
  destruct errs as [|e errs]; cbn [map mbind res_bind].
  - replace (Z.of_nat (length buf) =? -1) with false by (symmetry; apply Z.eqb_neq; lia). by eexists.
  - apply Forall_cons in Herr as [He Herr]. rewrite recoverable_not_pipe by done. cbn [mbind res_bind].
    change (-1 =? -1) with true. cbn [negb].
    by apply (send_retry_absorbs tm errs buf e n (mkSock (rx s) (map TxErr errs) (naps s) (tx s))).
Qed.

(** The socket functions are robust: as many recoverable errors as retries are
    allowed are slept over; then [recv_resp_fm_clnt] delivers the bytes that
    arrive, all of them and nothing else, and [send_resp_to_clnt] sends the
    whole buffer, once. *)
Lemma retries_absorb_errors tm errs l r n s :
  (length errs <= n)%nat -> calm s ->
  (l <> [] -> Forall recoverable_recv errs -> rx s = map RxErr errs ++ rx_data l ++ r ->
   exists s', recv_resp_fm_clnt tm true (Z.of_nat (length l)) n s = Ok (Z.of_nat (length l), l, s') /\
     rx s' = r /\ tx s' = tx s) /\
  (Forall recoverable_send errs -> tx_plan s = map TxErr errs ->
   exists s', send_resp_to_clnt tm l n s = Ok (Z.of_nat (length l), s') /\
     tx s' = tx s ++ l /\ rx s' = rx s).
Proof.
  intros Hn Hc. split; intros.
  - by eapply recv_absorbs_errors.
  - by eapply send_absorbs_errors.
Qed.

(** A fatal error is not retried: [-1] is returned at once, nothing is sent
    or taken from the stream after it, and no time is slept; but a connection
    that the peer has closed is the end of the process. *)
Lemma fatal_errors_stop tm size n e r buf p s :
  (category (categorize_recv_error e) = ERROR_FATAL -> rx s = RxErr e :: r ->
     recv_resp_fm_clnt tm true size n s = Ok (-1, [], with_rx r s)) /\
  (category (categorize_send_error e) = ERROR_FATAL -> tx_plan s = TxErr e :: p ->
     send_resp_to_clnt tm buf n s
     = if e =? EPIPE then SIGPIPE else Ok (-1, mkSock (rx s) p (naps s) (tx s))).
Proof.
  split; intros Hf E.
  - unfold recv_resp_fm_clnt, sys_recv. rewrite E. change (-1 =? -1) with true. cbn [negb].
    destruct n as [|n]; [done|]. cbn [recv_retry]. by rewrite decide_True.
  - unfold send_resp_to_clnt, sys_send. rewrite E. destruct (e =? EPIPE); [done|]. cbn [mbind res_bind].
    change (-1 =? -1) with true. cbn [negb]. destruct n as [|n]; [done|]. cbn [send_retry]. by rewrite decide_True.
Qed.

(** C37. The socket functions are robust, and stop where they should: as many
    recoverable errors as retries are allowed are slept over; then
    [recv_resp_fm_clnt] delivers the bytes that arrive, all of them and nothing
    else, and [send_resp_to_clnt] sends the whole buffer, once. A fatal error is
    returned as [-1] at once, without a retry, a sleep or a byte moved, except that
    [EPIPE] never comes back from [send]: its signal ends the process. *)
Theorem socket_errors_handled tm errs l r n s :
  (length errs <= n)%nat -> calm s ->
  ((l <> [] -> Forall recoverable_recv errs -> rx s = map RxErr errs ++ rx_data l ++ r ->
    exists s', recv_resp_fm_clnt tm true (Z.of_nat (length l)) n s = Ok (Z.of_nat (length l), l, s') /\
      rx s' = r /\ tx s' = tx s) /\
   (Forall recoverable_send errs -> tx_plan s = map TxErr errs ->
    exists s', send_resp_to_clnt tm l n s = Ok (Z.of_nat (length l), s') /\
      tx s' = tx s ++ l /\ rx s' = rx s)) /\
  (forall e size p,
    (category (categorize_recv_error e) = ERROR_FATAL -> rx s = RxErr e :: r ->
       recv_resp_fm_clnt tm true size n s = Ok (-1, [], with_rx r s)) /\
    (category (categorize_send_error e) = ERROR_FATAL -> tx_plan s = TxErr e :: p ->
       send_resp_to_clnt tm l n s
       = if e =? EPIPE then SIGPIPE else Ok (-1, mkSock (rx s) p (naps s) (tx s)))).
Proof.
  intros Hn Hc. split; [by apply retries_absorb_errors|]. intros e size p. by apply fatal_errors_stop.
Qed.

(** ** Witnesses *)

Lemma socket_errors_handled_witness :
  (exists s', recv_resp_fm_clnt 500 true (Z.of_nat (length (bs "hi"))) 3
      (mkSock [RxErr EIO; RxErr EINTR; RxByte "h"%byte; RxByte "i"%byte; RxErr EFAULT] [] [None] [])
    = Ok (Z.of_nat (length (bs "hi")), bs "hi", s') /\ rx s' = [RxErr EFAULT] /\ tx s' = []) /\
  (exists s', send_resp_to_clnt 500 (bs "ok") 3 (mkSock [] [TxErr EWOULDBLOCK] [] [])
    = Ok (Z.of_nat (length (bs "ok")), s') /\ tx s' = [] ++ bs "ok" /\ rx s' = []).
Proof.
  split.
  - apply (socket_errors_handled 500 [EIO; EINTR] (bs "hi") [RxErr EFAULT] 3
      (mkSock [RxErr EIO; RxErr EINTR; RxByte "h"%byte; RxByte "i"%byte; RxErr EFAULT] [] [None] [])).
    + simpl. lia.
    + repeat constructor.
    + discriminate.
    + repeat (constructor; [discriminate|]). constructor.
    + reflexivity.
  - apply (socket_errors_handled 500 [EWOULDBLOCK] (bs "ok") [] 3 (mkSock [] [TxErr EWOULDBLOCK] [] [])).
    + simpl. lia.
    + constructor.
    + repeat (constructor; [discriminate|]). constructor.
    + reflexivity.
Defined.

