(* ===== verification/Protocol.v ===== *)
(** The RESP reader of [protocol.c]: sizes, bulk strings, nested arrays, read
    from a connection byte by byte, and the traversals of the resulting nodes
    ([delete_array] here, [print_array] of [util.c]). *)

From S2P Require Import Prelude CLib Errors Net.

(** ** Data *)

Definition MAX_ARRAY_SIZE : Z := 8192.
Definition PROTO_MAX_BULK_SIZE : Z := 512000000.
Definition ERR_INV_CHAR : Z := -2.
Definition ERR_ARRAY_OVERFLOW : Z := -2.
Definition DOLLAR_BYTE : byte := "$"%byte.
Definition ASTERISK_BYTE : byte := "*"%byte.
Definition MINUS_BYTE : byte := "-"%byte.

Inductive RedisDtype :=
  | UNDEF_DTYPE | SIMPLE_STR | INT | BULK_STR | ARRAY | NILL_ARRAY | EMPTY_ARRAY.

#[export] Instance RedisDtype_eq_dec : EqDecision RedisDtype.
Proof. solve_decision. Defined.

Inductive ArraySizeStates :=
  | START_STATE | DIGIT_STATE | NEG_DIGIT_STATE_I | NEG_DIGIT_STATE_II | END_STATE.

(** A node and the nodes below it.  [node->next] is the rest of the list a
    node stands in, so a [GenericNode*] is a list: [NULL] is [[]].  The
    [content] of an [ArrayNode] is such a pointer, except for the nil and the
    empty array, where it points to a bare [BaseNode] of that type. *)
Inductive node :=
  | NBulk (content : option (list byte)) (size : Z)
  | NArray (content : list node) (size : Z)
  | NArrayBase (type : RedisDtype) (size : Z).

Definition node_type (n : node) : RedisDtype :=
  match n with NBulk _ _ => BULK_STR | _ => ARRAY end.

(** ** [util.c]: [string_to_uint] *)

Definition string_to_uint (string : list byte) : Z :=
  foldl (fun num c => uint32 (uint32 (num * 10) + (char_val c - 48))) 0 (c_str string).

(** ** Reading a size *)

(** The loop of [get_el_size]: one byte per iteration goes to [buf[n_bytes]].
    At the end of the stream [recv] stores nothing and the old byte is read. *)
Fixpoint get_el_size_loop (fuel : nat) (buf : list byte) (n_bytes : Z)
    (state : ArraySizeStates) (is_negative : bool) (s : Sock) : res (Z * Sock) :=
  match fuel with
  | O => OOF
  | S fuel =>
      if MAX_ARRAY_SIZE <? n_bytes then Ok (ERR_ARRAY_OVERFLOW, s)
      else
        let '(ret_val, bytes, _, s) := sys_recv true 1 s in
        if (ret_val =? -1) || (1 <? ret_val) then Ok (ERR_INV_CHAR, s)
        else
          buf ← (match bytes with [] => Ok buf | b :: _ => awrite buf n_bytes b end);
          match state with
          | START_STATE =>
              c ← aread buf 0;
              if is_digit c then get_el_size_loop fuel buf (n_bytes + 1) DIGIT_STATE is_negative s
              else if decide (c = MINUS_BYTE)
              then get_el_size_loop fuel buf n_bytes NEG_DIGIT_STATE_I true s
              else Ok (ERR_INV_CHAR, s)
          | DIGIT_STATE =>
              c ← aread buf n_bytes;
              if is_digit c then get_el_size_loop fuel buf (n_bytes + 1) DIGIT_STATE is_negative s
              else if decide (c = CR)
              then get_el_size_loop fuel buf n_bytes END_STATE is_negative s
              else Ok (ERR_INV_CHAR, s)
          | NEG_DIGIT_STATE_I =>
              c ← aread buf n_bytes;
              if decide (c = "1"%byte)
              then get_el_size_loop fuel buf (n_bytes + 1) NEG_DIGIT_STATE_II is_negative s
              else Ok (ERR_INV_CHAR, s)
          | NEG_DIGIT_STATE_II =>
              c ← aread buf n_bytes;
              if decide (c = CR)
              then get_el_size_loop fuel buf n_bytes END_STATE is_negative s
              else Ok (ERR_INV_CHAR, s)
          | END_STATE =>
              c ← aread buf n_bytes;
              if decide (c = LF) then
                buf ← awrite buf n_bytes NUL;
                let arr_size := string_to_uint buf in
                Ok (int32 (if is_negative then uint32 (-1 * arr_size) else arr_size), s)
              else Ok (ERR_INV_CHAR, s)
          end
  end.

Definition get_el_size (s : Sock) : res (Z * Sock) :=
  get_el_size_loop (S (length (rx s))) (calloc MAX_ARRAY_SIZE) 0 START_STATE false s.

(** ** Bulk strings *)

(** The two rounds of the loop of [is_valid_terminator]. *)
Definition is_valid_terminator (s : Sock) : res (bool * Sock) :=
  '(rtn, c0, s) ← read_exact_bytes true 1 s;
  if (rtn =? 0) || (rtn =? -1) then Ok (false, s)
  else if decide (c0 <> [CR]) then Ok (false, s)
  else
    '(rtn, c1, s) ← read_exact_bytes true 1 s;
    if (rtn =? 0) || (rtn =? -1) then Ok (false, s)
    else if decide (c1 <> [LF]) then Ok (false, s)
    else Ok (true, s).

Definition new_bulk_str (content : option (list byte)) (size : Z) : res node :=
  if size =? 0 then Ok (NBulk content size)
  else
    (* content[size] = '\0' *)
    match content with
    | None => UB
    | Some c => ub_unless ((0 <=? size) && (size <=? Z.of_nat (length c))) (Ok (NBulk content size))
    end.

(** The request of [calloc(str_size + 1, 1)], as a [size_t]. *)
Definition size_t (z : Z) : Z := z mod 2 ^ 64.

Section lexer.
Context `{Heap}.

Definition lex_bulk_str (s : Sock) : res (option node * Sock) :=
  '(str_size, s) ← get_el_size s;
  if (str_size =? ERR_ARRAY_OVERFLOW) || (str_size =? ERR_INV_CHAR) then Ok (None, s)
  else if str_size =? 0 then
    '(ok, s) ← is_valid_terminator s;
    if negb ok then Ok (None, s)
    else n ← new_bulk_str (Some []) 0; Ok (Some n, s)
  else if str_size =? -1 then
    n ← new_bulk_str None (-1); Ok (Some n, s)
  else if PROTO_MAX_BULK_SIZE <? str_size then Ok (None, s)
  else
    let buf_ok := heap_grants 0 (size_t (str_size + 1)) in
    '(rtn, buf, s) ← read_exact_bytes buf_ok (size_t str_size) s;
    if (rtn =? 0) || (rtn =? -1) then Ok (None, s)
    else
      '(ok, s) ← is_valid_terminator s;
      if negb ok then Ok (None, s)
      else n ← new_bulk_str (Some buf) str_size; Ok (Some n, s).

End lexer.

(** ** Freeing a message *)

(** The objects of a message: the [BaseNode] and the string node of a bulk
    string, its text, and the two objects of an array. *)
Inductive object := OBaseNode | OBulkStringNode | OContent | OArrayNode.

(** [delete_array(el, 0)] on one node of the list: what is freed, in order.
    The bare [BaseNode] under a nil or empty array is read as a
    [GenericNode]: its type field is taken for the address of a node. *)
Fixpoint delete_node (n : node) : res (list object) :=
  match n with
  | NBulk _ _ => Ok [OBaseNode; OContent; OBulkStringNode]
  | NArray content _ =>
      freed ← (fix go (l : list node) : res (list object) :=
                 match l with
                 | [] => Ok []
                 | n :: l => f ← delete_node n; r ← go l; Ok (f ++ r)
                 end) content;
      Ok (freed ++ [OBaseNode])
  | NArrayBase _ _ => UB
  end.

Fixpoint delete_array (l : list node) : res (list object) :=
  match l with
  | [] => Ok []
  | n :: l => f ← delete_node n; r ← delete_array l; Ok (f ++ r)
  end.

(** [delete_array(previous, 1)] from the last element read so far: the walk
    back along [prev] ends at the array itself, when there is an element. *)
Definition delete_previous (elems : list node) (arr_size : Z) : res (list object) :=
  match elems with
  | [] => Ok []
  | _ => delete_array [NArray elems arr_size]
  end.

(** ** Arrays *)

Section lexer.
Context `{Heap}.

(** [lexer] and its element loop.  [current] has no initial value: an element
    that is neither a bulk string nor an array leaves it indeterminate. *)
Fixpoint lexer (fuel : nat) (s : Sock) {struct fuel} : res (option node * Sock) :=
  match fuel with
  | O => OOF
  | S fuel =>
      '(arr_size, s) ← get_el_size s;
      if arr_size =? -2 then Ok (None, s)
      else if arr_size =? -1 then Ok (Some (NArrayBase NILL_ARRAY 1), s)
      else if arr_size =? 0 then Ok (Some (NArrayBase EMPTY_ARRAY 1), s)
      else lex_elems fuel arr_size [] 0 s
  end
with lex_elems (fuel : nat) (arr_size : Z) (elems : list node) (inserted_el : Z) (s : Sock)
    {struct fuel} : res (option node * Sock) :=
  if inserted_el <? uint32 arr_size then
    match fuel with
    | O => OOF
    | S fuel =>
        '(rtn, c, s) ← read_exact_bytes true 1 s;
        if (rtn =? 0) || (rtn =? -1) then
          _ ← delete_previous elems arr_size; Ok (None, s)
        else
          '(current, s) ← (if decide (c = [DOLLAR_BYTE]) then lex_bulk_str s
                           else if decide (c = [ASTERISK_BYTE]) then lexer fuel s
                           else UB);
          match current with
          | None => _ ← delete_previous elems arr_size; Ok (None, s)
          | Some n => lex_elems fuel arr_size (elems ++ [n]) (inserted_el + 1) s
          end
    end
  else Ok (Some (NArray elems arr_size), s).

(** The fuel is one more than the items left on the connection. *)
Definition lex (s : Sock) : res (option node * Sock) := lexer (S (length (rx s))) s.

End lexer.

(** ** [util.c]: [print_array], as the text it writes to [stdout] *)

Fixpoint indent (level : nat) : list byte :=
  match level with O => [] | S l => bs "  " ++ indent l end.

Definition print_head (index : Z) (level : nat) : list byte :=
  indent level ++ bs "Node " ++ decimal index ++ bs ":" ++ [LF] ++ indent level ++ bs "  ".

Fixpoint print_node (n : node) (level : nat) : res (list byte) :=
  match n with
  | NBulk content _ =>
      Ok (bs "Type: STRING, Content: " ++
          match content with None => bs "(null)" | Some c => c_str c end ++ [LF])
  | NArray content _ =>
      t ← (fix go (l : list node) (index : Z) : res (list byte) :=
             match l with
             | [] => Ok []
             | n :: l =>
                 t ← print_node n (S level); r ← go l (index + 1);
                 Ok (print_head index (S level) ++ t ++ r)
             end) content 0;
      Ok (bs "Type: ARRAY" ++ [LF] ++ t)
  | NArrayBase _ _ => UB
  end.

Fixpoint print_nodes (l : list node) (level : nat) (index : Z) : res (list byte) :=
  match l with
  | [] => Ok []
  | n :: l =>
      t ← print_node n level; r ← print_nodes l level (index + 1);
      Ok (print_head index level ++ t ++ r)
  end.

Definition print_array (arr : list node) (level : nat) : res (list byte) :=
  print_nodes arr level 0.

(** ** Sizes *)

Lemma with_rx_twice r r' s : with_rx r (with_rx r' s) = with_rx r s.
Proof. done. Qed.

Lemma with_rx_id s : with_rx (rx s) s = s.
Proof. by destruct s. Qed.

#[export] Hint Rewrite with_rx_twice with_rx_id : redis_rw.

Lemma sys_recv_byte b r s : rx s = RxByte b :: r -> sys_recv true 1 s = (1, [b], 0, with_rx r s).
Proof. intros H. by apply (sys_recv_data [b]). Qed.

Lemma string_to_uint_digits l :
  Forall (fun b => is_digit b = true) l -> string_to_uint l = uint32 (dec_value l).
Proof.
  intros H. unfold string_to_uint, dec_value. rewrite c_str_nul_free by (by apply digits_nul_free).
  assert (forall a, foldl (fun num c => uint32 (uint32 (num * 10) + (char_val c - 48))) (uint32 a) l
    = uint32 (foldl (fun acc b => acc * 10 + (byte_val b - 48)) a l)) as Hg; [|apply (Hg 0)].
  induction H as [|b l Hb _ IH]; intros a; [done|]. cbn [foldl].
  rewrite <- IH. f_equal. apply char_val_digit in Hb as [_ ->].
  unfold uint32. rewrite Zplus_mod_idemp_l, Z.add_mod, Z.mul_mod_idemp_l, <- Z.add_mod by lia.
  done.
Qed.

Lemma string_to_uint_until_nul l l' :
  Forall (fun b => is_digit b = true) l ->
  string_to_uint (l ++ NUL :: l') = uint32 (dec_value l).
Proof.
  intros H. rewrite <- string_to_uint_digits by done. unfold string_to_uint.
  rewrite c_str_app by (by apply digits_nul_free). simpl. rewrite app_nil_r.
  by rewrite c_str_nul_free by (by apply digits_nul_free).
Qed.

(** What [get_el_size] returns for a string of digits. *)
Definition size_of_digits (is_negative : bool) (l : list byte) : Z :=
  int32 (if is_negative then uint32 (-1 * uint32 (dec_value l)) else uint32 (dec_value l)).

(** One round of the loop that receives byte [b] and stores it at [n_bytes]. *)
Ltac size_round b r s :=
  cbn [get_el_size_loop]; if_false; rewrite (sys_recv_byte b r s) by done;
  change (1 =? -1) with false; change (1 <? 1) with false; cbn [orb];
  rewrite awrite_middle; cbn [mbind res_bind]; rewrite aread_middle; cbn [mbind res_bind].

Lemma size_loop_end read neg room s r fuel st :
  Forall (fun b => is_digit b = true) read ->
  (1 <= room)%nat -> (2 <= fuel)%nat -> Z.of_nat (length read) <= MAX_ARRAY_SIZE ->
  rx s = rx_data crlf ++ r -> st = DIGIT_STATE \/ st = NEG_DIGIT_STATE_II ->
  get_el_size_loop fuel (read ++ replicate room NUL) (Z.of_nat (length read)) st neg s
  = Ok (size_of_digits neg read, with_rx r s).
Proof.
  intros Hread Hroom Hf Hlen Hrx Hst. destruct room as [|room]; [lia|].
  destruct fuel as [|fuel]; [lia|]. cbn [replicate].
  destruct Hst as [-> | ->]; size_round CR (RxByte LF :: r) s;
    change (is_digit CR) with false; rewrite decide_True by done;
    (destruct fuel as [|fuel]; [lia|]); size_round LF r (with_rx (RxByte LF :: r) s); rewrite decide_True by done;
    rewrite awrite_middle; cbn [mbind res_bind]; by rewrite string_to_uint_until_nul.
Qed.

Lemma size_loop_digits more read room s r fuel :
  Forall (fun b => is_digit b = true) (read ++ more) ->
  (length more < room)%nat -> (length more + 2 <= fuel)%nat ->
  Z.of_nat (length read + room) <= MAX_ARRAY_SIZE ->
  rx s = rx_data (more ++ crlf) ++ r ->
  get_el_size_loop fuel (read ++ replicate room NUL) (Z.of_nat (length read)) DIGIT_STATE false s
  = Ok (size_of_digits false (read ++ more), with_rx r s).
Proof.
  revert read room s fuel. induction more as [|d more IH]; intros read room s fuel Hd Hroom Hf Hm Hrx.
  - rewrite app_nil_r in *. simpl in *. apply size_loop_end; auto; lia.
  - destruct fuel as [|fuel]; [simpl in *; lia|]. destruct room as [|room]; [lia|].
    cbn [replicate]. size_round d (rx_data (more ++ crlf) ++ r) s.
    apply Forall_app in Hd as Hd'. destruct Hd' as [_ [Hdd _]%Forall_cons]. rewrite Hdd.
    specialize (IH (read ++ [d]) room (with_rx (rx_data (more ++ crlf) ++ r) s) fuel).
    rewrite <- !(assoc_L (++)) in IH. cbn [app] in IH. rewrite length_app in IH.
    cbn [length] in IH, Hroom, Hf.
    replace (Z.of_nat (length read) + 1) with (Z.of_nat (length read + 1)) by lia.
    rewrite IH; [done|done|lia|lia|lia|done].
Qed.

Lemma calloc_buffer :
  exists room, calloc MAX_ARRAY_SIZE = NUL :: replicate room NUL /\
    Z.of_nat room = MAX_ARRAY_SIZE - 1.
Proof.
  exists (Z.to_nat (MAX_ARRAY_SIZE - 1)). split; [|done].
  unfold calloc. by replace (Z.to_nat MAX_ARRAY_SIZE)
    with (S (Z.to_nat (MAX_ARRAY_SIZE - 1))) by done.
Qed.

Lemma get_el_size_digits l s r :
  Forall (fun b => is_digit b = true) l -> l <> [] ->
  Z.of_nat (length l) < MAX_ARRAY_SIZE ->
  rx s = rx_data (l ++ crlf) ++ r ->
  get_el_size s = Ok (size_of_digits false l, with_rx r s).
Proof.
  intros Hd Hne Hlen Hrx. destruct l as [|d l]; [done|].
  unfold get_el_size. rewrite Hrx at 1. unfold rx_data.
  rewrite !length_app, length_map, length_app. cbn [length].
  destruct calloc_buffer as (room & -> & Hroom).
  cbn [get_el_size_loop]. change (MAX_ARRAY_SIZE <? 0) with false.
  rewrite (sys_recv_byte d (rx_data (l ++ crlf) ++ r) s) by done.
  change (1 =? -1) with false. change (1 <? 1) with false. cbn [orb].
  rewrite awrite_head. cbn [mbind res_bind]. rewrite aread_head. cbn [mbind res_bind].
  apply Forall_cons in Hd as Hd'. destruct Hd' as [Hdd _]. rewrite Hdd.
  assert (length crlf = 2%nat) by done.
  etrans; [apply (size_loop_digits l [d] room _ r)|done]; cbn [length] in *; try done; lia.
Qed.

(** A printed number is read back. *)
Lemma get_el_size_decimal n s r :
  0 <= n < 2 ^ 31 -> rx s = rx_data (decimal n ++ crlf) ++ r ->
  get_el_size s = Ok (n, with_rx r s).
Proof.
  intros Hn Hrx. rewrite decimal_nonneg in Hrx by lia.
  rewrite (get_el_size_digits (dec_digits n) s r).
  - unfold size_of_digits. rewrite dec_digits_value by lia.
    by rewrite uint32_small, int32_small by lia.
  - apply dec_digits_digits. lia.
  - apply dec_digits_nonempty.
  - pose proof (dec_digits_length n 10). unfold MAX_ARRAY_SIZE. lia.
  - done.
Qed.

(** The bytes in front of a stream that are digits. *)
Fixpoint leading_digits (r : list rx_item) : Z :=
  match r with
  | RxByte b :: r => if is_digit b then 1 + leading_digits r else 0
  | _ => 0
  end.

(** The byte a state leaves at the position it will read next. *)
Definition pending_byte (st : ArraySizeStates) : byte :=
  match st with
  | NEG_DIGIT_STATE_I => MINUS_BYTE
  | END_STATE => CR
  | _ => NUL
  end.

(** [size_inv buf n st]: bytes read, the pending byte, then untouched zeros. *)
Definition size_inv (buf : list byte) (n : Z) (st : ArraySizeStates) : Prop :=
  exists read tail, n = Z.of_nat (length read) /\ buf = read ++ tail /\
    Z.of_nat (length buf) = MAX_ARRAY_SIZE /\ (st = START_STATE -> read = []) /\
    match tail with [] => True | c :: t => c = pending_byte st /\ Forall (eq NUL) t end.

(** What a run of the loop from [s] may give; a size takes [need] bytes. *)
Definition size_outcome (s : Sock) (need : nat) (safe : Prop) (o : res (Z * Sock)) : Prop :=
  match o with
  | OOF => False
  | Stop _ => ~ safe
  | Ok (z, s') => (length (rx s') <= length (rx s))%nat /\
      (z = -2 \/ (length (rx s') + need <= length (rx s))%nat)
  end.

(** The bytes a size still takes at least. *)
Definition size_need (st : ArraySizeStates) : nat :=
  match st with
  | START_STATE | NEG_DIGIT_STATE_I => 3
  | DIGIT_STATE | NEG_DIGIT_STATE_II => 2
  | END_STATE => 1
  end.

Definition size_safe (n : Z) (st : ArraySizeStates) (r : list rx_item) : Prop :=
  match st with
  | START_STATE | DIGIT_STATE => n + leading_digits r < MAX_ARRAY_SIZE
  | NEG_DIGIT_STATE_I => n + 1 < MAX_ARRAY_SIZE
  | _ => n < MAX_ARRAY_SIZE
  end.

Lemma size_outcome_step b r s need need' safe safe' o :
  rx s = RxByte b :: r -> (safe -> safe') -> (need <= S need')%nat ->
  size_outcome (with_rx r s) need' safe' o -> size_outcome s need safe o.
Proof.
  intros Hrx Hs Hn. destruct o as [[z s']| |]; simpl; [|tauto|done].
  rewrite Hrx. simpl. lia.
Qed.

Lemma leading_digits_nonneg r : 0 <= leading_digits r.
Proof. induction r as [|[b|e] r IH]; simpl; [lia| |lia]. case_if; lia. Qed.

(** Writing the received byte at [n] and reading it back. *)
Lemma size_inv_write buf n st b :
  size_inv buf n st ->
  (n < MAX_ARRAY_SIZE /\ exists buf', awrite buf n b = Ok buf' /\ aread buf' n = Ok b /\
     (st = START_STATE -> aread buf' 0 = Ok b /\ n = 0) /\
     (exists buf'', awrite buf' n NUL = Ok buf'') /\ (forall st', st' <> START_STATE ->
       size_inv buf' (n + 1) DIGIT_STATE /\ size_inv buf' (n + 1) NEG_DIGIT_STATE_II /\
       (b = pending_byte st' -> size_inv buf' n st')))
  \/ (n = MAX_ARRAY_SIZE /\ awrite buf n b = UB).
Proof.
  intros (read & tail & -> & -> & Hlen & Hst & Ht). destruct tail as [|c t].
  - right. rewrite app_nil_r in *. split; [lia|]. unfold awrite. by if_false.
  - left. rewrite length_app in Hlen. simpl in Hlen. split; [lia|].
    exists (read ++ b :: t). rewrite awrite_middle, aread_middle, awrite_middle.
    split; [done|]. split; [done|]. split; [intros Hs; rewrite (Hst Hs); by split|].
    split; [eauto|]. intros st' Hs'. destruct Ht as [_ Ht].
    assert (Hnext : forall st2, st2 <> START_STATE -> pending_byte st2 = NUL ->
      size_inv (read ++ b :: t) (Z.of_nat (length read) + 1) st2).
    { intros st2 Hs2 Hp. exists (read ++ [b]), t. rewrite <- (assoc_L (++)), !length_app. simpl.
      repeat split; try done; try lia. destruct t; [done|]. rewrite Hp.
      apply Forall_cons in Ht as [-> ?]. done. }
    repeat split; try (by apply Hnext). intros ->.
    exists read, (pending_byte st' :: t). rewrite length_app. simpl. repeat split; try done; lia.
Qed.

(** At the end of the stream the loop sees the pending byte and gives up. *)
Lemma size_loop_eof fuel buf n st neg s :
  (1 <= fuel)%nat -> size_inv buf n st -> rx s = [] ->
  size_outcome s (size_need st) (size_safe n st []) (get_el_size_loop fuel buf n st neg s).
Proof.
  intros Hf (read & tail & -> & -> & Hlen & Hst & Ht) Hrx.
  destruct fuel as [|fuel]; [lia|]. cbn [get_el_size_loop].
  rewrite length_app in Hlen. if_false. unfold sys_recv. rewrite Hrx.
  change (0 =? -1) with false. change (1 <? 0) with false. cbn [orb mbind res_bind].
  destruct tail as [|c t].
  - simpl in Hlen. rewrite app_nil_r.
    assert (aread read (Z.of_nat (length read)) = UB) as Hr.
    { unfold aread. if_true. rewrite Nat2Z.id, lookup_ge_None_2 by lia. done. }
    assert (st <> START_STATE) as Hns by (intros E; rewrite (Hst E) in Hlen; done).
    destruct st; [done|..]; rewrite Hr; unfold size_outcome, size_safe; simpl; lia.
  - destruct Ht as [-> _]. rewrite aread_middle.
    destruct st; [rewrite Hst by done|..]; simpl; auto.
Qed.

Lemma size_loop_outcome fuel buf n st neg s :
  (length (rx s) < fuel)%nat -> size_inv buf n st ->
  size_outcome s (size_need st) (size_safe n st (rx s)) (get_el_size_loop fuel buf n st neg s).
Proof.
  revert buf n st neg s. induction fuel as [|fuel IH]; intros buf n st neg s Hf Hinv; [lia|].
  destruct (rx s) as [|[b|e] r] eqn:Hrx.
  { apply size_loop_eof; [lia|done|done]. }
  2: { cbn [get_el_size_loop]. destruct Hinv as (read & tail & -> & -> & Hlen & _).
       rewrite length_app in Hlen. if_false. unfold sys_recv. rewrite Hrx. simpl.
       rewrite Hrx. simpl. split; [lia|by left]. }
  cbn [get_el_size_loop].
  assert (n <= MAX_ARRAY_SIZE).
  { destruct Hinv as (read & tail & -> & -> & Hlen & _). rewrite length_app in Hlen. lia. }
  if_false. rewrite (sys_recv_byte b r s) by done.
  change (1 =? -1) with false. change (1 <? 1) with false. cbn [orb].
  simpl in Hf. pose proof (leading_digits_nonneg r). assert (MAX_ARRAY_SIZE = 8192) by done.
  destruct (size_inv_write buf n st b Hinv) as
    [(Hn & buf' & -> & Hrd & Hs0 & Hnul & Hnext)|(Hn & ->)]; cbn [mbind res_bind].
  2: { unfold size_safe. cbn [leading_digits]. simpl. destruct st; try case_if; lia. }
  assert (forall z, (z = -2 \/ st = END_STATE) ->
      size_outcome s (size_need st) (size_safe n st (RxByte b :: r)) (Ok (z, with_rx r s)))
    as Hstop by (intros z [-> | ->]; simpl; rewrite Hrx; simpl; lia).
  assert (forall n' st' neg', size_inv buf' n' st' -> (size_need st <= S (size_need st'))%nat ->
    (size_safe n st (RxByte b :: r) -> size_safe n' st' r) ->
    size_outcome s (size_need st) (size_safe n st (RxByte b :: r))
      (get_el_size_loop fuel buf' n' st' neg' (with_rx r s))) as Hgo.
  { intros n' st' neg' Hinv' Hneed Hsafe. eapply size_outcome_step; [exact Hrx | exact Hsafe|exact Hneed|].
    apply (IH buf' n' st' neg' (with_rx r s)); [simpl; lia | done]. }
  destruct st; [destruct (Hs0 eq_refl) as [-> ->]| rewrite Hrd | rewrite Hrd | rewrite Hrd | rewrite Hrd];
    cbn [mbind res_bind]; repeat case_if; repeat case_decide; subst; try (apply Hstop; tauto);
    try (apply Hgo; [|simpl; lia|unfold size_safe; cbn [leading_digits]; rewrite ?Hif; simpl; lia]).
  all: try (destruct (Hnext DIGIT_STATE) as (? & ? & _); by auto).
  - destruct (Hnext NEG_DIGIT_STATE_I) as (_ & _ & Hq); by auto.
  - destruct (Hnext END_STATE) as (_ & _ & Hq); by auto.
  - destruct (Hnext END_STATE) as (_ & _ & Hq); by auto.
  - destruct Hnul as [buf'' ->]. apply Hstop. tauto.
  - destruct Hnul as [buf'' ->]. apply Hstop. tauto.
Qed.

Lemma get_el_size_outcome s :
  size_outcome s 3 (leading_digits (rx s) < MAX_ARRAY_SIZE) (get_el_size s).
Proof.
  unfold get_el_size.
  apply (size_loop_outcome (S (length (rx s))) _ 0 START_STATE false s); [lia|].
  destruct calloc_buffer as (room & -> & Hroom). exists [], (NUL :: replicate room NUL).
  cbn [length app]. rewrite length_replicate. repeat split; try done; [lia|].
  apply Forall_replicate. done.
Qed.

Lemma get_el_size_not_OOF s : get_el_size s <> OOF.
Proof. pose proof (get_el_size_outcome s) as H. by destruct (get_el_size s). Qed.

Lemma get_el_size_consumes s z s' :
  get_el_size s = Ok (z, s') ->
  (length (rx s') <= length (rx s))%nat /\ (z = -2 \/ (length (rx s') + 3 <= length (rx s))%nat).
Proof. intros E. pose proof (get_el_size_outcome s) as H. by rewrite E in H. Qed.

#[export] Hint Resolve get_el_size_not_OOF : redis.

(** ** Termination of the reader *)

Lemma is_valid_terminator_not_OOF s : is_valid_terminator s <> OOF.
Proof.
  unfold is_valid_terminator. apply bind_not_OOF; [auto with redis|].
  intros [[rtn c] s1] _. repeat case_if; try done.
  apply bind_not_OOF; [auto with redis|]. intros [[rtn' c'] s2] _.
  by repeat case_if.
Qed.

Lemma is_valid_terminator_consumes s ok s' :
  is_valid_terminator s = Ok (ok, s') -> (length (rx s') <= length (rx s))%nat.
Proof.
  unfold is_valid_terminator. intros H. apply bind_Ok_inv in H as ([[rtn c] s1] & E1 & H).
  apply read_exact_consumes in E1 as [E1 _]. revert H.
  case_if; [intros [= _ <-]; lia|]. case_decide; [intros [= _ <-]; lia|].
  intros H'. apply bind_Ok_inv in H' as ([[rtn' c'] s2] & E2 & H').
  apply read_exact_consumes in E2 as [E2 _]. revert H'.
  case_if; [intros [= _ <-]; lia|]. case_decide; intros [= _ <-]; lia.
Qed.

Lemma new_bulk_str_not_OOF c z : new_bulk_str c z <> OOF.
Proof. unfold new_bulk_str, ub_unless. case_if; [done|]. destruct c; [by case_if | done]. Qed.

Lemma delete_node_not_OOF n : delete_node n <> OOF.
Proof.
  revert n. fix IH 1. intros [c z|l z|t z]; simpl; try done.
  apply bind_not_OOF; [|done]. induction l as [|n l IHl]; [done|].
  apply bind_not_OOF; [apply IH|]. intros f _. by apply bind_not_OOF.
Qed.

Lemma delete_array_not_OOF l : delete_array l <> OOF.
Proof.
  induction l as [|n l IH]; simpl; [done|].
  apply bind_not_OOF; [apply delete_node_not_OOF|]. intros f _. by apply bind_not_OOF.
Qed.

Lemma delete_previous_not_OOF l z : delete_previous l z <> OOF.
Proof. destruct l; [done | apply delete_array_not_OOF]. Qed.

#[export] Hint Resolve is_valid_terminator_not_OOF new_bulk_str_not_OOF
  delete_previous_not_OOF : redis.

Section lexer_termination.
Context `{Heap}.

Lemma lex_bulk_str_not_OOF s : lex_bulk_str s <> OOF.
Proof.
  unfold lex_bulk_str. apply bind_not_OOF; [auto with redis|]. intros [z s1] _.
  repeat case_if; try done.
  - apply bind_not_OOF; [auto with redis|]. intros [[] s2] _; [|done].
    by apply bind_not_OOF; [auto with redis|].
  - apply bind_not_OOF; [auto with redis|]. intros [[rtn c] s2] _. case_if; [done|].
    apply bind_not_OOF; [auto with redis|]. intros [[] s3] _; [|done].
    by apply bind_not_OOF; [auto with redis|].
Qed.

Lemma lex_bulk_str_consumes s o s' :
  lex_bulk_str s = Ok (o, s') -> (length (rx s') <= length (rx s))%nat.
Proof.
  unfold lex_bulk_str. intros H'. apply bind_Ok_inv in H' as ([z s1] & E1 & H').
  apply get_el_size_consumes in E1 as [E1 _]. revert H'.
  case_if; [intros [= _ <-]; lia|]. case_if.
  { intros H'. apply bind_Ok_inv in H' as ([ok s2] & E2 & H').
    apply is_valid_terminator_consumes in E2. revert H'.
    case_if; [intros [= _ <-]; lia|]. intros H'. res_inv H'. injection H' as _ <-. lia. }
  case_if; [intros H'; res_inv H'; injection H' as _ <-; lia|].
  case_if; [intros [= _ <-]; lia|].
  intros H'. apply bind_Ok_inv in H' as ([[rtn c] s2] & E2 & H').
  apply read_exact_consumes in E2 as [E2 _]. revert H'. case_if; [intros [= _ <-]; lia|].
  intros H'. apply bind_Ok_inv in H' as ([ok s3] & E3 & H').
  apply is_valid_terminator_consumes in E3. revert H'.
  case_if; [intros [= _ <-]; lia|]. intros H'. res_inv H'. injection H' as _ <-. lia.
Qed.

(** What a reading function may give from [s]: never out of fuel, and never
    more input left than before. *)
Definition reads (s : Sock) (o : res (option node * Sock)) : Prop :=
  match o with
  | OOF => False
  | Stop _ => True
  | Ok (_, s') => (length (rx s') <= length (rx s))%nat
  end.

Lemma reads_weaken s s0 o :
  (length (rx s) <= length (rx s0))%nat -> reads s o -> reads s0 o.
Proof. destruct o as [[]| |]; simpl; [lia|done|done]. Qed.

Lemma reads_bind_unit {A} s (m : res A) :
  m <> OOF -> reads s (_ ← m; Ok (None, s)).
Proof. destruct m; simpl; [lia|done|done]. Qed.

Lemma lexer_reads fuel :
  (forall s, (length (rx s) < fuel)%nat -> reads s (lexer fuel s)) /\
  (forall s arr_size elems i, (length (rx s) < fuel)%nat ->
     reads s (lex_elems fuel arr_size elems i s)).
Proof.
  induction fuel as [|fuel [IHl IHe]]; [split; intros; lia|]. split.
  - intros s Hf. cbn [lexer]. pose proof (get_el_size_not_OOF s) as Hn.
    destruct (get_el_size s) as [[z s1]| |] eqn:E; [|done|done]. cbn [mbind res_bind].
    apply get_el_size_consumes in E as [E1 E2].
    case_if; [simpl; lia|]. case_if; [simpl; lia|]. case_if; [simpl; lia|].
    apply (reads_weaken s1); [lia|]. apply IHe. lia.
  - intros s z elems i Hf. cbn [lex_elems]. case_if; [|simpl; lia].
    pose proof (read_exact_not_OOF true 1 s) as Hn.
    destruct (read_exact_bytes true 1 s) as [[[rtn c] s1]| |] eqn:E; [|done|done].
    cbn [mbind res_bind]. pose proof (read_exact_cases _ _ _ _ _ _ E) as Hc.
    apply read_exact_consumes in E as [E1 E2].
    case_if; [apply (reads_weaken s1); [lia|]; apply reads_bind_unit; auto with redis|].
    assert (rtn = 1) as -> by lia.
    specialize (E2 eq_refl).
    assert (forall o, reads s1 o -> reads s ('(current, s2) ← o;
      match current with
      | None => _ ← delete_previous elems z; Ok (None, s2)
      | Some n => lex_elems fuel z (elems ++ [n]) (i + 1) s2
      end)) as Hnext.
    { intros [[[n|] s2]| |] Ho; simpl in Ho; try done; cbn [mbind res_bind].
      - apply (reads_weaken s2); [lia|]. apply IHe. lia.
      - apply (reads_weaken s2); [lia|]. apply reads_bind_unit; auto with redis. }
    apply Hnext. case_decide; [|case_decide; [|done]].
    + pose proof (lex_bulk_str_not_OOF s1).
      destruct (lex_bulk_str s1) as [[o s2]| |] eqn:El; [|done|done].
      simpl. by apply lex_bulk_str_consumes in El.
    + apply IHl. lia.
Qed.
End lexer_termination.

(** ** The wire format *)

Fixpoint encode (n : node) : list byte :=
  match n with
  | NBulk c z => DOLLAR_BYTE :: decimal z ++ crlf ++ default [] c ++ crlf
  | NArray l z => ASTERISK_BYTE :: decimal z ++ crlf ++
      (fix go (l : list node) : list byte :=
         match l with [] => [] | n :: l => encode n ++ go l end) l
  | NArrayBase _ _ => []
  end.

Fixpoint encode_nodes (l : list node) : list byte :=
  match l with [] => [] | n :: l => encode n ++ encode_nodes l end.

Lemma encode_array l z :
  encode (NArray l z) = ASTERISK_BYTE :: decimal z ++ crlf ++ encode_nodes l.
Proof.
  simpl. do 3 f_equal. 
Qed.

(** The messages the protocol can carry: sizes tell the truth, bulk strings
    are within the limit, arrays are not empty. *)
Fixpoint resp_ok (n : node) : Prop :=
  match n with
  | NBulk (Some c) z => z = Z.of_nat (length c) /\ z <= PROTO_MAX_BULK_SIZE
  | NArray l z => z = Z.of_nat (length l) /\ 1 <= z < 2 ^ 31 /\
      (fix go (l : list node) : Prop :=
         match l with [] => True | n :: l => resp_ok n /\ go l end) l
  | _ => False
  end.

Fixpoint resp_oks (l : list node) : Prop :=
  match l with [] => True | n :: l => resp_ok n /\ resp_oks l end.

Lemma resp_ok_array l z :
  resp_ok (NArray l z) <-> z = Z.of_nat (length l) /\ 1 <= z < 2 ^ 31 /\ resp_oks l.
Proof. done. Qed.

Lemma is_valid_terminator_crlf s r :
  rx s = rx_data crlf ++ r -> is_valid_terminator s = Ok (true, with_rx r s).
Proof.
  intros Hrx. unfold is_valid_terminator.
  rewrite (read_byte CR (RxByte LF :: r) s) by done. cbn [mbind res_bind].
  change ((1 =? 0) || (1 =? -1)) with false. cbv iota.
  rewrite decide_False by naive_solver.
  rewrite (read_byte LF r (with_rx (RxByte LF :: r) s)) by done. cbn [mbind res_bind].
  change ((1 =? 0) || (1 =? -1)) with false. cbv iota.
  by rewrite decide_False by naive_solver.
Qed.

Lemma rx_data_app l1 l2 : rx_data (l1 ++ l2) = rx_data l1 ++ rx_data l2.
Proof. apply map_app. Qed.

Section roundtrip.
Context `{Heap}.
Context (Hheap : forall n, n <= PROTO_MAX_BULK_SIZE + 1 -> heap_grants 0 n = true).

Lemma lex_bulk_str_encoded c s r :
  Z.of_nat (length c) <= PROTO_MAX_BULK_SIZE ->
  rx s = rx_data (decimal (Z.of_nat (length c)) ++ crlf ++ c ++ crlf) ++ r ->
  lex_bulk_str s = Ok (Some (NBulk (Some c) (Z.of_nat (length c))), with_rx r s).
Proof.
  intros Hmax Hrx. unfold PROTO_MAX_BULK_SIZE in Hmax.
  set (z := Z.of_nat (length c)) in *. unfold lex_bulk_str.
  rewrite (get_el_size_decimal z s (rx_data (c ++ crlf) ++ r)).
  2: lia. 2: { rewrite Hrx. rewrite !rx_data_app, <- !(assoc_L (++)). done. }
  cbn [mbind res_bind]. unfold ERR_ARRAY_OVERFLOW, ERR_INV_CHAR. if_false. case_if.
  - destruct c as [|b c]; [|simpl in *; lia].
    rewrite (is_valid_terminator_crlf _ r) by done. done.
  - if_false. unfold PROTO_MAX_BULK_SIZE. if_false.
    assert (size_t z = z /\ size_t (z + 1) = z + 1) as [-> ->].
    { unfold size_t. rewrite !Z.mod_small by lia. done. }
    rewrite Hheap by (unfold PROTO_MAX_BULK_SIZE; lia).
    rewrite (read_exact_data c (rx_data crlf ++ r)).
    2: { by intros ->. } 2: { cbn [rx with_rx]. by rewrite rx_data_app, <- (assoc_L (++)). }
    cbn [mbind res_bind]. change ((1 =? 0) || (1 =? -1)) with false. cbv iota.
    rewrite (is_valid_terminator_crlf _ r) by done. cbn [mbind res_bind negb].
    unfold new_bulk_str, ub_unless. if_false. if_true. done.
Qed.

Lemma lexer_encoded fuel :
  (forall l z s r, (length (rx s) < fuel)%nat -> resp_ok (NArray l z) ->
     rx s = rx_data (decimal z ++ crlf ++ encode_nodes l) ++ r ->
     lexer fuel s = Ok (Some (NArray l z), with_rx r s)) /\
  (forall done_ l z s r, (length (rx s) < fuel)%nat -> resp_oks l ->
     z = Z.of_nat (length (done_ ++ l)) -> 1 <= z < 2 ^ 31 ->
     rx s = rx_data (encode_nodes l) ++ r ->
     lex_elems fuel z done_ (Z.of_nat (length done_)) s
     = Ok (Some (NArray (done_ ++ l) z), with_rx r s)).
Proof.
  induction fuel as [|fuel [IHl IHe]]; [split; intros; lia|]. split.
  - intros l z s r Hf (Hz & Hr & Hok)%resp_ok_array Hrx. cbn [lexer].
    rewrite (get_el_size_decimal z s (rx_data (encode_nodes l) ++ r)).
    2: lia. 2: { rewrite Hrx. by rewrite !rx_data_app, <- !(assoc_L (++)). }
    cbn [mbind res_bind]. if_false. if_false. if_false.
    rewrite (IHe [] l z _ r); auto.
    cbn [rx with_rx]. rewrite Hrx in Hf. unfold rx_data in *.
    rewrite !length_app, !length_map, !length_app in *.
    assert (length crlf = 2%nat) by done. lia.
  - intros done_ l z s r Hf Hok Hz Hzr Hrx. cbn [lex_elems].
    rewrite length_app in Hz. rewrite uint32_small by lia.
    destruct l as [|n l]; cbn [length] in Hz.
    { if_false. rewrite app_nil_r. simpl in Hrx. rewrite <- Hrx. by rewrite with_rx_id. }
    if_true. destruct Hok as [Hn Hok]. cbn [encode_nodes] in Hrx.
    assert (exists b body, encode n = b :: body) as (b & body & Eb)
      by (destruct n as [[]| |]; simpl in Hn; try done; eauto).
    rewrite Eb, rx_data_app in Hrx. cbn [rx_data map app] in Hrx. rewrite <- (assoc_L (++)) in Hrx.
    rewrite (read_byte b _ s Hrx). cbn [mbind res_bind].
    change ((1 =? 0) || (1 =? -1)) with false. cbv iota.
    set (r1 := map RxByte body ++ rx_data (encode_nodes l) ++ r) in *.
    assert ((if decide ([b] = [DOLLAR_BYTE]) then lex_bulk_str (with_rx r1 s)
             else if decide ([b] = [ASTERISK_BYTE]) then lexer fuel (with_rx r1 s) else UB)
            = Ok (Some n, with_rx (rx_data (encode_nodes l) ++ r) s)) as ->.
    { destruct n as [[c|]|ns z'|]; try done.
      - injection Eb as <- <-. rewrite decide_True by done. destruct Hn as [-> Hc].
        by rewrite (lex_bulk_str_encoded c _ (rx_data (encode_nodes l) ++ r)).
      - rewrite encode_array in Eb. injection Eb as <- <-.
        rewrite decide_False, decide_True by done.
        rewrite (IHl ns z' _ (rx_data (encode_nodes l) ++ r)); auto.
        rewrite Hrx in Hf. simpl in *. lia. }
    cbn [mbind res_bind].
    replace (Z.of_nat (length done_) + 1) with (Z.of_nat (length (done_ ++ [n])))
      by (rewrite length_app; simpl; lia).
    rewrite (IHe (done_ ++ [n]) l z _ r); auto.
    + by rewrite <- (assoc_L (++)).
    + rewrite Hrx in Hf. unfold r1 in Hf. simpl in *.
      rewrite !length_app in *. lia.
    + rewrite !length_app. simpl. lia.
Qed.

End roundtrip.

(** [-1] is read as such. *)
Lemma get_el_size_minus_one s r :
  rx s = rx_data (bs "-1" ++ crlf) ++ r -> get_el_size s = Ok (-1, with_rx r s).
Proof.
  intros Hrx. unfold get_el_size. rewrite Hrx at 1.
  destruct calloc_buffer as (room & -> & Hroom). unfold rx_data.
  change (length (map RxByte (bs "-1" ++ crlf) ++ r)) with (S (S (S (S (length r))))).
  remember (S (S (S (length r)))) as g eqn:Eg. assert (2 <= g)%nat as Hg by lia. clear Eg.
  cbn [get_el_size_loop]. change (MAX_ARRAY_SIZE <? 0) with false. cbv iota.
  rewrite (sys_recv_byte MINUS_BYTE (rx_data (bs "1" ++ crlf) ++ r) s) by done.
  change (1 =? -1) with false. change (1 <? 1) with false. cbn [orb].
  rewrite awrite_head. cbn [mbind res_bind]. rewrite aread_head. cbn [mbind res_bind].
  change (is_digit MINUS_BYTE) with false. rewrite decide_True by done. cbv iota.
  rewrite (sys_recv_byte "1"%byte (rx_data crlf ++ r) (with_rx _ s)) by done.
  change (1 =? -1) with false. change (1 <? 1) with false. cbn [orb].
  rewrite awrite_head. cbn [mbind res_bind]. rewrite aread_head. cbn [mbind res_bind].
  rewrite decide_True by done.
  apply (size_loop_end (bs "1") true room (with_rx _ s) r); try done; try lia.
  - by repeat constructor.
  - change MAX_ARRAY_SIZE with 8192 in Hroom. lia.
  - by right.
Qed.

(** Enough digits carry the loop to the end of the buffer and past it. *)
Lemma size_loop_overflow more read room b s r fuel neg :
  Forall (fun d => is_digit d = true) more ->
  length more = room -> (length more + 1 <= fuel)%nat ->
  Z.of_nat (length read + room) = MAX_ARRAY_SIZE ->
  rx s = map RxByte more ++ RxByte b :: r ->
  get_el_size_loop fuel (read ++ replicate room NUL) (Z.of_nat (length read)) DIGIT_STATE neg s = UB.
Proof.
  intros Hd <-. revert read s fuel. induction Hd as [|d more Hdd Hd IH];
    intros read s fuel Hf Hm Hrx; (destruct fuel as [|fuel]; [lia|]); cbn [length] in *.
  - cbn [get_el_size_loop replicate]. if_false. rewrite (sys_recv_byte b r s) by done.
    change (1 =? -1) with false. change (1 <? 1) with false. cbn [orb].
    unfold awrite. rewrite app_nil_r. by if_false.
  - cbn [replicate]. size_round d (map RxByte more ++ RxByte b :: r) s. rewrite Hdd.
    specialize (IH (read ++ [d]) (with_rx (map RxByte more ++ RxByte b :: r) s) fuel).
    rewrite length_app, <- (assoc_L (++)) in IH. cbn [length app] in IH.
    replace (Z.of_nat (length read) + 1) with (Z.of_nat (length read + 1)) by lia.
    apply IH; [lia|lia|done].
Qed.

(** ** Allocations and releases *)

(** The objects [lex_bulk_str] and [lexer] allocate for a message. *)
Fixpoint allocated (n : node) : list object :=
  match n with
  | NBulk _ _ => [OBaseNode; OContent; OBulkStringNode]
  | NArray l _ =>
      (fix go (l : list node) : list object :=
         match l with [] => [] | n :: l => allocated n ++ go l end) l ++ [OBaseNode; OArrayNode]
  | NArrayBase _ _ => [OBaseNode; OBaseNode; OArrayNode]
  end.

(** The objects of a list of messages that are released: all but the
    [ArrayNode]s. *)
Definition released (o : object) : bool :=
  match o with OArrayNode => false | _ => true end.

Definition objects (l : list node) : list object := concat (map allocated l).

Lemma delete_resp_ok fuel :
  (forall n, (length (encode n) < fuel)%nat -> resp_ok n ->
     delete_node n = Ok (filter released (allocated n))) /\
  (forall l, (length (encode_nodes l) < fuel)%nat -> resp_oks l ->
     delete_array l = Ok (filter released (objects l))).
Proof.
  induction fuel as [|fuel [IHn IHl]]; [split; intros; lia|].
  assert (forall n, (length (encode n) < S fuel)%nat -> resp_ok n ->
     delete_node n = Ok (filter released (allocated n))) as Hn.
  { intros [[c|] z|l z|t z] Hf Hok; try done. rewrite encode_array in Hf.
    apply resp_ok_array in Hok as (_ & _ & Hok).
    cbn [length] in Hf. rewrite !length_app in Hf.
    specialize (IHl l ltac:(lia) Hok).
    change (delete_node (NArray l z)) with (freed ← delete_array l; Ok (freed ++ [OBaseNode])).
    rewrite IHl. cbn [mbind res_bind].
    change (allocated (NArray l z)) with ((fix go (l : list node) : list object :=
         match l with [] => [] | n :: l => allocated n ++ go l end) l ++ [OBaseNode; OArrayNode]).
    rewrite filter_app. do 2 f_equal. unfold objects. clear.
    induction l as [|n l IH]; [done|]. simpl. rewrite !filter_app. by rewrite IH. }
  split; [exact Hn|]. intros l. induction l as [|n l IH]; [done|].
  intros Hf [Hok Hoks]. cbn [encode_nodes] in Hf. rewrite length_app in Hf.
  cbn [delete_array]. rewrite Hn by (done || lia). rewrite IH by (done || lia).
  cbn [mbind res_bind]. unfold objects. cbn [map concat]. by rewrite filter_app.
Qed.

(** ** Properties *)

Section properties.
Context `{Heap}.

(** C12. Round trip of the protocol: a request that is a non-empty array of
    bulk strings and nested arrays, written on the wire after its leading
    asterisk, is read back by [lexer] as the same tree, and exactly its bytes
    are taken from the connection. *)
Theorem lexer_roundtrip l z s r :
  (forall n, n <= PROTO_MAX_BULK_SIZE + 1 -> heap_grants 0 n = true) ->
  resp_ok (NArray l z) ->
  rx_data [ASTERISK_BYTE] ++ rx s = rx_data (encode (NArray l z)) ++ r ->
  lex s = Ok (Some (NArray l z), with_rx r s).
Proof.
  intros Hh Hok Hrx. rewrite encode_array in Hrx. injection Hrx as Hrx.
  apply (proj1 (lexer_encoded Hh _)); [lia|done|]. by rewrite Hrx.
Qed.

(** Termination of the reader: whatever the peer sends (any bytes, errors,
    a close at any point), [lexer] finishes within one step per item received,
    and never leaves more input than there was. *)
Lemma lexer_terminates s :
  lex s <> OOF /\ forall o s', lex s = Ok (o, s') -> (length (rx s') <= length (rx s))%nat.
Proof.
  pose proof (proj1 (lexer_reads _) s (Nat.lt_succ_diag_r _)) as Hr.
  unfold lex. split; [by intros E; rewrite E in Hr|].
  intros o s' E. by rewrite E in Hr.
Qed.

Lemma get_el_size_in_bounds s :
  leading_digits (rx s) < MAX_ARRAY_SIZE -> exists z s', get_el_size s = Ok (z, s').
Proof.
  intros Hl. pose proof (get_el_size_outcome s) as Ho.
  destruct (get_el_size s) as [[z s']| |]; simpl in Ho; [eauto|tauto|done].
Qed.

Lemma get_el_size_overflows l b s r :
  Forall (fun d => is_digit d = true) l -> Z.of_nat (length l) = MAX_ARRAY_SIZE ->
  rx s = rx_data (l ++ [b]) ++ r ->
  get_el_size s = UB.
Proof.
  intros Hd Hlen Hrx. destruct l as [|d l]; [done|].
  unfold get_el_size. rewrite Hrx at 1.
  destruct calloc_buffer as (room & -> & Hroom). cbn [length] in Hlen.
  rewrite rx_data_app, <- (assoc_L (++)). cbn [rx_data map app length].
  rewrite length_app. unfold rx_data. rewrite length_map. cbn [length].
  rewrite rx_data_app, <- (assoc_L (++)) in Hrx. cbn [rx_data map app] in Hrx.
  assert (exists f, f = (length l + S (length r))%nat) as [f Hf] by eauto. rewrite <- Hf.
  remember (S f) as fuel eqn:Hfuel.
  cbn [get_el_size_loop]. change (MAX_ARRAY_SIZE <? 0) with false.
  rewrite (sys_recv_byte d _ s Hrx).
  change (1 =? -1) with false. change (1 <? 1) with false. cbn [orb].
  rewrite awrite_head. cbn [mbind res_bind]. rewrite aread_head. cbn [mbind res_bind].
  apply Forall_cons in Hd as [Hdd Hd]. rewrite Hdd.
  apply (size_loop_overflow l [d] room b _ r); cbn [length] in *; try done; lia.
Qed.

(** C35. The exact bound of [get_el_size]: with fewer than 8192 digits at the head
    of the stream every access stays inside the 8192-byte buffer; but the guard
    [n_bytes>MAX_ARRAY_SIZE] is one too weak, and after 8192 digits the next
    byte is stored past its end. *)
Theorem get_el_size_bounds l b s r :
  Forall (fun d => is_digit d = true) l -> rx s = rx_data (l ++ [b]) ++ r -> is_digit b = false ->
  (Z.of_nat (length l) < MAX_ARRAY_SIZE -> exists z s', get_el_size s = Ok (z, s')) /\
  (Z.of_nat (length l) = MAX_ARRAY_SIZE -> get_el_size s = UB).
Proof.
  intros Hd Hrx Hb. split; intros Hlen; [|by eapply get_el_size_overflows].
  apply get_el_size_in_bounds. rewrite Hrx, rx_data_app, <- (assoc_L (++)).
  enough (leading_digits (rx_data l ++ rx_data [b] ++ r) = Z.of_nat (length l)) by lia.
  clear Hrx Hlen. induction Hd as [|d l Hd _ IH].
  - cbn. by rewrite Hb.
  - change (rx_data (d :: l)) with (RxByte d :: rx_data l). cbn [app leading_digits length]. rewrite Hd, IH. lia.
Qed.

(** A message read by [lexer] from a valid request is released by
    [delete_array] without touching a bad pointer, each object at most once;
    what stays allocated is exactly its [ArrayNode]s, one per array. *)
Lemma delete_array_releases l z :
  resp_ok (NArray l z) ->
  delete_array [NArray l z] = Ok (filter released (allocated (NArray l z))).
Proof.
  intros Hok. rewrite (proj2 (delete_resp_ok (S (length (encode_nodes [NArray l z]))))).
  - unfold objects. cbn [map concat]. by rewrite app_nil_r.
  - lia.
  - done.
Qed.

(** The empty array [*0] and the nil array [*-1] are accepted by [lexer],
    and both [print_array] and [delete_array] then use the type of the bare
    node as an address: such a request makes the server dereference it. *)
Lemma empty_array_is_fatal (nil : bool) s r :
  rx s = rx_data (bs (if nil then "-1" else "0") ++ crlf) ++ r ->
  exists n, lex s = Ok (Some n, with_rx r s) /\
    print_array [n] 0 = UB /\ delete_array [n] = UB.
Proof.
  intros Hrx. exists (NArrayBase (if nil then NILL_ARRAY else EMPTY_ARRAY) 1).
  split; [|done]. unfold lex. cbn [lexer].
  assert (get_el_size s = Ok (if nil then -1 else 0, with_rx r s)) as ->; [|by destruct nil].
  destruct nil; [by apply get_el_size_minus_one | by apply get_el_size_decimal].
Qed.

End properties.

(** ** Witnesses *)

(** A heap that grants every request of at most a gibibyte. *)
Definition gib_heap : Heap := fun _ n => n <=? 2 ^ 30.

(** A connection on which exactly [l] arrives. *)
Definition sock_of (l : list byte) : Sock := mkSock (rx_data l) [] [] [].

Definition sample_request : list node :=
  [NBulk (Some (bs "GET")) 3; NBulk (Some []) 0; NArray [NBulk (Some (bs "k")) 1] 1].

Definition sample_wire : list byte := decimal 3 ++ crlf ++ encode_nodes sample_request.

Lemma lexer_roundtrip_witness :
  @lex gib_heap (sock_of (sample_wire ++ bs "*"))
  = Ok (Some (NArray sample_request 3), sock_of (bs "*")).
Proof.
  apply (@lexer_roundtrip gib_heap sample_request 3 (sock_of (sample_wire ++ bs "*")) (rx_data (bs "*"))).
  - intros n Hn. unfold gib_heap, heap_grants, PROTO_MAX_BULK_SIZE in *. apply Z.leb_le. lia.
  - repeat split; vm_compute; discriminate.
  - vm_compute. reflexivity.
Defined.

Lemma get_el_size_bounds_witness :
  get_el_size (sock_of (replicate (Z.to_nat 8192) "7"%byte ++ [CR])) = UB /\
  exists z s', get_el_size (sock_of (bs "12x")) = Ok (z, s').
Proof.
  split.
  - apply (get_el_size_bounds (replicate (Z.to_nat 8192) "7"%byte) CR
           (sock_of (replicate (Z.to_nat 8192) "7"%byte ++ [CR])) []).
    + apply Forall_replicate. reflexivity.
    + rewrite app_nil_r. reflexivity.
    + reflexivity.
    + rewrite length_replicate. reflexivity.
  - apply (get_el_size_bounds (bs "12") "x"%byte (sock_of (bs "12x")) []).
    + repeat (constructor; [reflexivity|]). constructor.
    + reflexivity.
    + reflexivity.
    + reflexivity.
Defined.

Example sample_request_released :
  delete_array [NArray sample_request 3]
  = Ok (filter released (allocated (NArray sample_request 3))).
Proof. apply (delete_array_releases sample_request 3). repeat split; vm_compute; discriminate. Defined.
