(* ===== verification/KeyVal.v ===== *)
(** The key and value objects of [cmd_handler.c]: their creation from a
    request, comparison, release, printing as bulk strings, and the expiry
    test of a key, computed in [float] as the source does. *)

From Stdlib Require Import QArith.
From S2P Require Import Prelude CLib CFloat Protocol SimpleMap.

#[local] Open Scope Z_scope.

(** ** Data *)

Record timespec := mkTimespec { tv_sec : Z; tv_nsec : Z }.

Record KeyNode := mkKeyNode {
  kn_content : option (list byte);
  kn_input_time : option timespec;
  kn_ex : Z;
  kn_px : Z;
  kn_size : Z
}.

(** [ValueNode], as the [ValueNodeString] it is cast to. *)
Record ValueNode := mkValueNode {
  vn_content : option (list byte);
  vn_dtype : RedisDtype;
  vn_size : Z
}.

#[export] Instance timespec_eq_dec : EqDecision timespec.
Proof. solve_decision. Defined.
#[export] Instance KeyNode_eq_dec : EqDecision KeyNode.
Proof. solve_decision. Defined.
#[export] Instance ValueNode_eq_dec : EqDecision ValueNode.
Proof. solve_decision. Defined.

Abbreviation Store := (SimpleMap KeyNode ValueNode).
Abbreviation Pair := (KeyValuePair KeyNode ValueNode).

(** ** Creation *)

(** The copy of [size] bytes from a [char*], whose object ends with a NUL. *)
Definition copy_text (content : list byte) (size : Z) : res (list byte) :=
  ub_unless ((size <=? Z.of_nat (length content) + 1) && (size <? INT_MAX))
    (Ok (take (Z.to_nat size) (content ++ [NUL]))).

(** [now] is what [clock_gettime] reports. *)
Definition create_key_node (content : option (list byte)) (ex px size : Z) (now : timespec)
    : res (option KeyNode) :=
  match content with
  | None => Ok None
  | Some c =>
      if size <? 1 then Ok None
      else
        text ← copy_text c size;
        Ok (Some (mkKeyNode (Some text) (Some now) ex px size))
  end.

Definition create_value_node_string (content : option (list byte)) (dtype : RedisDtype) (size : Z)
    : res (option ValueNode) :=
  match content with
  | None => Ok None
  | Some c =>
      if size <? 1 then Ok None
      else
        text ← copy_text c size;
        Ok (Some (mkValueNode (Some text) dtype size))
  end.

Definition create_value_node (gnode : option node) : res (option ValueNode) :=
  match gnode with
  | None => Ok None
  | Some (NBulk content size) => create_value_node_string content BULK_STR size
  | Some _ => Ok None
  end.

(** ** Comparison *)

(** [content[i]] on a [char*]. *)
Definition char_at (content : option (list byte)) (i : Z) : res byte :=
  c ← deref content; aread (c ++ [NUL]) i.

Fixpoint compare_loop (fuel : nat) (ka kb : KeyNode) (i : Z) : res bool :=
  if i <? kn_size ka then
    match fuel with
    | O => OOF
    | S fuel =>
        a ← char_at (kn_content ka) i;
        b ← char_at (kn_content kb) i;
        if decide (a <> b) then Ok false else compare_loop fuel ka kb (i + 1)
    end
  else Ok true.

(** Whether the result is a non-null pointer. *)
Definition compare (a b : option KeyNode) : res bool :=
  match a, b with
  | Some ka, Some kb =>
      if negb (kn_size ka =? kn_size kb) then Ok false
      else compare_loop (Z.to_nat (kn_size ka)) ka kb 0
  | _, _ => Ok false
  end.

(** ** Release

    The log of the objects handed to [free]: a node with all its parts, or
    the shell of a [KeyValuePair]. *)

Inductive freed := FreedKey (k : KeyNode) | FreedValue (v : ValueNode) | FreedPair.

Definition clean_up_kv (key : option KeyNode) (value : option ValueNode) : list freed :=
  match key with Some k => [FreedKey k] | None => [] end ++
  match value with Some v => [FreedValue v] | None => [] end.

(** ** Printing *)

(** The argument [nt] of the source selects the struct [node] points to. *)
Definition node_size (n : KeyNode + ValueNode) : Z :=
  match n with inl k => kn_size k | inr v => vn_size v end.
Definition node_content (n : KeyNode + ValueNode) : option (list byte) :=
  match n with inl k => kn_content k | inr v => vn_content v end.

(** [memcpy(dst + pos, src, n)] from a [char*]. *)
Definition copy_chars (dst : list byte) (pos : Z) (src : option (list byte)) (n : Z)
    : res (list byte) :=
  match src with
  | None => if n =? 0 then Ok dst else UB
  | Some c =>
      ub_unless ((0 <=? n) && (n <=? Z.of_nat (length c) + 1))
        (memcpy dst pos (take (Z.to_nat n) (c ++ [NUL])))
  end.

(** The size of the object and, as every [char*] here, its text without the
    NUL in the last byte.  A negative size is a request no heap grants. *)
Definition key_or_value_node_to_string (node : option (KeyNode + ValueNode))
    : res (Z * option (list byte)) :=
  match node with
  | None => Ok (-1, None)
  | Some n =>
      let content_size := node_size n in
      let content := node_content n in
      let content_size_buf := decimal content_size in
      let rtn_val_size := 1 + strlen content_size_buf + 2 + content_size + 3 in
      ub_unless (rtn_val_size <=? INT_MAX) (
      if rtn_val_size <? 0 then Ok (-1, None)
      else
        let buf := calloc rtn_val_size in
        let pos := 0 in
        buf ← memcpy buf pos (bs "$");
        let pos := pos + 1 in
        buf ← memcpy buf pos content_size_buf;
        let pos := pos + strlen content_size_buf in
        buf ← memcpy buf pos crlf;
        let pos := pos + 2 in
        buf ← copy_chars buf pos content content_size;
        let pos := pos + content_size in
        buf ← memcpy buf pos crlf;
        let pos := pos + 2 in
        buf ← awrite buf pos NUL;
        Ok (rtn_val_size, Some (take (Z.to_nat pos) buf)))
  end.

Arguments key_or_value_node_to_string _ : simpl never.

(** ** Expiry *)

Section expiry.
#[local] Open Scope Q_scope.

(** [t->tv_sec + t->tv_nsec/1e9], evaluated in [double], stored in a [float]. *)
Definition time_sec (t : timespec) : Q :=
  to_float (to_double (to_double (inject_Z (tv_sec t))
                       + to_double (to_double (inject_Z (tv_nsec t)) / inject_Z (10 ^ 9)))).

Definition Qgt_bool (x y : Q) : bool := negb (Qle_bool x y).

(** The test once both times are known; the comparisons convert the unsigned
    bounds to [float]. *)
Definition ttl_passed (curr_time prev_time : timespec) (ex px : Z) : bool :=
  let delta_sec := to_float (time_sec curr_time - time_sec prev_time) in
  if negb (ex =? 0)%Z then Qgt_bool delta_sec (to_float (inject_Z ex))
  else Qgt_bool (to_float (delta_sec * inject_Z 1000)) (to_float (inject_Z px)).

Definition has_key_expired (new_key prev_key : KeyNode) : res bool :=
  let ex := kn_ex prev_key in
  let px := kn_px prev_key in
  if (ex =? 0)%Z && (px =? 0)%Z then Ok false
  else
    curr_time ← deref (kn_input_time new_key);
    prev_time ← deref (kn_input_time prev_key);
    Ok (ttl_passed curr_time prev_time ex px).
End expiry.

(** ** Well-formed objects *)

(** A key whose size is the length of its content; the store identifies keys
    by content. *)
Definition kn_ok (k : KeyNode) : Prop :=
  match kn_content k with Some c => kn_size k = Z.of_nat (length c) | None => False end.
Definition kn_ident (k : KeyNode) : list byte := default [] (kn_content k).

(** A value the store holds: a string of a size a request can carry. *)
Definition vn_ok (v : ValueNode) : Prop :=
  vn_dtype v = BULK_STR /\
  match vn_content v with
  | Some c => vn_size v = Z.of_nat (length c) /\ 1 <= vn_size v <= PROTO_MAX_BULK_SIZE
  | None => False
  end.
Definition vn_text (v : ValueNode) : list byte := default [] (vn_content v).

#[export] Instance kn_ok_dec k : Decision (kn_ok k).
Proof. unfold kn_ok. destruct (kn_content k); apply _. Defined.

(** A text a request can carry as a key or a value of a command. *)
Definition text_ok (c : list byte) : Prop :=
  1 <= Z.of_nat (length c) <= PROTO_MAX_BULK_SIZE.

#[export] Instance text_ok_dec c : Decision (text_ok c).
Proof. unfold text_ok. apply _. Defined.

Definition key_of (c : list byte) (ex px : Z) (now : timespec) : KeyNode :=
  mkKeyNode (Some c) (Some now) ex px (Z.of_nat (length c)).
Definition value_of (c : list byte) : ValueNode :=
  mkValueNode (Some c) BULK_STR (Z.of_nat (length c)).

Lemma key_of_ok c ex px now : kn_ok (key_of c ex px now).
Proof. done. Qed.

Lemma value_of_ok c : text_ok c -> vn_ok (value_of c).
Proof. by split. Qed.

Lemma vn_ok_inv v : vn_ok v -> v = value_of (vn_text v) /\ text_ok (vn_text v).
Proof.
  destruct v as [[c|] t z]; intros [Ht Hc]; simpl in *; [|done].
  destruct Hc as [-> ?]. subst t. done.
Qed.

#[export] Hint Resolve key_of_ok value_of_ok : redis.

Lemma copy_text_all c :
  Z.of_nat (length c) <= PROTO_MAX_BULK_SIZE -> copy_text c (Z.of_nat (length c)) = Ok c.
Proof.
  intros H. unfold copy_text, ub_unless. unfold PROTO_MAX_BULK_SIZE, INT_MAX in *. if_true.
  by rewrite Nat2Z.id, take_app_length.
Qed.

Lemma create_key_node_text c ex px now :
  text_ok c -> create_key_node (Some c) ex px (Z.of_nat (length c)) now = Ok (Some (key_of c ex px now)).
Proof.
  intros H. unfold create_key_node. unfold text_ok in H. if_false. rewrite copy_text_all by lia. done.
Qed.

Lemma create_value_node_text c :
  text_ok c -> create_value_node (Some (NBulk (Some c) (Z.of_nat (length c)))) = Ok (Some (value_of c)).
Proof.
  intros H. unfold create_value_node, create_value_node_string. unfold text_ok in H. if_false.
  rewrite copy_text_all by lia. done.
Qed.

(** ** Comparison decides equality of contents *)

Lemma char_at_lookup c (i : nat) b : c !! i = Some b -> char_at (Some c) (Z.of_nat i) = Ok b.
Proof. intros H. apply aread_lookup. by apply lookup_app_l_Some. Qed.

Lemma compare_loop_spec ka kb l1 a b fuel :
  kn_content ka = Some (l1 ++ a) -> kn_content kb = Some (l1 ++ b) ->
  kn_size ka = Z.of_nat (length (l1 ++ a)) -> length a = length b -> length a = fuel ->
  compare_loop fuel ka kb (Z.of_nat (length l1)) = Ok (bool_decide (a = b)).
Proof.
  intros Ha Hb Hs Hlen <-. revert b l1 Ha Hb Hs Hlen.
  induction a as [|x a IH]; intros [|y b] l1 Ha Hb Hs Hlen; try done.
  - simpl. rewrite Hs, app_nil_r. by if_false.
  - cbn [length compare_loop]. rewrite Hs, length_app. cbn [length]. if_true.
    rewrite Ha, (char_at_lookup _ _ x) by (by apply list_lookup_middle). cbn [mbind res_bind].
    rewrite Hb, (char_at_lookup _ _ y) by (by apply list_lookup_middle). cbn [mbind res_bind].
    destruct (decide (x = y)) as [->|E].
    2: { rewrite decide_True by done. by rewrite bool_decide_eq_false_2 by congruence. }
    + rewrite decide_False by tauto. specialize (IH b (l1 ++ [y])).
      rewrite <- !(assoc_L (++)), !length_app in IH. cbn [length app] in IH.
      replace (Z.of_nat (length l1) + 1) with (Z.of_nat (length l1 + 1)) by lia.
      rewrite IH by (try done; rewrite ?length_app in *; simpl in *; lia).
      f_equal. apply bool_decide_ext. naive_solver.
Qed.

#[export] Instance compare_KeyCompare : KeyCompare compare kn_ok kn_ident.
Proof.
  intros a b Ha Hb. unfold kn_ok, kn_ident, compare in *.
  destruct (kn_content a) as [ca|] eqn:Ea; [|done]. destruct (kn_content b) as [cb|] eqn:Eb; [|done].
  simpl. rewrite Ha, Hb. case_if.
  - rewrite bool_decide_eq_false_2; [done|]. intros ->. lia.
  - rewrite Nat2Z.id. apply (compare_loop_spec a b []); try done. lia.
Qed.

(** A comparison never runs out of fuel. *)
Lemma compare_not_OOF a b : compare a b <> OOF.
Proof.
  unfold compare. destruct a as [ka|], b as [kb|]; try done. case_if; [done|].
  assert (forall fuel i, 0 <= i -> (Z.to_nat (kn_size ka - i) <= fuel)%nat ->
    compare_loop fuel ka kb i <> OOF) as Hl.
  { intros fuel. induction fuel as [|f IH]; intros i Hi Hf; simpl; case_if; try done; [lia|].
    assert (forall c j, char_at c j <> OOF) as Hc.
    { intros c j. unfold char_at. apply bind_not_OOF; [by destruct c|]. auto with redis. }
    apply bind_not_OOF; [done|]. intros x _. apply bind_not_OOF; [done|]. intros y _.
    case_decide; [done|]. apply IH; lia. }
  apply Hl; lia.
Qed.

(** ** Printing gives the wire form of the text *)

Lemma copy_chars_all dst pos c :
  copy_chars dst pos (Some c) (Z.of_nat (length c)) = memcpy dst pos c.
Proof.
  unfold copy_chars, ub_unless. if_true. by rewrite Nat2Z.id, take_app_length.
Qed.

Lemma node_to_string n c :
  node_content n = Some c -> node_size n = Z.of_nat (length c) -> Z.of_nat (length c) <= PROTO_MAX_BULK_SIZE ->
  key_or_value_node_to_string (Some n)
  = Ok (Z.of_nat (length (encode (NBulk (Some c) (Z.of_nat (length c))))) + 1,
        Some (encode (NBulk (Some c) (Z.of_nat (length c))))).
Proof.
  intros Hc Hs Hmax. unfold key_or_value_node_to_string. rewrite Hc, Hs.
  set (d := decimal (Z.of_nat (length c))).
  assert (strlen d = Z.of_nat (length d)) as -> by (apply strlen_nul_free, decimal_nul_free).
  assert (length d <= 10)%nat as Hd.
  { unfold d. rewrite decimal_nonneg by lia. apply dec_digits_length; [lia|].
    unfold PROTO_MAX_BULK_SIZE in Hmax. lia. }
  unfold PROTO_MAX_BULK_SIZE, INT_MAX in *. unfold ub_unless. if_true. if_false.
  set (n0 := 1 + Z.of_nat (length d) + 2 + Z.of_nat (length c) + 3).
  assert (calloc n0 = [] ++ replicate (length (bs "$") + (length d + (length crlf + (length c + (length crlf + 1))))) NUL) as ->.
  { unfold calloc, n0. cbn [app]. f_equal.
    change (length (bs "$")) with 1%nat. change (length crlf) with 2%nat. lia. }
  pose proof (memcpy_at [] (bs "$")) as Hfirst. change (Z.of_nat (length (@nil byte))) with 0 in Hfirst.
  rewrite Hfirst by lia. cbn [mbind res_bind].
  set (p1 := [] ++ bs "$"). 
  change (0 + 1) with (Z.of_nat (length p1)).
  rewrite memcpy_at by lia. cbn [mbind res_bind].
  replace (Z.of_nat (length p1) + Z.of_nat (length d)) with (Z.of_nat (length (p1 ++ d)))
    by (rewrite length_app; lia).
  rewrite memcpy_at by lia. cbn [mbind res_bind].
  replace (Z.of_nat (length (p1 ++ d)) + 2) with (Z.of_nat (length ((p1 ++ d) ++ crlf)))
    by (rewrite !length_app; simpl; lia).
  rewrite copy_chars_all, memcpy_at by lia. cbn [mbind res_bind].
  replace (Z.of_nat (length ((p1 ++ d) ++ crlf)) + Z.of_nat (length c))
    with (Z.of_nat (length (((p1 ++ d) ++ crlf) ++ c))) by (rewrite !length_app; simpl; lia).
  rewrite memcpy_at by lia. cbn [mbind res_bind].
  set (full := ((((p1 ++ d) ++ crlf) ++ c) ++ crlf)).
  replace (Z.of_nat (length (((p1 ++ d) ++ crlf) ++ c)) + 2) with (Z.of_nat (length full))
    by (unfold full; rewrite !length_app; simpl; lia).
  replace (length (bs "$") + (length d + (length crlf + (length c + (length crlf + 1)))) - length (bs "$")
    - length d - length crlf - length c - length crlf)%nat with 1%nat by lia.
  cbn [replicate]. rewrite awrite_middle. cbn [mbind res_bind].
  rewrite Nat2Z.id, take_app_length.
  assert (full = encode (NBulk (Some c) (Z.of_nat (length c)))) as <-.
  { unfold full, p1. cbn [app encode default]. fold d. by rewrite <- !(assoc_L (++)). }
  f_equal. f_equal. unfold n0, full. rewrite !length_app. simpl. lia.
Qed.

Lemma value_to_string v :
  vn_ok v -> exists n, key_or_value_node_to_string (Some (inr v))
  = Ok (n, Some (encode (NBulk (Some (vn_text v)) (Z.of_nat (length (vn_text v)))))).
Proof.
  intros Hv. apply vn_ok_inv in Hv as (E & _ & Ht). eexists.
  apply node_to_string; [by rewrite E | by rewrite E | done].
Qed.
