(* ===== verification/Expiry.v ===== *)
(** The expiry test of a key ([has_key_expired]): what the single-precision
    arithmetic of the source preserves of the exact comparison of times. *)

From Stdlib Require Import QArith Lqa.
From S2P Require Import Prelude CLib CFloat KeyVal.

#[local] Open Scope Q_scope.

(** ** Clock values *)

(** The exact time in seconds. *)
Definition exact_sec (t : timespec) : Q :=
  inject_Z (tv_sec t) + inject_Z (tv_nsec t) / inject_Z (10 ^ 9).

Definition clock_ok (t : timespec) : Prop :=
  (0 <= tv_sec t < 2 ^ 53)%Z /\ (0 <= tv_nsec t < 10 ^ 9)%Z.

#[export] Instance clock_ok_dec t : Decision (clock_ok t).
Proof. unfold clock_ok. apply _. Defined.

Lemma nsec_fraction t : clock_ok t ->
  0 <= inject_Z (tv_nsec t) / inject_Z (10 ^ 9) < 1.
Proof.
  intros [_ [H1 H2]]. rewrite Zle_Qle in H1. rewrite Zlt_Qlt in H2.
  change (inject_Z 0) with 0 in H1. split.
  - apply Qle_shift_div_l; [reflexivity|]. lra.
  - apply Qlt_shift_div_r; [reflexivity|]. lra.
Qed.

Lemma to_double_int n : (- 2 ^ 53 < n < 2 ^ 53)%Z -> to_double (inject_Z n) == inject_Z n.
Proof. intros. unfold to_double. apply round_int; lia. Qed.

Lemma to_float_int n : (- 2 ^ 24 < n < 2 ^ 24)%Z -> to_float (inject_Z n) == inject_Z n.
Proof. intros. unfold to_float. apply round_int; lia. Qed.

#[export] Instance to_double_proper : Proper (Qeq ==> Qeq) to_double.
Proof. unfold to_double. apply round_proper. lia. Qed.
#[export] Instance to_float_proper : Proper (Qeq ==> Qeq) to_float.
Proof. unfold to_float. apply round_proper. lia. Qed.

Lemma to_double_mono x y : x <= y -> to_double x <= to_double y.
Proof. unfold to_double. apply round_mono. lia. Qed.
Lemma to_float_mono x y : x <= y -> to_float x <= to_float y.
Proof. unfold to_float. apply round_mono. lia. Qed.

Lemma Qgt_bool_iff x y : Qgt_bool x y = true <-> y < x.
Proof.
  unfold Qgt_bool. rewrite negb_true_iff, <- not_true_iff_false, Qle_bool_iff. split.
  - apply Qnot_le_lt.
  - intros H1 H2. lra.
Qed.

Lemma Qgt_bool_int x y a b :
  x == inject_Z a -> y == inject_Z b -> Qgt_bool x y = (b <? a)%Z.
Proof.
  intros Hx Hy. apply eq_iff_eq_true. rewrite Qgt_bool_iff, Z.ltb_lt, Hx, Hy. now rewrite Zlt_Qlt.
Qed.

Lemma to_double_between a b x :
  (- 2 ^ 53 < a < 2 ^ 53)%Z -> (- 2 ^ 53 < b < 2 ^ 53)%Z ->
  inject_Z a <= x -> x <= inject_Z b -> inject_Z a <= to_double x <= inject_Z b.
Proof.
  intros Ha Hb H1 H2. pose proof (to_double_int a Ha). pose proof (to_double_int b Hb).
  apply to_double_mono in H1, H2. split; lra.
Qed.

(** The [nsec] term, converted. *)
Definition frac_double (t : timespec) : Q :=
  to_double (to_double (inject_Z (tv_nsec t)) / inject_Z (10 ^ 9)).

Lemma frac_double_range t : clock_ok t -> 0 <= frac_double t <= 1.
Proof.
  intros Ht. pose proof (nsec_fraction t Ht) as [H1 H2]. unfold frac_double.
  destruct Ht as [_ Hn].
  rewrite to_double_int by lia. apply (to_double_between 0 1); [lia|lia|exact H1|].
  change (inject_Z 1) with 1. lra.
Qed.

Lemma time_sec_eq t : clock_ok t ->
  time_sec t == to_float (to_double (inject_Z (tv_sec t) + frac_double t)).
Proof.
  intros [Hs Hn]. unfold time_sec. fold (frac_double t). now rewrite to_double_int by lia.
Qed.

(** ** The computed time is monotone *)

Definition clock_le (t t' : timespec) : Prop :=
  (tv_sec t < tv_sec t')%Z \/ (tv_sec t = tv_sec t' /\ (tv_nsec t <= tv_nsec t')%Z).

Lemma time_sec_mono t t' :
  clock_ok t -> clock_ok t' -> clock_le t t' -> time_sec t <= time_sec t'.
Proof.
  intros Ht Ht' Hle. rewrite !time_sec_eq by done.
  apply to_float_mono, to_double_mono.
  destruct Hle as [Hlt|[-> Hn]].
  - pose proof (frac_double_range t Ht). pose proof (frac_double_range t' Ht').
    assert (tv_sec t + 1 <= tv_sec t')%Z as Hz by lia.
    rewrite Zle_Qle, inject_Z_plus in Hz. change (inject_Z 1) with 1 in Hz. lra.
  - assert (frac_double t <= frac_double t'); [|lra].
    unfold frac_double. apply to_double_mono.
    assert (to_double (inject_Z (tv_nsec t)) <= to_double (inject_Z (tv_nsec t'))) as H.
    { apply to_double_mono. now rewrite <- Zle_Qle. }
    unfold Qdiv. apply Qmult_le_compat_r; [exact H | discriminate].
Qed.

Lemma ttl_passed_mono t t' t0 ex px :
  clock_ok t -> clock_ok t' -> clock_le t t' ->
  ttl_passed t t0 ex px = true -> ttl_passed t' t0 ex px = true.
Proof.
  intros Ht Ht' Hle. pose proof (time_sec_mono t t' Ht Ht' Hle) as Hm. unfold ttl_passed.
  assert (to_float (time_sec t - time_sec t0) <= to_float (time_sec t' - time_sec t0)) as H
    by (apply to_float_mono; lra).
  destruct (negb (ex =? 0)%Z); rewrite !Qgt_bool_iff; intros Hexp; [lra|].
  assert (to_float (to_float (time_sec t - time_sec t0) * inject_Z 1000)
    <= to_float (to_float (time_sec t' - time_sec t0) * inject_Z 1000)); [|lra].
  apply to_float_mono. apply Qmult_le_compat_r; [done | discriminate].
Qed.

(** ** The error of the computed time *)

Lemma frac_double_error t : clock_ok t ->
  let f := inject_Z (tv_nsec t) / inject_Z (10 ^ 9) in
  f - pow2 (-54) <= frac_double t <= f + pow2 (-54).
Proof.
  intros Ht f. pose proof (nsec_fraction t Ht) as Hf. destruct Ht as [_ Hn].
  unfold frac_double. rewrite to_double_int by lia. fold f. fold f in Hf.
  unfold to_double. pose proof (round_error 53 0 f) as H.
  change (pow2 0) with 1 in H. change (0 - 53 - 1)%Z with (-54)%Z in H. apply H; lra.
Qed.

(** Below [2 ^ k] seconds the computed time is off by at most [2 ^ (k - 24)]. *)
Lemma time_sec_error k t :
  (1 <= k <= 23)%Z -> clock_ok t -> exact_sec t < pow2 k ->
  exact_sec t - pow2 (k - 24) <= time_sec t <= exact_sec t + pow2 (k - 24).
Proof.
  intros Hk Ht Hlt. pose proof (frac_double_error t Ht) as Hf. cbn zeta in Hf.
  pose proof (nsec_fraction t Ht) as Hfr. pose proof (frac_double_range t Ht) as Hfd.
  rewrite time_sec_eq by done. unfold exact_sec in *.
  set (f := inject_Z (tv_nsec t) / inject_Z (10 ^ 9)) in *.
  assert (0 <= inject_Z (tv_sec t)) as Hs by (destruct Ht; rewrite <- (Zle_Qle 0); lia).
  assert (inject_Z (tv_sec t) + 1 <= pow2 k) as Hsk.
  { rewrite pow2_int in * by lia. change 1 with (inject_Z 1). rewrite <- inject_Z_plus, <- Zle_Qle.
    assert (inject_Z (tv_sec t) < inject_Z (2 ^ k)) as Hz by lra. rewrite <- Zlt_Qlt in Hz. lia. }
  pose proof (pow2_mono (-54) (k - 27) ltac:(lia)) as P0.
  pose proof (pow2_mono (k + 1 - 53 - 1) (k - 27) ltac:(lia)) as P1.
  pose proof (pow2_succ (k - 27)) as P2. pose proof (pow2_succ (k - 26)) as P3.
  pose proof (pow2_succ (k - 25)) as P4.
  replace (k - 27 + 1)%Z with (k - 26)%Z in P2 by lia.
  replace (k - 26 + 1)%Z with (k - 25)%Z in P3 by lia.
  replace (k - 25 + 1)%Z with (k - 24)%Z in P4 by lia.
  pose proof (pow2_pos (k - 27)) as Hp. pose proof (pow2_pos k) as Hpk.
  pose proof (pow2_succ k) as Pk.
  pose proof (round_error 53 (k + 1) (inject_Z (tv_sec t) + frac_double t)
    ltac:(lra) ltac:(lra)) as Hd.
  fold (to_double (inject_Z (tv_sec t) + frac_double t)) in Hd.
  set (d := to_double (inject_Z (tv_sec t) + frac_double t)) in *.
  destruct (to_double_between 0 (2 ^ k) (inject_Z (tv_sec t) + frac_double t)) as [Hd0 Hdk].
  { lia. } { split; [lia|]. apply Z.pow_lt_mono_r; lia. } { change (inject_Z 0) with 0. lra. }
  { rewrite <- pow2_int by lia. lra. }
  fold d in Hd0, Hdk. change (inject_Z 0) with 0 in Hd0. rewrite <- pow2_int in Hdk by lia.
  destruct (Qlt_le_dec d (pow2 k)) as [Hdlt|Hdge].
  - pose proof (round_error 24 k d ltac:(lra) Hdlt) as Hfl.
    fold (to_float d) in Hfl. replace (k - 24 - 1)%Z with (k - 25)%Z in Hfl by lia. lra.
  - assert (d == inject_Z (2 ^ k)) as Ed by (rewrite <- pow2_int by lia; lra).
    assert (to_float d == d) as ->; [|lra].
    rewrite Ed. apply to_float_int. split; [lia|]. apply Z.pow_lt_mono_r; lia.
Qed.

(** ** The accuracy of the test *)

Section accuracy.
Context (k : Z) (Hk : (1 <= k <= 23)%Z).
Context (curr prev : timespec) (Hcurr : clock_ok curr) (Hprev : clock_ok prev).
Context (Hle : exact_sec prev <= exact_sec curr) (Hlt : exact_sec curr < pow2 k).

Definition elapsed : Q := exact_sec curr - exact_sec prev.

Definition delta_sec : Q := to_float (time_sec curr - time_sec prev).

Lemma exact_sec_nonneg t : clock_ok t -> 0 <= exact_sec t.
Proof.
  intros Ht. pose proof (nsec_fraction t Ht). unfold exact_sec.
  assert (0 <= inject_Z (tv_sec t)) by (destruct Ht; rewrite <- (Zle_Qle 0); lia). lra.
Qed.

(** [u] is the unit in which the errors are counted. *)
#[local] Abbreviation u := (pow2 (k - 24)).

Lemma unit_small : u * 8 <= pow2 k /\ 0 < u.
Proof.
  split; [|apply pow2_pos]. change 8 with (pow2 3). rewrite <- pow2_plus. apply pow2_mono. lia.
Qed.

Lemma difference_error : elapsed - 2 * u <= time_sec curr - time_sec prev <= elapsed + 2 * u.
Proof.
  pose proof (time_sec_error k curr Hk Hcurr Hlt). unfold elapsed.
  pose proof (time_sec_error k prev Hk Hprev ltac:(lra)). lra.
Qed.

Lemma delta_error : elapsed - 3 * u <= delta_sec <= elapsed + 3 * u.
Proof.
  pose proof difference_error as Hd. pose proof unit_small as [Hu1 Hu2].
  pose proof (exact_sec_nonneg prev Hprev) as H0.
  pose proof (round_error 24 (k + 1) (time_sec curr - time_sec prev)) as Hr.
  fold (to_float (time_sec curr - time_sec prev)) in Hr. fold delta_sec in Hr.
  replace (k + 1 - 24 - 1)%Z with (k - 24)%Z in Hr by lia.
  pose proof (pow2_succ k). unfold elapsed in *. lra.
Qed.

Lemma ex_not_early ex :
  to_float (inject_Z ex) < delta_sec -> inject_Z ex < elapsed + 2 * u.
Proof.
  intros H. apply round_lt_inv in H; [|lia]. pose proof difference_error. lra.
Qed.

Lemma ex_not_late ex :
  (0 <= ex)%Z -> inject_Z ex + 8 * u < elapsed -> to_float (inject_Z ex) < delta_sec.
Proof.
  intros Hex H. pose proof delta_error as Hd. pose proof unit_small as [Hu1 Hu2].
  pose proof (exact_sec_nonneg prev Hprev) as H0.
  rewrite Zle_Qle in Hex. change (inject_Z 0) with 0 in Hex.
  pose proof (round_error 24 (k + 1) (inject_Z ex)) as Hr. fold (to_float (inject_Z ex)) in Hr.
  replace (k + 1 - 24 - 1)%Z with (k - 24)%Z in Hr by lia.
  pose proof (pow2_succ k). unfold elapsed in *. lra.
Qed.

Lemma px_not_early px :
  to_float (inject_Z px) < to_float (delta_sec * inject_Z 1000) ->
  inject_Z px < (elapsed + 3 * u) * 1000.
Proof.
  intros H. apply round_lt_inv in H; [|lia]. pose proof delta_error.
  change (inject_Z 1000) with 1000 in H. lra.
Qed.

Lemma px_not_late px :
  (0 <= px)%Z -> inject_Z px + 8 * u * 1000 < elapsed * 1000 ->
  to_float (inject_Z px) < to_float (delta_sec * inject_Z 1000).
Proof.
  intros Hpx H. pose proof delta_error as Hd. pose proof unit_small as [Hu1 Hu2].
  pose proof (exact_sec_nonneg prev Hprev) as H0.
  rewrite Zle_Qle in Hpx. change (inject_Z 0) with 0 in Hpx.
  pose proof (round_error 24 (k + 11) (inject_Z px)) as Hr. fold (to_float (inject_Z px)) in Hr.
  pose proof (round_error 24 (k + 11) (delta_sec * inject_Z 1000)) as Hr'.
  fold (to_float (delta_sec * inject_Z 1000)) in Hr'. change (inject_Z 1000) with 1000 in *.
  assert (pow2 (k + 11 - 24 - 1) == 1024 * u) as E.
  { change 1024 with (pow2 10). rewrite <- pow2_plus. f_equiv. lia. }
  assert (pow2 (k + 11) == 2048 * pow2 k) as E'.
  { change 2048 with (pow2 11). rewrite <- pow2_plus. f_equiv. lia. }
  rewrite E, E' in *. unfold elapsed in *. lra.
Qed.
End accuracy.

(** ** Properties of [has_key_expired] *)

(** The lifetime of a key in seconds: [EX] seconds, or [PX] milliseconds. *)
Definition lifetime (key : KeyNode) : Q :=
  if (kn_ex key =? 0)%Z then inject_Z (kn_px key) / inject_Z 1000 else inject_Z (kn_ex key).

Definition has_lifetime (key : KeyNode) : Prop := (0 < kn_ex key)%Z \/ (kn_ex key = 0 /\ 0 < kn_px key)%Z.

Lemma has_lifetime_test new_key key t t0 :
  has_lifetime key -> kn_input_time new_key = Some t -> kn_input_time key = Some t0 ->
  has_key_expired new_key key = Ok (ttl_passed t t0 (kn_ex key) (kn_px key)).
Proof.
  intros Hl E0 E. unfold has_key_expired. rewrite E0, E.
  destruct Hl; [|]; if_false; done.
Qed.

Lemma no_lifetime_test new_key key :
  kn_ex key = 0%Z -> kn_px key = 0%Z -> has_key_expired new_key key = Ok false.
Proof. intros E1 E2. unfold has_key_expired. by rewrite E1, E2. Qed.

(** C24. Expiry is monotone in time: once a request has found a key expired, a
    request that arrives later finds it expired too, rounding errors included. *)
Theorem expiry_monotone new_key new_key' key t t' :
  kn_input_time new_key = Some t -> kn_input_time new_key' = Some t' ->
  clock_ok t -> clock_ok t' -> clock_le t t' ->
  has_key_expired new_key key = Ok true -> has_key_expired new_key' key = Ok true.
Proof.
  intros Et Et' Ht Ht' Hle. unfold has_key_expired. rewrite Et, Et'.
  case_if; [done|]. destruct (kn_input_time key) as [t0|]; [|done]. simpl.
  intros [= H]. f_equal. exact (ttl_passed_mono t t' t0 _ _ Ht Ht' Hle H).
Qed.

(** C23. The single-precision test is accurate: on a machine up for less than
    [2 ^ k] seconds, [k <= 23], a key is never found expired more than
    [2 ^ (k - 21)] seconds before its lifetime has passed, and always found
    expired that long after it. *)
Theorem expiry_accuracy k new_key key t t0 :
  (1 <= k <= 23)%Z -> kn_input_time new_key = Some t -> kn_input_time key = Some t0 ->
  clock_ok t -> clock_ok t0 -> exact_sec t0 <= exact_sec t -> exact_sec t < pow2 k ->
  has_lifetime key ->
  exists b, has_key_expired new_key key = Ok b /\
    (b = true -> lifetime key < exact_sec t - exact_sec t0 + pow2 (k - 21)) /\
    (lifetime key + pow2 (k - 21) < exact_sec t - exact_sec t0 -> b = true).
Proof.
  intros Hk Et Et0 Ht Ht0 Hle Hlt Hl. exists (ttl_passed t t0 (kn_ex key) (kn_px key)).
  split; [by apply has_lifetime_test|].
  assert (pow2 (k - 21) == 8 * pow2 (k - 24)) as ->.
  { change 8 with (pow2 3). rewrite <- pow2_plus. f_equiv. lia. }
  pose proof (pow2_pos (k - 24)) as Hu.
  unfold ttl_passed, lifetime. fold (delta_sec t t0).
  destruct (Z.eqb_spec (kn_ex key) 0) as [E|E]; cbn [negb]; rewrite Qgt_bool_iff.
  - assert (0 <= kn_px key)%Z by (destruct Hl; lia).
    assert (inject_Z (kn_px key) == inject_Z (kn_px key) / inject_Z 1000 * 1000) as Ep.
    { change (inject_Z 1000) with 1000. field. }
    split; intros Hx.
    + apply (px_not_early k) in Hx; try done. unfold elapsed in Hx. lra.
    + apply (px_not_late k); try done. unfold elapsed. lra.
  - assert (0 <= kn_ex key)%Z by (destruct Hl; lia). split; intros Hx.
    + apply (ex_not_early k) in Hx; try done. unfold elapsed in Hx. lra.
    + by apply (ex_not_late k).
Qed.

(** A clock on a whole second. *)
Definition whole (n : Z) : timespec := mkTimespec n 0.

Lemma time_sec_whole n : (0 <= n < 2 ^ 24)%Z -> time_sec (whole n) == inject_Z n.
Proof.
  intros H. rewrite time_sec_eq by (unfold clock_ok; simpl; lia). simpl tv_sec.
  assert (inject_Z n + frac_double (whole n) == inject_Z n) as ->.
  { assert (frac_double (whole n) == 0) as ->; [reflexivity|]. lra. }
  rewrite to_double_int, to_float_int by lia. reflexivity.
Qed.

(** Between whole seconds, in the first [2 ^ 24] seconds of the machine,
    the test is exact: a key with [EX] has expired when strictly more than that
    many seconds have passed. *)
Lemma expiry_exact new_key key n n0 :
  (0 <= n0 <= n)%Z -> (n < 2 ^ 24)%Z -> (0 < kn_ex key < 2 ^ 32)%Z ->
  kn_input_time new_key = Some (whole n) -> kn_input_time key = Some (whole n0) ->
  has_key_expired new_key key = Ok (kn_ex key <? n - n0)%Z.
Proof.
  intros Hn Hmax Hex Et Et0. rewrite (has_lifetime_test _ _ _ _ (or_introl (proj1 Hex)) Et Et0).
  f_equal. unfold ttl_passed. replace (kn_ex key =? 0)%Z with false by (symmetry; apply Z.eqb_neq; lia).
  cbn [negb]. apply eq_iff_eq_true. rewrite Qgt_bool_iff, Z.ltb_lt.
  assert (to_float (time_sec (whole n) - time_sec (whole n0)) == inject_Z (n - n0)) as ->.
  { rewrite !time_sec_whole, <- (to_float_int (n - n0)) by lia. f_equiv.
    unfold Z.sub. rewrite inject_Z_plus, inject_Z_opp. reflexivity. }
  destruct (Z.lt_ge_cases (kn_ex key) (2 ^ 24)) as [Hs|Hb].
  - rewrite to_float_int by lia. now rewrite <- Zlt_Qlt.
  - split; [|lia]. intros H. exfalso.
    assert (inject_Z (2 ^ 24 - 1) <= to_float (inject_Z (kn_ex key))) as Hm.
    { rewrite <- (to_float_int (2 ^ 24 - 1)) by lia. apply to_float_mono. rewrite <- Zle_Qle. lia. }
    assert (inject_Z (2 ^ 24 - 1) < inject_Z (n - n0)) as Hz by lra.
    rewrite <- Zlt_Qlt in Hz. lia.
Qed.

(** ** Witnesses *)

Definition probe (t : timespec) : KeyNode := key_of (bs "k") 0 0 t.

Lemma expiry_monotone_witness :
  has_key_expired (probe (mkTimespec 20 5)) (key_of (bs "k") 7 0 (whole 10)) = Ok true.
Proof.
  apply (expiry_monotone (probe (whole 18)) (probe (mkTimespec 20 5)) (key_of (bs "k") 7 0 (whole 10))
           (whole 18) (mkTimespec 20 5)).
  - reflexivity.
  - reflexivity.
  - unfold clock_ok. simpl. lia.
  - unfold clock_ok. simpl. lia.
  - left. simpl. lia.
  - vm_compute. reflexivity.
Defined.

Lemma expiry_accuracy_witness :
  exists b, has_key_expired (probe (mkTimespec 20 5)) (key_of (bs "k") 0 1500 (whole 10)) = Ok b /\
    (b = true -> lifetime (key_of (bs "k") 0 1500 (whole 10))
       < exact_sec (mkTimespec 20 5) - exact_sec (whole 10) + pow2 (17 - 21)) /\
    (lifetime (key_of (bs "k") 0 1500 (whole 10)) + pow2 (17 - 21)
       < exact_sec (mkTimespec 20 5) - exact_sec (whole 10) -> b = true).
Proof.
  apply (expiry_accuracy 17 (probe (mkTimespec 20 5)) (key_of (bs "k") 0 1500 (whole 10))
           (mkTimespec 20 5) (whole 10)).
  - lia.
  - reflexivity.
  - reflexivity.
  - unfold clock_ok. simpl. lia.
  - unfold clock_ok. simpl. lia.
  - vm_compute. discriminate.
  - vm_compute. reflexivity.
  - right. simpl. lia.
Defined.

Example expiry_exact_seconds :
  has_key_expired (probe (whole 17)) (key_of (bs "k") 7 0 (whole 10)) = Ok false.
Proof.
  apply (expiry_exact (probe (whole 17)) (key_of (bs "k") 7 0 (whole 10)) 17 10).
  - lia.
  - lia.
  - simpl. lia.
  - reflexivity.
  - reflexivity.
Defined.
