(* ===== verification/SetParser.v ===== *)
(** The parser of the [SET] command ([validate_set_cmd] and its helpers): the
    bitmap automaton of the source, a grammar it is meant to recognise, and
    the proof that it recognises exactly that grammar. *)

From S2P Require Import Prelude CLib Protocol KeyVal.

(** ** Operations *)

Inductive OptionType :=
  | OPTION_NX | OPTION_XX | OPTION_GET | OPTION_EX | OPTION_PX | OPTION_EXAT | OPTION_PXAT
  | OPTION_INVALID.

#[export] Instance OptionType_eq_dec : EqDecision OptionType.
Proof. solve_decision. Defined.

Definition get_option_type (opt : option (list byte)) : res OptionType :=
  o ← deref opt;
  Ok (if strcmp_eq o (bs "NX") then OPTION_NX
      else if strcmp_eq o (bs "XX") then OPTION_XX
      else if strcmp_eq o (bs "GET") then OPTION_GET
      else if strcmp_eq o (bs "EX") then OPTION_EX
      else if strcmp_eq o (bs "PX") then OPTION_PX
      else if strcmp_eq o (bs "EXAT") then OPTION_EXAT
      else if strcmp_eq o (bs "PXAT") then OPTION_PXAT
      else OPTION_INVALID).

(** The walk down from [bit_pos]; the test is kept in an [unsigned char]. *)
Fixpoint valid_loop (fuel : nat) (state bit_pos : Z) : res bool :=
  if -1 <? bit_pos then
    match fuel with
    | O => OOF
    | S fuel =>
        let is_not_zero := uint8 (Z.land state (Z.shiftl 1 bit_pos)) in
        if negb (is_not_zero =? 0) then Ok false else valid_loop fuel state (bit_pos - 1)
    end
  else Ok true.

Definition is_set_option_valid (state bit_pos : Z) : res bool :=
  if (bit_pos <? -1) || (8 <? bit_pos) then Ok false
  else valid_loop (Z.to_nat (bit_pos + 1)) state bit_pos.

(** The parsed command is an array of six node pointers; [gnode] is the
    argument being processed, followed by the later ones. *)
Definition handle_set_options (state : Z) (parsed_cmd : list (option node)) (gnode : list node)
    (bit_pos : Z) : res (Z * list (option node) * list node) :=
  match gnode with
  | [] => Ok (-1, parsed_cmd, gnode)
  | g :: next =>
      valid ← is_set_option_valid state bit_pos;
      if negb valid then Ok (-1, parsed_cmd, gnode)
      else
        parsed_cmd ← awrite parsed_cmd bit_pos (Some g);
        Ok (int8 (Z.lor state (Z.shiftl 1 bit_pos)), parsed_cmd, next)
  end.

Fixpoint digits_loop (fuel : nat) (content : option (list byte)) (size i : Z) : res bool :=
  if i <? size then
    match fuel with
    | O => OOF
    | S fuel =>
        c ← char_at content i;
        if (char_val c <? 48) || (57 <? char_val c) then Ok false
        else digits_loop fuel content size (i + 1)
    end
  else Ok true.

(** The new state: -1 unless the content is a non-empty string of digits. *)
Definition __validate_px_ex_content (content : option (list byte)) (node_size state : Z) : res Z :=
  if state <? 0 then Ok state
  else
    let size := size_t node_size in
    if is_null content || (size <? 1) then Ok (-1)
    else
      ok ← digits_loop (Z.to_nat size) content size 0;
      Ok (if (ok : bool) then state else -1).

Fixpoint stage_a_loop (fuel : nat) (temp_gnode : list node) (state : Z)
    (parsed_cmd : list (option node)) : res (list node * Z * list (option node)) :=
  match fuel with
  | O => OOF
  | S fuel =>
      let again '(temp_gnode, state, parsed_cmd) :=
        if (0 <? state) && (state <? 112) then stage_a_loop fuel temp_gnode state parsed_cmd
        else Ok (temp_gnode, state, parsed_cmd) in
      if state =? 64 then
        match temp_gnode with
        | (NBulk _ _ as k) :: ((_ :: _) as next) =>
            parsed_cmd ← awrite parsed_cmd 5 (Some k);
            again (next, int8 (Z.lor state (Z.shiftl 1 5)), parsed_cmd)
        | [] => UB
        | _ => Ok ([], -1, parsed_cmd)
        end
      else if state =? 96 then
        match temp_gnode with
        | (NBulk _ _ as v) :: next =>
            parsed_cmd ← awrite parsed_cmd 4 (Some v);
            again (next, int8 (Z.lor state (Z.shiftl 1 4)), parsed_cmd)
        | [] => UB
        | _ => Ok ([], -1, parsed_cmd)
        end
      else again (temp_gnode, state, parsed_cmd)
  end.

(** The node after the value (or [NULL]), the state and the parsed command. *)
Definition set_cmd_stage_a (gnode : list node) (parsed_cmd : list (option node))
    : res (list node * Z * list (option node)) :=
  match gnode with
  | [] => Ok ([], -1, parsed_cmd)
  | _ => stage_a_loop 3 gnode 64 parsed_cmd
  end.

(** The [while] loop of [validate_set_cmd]; [None] is its [NULL]. *)
Fixpoint options_loop (fuel : nat) (state : Z) (parsed_cmd : list (option node)) (next : list node)
    : res (option (Z * list (option node))) :=
  let finish := Ok (if state <? 0 then None else Some (state, parsed_cmd)) in
  match next with
  | [] => finish
  | g :: _ =>
      if negb (0 <? state) then finish
      else
        match fuel with
        | O => OOF
        | S fuel =>
            match g with
            | NBulk content _ =>
                type ← get_option_type content;
                match type with
                | OPTION_NX | OPTION_XX =>
                    '(state, parsed_cmd, next) ← handle_set_options state parsed_cmd next 3;
                    options_loop fuel state parsed_cmd next
                | OPTION_GET =>
                    '(state, parsed_cmd, next) ← handle_set_options state parsed_cmd next 2;
                    options_loop fuel state parsed_cmd next
                | OPTION_EX | OPTION_EXAT | OPTION_PX | OPTION_PXAT =>
                    '(state, parsed_cmd, next) ← handle_set_options state parsed_cmd next 1;
                    match next with
                    | [NBulk content size] =>
                        '(state, parsed_cmd, next) ← handle_set_options state parsed_cmd next 0;
                        state ← __validate_px_ex_content content size state;
                        options_loop fuel state parsed_cmd next
                    | _ => Ok None
                    end
                | OPTION_INVALID => Ok None
                end
            | _ => Ok None
            end
        end
  end.

(** The final state and the parsed command, or [NULL]. *)
Definition validate_set_cmd (node : list node) : res (option (Z * list (option Protocol.node))) :=
  match node with
  | [] => Ok None
  | _ =>
      '(next, state, parsed_cmd) ← set_cmd_stage_a node (replicate 6 None);
      options_loop (S (length node)) state parsed_cmd next
  end.

(** ** The grammar

    [SET key value [NX|XX] [GET] [EX|PX|EXAT|PXAT number]] *)

Record set_request := mkSetRequest {
  sr_key : node;
  sr_value : node;
  sr_cond : option node;
  sr_get : option node;
  sr_expiry : option (node * node)
}.

(** An argument whose text is one of the words. *)
Definition is_word (words : list (list byte)) (n : node) : bool :=
  match n with
  | NBulk (Some c) _ => existsb (strcmp_eq c) words
  | _ => false
  end.

Definition optional (words : list (list byte)) (l : list node) : option node * list node :=
  match l with
  | n :: l' => if is_word words n then (Some n, l') else (None, l)
  | [] => (None, [])
  end.

Definition is_number (n : node) : bool :=
  match n with
  | NBulk (Some c) _ => negb (bool_decide (c = [])) && forallb is_digit c
  | _ => false
  end.

Definition is_bulk (n : node) : bool :=
  match n with NBulk _ _ => true | _ => false end.

Definition parse_set (l : list node) : option set_request :=
  match l with
  | k :: v :: opts =>
      if is_bulk k && is_bulk v then
        let '(cond, opts) := optional [bs "NX"; bs "XX"] opts in
        let '(get, opts) := optional [bs "GET"] opts in
        match opts with
        | [] => Some (mkSetRequest k v cond get None)
        | [o; n] =>
            if is_word [bs "EX"; bs "PX"; bs "EXAT"; bs "PXAT"] o && is_number n
            then Some (mkSetRequest k v cond get (Some (o, n))) else None
        | _ => None
        end
      else None
  | _ => None
  end.

(** How the source represents a request: the array and the state bitmap. *)
Definition sr_array (r : set_request) : list (option node) :=
  [snd <$> sr_expiry r; fst <$> sr_expiry r; sr_get r; sr_cond r;
   Some (sr_value r); Some (sr_key r)].

Definition sr_state (r : set_request) : Z :=
  112 + (match sr_cond r with Some _ => 8 | None => 0 end)
      + (match sr_get r with Some _ => 4 | None => 0 end)
      + (match sr_expiry r with Some _ => 3 | None => 0 end).

(** What [lexer] delivers: a bulk string has a content of its size. *)
Definition arg_ok (n : node) : Prop :=
  match n with
  | NBulk (Some c) z => z = Z.of_nat (length c) /\ z <= PROTO_MAX_BULK_SIZE
  | NBulk None _ => False
  | _ => True
  end.

#[export] Instance arg_ok_dec n : Decision (arg_ok n).
Proof. unfold arg_ok. destruct n as [[c|] z|l z|t z]; apply _. Defined.

(** ** Classification of an option word *)

(** The bit an option is recorded at. *)
Definition bit_of (t : OptionType) : option Z :=
  match t with
  | OPTION_NX | OPTION_XX => Some 3
  | OPTION_GET => Some 2
  | OPTION_EX | OPTION_PX | OPTION_EXAT | OPTION_PXAT => Some 1
  | OPTION_INVALID => None
  end.

Lemma strcmp_eq_literal c w : c_str w = w -> strcmp_eq c w = bool_decide (c_str c = w).
Proof. intros E. unfold strcmp_eq. by rewrite E. Qed.

Lemma option_class c z :
  exists t, get_option_type (Some c) = Ok t /\
    is_word [bs "NX"; bs "XX"] (NBulk (Some c) z) = bool_decide (bit_of t = Some 3) /\
    is_word [bs "GET"] (NBulk (Some c) z) = bool_decide (bit_of t = Some 2) /\
    is_word [bs "EX"; bs "PX"; bs "EXAT"; bs "PXAT"] (NBulk (Some c) z)
    = bool_decide (bit_of t = Some 1).
Proof.
  unfold get_option_type, is_word, existsb. cbn [mbind res_bind deref].
  rewrite !strcmp_eq_literal by done. eexists. split; [done|].
  generalize (c_str c). intros s.
  repeat match goal with
  | |- context [bool_decide (s = ?w)] => destruct (decide (s = w)) as [->|]; [done|];
      rewrite (bool_decide_eq_false_2 (s = w)) by done
  end. done.
Qed.

(** ** The automaton recognises the grammar *)

Lemma digits_loop_spec c1 c2 :
  digits_loop (length c2) (Some (c1 ++ c2)) (Z.of_nat (length (c1 ++ c2))) (Z.of_nat (length c1))
  = Ok (forallb is_digit c2).
Proof.
  revert c1. induction c2 as [|b c2 IH]; intros c1.
  - simpl. rewrite app_nil_r. by if_false.
  - cbn [length digits_loop forallb]. rewrite length_app. cbn [length]. if_true.
    rewrite (char_at_lookup _ _ b) by (by apply list_lookup_middle). cbn [mbind res_bind].
    assert ((char_val b <? 48) || (57 <? char_val b) = negb (is_digit b)) as ->.
    { apply eq_iff_eq_true. unfold is_digit.
      rewrite negb_true_iff, orb_true_iff, andb_false_iff, !Z.ltb_lt, !Z.ltb_ge. lia. }
    destruct (is_digit b); [|done]. cbn [negb andb].
    specialize (IH (c1 ++ [b])). rewrite <- !(assoc_L (++)), !length_app in IH. cbn [length app] in IH.
    replace (Z.of_nat (length c1) + 1) with (Z.of_nat (length c1 + 1)) by lia. exact IH.
Qed.

Lemma validate_content_spec c z state :
  arg_ok (NBulk (Some c) z) -> 0 < state ->
  __validate_px_ex_content (Some c) z state
  = Ok (if is_number (NBulk (Some c) z) then state else -1).
Proof.
  intros [-> Hmax] Hst. unfold __validate_px_ex_content. if_false.
  unfold PROTO_MAX_BULK_SIZE in Hmax. unfold size_t. rewrite Z.mod_small by lia.
  destruct c as [|b c]; [done|]. unfold is_null, is_number. rewrite bool_decide_eq_false_2 by done.
  cbn [orb negb andb].
  assert ((Z.of_nat (length (b :: c)) <? 1) = false) as -> by (apply Z.ltb_ge; simpl; lia).
  rewrite Nat2Z.id. change 0 with (Z.of_nat (length (@nil byte))).
  change (b :: c) with ([] ++ (b :: c)) at 2 3. rewrite digits_loop_spec.
  cbn [mbind res_bind]. done.
Qed.

(** The end of the grammar: an expiry option with its number, or nothing. *)
Definition parse_expiry (l : list node) : option (option (node * node)) :=
  match l with
  | [] => Some None
  | [o; n] =>
      if is_word [bs "EX"; bs "PX"; bs "EXAT"; bs "PXAT"] o && is_number n
      then Some (Some (o, n)) else None
  | _ => None
  end.

Lemma is_word_bulk ws n : is_bulk n = false -> is_word ws n = false.
Proof. by destruct n. Qed.

Section automaton.
Context (k v : node).

Definition array_of (cond get : option node) (e : option (node * node)) : list (option node) :=
  [snd <$> e; fst <$> e; get; cond; Some v; Some k].

Definition expiry_state (st : Z) (e : option (node * node)) : Z :=
  st + match e with Some _ => 3 | None => 0 end.

(** A state with nothing recorded below its option bits. *)
Definition before_expiry (st : Z) : Prop := st = 112 \/ st = 116 \/ st = 120 \/ st = 124.

Lemma loop_stops fuel pc l : options_loop fuel (-1) pc l = Ok None.
Proof. by destruct fuel, l. Qed.

Lemma loop_done fuel st pc : 0 < st -> options_loop fuel st pc [] = Ok (Some (st, pc)).
Proof. intros. destruct fuel; simpl; by if_false. Qed.

(** A step on an option word. *)
Lemma loop_option fuel st pc c z l t :
  0 < st -> get_option_type (Some c) = Ok t ->
  options_loop (S fuel) st pc (NBulk (Some c) z :: l)
  = match bit_of t with
    | Some b =>
        '(st, pc, next) ← handle_set_options st pc (NBulk (Some c) z :: l) b;
        if b =? 1 then
          match next with
          | [NBulk content size] =>
              '(st, pc, next) ← handle_set_options st pc next 0;
              st ← __validate_px_ex_content content size st;
              options_loop fuel st pc next
          | _ => Ok None
          end
        else options_loop fuel st pc next
    | None => Ok None
    end.
Proof.
  intros Hst Ht. cbn [options_loop]. rewrite (proj2 (Z.ltb_lt 0 st) Hst). cbn [negb]. rewrite Ht. cbn [mbind res_bind].
  destruct t; reflexivity.
Qed.

Lemma loop_not_bulk fuel st pc n l :
  0 < st -> is_bulk n = false -> options_loop (S fuel) st pc (n :: l) = Ok None.
Proof. intros Hst Hn. cbn [options_loop]. rewrite (proj2 (Z.ltb_lt 0 st) Hst). by destruct n. Qed.

(** The expiry option is accepted from any state without one. *)
Lemma loop_expiry_word fuel st cond get c z l t :
  before_expiry st -> get_option_type (Some c) = Ok t -> bit_of t = Some 1 ->
  Forall arg_ok l ->
  options_loop (S fuel) st (array_of cond get None) (NBulk (Some c) z :: l)
  = Ok (match l with
        | [n] => if is_number n then Some (st + 3, array_of cond get (Some (NBulk (Some c) z, n))) else None
        | _ => None
        end).
Proof.
  intros Hst Ht Hb Hl. rewrite (loop_option _ _ _ _ _ _ t), Hb by (done || unfold before_expiry in *; lia).
  assert (handle_set_options st (array_of cond get None) (NBulk (Some c) z :: l) 1
    = Ok (st + 2, [None; Some (NBulk (Some c) z); get; cond; Some v; Some k], l)) as ->.
  { by destruct Hst as [-> | [-> | [-> | ->]]]. }
  cbn [mbind res_bind]. change (1 =? 1) with true. cbv iota.
  destruct l as [|[[c'|] z'|l' z'|t' z'] [|n' l]]; try done.
  { apply Forall_cons in Hl as [Hl _].
    assert (handle_set_options (st + 2) [None; Some (NBulk (Some c) z); get; cond; Some v; Some k]
      [NBulk (Some c') z'] 0
      = Ok (st + 3, array_of cond get (Some (NBulk (Some c) z, NBulk (Some c') z')), [])) as ->.
    { by destruct Hst as [-> | [-> | [-> | ->]]]. }
    cbn [mbind res_bind]. assert (0 < st + 3) by (unfold before_expiry in Hst; lia).
    rewrite validate_content_spec by done. cbn [mbind res_bind].
    destruct (is_number _); [by apply loop_done | apply loop_stops]. }
  by apply Forall_cons in Hl as [? _].
Qed.

(** An option recorded at bit [b] again, or out of order, is refused. *)
Lemma loop_refused fuel st pc c z l t b :
  0 < st -> get_option_type (Some c) = Ok t -> bit_of t = Some b -> (b = 2 \/ b = 3) ->
  is_set_option_valid st b = Ok false ->
  options_loop (S fuel) st pc (NBulk (Some c) z :: l) = Ok None.
Proof.
  intros Hst Ht Hb Hb' Hv. rewrite (loop_option _ _ _ _ _ _ t), Hb by done.
  unfold handle_set_options. rewrite Hv. cbn [mbind res_bind negb].
  destruct Hb' as [-> | ->]; apply loop_stops.
Qed.

(** After [GET]: only an expiry option may follow. *)
Lemma loop_after_get fuel st cond get l :
  st = 116 \/ st = 124 -> Forall arg_ok l ->
  options_loop (S fuel) st (array_of cond get None) l
  = Ok ((fun e => (expiry_state st e, array_of cond get e)) <$> parse_expiry l).
Proof.
  intros Hst Hl. assert (0 < st) by lia.
  assert (before_expiry st) by (unfold before_expiry; lia).
  destruct l as [|n l]; [rewrite loop_done by done; unfold expiry_state; simpl; by rewrite Z.add_0_r|].
  destruct (is_bulk n) eqn:Hn.
  2: { rewrite loop_not_bulk by done. unfold parse_expiry. rewrite is_word_bulk by done.
       by destruct l as [|? []]. }
  destruct n as [[c|] z|l' z|t' z]; try done; apply Forall_cons in Hl as [Hc Hl]; [|done].
  destruct (option_class c z) as (t & Ht & _ & _ & He).
  unfold parse_expiry. rewrite He. clear He.
  destruct (bit_of t) as [b|] eqn:Hb.
  2: { rewrite (loop_option _ _ _ _ _ _ t), Hb by done. by destruct l as [|? []]. }
  assert (b = 1 \/ b = 2 \/ b = 3) as [-> | Hb'] by (destruct t; simpl in Hb; simplify_eq; auto).
  - rewrite (loop_expiry_word _ _ _ _ _ _ _ t) by done.
    destruct l as [|n [|]]; simpl; try done. by destruct (is_number n).
  - rewrite (loop_refused _ _ _ _ _ _ t b) by
      (done || destruct Hst as [-> | ->], Hb' as [-> | ->]; done).
    rewrite bool_decide_eq_false_2 by (intros [= ->]; lia). by destruct l as [|? []].
Qed.

(** After [NX] or [XX]: [GET] or an expiry option. *)
Lemma loop_after_cond fuel st cond l :
  st = 112 \/ st = 120 -> Forall arg_ok l ->
  (match l with n :: _ => st = 120 \/ is_word [bs "NX"; bs "XX"] n = false | [] => True end) ->
  options_loop (S (S fuel)) st (array_of cond None None) l
  = Ok (let '(get, l) := optional [bs "GET"] l in
        (fun e => (expiry_state (st + match get with Some _ => 4 | None => 0 end) e,
                   array_of cond get e)) <$> parse_expiry l).
Proof.
  intros Hst Hl Hnx. assert (0 < st) by lia.
  assert (before_expiry st) by (unfold before_expiry; lia).
  destruct l as [|n l]; [rewrite loop_done by done; unfold expiry_state; simpl; by rewrite !Z.add_0_r|].
  unfold optional. destruct (is_bulk n) eqn:Hn.
  2: { rewrite loop_not_bulk, !is_word_bulk by done. unfold parse_expiry.
       rewrite is_word_bulk by done. by destruct l as [|? []]. }
  destruct n as [[c|] z|l' z|t' z]; try done; apply Forall_cons in Hl as [Hc Hl]; [|done].
  destruct (option_class c z) as (t & Ht & Hx & Hg & He). rewrite Hx in Hnx. rewrite Hg.
  destruct (bit_of t) as [b|] eqn:Hb.
  2: { rewrite (loop_option _ _ _ _ _ _ t), Hb by done. unfold parse_expiry. cbn [bool_decide decide_rel].
       rewrite bool_decide_eq_false_2 by done. rewrite He. by destruct l as [|? []]. }
  assert (b = 1 \/ b = 2 \/ b = 3) as [-> | [-> | ->]] by (destruct t; simpl in Hb; simplify_eq; auto).
  - rewrite bool_decide_eq_false_2 by done.
    rewrite (loop_expiry_word _ _ _ _ _ _ _ t) by done. unfold parse_expiry. rewrite He, Z.add_0_r.
    destruct l as [|n [|]]; simpl; try done. by destruct (is_number n).
  - rewrite bool_decide_eq_true_2 by done. rewrite (loop_option _ _ _ _ _ _ t), Hb by done.
    assert (handle_set_options st (array_of cond None None) (NBulk (Some c) z :: l) 2
      = Ok (st + 4, array_of cond (Some (NBulk (Some c) z)) None, l)) as -> by (by destruct Hst as [-> | ->]).
    cbn [mbind res_bind]. change (2 =? 1) with false. cbv iota. apply loop_after_get; [lia|done].
  - rewrite bool_decide_eq_false_2 by done.
    destruct Hnx as [-> | Hnx]; [|by rewrite bool_decide_eq_true_2 in Hnx].
    rewrite (loop_refused _ _ _ _ _ _ t 3) by (done || auto).
    unfold parse_expiry. rewrite He. by destruct l as [|? []].
Qed.
End automaton.

Lemma stage_a_spec k v l :
  is_bulk k = true -> is_bulk v = true ->
  set_cmd_stage_a (k :: v :: l) (replicate 6 None) = Ok (l, 112, array_of k v None None None).
Proof. intros Hk Hv. destruct k; [|done..]. by destruct v. Qed.

Lemma stage_a_refuses l :
  l <> [] -> (forall k v r, l = k :: v :: r -> is_bulk k && is_bulk v = false) ->
  exists pc, set_cmd_stage_a l (replicate 6 None) = Ok ([], -1, pc).
Proof.
  intros Hl H. destruct l as [|k [|v l]]; [done|destruct k; by eexists|].
  specialize (H k v l eq_refl). destruct k, v; try done; by eexists.
Qed.

(** The parser, on everything [lexer] can deliver. *)
Lemma validate_spec l :
  Forall arg_ok l ->
  validate_set_cmd l = Ok ((fun r => (sr_state r, sr_array r)) <$> parse_set l).
Proof.
  intros Hl. unfold validate_set_cmd. destruct l as [|k l]; [done|].
  assert (forall l', l = l' -> (forall v r, l' = v :: r -> is_bulk k && is_bulk v = false) ->
    ('(next, state, pc) ← set_cmd_stage_a (k :: l) (replicate 6 None);
     options_loop (S (length (k :: l))) state pc next) = Ok None) as Hbad.
  { intros ? <- H. destruct (stage_a_refuses (k :: l)) as [pc ->]; [done| |by cbn [mbind res_bind]; rewrite loop_stops].
    intros k0 v r [= <- ->]. by eapply H. }
  destruct l as [|v l]; [by apply (Hbad [])|]. unfold parse_set.
  destruct (is_bulk k && is_bulk v) eqn:Hkv.
  2: { by apply (Hbad (v :: l)); [|intros ? ? [= <- <-]]. }
  apply andb_true_iff in Hkv as [Hk Hv]. rewrite stage_a_spec by done. cbn [mbind res_bind length].
  apply Forall_cons in Hl as [_ [_ Hl]%Forall_cons]. clear Hbad.
  assert (forall fuel st cond l', Forall arg_ok l' -> st = 112 \/ st = 120 ->
      (st = 120 \/ match l' with n :: _ => is_word [bs "NX"; bs "XX"] n = false | [] => True end) ->
      st = 112 + match cond with Some _ => 8 | None => 0 end ->
    options_loop (S (S fuel)) st (array_of k v cond None None) l'
    = Ok ((fun r => (sr_state r, sr_array r)) <$>
         (let '(get, opts) := optional [bs "GET"] l' in
          match opts with
          | [] => Some (mkSetRequest k v cond get None)
          | [o; n] => if is_word [bs "EX"; bs "PX"; bs "EXAT"; bs "PXAT"] o && is_number n
                      then Some (mkSetRequest k v cond get (Some (o, n))) else None
          | _ => None end))) as Hgo.
  { intros fuel st cond l' Hl' Hst Hnx Hc. rewrite loop_after_cond; [|done|done|destruct l'; tauto].
    destruct (optional _ l') as [get opts]. f_equal. unfold parse_expiry.
    destruct opts as [|o [|n [|]]]; try done.
    - unfold expiry_state, sr_state. simpl. subst st. repeat f_equal.
    - destruct (is_word _ o && is_number n); [|done]. unfold expiry_state, sr_state. simpl.
      subst st. done. }
  destruct l as [|n l].
  { exact (Hgo _ 112 None [] Hl ltac:(auto) ltac:(auto) eq_refl). }
  unfold optional at 1. destruct (is_word [bs "NX"; bs "XX"] n) eqn:Hn.
  2: { exact (Hgo _ 112 None (n :: l) Hl ltac:(auto) (or_intror Hn) eq_refl). }
  destruct n as [[c|] z|l' z|t' z]; try done. apply Forall_cons in Hl as [Hc Hl].
  destruct (option_class c z) as (t & Ht & Hx & _ & _). rewrite Hn in Hx.
  symmetry in Hx. apply bool_decide_eq_true_1 in Hx.
  rewrite (loop_option _ _ _ _ _ _ t), Hx by done.
  assert (handle_set_options 112 (array_of k v None None None) (NBulk (Some c) z :: l) 3
    = Ok (120, array_of k v (Some (NBulk (Some c) z)) None None, l)) as -> by done.
  cbn [mbind res_bind]. change (3 =? 1) with false. cbv iota.
  exact (Hgo _ 120 (Some (NBulk (Some c) z)) l Hl ltac:(auto) ltac:(auto) eq_refl).
Qed.

(** ** The language of the grammar, declaratively *)

Definition request_ok (r : set_request) : Prop :=
  is_bulk (sr_key r) = true /\ is_bulk (sr_value r) = true /\
  (forall n, sr_cond r = Some n -> is_word [bs "NX"; bs "XX"] n = true) /\
  (forall n, sr_get r = Some n -> is_word [bs "GET"] n = true) /\
  (forall o n, sr_expiry r = Some (o, n) ->
     is_word [bs "EX"; bs "PX"; bs "EXAT"; bs "PXAT"] o = true /\ is_number n = true).

(** The arguments of a request, in order. *)
Definition request_args (r : set_request) : list node :=
  sr_key r :: sr_value r :: option_list (sr_cond r) ++ option_list (sr_get r) ++
  match sr_expiry r with Some (o, n) => [o; n] | None => [] end.

Lemma optional_inv ws l o l' :
  optional ws l = (o, l') ->
  l = option_list o ++ l' /\ (forall n, o = Some n -> is_word ws n = true).
Proof.
  unfold optional. destruct l as [|n l]; [by intros [= <- <-]|].
  destruct (is_word ws n) eqn:E; intros [= <- <-]; split; try done. by intros ? [= <-].
Qed.

Lemma parse_set_sound l r : parse_set l = Some r -> request_ok r /\ l = request_args r.
Proof.
  unfold parse_set. destruct l as [|k [|v l]]; try done.
  destruct (is_bulk k && is_bulk v) eqn:Hkv; [|done]. apply andb_true_iff in Hkv as [Hk Hv].
  destruct (optional _ l) as [cond l1] eqn:E1. destruct (optional _ l1) as [get l2] eqn:E2.
  apply optional_inv in E1 as [-> H1]. apply optional_inv in E2 as [-> H2].
  unfold request_ok, request_args.
  destruct l2 as [|o [|n [|]]]; try done.
  - intros [= <-]. simpl. by rewrite app_nil_r.
  - destruct (is_word _ o) eqn:Ho; [|done]. destruct (is_number n) eqn:Hn; [|done].
    intros [= <-]. simpl. repeat split; try done; simplify_eq; done.
Qed.

Lemma is_word_excl ws ws' n :
  forallb (fun w => negb (existsb (strcmp_eq w) ws')) ws = true ->
  is_word ws n = true -> is_word ws' n = false.
Proof.
  intros Hd H. destruct n as [[c|] z|l z|t z]; try done. simpl in *.
  apply existsb_exists in H as (w & Hw & E). unfold strcmp_eq in E.
  apply bool_decide_eq_true_1 in E.
  rewrite forallb_forall in Hd. specialize (Hd w Hw). apply negb_true_iff in Hd.
  unfold strcmp_eq in *. by rewrite E.
Qed.

Lemma optional_parts ws o l :
  (forall n, o = Some n -> is_word ws n = true) ->
  (forall n, head l = Some n -> is_word ws n = false) ->
  optional ws (option_list o ++ l) = (o, l).
Proof.
  intros Ho Hl. destruct o as [n|]; simpl.
  - by rewrite Ho.
  - destruct l as [|n l]; simpl; [done|]. by rewrite (Hl n).
Qed.

Lemma parse_set_complete r : request_ok r -> parse_set (request_args r) = Some r.
Proof.
  destruct r as [k v cond get e]. intros (Hk & Hv & Hc & Hg & He). simpl in *.
  unfold parse_set, request_args. simpl. rewrite Hk, Hv. cbn [andb].
  assert (forall n, head (match e with Some (o, n) => [o; n] | None => [] end) = Some n ->
    is_word [bs "EX"; bs "PX"; bs "EXAT"; bs "PXAT"] n = true) as Hhead.
  { intros n. destruct e as [[o m]|]; [|done]. intros [= ->]. by destruct (He _ _ eq_refl). }
  rewrite optional_parts; [|exact Hc|].
  2: { intros n. destruct get as [g|]; simpl.
       - intros [= ->]. specialize (Hg _ eq_refl). by eapply is_word_excl in Hg.
       - intros Hn%Hhead. by eapply is_word_excl in Hn. }
  rewrite optional_parts; [|exact Hg|].
  2: { intros n Hn%Hhead. by eapply is_word_excl in Hn. }
  destruct e as [[o n]|]; [|done]. destruct (He _ _ eq_refl) as [-> ->]. done.
Qed.

(** An option of an accepted command is one of the words or a number. *)
Lemma request_options r n :
  request_ok r -> n ∈ drop 2 (request_args r) ->
  is_word [bs "NX"; bs "XX"; bs "GET"; bs "EX"; bs "PX"; bs "EXAT"; bs "PXAT"] n = true \/ is_number n = true.
Proof.
  intros (_ & _ & Hc & Hg & He). unfold request_args.
  match goal with |- n ∈ drop 2 (_ :: _ :: ?l) -> ?P => change (n ∈ l -> P) end.
  assert (forall ws ws', is_word ws n = true -> (forall w, w ∈ ws -> w ∈ ws') -> is_word ws' n = true) as Hmono.
  { intros ws ws' Hw Hsub. destruct n as [[c|] z|l z|t z]; try done. unfold is_word in *.
    apply existsb_exists in Hw as (w & Hin & E). apply existsb_exists. exists w.
    split; [|done]. apply list_elem_of_In, Hsub. by apply list_elem_of_In. }
  rewrite !elem_of_app. intros [Hin|[Hin|Hin]].
  - destruct (sr_cond r) as [a|]; [|by apply elem_of_nil in Hin]. apply list_elem_of_singleton in Hin as ->.
    left. eapply Hmono; [by apply Hc|]. set_solver.
  - destruct (sr_get r) as [a|]; [|by apply elem_of_nil in Hin]. apply list_elem_of_singleton in Hin as ->.
    left. eapply Hmono; [by apply Hg|]. set_solver.
  - destruct (sr_expiry r) as [[o a]|]; [|by apply elem_of_nil in Hin]. destruct (He o a eq_refl) as [Ho Ha].
    apply elem_of_cons in Hin as [->|Hin%list_elem_of_singleton]; [left|right; by subst].
    eapply Hmono; [exact Ho|]. set_solver.
Qed.

(** A word is read up to its first NUL. *)
Lemma is_word_cut ws c junk z z' :
  nul_free c -> is_word ws (NBulk (Some (c ++ NUL :: junk)) z) = is_word ws (NBulk (Some c) z').
Proof.
  intros Hc. unfold is_word. induction ws as [|w ws IH]; [done|]. cbn [existsb]. rewrite IH. f_equal. unfold strcmp_eq.
  rewrite c_str_app by done. cbn [c_str]. rewrite decide_True by done.
  by rewrite app_nil_r, (c_str_nul_free c).
Qed.

(** C9. The bitmap automaton accepts exactly the commands [SET key value [NX|XX]
    [GET] [EX|PX|EXAT|PXAT number]]: an argument list is accepted when it is the
    rendering of a well-formed request, the array and the bitmap it leaves then
    describe that request, and every other list is refused; in no case does it touch
    a bad pointer or loop. This is less than the README documents: a list with
    [KEEPTTL] among its options is refused. And it is more: a word is compared as a
    C string, so that a bulk string counts as [NX] when it has any bytes behind [NX]
    and a NUL. *)
Theorem validate_set_cmd_language l :
  Forall arg_ok l ->
  ((exists r, request_ok r /\ l = request_args r /\
      validate_set_cmd l = Ok (Some (sr_state r, sr_array r))) \/
   ((forall r, request_ok r -> l <> request_args r) /\ validate_set_cmd l = Ok None)) /\
  (forall n, n ∈ drop 2 l -> is_word [bs "KEEPTTL"] n = true -> validate_set_cmd l = Ok None) /\
  (forall ws c junk z z', nul_free c ->
     is_word ws (NBulk (Some (c ++ NUL :: junk)) z) = is_word ws (NBulk (Some c) z')).
Proof.
  intros Hl. rewrite validate_spec by done. destruct (parse_set l) as [r|] eqn:E.
  - apply parse_set_sound in E as [Hr ->]. split_and!; [left; by exists r| |by intros; apply is_word_cut].
    intros n Hin Hn. destruct (request_options r n Hr Hin) as [Hw|Hw].
    + by eapply is_word_excl in Hn; [rewrite Hn in Hw|vm_compute].
    + destruct n as [[c|] z| |]; try done. apply andb_true_iff in Hw as [_ Hd]. exfalso. revert Hn.
      unfold is_word. cbn [existsb]. rewrite orb_false_r. unfold strcmp_eq.
      rewrite (c_str_nul_free c) by (by apply digits_nul_free, List.Forall_forall, forallb_forall).
      intros ->%bool_decide_eq_true_1. done.
  - split_and!; [right; split; [|done]|done|by intros; apply is_word_cut].
    intros r Hr ->. by rewrite parse_set_complete in E.
Qed.

Definition arg (s : string) : node := NBulk (Some (bs s)) (Z.of_nat (length (bs s))).
Arguments arg s%_string_scope.

Lemma validate_set_cmd_language_witness :
  ((exists r, request_ok r /\ map arg ["k"; "v"; "NX"; "EX"; "10"]%string = request_args r /\
      validate_set_cmd (map arg ["k"; "v"; "NX"; "EX"; "10"]%string) = Ok (Some (sr_state r, sr_array r))) \/
   ((forall r, request_ok r -> map arg ["k"; "v"; "NX"; "EX"; "10"]%string <> request_args r) /\
    validate_set_cmd (map arg ["k"; "v"; "NX"; "EX"; "10"]%string) = Ok None)) /\
  validate_set_cmd (map arg ["k"; "v"; "KEEPTTL"]%string) = Ok None.
Proof.
  split.
  - apply (validate_set_cmd_language (map arg ["k"; "v"; "NX"; "EX"; "10"]%string)).
    repeat (constructor; [split; [reflexivity | vm_compute; discriminate] |]). constructor.
  - apply (validate_set_cmd_language (map arg ["k"; "v"; "KEEPTTL"]%string)) with (arg "KEEPTTL").
    + repeat (constructor; [split; [reflexivity | vm_compute; discriminate] |]). constructor.
    + left.
    + reflexivity.
Defined.
