(* ===== verification/SetExec.v ===== *)
(** The execution of the [SET] command: one function per combination of
    options, [execute_set_cmd] and [handle_set_cmd] of [cmd_handler.c], with
    the objects each of them frees; and what they promise on the store seen as
    a finite map from key texts to key and value objects. *)

From S2P Require Import Prelude CLib Protocol SimpleMap KeyVal SetParser.

(** ** Replies *)

Definition nil_reply : list byte := bs "$-1" ++ crlf.
Definition ok_reply : list byte := bs "+OK" ++ crlf.

(** The values of [enum SET_STATES]. *)
Definition SET_BASIC : Z := 112.
Definition SET_NXXX : Z := 120.
Definition SET_GET : Z := 116.
Definition SET_EX_PX_EXAL_PXAT : Z := 115.
Definition SET_NXXX_EXPX : Z := 123.
Definition SET_GET_EXPX : Z := 119.
Definition SET_NXXX_GET : Z := 124.

(** ** Operations

    Each answers the reply ([None] is [NULL]), the store and the objects freed,
    in order. *)

Section operations.
Context `{Heap}.

Abbreviation answer := (option (list byte) * Store * list freed)%type.

(** Whether the pair may be stored, and what is freed when it may not. *)
Definition __execute_set_check (sm : Store) (kvp : Pair) : res (bool * list freed) :=
  if is_null (kvp_key kvp) || is_null (kvp_value kvp) || is_null (sm_values sm) || is_null (sm_keys sm)
  then Ok (false, clean_up_kv (kvp_key kvp) (kvp_value kvp) ++ [FreedPair])
  else
    key ← deref (kvp_key kvp);
    if is_null (kn_content key)
    then Ok (false, clean_up_kv (kvp_key kvp) (kvp_value kvp) ++ [FreedPair])
    else Ok (true, []).

(** The guards the source repeats here are those of [__execute_set_check]. *)
Definition execute_set_basic (sm : Store) (kvp : Pair) : res answer :=
  '(ok, log) ← __execute_set_check sm kvp;
  if negb ok then Ok (None, sm, log)
  else
    '(rtn, sm, kvp) ← set sm kvp compare;
    match rtn with
    | ERROR_SET_SM_RTN =>
        (* the nil text is allocated but never copied *)
        Ok (Some (calloc (strlen nil_reply)), sm, clean_up_kv (kvp_key kvp) (kvp_value kvp) ++ [FreedPair])
    | SUCESS_SET => Ok (Some ok_reply, sm, [FreedPair])
    | SUCESS_UPGRADE =>
        Ok (Some ok_reply, sm, clean_up_kv (kvp_key kvp) (kvp_value kvp) ++ [FreedPair])
    end.

Definition execute_set_get (sm : Store) (kvp : Pair) : res answer :=
  '(ok, log) ← __execute_set_check sm kvp;
  if negb ok then Ok (None, sm, log)
  else
    '(rtn, sm, kvp) ← set sm kvp compare;
    match rtn with
    | ERROR_SET_SM_RTN =>
        Ok (None, sm, clean_up_kv (kvp_key kvp) (kvp_value kvp) ++ [FreedPair])
    | SUCESS_SET => Ok (Some nil_reply, sm, [FreedPair])
    | SUCESS_UPGRADE =>
        let released := clean_up_kv (kvp_key kvp) (kvp_value kvp) ++ [FreedPair] in
        match kvp_value kvp with
        | None => Ok (Some nil_reply, sm, released)
        | Some old_value =>
            if bool_decide (vn_dtype old_value = BULK_STR) && negb (is_null (vn_content old_value))
            then
              '(_, rtn_val) ← key_or_value_node_to_string (Some (inr old_value));
              Ok (rtn_val, sm, released)
            else Ok (Some nil_reply, sm, released)
        end
    end.

(** The content of a node cast to a [BulkStringNode]. *)
Definition bulk_content (n : node) : res (option (list byte)) :=
  match n with NBulk content _ => Ok content | _ => UB end.

Definition execute_set_nx_xx (sm : Store) (kvp : Pair) (parsed_cmd : list (option node)) : res answer :=
  '(ok, log) ← __execute_set_check sm kvp;
  if negb ok then Ok (None, sm, log)
  else
    p3 ← aread parsed_cmd 3;
    match p3 with
    | None => Ok (None, sm, [])
    | Some nx_xx =>
        let released := clean_up_kv (kvp_key kvp) (kvp_value kvp) ++ [FreedPair] in
        content ← bulk_content nx_xx;
        match content with
        | None => Ok (None, sm, released)
        | Some opt =>
            if strcmp_eq opt (bs "NX") then
              old_kvp ← get sm (kvp_key kvp) compare;
              match old_kvp with
              | None =>
                  '(rtn, sm, kvp) ← set sm kvp compare;
                  if decide (rtn = SUCESS_SET) then Ok (Some ok_reply, sm, [FreedPair])
                  else Ok (Some nil_reply, sm, [FreedPair])
              | Some _ => Ok (Some nil_reply, sm, released)
              end
            else if strcmp_eq opt (bs "XX") then
              old_kvp ← get sm (kvp_key kvp) compare;
              match old_kvp with
              | Some _ =>
                  '(rtn, sm, kvp) ← set sm kvp compare;
                  if decide (rtn = SUCESS_UPGRADE)
                  then Ok (Some ok_reply, sm, clean_up_kv (kvp_key kvp) (kvp_value kvp) ++ [FreedPair])
                  else Ok (Some nil_reply, sm, [FreedPair])
              | None => Ok (Some nil_reply, sm, released)
              end
            else Ok (None, sm, released)
        end
    end.

Definition execute_set_nxxx_get (sm : Store) (kvp : Pair) (parsed_cmd : list (option node))
    : res answer :=
  '(ok, log) ← __execute_set_check sm kvp;
  if negb ok then Ok (None, sm, log)
  else
    let released := clean_up_kv (kvp_key kvp) (kvp_value kvp) ++ [FreedPair] in
    p3 ← aread parsed_cmd 3;
    if is_null p3 then Ok (None, sm, released)
    else
      kvp_old ← get sm (kvp_key kvp) compare;
      let go rtn_val :=
        '(rtn, sm, log) ← execute_set_nx_xx sm kvp parsed_cmd;
        Ok (match rtn : option (list byte) with Some _ => rtn_val | None => None end, sm, log) in
      match kvp_old with
      | None => go (Some nil_reply)
      | Some old =>
          match kvp_key old, kvp_value old with
          | Some old_key, Some old_value =>
              if is_null (kn_content old_key) then Ok (None, sm, released)
              else if bool_decide (vn_dtype old_value = BULK_STR) && negb (is_null (vn_content old_value))
              then
                '(_, rtn_val) ← key_or_value_node_to_string (Some (inr old_value));
                go rtn_val
              else go (Some nil_reply)
          | _, _ => Ok (None, sm, released)
          end
      end.

Definition execute_set_ex_px_exat_pxat (sm : Store) (kvp : Pair) (parsed_cmd : list (option node))
    : res answer :=
  '(ok, log) ← __execute_set_check sm kvp;
  if negb ok then Ok (None, sm, log)
  else
    p1 ← aread parsed_cmd 1;
    p0 ← aread parsed_cmd 0;
    match p1, p0 with
    | Some option_nd, Some time_nd =>
        key ← deref (kvp_key kvp);
        opt ← bulk_content option_nd;
        time_text ← bulk_content time_nd;
        text ← deref time_text;
        let time := string_to_uint text in
        type ← get_option_type opt;
        match type with
        | OPTION_EX | OPTION_EXAT =>
            execute_set_basic sm (mkKVP (Some (mkKeyNode (kn_content key) (kn_input_time key) time
              (kn_px key) (kn_size key))) (kvp_value kvp))
        | OPTION_PX | OPTION_PXAT =>
            execute_set_basic sm (mkKVP (Some (mkKeyNode (kn_content key) (kn_input_time key) (kn_ex key)
              time (kn_size key))) (kvp_value kvp))
        | _ => Ok (None, sm, clean_up_kv (kvp_key kvp) (kvp_value kvp))
        end
    | _, _ => Ok (None, sm, [])
    end.

(** [now] is the clock when the key object is created. *)
Definition execute_set_cmd (state : Z) (parsed_cmd : list (option node)) (sm : Store) (now : timespec)
    : res answer :=
  p5 ← aread parsed_cmd 5;
  v ← aread parsed_cmd 4;
  match p5, v with
  | Some k, Some _ =>
      match k with
      | NBulk content size =>
          key ← create_key_node content 0 0 size now;
          match key with
          | None => Ok (None, sm, [])
          | Some _ =>
              value ← create_value_node v;
              match value with
              | None => Ok (None, sm, clean_up_kv key None)
              | Some _ =>
                  kvp ← deref (create_key_val_pair key value);
                  if state =? SET_BASIC then execute_set_basic sm kvp
                  else if state =? SET_GET then execute_set_get sm kvp
                  else if state =? SET_NXXX then execute_set_nx_xx sm kvp parsed_cmd
                  else if state =? SET_NXXX_GET then execute_set_nxxx_get sm kvp parsed_cmd
                  else if state =? SET_EX_PX_EXAL_PXAT
                  then execute_set_ex_px_exat_pxat sm kvp parsed_cmd
                  else Ok (None, sm, [])
              end
          end
      | _ => UB
      end
  | _, _ => Ok (None, sm, [])
  end.

Definition handle_set_cmd (node : list node) (sm : Store) (now : timespec) : res answer :=
  is_valid ← validate_set_cmd node;
  match is_valid with
  | None => Ok (None, sm, [])
  | Some (state, parsed_cmd) => execute_set_cmd state parsed_cmd sm now
  end.

End operations.

Arguments execute_set_nx_xx {_} _ _ _ : simpl never.

(** ** The meaning of [SET] on a finite map *)

Abbreviation keyspace := (gmap (list byte) (KeyNode * option ValueNode)).

(** Every stored value is a string, every stored key has its time. *)
Definition store_ok (m : keyspace) : Prop :=
  map_Forall (fun _ p => (exists v, p.2 = Some v /\ vn_ok v) /\ is_Some (kn_input_time p.1)) m.

(** The store [sm] holds the well-formed key space [m]. *)
Definition holds (sm : Store) (m : keyspace) : Prop :=
  implements kn_ok kn_ident sm m /\ store_ok m.

Inductive set_condition := Always | IfAbsent | IfPresent.

Record set_command := mkSetCommand {
  sc_key : list byte;
  sc_value : list byte;
  sc_cond : set_condition;
  sc_get : bool;
  sc_ex : Z;
  sc_px : Z
}.

(** Whether the condition lets the command store. *)
Definition permits (cond : set_condition) (old : option (KeyNode * option ValueNode)) : bool :=
  match cond with
  | Always => true
  | IfAbsent => is_null old
  | IfPresent => negb (is_null old)
  end.

Definition value_reply (old : option (KeyNode * option ValueNode)) : list byte :=
  match old with
  | Some (_, Some v) => encode (NBulk (Some (vn_text v)) (Z.of_nat (length (vn_text v))))
  | _ => nil_reply
  end.

Definition entry_of (cmd : set_command) (now : timespec) : KeyNode * option ValueNode :=
  (key_of (sc_key cmd) (sc_ex cmd) (sc_px cmd) now, Some (value_of (sc_value cmd))).

Definition set_reply (cmd : set_command) (m : keyspace) : list byte :=
  let old := m !! sc_key cmd in
  if sc_get cmd then value_reply old
  else if permits (sc_cond cmd) old then ok_reply else nil_reply.

Definition set_store (cmd : set_command) (now : timespec) (m : keyspace) : keyspace :=
  if permits (sc_cond cmd) (m !! sc_key cmd) then <[sc_key cmd := entry_of cmd now]> m else m.

(** The objects no longer in use: the pair that was replaced, or the new one
    when it was not stored. *)
Definition nodes_of (p : KeyNode * option ValueNode) : list freed := clean_up_kv (Some p.1) p.2.

Definition set_garbage (cmd : set_command) (now : timespec) (m : keyspace) : list freed :=
  let old := m !! sc_key cmd in
  (if permits (sc_cond cmd) old then match old with Some p => nodes_of p | None => [] end
   else nodes_of (entry_of cmd now)) ++ [FreedPair].

(** The command a request stands for; [None] when the source has no function
    for the combination of options. The number of [EXAT] and [PXAT] is a lifetime
    in it, like that of [EX] and [PX]: so the code takes it, although the README
    documents a point in time. *)
Definition text_of (n : node) : list byte :=
  match n with NBulk (Some c) _ => c | _ => [] end.

Definition command_of (r : set_request) : option set_command :=
  let cond := match sr_cond r with
              | None => Always
              | Some n => if strcmp_eq (text_of n) (bs "NX") then IfAbsent else IfPresent
              end in
  let get := negb (is_null (sr_get r)) in
  let k := text_of (sr_key r) in
  let v := text_of (sr_value r) in
  match sr_expiry r with
  | None => Some (mkSetCommand k v cond get 0 0)
  | Some (o, n) =>
      if is_null (sr_cond r) && negb get then
        let time := string_to_uint (text_of n) in
        if is_word [bs "EX"; bs "EXAT"] o
        then Some (mkSetCommand k v Always false time 0)
        else Some (mkSetCommand k v Always false 0 time)
      else None
  end.

(** ** Access to the store *)

Section store_access.
Context `{Heap}.
Implicit Types (sm : Store) (m : keyspace).

Lemma holds_not_null sm m :
  holds sm m -> is_null (sm_keys sm) = false /\ is_null (sm_values sm) = false.
Proof. intros [(l & R & _) _]. by destruct (repr_not_null _ _ R) as (-> & -> & _). Qed.

Lemma store_check sm m c ex px now v :
  holds sm m -> __execute_set_check sm (mkKVP (Some (key_of c ex px now)) (Some v)) = Ok (true, []).
Proof. intros [Hk Hv]%holds_not_null. unfold __execute_set_check. simpl. by rewrite Hk, Hv. Qed.

Lemma store_set sm m c ex px now v :
  holds sm m -> can_grow sm -> vn_ok v ->
  exists sm', set sm (mkKVP (Some (key_of c ex px now)) (Some v)) compare
    = Ok (match m !! c with None => SUCESS_SET | Some _ => SUCESS_UPGRADE end, sm',
          match m !! c with
          | None => mkKVP (Some (key_of c ex px now)) (Some v)
          | Some p => mkKVP (Some p.1) p.2 end) /\
    holds sm' (<[c := (key_of c ex px now, Some v)]> m) /\ grows sm sm'.
Proof.
  intros [Hi Hs] Hg Hv.
  destruct (implements_set compare kn_ok kn_ident sm m (key_of c ex px now) (Some v)) as (sm' & E & Hi' & Hgr);
    [done|done|done|]. change (kn_ident (key_of c ex px now)) with c in *.
  exists sm'. rewrite E. split; [by destruct (m !! c) as [[]|]|]. split; [|exact Hgr]. split; [done|].
  apply map_Forall_insert_2; [split; [by exists v | by eexists] | done].
Qed.

Lemma store_get sm m key :
  holds sm m -> kn_ok key ->
  get sm (Some key) compare = Ok ((fun p => mkKVP (Some p.1) p.2) <$> m !! kn_ident key).
Proof. intros [Hi _] Hk. by apply (implements_get compare kn_ok kn_ident). Qed.

Lemma store_entry sm m c p :
  holds sm m -> m !! c = Some p ->
  exists v, p.2 = Some v /\ vn_ok v /\ is_null (kn_content p.1) = false /\ kn_ident p.1 = c.
Proof.
  intros [Hi Hs] Hl. destruct (Hs c p Hl) as [(v & E & Hv) _]. exists v. split; [done|]. split; [done|].
  destruct p as [k ov]. destruct (implements_same_keys kn_ok kn_ident sm m (key_of c 0 0 (mkTimespec 0 0)) k ov)
    as [Hk Ek]; [done|done|].
  unfold kn_ok in Hk. simpl. by destruct (kn_content k).
Qed.

Lemma old_value_reply sm m c p :
  holds sm m -> m !! c = Some p ->
  exists v, p.2 = Some v /\
    bool_decide (vn_dtype v = BULK_STR) && negb (is_null (vn_content v)) = true /\
    exists n, key_or_value_node_to_string (Some (inr v)) = Ok (n, Some (value_reply (Some p))).
Proof.
  intros Hh Hl. destruct (store_entry sm m c p Hh Hl) as (v & E & Hv & _).
  exists v. split; [done|]. split.
  - apply vn_ok_inv in Hv as [-> _]. done.
  - destruct (value_to_string v Hv) as (n & Hn). exists n. rewrite Hn. destruct p as [k ov].
    simpl in E. by subst ov.
Qed.

(** ** One lemma per function *)

Section commands.
Context (sm : Store) (m : keyspace) (Hh : holds sm m) (Hg : can_grow sm).
Context (now : timespec).

Definition new_pair (cmd : set_command) : Pair :=
  mkKVP (Some (entry_of cmd now).1) (entry_of cmd now).2.

(** What a correct run of [cmd] is. *)
Definition performs (cmd : set_command) (o : res (option (list byte) * Store * list freed)) : Prop :=
  exists sm', o = Ok (Some (set_reply cmd m), sm', set_garbage cmd now m) /\
    holds sm' (set_store cmd now m) /\ grows sm sm'.

Lemma set_basic_spec c v ex px :
  text_ok v ->
  let cmd := mkSetCommand c v Always false ex px in
  performs cmd (execute_set_basic sm (new_pair cmd)).
Proof.
  intros Hv cmd. unfold execute_set_basic, new_pair, performs. simpl.
  rewrite (store_check sm m) by done. cbn [mbind res_bind negb].
  destruct (store_set sm m c ex px now (value_of v)) as (sm' & -> & H'); [done|done|by apply value_of_ok|].
  exists sm'. unfold set_reply, set_garbage, set_store. simpl. split; [|done].
  by destruct (m !! c) as [[k0 v0]|].
Qed.

Lemma set_get_spec c v :
  text_ok v ->
  let cmd := mkSetCommand c v Always true 0 0 in
  performs cmd (execute_set_get sm (new_pair cmd)).
Proof.
  intros Hv cmd. unfold execute_set_get, new_pair, performs. simpl.
  rewrite (store_check sm m) by done. cbn [mbind res_bind negb].
  destruct (store_set sm m c 0 0 now (value_of v)) as (sm' & -> & H'); [done|done|by apply value_of_ok|].
  exists sm'. unfold set_reply, set_garbage, set_store. simpl. split; [|done].
  destruct (m !! c) as [p|] eqn:E; [|done].
  destruct (old_value_reply sm m c p Hh E) as (v0 & Ep & Hb & n & Hn).
  cbn [mbind res_bind kvp_value kvp_key]. rewrite Ep.
  cbn [mbind res_bind]. rewrite Hb, Hn. cbn [mbind res_bind].
  unfold nodes_of. by rewrite Ep.
Qed.

Lemma set_nx_xx_spec c v n parsed_cmd :
  text_ok v -> aread parsed_cmd 3 = Ok (Some n) -> is_word [bs "NX"; bs "XX"] n = true ->
  let cmd := mkSetCommand c v (if strcmp_eq (text_of n) (bs "NX") then IfAbsent else IfPresent) false 0 0 in
  performs cmd (execute_set_nx_xx sm (new_pair cmd) parsed_cmd).
Proof.
  intros Hv Hp Hw cmd. unfold execute_set_nx_xx, new_pair, performs. simpl.
  rewrite (store_check sm m) by done. cbn [mbind res_bind negb]. rewrite Hp. cbn [mbind res_bind].
  destruct n as [[w|] z|l z|t z]; try done. cbn [bulk_content mbind res_bind text_of] in *.
  rewrite (store_get sm m) by done. cbn [mbind res_bind].
  change (kn_ident (key_of c 0 0 now)) with c.
  destruct (store_set sm m c 0 0 now (value_of v)) as (sm' & Hset & H'); [done|done|by apply value_of_ok|].
  unfold set_reply, set_garbage, set_store, cmd, entry_of. simpl. 
  destruct (strcmp_eq w (bs "NX")) eqn:Enx.
  - simpl in *. destruct (m !! c) as [p|] eqn:E; simpl; [by exists sm|].
    rewrite Hset. cbn [mbind res_bind]. rewrite decide_True by done. by exists sm'.
  - assert (strcmp_eq w (bs "XX") = true) as Exx.
    { simpl in Hw. rewrite Enx in Hw. destruct (strcmp_eq w (bs "XX")); done. }
    rewrite Exx. simpl in *. destruct (m !! c) as [p|] eqn:E; simpl; [|by exists sm].
    rewrite Hset. cbn [mbind res_bind]. rewrite decide_True by done. by exists sm'.
Qed.

Lemma set_nxxx_get_spec c v n parsed_cmd :
  text_ok v -> aread parsed_cmd 3 = Ok (Some n) -> is_word [bs "NX"; bs "XX"] n = true ->
  let cmd := mkSetCommand c v (if strcmp_eq (text_of n) (bs "NX") then IfAbsent else IfPresent) true 0 0 in
  performs cmd (execute_set_nxxx_get sm (new_pair cmd) parsed_cmd).
Proof.
  intros Hv Hp Hw cmd. unfold execute_set_nxxx_get, new_pair. simpl.
  rewrite (store_check sm m) by done. cbn [mbind res_bind negb]. rewrite Hp. cbn [mbind res_bind is_null].
  rewrite (store_get sm m) by done. cbn [mbind res_bind].
  change (kn_ident (key_of c 0 0 now)) with c.
  destruct (set_nx_xx_spec c v n parsed_cmd Hv Hp Hw) as (sm' & Ex & H').
  unfold new_pair in Ex. simpl in Ex.
  assert (performs cmd (Ok (Some (value_reply (m !! c)), sm', set_garbage cmd now m))) as Hdone.
  { exists sm'. split; [|exact H']. unfold set_reply, cmd. done. }
  destruct (m !! c) as [p|] eqn:E.
  - destruct (store_entry sm m c p Hh E) as (v0 & Ep & _ & Hc & _).
    destruct (old_value_reply sm m c p Hh E) as (v1 & Ep' & Hb & k & Hk).
    assert (v1 = v0) as -> by congruence.
    simpl. rewrite Ep, Hc, Hb, Hk. simpl.
    rewrite Ex. exact Hdone.
  - simpl. rewrite Ex. exact Hdone.
Qed.
End commands.
End store_access.

(** ** The handler *)

Section handler.
Context `{Heap}.
Implicit Types (sm : Store) (m : keyspace).

Lemma expiry_type o z :
  is_word [bs "EX"; bs "PX"; bs "EXAT"; bs "PXAT"] (NBulk (Some o) z) = true ->
  exists t, get_option_type (Some o) = Ok t /\
    (is_word [bs "EX"; bs "EXAT"] (NBulk (Some o) z) = true /\ (t = OPTION_EX \/ t = OPTION_EXAT) \/
     is_word [bs "EX"; bs "EXAT"] (NBulk (Some o) z) = false /\ (t = OPTION_PX \/ t = OPTION_PXAT)).
Proof.
  unfold get_option_type, is_word, existsb. cbn [mbind res_bind deref].
  rewrite !strcmp_eq_literal by done. generalize (c_str o). intros s Hs. eexists. split; [done|].
  revert Hs.
  repeat match goal with
  | |- context [bool_decide (s = ?w)] => destruct (decide (s = w)) as [->|]; [by auto|];
      rewrite (bool_decide_eq_false_2 (s = w)) by done
  end. done.
Qed.

Lemma set_ex_spec sm m now c v o n pc :
  holds sm m -> can_grow sm -> text_ok v ->
  aread pc 1 = Ok (Some o) -> aread pc 0 = Ok (Some n) ->
  is_word [bs "EX"; bs "PX"; bs "EXAT"; bs "PXAT"] o = true -> is_number n = true ->
  let time := string_to_uint (text_of n) in
  let cmd := if is_word [bs "EX"; bs "EXAT"] o then mkSetCommand c v Always false time 0
             else mkSetCommand c v Always false 0 time in
  performs sm m now cmd
    (execute_set_ex_px_exat_pxat sm (mkKVP (Some (key_of c 0 0 now)) (Some (value_of v))) pc).
Proof.
  intros Hh Hg Hv E1 E0 Ho Hn time cmd. unfold execute_set_ex_px_exat_pxat.
  rewrite (store_check sm m) by done. cbn [mbind res_bind negb]. rewrite E1, E0. cbn [mbind res_bind].
  destruct o as [[o|] z|l z|t z]; try done. destruct n as [[w|] z'|l z'|t z']; try done.
  cbn [bulk_content mbind res_bind deref kvp_key].
  destruct (expiry_type o z Ho) as (t & -> & [[Hw Ht]|[Hw Ht]]); unfold cmd; rewrite Hw;
    destruct Ht as [-> | ->]; cbn [mbind res_bind];
    apply (set_basic_spec sm m Hh Hg now c v); done.
Qed.

(** A bulk string as [lexer] delivers it. *)
Definition bulk (c : list byte) : node := NBulk (Some c) (Z.of_nat (length c)).

Lemma arg_bulk n : arg_ok n -> is_bulk n = true -> n = bulk (text_of n).
Proof. destruct n as [[c|] z| |]; try done. by intros [-> _]. Qed.

Lemma request_bulks l r :
  Forall arg_ok l -> parse_set l = Some r ->
  sr_key r = bulk (text_of (sr_key r)) /\ sr_value r = bulk (text_of (sr_value r)) /\
  arg_ok (sr_key r) /\ arg_ok (sr_value r) /\ request_ok r.
Proof.
  intros Hl Hp. apply parse_set_sound in Hp as [Hr ->]. unfold request_args in Hl.
  apply Forall_cons in Hl as [Hk [Hv _]%Forall_cons]. pose proof Hr as (Bk & Bv & _).
  split; [by apply arg_bulk|]. split; [by apply arg_bulk|]. done.
Qed.

(** An empty text makes no object: the command is refused. *)
Definition texts_ok (r : set_request) : bool :=
  bool_decide (text_of (sr_key r) <> []) && bool_decide (text_of (sr_value r) <> []).

Lemma bulk_text_ok c : arg_ok (bulk c) -> c <> [] -> text_ok c.
Proof. intros [_ ?] Hn. unfold text_ok. destruct c; [done|]. simpl length in *. lia. Qed.

(** The creation of the pair, before the state selects a function. *)
Lemma execute_objects r sm now :
  sr_key r = bulk (text_of (sr_key r)) -> sr_value r = bulk (text_of (sr_value r)) ->
  arg_ok (sr_key r) -> arg_ok (sr_value r) ->
  let key := key_of (text_of (sr_key r)) 0 0 now in
  if texts_ok r then
    let kvp := mkKVP (Some key) (Some (value_of (text_of (sr_value r)))) in
    let state := sr_state r in
    execute_set_cmd state (sr_array r) sm now
    = if state =? SET_BASIC then execute_set_basic sm kvp
      else if state =? SET_GET then execute_set_get sm kvp
      else if state =? SET_NXXX then execute_set_nx_xx sm kvp (sr_array r)
      else if state =? SET_NXXX_GET then execute_set_nxxx_get sm kvp (sr_array r)
      else if state =? SET_EX_PX_EXAL_PXAT then execute_set_ex_px_exat_pxat sm kvp (sr_array r)
      else Ok (None, sm, [])
  else
    execute_set_cmd (sr_state r) (sr_array r) sm now
    = Ok (None, sm, if decide (text_of (sr_key r) = []) then [] else [FreedKey key]).
Proof.
  intros Ek Ev Hk Hv key. unfold execute_set_cmd, texts_ok.
  change (aread (sr_array r) 5) with (Ok (Some (sr_key r))).
  change (aread (sr_array r) 4) with (Ok (Some (sr_value r))). cbn [mbind res_bind].
  rewrite Ek in Hk. rewrite Ev in Hv. rewrite Ek, Ev. unfold key. clear key.
  generalize dependent (text_of (sr_key r)). generalize dependent (text_of (sr_value r)).
  intros v _ Hv k _ Hk. cbn [text_of bulk].
  destruct (decide (k = [])) as [->|Hnk]; [done|].
  rewrite create_key_node_text by (by apply bulk_text_ok). cbn [mbind res_bind].
  rewrite (bool_decide_eq_true_2 (k <> [])) by done. cbn [andb].
  destruct (decide (v = [])) as [->|Hnv]; [done|].
  rewrite (bool_decide_eq_true_2 (v <> [])) by done.
  unfold bulk. rewrite create_value_node_text by (by apply bulk_text_ok). done.
Qed.

Lemma handle_set_spec l r sm m now :
  Forall arg_ok l -> parse_set l = Some r -> texts_ok r = true -> holds sm m -> can_grow sm ->
  match command_of r with
  | Some cmd => performs sm m now cmd (handle_set_cmd l sm now)
  | None => handle_set_cmd l sm now = Ok (None, sm, [])
  end.
Proof.
  intros Hl Hp Ht Hh Hg. unfold handle_set_cmd. rewrite validate_spec, Hp by done.
  destruct (request_bulks l r Hl Hp) as (Ek & Ev & Hk & Hv & Hr).
  pose proof (execute_objects r sm now Ek Ev Hk Hv) as Hx. rewrite Ht in Hx.
  cbn [fmap option_fmap option_map mbind res_bind]. simpl in Hx |- *. rewrite Hx. clear Hx.
  assert (text_ok (text_of (sr_value r))) as Hvt.
  { unfold texts_ok in Ht. apply andb_true_iff in Ht as [_ Hne%bool_decide_eq_true_1].
    rewrite Ev in Hv. by apply bulk_text_ok. }
  destruct Hr as (_ & _ & Hc & _ & He).
  destruct r as [k v cond get e]. cbn [sr_key sr_value sr_cond sr_get sr_expiry] in *.
  unfold sr_state, sr_array, command_of. cbn [sr_key sr_value sr_cond sr_get sr_expiry].
  destruct e as [[o n]|]; [destruct (He o n eq_refl) as [Ho Hn]|].
  - destruct cond as [cn|], get as [g|]; try done. cbn [is_null negb andb].
    pose proof (set_ex_spec sm m now (text_of k) (text_of v) o n
      [Some n; Some o; None; None; Some v; Some k] Hh Hg Hvt eq_refl eq_refl Ho Hn) as H'.
    cbn zeta in H'. by destruct (is_word [bs "EX"; bs "EXAT"] o).
  - destruct cond as [cn|], get as [g|]; cbn [is_null negb].
    + exact (set_nxxx_get_spec sm m Hh Hg now (text_of k) (text_of v) cn
        [None; None; Some g; Some cn; Some v; Some k] Hvt eq_refl (Hc _ eq_refl)).
    + exact (set_nx_xx_spec sm m Hh Hg now (text_of k) (text_of v) cn
        [None; None; None; Some cn; Some v; Some k] Hvt eq_refl (Hc _ eq_refl)).
    + exact (set_get_spec sm m Hh Hg now (text_of k) (text_of v) Hvt).
    + exact (set_basic_spec sm m Hh Hg now (text_of k) (text_of v) 0 0 Hvt).
Qed.

End handler.

(** ** Conservation of objects *)

(** The key and value objects reachable from a key space. *)
Definition live (m : keyspace) : list freed :=
  concat (map (fun q => nodes_of q.2) (map_to_list m)).

Lemma live_insert m c p :
  m !! c = None -> live (<[c := p]> m) ≡ₚ nodes_of p ++ live m.
Proof. intros E. unfold live. by rewrite map_to_list_insert. Qed.

Lemma live_delete m c p :
  m !! c = Some p -> live m ≡ₚ nodes_of p ++ live (delete c m).
Proof.
  intros E. rewrite <- live_insert by apply lookup_delete_eq.
  by rewrite insert_delete_id.
Qed.

(** The key and value objects a [SET] creates: none of a request that is refused
    or has an empty key, and the key alone when the value is empty. *)
Definition bare_entry (r : set_request) (now : timespec) : KeyNode * option ValueNode :=
  (key_of (text_of (sr_key r)) 0 0 now, Some (value_of (text_of (sr_value r)))).

Definition set_created (l : list node) (now : timespec) : list freed :=
  match parse_set l with
  | Some r =>
      if decide (text_of (sr_key r) = []) then []
      else if decide (text_of (sr_value r) = []) then [FreedKey (bare_entry r now).1]
      else nodes_of (match command_of r with Some cmd => entry_of cmd now | None => bare_entry r now end)
  | None => []
  end.

(** ... and those it forgets: the pair of an expiry option next to [NX], [XX] or
    [GET]. *)
Definition set_leaked (l : list node) (now : timespec) : list freed :=
  match parse_set l with
  | Some r => if texts_ok r && is_null (command_of r) then nodes_of (bare_entry r now) else []
  | None => []
  end.

Definition is_node (f : freed) : bool :=
  match f with FreedPair => false | _ => true end.

Lemma filter_nodes p : List.filter is_node (nodes_of p ++ [FreedPair]) = nodes_of p.
Proof. by destruct p as [k [v|]]. Qed.

Lemma set_balance cmd now m :
  nodes_of (entry_of cmd now) ++ live m
  ≡ₚ List.filter is_node (set_garbage cmd now m) ++ live (set_store cmd now m).
Proof.
  unfold set_garbage, set_store. destruct (permits _ _); [|by rewrite filter_nodes].
  destruct (m !! sc_key cmd) as [p|] eqn:E.
  - rewrite filter_nodes. rewrite (live_delete m _ _ E).
    rewrite <- (insert_delete_eq m), live_insert by apply lookup_delete_eq.
    rewrite !(assoc_L (++)). by rewrite (Permutation_app_comm (nodes_of (entry_of cmd now))).
  - by rewrite live_insert.
Qed.

Lemma command_of_none r :
  command_of r = None <-> is_Some (sr_expiry r) /\ (is_Some (sr_cond r) \/ is_Some (sr_get r)).
Proof.
  unfold command_of. destruct (sr_expiry r) as [[o n]|]; [|naive_solver].
  destruct (sr_cond r) as [c|], (sr_get r) as [g|]; cbn [is_null negb andb]; try naive_solver.
  split; [by case_if|]. intros [_ [[x E]|[x E]]]; done.
Qed.

Lemma leaks_when l now :
  set_leaked l now <> [] <->
  exists r, parse_set l = Some r /\ texts_ok r = true /\ is_Some (sr_expiry r) /\
    (is_Some (sr_cond r) \/ is_Some (sr_get r)).
Proof.
  unfold set_leaked. destruct (parse_set l) as [r|]; [|naive_solver].
  transitivity (texts_ok r = true /\ command_of r = None).
  - destruct (texts_ok r), (command_of r); cbn; naive_solver.
  - rewrite command_of_none. naive_solver.
Qed.

(** An empty key or value. *)
Lemma handle_set_empty `{Heap} l r sm now :
  Forall arg_ok l -> parse_set l = Some r -> texts_ok r = false ->
  handle_set_cmd l sm now
  = Ok (None, sm, if decide (text_of (sr_key r) = []) then [] else [FreedKey (bare_entry r now).1]).
Proof.
  intros Hl Hp Ht. unfold handle_set_cmd. rewrite validate_spec, Hp by done.
  destruct (request_bulks l r Hl Hp) as (Ek & Ev & Hk & Hv & _).
  pose proof (execute_objects r sm now Ek Ev Hk Hv) as Hx. by rewrite Ht in Hx.
Qed.

(** ** Properties *)

Section properties.
Context `{Heap}.

(** C6. [SET] does what its grammar says: an accepted command with non-empty
    texts and a combination of options the source executes answers, stores and
    frees exactly as its abstract meaning on the finite map prescribes -
    [NX], [XX], [GET] and the lifetimes included - and keeps the store
    well-formed; the argument list is the only thing it depends on. *)
Theorem set_command_semantics l r cmd sm m now :
  Forall arg_ok l -> parse_set l = Some r -> texts_ok r = true -> command_of r = Some cmd ->
  holds sm m -> can_grow sm ->
  exists sm', handle_set_cmd l sm now = Ok (Some (set_reply cmd m), sm', set_garbage cmd now m) /\
    holds sm' (set_store cmd now m).
Proof.
  intros Hl Hp Ht Hc Hh Hg. pose proof (handle_set_spec l r sm m now Hl Hp Ht Hh Hg) as Hs.
  rewrite Hc in Hs. destruct Hs as (sm' & E & H' & _). by exists sm'.
Qed.

(** A [SET] outside the grammar, or with an empty key or value, is
    answered with [NULL] and leaves the store as it is, whatever it holds;
    only the new key object can have been created, and it is freed. *)
Lemma set_refuses l sm now :
  Forall arg_ok l ->
  (parse_set l = None \/ exists r, parse_set l = Some r /\ texts_ok r = false) ->
  exists log, handle_set_cmd l sm now = Ok (None, sm, log) /\
    (log = [] \/ exists k, log = [FreedKey (key_of k 0 0 now)]).
Proof.
  intros Hl [Hp|(r & Hp & Ht)].
  - unfold handle_set_cmd. rewrite validate_spec, Hp by done. simpl. eauto.
  - rewrite (handle_set_empty l r) by done. eexists. split; [done|]. case_decide; unfold bare_entry; eauto.
Qed.

(** An expiry option next to [NX], [XX] or [GET] is accepted by the parser
    and then dropped by the executor: the command is answered with [NULL], and
    neither stored nor released. *)
Lemma set_combined_expiry_dropped l r sm m now :
  Forall arg_ok l -> parse_set l = Some r -> texts_ok r = true -> holds sm m -> can_grow sm ->
  is_Some (sr_expiry r) -> is_Some (sr_cond r) \/ is_Some (sr_get r) ->
  handle_set_cmd l sm now = Ok (None, sm, []).
Proof.
  intros Hl Hp Ht Hh Hg [[o n] He] Ho. pose proof (handle_set_spec l r sm m now Hl Hp Ht Hh Hg) as Hs.
  unfold command_of in Hs. rewrite He in Hs.
  by destruct Ho as [[x E]|[x E]]; rewrite E in Hs; [|destruct (sr_cond r)].
Qed.

(** C27. The [SET]s that do nothing: one outside the grammar or with an empty key
    or value is answered with [NULL] and leaves the store as it is, whatever it
    holds, and only the new key object can have been created, and is freed.
    One that is in the grammar, with an expiry option next to [NX], [XX] or
    [GET], is accepted by the parser and then dropped by the executor: it is
    answered with [NULL] too, neither stored nor released. *)
Theorem set_without_effect l sm now :
  Forall arg_ok l ->
  ((parse_set l = None \/ exists r, parse_set l = Some r /\ texts_ok r = false) ->
   exists log, handle_set_cmd l sm now = Ok (None, sm, log) /\
     (log = [] \/ exists k, log = [FreedKey (key_of k 0 0 now)])) /\
  (forall r m, parse_set l = Some r -> texts_ok r = true -> holds sm m -> can_grow sm ->
   is_Some (sr_expiry r) -> is_Some (sr_cond r) \/ is_Some (sr_get r) ->
   handle_set_cmd l sm now = Ok (None, sm, [])).
Proof.
  intros Hl. split; [by apply set_refuses|]. intros r m. by apply (set_combined_expiry_dropped l r sm m now).
Qed.

(** C14. Every [SET] accounts for its objects, whatever its arguments: the key and
    value objects in the store before the command together with those it creates are
    those it frees together with those in the store afterwards, each as often - but
    for one form: a [SET] in the grammar with an expiry option next to [NX], [XX] or
    [GET] loses the two objects it has created. *)
Theorem set_conserves_objects l sm m now :
  Forall arg_ok l -> holds sm m -> can_grow sm ->
  exists o sm' log m', handle_set_cmd l sm now = Ok (o, sm', log) /\ holds sm' m' /\
    set_created l now ++ live m ≡ₚ List.filter is_node log ++ live m' ++ set_leaked l now /\
    (set_leaked l now <> [] <->
     exists r, parse_set l = Some r /\ texts_ok r = true /\ is_Some (sr_expiry r) /\
       (is_Some (sr_cond r) \/ is_Some (sr_get r))).
Proof.
  intros Hl Hh Hg.
  enough (exists o sm' log m', handle_set_cmd l sm now = Ok (o, sm', log) /\ holds sm' m' /\
    set_created l now ++ live m ≡ₚ List.filter is_node log ++ live m' ++ set_leaked l now) as H'.
  { destruct H' as (o & sm' & log & m' & ? & ? & ?). exists o, sm', log, m'. split_and!; try done. apply leaks_when. }
  unfold set_created, set_leaked. destruct (parse_set l) as [r|] eqn:Hp.
  - destruct (texts_ok r) eqn:Ht; cbn [andb].
    + pose proof (handle_set_spec l r sm m now Hl Hp Ht Hh Hg) as Hs.
      apply andb_true_iff in Ht as [Hk%bool_decide_eq_true_1 Hv%bool_decide_eq_true_1].
      rewrite decide_False by done. rewrite decide_False by done. destruct (command_of r) as [cmd|]; cbn [is_null].
      * destruct Hs as (sm' & E & H' & _). exists (Some (set_reply cmd m)), sm', (set_garbage cmd now m), (set_store cmd now m).
        rewrite app_nil_r. split_and!; [done|done|apply set_balance].
      * exists None, sm, [], m. split_and!; [done|done|exact (Permutation_app_comm _ _)].
    + rewrite (handle_set_empty l r sm now) by done. eexists None, sm, _, m. split_and!; [done|done|].
      rewrite app_nil_r. case_decide; [done|]. case_decide as Hv; [done|].
      unfold texts_ok in Ht. rewrite !bool_decide_eq_true_2 in Ht by done. done.
  - exists None, sm, [], m. rewrite app_nil_r. unfold handle_set_cmd. by rewrite validate_spec, Hp.
Qed.

End properties.

(** ** Witnesses *)

Definition grants_all : Heap := fun _ _ => true.

Definition noon : timespec := mkTimespec 43200 0.

Lemma holds_create : holds create_simple_map ∅.
Proof. split; [apply implements_create | apply map_Forall_empty]. Qed.

Lemma create_can_grow `{Heap} : can_grow (create_simple_map : Store).
Proof. done. Qed.

Definition sample_set : list node := map arg ["k"; "v"; "PX"; "1500"]%string.
Definition sample_cmd : set_command := mkSetCommand (bs "k") (bs "v") Always false 0 1500.

Ltac args_ok := repeat (constructor; [split; [reflexivity | vm_compute; discriminate] |]); constructor.

Lemma set_command_semantics_witness :
  exists sm', @handle_set_cmd grants_all sample_set create_simple_map noon
    = Ok (Some (set_reply sample_cmd ∅), sm', set_garbage sample_cmd noon ∅) /\
    holds sm' (set_store sample_cmd noon ∅).
Proof.
  apply (@set_command_semantics grants_all sample_set
    (mkSetRequest (arg "k") (arg "v") None None (Some (arg "PX", arg "1500")))).
  - args_ok.
  - vm_compute. reflexivity.
  - vm_compute. reflexivity.
  - vm_compute. reflexivity.
  - apply holds_create.
  - apply create_can_grow.
Defined.

Lemma set_without_effect_witness :
  (exists log, @handle_set_cmd grants_all (map arg ["k"; "v"; "GET"; "NX"]%string) create_simple_map noon
     = Ok (None, create_simple_map, log) /\
     (log = [] \/ exists k, log = [FreedKey (key_of k 0 0 noon)])) /\
  @handle_set_cmd grants_all (map arg ["k"; "v"; "NX"; "EX"; "10"]%string) create_simple_map noon
  = Ok (None, create_simple_map, []).
Proof.
  split.
  - apply (@set_without_effect grants_all (map arg ["k"; "v"; "GET"; "NX"]%string) create_simple_map noon).
    + args_ok.
    + left. vm_compute. reflexivity.
  - apply (@set_without_effect grants_all (map arg ["k"; "v"; "NX"; "EX"; "10"]%string) create_simple_map noon)
      with (mkSetRequest (arg "k") (arg "v") (Some (arg "NX")) None (Some (arg "EX", arg "10"))) ∅.
    + args_ok.
    + vm_compute. reflexivity.
    + vm_compute. reflexivity.
    + apply holds_create.
    + apply create_can_grow.
    + eexists. reflexivity.
    + left. eexists. reflexivity.
Defined.

Lemma set_conserves_objects_witness :
  exists o sm' log m',
    @handle_set_cmd grants_all (map arg ["k"; "v"; "NX"; "EX"; "10"]%string) create_simple_map noon = Ok (o, sm', log) /\
    holds sm' m' /\
    set_created (map arg ["k"; "v"; "NX"; "EX"; "10"]%string) noon ++ live ∅
    ≡ₚ List.filter is_node log ++ live m' ++ set_leaked (map arg ["k"; "v"; "NX"; "EX"; "10"]%string) noon /\
    (set_leaked (map arg ["k"; "v"; "NX"; "EX"; "10"]%string) noon <> [] <->
     exists r, parse_set (map arg ["k"; "v"; "NX"; "EX"; "10"]%string) = Some r /\ texts_ok r = true /\
       is_Some (sr_expiry r) /\ (is_Some (sr_cond r) \/ is_Some (sr_get r))).
Proof.
  apply (@set_conserves_objects grants_all (map arg ["k"; "v"; "NX"; "EX"; "10"]%string) create_simple_map ∅ noon).
  - args_ok.
  - apply holds_create.
  - apply create_can_grow.
Defined.

(** There the pair is lost; a plain [SET] loses nothing. *)
Example leaked_pair :
  set_leaked (map arg ["k"; "v"; "NX"; "EX"; "10"]%string) noon
  = [FreedKey (key_of (bs "k") 0 0 noon); FreedValue (value_of (bs "v"))] /\
  set_leaked sample_set noon = [].
Proof. split; reflexivity. Qed.
