(* ===== verification/GetCmd.v ===== *)
(** The [GET] command ([handle_get_cmd] of [cmd_handler.c]): lookup, and
    removal of a key that is found expired. *)

From S2P Require Import Prelude CLib Protocol SimpleMap KeyVal SetParser SetExec.

(** ** Operations *)

(** The arguments are a node and the nodes after it. *)
Definition is_cmd_valid (gnode : list node) : bool :=
  match gnode with
  | [] => false
  | n :: next =>
      match n with
      | NBulk content size =>
          negb (is_null content) && negb (size <? 0) && bool_decide (next = [])
      | _ => false
      end
  end.

Definition handle_get_cmd (gnode : list node) (sm : Store) (now : timespec)
    : res (option (list byte) * Store * list freed) :=
  if negb (is_cmd_valid gnode) then Ok (None, sm, [])
  else
    match gnode with
    | NBulk content size :: _ =>
        key ← create_key_node content 0 0 size now;
        match key with
        | None => Ok (None, sm, [])
        | Some new_key =>
            kvp ← get sm key compare;
            match kvp with
            | None => Ok (Some nil_reply, sm, clean_up_kv key None)
            | Some kvp =>
                match kvp_value kvp, kvp_key kvp with
                | Some value, Some prev_key =>
                    expired ← has_key_expired new_key prev_key;
                    if (expired : bool) then
                      '(rtn, sm, removed_kvp) ← remove_key sm key compare;
                      match rtn with
                      | REMOVE_ERROR => Ok (None, sm, clean_up_kv key None ++ [FreedPair])
                      | REMOVE_KEY_NOT_FOUND =>
                          Ok (Some nil_reply, sm, clean_up_kv key None ++ [FreedPair])
                      | REMOVE_SUCCESS =>
                          removed ← deref removed_kvp;
                          Ok (Some nil_reply, sm, clean_up_kv key None ++
                              clean_up_kv (kvp_key removed) (kvp_value removed) ++ [FreedPair])
                      end
                    else if decide (vn_dtype value = BULK_STR) then
                      '(_, rtn) ← key_or_value_node_to_string (Some (inr value));
                      Ok (rtn, sm, clean_up_kv key None ++ [FreedPair])
                    else Ok (None, sm, clean_up_kv key None ++ [FreedPair])
                | _, _ => Ok (None, sm, clean_up_kv key None ++ [FreedPair])
                end
            end
        end
    | _ => UB
    end.

(** ** The meaning of [GET] on a finite map *)

(** Whether a key object has outlived its lifetime at [now]. *)
Definition expired_at (now : timespec) (k : KeyNode) : bool :=
  negb ((kn_ex k =? 0) && (kn_px k =? 0)) &&
  match kn_input_time k with
  | Some t => ttl_passed now t (kn_ex k) (kn_px k)
  | None => false
  end.

Definition fresh (now : timespec) (old : option (KeyNode * option ValueNode)) : bool :=
  match old with Some p => negb (expired_at now p.1) | None => false end.

Definition get_reply (c : list byte) (now : timespec) (m : keyspace) : list byte :=
  if fresh now (m !! c) then value_reply (m !! c) else nil_reply.

Definition get_store (c : list byte) (now : timespec) (m : keyspace) : keyspace :=
  if fresh now (m !! c) then m else delete c m.

Section lemmas.
Context `{Heap}.
Implicit Types (sm : Store) (m : keyspace).

Lemma has_key_expired_at c now k :
  is_Some (kn_input_time k) -> has_key_expired (key_of c 0 0 now) k = Ok (expired_at now k).
Proof.
  intros [t E]. unfold has_key_expired, expired_at. rewrite E.
  by destruct ((kn_ex k =? 0) && (kn_px k =? 0)).
Qed.

Lemma store_remove sm m key :
  holds sm m -> kn_ok key ->
  exists sm', remove_key sm (Some key) compare
      = Ok (match m !! kn_ident key with
            | None => REMOVE_KEY_NOT_FOUND | Some _ => REMOVE_SUCCESS end, sm',
            (fun p => mkKVP (Some p.1) p.2) <$> m !! kn_ident key) /\
    holds sm' (delete (kn_ident key) m) /\ grows sm sm'.
Proof.
  intros [Hi Hs] Hk. destruct (implements_remove compare kn_ok kn_ident sm m key Hi Hk) as (sm' & E & Hi' & Hgr).
  exists sm'. split; [exact E|]. split; [|exact Hgr]. split; [exact Hi'|]. by apply map_Forall_delete.
Qed.

Lemma handle_get_spec c sm m now :
  text_ok c -> holds sm m ->
  exists sm' log, handle_get_cmd [bulk c] sm now = Ok (Some (get_reply c now m), sm', log) /\
    holds sm' (get_store c now m) /\
    FreedKey (key_of c 0 0 now) :: live m ≡ₚ List.filter is_node log ++ live (get_store c now m) /\
    grows sm sm'.
Proof.
  intros Hc Hh. unfold handle_get_cmd, get_reply, get_store.
  assert (is_cmd_valid [bulk c] = true) as ->.
  { unfold is_cmd_valid, bulk. cbn [is_null negb andb].
    rewrite bool_decide_eq_true_2 by done. rewrite andb_true_r. apply negb_true_iff, Z.ltb_ge. lia. }
  cbn [negb bulk]. rewrite create_key_node_text by done. cbn [mbind res_bind].
  rewrite (store_get sm m) by done. cbn [mbind res_bind].
  change (kn_ident (key_of c 0 0 now)) with c.
  destruct (m !! c) as [p|] eqn:E; simpl.
  2: { exists sm, [FreedKey (key_of c 0 0 now)]. rewrite delete_id by done. simpl. auto using grows_refl. }
  destruct (old_value_reply sm m c p Hh E) as (v & Ep & Hb & n & Hn). rewrite Ep.
  assert (is_Some (kn_input_time p.1)) as Ht by (destruct Hh as [_ Hs]; by destruct (Hs c p E)).
  rewrite (has_key_expired_at c now) by done. cbn [mbind res_bind].
  destruct (expired_at now p.1); cbn [negb].
  - destruct (store_remove sm m (key_of c 0 0 now) Hh (key_of_ok _ _ _ _)) as (sm' & Er & H' & Hgr).
    change (kn_ident (key_of c 0 0 now)) with c in *. rewrite E in Er. rewrite Er. simpl. rewrite Ep.
    eexists sm', _. split; [done|]. split; [done|]. split; [|done].
    rewrite (live_delete m c p E). unfold nodes_of. rewrite Ep. simpl. done.
  - apply andb_true_iff in Hb as [Hb%bool_decide_eq_true_1 _]. rewrite decide_True by done. rewrite Hn. simpl.
    eexists sm, _. split; [done|]. split; [done|]. split; [done|]. apply grows_refl.
Qed.

(** ** Properties *)

(** C8. [GET] answers the value stored under a key, or nil when there is none
    or its lifetime has passed; an expired key is removed, and nothing else
    changes; the objects freed are its probe and those of a removed key. *)
Theorem get_command_semantics c sm m now :
  text_ok c -> holds sm m ->
  exists sm' log, handle_get_cmd [bulk c] sm now = Ok (Some (get_reply c now m), sm', log) /\
    holds sm' (get_store c now m) /\
    FreedKey (key_of c 0 0 now) :: live m ≡ₚ List.filter is_node log ++ live (get_store c now m).
Proof.
  intros Hc Hh. destruct (handle_get_spec c sm m now Hc Hh) as (sm' & log & ? & ? & ? & _).
  by exists sm', log.
Qed.

(** The lifetime an expiry option gives. *)
Lemma command_lifetime r cmd now :
  command_of r = Some cmd ->
  (entry_of cmd now).1 = match sr_expiry r with
                         | None => key_of (sc_key cmd) 0 0 now
                         | Some (o, n) =>
                             let time := string_to_uint (text_of n) in
                             if is_word [bs "EX"; bs "EXAT"] o then key_of (sc_key cmd) time 0 now
                             else key_of (sc_key cmd) 0 time now
                         end.
Proof.
  unfold command_of. destruct (sr_expiry r) as [[o n]|]; [|by intros [= <-]].
  case_if; [|done]. case_if; intros [= <-]; done.
Qed.

(** C7. What [SET] stores, [GET] returns: after an accepted [SET] of any form whose
    condition held, a later [GET] of the key answers the new value as long as its
    lifetime has not passed, and nil afterwards; [GET] of another key answers as if
    the [SET] had not been made. The lifetime is counted from the [SET] on for every
    expiry option: [EXAT n] is [EX n] and [PXAT n] is [PX n], where the README
    documents them as points in unix time. *)
Theorem get_after_set l r cmd sm m now now' c :
  Forall arg_ok l -> parse_set l = Some r -> texts_ok r = true -> command_of r = Some cmd ->
  holds sm m -> can_grow sm -> text_ok c -> permits (sc_cond cmd) (m !! sc_key cmd) = true ->
  exists o sm1 log1 sm2 log2,
    handle_set_cmd l sm now = Ok (o, sm1, log1) /\
    handle_get_cmd [bulk c] sm1 now'
    = Ok (Some (if decide (c = sc_key cmd)
                then if expired_at now' (entry_of cmd now).1 then nil_reply
                     else encode (bulk (sc_value cmd))
                else get_reply c now' m), sm2, log2) /\
    (entry_of cmd now).1 = match sr_expiry r with
                           | None => key_of (sc_key cmd) 0 0 now
                           | Some (o, n) =>
                               let time := string_to_uint (text_of n) in
                               if is_word [bs "EX"; bs "EXAT"] o then key_of (sc_key cmd) time 0 now
                               else key_of (sc_key cmd) 0 time now
                           end.
Proof.
  intros Hl Hp Ht Hc Hh Hg Htext Hperm. pose proof (handle_set_spec l r sm m now Hl Hp Ht Hh Hg) as Hs.
  rewrite Hc in Hs. destruct Hs as (sm1 & E1 & H1 & _).
  destruct (handle_get_spec c sm1 _ now' Htext H1) as (sm2 & log2 & E2 & _).
  eexists _, sm1, _, sm2, log2. split; [exact E1|]. split; [|by apply command_lifetime].
  rewrite E2. do 4 f_equal.
  unfold get_reply, set_store. rewrite Hperm. case_decide as Hk.
  - subst c. rewrite lookup_insert_eq. unfold fresh. by destruct (expired_at _ _).
  - by rewrite lookup_insert_ne by done.
Qed.

(** A [GET] with no argument, several, or one that is not a non-empty bulk
    string is answered with [NULL]; the store is not touched. *)
Lemma get_refuses l sm now :
  Forall arg_ok l -> (forall c, l = [bulk c] -> c = []) ->
  handle_get_cmd l sm now = Ok (None, sm, []).
Proof.
  intros Hl Hn. unfold handle_get_cmd. destruct (is_cmd_valid l) eqn:E; [|done]. cbn [negb].
  destruct l as [|[[c|] z| |] l]; try done. simpl in E.
  apply andb_true_iff in E as [_ ->%bool_decide_eq_true_1].
  apply Forall_cons in Hl as [[-> _] _]. by rewrite (Hn c eq_refl).
Qed.
End lemmas.

(** ** Witnesses *)

Lemma get_command_semantics_witness :
  exists sm' log, handle_get_cmd [bulk (bs "k")] create_simple_map noon
    = Ok (Some (get_reply (bs "k") noon ∅), sm', log) /\
    holds sm' (get_store (bs "k") noon ∅) /\
    FreedKey (key_of (bs "k") 0 0 noon) :: live ∅
    ≡ₚ List.filter is_node log ++ live (get_store (bs "k") noon ∅).
Proof.
  apply (get_command_semantics (bs "k") create_simple_map ∅ noon).
  - vm_compute. split; discriminate.
  - apply holds_create.
Defined.

Lemma get_after_set_witness :
  exists o sm1 log1 sm2 log2,
    @handle_set_cmd grants_all (map arg ["k"; "v"; "PXAT"; "1500"]%string) create_simple_map noon = Ok (o, sm1, log1) /\
    handle_get_cmd [bulk (bs "k")] sm1 (mkTimespec 43201 0)
    = Ok (Some (if decide (bs "k" = sc_key sample_cmd)
                then if expired_at (mkTimespec 43201 0) (entry_of sample_cmd noon).1 then nil_reply
                     else encode (bulk (sc_value sample_cmd))
                else get_reply (bs "k") (mkTimespec 43201 0) ∅), sm2, log2) /\
    (entry_of sample_cmd noon).1 = key_of (bs "k") 0 1500 noon.
Proof.
  apply (@get_after_set grants_all (map arg ["k"; "v"; "PXAT"; "1500"]%string)
    (mkSetRequest (arg "k") (arg "v") None None (Some (arg "PXAT", arg "1500"))) sample_cmd
    create_simple_map ∅ noon (mkTimespec 43201 0) (bs "k")).
  - args_ok.
  - vm_compute. reflexivity.
  - vm_compute. reflexivity.
  - vm_compute. reflexivity.
  - apply holds_create.
  - apply create_can_grow.
  - vm_compute. split; discriminate.
  - reflexivity.
Defined.

Lemma get_refuses_witness :
  handle_get_cmd (map arg ["k"; "l"]%string) create_simple_map noon = Ok (None, create_simple_map, []).
Proof.
  apply (get_refuses (map arg ["k"; "l"]%string) create_simple_map noon).
  - args_ok.
  - intros c E. discriminate.
Defined.
