(* ===== verification/Match.v ===== *)
(** String matching ([does_the_strings_match] of [util.c]) and the command
    tables it searches ([find_redis_cmd] of [cmd_handler.c] and the table of
    [CONFIG] options).  [fnmatch] is the C library's: a parameter, with the
    documented behaviour the tables rely on as a class of laws, and an instance
    with [*], [?] and plain characters that shows the laws can hold. *)

From S2P Require Import Prelude CLib.

(** ** [fnmatch(pattern, string, FNM_CASEFOLD)] *)

Class Fnmatch := fnmatch : list byte -> list byte -> bool.

Definition to_lower (b : byte) : byte :=
  if (65 <=? byte_val b) && (byte_val b <=? 90) then byte_of (byte_val b + 32) else b.

Definition fold_case (l : list byte) : list byte := map to_lower l.

(** The characters with a meaning of their own in a pattern. *)
Definition special : list byte := bs "*?[\".

Definition plain (p : list byte) : bool := forallb (fun b => bool_decide (b ∉ special)) p.

(** A pattern of plain characters matches the strings equal to it up to case. *)
Class FnmatchLaws `{Fnmatch} : Prop :=
  fnmatch_plain p s : plain p = true -> nul_free p -> nul_free s ->
    fnmatch p s = bool_decide (fold_case p = fold_case s).

(** ** [util.c] *)

Inductive MatchErrorState := MATCH_ERROR | MATCH | NO_MATCH.

Definition does_the_strings_match `{Fnmatch} (pattern target : option (list byte)) : MatchErrorState :=
  match pattern, target with
  | Some p, Some t => if fnmatch (c_str p) (c_str t) then MATCH else NO_MATCH
  | _, _ => MATCH_ERROR
  end.

(** [compare_str]: whether the result is a non-null pointer. *)
Definition compare_str (key_a key_b : option (list byte)) : res bool :=
  match key_a, key_b with
  | Some a, Some b => Ok (strcmp_eq a b)
  | _, _ => Ok false
  end.

(** ** Tables *)

Inductive RedisCommand := NULL_CMD | ECHO | SET | GET | CONFIG.
Inductive ConfigCmdOptions := CONF_GET | CONF_SET | INVALID_CONF_OPTION.

#[export] Instance RedisCommand_eq_dec : EqDecision RedisCommand.
Proof. solve_decision. Defined.
#[export] Instance ConfigCmdOptions_eq_dec : EqDecision ConfigCmdOptions.
Proof. solve_decision. Defined.

Definition command_table : list (option (list byte) * RedisCommand) :=
  [(Some (bs "ECHO"), ECHO); (Some (bs "SET"), SET); (Some (bs "GET"), GET);
   (Some (bs "CONFIG"), CONFIG); (None, NULL_CMD)].

Definition config_cmd_options : list (option (list byte) * ConfigCmdOptions) :=
  [(Some (bs "GET"), CONF_GET); (Some (bs "SET"), CONF_SET); (None, INVALID_CONF_OPTION)].

(** The loop [for(item = t[i]; item.name; item = t[i++])] of both searches: the
    entry 0 is visited twice.  [None]: the end mark or an error was met. *)
Fixpoint table_loop `{Fnmatch} {A} (fuel : nat) (t : list (option (list byte) * A))
    (item : option (list byte) * A) (i : Z) (cmd : option (list byte)) : res (option A) :=
  match item.1 with
  | None => Ok None
  | Some name =>
      match fuel with
      | O => OOF
      | S fuel =>
          match does_the_strings_match (Some name) cmd with
          | MATCH => Ok (Some item.2)
          | MATCH_ERROR => Ok None
          | NO_MATCH =>
              item ← aread t i;
              table_loop fuel t item (uint8 (i + 1)) cmd
          end
      end
  end.

Definition search_table `{Fnmatch} {A} (t : list (option (list byte) * A))
    (cmd : option (list byte)) : res (option A) :=
  item ← aread t 0;
  table_loop (S (length t)) t item 0 cmd.

Definition find_redis_cmd `{Fnmatch} (cmd : option (list byte)) : res RedisCommand :=
  r ← search_table command_table cmd;
  Ok (default NULL_CMD r).

(** ** Searching a table is finding a name up to case *)

Fixpoint table_find {A} (t : list (option (list byte) * A)) (cmd : list byte) : option A :=
  match t with
  | (Some name, a) :: t =>
      if decide (fold_case name = fold_case cmd) then Some a else table_find t cmd
  | _ => None
  end.

(** A table of literal names closed by its end mark. *)
Definition table_ok {A} (t : list (option (list byte) * A)) : Prop :=
  exists entries mark, t = map (fun e => (Some e.1, e.2)) entries ++ [(None, mark)] /\
    Forall (fun e => plain e.1 = true /\ nul_free e.1) entries /\
    entries <> [] /\ (length entries < 255)%nat.

Section search.
Context `{FnmatchLaws}.

Lemma match_literal name cmd :
  plain name = true -> nul_free name ->
  does_the_strings_match (Some name) (Some cmd)
  = if decide (fold_case name = fold_case (c_str cmd)) then MATCH else NO_MATCH.
Proof.
  intros Hp Hn. unfold does_the_strings_match. rewrite c_str_nul_free by done.
  rewrite fnmatch_plain by auto with redis. by case_bool_decide; case_decide.
Qed.

Lemma table_loop_step {A} fuel (t : list (option (list byte) * A)) name a i cmd :
  plain name = true -> nul_free name ->
  table_loop (S fuel) t (Some name, a) i (Some cmd)
  = if decide (fold_case name = fold_case (c_str cmd)) then Ok (Some a)
    else item ← aread t i; table_loop fuel t item (uint8 (i + 1)) (Some cmd).
Proof. intros Hp Hn. cbn [table_loop fst snd]. rewrite match_literal by done. by case_decide. Qed.

Lemma table_loop_spec {A} (e1 e2 : list (list byte * A)) mark cmd fuel :
  let t := map (fun e => (Some e.1, e.2)) (e1 ++ e2) ++ [(None, mark)] in
  Forall (fun e => plain e.1 = true /\ nul_free e.1) e2 ->
  (length (e1 ++ e2) < 255)%nat -> (length e2 <= fuel)%nat ->
  (item ← aread t (Z.of_nat (length e1));
   table_loop fuel t item (uint8 (Z.of_nat (length e1) + 1)) (Some cmd))
  = Ok (table_find (map (fun e => (Some e.1, e.2)) e2 ++ [(None, mark)]) (c_str cmd)).
Proof.
  intros t He. revert e1 fuel t. induction e2 as [|[name a] e2 IH]; intros e1 fuel t Hlen Hf; unfold t.
  - rewrite app_nil_r. rewrite <- (length_map (fun e => (Some e.1, e.2)) e1) at 1.
    rewrite aread_middle. simpl. by destruct fuel.
  - apply Forall_cons in He as [[Hp Hn] He]. specialize (IH He (e1 ++ [(name, a)])).
    cbn zeta in IH. rewrite <- (assoc_L (++)) in IH. cbn [app] in IH.
    rewrite map_app. cbn [map fst snd]. rewrite <- (assoc_L (++)). cbn [app].
    rewrite <- (length_map (fun e => (Some e.1, e.2)) e1) at 1.
    rewrite aread_middle. cbn [mbind res_bind]. destruct fuel as [|fuel]; [simpl in Hf; lia|].
    rewrite table_loop_step by done. cbn [table_find].
    case_decide; [done|].
    rewrite length_app in Hlen. cbn [length] in Hlen.
    assert (uint8 (Z.of_nat (length e1) + 1) = Z.of_nat (length (e1 ++ [(name, a)]))) as ->.
    { rewrite length_app. cbn [length]. unfold uint8. rewrite Z.mod_small; lia. }
    rewrite <- (IH fuel) by (rewrite ?length_app; simpl in *; lia).
    rewrite map_app. cbn [map fst snd]. rewrite <- (assoc_L (++)). done.
Qed.

Lemma search_table_spec {A} (t : list (option (list byte) * A)) cmd :
  table_ok t -> search_table t (Some cmd) = Ok (table_find t (c_str cmd)).
Proof.
  intros (entries & mark & -> & He & Hne & Hlen). unfold search_table.
  destruct entries as [|[name a] entries]; [done|].
  rewrite length_app, length_map. cbn [length map app].
  rewrite aread_head. cbn [mbind res_bind fst snd].
  apply Forall_cons in He as He'. destruct He' as [[Hp Hn] _].
  rewrite table_loop_step by done. cbn [table_find]. case_decide as E; [done|].
  replace (S (length entries) + 1)%nat with (S (S (length entries))) by lia.
  pose proof (table_loop_spec [] ((name, a) :: entries) mark cmd (S (S (length entries)))) as Hs.
  cbn [app length map fst snd] in Hs. cbn zeta in Hs.
  change (Z.of_nat 0) with 0 in Hs. rewrite Hs; [|done|simpl in *; lia|lia].
  cbn [table_find]. by rewrite decide_False by done.
Qed.

Lemma command_table_ok : table_ok command_table.
Proof.
  exists [(bs "ECHO", ECHO); (bs "SET", SET); (bs "GET", GET); (bs "CONFIG", CONFIG)], NULL_CMD.
  split; [done|]. split; [|split; [done|simpl; lia]].
  repeat (constructor; [split; [done | nul_free_literal]|]). constructor.
Qed.

Lemma config_cmd_options_ok : table_ok config_cmd_options.
Proof.
  exists [(bs "GET", CONF_GET); (bs "SET", CONF_SET)], INVALID_CONF_OPTION.
  split; [done|]. split; [|split; [done|simpl; lia]].
  repeat (constructor; [split; [done | nul_free_literal]|]). constructor.
Qed.

Lemma find_redis_cmd_spec cmd :
  find_redis_cmd (Some cmd) = Ok (default NULL_CMD (table_find command_table (c_str cmd))).
Proof. unfold find_redis_cmd. by rewrite search_table_spec by apply command_table_ok. Qed.

End search.

(** ** An instance: [*], [?] and plain characters *)

Fixpoint glob (p : list byte) : list byte -> bool :=
  match p with
  | [] => fun s => bool_decide (s = [])
  | c :: p =>
      if decide (c = "*"%byte) then
        (fix star (s : list byte) : bool :=
           glob p s || match s with [] => false | _ :: s => star s end)
      else fun s =>
        match s with
        | [] => false
        | d :: s => (bool_decide (c = "?"%byte) || bool_decide (to_lower c = to_lower d)) && glob p s
        end
  end.

Lemma glob_laws : @FnmatchLaws glob.
Proof.
  intros p s Hp _ _. unfold fnmatch. revert s. induction p as [|c p IH]; intros s.
  - simpl. destruct s; done.
  - simpl in Hp. apply andb_true_iff in Hp as [Hc%bool_decide_eq_true_1 Hp].
    assert (c <> "*"%byte /\ c <> "?"%byte) as [Hstar Hq].
    { split; intros ->; apply Hc; vm_compute; set_solver. }
    simpl. rewrite decide_False by done. destruct s as [|d s]; [done|].
    rewrite (bool_decide_eq_false_2 (c = _)) by done. rewrite IH by done. simpl.
    do 2 case_bool_decide; rewrite ?bool_decide_eq_true_2, ?bool_decide_eq_false_2 by congruence; done.
Qed.

(** ** Property *)

(** Command names are recognised whatever their case, and nothing else is
    taken for a command; the search ends although it reads entry 0 twice. *)
Lemma find_redis_cmd_names `{FnmatchLaws} cmd :
  exists c, find_redis_cmd (Some cmd) = Ok c /\
    match c with
    | ECHO => fold_case (c_str cmd) = bs "echo"
    | SET => fold_case (c_str cmd) = bs "set"
    | GET => fold_case (c_str cmd) = bs "get"
    | CONFIG => fold_case (c_str cmd) = bs "config"
    | NULL_CMD => fold_case (c_str cmd) ∉ [bs "echo"; bs "set"; bs "get"; bs "config"]
    end.
Proof.
  eexists. split; [apply find_redis_cmd_spec|]. unfold command_table, table_find.
  change (fold_case (bs "ECHO")) with (bs "echo"). change (fold_case (bs "SET")) with (bs "set").
  change (fold_case (bs "GET")) with (bs "get"). change (fold_case (bs "CONFIG")) with (bs "config").
  repeat case_decide; simpl; try congruence. rewrite !not_elem_of_cons. split_and!; try congruence.
  all: by apply not_elem_of_nil.
Qed.

Example find_config :
  exists c, @find_redis_cmd glob (Some (bs "cOnFig")) = Ok c /\
    match c with
    | ECHO => fold_case (c_str (bs "cOnFig")) = bs "echo"
    | SET => fold_case (c_str (bs "cOnFig")) = bs "set"
    | GET => fold_case (c_str (bs "cOnFig")) = bs "get"
    | CONFIG => fold_case (c_str (bs "cOnFig")) = bs "config"
    | NULL_CMD => fold_case (c_str (bs "cOnFig")) ∉ [bs "echo"; bs "set"; bs "get"; bs "config"]
    end.
Proof. apply (@find_redis_cmd_names glob glob_laws (bs "cOnFig")). Defined.
