(* ===== verification/Echo.v ===== *)
(** The [ECHO] command ([__handle_echo_cmd] of [cmd_handler.c]): the text of
    the arguments is built from the last to the first, in buffers sized by a
    running total shared by the whole recursion. *)

From S2P Require Import Prelude CLib Protocol SetExec.

Definition MAX_BYTES_ARR_SIZE : Z := 20.
Definition MAX_BYTES_BULK_STR : Z := 9.

(** The argument of a [%s]: the C library prints a null pointer as text. *)
Definition percent_s (s : option (list byte)) : list byte :=
  match s with None => bs "(null)" | Some t => c_str t end.

(** [calloc(size+1)] then [snprintf] of at most [size] characters, as the text
    of the object. *)
Definition sprint_alloc (size : Z) (text : list byte) : res (list byte) :=
  ub_unless ((0 <=? size) && (size <? INT_MAX)) (Ok (snprintf (size + 1) text)).

(** The fuel bounds the nodes visited; [size] is the running total. *)
Fixpoint __handle_echo_cmd (fuel : nat) (node : list node) (size : Z)
    : res (option (list byte) * Z) :=
  match node with
  | [] => Ok (None, size)
  | n :: rest =>
      match fuel with
      | O => OOF
      | S fuel =>
          match n with
          | NArray content arr_size =>
              '(elements, size) ← __handle_echo_cmd fuel content size;
              '(next, size) ← __handle_echo_cmd fuel rest size;
              let arr_size_s := snprintf (MAX_BYTES_ARR_SIZE + 1) (decimal arr_size) in
              let size := size + (strlen arr_size_s + 3) in
              rtn ← sprint_alloc size (ASTERISK_BYTE :: decimal arr_size ++ crlf ++
                      percent_s elements ++ percent_s next);
              Ok (Some rtn, size)
          | NBulk content bulk_size =>
              '(next, size) ← __handle_echo_cmd fuel rest size;
              let bs_size := snprintf (MAX_BYTES_BULK_STR + 1) (decimal bulk_size) in
              text ← deref content;
              let size := size + (strlen bs_size + 5 + strlen text) in
              rtn ← sprint_alloc size (DOLLAR_BYTE :: decimal bulk_size ++ crlf ++
                      percent_s content ++ crlf ++ percent_s next);
              Ok (Some rtn, size)
          | NArrayBase _ _ =>
              (* the content is not a node: its type is read as an address *)
              UB
          end
      end
  end.

(** The number of nodes of a message, which bounds the recursion. *)
Fixpoint weight (n : node) : nat :=
  match n with
  | NArray l _ => S ((fix go (l : list node) : nat :=
      match l with [] => O | n :: l => weight n + go l end) l)%nat
  | _ => 1
  end.

Fixpoint weights (l : list node) : nat :=
  match l with [] => O | n :: l => (weight n + weights l)%nat end.

Definition handle_echo_cmd (fst_nod : list node) : res (option (list byte)) :=
  '(ret_val, _) ← __handle_echo_cmd (weights fst_nod) fst_nod 0;
  Ok ret_val.

(** ** Flat lists of bulk strings *)

Lemma weight_pos n : (1 <= weight n)%nat.
Proof. destruct n; simpl; lia. Qed.

Lemma weight_array l z : weight (NArray l z) = S (weights l).
Proof. done. Qed.

(** The recursion never runs out of fuel. *)
Lemma echo_not_OOF fuel l size :
  (weights l <= fuel)%nat -> __handle_echo_cmd fuel l size <> OOF.
Proof.
  assert (forall z t, sprint_alloc z t <> OOF) as Hs.
  { intros z t. unfold sprint_alloc, ub_unless. by case_if. }
  revert l size. induction fuel as [|fuel IH]; intros [|n l] size Hf; try done.
  { simpl in Hf. pose proof (weight_pos n). lia. }
  cbn [weights] in Hf. pose proof (weight_pos n). cbn [__handle_echo_cmd].
  destruct n as [c z|es z|t z]; [| |done].
  - apply bind_not_OOF; [apply IH; lia|]. intros [nx s1] _.
    apply bind_not_OOF; [by destruct c|]. intros tx _. by apply bind_not_OOF.
  - rewrite weight_array in Hf. apply bind_not_OOF; [apply IH; lia|]. intros [el s1] _.
    apply bind_not_OOF; [apply IH; lia|]. intros [nx s2] _. by apply bind_not_OOF.
Qed.

Lemma snprintf_prefix (text rest : list byte) :
  snprintf (Z.of_nat (length text) + 1) (text ++ rest) = text.
Proof.
  unfold snprintf. replace (Z.to_nat (Z.of_nat (length text) + 1 - 1)) with (length text) by lia.
  by rewrite take_app_length.
Qed.

(** The texts [ECHO] can print: no NUL, a size of at most nine digits. *)
Definition echo_ok (c : list byte) : Prop :=
  nul_free c /\ Z.of_nat (length c) <= PROTO_MAX_BULK_SIZE.

#[export] Instance echo_ok_dec c : Decision (echo_ok c).
Proof. unfold echo_ok. apply _. Defined.

Lemma encode_bulk c :
  encode (bulk c) = DOLLAR_BYTE :: decimal (Z.of_nat (length c)) ++ crlf ++ c ++ crlf.
Proof. done. Qed.

Lemma encode_bulk_length c :
  length (encode (bulk c)) = (length (decimal (Z.of_nat (length c))) + 5 + length c)%nat.
Proof. rewrite encode_bulk. simpl. rewrite !length_app. simpl. rewrite length_app. simpl. lia. Qed.

Lemma nul_free_encode c : echo_ok c -> nul_free (encode (bulk c)).
Proof.
  intros [Hc _]. rewrite encode_bulk. apply nul_free_cons. split; [done|].
  rewrite !nul_free_app. split_and!; auto with redis; nul_free_literal.
Qed.

Lemma nul_free_encodes cs : Forall echo_ok cs -> nul_free (encode_nodes (map bulk cs)).
Proof.
  induction 1 as [|c cs Hc _ IH]; [nul_free_literal|]. cbn [map encode_nodes].
  rewrite nul_free_app. split; [by apply nul_free_encode | done].
Qed.

Lemma echo_flat cs fuel :
  Forall echo_ok cs -> (length cs <= fuel)%nat ->
  Z.of_nat (length (encode_nodes (map bulk cs))) < INT_MAX ->
  __handle_echo_cmd fuel (map bulk cs) 0
  = Ok (if decide (cs = []) then None else Some (encode_nodes (map bulk cs)),
        Z.of_nat (length (encode_nodes (map bulk cs)))).
Proof.
  intros Hcs. revert fuel. induction Hcs as [|c cs Hc Hcs IH]; intros fuel Hf Hmax.
  { by destruct fuel. }
  destruct fuel as [|fuel]; [simpl in Hf; lia|]. simpl in Hf.
  cbn [map encode_nodes] in *. rewrite length_app in Hmax. 
  cbn [__handle_echo_cmd bulk]. rewrite IH by lia. cbn [mbind res_bind deref percent_s].
  pose proof Hc as [Hnul Hlen].
  assert (length (decimal (Z.of_nat (length c))) <= 9)%nat as Hd.
  { rewrite decimal_nonneg by lia. apply dec_digits_length; [lia|].
    unfold PROTO_MAX_BULK_SIZE in Hlen. lia. }
  rewrite snprintf_fits by (unfold MAX_BYTES_BULK_STR; lia).
  rewrite !strlen_nul_free, c_str_nul_free by auto with redis.
  set (e := encode (bulk c)) in *. set (es := encode_nodes (map bulk cs)) in *.
  assert (Z.of_nat (length es) + (Z.of_nat (length (decimal (Z.of_nat (length c)))) + 5 + Z.of_nat (length c))
    = Z.of_nat (length (e ++ es))) as ->.
  { unfold e. rewrite length_app, encode_bulk_length. lia. }
  assert (DOLLAR_BYTE :: decimal (Z.of_nat (length c)) ++ crlf ++ c ++ crlf ++
      percent_s (if decide (cs = []) then None else Some es)
    = (e ++ es) ++ (if decide (cs = []) then bs "(null)" else [])) as ->.
  { unfold e. rewrite encode_bulk. cbn [app]. f_equal. rewrite <- !(assoc_L (++)). do 4 f_equal.
    case_decide as E.
    - unfold es. by rewrite E.
    - unfold percent_s. rewrite app_nil_r. apply c_str_nul_free. by apply nul_free_encodes. }
  unfold sprint_alloc, ub_unless. rewrite length_app. if_true.
  rewrite <- length_app, snprintf_prefix. done.
Qed.

Lemma handle_echo_flat cs :
  cs <> [] -> Forall echo_ok cs -> Z.of_nat (length (encode_nodes (map bulk cs))) < INT_MAX ->
  handle_echo_cmd (map bulk cs) = Ok (Some (encode_nodes (map bulk cs))).
Proof.
  intros Hne Hcs Hmax. unfold handle_echo_cmd.
  assert (weights (map bulk cs) = length cs) as ->.
  { clear. induction cs as [|c cs IH]; [done|]. cbn [map weights length]. by rewrite IH. }
  rewrite echo_flat by done. simpl. by rewrite decide_False.
Qed.

(** ** Properties *)

(** [ECHO] of bulk strings without NUL answers their wire forms one after
    the other, exactly: the text [(null)] printed for the missing argument
    after the last is cut off by the size of the buffer. *)
Lemma echo_flat_exact cs :
  cs <> [] -> Forall echo_ok cs -> Z.of_nat (length (encode_nodes (map bulk cs))) < INT_MAX ->
  handle_echo_cmd (map bulk cs) = Ok (Some (encode_nodes (map bulk cs))).
Proof. apply handle_echo_flat. Qed.

Lemma take_nested {A} n k (a b : list A) :
  (n <= length a + k)%nat -> take n (a ++ take k b) = take n (a ++ b).
Proof. intros H. rewrite !take_app, take_take. do 2 f_equal. lia. Qed.

(** A last bulk string, when the running total is [size] already. *)
Lemma echo_last c size fuel :
  echo_ok c -> 6 <= size -> size + Z.of_nat (length (encode (bulk c))) < INT_MAX ->
  __handle_echo_cmd (S fuel) [bulk c] size
  = Ok (Some (encode (bulk c) ++ bs "(null)"), size + Z.of_nat (length (encode (bulk c)))).
Proof.
  intros Hc Hs Hmax. cbn [__handle_echo_cmd bulk].
  assert (__handle_echo_cmd fuel [] size = Ok (None, size)) as -> by (by destruct fuel).
  cbn [mbind res_bind deref percent_s]. pose proof Hc as [Hnul Hlen].
  assert (length (decimal (Z.of_nat (length c))) <= 9)%nat as Hd.
  { rewrite decimal_nonneg by lia. apply dec_digits_length; [lia|].
    unfold PROTO_MAX_BULK_SIZE in Hlen. lia. }
  rewrite snprintf_fits by (unfold MAX_BYTES_BULK_STR; lia).
  rewrite !strlen_nul_free, c_str_nul_free by auto with redis.
  rewrite encode_bulk_length in *. unfold sprint_alloc, ub_unless. if_true. cbn [mbind res_bind].
  do 2 f_equal; [|lia]. f_equal.
  transitivity (snprintf (size + (Z.of_nat (length (decimal (Z.of_nat (length c)))) + 5 + Z.of_nat (length c)) + 1)
    (encode (bulk c) ++ bs "(null)")).
  { f_equal. rewrite encode_bulk. cbn [app]. f_equal. by rewrite <- !(assoc_L (++)). }
  apply snprintf_fits. rewrite length_app, encode_bulk_length. simpl. lia.
Qed.

Lemma echo_array fuel content rest size el s1 nx s2 :
  __handle_echo_cmd fuel content size = Ok (Some el, s1) ->
  __handle_echo_cmd fuel rest s1 = Ok (nx, s2) ->
  nul_free el -> 0 <= s2 -> s2 + 4 < INT_MAX ->
  __handle_echo_cmd (S fuel) (NArray content 1 :: rest) size
  = Ok (Some (take (Z.to_nat (s2 + 4)) (bs "*1" ++ crlf ++ el ++ percent_s nx)), s2 + 4).
Proof.
  intros E1 E2 Hel H0 Hmax. cbn [__handle_echo_cmd]. rewrite E1. cbn [mbind res_bind].
  rewrite E2. cbn [mbind res_bind]. change (strlen _) with 1. change (1 + 3) with 4.
  unfold sprint_alloc, ub_unless. if_true. cbn [mbind res_bind percent_s].
  rewrite c_str_nul_free by done. unfold snprintf. by replace (s2 + 4 + 1 - 1) with (s2 + 4) by lia.
Qed.

(** With arrays among the arguments the cut can come too late: in the
    answer to two arrays followed by a bulk string, the text [(null)] stands
    where the third argument should, and the answer ends before it is complete. *)
Lemma echo_nested_null c d e :
  echo_ok c -> echo_ok d -> echo_ok e ->
  let args := [NArray [bulk c] 1; NArray [bulk d] 1; bulk e] in
  Z.of_nat (length (encode_nodes args)) < INT_MAX ->
  handle_echo_cmd args
  = Ok (Some (take (length (encode_nodes args))
      (encode (NArray [bulk c] 1) ++ encode (NArray [bulk d] 1) ++ bs "(null)" ++ encode (bulk e)))).
Proof.
  intros Hc Hd He args Hmax. unfold handle_echo_cmd. change (weights args) with 5%nat.
  assert (encode_nodes args = (bs "*1" ++ crlf ++ encode (bulk c)) ++ (bs "*1" ++ crlf ++ encode (bulk d))
    ++ encode (bulk e)) as Eargs.
  { unfold args. cbn [encode_nodes]. rewrite !encode_array. cbn [encode_nodes].
    rewrite !app_nil_r. cbn [app]. by rewrite <- !(assoc_L (++)). }
  assert (forall n, encode (NArray [n] 1) = bs "*1" ++ crlf ++ encode n) as Earr.
  { intros n. rewrite encode_array. cbn [encode_nodes]. by rewrite app_nil_r. }
  rewrite Eargs in *. rewrite !Earr. rewrite !length_app in *.
  change (length (bs "*1")) with 2%nat in *. change (length crlf) with 2%nat in *.
  pose proof (encode_bulk_length c) as Lc.
  assert (1 <= length (decimal (Z.of_nat (length c))))%nat as Hpos.
  { rewrite decimal_nonneg by lia. pose proof (dec_digits_nonempty (Z.of_nat (length c))) as Hn.
    destruct (dec_digits _); [done|]. simpl. lia. }
  pose proof (nul_free_encode c Hc) as Nc. pose proof (nul_free_encode d Hd) as Nd.
  pose proof (nul_free_encode e He) as Ne.
  pose proof (echo_flat [c] 4 ltac:(by apply Forall_singleton) ltac:(simpl; lia)) as Ec.
  cbn [map encode_nodes] in Ec. rewrite app_nil_r, decide_False in Ec by done.
  assert (nul_free (bs "(null)")) as Nn by nul_free_literal.
  assert (nul_free (bs "*1")) as N1 by nul_free_literal.
  assert (nul_free crlf) as N2 by nul_free_literal.
  pose proof (echo_array 3 [bulk d] [bulk e] (Z.of_nat (length (encode (bulk c)))) _ _ _ _
    (echo_last d (Z.of_nat (length (encode (bulk c)))) 2 Hd ltac:(lia) ltac:(lia))
    (echo_last e (Z.of_nat (length (encode (bulk c))) + Z.of_nat (length (encode (bulk d)))) 2 He ltac:(lia) ltac:(lia))
    ltac:(by rewrite nul_free_app) ltac:(lia) ltac:(lia)) as E2.
  unfold args. rewrite (echo_array 4 [bulk c] _ 0 _ _ _ _ (Ec ltac:(lia)) E2 Nc) by lia.
  cbn [mbind res_bind percent_s]. do 2 f_equal.
  assert (forall a b, nul_free a -> nul_free b -> nul_free (a ++ b)) as Napp by (intros; by rewrite nul_free_app).
  rewrite (c_str_nul_free (encode (bulk e) ++ _)) by auto.
  rewrite c_str_nul_free by (apply nul_free_take; auto 12).
  set (ec := encode (bulk c)) in *. set (ed := encode (bulk d)) in *. set (ee := encode (bulk e)) in *.
  transitivity (take (2 + (2 + length ec) + (2 + (2 + length ed) + length ee))
    ((bs "*1" ++ crlf ++ ec) ++ take (Z.to_nat (Z.of_nat (length ec) + Z.of_nat (length ed) + Z.of_nat (length ee) + 4))
      ((bs "*1" ++ crlf ++ ed) ++ bs "(null)" ++ ee ++ bs "(null)"))).
  { rewrite <- !(assoc_L (++)). f_equal. lia. }
  rewrite take_nested by (rewrite !length_app; simpl; lia).
  rewrite !(assoc_L (++)). rewrite take_app_le; [done|]. rewrite !length_app. simpl. lia.
Qed.

(** ** Any nesting *)

(** A message [ECHO] can print: sizes tell the truth, arrays are not empty, and no
    text has a NUL. *)
Fixpoint echoable (n : node) : Prop :=
  match n with
  | NBulk (Some c) z => z = Z.of_nat (length c) /\ echo_ok c
  | NArray l z => z = Z.of_nat (length l) /\ 1 <= z < 2 ^ 31 /\
      (fix go (l : list node) : Prop := match l with [] => True | n :: l => echoable n /\ go l end) l
  | _ => False
  end.

Fixpoint echoables (l : list node) : Prop :=
  match l with [] => True | n :: l => echoable n /\ echoables l end.

Lemma echoable_array l z :
  echoable (NArray l z) <-> z = Z.of_nat (length l) /\ 1 <= z < 2 ^ 31 /\ echoables l.
Proof. done. Qed.

(** The bytes of a list of messages on the wire. *)
Definition wire_size (l : list node) : Z := Z.of_nat (length (encode_nodes l)).

(** The answer, without buffers and totals: every list ends in the text
    [(null)], and the text of a list is cut where it would end on the wire if [before],
    the bytes of the arrays that are finished, stood in front of it. *)
Fixpoint echo_item (n : node) (before : Z) (next : Z -> list byte) : list byte :=
  match n with
  | NArray content size =>
      ASTERISK_BYTE :: decimal size ++ crlf ++
      (fix go (l : list node) (before : Z) : list byte :=
         match l with
         | [] => bs "(null)"
         | n :: l => take (Z.to_nat (before + wire_size (n :: l))) (echo_item n before (go l))
         end) content before ++ next (before + wire_size content)
  | _ => encode n ++ next before
  end.

Fixpoint echo_text (l : list node) (before : Z) : list byte :=
  match l with
  | [] => bs "(null)"
  | n :: l => take (Z.to_nat (before + wire_size (n :: l))) (echo_item n before (echo_text l))
  end.

Lemma echo_item_array l z before next :
  echo_item (NArray l z) before next
  = ASTERISK_BYTE :: decimal z ++ crlf ++ echo_text l before ++ next (before + wire_size l).
Proof. done. Qed.

Lemma wire_size_array l z r :
  wire_size (NArray l z :: r) = Z.of_nat (length (decimal z)) + 3 + wire_size l + wire_size r.
Proof.
  unfold wire_size. cbn [encode_nodes]. rewrite length_app, encode_array. cbn [length].
  rewrite !length_app. change (length crlf) with 2%nat. lia.
Qed.

Lemma wire_size_bulk c r :
  wire_size (bulk c :: r) = Z.of_nat (length (decimal (Z.of_nat (length c)))) + 5 + Z.of_nat (length c) + wire_size r.
Proof. unfold wire_size. cbn [encode_nodes]. rewrite length_app, encode_bulk_length. lia. Qed.

Lemma wire_size_nonneg l : 0 <= wire_size l.
Proof. unfold wire_size. lia. Qed.

Lemma decimal_fits z n : 0 <= z < 10 ^ n -> 1 <= n -> Z.of_nat (length (decimal z)) <= n.
Proof.
  intros Hz Hn. rewrite decimal_nonneg by lia. pose proof (dec_digits_length z (Z.to_nat n)) as Hd.
  rewrite Z2Nat.id in Hd by lia. specialize (Hd ltac:(lia) ltac:(lia)). lia.
Qed.

(** The code with its shared total computes that text. *)
Lemma echo_text_spec fuel l size :
  (weights l <= fuel)%nat -> echoables l -> 0 <= size -> size + wire_size l < INT_MAX ->
  __handle_echo_cmd fuel l size
  = Ok (if decide (l = []) then None else Some (echo_text l size), size + wire_size l) /\
  nul_free (echo_text l size).
Proof.
  revert l size. induction fuel as [|fuel IH]; intros [|n l] size Hf Hl Hs Hmax.
  1, 3: split; [unfold wire_size; simpl; by rewrite Z.add_0_r|nul_free_literal].
  { simpl in Hf. pose proof (weight_pos n). lia. }
  assert (forall l size, percent_s (if decide (l = []) then None else Some (echo_text l size))
    = if decide (l = []) then bs "(null)" else c_str (echo_text l size)) as Hnull by (intros; by case_decide).
  assert (forall l size, nul_free (echo_text l size) ->
    percent_s (if decide (l = []) then None else Some (echo_text l size)) = echo_text l size) as Hprint.
  { intros l' s' Hn. rewrite Hnull. case_decide as E; [by rewrite E|by apply c_str_nul_free]. }
  cbn [weights] in Hf. pose proof (weight_pos n). destruct Hl as [Hn Hl].
  rewrite (decide_False (P := n :: l = [])) by done. cbn [__handle_echo_cmd echo_text].
  destruct n as [[c|] z|es z|t z]; [|done| |done].
  - destruct Hn as [-> Hc]. pose proof Hc as [Hnul Hlen]. fold (bulk c) in *. rewrite wire_size_bulk in *.
    pose proof (wire_size_nonneg l).
    destruct (IH l size) as [-> Hrest]; [lia|done|done|lia|]. cbn [mbind res_bind deref].
    rewrite snprintf_fits by (pose proof (decimal_fits (Z.of_nat (length c)) 9);
      unfold MAX_BYTES_BULK_STR, PROTO_MAX_BULK_SIZE in *; lia).
    rewrite Hprint by done. cbn [percent_s]. rewrite !strlen_nul_free, (c_str_nul_free c) by auto with redis.
    unfold sprint_alloc, ub_unless. if_true. cbn [mbind res_bind echo_item bulk]. fold (bulk c).
    split; [|apply nul_free_take, nul_free_app; split; [by apply nul_free_encode|done]].
    do 2 f_equal; [|lia]. rewrite encode_bulk. unfold snprintf. cbn [app]. rewrite <- !(assoc_L (++)).
    do 2 f_equal. lia.
  - apply echoable_array in Hn as (Hz & Hz' & Hes). rewrite weight_array in Hf. rewrite wire_size_array in *.
    pose proof (wire_size_nonneg l). pose proof (wire_size_nonneg es).
    destruct (IH es size) as [-> He]; [lia|done|done|lia|]. cbn [mbind res_bind].
    destruct (IH l (size + wire_size es)) as [-> Hrest]; [lia|done|lia|lia|]. cbn [mbind res_bind].
    rewrite snprintf_fits by (pose proof (decimal_fits z 10); unfold MAX_BYTES_ARR_SIZE; lia).
    rewrite !Hprint by done. rewrite strlen_nul_free by auto with redis. rewrite echo_item_array.
    unfold sprint_alloc, ub_unless. if_true. cbn [mbind res_bind].
    split; [do 2 f_equal; [unfold snprintf; do 2 f_equal; lia|lia]|].
    apply nul_free_take, nul_free_cons. split; [done|]. rewrite !nul_free_app.
    split_and!; auto with redis; nul_free_literal.
Qed.

Lemma echo_text_answer l :
  echoables l -> l <> [] -> wire_size l < INT_MAX -> handle_echo_cmd l = Ok (Some (echo_text l 0)).
Proof.
  intros Hl Hne Hmax. unfold handle_echo_cmd.
  rewrite (proj1 (echo_text_spec (weights l) l 0 ltac:(lia) Hl ltac:(lia) ltac:(lia))). cbn [mbind res_bind].
  by rewrite decide_False.
Qed.

(** ** Where the answer is the wire form *)

(** No array stands behind another. *)
Inductive one_branch : list node -> Prop :=
  | OB_nil : one_branch []
  | OB_bulk c l : one_branch l -> one_branch (bulk c :: l)
  | OB_array es z cs : one_branch es -> one_branch (NArray es z :: map bulk cs).

Lemma echo_text_flat cs before :
  0 <= before -> cs <> [] ->
  echo_text (map bulk cs) before
  = take (Z.to_nat (before + wire_size (map bulk cs))) (encode_nodes (map bulk cs) ++ bs "(null)").
Proof.
  intros Hb. induction cs as [|c cs IH]; [done|]. intros _. cbn [map echo_text echo_item bulk]. fold (bulk c).
  cbn [encode_nodes]. rewrite <- (assoc_L (++)). destruct (decide (cs = [])) as [->|Hne]; [done|].
  rewrite IH by done. apply take_nested. rewrite wire_size_bulk, encode_bulk_length.
  pose proof (wire_size_nonneg (map bulk cs)). lia.
Qed.

Lemma take_wire l rest : take (Z.to_nat (0 + wire_size l)) (encode_nodes l ++ rest) = encode_nodes l.
Proof.
  unfold wire_size. replace (Z.to_nat _) with (length (encode_nodes l)) by lia. apply take_app_length.
Qed.

Lemma one_branch_exact l : one_branch l -> echoables l -> l <> [] -> echo_text l 0 = encode_nodes l.
Proof.
  intros Hl. induction Hl as [|c l Hl IH|es z cs Hes IH]; intros He Hne; [done| |].
  - cbn [echo_text echo_item bulk]. fold (bulk c). destruct He as [_ He].
    assert (exists rest, echo_text l 0 = encode_nodes l ++ rest) as [rest ->].
    { destruct l as [|n l]; [by exists (bs "(null)")|]. exists []. rewrite app_nil_r. by apply IH. }
    rewrite (assoc_L (++)). apply (take_wire (bulk c :: l)).
  - destruct He as [(Hz & Hz' & He)%echoable_array _]. cbn [echo_text]. rewrite echo_item_array.
    rewrite IH by (done || (intros ->; simpl in Hz; lia)).
    set (hdr := ASTERISK_BYTE :: decimal z ++ crlf ++ encode_nodes es).
    replace (ASTERISK_BYTE :: decimal z ++ crlf ++ encode_nodes es ++ echo_text (map bulk cs) (0 + wire_size es))
      with (hdr ++ echo_text (map bulk cs) (0 + wire_size es)) by (unfold hdr; cbn [app]; by rewrite <- !(assoc_L (++))).
    assert (encode_nodes (NArray es z :: map bulk cs) = hdr ++ encode_nodes (map bulk cs)) as Ehdr
      by (cbn [encode_nodes]; by rewrite encode_array).
    destruct (decide (cs = [])) as [->|Hcs].
    { rewrite <- (take_wire _ (bs "(null)")), Ehdr. cbn [map encode_nodes]. by rewrite app_nil_r. }
    rewrite echo_text_flat by (done || (pose proof (wire_size_nonneg es); lia)).
    rewrite take_nested, (assoc_L (++)), <- Ehdr; [apply take_wire|].
    rewrite wire_size_array. unfold hdr. cbn [length]. rewrite !length_app. unfold wire_size.
    change (length crlf) with 2%nat. lia.
Qed.

(** C28. What [ECHO] answers, of any nested arrays of bulk strings without NUL whose
    wire form fits in an [int]: [echo_text]. That is the wire form itself as long as
    no array stands behind another - the text [(null)] that is printed at the end of
    every list is cut off there by the size of the buffer. Otherwise the cut can
    come too late: in the answer to two arrays followed by a bulk string, [(null)]
    stands where the third argument should, and the answer ends before it is
    complete. *)
Theorem echo_answers l :
  echoables l -> l <> [] -> Z.of_nat (length (encode_nodes l)) < INT_MAX ->
  handle_echo_cmd l = Ok (Some (echo_text l 0)) /\
  (one_branch l -> echo_text l 0 = encode_nodes l) /\
  (forall c d e, l = [NArray [bulk c] 1; NArray [bulk d] 1; bulk e] ->
     echo_text l 0
     = take (length (encode_nodes l))
         (encode (NArray [bulk c] 1) ++ encode (NArray [bulk d] 1) ++ bs "(null)" ++ encode (bulk e))).
Proof.
  intros Hl Hne Hmax. pose proof (echo_text_answer l Hl Hne Hmax) as E. split_and!; [done|by intros; apply one_branch_exact|].
  intros c d e ->. cbn [echoables echoable bulk] in Hl. destruct Hl as ((_ & _ & (_ & Hc) & _) & (_ & _ & (_ & Hd) & _) & (_ & He) & _).
  rewrite (echo_nested_null c d e) in E by done. by injection E.
Qed.

(** ** Witness *)

Definition two_arrays : list node := [NArray [bulk (bs "hello")] 1; NArray [bulk []] 1; bulk (bs "x")].

Ltac echoable_tac :=
  cbn [echoables echoable bulk two_arrays]; unfold echo_ok;
  repeat match goal with |- _ /\ _ => split end;
  first [exact I | reflexivity | nul_free_literal | vm_compute; discriminate | vm_compute; reflexivity].

Lemma echo_answers_witness :
  (handle_echo_cmd [bulk (bs "a"); NArray [bulk (bs "b"); bulk (bs "c")] 2; bulk []]
   = Ok (Some (echo_text [bulk (bs "a"); NArray [bulk (bs "b"); bulk (bs "c")] 2; bulk []] 0)) /\
   echo_text [bulk (bs "a"); NArray [bulk (bs "b"); bulk (bs "c")] 2; bulk []] 0
   = encode_nodes [bulk (bs "a"); NArray [bulk (bs "b"); bulk (bs "c")] 2; bulk []]) /\
  (handle_echo_cmd two_arrays = Ok (Some (echo_text two_arrays 0)) /\
   echo_text two_arrays 0
   = take (length (encode_nodes two_arrays))
       (encode (NArray [bulk (bs "hello")] 1) ++ encode (NArray [bulk []] 1) ++ bs "(null)" ++ encode (bulk (bs "x")))).
Proof.
  split.
  - destruct (echo_answers [bulk (bs "a"); NArray [bulk (bs "b"); bulk (bs "c")] 2; bulk []]) as (E & Hx & _).
    + echoable_tac.
    + discriminate.
    + vm_compute. reflexivity.
    + split; [exact E|]. apply Hx. apply OB_bulk, (OB_array [bulk (bs "b"); bulk (bs "c")] 2 [[]]).
      apply OB_bulk, OB_bulk, OB_nil.
  - destruct (echo_answers two_arrays) as (E & _ & Hx).
    + echoable_tac.
    + discriminate.
    + vm_compute. reflexivity.
    + split; [exact E|]. by apply Hx.
Defined.

(** The answer to the two arrays, byte by byte. *)
Example two_arrays_answer :
  echo_text two_arrays 0
  = bs "*1" ++ crlf ++ bs "$5" ++ crlf ++ bs "hello" ++ crlf ++ bs "*1" ++ crlf ++ bs "$0" ++ crlf ++ crlf
    ++ bs "(null)$".
Proof. vm_compute. reflexivity. Qed.
