(* ===== verification/Config.v ===== *)
(** [CONFIG GET] ([handle_conf_cmd], [handle_conf_get] and their helpers in
    [cmd_handler.c]): the entries of the configuration map whose key matches
    one of the patterns are gathered in two arrays with room for one entry per
    key of the map, and printed as one array of bulk strings. *)

From S2P Require Import Prelude CLib Protocol SimpleMap KeyVal SetParser SetExec Match.

(** ** Gathering *)

(** The arrays of strings found so far and the counters of [handle_conf_get]. *)
Record conf_acc := mkConfAcc {
  ca_keys : list (slot (list byte));
  ca_values : list (slot (list byte));
  ca_key_bytes : Z;
  ca_val_bytes : Z;
  ca_nr : Z
}.

Fixpoint possible_loop (fuel : nat) (arr : list (slot (list byte))) (size : Z)
    (str : option (list byte)) (i : Z) : res bool :=
  if i <? size then
    match fuel with
    | O => OOF
    | S fuel =>
        s ← aread arr i;
        value ← slot_deref s;
        str' ← deref str;
        if strcmp_eq str' value then Ok false else possible_loop fuel arr size str (i + 1)
    end
  else Ok true.

Definition is_it_possible_to_insert_the_str_in_array (arr : list (slot (list byte))) (size : Z)
    (str : option (list byte)) : res bool :=
  possible_loop (Z.to_nat size) arr size str 0.

Definition insert_key_value_str_to_str_array (kvp : Pair) (acc : conf_acc) : res conf_acc :=
  match kvp_key kvp, kvp_value kvp with
  | Some key, Some value =>
      if is_null (kn_content key) || is_null (vn_content value)
         || negb (bool_decide (vn_dtype value = BULK_STR))
      then Ok acc
      else
        '(key_size, key_str) ← key_or_value_node_to_string (Some (inl key));
        '(val_size, value_str) ← key_or_value_node_to_string (Some (inr value));
        is_valid_key ← is_it_possible_to_insert_the_str_in_array (ca_keys acc) (ca_nr acc) key_str;
        match key_str, value_str with
        | Some k, Some v =>
            if (is_valid_key : bool) then
              ks ← awrite (ca_keys acc) (ca_nr acc) (Ptr k);
              vs ← awrite (ca_values acc) (ca_nr acc) (Ptr v);
              Ok (mkConfAcc ks vs (uint32 (ca_key_bytes acc + (key_size - 1)))
                    (uint32 (ca_val_bytes acc + (val_size - 1))) (uint32 (ca_nr acc + 1)))
            else Ok acc
        | _, _ => Ok acc
        end
  | _, _ => Ok acc
  end.

Section config.
Context `{Fnmatch} `{Heap}.

(** The loop over the entries of the map, for one pattern. *)
Fixpoint scan_loop (fuel : nat) (smw : SimpleMapWrapper KeyNode ValueNode)
    (content : option (list byte)) (acc : conf_acc) : res conf_acc :=
  match fuel with
  | O => OOF
  | S fuel =>
      '(kvp, smw) ← next smw;
      match kvp with
      | None => Ok acc
      | Some kvp =>
          match kvp_key kvp with
          | None => scan_loop fuel smw content acc
          | Some key =>
              match does_the_strings_match content (kn_content key) with
              | MATCH =>
                  acc ← insert_key_value_str_to_str_array kvp acc;
                  scan_loop fuel smw content acc
              | _ => scan_loop fuel smw content acc
              end
          end
      end
  end.

(** The loop over the arguments; what is not a bulk string is skipped. *)
Fixpoint conf_loop (bnode : list node) (config_dict : Store) (acc : conf_acc) : res conf_acc :=
  match bnode with
  | [] => Ok acc
  | NBulk content _ :: rest =>
      acc ← scan_loop (S (Z.to_nat (sm_top config_dict + 1)))
              (init_simple_map_wrapper config_dict) content acc;
      conf_loop rest config_dict acc
  | _ :: rest => conf_loop rest config_dict acc
  end.

(** An array of pointers on the stack after [memset(a, 0, n)], which clears [n]
    bytes and not [n] pointers. *)
Definition stack_array (n : Z) : list (slot (list byte)) :=
  replicate (Z.to_nat (n / 8)) Null ++ replicate (Z.to_nat n - Z.to_nat (n / 8)) Junk.

(** [snprintf(response + pos, total_bytes - pos, ...)]: the buffer and the new
    position. *)
Definition sprint_at (response : list byte) (total_bytes pos : Z) (text : list byte)
    : res (list byte * Z) :=
  let n := size_t (total_bytes - pos) in
  if n =? 0 then Ok (response, pos + Z.of_nat (length text))
  else
    response ← memcpy response pos (snprintf n text ++ [NUL]);
    Ok (response, pos + Z.of_nat (length text)).

Fixpoint response_loop (fuel : nat) (keys values : list (slot (list byte))) (num_elements i : Z)
    (response : list byte) (total_bytes pos : Z) : res (option (list byte)) :=
  if i <? num_elements then
    match fuel with
    | O => OOF
    | S fuel =>
        k ← aread keys i;
        null ← slot_null k;
        if (null : bool) then Ok None
        else
          key ← slot_deref k;
          v ← aread values i;
          value ← slot_deref v;
          '(response, pos) ← sprint_at response total_bytes pos (c_str key ++ c_str value);
          response_loop fuel keys values num_elements (i + 1) response total_bytes pos
    end
  else Ok (Some (take (Z.to_nat (total_bytes - 1)) response)).

Definition generate_conf_get_response (keys values : list (slot (list byte)))
    (total_key_bytes total_value_bytes num_elements : Z) : res (option (list byte)) :=
  let final_num_el := size_t (2 * num_elements) in
  let num_elements_buf := snprintf 8 (decimal final_num_el) in
  let num_elements_len := strlen num_elements_buf in
  let total_bytes := 1 + num_elements_len + 2 + total_key_bytes + total_value_bytes + 1 in
  if negb (heap_grants 0 total_bytes) then Ok None
  else
    '(response, pos) ← sprint_at (calloc total_bytes) total_bytes 0
                         (ASTERISK_BYTE :: num_elements_buf ++ crlf);
    response_loop (Z.to_nat num_elements) keys values num_elements 0 response total_bytes pos.

Definition handle_conf_get (bnode : list node) (config_dict : Store) : res (option (list byte)) :=
  if bool_decide (bnode = []) || is_null (sm_keys config_dict) || is_null (sm_values config_dict)
     || (sm_top config_dict <? 0)
  then Ok None
  else
    let possible_max_size := sm_top config_dict + 1 in
    acc ← conf_loop bnode config_dict
            (mkConfAcc (stack_array possible_max_size) (stack_array possible_max_size) 0 0 0);
    if ca_nr acc =? 0 then Ok (Some (bs "*0" ++ crlf))
    else generate_conf_get_response (ca_keys acc) (ca_values acc) (ca_key_bytes acc)
           (ca_val_bytes acc) (ca_nr acc).

Definition handle_conf_cmd (gnode : list node) (config_dict : Store) : res (option (list byte)) :=
  match gnode with
  | NBulk cmd _ :: next =>
      if is_null (sm_keys config_dict) || is_null (sm_values config_dict) || is_null cmd
      then Ok None
      else
        r ← search_table config_cmd_options cmd;
        match r with
        | Some CONF_GET => handle_conf_get next config_dict
        | _ => Ok None
        end
  | _ => Ok None
  end.

End config.

(** ** What is selected *)

Abbreviation entry := (KeyNode * option ValueNode)%type.

Definition entry_key (p : entry) : list byte := kn_ident p.1.
Definition entry_value (p : entry) : list byte := from_option vn_text [] p.2.

(** A configuration entry: C strings of a size a request can carry. *)
Definition entry_ok (p : entry) : Prop :=
  kn_ok p.1 /\ nul_free (entry_key p) /\ text_ok (entry_key p) /\
  p.2 = Some (value_of (entry_value p)) /\ nul_free (entry_value p) /\ text_ok (entry_value p).

Section selection.
Context `{Fnmatch}.

Definition select_entry (pat : list byte) (sel : list entry) (p : entry) : list entry :=
  if fnmatch (c_str pat) (entry_key p) && negb (bool_decide (entry_key p ∈ map entry_key sel))
  then sel ++ [p] else sel.

Definition select_arg (l : list entry) (sel : list entry) (n : node) : list entry :=
  match n with
  | NBulk (Some pat) _ => foldl (select_entry pat) sel l
  | _ => sel
  end.

(** The entries whose key matches one of the arguments, each once. *)
Definition selected (args : list node) (l : list entry) : list entry := foldl (select_arg l) [] args.

End selection.

(** A list of entries as one RESP array. *)
Definition entries_node (sel : list entry) : node :=
  NArray (concat (map (fun p => [bulk (entry_key p); bulk (entry_value p)]) sel))
    (2 * Z.of_nat (length sel)).

(** ** The wire form of a text determines it *)

Lemma digits_cr_inj (d d' t t' : list byte) :
  Forall (fun b => is_digit b = true) d -> Forall (fun b => is_digit b = true) d' ->
  d ++ CR :: t = d' ++ CR :: t' -> d = d' /\ t = t'.
Proof.
  revert d'. induction d as [|b d IH]; intros [|b' d'] Hd Hd' E.
  - by injection E.
  - injection E as <- _. apply Forall_cons in Hd' as [? _]. done.
  - injection E as -> _. apply Forall_cons in Hd as [? _]. done.
  - injection E as -> E. apply Forall_cons in Hd as [_ Hd], Hd' as [_ Hd'].
    by destruct (IH d' Hd Hd' E) as [-> ->].
Qed.

Lemma encode_bulk_inj a b : encode (bulk a) = encode (bulk b) -> a = b.
Proof.
  unfold bulk. cbn [encode default]. rewrite !decimal_nonneg by lia. intros [= E].
  apply digits_cr_inj in E as [_ E]; [|apply dec_digits_digits; lia..].
  injection E as E. by apply app_inv_tail in E.
Qed.

Lemma nul_free_bulk c : nul_free c -> nul_free (encode (bulk c)).
Proof.
  intros Hc. unfold bulk. cbn [encode default]. apply nul_free_cons. split; [done|].
  rewrite !nul_free_app. split_and!; auto with redis; nul_free_literal.
Qed.

(** ** The accumulator *)

Definition key_text (p : entry) : list byte := encode (bulk (entry_key p)).
Definition value_text (p : entry) : list byte := encode (bulk (entry_value p)).

Definition total (f : entry -> list byte) (sel : list entry) : Z :=
  Z.of_nat (length (concat (map f sel))).

Lemma total_snoc f sel p : total f (sel ++ [p]) = total f sel + Z.of_nat (length (f p)).
Proof.
  unfold total. rewrite map_app, concat_app, length_app. simpl. rewrite app_nil_r. lia.
Qed.

(** [acc] holds the entries [sel], in arrays of [n] slots. *)
Definition acc_repr (n : nat) (sel : list entry) (acc : conf_acc) : Prop :=
  exists jk jv,
    ca_keys acc = map (fun p => Ptr (key_text p)) sel ++ jk /\
    ca_values acc = map (fun p => Ptr (value_text p)) sel ++ jv /\
    length (ca_keys acc) = n /\ length (ca_values acc) = n /\
    ca_key_bytes acc = uint32 (total key_text sel) /\
    ca_val_bytes acc = uint32 (total value_text sel) /\
    ca_nr acc = Z.of_nat (length sel).

Lemma possible_loop_spec sel1 sel2 j str fuel :
  Forall entry_ok sel2 -> nul_free str -> length sel2 = fuel ->
  possible_loop fuel (map (fun p => Ptr (encode (bulk (entry_key p)))) (sel1 ++ sel2) ++ j)
    (Z.of_nat (length (sel1 ++ sel2))) (Some (encode (bulk str))) (Z.of_nat (length sel1))
  = Ok (negb (bool_decide (str ∈ map entry_key sel2))).
Proof.
  intros Hs Hstr <-. revert sel1. induction Hs as [|p sel2 Hp _ IH]; intros sel1.
  - simpl. rewrite app_nil_r. by if_false.
  - cbn [length possible_loop]. rewrite length_app. cbn [length]. if_true.
    rewrite (map_slot_lookup (fun p => Ptr (encode (bulk (entry_key p)))) _ _ _ p)
      by (by apply list_lookup_middle).
    cbn [mbind res_bind slot_deref deref]. destruct Hp as (_ & Hn & _). cbn [map].
    unfold strcmp_eq. rewrite !c_str_nul_free by (by apply nul_free_bulk).
    specialize (IH (sel1 ++ [p])). rewrite <- (assoc_L (++)), !length_app in IH. cbn [length app] in IH.
    destruct (decide (encode (bulk str) = encode (bulk (entry_key p)))) as [E|E].
    + rewrite (bool_decide_eq_true_2 _ E). apply encode_bulk_inj in E.
      rewrite bool_decide_eq_true_2; [done|]. rewrite E. by left.
    + rewrite (bool_decide_eq_false_2 _ E).
      replace (Z.of_nat (length sel1) + 1) with (Z.of_nat (length sel1 + 1)) by lia.
      replace (length sel1 + S (length sel2))%nat with (length sel1 + (1 + length sel2))%nat by lia.
      rewrite IH. do 2 f_equal. apply bool_decide_ext. rewrite elem_of_cons.
      split; [by right|]. intros [->|?]; [done|done].
Qed.

Lemma entry_ok_key p :
  entry_ok p -> kn_content p.1 = Some (entry_key p) /\ kn_size p.1 = Z.of_nat (length (entry_key p)).
Proof. intros [Hk _]. unfold kn_ok, entry_key, kn_ident in *. by destruct (kn_content p.1). Qed.

Section insertion.
Context (n : nat) (l : list entry).
Context (Hl : Forall entry_ok l) (Hlen : length l = n).

(** The entries found are distinct entries of the map. *)
Definition picked (sel : list entry) : Prop :=
  NoDup (map entry_key sel) /\ sel ⊆ l.

(** There is room for one more. *)
Lemma picked_room sel p :
  picked sel -> p ∈ l -> entry_key p ∉ map entry_key sel -> (length sel < n)%nat.
Proof.
  intros [Hnd Hsub] Hp Hnot.
  assert (length (map entry_key (sel ++ [p])) <= length (map entry_key l))%nat as H.
  { apply submseteq_length. apply NoDup_submseteq.
    - rewrite map_app. simpl. apply NoDup_app. repeat split; [done| |apply NoDup_singleton].
      set_solver.
    - intros x Hx. apply list_elem_of_In, in_map_iff in Hx as (q & <- & Hq%list_elem_of_In).
      apply list_elem_of_In, in_map, list_elem_of_In.
      apply elem_of_app in Hq as [Hq|Hq%list_elem_of_singleton]; [by apply Hsub|by subst]. }
  rewrite !length_map, length_app in H. simpl in H. lia.
Qed.

Lemma picked_ok sel : picked sel -> Forall entry_ok sel.
Proof.
  intros [_ Hsub]. apply Forall_forall. intros p Hp. rewrite Forall_forall in Hl. by apply Hl, Hsub.
Qed.

Lemma insert_spec sel p acc :
  picked sel -> p ∈ l -> acc_repr n sel acc -> Z.of_nat n < 2 ^ 31 ->
  let sel' := if bool_decide (entry_key p ∈ map entry_key sel) then sel else sel ++ [p] in
  exists acc', insert_key_value_str_to_str_array (mkKVP (Some p.1) p.2) acc = Ok acc' /\
    acc_repr n sel' acc' /\ picked sel'.
Proof.
  intros Hsel Hp (jk & jv & Ek & Ev & Lk & Lv & Bk & Bv & Nr) Hn sel'.
  assert (entry_ok p) as Hok by (rewrite Forall_forall in Hl; by apply Hl).
  pose proof Hok as (_ & Kn & Kt & Vs & Vn & Vt). destruct (entry_ok_key p Hok) as [Ekc Eks].
  unfold insert_key_value_str_to_str_array. cbn [kvp_key kvp_value]. rewrite Vs.
  rewrite Ekc. cbn [is_null]. cbn [value_of vn_dtype vn_content is_null orb negb].
  rewrite bool_decide_eq_true_2 by done. cbn [negb].
  rewrite (node_to_string (inl p.1) (entry_key p)) by first [exact Ekc | exact Eks | exact (proj2 Kt)].
  cbn [mbind res_bind].
  rewrite (node_to_string (inr (value_of (entry_value p))) (entry_value p))
    by first [exact (proj2 Vt) | reflexivity]. cbn [mbind res_bind].
  fold (bulk (entry_key p)). fold (bulk (entry_value p)).
  pose proof (possible_loop_spec [] sel jk (entry_key p) _ (picked_ok sel Hsel) Kn eq_refl) as Hpos.
  cbn [app length] in Hpos. change (Z.of_nat 0) with 0 in Hpos.
  unfold is_it_possible_to_insert_the_str_in_array. rewrite Nr, Ek, Nat2Z.id.
  unfold key_text. rewrite Hpos. clear Hpos. cbn [mbind res_bind].
  unfold sel'. case_bool_decide as Hin; cbn [negb].
  { exists acc. split; [done|]. split; [|done]. by exists jk, jv. }
  pose proof (picked_room sel p Hsel Hp Hin) as Hroom.
  rewrite Ek in Lk. rewrite Ev in Lv. rewrite length_app, length_map in Lk, Lv.
  destruct jk as [|j0 jk]; [simpl in Lk; lia|]. destruct jv as [|j1 jv]; [simpl in Lv; lia|].
  rewrite awrite_after_map. cbn [mbind res_bind].
  rewrite Ev, awrite_after_map. cbn [mbind res_bind]. eexists. split; [done|].
  split; [|split].
  - exists jk, jv. cbn [ca_keys ca_values ca_key_bytes ca_val_bytes ca_nr]. simpl in Lk, Lv.
    rewrite !map_app, <- !(assoc_L (++)), !length_app, !length_map, !total_snoc. cbn [map app length].
    split_and!; try done; try lia.
    + rewrite Bk. unfold uint32. rewrite Zplus_mod_idemp_l. f_equal. unfold key_text. lia.
    + rewrite Bv. unfold uint32. rewrite Zplus_mod_idemp_l. f_equal. unfold value_text. lia.
    + unfold uint32. rewrite Z.mod_small; lia.
  - rewrite map_app. cbn [map]. apply NoDup_app. destruct Hsel as [Hnd _].
    repeat split; [done| |apply NoDup_singleton]. set_solver.
  - destruct Hsel as [_ Hsub]. intros q [Hq|Hq%list_elem_of_singleton]%elem_of_app; [by apply Hsub|by subst].
Qed.
End insertion.

Section scanning.
Context `{Fnmatch} `{Heap}.
Context (sm : Store) (l : list entry) (R : smap_repr sm l).
Context (Hl : Forall entry_ok l) (Hmax : Z.of_nat (length l) < 2 ^ 31).

Lemma scan_spec pat l1 l2 sel acc fuel :
  l = l1 ++ l2 -> fuel = S (length l2) -> picked l sel -> acc_repr (length l) sel acc ->
  let sel' := foldl (select_entry pat) sel l2 in
  exists acc', scan_loop fuel (mkSMW (Z.of_nat (length l1)) sm) (Some pat) acc = Ok acc' /\
    acc_repr (length l) sel' acc' /\ picked l sel'.
Proof.
  intros E -> Hsel Hacc. revert l1 sel acc E Hsel Hacc. induction l2 as [|p l2 IH]; intros l1 sel acc E Hsel Hacc.
  - cbn [scan_loop foldl]. rewrite (next_spec sm l (length l1) R).
    rewrite (lookup_ge_None_2 l) by (rewrite E, app_nil_r; lia). cbn [mbind res_bind]. eauto.
  - cbn [scan_loop foldl length]. rewrite (next_spec sm l (length l1) R).
    assert (l !! length l1 = Some p) as -> by (rewrite E; by apply list_lookup_middle).
    cbn [mbind res_bind kvp_key].
    assert (p ∈ l) as Hp by (rewrite E; set_solver).
    assert (entry_ok p) as Hok by (rewrite Forall_forall in Hl; by apply Hl).
    destruct (entry_ok_key p Hok) as [Ekc _]. pose proof Hok as (_ & Kn & _).
    rewrite Ekc. unfold does_the_strings_match. rewrite (c_str_nul_free (entry_key p)) by done.
    assert (l = (l1 ++ [p]) ++ l2) as E' by (by rewrite <- (assoc_L (++))).
    assert (Z.of_nat (S (length l1)) = Z.of_nat (length (l1 ++ [p]))) as ->
      by (rewrite length_app; simpl; lia).
    unfold select_entry at 2 4. destruct (fnmatch (c_str pat) (entry_key p)); cbn [andb].
    + destruct (insert_spec (length l) l Hl eq_refl sel p acc Hsel Hp Hacc Hmax) as (acc1 & -> & H1 & H2).
      cbn [mbind res_bind]. destruct (bool_decide (entry_key p ∈ map entry_key sel)); by apply IH.
    + by apply IH.
Qed.

Lemma conf_loop_spec args sel acc :
  Forall arg_ok args -> picked l sel -> acc_repr (length l) sel acc ->
  let sel' := foldl (select_arg l) sel args in
  exists acc', conf_loop args sm acc = Ok acc' /\ acc_repr (length l) sel' acc' /\ picked l sel'.
Proof.
  intros Ha. revert sel acc. induction Ha as [|n args Hn Ha IH]; intros sel acc Hsel Hacc; [by exists acc|].
  cbn [conf_loop foldl]. destruct n as [[pat|] z| |]; [|done|by apply IH|by apply IH].
  assert (sm_top sm + 1 = Z.of_nat (length l)) as -> by (destruct R as (? & ? & _ & _ & -> & _); lia).
  rewrite Nat2Z.id. unfold init_simple_map_wrapper.
  destruct (scan_spec pat [] l sel acc _ eq_refl eq_refl Hsel Hacc) as (acc1 & E & H1 & H2).
  change (Z.of_nat (length (@nil entry))) with 0 in E. rewrite E. cbn [mbind res_bind].
  by apply IH.
Qed.
End scanning.

(** ** The response *)

(** A formatted write that fits, behind what was written before. *)
Lemma sprint_at_spec (written text : list byte) room :
  (length text < room)%nat -> Z.of_nat (length written + room) < 2 ^ 64 ->
  sprint_at (written ++ replicate room NUL) (Z.of_nat (length written + room)) (Z.of_nat (length written)) text
  = Ok ((written ++ text) ++ replicate (room - length text) NUL, Z.of_nat (length (written ++ text))).
Proof.
  intros Hroom Hmax. unfold sprint_at, size_t.
  replace (Z.of_nat (length written + room) - Z.of_nat (length written)) with (Z.of_nat room) by lia.
  rewrite Z.mod_small by lia. if_false. rewrite snprintf_fits by lia.
  rewrite memcpy_at by (rewrite length_app; simpl; lia). cbn [mbind res_bind].
  assert (replicate (room - length text) NUL = NUL :: replicate (room - length (text ++ [NUL])) NUL) as ->.
  { rewrite length_app. cbn [length].
    by replace (room - length text)%nat with (S (room - (length text + 1))) by lia. }
  rewrite <- !(assoc_L (++)), (length_app written text). cbn [app]. do 2 f_equal. lia.
Qed.

Definition pair_text (p : entry) : list byte := key_text p ++ value_text p.

Lemma entry_texts_nul_free p : entry_ok p -> nul_free (key_text p) /\ nul_free (value_text p).
Proof. intros (_ & ? & _ & _ & ? & _). split; by apply nul_free_bulk. Qed.

Lemma response_loop_spec sel1 sel2 jk jv fuel written room :
  Forall entry_ok sel2 -> length sel2 = fuel ->
  (length (concat (map pair_text sel2)) < room)%nat -> Z.of_nat (length written + room) < 2 ^ 64 ->
  response_loop fuel (map (fun p => Ptr (key_text p)) (sel1 ++ sel2) ++ jk)
    (map (fun p => Ptr (value_text p)) (sel1 ++ sel2) ++ jv)
    (Z.of_nat (length (sel1 ++ sel2))) (Z.of_nat (length sel1))
    (written ++ replicate room NUL) (Z.of_nat (length written + room)) (Z.of_nat (length written))
  = Ok (Some (written ++ concat (map pair_text sel2)
              ++ replicate (room - 1 - length (concat (map pair_text sel2))) NUL)).
Proof.
  intros Hs <-. revert sel1 written room. induction Hs as [|p sel2 Hp _ IH]; intros sel1 written room Hroom Hmax.
  - simpl. rewrite app_nil_r. if_false. do 2 f_equal.
    replace (Z.to_nat (Z.of_nat (length written + room) - 1)) with (length written + (room - 1))%nat by lia.
    rewrite take_app_add. f_equal. rewrite take_replicate. f_equal. simpl in Hroom. lia.
  - cbn [length response_loop]. rewrite length_app. cbn [length]. if_true.
    rewrite (map_slot_lookup (fun p => Ptr (key_text p)) _ _ _ p) by (by apply list_lookup_middle).
    cbn [mbind res_bind slot_null slot_deref].
    rewrite (map_slot_lookup (fun p => Ptr (value_text p)) _ _ _ p) by (by apply list_lookup_middle).
    cbn [mbind res_bind slot_deref].
    destruct (entry_texts_nul_free p Hp) as [Nk Nv]. rewrite !c_str_nul_free by done.
    fold (pair_text p). cbn [map concat] in *. rewrite length_app in Hroom.
    rewrite sprint_at_spec by lia. cbn [mbind res_bind].
    specialize (IH (sel1 ++ [p]) (written ++ pair_text p) (room - length (pair_text p))%nat).
    rewrite <- !(assoc_L (++)), !length_app in IH. cbn [length app] in IH.
    rewrite length_app.
    replace (Z.of_nat (length sel1) + 1) with (Z.of_nat (length sel1 + 1)) by lia.
    replace (length written + room)%nat
      with (length written + length (pair_text p) + (room - length (pair_text p)))%nat at 1 by lia.
    replace (length sel1 + S (length sel2))%nat with (length sel1 + (1 + length sel2))%nat by lia.
    rewrite <- !(assoc_L (++)). rewrite IH by lia. rewrite length_app. do 6 f_equal. lia.
Qed.

Lemma pair_text_total sel :
  Z.of_nat (length (concat (map pair_text sel))) = total key_text sel + total value_text sel.
Proof.
  induction sel as [|p sel IH]; [done|]. unfold total in *. cbn [map concat]. unfold pair_text at 1.
  rewrite !length_app. lia.
Qed.

Lemma encode_entries sel :
  encode (entries_node sel)
  = ASTERISK_BYTE :: decimal (2 * Z.of_nat (length sel)) ++ crlf ++ concat (map pair_text sel).
Proof.
  unfold entries_node. rewrite encode_array. do 3 f_equal.
  induction sel as [|p sel IH]; [done|]. cbn [map concat app encode_nodes]. rewrite IH.
  unfold pair_text at 2. unfold key_text, value_text. by rewrite <- !(assoc_L (++)).
Qed.

Section response.
Context `{Fnmatch} `{Heap}.

Lemma generate_spec n sel acc :
  acc_repr n sel acc -> Forall entry_ok sel -> 2 * Z.of_nat (length sel) < 10 ^ 7 ->
  Z.of_nat (length (encode (entries_node sel))) < INT_MAX -> (forall z, 0 < z <= INT_MAX -> heap_grants 0 z = true) ->
  generate_conf_get_response (ca_keys acc) (ca_values acc) (ca_key_bytes acc) (ca_val_bytes acc) (ca_nr acc)
  = Ok (Some (encode (entries_node sel))).
Proof.
  intros (jk & jv & Ek & Ev & _ & _ & Bk & Bv & Nr) Hok Hn Hmax Hheap.
  rewrite Ek, Ev, Bk, Bv, Nr. unfold generate_conf_get_response. cbv zeta.
  assert (size_t (2 * Z.of_nat (length sel)) = 2 * Z.of_nat (length sel)) as ->
    by (unfold size_t; rewrite Z.mod_small; lia).
  set (d := decimal (2 * Z.of_nat (length sel))).
  assert (length d <= 7)%nat as Hd.
  { unfold d. rewrite decimal_nonneg by lia. apply dec_digits_length; lia. }
  rewrite snprintf_fits by lia.
  assert (nul_free d) as Nd by apply decimal_nul_free. rewrite strlen_nul_free by done.
  rewrite encode_entries in *. fold d in Hmax |- *. cbn [length] in Hmax.
  rewrite !length_app in Hmax. change (length crlf) with 2%nat in Hmax.
  pose proof (pair_text_total sel) as Ht. set (body := concat (map pair_text sel)) in *.
  assert (0 <= total key_text sel /\ 0 <= total value_text sel) as [Hk0 Hv0] by (unfold total; lia).
  unfold INT_MAX in *. rewrite !uint32_small by lia.
  assert (1 + Z.of_nat (length d) + 2 + total key_text sel + total value_text sel + 1
    = Z.of_nat (length (@nil byte) + (length (ASTERISK_BYTE :: d ++ crlf) + (length body + 1)))) as ->.
  { cbn [length]. rewrite length_app. change (length crlf) with 2%nat. lia. }
  set (room := (length (ASTERISK_BYTE :: d ++ crlf) + (length body + 1))%nat).
  assert (Z.of_nat room < 2 ^ 31) as Hroom.
  { unfold room. cbn [length]. rewrite length_app. change (length crlf) with 2%nat. lia. }
  rewrite Hheap by (unfold room in *; cbn [length] in *; lia). cbn [negb].
  unfold calloc. rewrite !Nat2Z.id. change (length (@nil byte) + room)%nat with room.
  change (replicate room NUL) with ([] ++ replicate room NUL).
  pose proof (sprint_at_spec [] (ASTERISK_BYTE :: d ++ crlf) room ltac:(unfold room; lia)
    ltac:(cbn [length]; lia)) as Hs.
  change (length (@nil byte) + room)%nat with room in Hs.
  change (Z.of_nat (length (@nil byte))) with 0 in Hs. rewrite Hs. clear Hs.
  cbn [mbind res_bind]. change ([] ++ ASTERISK_BYTE :: d ++ crlf) with (ASTERISK_BYTE :: d ++ crlf).
  set (h := ASTERISK_BYTE :: d ++ crlf) in *.
  pose proof (response_loop_spec [] sel jk jv _ h (room - length h) Hok eq_refl) as Hr.
  cbn [app length] in Hr. change (Z.of_nat 0) with 0 in Hr.
  replace (length h + (room - length h))%nat with room in Hr by (unfold room; lia).
  rewrite Hr by (fold body; unfold room; lia). fold body.
  replace (room - length h - 1 - length body)%nat with 0%nat by (unfold room; lia).
  simpl. rewrite app_nil_r. unfold h. cbn [app]. by rewrite <- !(assoc_L (++)).
Qed.

Lemma conf_get_spec sm l args :
  smap_repr sm l -> Forall entry_ok l -> l <> [] -> args <> [] -> Forall arg_ok args ->
  2 * Z.of_nat (length l) < 10 ^ 7 ->
  Z.of_nat (length (encode (entries_node (selected args l)))) < INT_MAX ->
  (forall z, 0 < z <= INT_MAX -> heap_grants 0 z = true) ->
  handle_conf_get args sm = Ok (Some (encode (entries_node (selected args l)))) /\ picked l (selected args l).
Proof.
  intros R Hl Hne Ha Hargs Hn Hmax Hheap. unfold handle_conf_get.
  destruct (repr_not_null _ _ R) as (-> & -> & _). rewrite bool_decide_eq_false_2 by done. cbn [orb].
  assert (sm_top sm + 1 = Z.of_nat (length l)) as Htop by (destruct R as (? & ? & _ & _ & -> & _); lia).
  assert ((sm_top sm <? 0) = false) as -> by (apply Z.ltb_ge; destruct l; simpl in *; [done|lia]).
  rewrite Htop.
  assert (length (stack_array (Z.of_nat (length l))) = length l) as Hstack.
  { unfold stack_array. rewrite length_app, !length_replicate, Nat2Z.id.
    pose proof (Z.div_le_upper_bound (Z.of_nat (length l)) 8 (Z.of_nat (length l))). lia. }
  destruct (conf_loop_spec sm l R Hl ltac:(lia) args [] (mkConfAcc (stack_array (Z.of_nat (length l)))
    (stack_array (Z.of_nat (length l))) 0 0 0) Hargs) as (acc & E & Hacc & Hpick).
  { split; [constructor|set_solver]. }
  { eexists _, _. by split_and!. }
  rewrite E. cbn [mbind res_bind]. fold (selected args l) in Hacc, Hpick.
  split; [|exact Hpick]. case_if.
  - destruct Hacc as (? & ? & _ & _ & _ & _ & _ & _ & Nr).
    assert (selected args l = []) as -> by (destruct (selected args l); [done|simpl in Nr; lia]). done.
  - apply (generate_spec (length l)); try done; [by eapply picked_ok|].
    destruct Hpick as [Hnd Hsub].
    enough (length (map entry_key (selected args l)) <= length (map entry_key l))%nat as H'
      by (rewrite !length_map in H'; lia).
    apply submseteq_length, NoDup_submseteq; [done|]. intros x Hx.
    apply list_elem_of_In, in_map_iff in Hx as (q & <- & Hq%list_elem_of_In).
    apply list_elem_of_In, in_map, list_elem_of_In. by apply Hsub.
Qed.

(** The entries selected, whatever the arguments, fit where all entries fit. *)
Lemma selected_picked l args : picked l (selected args l).
Proof.
  assert (forall pat l' sel, l' ⊆ l -> picked l sel -> picked l (foldl (select_entry pat) sel l')) as Hin.
  { intros pat l'. induction l' as [|p l' IH]; intros sel Hl Hp; [done|]. simpl. apply IH; [set_solver|].
    unfold select_entry. destruct (fnmatch _ _ && _) eqn:E; [|done].
    apply andb_true_iff in E as [_ E%negb_true_iff%bool_decide_eq_false_1].
    destruct Hp as [Hnd Hsub]. split.
    - rewrite map_app. apply NoDup_app. repeat split; [done| |apply NoDup_singleton].
      intros x Hx Hx'. apply list_elem_of_singleton in Hx'. by subst.
    - intros q [Hq|Hq%list_elem_of_singleton]%elem_of_app; [by apply Hsub|]. subst. apply Hl. by left. }
  unfold selected. assert (picked l []) as Hnil by (split; [constructor|set_solver]). revert Hnil.
  generalize (@nil entry) as sel. induction args as [|n args IH]; intros sel Hp; [done|].
  simpl. apply IH. destruct n as [[pat|] z| |]; try done. by apply Hin.
Qed.

Lemma picked_body_length l sel :
  picked l sel -> (length (concat (map pair_text sel)) <= length (concat (map pair_text l)))%nat /\
  (length sel <= length l)%nat.
Proof.
  intros [Hnd Hsub]. assert (sel ⊆+ l) as Hm.
  { apply NoDup_submseteq; [|exact Hsub]. by apply NoDup_fmap_1 in Hnd. }
  split; [|by apply submseteq_length].
  apply submseteq_Permutation in Hm as [k Hk].
  assert (forall a b, a ≡ₚ b -> length (concat (map pair_text a)) = length (concat (map pair_text b))) as Hp.
  { induction 1 as [|x a b _ IH|x y a|a b c _ IH1 _ IH2]; cbn [map concat]; rewrite ?length_app; lia. }
  rewrite (Hp _ _ Hk), map_app, concat_app, length_app. lia.
Qed.

Lemma selected_fits l args :
  2 * Z.of_nat (length l) < 10 ^ 7 -> Z.of_nat (length (concat (map pair_text l))) + 16 < INT_MAX ->
  Z.of_nat (length (encode (entries_node (selected args l)))) < INT_MAX.
Proof.
  intros Hn Hmax. destruct (picked_body_length _ _ (selected_picked l args)) as [Hb Hlen].
  rewrite encode_entries. cbn [length]. rewrite !length_app. change (length crlf) with 2%nat.
  enough (length (decimal (2 * Z.of_nat (length (selected args l)))) <= 7)%nat by lia.
  rewrite decimal_nonneg by lia. apply dec_digits_length; lia.
Qed.

(** The option after [CONFIG], up to case. *)
Lemma conf_cmd_get `{!FnmatchLaws} sm l c args :
  smap_repr sm l -> fold_case (c_str c) = bs "get" ->
  handle_conf_cmd (bulk c :: args) sm = handle_conf_get args sm.
Proof.
  intros R Hc. unfold handle_conf_cmd. cbn [bulk].
  destruct (repr_not_null _ _ R) as (-> & -> & _). cbn [orb is_null].
  rewrite search_table_spec by apply config_cmd_options_ok. cbn [mbind res_bind].
  unfold config_cmd_options, table_find. rewrite Hc. done.
Qed.
End response.

(** ** Properties *)

Section properties.
Context `{FnmatchLaws} `{Heap}.

(** C13. [CONFIG GET pattern ...] answers the array of the entries whose key matches
    one of the patterns, each entry once and in the order found. The two stack
    arrays have room for them whatever the patterns are, and the buffer sized from
    the two byte counters holds the text exactly. When no key matches, the answer is
    the empty array, and not the [NULL] that the comment of [handle_conf_get] speaks
    of. *)
Theorem config_get_exact sm l c args :
  smap_repr sm l -> Forall entry_ok l -> l <> [] -> 2 * Z.of_nat (length l) < 10 ^ 7 ->
  fold_case (c_str c) = bs "get" -> args <> [] -> Forall arg_ok args ->
  Z.of_nat (length (encode (entries_node (selected args l)))) < INT_MAX ->
  (forall z, 0 < z <= INT_MAX -> heap_grants 0 z = true) ->
  handle_conf_cmd (bulk c :: args) sm = Ok (Some (encode (entries_node (selected args l)))) /\
  NoDup (map entry_key (selected args l)) /\ selected args l ⊆ l /\
  (selected args l = [] -> encode (entries_node (selected args l)) = bs "*0" ++ crlf).
Proof.
  intros R Hl Hne Hn Hc Ha Hargs Hmax Hheap. rewrite (conf_cmd_get sm l) by done.
  destruct (conf_get_spec sm l args) as (E & Hnd & Hsub); [done..|]. split_and!; [done..|]. by intros ->.
Qed.
End properties.

(** ** Witness *)

Definition config_entry (k v : list byte) (now : timespec) : entry := (key_of k 0 0 now, Some (value_of v)).

Definition sample_config : list entry :=
  [config_entry (bs "dir") (bs "/tmp") noon; config_entry (bs "dbfilename") (bs "a.rdb") noon].

Lemma config_entry_ok k v now :
  nul_free k -> nul_free v -> text_ok k -> text_ok v -> entry_ok (config_entry k v now).
Proof. intros Hk Hv Tk Tv. unfold entry_ok. split_and!; done. Qed.

Lemma config_get_exact_witness :
  @handle_conf_cmd glob grants_all (map arg ["gEt"; "d*"; "x"]%string)
    (mkSM (Some (map kslot sample_config)) (Some (map vslot sample_config)) 2 1)
  = Ok (Some (encode (entries_node (@selected glob (map arg ["d*"; "x"]%string) sample_config)))) /\
  NoDup (map entry_key (@selected glob (map arg ["d*"; "x"]%string) sample_config)) /\
  @selected glob (map arg ["d*"; "x"]%string) sample_config ⊆ sample_config /\
  (@selected glob (map arg ["d*"; "x"]%string) sample_config = [] ->
   encode (entries_node (@selected glob (map arg ["d*"; "x"]%string) sample_config)) = bs "*0" ++ crlf).
Proof.
  apply (@config_get_exact glob glob_laws grants_all _ sample_config (bs "gEt")).
  - exists [], []. rewrite !app_nil_r. vm_compute. repeat split; discriminate.
  - repeat (constructor; [apply config_entry_ok; [nul_free_literal | nul_free_literal
      | vm_compute; split; discriminate | vm_compute; split; discriminate] |]). constructor.
  - discriminate.
  - vm_compute. reflexivity.
  - vm_compute. reflexivity.
  - discriminate.
  - args_ok.
  - vm_compute. reflexivity.
  - reflexivity.
Defined.
