(* ===== verification/Dispatch.v ===== *)
(** [parse_command] of [cmd_handler.c]: from a message to the handler of its
    command; and the server's behaviour on one request as a step of an abstract
    key-value server, which the concrete functions are shown to refine. *)

From S2P Require Import Prelude CLib Protocol SimpleMap KeyVal SetParser SetExec GetCmd Match Echo Config.

(** ** The dispatcher *)

Section dispatch.
Context `{Fnmatch} `{Heap}.

(** The loop descends into the first element of each array; [first_array] is
    an [unsigned char]. *)
Fixpoint parse_loop (fuel : nat) (gnode : list node) (first_array : Z) (sm cfg_dict : Store)
    (now : timespec) : res (option (list byte) * Store * list freed) :=
  match gnode with
  | [] => Ok (None, sm, [])
  | n :: next =>
      match fuel with
      | O => OOF
      | S fuel =>
          match n with
          | NArray content _ => parse_loop fuel content (uint8 (first_array + 1)) sm cfg_dict now
          | NArrayBase _ _ => UB
          | NBulk content _ =>
              if first_array =? 1 then
                cmd ← find_redis_cmd content;
                match cmd with
                | ECHO => rtn ← handle_echo_cmd next; Ok (rtn, sm, [])
                | SET => handle_set_cmd next sm now
                | GET => handle_get_cmd next sm now
                | CONFIG => rtn ← handle_conf_cmd next cfg_dict; Ok (rtn, sm, [])
                | NULL_CMD => Ok (None, sm, [])
                end
              else Ok (None, sm, [])
          end
      end
  end.

Definition parse_command (node : list node) (sm cfg_dict : Store) (now : timespec)
    : res (option (list byte) * Store * list freed) :=
  parse_loop (weights node) node 0 sm cfg_dict now.

End dispatch.

(** ** The abstract server

    Its state is the key space; [None] is the answer to what it does not
    understand. *)

Section abstract.
Context `{Fnmatch}.

Definition redis_step (entries : list entry) (words : list (list byte)) (now : timespec)
    (m : keyspace) : option (list byte) * keyspace :=
  match words with
  | [] => (None, m)
  | c :: args =>
      let name := fold_case (c_str c) in
      if decide (bs "echo" = name) then
        (match args with [] => None | _ => Some (encode_nodes (map bulk args)) end, m)
      else if decide (bs "set" = name) then
        match parse_set (map bulk args) with
        | Some r =>
            match (if texts_ok r then command_of r else None) with
            | Some cmd => (Some (set_reply cmd m), set_store cmd now m)
            | None => (None, m)
            end
        | None => (None, m)
        end
      else if decide (bs "get" = name) then
        match args with
        | [(_ :: _) as k] => (Some (get_reply k now m), get_store k now m)
        | _ => (None, m)
        end
      else if decide (bs "config" = name) then
        match args with
        | o :: ((_ :: _) as pats) =>
            if decide (bs "get" = fold_case (c_str o))
            then (Some (encode (entries_node (selected (map bulk pats) entries))), m)
            else (None, m)
        | _ => (None, m)
        end
      else (None, m)
  end.
End abstract.

(** A request as [lexer] delivers it. *)
Definition request (words : list (list byte)) : node :=
  NArray (map bulk words) (Z.of_nat (length words)).

(** The configuration map in place. *)
Record config_ok (cfg : Store) (entries : list entry) : Prop := {
  co_repr : smap_repr cfg entries;
  co_entries : Forall entry_ok entries;
  co_nonempty : entries <> [];
  co_count : 2 * Z.of_nat (length entries) < 10 ^ 7;
  co_size : Z.of_nat (length (concat (map pair_text entries))) + 16 < INT_MAX
}.

(** The words a request may be made of, and their total size. *)
Definition words_ok (words : list (list byte)) : Prop :=
  Forall echo_ok words /\ Z.of_nat (length (encode_nodes (map bulk words))) < INT_MAX.

(** ** Refinement of one step *)

Section refinement.
Context `{FnmatchLaws} `{Heap}.
Context (cfg : Store) (entries : list entry) (Hcfg : config_ok cfg entries).
Context (Hheap : forall n z, heap_grants n z = true).

Lemma bulk_args_ok words : Forall echo_ok words -> Forall arg_ok (map bulk words).
Proof.
  induction 1 as [|c words [_ Hc] _ IH]; constructor; [|done]. by split.
Qed.

Lemma weights_bulks words : weights (map bulk words) = length words.
Proof. induction words as [|c words IH]; [done|]. cbn [map weights length]. by rewrite IH. Qed.

Lemma parse_request c args sm now :
  parse_command [request (c :: args)] sm cfg now
  = (cmd ← find_redis_cmd (Some c);
     match cmd with
     | ECHO => rtn ← handle_echo_cmd (map bulk args); Ok (rtn, sm, [])
     | SET => handle_set_cmd (map bulk args) sm now
     | GET => handle_get_cmd (map bulk args) sm now
     | CONFIG => rtn ← handle_conf_cmd (map bulk args) cfg; Ok (rtn, sm, [])
     | NULL_CMD => Ok (None, sm, [])
     end).
Proof. done. Qed.

(** What a concrete step must be, given the abstract one. *)
Definition refines (sm : Store) (a : option (list byte) * keyspace)
    (o : res (option (list byte) * Store * list freed)) : Prop :=
  exists sm' log, o = Ok (a.1, sm', log) /\ holds sm' a.2 /\ grows sm sm'.

Lemma refines_same sm m o log :
  holds sm m -> o = Ok (None, sm, log) -> refines sm (None, m) o.
Proof. intros Hh ->. by exists sm, log. Qed.

(** Whatever the arguments are that [lexer] delivers. *)
Lemma set_refines l sm m now :
  Forall arg_ok l -> holds sm m -> can_grow sm ->
  refines sm
    (match parse_set l with
     | Some r =>
         match (if texts_ok r then command_of r else None) with
         | Some cmd => (Some (set_reply cmd m), set_store cmd now m)
         | None => (None, m)
         end
     | None => (None, m)
     end) (handle_set_cmd l sm now).
Proof.
  intros Hargs Hh Hg. destruct (parse_set _) as [r|] eqn:Hp.
  - destruct (texts_ok r) eqn:Ht.
    + pose proof (handle_set_spec _ r sm m now Hargs Hp Ht Hh Hg) as Hs.
      destruct (command_of r) as [cmd|].
      * destruct Hs as (sm' & -> & H' & Hgr). by eexists sm', _.
      * by eapply refines_same.
    + rewrite (handle_set_empty _ r) by done. by eapply refines_same.
  - unfold handle_set_cmd. rewrite validate_spec, Hp by done. by eapply refines_same.
Qed.

Lemma get_refines args sm m now :
  Forall echo_ok args -> holds sm m ->
  refines sm
    (match args with
     | [(_ :: _) as k] => (Some (get_reply k now m), get_store k now m)
     | _ => (None, m)
     end) (handle_get_cmd (map bulk args) sm now).
Proof.
  intros Hargs Hh. destruct args as [|[|b k] [|c args]]; try by eapply refines_same.
  apply Forall_cons in Hargs as [[_ Hk] _].
  destruct (handle_get_spec (b :: k) sm m now) as (sm' & log & E & H' & _ & Hg); [|done|].
  - unfold text_ok. simpl length in *. lia.
  - exists sm', log. split; [exact E|]. done.
Qed.

Lemma config_refines args sm m :
  Forall echo_ok args -> holds sm m ->
  refines sm
    (match args with
     | o :: ((_ :: _) as pats) =>
         if decide (bs "get" = fold_case (c_str o))
         then (Some (encode (entries_node (selected (map bulk pats) entries))), m)
         else (None, m)
     | _ => (None, m)
     end) (rtn ← handle_conf_cmd (map bulk args) cfg; Ok (rtn, sm, [])).
Proof.
  intros Hargs Hh. destruct Hcfg as [R He Hne Hn Hsize].
  destruct args as [|o [|p pats]]; [by eapply refines_same| |].
  - unfold handle_conf_cmd. cbn [map bulk]. destruct (repr_not_null _ _ R) as (-> & -> & _).
    cbn [orb is_null]. rewrite search_table_spec by apply config_cmd_options_ok. cbn [mbind res_bind].
    by destruct (table_find _ _) as [[]|]; eapply refines_same.
  - case_decide as Ho.
    + change (map bulk (o :: p :: pats)) with (bulk o :: map bulk (p :: pats)).
      rewrite (conf_cmd_get cfg entries) by done.
      destruct (conf_get_spec cfg entries (map bulk (p :: pats))) as [-> _]; try done.
      * apply bulk_args_ok. by apply Forall_cons in Hargs as [_ ?].
      * by apply selected_fits.
      * by exists sm, [].
    + unfold handle_conf_cmd. cbn [map bulk]. destruct (repr_not_null _ _ R) as (-> & -> & _).
      cbn [orb is_null]. rewrite search_table_spec by apply config_cmd_options_ok. cbn [mbind res_bind].
      unfold config_cmd_options, table_find.
      change (fold_case (bs "GET")) with (bs "get"). rewrite decide_False by done.
      by case_decide; eapply refines_same.
Qed.

Lemma parse_command_refines words sm m now :
  words <> [] -> words_ok words -> holds sm m -> can_grow sm ->
  refines sm (redis_step entries words now m) (parse_command [request words] sm cfg now).
Proof.
  intros Hne [Hw Hsize] Hh Hg. destruct words as [|c args]; [done|].
  apply Forall_cons in Hw as [Hc Hargs]. rewrite parse_request, find_redis_cmd_spec. cbn [mbind res_bind].
  unfold redis_step, command_table, table_find.
  change (fold_case (bs "ECHO")) with (bs "echo"). change (fold_case (bs "SET")) with (bs "set").
  change (fold_case (bs "GET")) with (bs "get"). change (fold_case (bs "CONFIG")) with (bs "config").
  generalize (fold_case (c_str c)). intros name.
  destruct (decide (bs "echo" = name)); cbn [default].
  { destruct args as [|w args]; [by eapply refines_same|].
    rewrite handle_echo_flat by (done || (cbn [map encode_nodes] in *; rewrite ?length_app in *; lia)).
    by exists sm, []. }
  destruct (decide (bs "set" = name)); cbn [default]; [by apply set_refines; [apply bulk_args_ok|..]|].
  destruct (decide (bs "get" = name)); cbn [default]; [by apply get_refines|].
  destruct (decide (bs "config" = name)); cbn [default]; [by apply config_refines|].
  by eapply refines_same.
Qed.
End refinement.

(** ** Nesting *)

(** A message wrapped in [k] arrays of one element. *)
Definition nest (k : nat) (l : list node) : list node := Nat.iter k (fun l => [NArray l 1]) l.

Section nesting.
Context `{Fnmatch} `{Heap}.

Lemma parse_loop_fuel f f' l d sm cfg now :
  (weights l <= f)%nat -> (weights l <= f')%nat ->
  parse_loop f l d sm cfg now = parse_loop f' l d sm cfg now.
Proof.
  revert f' l d. induction f as [|f IH]; intros f' l d Hf Hf'.
  - destruct l as [|n l]; [by destruct f'|]. simpl in Hf. pose proof (weight_pos n). lia.
  - destruct l as [|n l]; [by destruct f'|]. cbn [weights] in *. pose proof (weight_pos n).
    destruct f' as [|f']; [lia|]. cbn [parse_loop]. destruct n as [c z|es z|t z]; try done.
    rewrite weight_array in *. apply IH; lia.
Qed.

Lemma weights_nest k l : weights (nest k l) = (k + weights l)%nat.
Proof.
  induction k as [|k IH]; [done|].
  change (nest (S k) l) with [NArray (nest k l) 1]. cbn [weights]. rewrite weight_array, IH. lia.
Qed.

Lemma parse_nest k l d sm cfg now :
  parse_loop (k + weights l) (nest k l) d sm cfg now
  = parse_loop (weights l) l (if k then d else uint8 (d + Z.of_nat k)) sm cfg now.
Proof.
  revert d. induction k as [|k IH]; intros d; [done|].
  change (nest (S k) l) with [NArray (nest k l) 1]. cbn [Nat.add parse_loop]. rewrite IH. f_equal.
  unfold uint8. destruct k as [|k].
  - done.
  - rewrite Zplus_mod_idemp_l. f_equal. lia.
Qed.
End nesting.

(** ** Properties *)

Section properties.
Context `{FnmatchLaws} `{Heap}.

(** C3. One request is one step of the abstract server: whatever the words of
    a request are - a command in any case, its options, or nothing that is
    understood - [parse_command] answers what [redis_step] answers and leaves a
    store that holds the key space [redis_step] leaves. *)
Theorem command_refines_step cfg entries words sm m now :
  config_ok cfg entries -> (forall n z, heap_grants n z = true) ->
  words <> [] -> words_ok words -> holds sm m -> can_grow sm ->
  exists sm' log,
    parse_command [request words] sm cfg now = Ok ((redis_step entries words now m).1, sm', log) /\
    holds sm' (redis_step entries words now m).2.
Proof.
  intros Hcfg Hheap Hne Hw Hh Hg.
  destruct (parse_command_refines cfg entries Hcfg Hheap words sm m now Hne Hw Hh Hg)
    as (sm' & log & E & H' & _). by exists sm', log.
Qed.

(** C38. Only a command at depth one is meant to run, but the depth is counted
    in an [unsigned char]: a request wrapped in [k] more arrays is refused
    unless [k] is a multiple of 256, when it runs like the bare request. *)
Theorem nesting_depth_wraps k words sm cfg now :
  words <> [] ->
  parse_command (nest k [request words]) sm cfg now
  = if Z.of_nat k mod 256 =? 0 then parse_command [request words] sm cfg now else Ok (None, sm, []).
Proof.
  intros Hw. unfold parse_command. rewrite weights_nest, parse_nest.
  destruct words as [|c args]; [done|]. unfold request.
  change (weights [NArray (map bulk (c :: args)) (Z.of_nat (length (c :: args)))])
    with (S (weights (map bulk (c :: args)) + 0)). cbn [parse_loop map].
  destruct (weights (bulk c :: map bulk args) + 0)%nat as [|f] eqn:Ef; [done|]. cbn [parse_loop bulk].
  assert (uint8 ((if k then 0 else uint8 (0 + Z.of_nat k)) + 1) = (Z.of_nat k + 1) mod 256) as ->.
  { unfold uint8. destruct k as [|k]; [done|]. rewrite Z.add_0_l, Zplus_mod_idemp_l. done. }
  change (uint8 (0 + 1) =? 1) with true. cbv iota.
  pose proof (Z.mod_pos_bound (Z.of_nat k) 256 ltac:(lia)).
  assert (((Z.of_nat k + 1) mod 256 =? 1) = (Z.of_nat k mod 256 =? 0)) as ->; [|done].
  rewrite <- Zplus_mod_idemp_l. apply eq_iff_eq_true. rewrite !Z.eqb_eq.
  destruct (Z.eq_dec (Z.of_nat k mod 256) 255) as [->|Hn]; [done|].
  rewrite Z.mod_small by lia. lia.
Qed.
End properties.

(** ** Witnesses *)

Definition sample_map : Store :=
  mkSM (Some (map kslot sample_config)) (Some (map vslot sample_config)) 2 1.

Lemma sample_config_ok : config_ok sample_map sample_config.
Proof.
  split.
  - exists [], []. rewrite !app_nil_r. vm_compute. repeat split; discriminate.
  - repeat (constructor; [apply config_entry_ok; [nul_free_literal | nul_free_literal
      | vm_compute; split; discriminate | vm_compute; split; discriminate] |]). constructor.
  - discriminate.
  - vm_compute. reflexivity.
  - vm_compute. reflexivity.
Qed.

Lemma command_refines_step_witness :
  exists sm' log,
    @parse_command glob grants_all [request (map bs ["seT"; "k"; "v"; "GET"]%string)]
      create_simple_map sample_map noon
    = Ok ((@redis_step glob sample_config (map bs ["seT"; "k"; "v"; "GET"]%string) noon ∅).1, sm', log) /\
    holds sm' (@redis_step glob sample_config (map bs ["seT"; "k"; "v"; "GET"]%string) noon ∅).2.
Proof.
  apply (@command_refines_step glob glob_laws grants_all sample_map sample_config).
  - apply sample_config_ok.
  - reflexivity.
  - discriminate.
  - refine (conj _ _); [refine (bool_decide_eq_true_1 _ _)|]; vm_compute; reflexivity.
  - apply holds_create.
  - apply create_can_grow.
Defined.

Lemma nesting_depth_wraps_witness :
  @parse_command glob grants_all (nest 3 [request (map bs ["GET"; "k"]%string)])
    create_simple_map sample_map noon
  = if Z.of_nat 3 mod 256 =? 0
    then @parse_command glob grants_all [request (map bs ["GET"; "k"]%string)]
           create_simple_map sample_map noon
    else Ok (None, create_simple_map, []).
Proof.
  apply (@nesting_depth_wraps glob grants_all 3 (map bs ["GET"; "k"]%string)).
  discriminate.
Defined.
