(* ===== verification/App.v ===== *)
(** The request loop of [app.c] on one connection: a byte [*] starts a message,
    which is read, printed, executed and released, and whose answer is sent;
    and the conversation of a client with the server as a run of the abstract
    server. *)

From S2P Require Import Prelude CLib Errors Net Protocol SimpleMap KeyVal.
From S2P Require Import SetParser SetExec GetCmd Match Echo Config Dispatch.

Definition error_msg : list byte := bs "An error occured while parsing the command.".

(** What goes out for a text: [strlen(text)+1] bytes. *)
Definition sent (text : list byte) : list byte := c_str text ++ [NUL].

Section app.
Context `{Fnmatch} `{Heap}.
Context (config_dict : Store) (clock : nat -> timespec).

(** How a round of [while(1)] ends: [break] or [return], a byte that is not
    the start of a message, a message that has been answered. *)
Inductive round_end := R_over | R_skip | R_served.

(** One round; [now] is the time at which its command runs. [continue] after a
    failed send skips the release. *)
Definition app_round (now : timespec) (sm : Store) (s : Sock) : res (round_end * Sock * Store) :=
  '(rtn, buff, s) ← recv_resp_fm_clnt 0 true 1 3 s;
  if rtn =? -1 then Ok (R_over, s, sm)
  else if rtn =? 0 then Ok (R_over, s, sm)
  else if decide (buff = [ASTERISK_BYTE]) then
    '(array, s) ← lex s;
    match array with
    | None =>
        '(_, s) ← send_resp_to_clnt 500 (sent error_msg) 3 s;
        Ok (R_over, s, sm)
    | Some array =>
        _ ← print_array [array] 0;
        '(rtn_s, sm, _) ← parse_command [array] sm config_dict now;
        let msg := match rtn_s with None => error_msg | Some text => text end in
        '(rtn_v, s) ← send_resp_to_clnt 500 (sent msg) 3 s;
        if rtn_v =? -1 then Ok (R_served, s, sm)
        else
          _ ← delete_array [array];
          Ok (R_served, s, sm)
    end
  else Ok (R_skip, s, sm).

(** The rounds of one connection; [clock i] is the time when its [i]-th message
    is executed. *)
Fixpoint app_loop (fuel : nat) (i : nat) (sm : Store) (s : Sock) : res (Sock * Store) :=
  match fuel with
  | O => OOF
  | S fuel =>
      '(next, s, sm) ← app_round (clock i) sm s;
      match next with
      | R_over => Ok (s, sm)
      | R_skip => app_loop fuel i sm s
      | R_served => app_loop fuel (S i) sm s
      end
  end.

Definition app_code (sm : Store) (s : Sock) : res (Sock * Store) :=
  app_loop (S (length (rx s))) 0 sm s.

End app.

(** ** The conversation *)

Section conversation.
Context `{Fnmatch}.

(** The bytes a client sends for a list of requests. *)
Definition wire (requests : list (list (list byte))) : list byte :=
  concat (map (fun words => encode (request words)) requests).

(** The abstract server on a list of requests: what it sends and where it
    ends. *)
Fixpoint redis_run (entries : list entry) (clock : nat -> timespec) (i : nat)
    (requests : list (list (list byte))) (m : keyspace) : list byte * keyspace :=
  match requests with
  | [] => ([], m)
  | words :: requests =>
      let '(reply, m) := redis_step entries words (clock i) m in
      let '(out, m) := redis_run entries clock (S i) requests m in
      (sent (default error_msg reply) ++ out, m)
  end.
End conversation.

(** A request a client may send. *)
Definition sendable (words : list (list byte)) : Prop :=
  words <> [] /\ Z.of_nat (length words) < 2 ^ 31 /\ words_ok words.

(** ** Reading, printing and releasing a request *)

Section messages.
Context `{Heap}.
Context (Hheap : forall n z, heap_grants n z = true).

Lemma request_resp_ok words : sendable words -> resp_ok (request words).
Proof.
  intros (Hne & Hlen & Hw & _). apply resp_ok_array. split; [by rewrite length_map|].
  split; [destruct words; simpl in *; [done|lia]|].
  clear -Hw. induction Hw as [|c words [_ Hc] _ IH]; [done|]. by split; [split|].
Qed.

Lemma lex_request words s r :
  sendable words -> rx s = rx_data (tail (encode (request words))) ++ r ->
  lex s = Ok (Some (request words), with_rx r s).
Proof.
  intros Hw Hrx. apply request_resp_ok in Hw as Hok. unfold request in *. rewrite encode_array in Hrx.
  cbn [tail] in Hrx. apply (proj1 (lexer_encoded (fun n _ => Hheap 0 n) _)); [lia|done|].
  by rewrite Hrx.
Qed.

Lemma print_request words : exists t, print_array [request words] 0 = Ok t.
Proof.
  unfold request, print_array, print_nodes, print_node.
  assert (forall words i, exists t, (fix go (l : list node) (index : Z) : res (list byte) :=
    match l with
    | [] => Ok []
    | n :: l => t ← print_node n 1; r ← go l (index + 1); Ok (print_head index 1 ++ t ++ r)
    end) (map bulk words) i = Ok t) as Hgo.
  { clear. induction words as [|c words IH]; intros i; [by eexists|].
    destruct (IH (i + 1)) as [t E]. cbn [map]. simpl. simpl in E. rewrite E. by eexists. }
  destruct (Hgo words 0) as [t E]. fold print_node. rewrite E. by eexists.
Qed.

Lemma delete_request words : sendable words -> exists f, delete_array [request words] = Ok f.
Proof.
  intros Hw%request_resp_ok. eexists. apply (proj2 (delete_resp_ok (S (length (encode_nodes [request words]))))).
  - lia.
  - done.
Qed.
End messages.

(** ** The loop follows the abstract server *)

Section simulation.
Context `{FnmatchLaws} `{Heap}.
Context (cfg : Store) (entries : list entry) (Hcfg : config_ok cfg entries).
Context (Hheap : forall n z, heap_grants n z = true) (clock : nat -> timespec).

(** Room for [n] more keys. *)
Definition roomy (n : nat) (sm : Store) : Prop :=
  sm_top sm + 1 + Z.of_nat n <= 2 ^ 28 /\ sm_capacity sm <= 2 ^ 29.

Lemma roomy_can_grow n sm : roomy (S n) sm -> can_grow sm.
Proof.
  intros [Ht Hc] _. rewrite !Hheap. split; [|done]. unfold INT_MAX. lia.
Qed.

Lemma roomy_grows n sm sm' : roomy (S n) sm -> grows sm sm' -> roomy n sm'.
Proof. intros [Ht Hc] [Ht' Hc']. unfold roomy. lia. Qed.

Lemma send_plain buf s :
  tx_plan s = [] ->
  send_resp_to_clnt 500 buf 3 s
  = Ok (Z.of_nat (length buf), mkSock (rx s) [] (naps s) (tx s ++ buf)).
Proof.
  intros E. unfold send_resp_to_clnt, sys_send. rewrite E. cbn [mbind res_bind].
  by replace (Z.of_nat (length buf) =? -1) with false by (symmetry; apply Z.eqb_neq; lia).
Qed.

Lemma recv_star s r :
  rx s = RxByte ASTERISK_BYTE :: r ->
  recv_resp_fm_clnt 0 true 1 3 s = Ok (1, [ASTERISK_BYTE], with_rx r s).
Proof.
  intros E. unfold recv_resp_fm_clnt. by rewrite (sys_recv_byte ASTERISK_BYTE r s).
Qed.

(** A round on a request is a step of the abstract server. *)
Lemma request_round words requests now sm m s :
  sendable words -> holds sm m -> can_grow sm ->
  rx s = rx_data (wire (words :: requests)) -> tx_plan s = [] ->
  exists sm',
    app_round cfg now sm s
    = Ok (R_served, mkSock (rx_data (wire requests)) [] (naps s)
        (tx s ++ sent (default error_msg (redis_step entries words now m).1)), sm') /\
    holds sm' (redis_step entries words now m).2 /\ grows sm sm'.
Proof.
  intros Hw Hh Hg Hrx Htx. unfold app_round. unfold wire in Hrx. cbn [map concat] in Hrx.
  fold (wire requests) in Hrx. rewrite rx_data_app in Hrx.
  assert (encode (request words) = ASTERISK_BYTE :: tail (encode (request words))) as Ee
    by (unfold request; by rewrite encode_array).
  rewrite Ee in Hrx. rewrite (recv_star s (rx_data (tail (encode (request words))) ++ rx_data (wire requests)))
    by done.
  cbn [mbind res_bind]. change (1 =? -1) with false. change (1 =? 0) with false. cbv iota.
  rewrite decide_True by done. rewrite (lex_request Hheap words _ (rx_data (wire requests))) by done.
  cbn [mbind res_bind]. destruct (print_request words) as [t ->]. cbn [mbind res_bind].
  destruct (delete_request words Hw) as [f Ef]. destruct Hw as (Hne & Hlen & Hwords).
  destruct (parse_command_refines cfg entries Hcfg Hheap words sm m now Hne Hwords Hh Hg)
    as (sm1 & log & -> & Hh1 & Hg1).
  destruct (redis_step entries words now m) as [reply m1]. cbn [fst snd mbind res_bind] in *.
  rewrite send_plain by done. cbn [mbind res_bind]. if_false. rewrite Ef. cbn [mbind res_bind].
  exists sm1. split; [by destruct reply|done].
Qed.

(** ... and a round on a connection that the client has closed is the last one. *)
Lemma last_round now sm s : rx s = [] -> app_round cfg now sm s = Ok (R_over, s, sm).
Proof. intros E. unfold app_round, recv_resp_fm_clnt, sys_recv. by rewrite E. Qed.

Lemma app_loop_simulates k requests fuel i sm m s :
  Forall sendable requests -> holds sm m -> roomy (length requests + k) sm ->
  rx s = rx_data (wire requests) -> tx_plan s = [] -> (length requests < fuel)%nat ->
  exists s' sm', app_loop cfg clock fuel i sm s = Ok (s', sm') /\
    tx s' = tx s ++ (redis_run entries clock i requests m).1 /\
    holds sm' (redis_run entries clock i requests m).2 /\ roomy k sm'.
Proof.
  intros Hr. revert fuel i sm m s. induction Hr as [|words requests Hw _ IH];
    intros fuel i sm m s Hh Hroom Hrx Htx Hf; (destruct fuel as [|fuel]; [simpl in Hf; lia|]);
    cbn [app_loop redis_run length] in *.
  - rewrite last_round by done. exists s, sm. by rewrite app_nil_r.
  - destruct (request_round words requests (clock i) sm m s) as (sm1 & -> & Hh1 & Hg1);
      [done|done|by eapply roomy_can_grow|done|done|].
    cbn [mbind res_bind]. destruct (redis_step entries words (clock i) m) as [reply m1]. cbn [fst snd] in *.
    destruct (IH fuel (S i) sm1 m1 (mkSock (rx_data (wire requests)) [] (naps s)
      (tx s ++ sent (default error_msg reply)))) as (s' & sm' & E & Htx' & Hh');
      [done|by eapply roomy_grows|done|done|lia|].
    destruct (redis_run entries clock (S i) requests m1) as [out m2]. cbn [fst snd] in *.
    exists s', sm'. split; [exact E|]. split; [|exact Hh'].
    rewrite Htx'. cbn [tx]. by rewrite <- (assoc_L (++)).
Qed.

Lemma wire_length requests : (length requests <= length (wire requests))%nat.
Proof.
  unfold wire. induction requests as [|words requests IH]; [done|]. cbn [map concat length].
  rewrite length_app. unfold request at 1. rewrite encode_array. cbn [length]. lia.
Qed.

Lemma app_code_simulates k requests sm m s :
  Forall sendable requests -> holds sm m -> roomy (length requests + k) sm ->
  rx s = rx_data (wire requests) -> tx_plan s = [] ->
  exists s' sm', app_code cfg clock sm s = Ok (s', sm') /\
    tx s' = tx s ++ (redis_run entries clock 0 requests m).1 /\
    holds sm' (redis_run entries clock 0 requests m).2 /\ roomy k sm'.
Proof.
  intros Hr Hh Hroom Hrx Htx. unfold app_code. apply app_loop_simulates; try done.
  rewrite Hrx. unfold rx_data. rewrite length_map. pose proof (wire_length requests). lia.
Qed.
End simulation.

(** ** Binary values *)

(** What is sent of a bulk string stops at its first NUL. *)
Lemma sent_cut a b :
  nul_free a ->
  sent (encode (bulk (a ++ NUL :: b)))
  = DOLLAR_BYTE :: decimal (Z.of_nat (length (a ++ NUL :: b))) ++ crlf ++ a ++ [NUL].
Proof.
  intros Ha. unfold sent, bulk. cbn [encode default id]. unfold id. set (d := decimal _).
  assert (nul_free (DOLLAR_BYTE :: d ++ crlf ++ a)) as Hn.
  { apply nul_free_cons. split; [done|]. rewrite !nul_free_app.
    split_and!; [apply decimal_nul_free | nul_free_literal | done]. }
  replace (DOLLAR_BYTE :: d ++ crlf ++ (a ++ NUL :: b) ++ crlf)
    with ((DOLLAR_BYTE :: d ++ crlf ++ a) ++ (NUL :: b ++ crlf)).
  - rewrite c_str_app by done. cbn [c_str]. rewrite decide_True by done. rewrite app_nil_r.
    cbn [app]. by rewrite <- !(assoc_L (++)).
  - cbn [app]. by rewrite <- !(assoc_L (++)).
Qed.

(** A plain [SET] and a [GET] of its key. *)
Lemma plain_set_get `{Heap} c v now now' sm m :
  text_ok c -> text_ok v -> holds sm m -> can_grow sm ->
  exists sm1 log1 sm2 log2,
    handle_set_cmd [bulk c; bulk v] sm now = Ok (Some ok_reply, sm1, log1) /\
    handle_get_cmd [bulk c] sm1 now' = Ok (Some (encode (bulk v)), sm2, log2).
Proof.
  intros Hc Hv Hh Hg.
  pose proof (handle_set_spec [bulk c; bulk v] (mkSetRequest (bulk c) (bulk v) None None None) sm m now) as Hs.
  destruct Hs as (sm1 & E1 & H1 & _); [|done| |done|done|].
  - unfold text_ok in *. repeat (constructor; [split; [done|]; lia|]). constructor.
  - unfold texts_ok, text_ok in *. cbn. rewrite !bool_decide_eq_true_2; [done|..];
      intros E; rewrite E in *; simpl in *; lia.
  - destruct (handle_get_spec c sm1 _ now' Hc H1) as (sm2 & log2 & E2 & _).
    eexists sm1, _, sm2, log2. split; [exact E1|]. rewrite E2. do 4 f_equal.
    unfold get_reply, set_store. cbn [sc_cond permits sc_key]. cbn. rewrite lookup_insert_eq. done.
Qed.

(** ** Properties *)

Section properties.
Context `{FnmatchLaws} `{Heap}.

(** A conversation is a run of the abstract server: a client that sends
    requests one after the other to a freshly started server is sent exactly
    the answers of [redis_run], in order, and the key space ends as there;
    nothing on the way - reading, printing, executing, releasing - touches a
    bad pointer. Each answer carries the NUL byte behind its text. *)
Lemma conversation_refines_run cfg entries clock requests s :
  config_ok cfg entries -> (forall n z, heap_grants n z = true) ->
  Forall sendable requests -> Z.of_nat (length requests) <= 2 ^ 28 ->
  rx s = rx_data (wire requests) -> tx_plan s = [] ->
  exists s' sm', app_code cfg clock create_simple_map s = Ok (s', sm') /\
    tx s' = tx s ++ (redis_run entries clock 0 requests ∅).1 /\
    holds sm' (redis_run entries clock 0 requests ∅).2.
Proof.
  intros Hcfg Hheap Hr Hn Hrx Htx.
  destruct (app_code_simulates cfg entries Hcfg Hheap clock 0 requests create_simple_map ∅ s)
    as (s' & sm' & E & Htx' & Hh & _); try done.
  - apply holds_create.
  - unfold roomy. simpl. lia.
  - by exists s', sm'.
Qed.

(** C39. Answers are not binary safe: a value with a NUL byte inside is stored
    whole by [SET], but the client that asks for it with [GET] is sent the length
    of the whole and only the bytes before the NUL. *)
Theorem binary_value_truncated c a b now now' sm m :
  nul_free a -> text_ok c -> text_ok (a ++ NUL :: b) -> holds sm m -> can_grow sm ->
  exists sm1 log1 answer sm2 log2,
    handle_set_cmd [bulk c; bulk (a ++ NUL :: b)] sm now = Ok (Some ok_reply, sm1, log1) /\
    handle_get_cmd [bulk c] sm1 now' = Ok (Some answer, sm2, log2) /\
    answer = encode (bulk (a ++ NUL :: b)) /\
    sent answer = DOLLAR_BYTE :: decimal (Z.of_nat (length (a ++ NUL :: b))) ++ crlf ++ a ++ [NUL].
Proof.
  intros Ha Hc Hv Hh Hg. set (v := a ++ NUL :: b) in *.
  destruct (plain_set_get c v now now' sm m Hc Hv Hh Hg) as (sm1 & log1 & sm2 & log2 & E1 & E2).
  exists sm1, log1, (encode (bulk v)), sm2, log2. split; [exact E1|]. split; [exact E2|]. split; [done|].
  by apply sent_cut.
Qed.
End properties.

(** ** Witnesses *)

Definition sample_requests : list (list (list byte)) :=
  [map bs ["set"; "k"; "v"; "EX"; "10"]%string; map bs ["GET"; "k"]%string;
   map bs ["ECHO"; "hello"]%string; map bs ["CONFIG"; "GET"; "dir"]%string;
   map bs ["FLUSHALL"]%string].

Example sample_conversation :
  exists s' sm', @app_code glob grants_all sample_map (fun i => mkTimespec (Z.of_nat i) 0) create_simple_map
      (sock_of (wire sample_requests)) = Ok (s', sm') /\
    tx s' = [] ++ (@redis_run glob sample_config (fun i => mkTimespec (Z.of_nat i) 0) 0 sample_requests ∅).1 /\
    holds sm' (@redis_run glob sample_config (fun i => mkTimespec (Z.of_nat i) 0) 0 sample_requests ∅).2.
Proof.
  apply (@conversation_refines_run glob glob_laws grants_all sample_map sample_config
           (fun i => mkTimespec (Z.of_nat i) 0) sample_requests (sock_of (wire sample_requests))).
  - apply sample_config_ok.
  - reflexivity.
  - repeat (constructor; [split; [discriminate | split; [vm_compute; reflexivity |
      split; [refine (bool_decide_eq_true_1 _ _); vm_compute; reflexivity | vm_compute; reflexivity]]] |]).
    constructor.
  - vm_compute. discriminate.
  - reflexivity.
  - reflexivity.
Defined.

Lemma binary_value_truncated_witness :
  exists sm1 log1 answer sm2 log2,
    @handle_set_cmd grants_all [bulk (bs "k"); bulk (bs "a" ++ NUL :: bs "b")] create_simple_map noon
    = Ok (Some ok_reply, sm1, log1) /\
    handle_get_cmd [bulk (bs "k")] sm1 noon = Ok (Some answer, sm2, log2) /\
    answer = encode (bulk (bs "a" ++ NUL :: bs "b")) /\
    sent answer = DOLLAR_BYTE :: decimal (Z.of_nat (length (bs "a" ++ NUL :: bs "b"))) ++ crlf ++ bs "a" ++ [NUL].
Proof.
  apply (@binary_value_truncated grants_all (bs "k") (bs "a") (bs "b") noon noon create_simple_map ∅).
  - nul_free_literal.
  - vm_compute. split; discriminate.
  - vm_compute. split; discriminate.
  - apply holds_create.
  - apply create_can_grow.
Defined.
