(* ===== verification/Termination.v ===== *)
(** Termination: none of the command handlers runs out of the fuel its loops
    are given, whatever the message and the store are; and so the request loop
    ends on every connection. *)

From S2P Require Import Prelude CLib Errors Net Protocol SimpleMap KeyVal.
From S2P Require Import SetParser SetExec GetCmd Match Echo Config Dispatch App.

(** The function comes back: with a result, or with undefined behaviour at a
    place the other files characterise, but not by using up the fuel of a loop. *)
Definition halts {A} (o : res A) : Prop := match o with OOF => False | _ => True end.

Lemma halts_not_OOF {A} (o : res A) : o <> OOF -> halts o.
Proof. by destruct o. Qed.


(** ** The store *)

Section store.
Context {K V : Type} (cmp_fptr : option K -> option K -> res bool) `{Heap}.
Context (Hcmp : forall a b, cmp_fptr a b <> OOF).
Implicit Types (sm : SimpleMap K V).

Lemma slot_null_not_OOF {A} (s : slot A) : slot_null s <> OOF.
Proof. by destruct s. Qed.
Lemma slot_deref_not_OOF {A} (s : slot A) : slot_deref s <> OOF.
Proof. by destruct s. Qed.
#[local] Hint Resolve slot_null_not_OOF slot_deref_not_OOF Hcmp : redis.

Lemma find_not_OOF sm k : __find sm k cmp_fptr <> OOF.
Proof.
  unfold __find. destruct (is_null k); [done|]. destruct (sm_keys sm); [|done].
  apply find_loop_not_OOF; [done|lia|lia].
Qed.
#[local] Hint Resolve find_not_OOF : redis.

Lemma __set_not_OOF sm kvp : __set sm kvp <> OOF.
Proof. unfold __set, __double_arrays, ub_unless. not_OOF. Qed.

Lemma __upgrade_not_OOF sm pos kvp : __upgrade sm pos kvp <> OOF.
Proof. unfold __upgrade. not_OOF. Qed.
#[local] Hint Resolve __set_not_OOF __upgrade_not_OOF : redis.

Lemma set_not_OOF sm kvp : set sm kvp cmp_fptr <> OOF.
Proof. unfold set. not_OOF. Qed.

Lemma get_not_OOF sm k : get sm k cmp_fptr <> OOF.
Proof. unfold get. not_OOF. Qed.

Lemma shift_loop_not_OOF fuel (ks : list (slot (KeyWrapper K))) (vs : list (slot (ValueWrapper V))) top i :
  i <= top -> (Z.to_nat (top - i) < fuel)%nat -> shift_loop fuel ks vs top i <> OOF.
Proof.
  revert ks vs i. induction fuel as [|fuel IH]; intros ks vs i Hi Hf; [lia|]. cbn [shift_loop].
  case_if; [not_OOF|].
  do 4 (apply bind_not_OOF; [auto with redis | intros ? _]). apply IH; lia.
Qed.

Lemma remove_loop_not_OOF fuel sm ks vs k i :
  0 <= i -> (Z.to_nat (sm_top sm + 1 - i) <= fuel)%nat ->
  remove_loop fuel sm ks vs k cmp_fptr i <> OOF.
Proof.
  revert ks vs i. induction fuel as [|fuel IH]; intros ks vs i Hi Hf; cbn [remove_loop]; case_if; try done.
  - lia.
  - apply bind_not_OOF; [auto with redis|]. intros s _.
    apply bind_not_OOF; [auto with redis|]. intros [] _; [done|].
    apply bind_not_OOF; [auto with redis|]. intros w _.
    apply bind_not_OOF; [auto|]. intros [] _; cbn [negb]; [|apply IH; lia].
    apply bind_not_OOF; [auto with redis|]. intros v _.
    apply bind_not_OOF; [auto with redis|]. intros vw _.
    apply bind_not_OOF; [apply shift_loop_not_OOF; lia|]. by intros [].
Qed.

Lemma remove_not_OOF sm k : remove_key sm k cmp_fptr <> OOF.
Proof.
  unfold remove_key. destruct (is_null k); [done|].
  destruct (sm_keys sm), (sm_values sm); try done. apply remove_loop_not_OOF; lia.
Qed.
End store.

#[export] Hint Resolve slot_null_not_OOF slot_deref_not_OOF compare_not_OOF : redis.
#[export] Hint Resolve set_not_OOF get_not_OOF remove_not_OOF : redis.

(** ** Key and value objects *)

Lemma memcpy_not_OOF dst pos src : memcpy dst pos src <> OOF.
Proof. unfold memcpy. by case_if. Qed.

Lemma copy_chars_not_OOF dst pos src n : copy_chars dst pos src n <> OOF.
Proof.
  unfold copy_chars, ub_unless. destruct src; case_if; try done. apply memcpy_not_OOF.
Qed.

Lemma copy_text_not_OOF c n : copy_text c n <> OOF.
Proof. unfold copy_text, ub_unless. by case_if. Qed.

#[export] Hint Resolve memcpy_not_OOF copy_chars_not_OOF copy_text_not_OOF : redis.

Lemma to_string_not_OOF n : key_or_value_node_to_string n <> OOF.
Proof.
  unfold key_or_value_node_to_string, ub_unless. destruct n as [n|]; [|done].
  case_if; [|done]. case_if; [done|]. not_OOF.
Qed.

Lemma create_key_node_not_OOF c ex px z now : create_key_node c ex px z now <> OOF.
Proof. unfold create_key_node. not_OOF. Qed.

Lemma create_value_node_not_OOF n : create_value_node n <> OOF.
Proof. unfold create_value_node, create_value_node_string. not_OOF. Qed.

Lemma has_key_expired_not_OOF a b : has_key_expired a b <> OOF.
Proof. unfold has_key_expired. case_if; [done|]. not_OOF. Qed.

#[export] Hint Resolve to_string_not_OOF create_key_node_not_OOF create_value_node_not_OOF
  has_key_expired_not_OOF : redis.

(** ** The parser of [SET] *)

Lemma valid_loop_not_OOF fuel st b :
  (Z.to_nat (b + 1) <= fuel)%nat -> valid_loop fuel st b <> OOF.
Proof.
  revert b. induction fuel as [|fuel IH]; intros b Hf; cbn [valid_loop]; case_if; try done.
  - lia.
  - case_if; [done | apply IH; lia].
Qed.

Lemma is_set_option_valid_not_OOF st b : is_set_option_valid st b <> OOF.
Proof. unfold is_set_option_valid. case_if; [done|]. apply valid_loop_not_OOF. lia. Qed.
#[export] Hint Resolve is_set_option_valid_not_OOF : redis.

Lemma handle_set_options_not_OOF st pc l b : handle_set_options st pc l b <> OOF.
Proof. unfold handle_set_options. not_OOF. Qed.

Lemma get_option_type_not_OOF c : get_option_type c <> OOF.
Proof. unfold get_option_type. not_OOF. Qed.

Lemma bulk_content_not_OOF n : bulk_content n <> OOF.
Proof. by destruct n. Qed.

Lemma digits_loop_not_OOF fuel c z i :
  0 <= i -> (Z.to_nat (z - i) <= fuel)%nat -> digits_loop fuel c z i <> OOF.
Proof.
  revert i. induction fuel as [|fuel IH]; intros i Hi Hf; cbn [digits_loop]; case_if; try done.
  - lia.
  - apply bind_not_OOF; [unfold char_at; not_OOF|]. intros b _. case_if; [done|apply IH; lia].
Qed.

Lemma validate_content_not_OOF c z st : __validate_px_ex_content c z st <> OOF.
Proof.
  unfold __validate_px_ex_content. case_if; [done|]. case_if; [done|].
  apply bind_not_OOF; [apply digits_loop_not_OOF; lia|]. by intros [].
Qed.
#[export] Hint Resolve handle_set_options_not_OOF get_option_type_not_OOF bulk_content_not_OOF
  validate_content_not_OOF : redis.

(** An option is consumed, or the state becomes negative. *)
Lemma handle_set_options_progress st pc l b st' pc' l' :
  handle_set_options st pc l b = Ok (st', pc', l') -> st' = -1 \/ S (length l') = length l.
Proof.
  unfold handle_set_options. destruct l as [|g l]; [intros [= <- _ _]; by left|]. intros H'.
  apply bind_Ok_inv in H' as (v & _ & H'). destruct v; cbn [negb] in H'.
  - apply bind_Ok_inv in H' as (p & _ & H'). injection H' as _ _ <-. by right.
  - injection H' as <- _ _. by left.
Qed.

Lemma validate_content_state c z st st' :
  __validate_px_ex_content c z st = Ok st' -> st' = st \/ st' = -1.
Proof.
  unfold __validate_px_ex_content. case_if; [intros [= <-]; by left|].
  case_if; [intros [= <-]; by right|]. intros H'. apply bind_Ok_inv in H' as (ok & _ & H').
  injection H' as <-. destruct ok; auto.
Qed.

Lemma options_loop_not_OOF fuel st pc l :
  (0 < st -> (length l <= fuel)%nat) -> options_loop fuel st pc l <> OOF.
Proof.
  assert (forall fuel pc l, options_loop fuel (-1) pc l <> OOF) as Hneg.
  { intros f p k. by rewrite loop_stops. }
  revert st pc l. induction fuel as [|fuel IH]; intros st pc l Hf; cbn [options_loop]; destruct l as [|g l]; try done.
  - destruct (0 <? st) eqn:Hst; cbn [negb]; [|done]. apply Z.ltb_lt in Hst. specialize (Hf Hst).
    simpl in Hf. lia.
  - destruct (0 <? st) eqn:Hst; cbn [negb]; [|done]. apply Z.ltb_lt in Hst. specialize (Hf Hst).
    destruct g as [c z| |]; try done. apply bind_not_OOF; [auto with redis|]. intros t _.
    assert (forall b, handle_set_options st pc (NBulk c z :: l) b <> OOF) as Hh by auto with redis.
    assert (forall b, ('(st', pc', l') ← handle_set_options st pc (NBulk c z :: l) b;
      options_loop fuel st' pc' l') <> OOF) as Hgo.
    { intros b. apply bind_not_OOF; [apply Hh|]. intros [[st' pc'] l'] E.
      apply handle_set_options_progress in E as [->|E]; [apply Hneg|]. apply IH. simpl in *. lia. }
    destruct t; try apply Hgo; try done.
    all: apply bind_not_OOF; [apply Hh|]; intros [[st' pc'] l'] E;
      destruct l' as [|[c' z'| |] [|? ?]]; try done;
      apply bind_not_OOF; [auto with redis|]; intros [[st2 pc2] l2] E2;
      apply bind_not_OOF; [auto with redis|]; intros st3 E3;
      apply validate_content_state in E3 as [-> | ->]; [|apply Hneg];
      apply handle_set_options_progress in E as [->|E], E2 as [->|E2]; try apply Hneg;
      try (apply IH; simpl in *; lia).
    all: destruct l2; [by destruct fuel|]; simpl in *; apply IH; simpl; lia.
Qed.

Lemma stage_a_not_OOF l pc : set_cmd_stage_a l pc <> OOF.
Proof.
  unfold set_cmd_stage_a. destruct l as [|k l]; [done|]. cbn [stage_a_loop].
  change (64 =? 64) with true. cbv iota.
  destruct k as [c z| |]; [|by destruct l..]. destruct l as [|v l]; [done|].
  apply bind_not_OOF; [auto with redis|]. intros pc1 _.
  change (int8 (Z.lor 64 (Z.shiftl 1 5))) with 96. cbn [Z.ltb Z.compare Pos.compare Pos.compare_cont andb].
  change (96 =? 64) with false. change (96 =? 96) with true. cbv iota.
  destruct v as [c' z'| |]; try done.
  apply bind_not_OOF; [auto with redis|]. done.
Qed.

Lemma stage_a_length l pc l' st pc' :
  set_cmd_stage_a l pc = Ok (l', st, pc') -> (length l' <= length l)%nat.
Proof.
  unfold set_cmd_stage_a. destruct l as [|k l]; [by intros [= <- _ _]|]. cbn [stage_a_loop].
  change (64 =? 64) with true. cbv iota.
  destruct k as [c z| |]; [|destruct l; intros [= <- _ _]; simpl; lia..].
  destruct l as [|v l]; [intros [= <- _ _]; simpl; lia|]. intros H'.
  apply bind_Ok_inv in H' as (pc1 & _ & H'). revert H'.
  change (int8 (Z.lor 64 (Z.shiftl 1 5))) with 96. cbn [Z.ltb Z.compare Pos.compare Pos.compare_cont andb].
  change (96 =? 64) with false. change (96 =? 96) with true. cbv iota.
  destruct v as [c' z'| |]; [|intros [= <- _ _]; simpl; lia..]. intros H'.
  apply bind_Ok_inv in H' as (pc2 & _ & H'). injection H' as <- _ _. simpl. lia.
Qed.

Lemma validate_not_OOF l : validate_set_cmd l <> OOF.
Proof.
  unfold validate_set_cmd. destruct l as [|n l]; [done|].
  apply bind_not_OOF; [apply stage_a_not_OOF|]. intros [[l' st] pc] E.
  apply stage_a_length in E. apply options_loop_not_OOF. lia.
Qed.
#[export] Hint Resolve validate_not_OOF : redis.

(** ** The handlers *)

Section handlers.
Context `{Fnmatch} `{Heap}.
Implicit Types (sm : Store).

Lemma set_check_not_OOF sm kvp : __execute_set_check sm kvp <> OOF.
Proof. unfold __execute_set_check. not_OOF. Qed.
#[local] Hint Resolve set_check_not_OOF : redis.

Lemma set_basic_not_OOF sm kvp : execute_set_basic sm kvp <> OOF.
Proof. unfold execute_set_basic. not_OOF. Qed.

Lemma set_get_not_OOF sm kvp : execute_set_get sm kvp <> OOF.
Proof. unfold execute_set_get. not_OOF. Qed.

Lemma set_nx_xx_not_OOF sm kvp pc : execute_set_nx_xx sm kvp pc <> OOF.
Proof. unfold execute_set_nx_xx. not_OOF. Qed.
#[local] Hint Resolve set_basic_not_OOF set_get_not_OOF set_nx_xx_not_OOF : redis.

Lemma set_nxxx_get_not_OOF sm kvp pc : execute_set_nxxx_get sm kvp pc <> OOF.
Proof. unfold execute_set_nxxx_get. cbv zeta. not_OOF. Qed.

Lemma set_ex_not_OOF sm kvp pc : execute_set_ex_px_exat_pxat sm kvp pc <> OOF.
Proof. unfold execute_set_ex_px_exat_pxat. not_OOF. Qed.
#[local] Hint Resolve set_nxxx_get_not_OOF set_ex_not_OOF : redis.

Lemma execute_set_cmd_not_OOF st pc sm now : execute_set_cmd st pc sm now <> OOF.
Proof. unfold execute_set_cmd. not_OOF. Qed.
#[local] Hint Resolve execute_set_cmd_not_OOF : redis.

Lemma handle_set_not_OOF l sm now : handle_set_cmd l sm now <> OOF.
Proof. unfold handle_set_cmd. not_OOF. Qed.

Lemma handle_get_not_OOF l sm now : handle_get_cmd l sm now <> OOF.
Proof.
  unfold handle_get_cmd. destruct (negb _); [done|]. not_OOF.
Qed.
End handlers.

#[export] Hint Resolve handle_set_not_OOF handle_get_not_OOF : redis.

(** ** [CONFIG] and the dispatcher *)

Section dispatch.
Context `{Fnmatch} `{Heap}.
Implicit Types (sm : Store).

Lemma table_loop_not_OOF {A} fuel (t : list (option (list byte) * A)) item i cmd :
  0 <= i -> (length t <= 255)%nat ->
  (exists mark, last t = Some (None, mark)) -> (Z.to_nat (Z.of_nat (length t) - i) < fuel)%nat ->
  table_loop fuel t item i cmd <> OOF.
Proof.
  intros Hi Ht (mark & Hlast). revert item i Hi.
  induction fuel as [|fuel IH]; intros item i Hi Hf; [lia|]. cbn [table_loop].
  destruct item.1 as [name|]; [|done]. destruct (does_the_strings_match _ _); try done.
  destruct (Z.lt_ge_cases i (Z.of_nat (length t))) as [Hlt|Hge].
  - apply bind_not_OOF; [auto with redis|]. intros it Eit.
    assert (uint8 (i + 1) = i + 1) as -> by (unfold uint8; rewrite Z.mod_small; lia).
    destruct (Z.eq_dec (i + 1) (Z.of_nat (length t))) as [E|E]; [|apply IH; lia].
    unfold aread in Eit. replace (0 <=? i) with true in Eit by (symmetry; apply Z.leb_le; lia).
    rewrite last_lookup in Hlast. replace (Init.Nat.pred (length t)) with (Z.to_nat i) in Hlast by lia.
    rewrite Hlast in Eit. injection Eit as <-. by destruct fuel.
  - unfold aread. case_if; [|done]. by rewrite lookup_ge_None_2 by lia.
Qed.

Lemma search_table_not_OOF {A} (t : list (option (list byte) * A)) cmd :
  (length t <= 255)%nat -> (exists mark, last t = Some (None, mark)) -> search_table t cmd <> OOF.
Proof.
  intros Ht Hl. unfold search_table. apply bind_not_OOF; [auto with redis|]. intros item _.
  apply table_loop_not_OOF; [lia|done|done|lia].
Qed.

Lemma find_redis_cmd_not_OOF cmd : find_redis_cmd cmd <> OOF.
Proof.
  unfold find_redis_cmd. apply bind_not_OOF; [|done].
  apply search_table_not_OOF; [simpl; lia | by eexists].
Qed.

Lemma possible_loop_not_OOF fuel arr size str i :
  0 <= i -> (Z.to_nat (size - i) <= fuel)%nat -> possible_loop fuel arr size str i <> OOF.
Proof.
  revert i. induction fuel as [|fuel IH]; intros i Hi Hf; cbn [possible_loop]; case_if; try done; [lia|].
  apply bind_not_OOF; [auto with redis|]. intros s _.
  apply bind_not_OOF; [auto with redis|]. intros v _.
  apply bind_not_OOF; [auto with redis|]. intros x _.
  destruct (strcmp_eq x v); [done|]. apply IH; lia.
Qed.

Lemma insert_not_OOF kvp acc : insert_key_value_str_to_str_array kvp acc <> OOF.
Proof.
  assert (forall arr z str, is_it_possible_to_insert_the_str_in_array arr z str <> OOF) as Hp.
  { intros arr z str. apply possible_loop_not_OOF; lia. }
  unfold insert_key_value_str_to_str_array. not_OOF.
Qed.

Lemma next_not_OOF (smw : SimpleMapWrapper KeyNode ValueNode) : next smw <> OOF.
Proof. unfold next. not_OOF. Qed.

(** The iterator moves, and stops behind [top]. *)
Lemma next_moves (smw smw' : SimpleMapWrapper KeyNode ValueNode) kvp :
  next smw = Ok (Some kvp, smw') ->
  smw_sm smw' = smw_sm smw /\ smw_index smw' = smw_index smw + 1 /\ smw_index smw <= sm_top (smw_sm smw).
Proof.
  unfold next. destruct (sm_keys (smw_sm smw)), (sm_values (smw_sm smw)); try done. case_if; [done|]. case_if; [done|].
  intros H'. res_inv H'. injection H' as _ <-. done.
Qed.

Lemma scan_loop_not_OOF fuel smw content acc :
  (Z.to_nat (sm_top (smw_sm smw) + 1 - smw_index smw) < fuel)%nat -> scan_loop fuel smw content acc <> OOF.
Proof.
  revert smw acc. induction fuel as [|fuel IH]; intros smw acc Hf; [lia|]. cbn [scan_loop].
  apply bind_not_OOF; [apply next_not_OOF|]. intros [[kvp|] smw'] E; [|done].
  apply next_moves in E as (E1 & E2 & E3).
  assert (forall acc, scan_loop fuel smw' content acc <> OOF) as Hgo.
  { intros acc'. apply IH. rewrite E1, E2. lia. }
  destruct (kvp_key kvp); [|done]. destruct (does_the_strings_match _ _); try done.
  apply bind_not_OOF; [apply insert_not_OOF|]. done.
Qed.

Lemma conf_loop_not_OOF args sm acc : conf_loop args sm acc <> OOF.
Proof.
  revert acc. induction args as [|n args IH]; intros acc; [done|]. cbn [conf_loop].
  destruct n as [c z| |]; try done. apply bind_not_OOF; [|done].
  apply scan_loop_not_OOF. simpl. lia.
Qed.

Lemma response_loop_not_OOF fuel ks vs n i buf total pos :
  0 <= i -> (Z.to_nat (n - i) <= fuel)%nat -> response_loop fuel ks vs n i buf total pos <> OOF.
Proof.
  revert i buf pos. induction fuel as [|fuel IH]; intros i buf pos Hi Hf; cbn [response_loop];
    case_if; try done; [lia|].
  apply bind_not_OOF; [auto with redis|]. intros k _.
  apply bind_not_OOF; [auto with redis|]. intros [] _; [done|].
  apply bind_not_OOF; [auto with redis|]. intros key _.
  apply bind_not_OOF; [auto with redis|]. intros v _.
  apply bind_not_OOF; [auto with redis|]. intros value _.
  apply bind_not_OOF; [unfold sprint_at; not_OOF|]. intros [buf' pos'] _. apply IH; lia.
Qed.

Lemma handle_conf_not_OOF l sm : handle_conf_cmd l sm <> OOF.
Proof.
  unfold handle_conf_cmd. destruct l as [|[c z| |] l]; try done. case_if; [done|].
  apply bind_not_OOF.
  { apply search_table_not_OOF; [simpl; lia | by eexists]. }
  intros r _. destruct r as [[]|]; try done. unfold handle_conf_get. case_if; [done|].
  apply bind_not_OOF; [apply conf_loop_not_OOF|]. intros acc _. case_if; [done|].
  unfold generate_conf_get_response. cbv zeta. destruct (negb _); [done|].
  apply bind_not_OOF; [unfold sprint_at; not_OOF|]. intros [buf pos] _. apply response_loop_not_OOF; lia.
Qed.

Lemma handle_echo_not_OOF l : handle_echo_cmd l <> OOF.
Proof. unfold handle_echo_cmd. apply bind_not_OOF; [by apply echo_not_OOF|]. by intros []. Qed.

#[local] Hint Resolve find_redis_cmd_not_OOF handle_conf_not_OOF handle_echo_not_OOF : redis.

Lemma parse_loop_not_OOF fuel l d sm cfg now :
  (weights l <= fuel)%nat -> parse_loop fuel l d sm cfg now <> OOF.
Proof.
  revert l d. induction fuel as [|fuel IH]; intros [|n l] d Hf; try done.
  - cbn [weights] in Hf. pose proof (weight_pos n). lia.
  - cbn [parse_loop weights] in *. destruct n as [c z|es z|t z]; [|apply IH; rewrite weight_array in Hf; lia|done].
    case_if; [|done]. apply bind_not_OOF; [auto with redis|]. intros cmd _.
    destruct cmd; not_OOF.
Qed.

Lemma parse_command_not_OOF l sm cfg now : parse_command l sm cfg now <> OOF.
Proof. by apply parse_loop_not_OOF. Qed.

(** ** The request loop *)

Lemma sys_send_not_OOF buf s : sys_send buf s <> OOF.
Proof. unfold sys_send. destruct (tx_plan s) as [|[e|n] p]; [done| |done]. by case_if. Qed.

Lemma send_retry_not_OOF tm n buf e s : send_retry tm n buf e s <> OOF.
Proof.
  revert e s. induction n as [|n IH]; intros e s; simpl; [done|]. case_decide; [done|].
  apply bind_not_OOF; [auto with redis|]. intros [r s1] _. case_if; [done|].
  apply bind_not_OOF; [apply sys_send_not_OOF|]. intros [[rtn e'] s2] _. by case_if.
Qed.

Lemma sys_send_rx buf s r e s' : sys_send buf s = Ok (r, e, s') -> rx s' = rx s.
Proof.
  unfold sys_send. destruct (tx_plan s) as [|[e0|n] p]; [by intros [= _ _ <-]| |by intros [= _ _ <-]].
  case_if; [done|by intros [= _ _ <-]].
Qed.

Lemma send_retry_rx tm n buf e s r s' : send_retry tm n buf e s = Ok (r, s') -> rx s' = rx s.
Proof.
  revert e s. induction n as [|n IH]; intros e s; simpl; [by intros [= _ <-]|].
  case_decide; [by intros [= _ <-]|]. intros H'. apply bind_Ok_inv in H' as ([r1 s1] & E1 & H').
  apply msleep_rx in E1. revert H'. case_if; [by intros [= _ <-]|]. intros H'.
  apply bind_Ok_inv in H' as ([[rtn e'] s2] & E2 & H'). apply sys_send_rx in E2. revert H'.
  case_if; [intros [= _ <-]; congruence|]. intros H'%IH. congruence.
Qed.

Lemma send_rx tm n buf s r s' : send_resp_to_clnt tm buf n s = Ok (r, s') -> rx s' = rx s.
Proof.
  unfold send_resp_to_clnt. intros H'. apply bind_Ok_inv in H' as ([[rtn e] s1] & E & H').
  apply sys_send_rx in E. revert H'.
  case_if; [intros [= _ <-]; congruence|]. intros H'%send_retry_rx. congruence.
Qed.

Lemma send_not_OOF tm n buf s : send_resp_to_clnt tm buf n s <> OOF.
Proof.
  unfold send_resp_to_clnt. apply bind_not_OOF; [apply sys_send_not_OOF|]. intros [[rtn e] s1] _.
  case_if; [done|]. apply send_retry_not_OOF.
Qed.

Lemma print_array_not_OOF l level : print_array l level <> OOF.
Proof.
  assert (forall n level, print_node n level <> OOF) as Hn.
  { fix IH 1. intros [c z|l' z|t z] lv; simpl; try done. apply bind_not_OOF; [|done].
    generalize 0 as i. induction l' as [|n l' IHl]; intros i; [done|].
    apply bind_not_OOF; [apply IH|]. intros t _. by apply bind_not_OOF. }
  unfold print_array. generalize 0 as i. induction l as [|n l IH]; intros i; [done|].
  cbn [print_nodes]. apply bind_not_OOF; [apply Hn|]. intros t _. by apply bind_not_OOF.
Qed.

Lemma lex_not_OOF s : lex s <> OOF.
Proof.
  unfold lex. pose proof (proj1 (lexer_reads (S (length (rx s)))) s ltac:(lia)) as Hr.
  intros E. by rewrite E in Hr.
Qed.

Lemma lex_consumes s o s' : lex s = Ok (o, s') -> (length (rx s') <= length (rx s))%nat.
Proof.
  unfold lex. pose proof (proj1 (lexer_reads (S (length (rx s)))) s ltac:(lia)) as Hr.
  intros E. by rewrite E in Hr.
Qed.

Lemma sys_recv_range b n s r by_ e s' : sys_recv b n s = (r, by_, e, s') -> -1 <= r.
Proof.
  unfold sys_recv. destruct (rx s) as [|[x|x] rs]; [intros [= <- _ _ _]; lia| |intros [= <- _ _ _]; lia].
  destruct b; [|intros [= <- _ _ _]; lia]. destruct (take_bytes n _) as [bs' r']. intros [= <- _ _ _]. lia.
Qed.

Lemma recv_range tm b n k s r by_ s' : recv_resp_fm_clnt tm b n k s = Ok (r, by_, s') -> -1 <= r.
Proof.
  unfold recv_resp_fm_clnt. destruct (sys_recv b n s) as [[[r0 b0] e] s0] eqn:E.
  apply sys_recv_range in E. case_if; [intros [= <- _ _]; lia|]. clear E Hif. revert e s0.
  induction k as [|k IH]; intros e s0; simpl; [intros [= <- _ _]; lia|].
  case_decide; [intros [= <- _ _]; lia|]. intros H'. apply bind_Ok_inv in H' as ([r1 s1] & _ & H').
  revert H'. case_if; [intros [= <- _ _]; lia|].
  destruct (sys_recv b n s1) as [[[r2 b2] e2] s2] eqn:E2. apply sys_recv_range in E2.
  case_if; [intros [= <- _ _]; lia|]. apply IH.
Qed.

Lemma app_round_not_OOF cfg now sm s : app_round cfg now sm s <> OOF.
Proof.
  unfold app_round. apply bind_not_OOF; [apply recv_not_OOF|]. intros [[rtn buff] s1] _.
  case_if; [done|]. case_if; [done|]. case_decide; [|done].
  apply bind_not_OOF; [apply lex_not_OOF|]. intros [[array|] s2] _.
  2: { apply bind_not_OOF; [apply send_not_OOF|]. by intros []. }
  apply bind_not_OOF; [apply print_array_not_OOF|]. intros t _.
  apply bind_not_OOF; [apply parse_command_not_OOF|]. intros [[o sm1] log] _.
  apply bind_not_OOF; [apply send_not_OOF|]. intros [r s3] _.
  case_if; [done|]. by apply bind_not_OOF; [apply delete_array_not_OOF|].
Qed.

(** A round that is not the last has taken something from the connection. *)
Lemma app_round_consumes cfg now sm s next s' sm' :
  app_round cfg now sm s = Ok (next, s', sm') -> next <> R_over -> (length (rx s') < length (rx s))%nat.
Proof.
  unfold app_round. intros E Hn. apply bind_Ok_inv in E as ([[rtn buff] s1] & E1 & E).
  pose proof (recv_range _ _ _ _ _ _ _ _ E1) as Hr. apply recv_consumes in E1. unfold consumes in E1.
  revert E. case_if; [congruence|]. case_if; [congruence|]. case_decide; [|intros [= <- <- <-]; lia].
  intros E. apply bind_Ok_inv in E as ([array s2] & E2 & E). apply lex_consumes in E2.
  destruct array as [array|]; [|by apply bind_Ok_inv in E as ([? ?] & _ & [= <- _ _])].
  apply bind_Ok_inv in E as (t & _ & E). apply bind_Ok_inv in E as ([[o sm1] log] & _ & E).
  apply bind_Ok_inv in E as ([r s3] & E3 & E). apply send_rx in E3.
  assert (s3 = s') as <- by (revert E; case_if; [|intros (? & _ & E)%bind_Ok_inv; revert E]; congruence).
  rewrite E3. lia.
Qed.

Lemma app_loop_not_OOF cfg clock fuel i sm s :
  (length (rx s) < fuel)%nat -> app_loop cfg clock fuel i sm s <> OOF.
Proof.
  revert i sm s. induction fuel as [|fuel IH]; intros i sm s Hf; [lia|]. cbn [app_loop].
  apply bind_not_OOF; [apply app_round_not_OOF|]. intros [[next s1] sm1] E.
  pose proof (app_round_consumes _ _ _ _ _ _ _ E) as Hr.
  destruct next; [done| |]; specialize (Hr ltac:(done)); apply IH; lia.
Qed.

(** ** Properties *)

(** Every command handler terminates on every message and every store: no
    request makes the dispatcher or a loop below it run on. *)
Lemma parse_command_terminates l sm cfg now : halts (parse_command l sm cfg now).
Proof. apply halts_not_OOF, parse_command_not_OOF. Qed.

(** The request loop ends on every connection: each round takes a byte
    from it, whatever the peer sends and whichever system call fails. *)
Lemma app_code_terminates cfg clock sm s : halts (app_code cfg clock sm s).
Proof. apply halts_not_OOF, app_loop_not_OOF. lia. Qed.

(** C22. Nothing a client sends makes the server run on: the reader ends on every
    stream - any bytes, errors, a close at any point - within one step per item
    received; every command ends on every message and every store; and the
    request loop ends on every connection, whichever system call fails. *)
Theorem server_terminates cfg clock sm s l now :
  (halts (lex s) /\ forall o s', lex s = Ok (o, s') -> (length (rx s') <= length (rx s))%nat) /\
  halts (parse_command l sm cfg now) /\ halts (app_code cfg clock sm s).
Proof.
  split_and!.
  - by apply halts_not_OOF, lexer_terminates.
  - apply lexer_terminates.
  - apply parse_command_terminates.
  - apply app_code_terminates.
Qed.

End dispatch.
