(* ===== verification/Setup.v ===== *)
(** The start of the program ([cli_parser] and [setup] of [util.c], [main] of
    [app.c]): the command line decides the two entries of the configuration
    map.  [getopt_long] is the C library's: its successive answers are an
    argument. *)

From S2P Require Import Prelude CLib Protocol SimpleMap KeyVal SetParser.
From S2P Require Import SetExec GetCmd Match Echo Config Dispatch.

Definition DEFAULT_REDIS_RDBFILE : list byte := bs "rdbfile.rdb".
Definition DEFAULT_REDIS_DIR : list byte := bs "/tmp/redis-data".

(** [strcpy] of a text into an object of [room] bytes, NUL included. *)
Definition strcpy (room : Z) (text : list byte) : res (list byte) :=
  ub_unless (strlen text + 1 <=? room) (Ok (c_str text)).

(** An answer of [getopt_long] before its -1: the option and [optarg]. *)
Definition opt_answer : Type := (byte * option (list byte))%type.

(** The [while] loop; [None] is [exit(EXIT_FAILURE)]. *)
Fixpoint options (answers : list opt_answer) (dir dbfilename : option (list byte))
    : option (option (list byte) * option (list byte)) :=
  match answers with
  | [] => Some (dir, dbfilename)
  | (opt, optarg) :: answers =>
      match optarg with
      | None => None
      | Some _ =>
          if decide (opt = "c"%byte) then options answers dir optarg
          else if decide (opt = "d"%byte) then options answers optarg dbfilename
          else None
      end
  end.

(** A default is copied into an object of [strlen] bytes. *)
Definition or_default (value : option (list byte)) (default : list byte) : res (list byte) :=
  match value with
  | Some v => Ok v
  | None => strcpy (strlen default) default
  end.

Definition cli_parser (answers : list opt_answer) (default_redis_dir default_redis_rdbfile : list byte)
    : res (option (list byte * list byte)) :=
  match options answers None None with
  | None => Ok None
  | Some (dir, dbfilename) =>
      dir ← or_default dir default_redis_dir;
      dbfilename ← or_default dbfilename default_redis_rdbfile;
      Ok (Some (dir, dbfilename))
  end.

Section setup.
Context `{Heap}.

(** One round of the loop of [setup]. *)
Definition setup_entry (config_dict : Store) (k value : list byte) (now : timespec) : res (option Store) :=
  let key_len := strlen k + 1 in
  key ← strcpy key_len k;
  kn ← create_key_node (Some key) 0 0 (strlen k) now;
  vn ← create_value_node_string (Some value) BULK_STR (strlen value);
  match create_key_val_pair kn vn with
  | None => Ok None
  | Some kvp =>
      '(rtn, config_dict, _) ← set config_dict kvp compare;
      Ok (if decide (rtn = SUCESS_SET) then Some config_dict else None)
  end.

Fixpoint setup_loop (config_dict : Store) (entries : list (list byte * list byte)) (now : timespec)
    : res (option Store) :=
  match entries with
  | [] => Ok (Some config_dict)
  | (k, v) :: entries =>
      r ← setup_entry config_dict k v now;
      match r with
      | None => Ok None
      | Some config_dict => setup_loop config_dict entries now
      end
  end.

(** The store and the configuration map, or [exit]. *)
Definition setup (answers : list opt_answer) (now : timespec) : res (option (Store * Store)) :=
  r ← cli_parser answers DEFAULT_REDIS_DIR DEFAULT_REDIS_RDBFILE;
  match r with
  | None => Ok None
  | Some (dir, dbfilename) =>
      c ← setup_loop create_simple_map [(bs "dir", dir); (bs "dbfilename", dbfilename)] now;
      Ok (c' ← c; Some (create_simple_map, c'))
  end.

(** ** Properties *)

(** The value an option was given last. *)
Fixpoint last_given (o : byte) (answers : list opt_answer) : option (list byte) :=
  match answers with
  | [] => None
  | (o', a) :: answers =>
      match last_given o answers with
      | Some v => Some v
      | None => if decide (o' = o) then a else None
      end
  end.

(** Only the two options, each with its argument. *)
Definition well_formed (answers : list opt_answer) : Prop :=
  Forall (fun a => (a.1 = "c"%byte \/ a.1 = "d"%byte) /\ is_Some a.2) answers.

Lemma options_spec answers d f :
  well_formed answers ->
  options answers d f
  = Some (match last_given "d"%byte answers with Some v => Some v | None => d end,
          match last_given "c"%byte answers with Some v => Some v | None => f end).
Proof.
  intros Hw. revert d f. induction Hw as [|[o a] answers [Ho [v Hv]] _ IH]; intros d f; [done|].
  cbn [fst snd] in *. subst a. cbn [options last_given].
  destruct Ho as [-> | ->]; repeat (case_decide; try done); rewrite IH;
    destruct (last_given "c"%byte answers), (last_given "d"%byte answers); done.
Qed.

Lemma strcpy_short text : strcpy (strlen text) text = UB.
Proof. unfold strcpy, ub_unless. by if_false. Qed.

(** When one of the two options is not given, its default is copied, with
    its NUL, into an object that has no room for the NUL: the start without
    arguments writes behind the object. *)
Lemma default_options_overflow answers now :
  well_formed answers ->
  last_given "d"%byte answers = None \/ last_given "c"%byte answers = None ->
  setup answers now = UB.
Proof.
  intros Hw Hn. unfold setup, cli_parser. rewrite options_spec by done.
  destruct (last_given "d"%byte answers) as [d|]; cbn [or_default]; [|by rewrite strcpy_short].
  destruct Hn as [?| ->]; [done|]. cbn [or_default mbind res_bind]. by rewrite strcpy_short.
Qed.

Lemma strcpy_fits text : nul_free text -> strcpy (strlen text + 1) text = Ok text.
Proof.
  intros Hn. unfold strcpy, ub_unless. if_true. by rewrite c_str_nul_free.
Qed.

(** A fresh key is appended to the entries. *)
Lemma setup_entry_spec config l k v now :
  smap_repr config l -> Forall (fun p => kn_ok p.1) l -> can_grow config ->
  nul_free k -> text_ok k -> nul_free v -> text_ok v -> k ∉ map entry_key l ->
  exists config', setup_entry config k v now = Ok (Some config') /\
    smap_repr config' (l ++ [config_entry k v now]) /\
    sm_capacity config' <= Z.max (sm_capacity config) (2 * Z.of_nat (length l)).
Proof.
  intros R Hok Hg Nk Tk Nv Tv Hm. unfold setup_entry.
  rewrite strcpy_fits by done. cbn [mbind res_bind].
  rewrite !strlen_nul_free, create_key_node_text by done. cbn [mbind res_bind].
  pose proof (create_value_node_text v Tv) as Ev. unfold create_value_node in Ev. rewrite Ev.
  cbn [mbind res_bind create_key_val_pair].
  set (key := key_of k 0 0 now).
  destruct (set_spec config l compare (same_ident kn_ident) key (Some (value_of v)) R
    (decides_ident compare kn_ok kn_ident l key (key_of_ok _ _ _ _) Hok) Hg) as (c' & E & R' & Hc).
  assert (assoc_find (same_ident kn_ident) key l = None) as Hf.
  { destruct (assoc_find _ key l) as [i|] eqn:Ef; [|done]. exfalso. apply Hm.
    destruct (find_store_Some kn_ok kn_ident key l i (key_of_ok _ _ _ _) Hok Ef) as (p & Hp & Ek).
    change (kn_ident key) with k in Ek. rewrite <- Ek.
    apply list_elem_of_In, (in_map entry_key), list_elem_of_In. by eapply list_elem_of_lookup_2. }
  rewrite E. unfold set_result, assoc_set in *. rewrite Hf in R' |- *. cbn [mbind res_bind].
  exists c'. by rewrite decide_True.
Qed.

(** With both options given, the start makes an empty store and the
    configuration map with the two entries, which is as [CONFIG GET] needs it. *)
Lemma setup_makes_config answers now dir dbfilename :
  well_formed answers ->
  last_given "d"%byte answers = Some dir -> last_given "c"%byte answers = Some dbfilename ->
  nul_free dir -> nul_free dbfilename ->
  1 <= Z.of_nat (length dir) <= 2 ^ 20 -> 1 <= Z.of_nat (length dbfilename) <= 2 ^ 20 ->
  (forall n z, heap_grants n z = true) ->
  exists cfg, setup answers now = Ok (Some (create_simple_map, cfg)) /\
    config_ok cfg [config_entry (bs "dir") dir now; config_entry (bs "dbfilename") dbfilename now].
Proof.
  intros Hw Hd Hf Nd Nf Ld Lf Hheap. unfold setup, cli_parser. rewrite options_spec by done.
  rewrite Hd, Hf. cbn [or_default mbind res_bind setup_loop].
  assert (text_ok dir /\ text_ok dbfilename) as [Td Tf] by (unfold text_ok, PROTO_MAX_BULK_SIZE; lia).
  assert (nul_free (bs "dir")) as Kd by nul_free_literal.
  assert (nul_free (bs "dbfilename")) as Kf by nul_free_literal.
  assert (text_ok (bs "dir") /\ text_ok (bs "dbfilename")) as [Td' Tf'] by (split; vm_compute; split; discriminate).
  destruct (setup_entry_spec create_simple_map [] (bs "dir") dir now repr_create) as (c1 & -> & R1 & C1);
    [done|done|done|done|done|done|set_solver|].
  cbn [mbind res_bind]. cbn [app] in R1.
  destruct (setup_entry_spec c1 [config_entry (bs "dir") dir now] (bs "dbfilename") dbfilename now R1)
    as (c2 & -> & R2 & _); [by constructor| |done|done|done|done| |].
  { intros _. rewrite !Hheap. unfold INT_MAX. simpl in C1. lia. }
  { cbn [map]. intros Hin%list_elem_of_singleton. discriminate. }
  cbn [mbind res_bind]. exists c2. split; [done|]. cbn [app] in R2. split.
  - exact R2.
  - repeat (constructor; [by apply config_entry_ok|]). constructor.
  - done.
  - done.
  - pose proof (encode_bulk_length dir) as E1. pose proof (encode_bulk_length dbfilename) as E2.
    cbn [map concat]. unfold pair_text, key_text, value_text. rewrite app_nil_r, !length_app.
    change (entry_value (config_entry (bs "dir") dir now)) with dir.
    change (entry_value (config_entry (bs "dbfilename") dbfilename now)) with dbfilename.
    rewrite E1, E2.
    assert (length (decimal (Z.of_nat (length dir))) <= 9 /\ length (decimal (Z.of_nat (length dbfilename))) <= 9)%nat
      as [D1 D2].
    { rewrite !decimal_nonneg by lia. split; apply dec_digits_length; lia. }
    change (length (encode (bulk (entry_key (config_entry (bs "dir") dir now))))) with 9%nat.
    change (length (encode (bulk (entry_key (config_entry (bs "dbfilename") dbfilename now))))) with 17%nat.
    unfold INT_MAX. lia.
Qed.

(** C40. The start of the program. With both options given, it makes an empty store
    and the configuration map with the two entries, as [CONFIG GET] needs it; when
    one of them is not given, its default is copied, with its NUL, into an object
    that has no room for the NUL: the start without arguments writes behind the
    object. *)
Theorem setup_outcome answers now :
  well_formed answers -> (forall n z, heap_grants n z = true) ->
  match last_given "d"%byte answers, last_given "c"%byte answers with
  | Some dir, Some dbfilename =>
      nul_free dir -> nul_free dbfilename ->
      1 <= Z.of_nat (length dir) <= 2 ^ 20 -> 1 <= Z.of_nat (length dbfilename) <= 2 ^ 20 ->
      exists cfg, setup answers now = Ok (Some (create_simple_map, cfg)) /\
        config_ok cfg [config_entry (bs "dir") dir now; config_entry (bs "dbfilename") dbfilename now]
  | _, _ => setup answers now = UB
  end.
Proof.
  intros Hw Hheap. destruct (last_given "d"%byte answers) as [dir|] eqn:Ed.
  - destruct (last_given "c"%byte answers) as [dbfilename|] eqn:Ef.
    + intros. by apply setup_makes_config.
    + apply default_options_overflow; [done|by right].
  - apply default_options_overflow; [done|by left].
Qed.
End setup.

(** ** Witness *)

Lemma setup_outcome_witness :
  @setup grants_all [("d"%byte, Some (bs "/data"))] noon = UB /\
  exists cfg, @setup grants_all [("d"%byte, Some (bs "/data")); ("c"%byte, Some (bs "a.rdb"))] noon
    = Ok (Some (create_simple_map, cfg)) /\
    config_ok cfg [config_entry (bs "dir") (bs "/data") noon; config_entry (bs "dbfilename") (bs "a.rdb") noon].
Proof.
  split.
  - apply (@setup_outcome grants_all [("d"%byte, Some (bs "/data"))] noon).
    + constructor; [split; [right; reflexivity | eexists; reflexivity]|]. constructor.
    + reflexivity.
  - apply (@setup_outcome grants_all [("d"%byte, Some (bs "/data")); ("c"%byte, Some (bs "a.rdb"))] noon).
    + constructor; [split; [right; reflexivity | eexists; reflexivity]|].
      constructor; [split; [left; reflexivity | eexists; reflexivity]|]. constructor.
    + reflexivity.
    + nul_free_literal.
    + nul_free_literal.
    + vm_compute. split; discriminate.
    + vm_compute. split; discriminate.
Defined.
