(* ===== verification/Queue.v ===== *)
(** The request queue of [queue.c]: a doubly linked list in a heap of nodes,
    with its allocation and release, and the proof that it is a FIFO that
    leaves the rest of the heap alone. *)

From S2P Require Import Prelude.

(** ** The heap of nodes *)

Abbreviation loc := Z.

Record ListNode (D : Type) := mkListNode { ln_prev : option loc; ln_next : option loc; ln_data : option D }.
Arguments mkListNode {D} ln_prev ln_next ln_data.
Arguments ln_prev {D} _.
Arguments ln_next {D} _.
Arguments ln_data {D} _.

(** [Queue], whose method pointers are always the functions below; [q_destructor]
    says whether the destructor is given. *)
Record Queue := mkQueue { q_front : option loc; q_rear : option loc; q_destructor : bool }.

#[export] Instance Queue_eq_dec : EqDecision Queue.
Proof. solve_decision. Defined.

Section queue.
Context {D : Type}.
Abbreviation nodes := (gmap loc (ListNode D)).
Implicit Types (h : nodes) (q : Queue).

(** Where [calloc] places a node, or [None] when it returns [NULL]. *)
Context (calloc_node : nodes -> option loc).
(** Whether the [calloc] of the queue itself is granted. *)
Context (calloc_queue : bool).

Definition load h (p : option loc) : res (ListNode D) := a ← deref p; deref (h !! a).

Definition store h (p : option loc) (n : ListNode D) : res nodes :=
  a ← deref p;
  ub_unless (negb (is_null (h !! a))) (Ok (<[a := n]> h)).

(** [free]: of a node that is not allocated it is undefined. *)
Definition free_node h (p : option loc) : res nodes :=
  a ← deref p;
  ub_unless (negb (is_null (h !! a))) (Ok (delete a h)).

(** ** Operations *)

Definition init_queue (func : bool) : option Queue :=
  if calloc_queue then Some (mkQueue None None func) else None.

Definition get_front h (q : option Queue) : res (option D) :=
  match q with
  | None => Ok None
  | Some q => if is_null (q_front q) then Ok None else n ← load h (q_front q); Ok (ln_data n)
  end.

Definition get_rear h (q : option Queue) : res (option D) :=
  match q with
  | None => Ok None
  | Some q => if is_null (q_rear q) then Ok None else n ← load h (q_rear q); Ok (ln_data n)
  end.

Definition enqueue h (q : option Queue) (data : option D) : res (nodes * option Queue) :=
  match q with
  | None => Ok (h, q)
  | Some q' =>
      match calloc_node h with
      | None => Ok (h, q)
      | Some a =>
          let n := Some a in
          let h := <[a := mkListNode None None data]> h in
          if is_null (q_front q') && is_null (q_rear q') then
            Ok (h, Some (mkQueue n n (q_destructor q')))
          else
            let prev := q_rear q' in
            p ← load h prev;
            h ← store h prev (mkListNode (ln_prev p) n (ln_data p));
            c ← load h n;
            h ← store h n (mkListNode prev (ln_next c) (ln_data c));
            Ok (h, Some (mkQueue (q_front q') n (q_destructor q')))
      end
  end.

Definition dequeue h (q : option Queue) : res (option D * nodes * option Queue) :=
  match q with
  | None => Ok (None, h, q)
  | Some q' =>
      if is_null (q_front q') then Ok (None, h, q)
      else if decide (q_front q' = q_rear q') then
        let front := q_front q' in
        f ← load h front;
        let data := ln_data f in
        h ← free_node h front;
        Ok (data, h, Some (mkQueue None None (q_destructor q')))
      else
        let front := q_front q' in
        f ← load h front;
        let next := ln_next f in
        h ← store h front (mkListNode (ln_prev f) None (ln_data f));
        n ← load h next;
        h ← store h next (mkListNode None (ln_next n) (ln_data n));
        f ← load h front;
        let data := ln_data f in
        h ← free_node h front;
        Ok (data, h, Some (mkQueue next (q_rear q') (q_destructor q')))
  end.

(** The loop of [delete_queue]: what is handed to the destructor, in order, and
    the heap. *)
Fixpoint delete_queue_loop (fuel : nat) h (node : option loc) (destructor : bool)
    : res (list D * nodes) :=
  match node with
  | None => Ok ([], h)
  | Some _ =>
      match fuel with
      | O => OOF
      | S fuel =>
          n ← load h node;
          let next := ln_next n in
          h ← free_node h node;
          '(rest, h) ← delete_queue_loop fuel h next destructor;
          Ok ((if destructor then option_list (ln_data n) else []) ++ rest, h)
      end
  end.

Definition delete_queue h (q : option Queue) : res (list D * nodes) :=
  match q with
  | None => Ok ([], h)
  | Some q => delete_queue_loop (size h) h (q_front q) (q_destructor q)
  end.

(** ** Representation *)

(** The nodes at [ls] hold [l], linked both ways, behind [prev]. *)
Fixpoint segment h (prev : option loc) (ls : list loc) (l : list (option D)) : Prop :=
  match ls, l with
  | [], [] => True
  | a :: ls, d :: l => h !! a = Some (mkListNode prev (head ls) d) /\ segment h (Some a) ls l
  | _, _ => False
  end.

(** [q] is the queue of [l], in the nodes at [ls] of [h]. *)
Definition queue_repr h q (ls : list loc) (l : list (option D)) : Prop :=
  NoDup ls /\ segment h None ls l /\ q_front q = head ls /\ q_rear q = last ls.

Lemma segment_length h p ls l : segment h p ls l -> length ls = length l.
Proof.
  revert p l. induction ls as [|a ls IH]; intros p [|d l]; simpl; try done.
  intros [_ Hs]. f_equal. by eapply IH.
Qed.

(** The nodes of a segment are allocated. *)
Lemma segment_alloc h p ls l a : segment h p ls l -> a ∈ ls -> is_Some (h !! a).
Proof.
  revert p l. induction ls as [|b ls IH]; intros p [|d l] Hs Hin; try done; [by apply not_elem_of_nil in Hin|].
  destruct Hs as [Hb Hs]. apply elem_of_cons in Hin as [->|Hin]; [by eexists|]. by eapply IH.
Qed.

Lemma segment_fresh h p ls l a : segment h p ls l -> h !! a = None -> a ∉ ls.
Proof. intros Hs Ha Hin. destruct (segment_alloc _ _ _ _ _ Hs Hin). congruence. Qed.

(** Cells elsewhere do not matter. *)
Lemma segment_frame h h' p ls l :
  (forall a, a ∈ ls -> h' !! a = h !! a) -> segment h p ls l -> segment h' p ls l.
Proof.
  revert p l. induction ls as [|a ls IH]; intros p [|d l] Hh; simpl; try done.
  intros [Ha Hs]. split; [rewrite Hh by (by left); exact Ha|].
  apply IH; [|done]. intros b Hb. apply Hh. by right.
Qed.

Lemma segment_snoc h p ls z l d :
  segment h p (ls ++ [z]) (l ++ [d]) ->
  h !! z = Some (mkListNode (match last ls with Some a => Some a | None => p end) None d).
Proof.
  revert p l. induction ls as [|a ls IH]; intros p l Hs.
  - destruct l as [|e l]; simpl in Hs; [by destruct Hs|]. destruct Hs as [_ Hs]. by destruct l.
  - destruct l as [|e l]; simpl in Hs.
    + destruct Hs as [_ Hs]. by destruct ls.
    + destruct Hs as [_ Hs]. apply IH in Hs. rewrite Hs, last_cons. by destruct (last ls).
Qed.

(** Linking a new node behind the last one. *)
Lemma segment_append h p ls z l d a e :
  segment h p (ls ++ [z]) (l ++ [d]) -> NoDup (ls ++ [z]) -> a ∉ ls ++ [z] ->
  segment (<[a := mkListNode (Some z) None e]>
    (<[z := mkListNode (match last ls with Some b => Some b | None => p end) (Some a) d]> h))
    p (ls ++ [z; a]) (l ++ [d; e]).
Proof.
  revert p l. induction ls as [|b ls IH]; intros p l Hs Hnd Ha.
  - destruct l as [|x l]; simpl in Hs; [|destruct Hs as [_ Hs]; by destruct l]. simpl.
    rewrite lookup_insert_ne, lookup_insert_eq by set_solver. by rewrite lookup_insert_eq.
  - destruct l as [|x l]; simpl in Hs; [destruct Hs as [_ Hs]; by destruct ls|].
    destruct Hs as [Hb Hs]. cbn [app] in *. apply NoDup_cons in Hnd as [Hbn Hnd].
    specialize (IH (Some b) l Hs Hnd ltac:(set_solver)). cbn [segment].
    split.
    + rewrite !lookup_insert_ne by set_solver. rewrite Hb. f_equal. f_equal. by destruct ls.
    + replace (match last (b :: ls) with Some b0 => Some b0 | None => p end)
        with (match last ls with Some b0 => Some b0 | None => Some b end)
        by (rewrite last_cons; by destruct (last ls)).
      exact IH.
Qed.

Lemma load_segment h p a ls d l :
  segment h p (a :: ls) (d :: l) -> load h (Some a) = Ok (mkListNode p (head ls) d).
Proof. intros [Ha _]. unfold load. simpl. by rewrite Ha. Qed.

(** The data of the last node. *)
Lemma load_last h p ls z l d :
  segment h p (ls ++ [z]) (l ++ [d]) ->
  load h (Some z) = Ok (mkListNode (match last ls with Some a => Some a | None => p end) None d).
Proof. intros Hs%segment_snoc. unfold load. simpl. by rewrite Hs. Qed.

Lemma load_some h a n : h !! a = Some n -> load h (Some a) = Ok n.
Proof. intros E. unfold load. simpl. by rewrite E. Qed.

Lemma store_some h a n n' : h !! a = Some n -> store h (Some a) n' = Ok (<[a := n']> h).
Proof. intros E. unfold store. simpl. by rewrite E. Qed.

Lemma free_some h a n : h !! a = Some n -> free_node h (Some a) = Ok (delete a h).
Proof. intros E. unfold free_node. simpl. by rewrite E. Qed.

(** ** The operations on a represented queue *)

Lemma init_repr h dtor : queue_repr h (mkQueue None None dtor) [] [].
Proof. split; [constructor|done]. Qed.

Lemma enqueue_spec h q ls l a d :
  queue_repr h q ls l -> calloc_node h = Some a -> h !! a = None ->
  exists h' q', enqueue h (Some q) d = Ok (h', Some q') /\ queue_repr h' q' (ls ++ [a]) (l ++ [d]) /\
    q_destructor q' = q_destructor q /\
    forall b, b ∉ ls ++ [a] -> h' !! b = h !! b.
Proof.
  intros (Hnd & Hs & Ef & Er) Ha Hfresh. unfold enqueue. rewrite Ha, Ef, Er.
  destruct ls as [|z ls _] using rev_ind.
  - destruct l; [|done]. simpl. eexists _, _. split; [done|]. split.
    + split; [apply NoDup_singleton|]. simpl. by rewrite lookup_insert_eq.
    + split; [done|]. intros b Hb. rewrite lookup_insert_ne by set_solver. done.
  - pose proof (segment_length _ _ _ _ Hs) as Hlen. rewrite length_app in Hlen. simpl in Hlen.
    destruct l as [|y l _] using rev_ind; [simpl in Hlen; lia|].
    assert (a ∉ ls ++ [z]) as Han by (by eapply segment_fresh).
    rewrite last_snoc. assert (is_null (head (ls ++ [z])) = false) as -> by (by destruct ls).
    cbn [andb is_null].
    pose proof (segment_snoc _ _ _ _ _ _ Hs) as Hz.
    set (h1 := <[a := mkListNode None None d]> h).
    assert (z <> a) as Hza by set_solver.
    assert (h1 !! z = h !! z) as E1 by (unfold h1; by rewrite lookup_insert_ne).
    rewrite Hz in E1. rewrite (load_some _ _ _ E1). cbn [mbind res_bind ln_prev ln_data].
    rewrite (store_some _ _ _ _ E1). cbn [mbind res_bind].
    assert (forall n, (<[z := n]> h1) !! a = Some (mkListNode None None d)) as E2.
    { intros n. unfold h1. by rewrite lookup_insert_ne, lookup_insert_eq. }
    rewrite (load_some _ _ _ (E2 _)). cbn [mbind res_bind ln_next ln_data].
    rewrite (store_some _ _ _ _ (E2 _)).
    cbn [mbind res_bind]. eexists _, _. split; [done|]. split.
    + split.
      { apply NoDup_app. split; [done|]. split; [set_solver|apply NoDup_singleton]. }
      split; [|split; [by rewrite last_snoc || by destruct ls|by rewrite last_snoc]].
      unfold h1. rewrite (insert_insert_ne _ z a) by done. rewrite insert_insert_eq.
      rewrite <- !(assoc_L (++)). by apply segment_append.
    + split; [done|]. intros b Hb. unfold h1. rewrite !lookup_insert_ne by set_solver. done.
Qed.

Lemma dequeue_spec h q a ls d l :
  queue_repr h q (a :: ls) (d :: l) ->
  exists h' q', dequeue h (Some q) = Ok (d, h', Some q') /\ queue_repr h' q' ls l /\
    q_destructor q' = q_destructor q /\
    h' !! a = None /\ forall b, b ∉ a :: ls -> h' !! b = h !! b.
Proof.
  intros (Hnd & Hs & Ef & Er). unfold dequeue. rewrite Ef, Er. cbn [head is_null].
  pose proof Hs as [Ha Hs']. apply NoDup_cons in Hnd as [Hna Hnd].
  destruct ls as [|b ls].
  - destruct l; [|done]. rewrite decide_True by done. rewrite (load_segment _ _ _ _ _ _ Hs). cbn [mbind res_bind].
    rewrite (free_some _ _ _ Ha). cbn [mbind res_bind ln_data]. eexists _, _. split; [done|].
    split; [apply init_repr|]. split; [done|]. split; [apply lookup_delete_eq|].
    intros b Hb. rewrite lookup_delete_ne by set_solver. done.
  - destruct l as [|e l]; [done|]. rewrite decide_False.
    2: { rewrite last_cons_cons. intros E. apply Hna. apply last_Some_elem_of. by rewrite <- E. }
    rewrite (load_segment _ _ _ _ _ _ Hs). cbn [mbind res_bind ln_next ln_prev ln_data head].
    rewrite (store_some _ _ _ _ Ha). cbn [mbind res_bind].
    destruct Hs' as [Hb Hs']. assert (a <> b) as Hab by set_solver.
    assert (forall n, (<[a := n]> h) !! b = Some (mkListNode (Some a) (head ls) e)) as E1.
    { intros n. by rewrite lookup_insert_ne. }
    rewrite (load_some _ _ _ (E1 _)). cbn [mbind res_bind ln_next ln_data].
    rewrite (store_some _ _ _ _ (E1 _)). cbn [mbind res_bind].
    assert (forall n m, (<[b := m]> (<[a := n]> h)) !! a = Some n) as E2.
    { intros n m. by rewrite lookup_insert_ne, lookup_insert_eq. }
    rewrite (load_some _ _ _ (E2 _ _)). cbn [mbind res_bind ln_data].
    rewrite (free_some _ _ _ (E2 _ _)).
    cbn [mbind res_bind]. eexists _, _. split; [done|]. split; [|split; [done|split; [apply lookup_delete_eq|]]].
    + split; [done|]. split; [|split; [done|by rewrite last_cons_cons]]. simpl.
      rewrite lookup_delete_ne, lookup_insert_eq by done. split; [done|].
      eapply segment_frame; [|exact Hs']. intros c Hc. apply NoDup_cons in Hnd as [Hnb _].
      rewrite lookup_delete_ne, !lookup_insert_ne by set_solver. done.
    + intros c Hc. rewrite lookup_delete_ne, !lookup_insert_ne by set_solver. done.
Qed.

Lemma dequeue_empty h q : queue_repr h q [] [] -> dequeue h (Some q) = Ok (None, h, Some q).
Proof. intros (_ & _ & Ef & _). unfold dequeue. by rewrite Ef. Qed.

Lemma front_rear_spec h q ls l :
  queue_repr h q ls l ->
  get_front h (Some q) = Ok (mjoin (head l)) /\ get_rear h (Some q) = Ok (mjoin (last l)).
Proof.
  intros (_ & Hs & Ef & Er). unfold get_front, get_rear. rewrite Ef, Er.
  pose proof (segment_length _ _ _ _ Hs) as Hlen. split.
  - destruct ls as [|a ls], l as [|d l]; try done. cbn [head is_null].
    by rewrite (load_segment _ _ _ _ _ _ Hs).
  - destruct ls as [|z ls _] using rev_ind; [by destruct l|].
    rewrite length_app in Hlen. simpl in Hlen.
    destruct l as [|y l _] using rev_ind; [simpl in Hlen; lia|].
    rewrite !last_snoc. cbn [is_null]. by rewrite (load_last _ _ _ _ _ _ Hs).
Qed.

Lemma delete_queue_loop_spec fuel h p ls l dtor :
  NoDup ls -> segment h p ls l -> (length ls <= fuel)%nat ->
  exists h', delete_queue_loop fuel h (head ls) dtor
    = Ok (if dtor : bool then concat (map option_list l) else [], h') /\
    (forall a, a ∈ ls -> h' !! a = None) /\ (forall b, b ∉ ls -> h' !! b = h !! b).
Proof.
  revert h p ls l. induction fuel as [|fuel IH]; intros h p [|a ls] [|d l] Hnd Hs Hf; try done.
  - exists h. split; [by destruct dtor|]. split; [set_solver|done].
  - simpl in Hf. lia.
  - exists h. split; [by destruct dtor|]. split; [set_solver|done].
  - cbn [head delete_queue_loop]. rewrite (load_segment _ _ _ _ _ _ Hs). cbn [mbind res_bind ln_next ln_data].
    destruct Hs as [Ha Hs]. rewrite (free_some _ _ _ Ha). cbn [mbind res_bind].
    apply NoDup_cons in Hnd as [Hna Hnd].
    destruct (IH (delete a h) (Some a) ls l Hnd) as (h' & -> & Hin & Hout).
    { eapply segment_frame; [|exact Hs]. intros b Hb. rewrite lookup_delete_ne by set_solver. done. }
    { simpl in Hf. lia. }
    cbn [mbind res_bind]. exists h'. split; [by destruct dtor|]. split.
    + intros b [->|Hb]%elem_of_cons; [|by apply Hin]. rewrite Hout by done. apply lookup_delete_eq.
    + intros b Hb. rewrite Hout by set_solver. rewrite lookup_delete_ne by set_solver. done.
Qed.

Lemma repr_length_size h q ls l : queue_repr h q ls l -> (length ls <= size h)%nat.
Proof.
  intros (Hnd & Hs & _). rewrite <- (size_list_to_set (C := gset loc) ls) by done. rewrite <- (size_dom h).
  apply subseteq_size. intros a Ha%elem_of_list_to_set. apply elem_of_dom. by eapply segment_alloc.
Qed.

Lemma delete_queue_spec h q ls l :
  queue_repr h q ls l ->
  exists h', delete_queue h (Some q) = Ok (if q_destructor q then concat (map option_list l) else [], h') /\
    (forall a, a ∈ ls -> h' !! a = None) /\ (forall b, b ∉ ls -> h' !! b = h !! b).
Proof.
  intros Hr. pose proof (repr_length_size _ _ _ _ Hr) as Hl. destruct Hr as (Hnd & Hs & Ef & _).
  unfold delete_queue. rewrite Ef. by apply (delete_queue_loop_spec _ _ None).
Qed.

(** ** Sequences of calls *)

Inductive call := Enqueue (data : option D) | Dequeue | GetFront | GetRear.

(** One call: what it returns (nothing for [enqueue]), the heap and the queue. *)
Definition do_call h (q : option Queue) (c : call) : res (list (option D) * nodes * option Queue) :=
  match c with
  | Enqueue d => '(h, q) ← enqueue h q d; Ok ([], h, q)
  | Dequeue => '(d, h, q) ← dequeue h q; Ok ([d], h, q)
  | GetFront => d ← get_front h q; Ok ([d], h, q)
  | GetRear => d ← get_rear h q; Ok ([d], h, q)
  end.

Fixpoint do_calls h (q : option Queue) (cs : list call) : res (list (option D) * nodes * option Queue) :=
  match cs with
  | [] => Ok ([], h, q)
  | c :: cs =>
      '(out, h, q) ← do_call h q c;
      '(outs, h, q) ← do_calls h q cs;
      Ok (out ++ outs, h, q)
  end.

(** The abstract queue is a list. An [enqueue] whose [calloc] fails drops its
    element; that is the only choice a step has. *)
Inductive fifo : list (option D) -> call -> list (option D) -> list (option D) -> Prop :=
  | fifo_enqueue l d : fifo l (Enqueue d) [] (l ++ [d])
  | fifo_drop l d (h : nodes) : calloc_node h = None -> fifo l (Enqueue d) [] l
  | fifo_dequeue d l : fifo (d :: l) Dequeue [d] l
  | fifo_empty : fifo [] Dequeue [None] []
  | fifo_front l : fifo l GetFront [mjoin (head l)] l
  | fifo_rear l : fifo l GetRear [mjoin (last l)] l.

Inductive fifo_run : list (option D) -> list call -> list (option D) -> list (option D) -> Prop :=
  | fifo_nil l : fifo_run l [] [] l
  | fifo_cons l c out l1 cs outs l2 :
      fifo l c out l1 -> fifo_run l1 cs outs l2 -> fifo_run l (c :: cs) (out ++ outs) l2.

(** [h] is [h0] plus the nodes of the queue. *)
Definition queue_over (h0 h : nodes) q (l : list (option D)) : Prop :=
  exists ls, queue_repr h q ls l /\ (forall a, a ∈ ls -> h0 !! a = None) /\
    (forall b, b ∉ ls -> h !! b = h0 !! b).

(** What [calloc] promises: the node is not one in use. *)
Context (calloc_fresh : forall h a, calloc_node h = Some a -> h !! a = None).

Lemma call_refines h0 h q l c :
  queue_over h0 h q l ->
  exists out h' q' l', do_call h (Some q) c = Ok (out, h', Some q') /\ fifo l c out l' /\
    queue_over h0 h' q' l' /\ q_destructor q' = q_destructor q.
Proof.
  intros (ls & Hr & Hin & Hout). pose proof (front_rear_spec _ _ _ _ Hr) as [Hf Hre].
  destruct c as [d| | |]; cbn [do_call].
  - destruct (calloc_node h) as [a|] eqn:Ec.
    + destruct (enqueue_spec _ _ _ _ _ d Hr Ec (calloc_fresh _ _ Ec)) as (h' & q' & -> & Hr' & Hd & Hfr).
      eexists _, _, _, _. split; [done|]. split; [constructor|]. split; [|done].
      pose proof (segment_fresh _ _ _ _ _ (proj1 (proj2 Hr)) (calloc_fresh _ _ Ec)) as Ha.
      exists (ls ++ [a]). split; [done|]. split.
      * intros b [Hb| ->%list_elem_of_singleton]%elem_of_app; [by apply Hin|].
        rewrite <- Hout by done. by apply calloc_fresh.
      * intros b Hb. rewrite Hfr by done. apply Hout. set_solver.
    + unfold enqueue. rewrite Ec. eexists _, _, _, _. split; [done|].
      split; [by eapply fifo_drop|]. split; [by exists ls|done].
  - destruct l as [|d l].
    + destruct ls as [|a ls]; [|by destruct Hr as (_ & [] & _)].
      rewrite dequeue_empty by done. eexists _, _, _, _. split; [done|]. split; [constructor|].
      split; [by exists []|done].
    + destruct ls as [|a ls]; [by destruct Hr as (_ & [] & _)|].
      destruct (dequeue_spec _ _ _ _ _ _ Hr) as (h' & q' & -> & Hr' & Hd & Ha & Hfr).
      eexists _, _, _, _. split; [done|]. split; [constructor|]. split; [|done].
      exists ls. split; [done|]. split; [intros b Hb; apply Hin; by right|].
      intros b Hb. destruct (decide (b = a)) as [->|Hba].
      * rewrite Ha. symmetry. apply Hin. by left.
      * rewrite Hfr by set_solver. apply Hout. set_solver.
  - rewrite Hf. eexists _, _, _, _. split; [done|]. split; [constructor|]. split; [by exists ls|done].
  - rewrite Hre. eexists _, _, _, _. split; [done|]. split; [constructor|]. split; [by exists ls|done].
Qed.

Lemma calls_refine h0 h q l cs :
  queue_over h0 h q l ->
  exists outs h' q' l', do_calls h (Some q) cs = Ok (outs, h', Some q') /\ fifo_run l cs outs l' /\
    queue_over h0 h' q' l' /\ q_destructor q' = q_destructor q.
Proof.
  revert h q l. induction cs as [|c cs IH]; intros h q l Ho.
  - eexists _, _, _, _. split; [done|]. split; [constructor|]. by split.
  - destruct (call_refines _ _ _ _ c Ho) as (out & h1 & q1 & l1 & E1 & Hf1 & Ho1 & Hd1).
    destruct (IH _ _ _ Ho1) as (outs & h2 & q2 & l2 & E2 & Hf2 & Ho2 & Hd2).
    cbn [do_calls]. rewrite E1. cbn [mbind res_bind]. rewrite E2. cbn [mbind res_bind].
    eexists _, _, _, _. split; [done|]. split; [by econstructor|]. split; [done|congruence].
Qed.

Lemma queue_over_delete h0 h q l :
  queue_over h0 h q l ->
  delete_queue h (Some q) = Ok (if q_destructor q then concat (map option_list l) else [], h0).
Proof.
  intros (ls & Hr & Hin & Hout). destruct (delete_queue_spec _ _ _ _ Hr) as (h' & -> & Hi & Ho).
  do 2 f_equal. apply map_eq. intros a. destruct (decide (a ∈ ls)) as [Ha|Ha].
  - by rewrite Hi, Hin.
  - by rewrite Ho, Hout.
Qed.

(** C17. The queue is a FIFO that leaks nothing: from an empty queue, every sequence
    of [enqueue], [dequeue], [get_front] and [get_rear] runs without undefined
    behaviour and returns what the list does (an [enqueue] is lost only when
    [calloc] fails), and [delete_queue] then hands exactly the elements that are
    left to the destructor, front first, and gives the heap back as it was. What
    [get_front] and [get_rear] return is the element itself, as the server needs it,
    not the [ListNode] that their comments speak of. *)
Theorem queue_is_fifo h0 q dtor cs :
  init_queue dtor = Some q ->
  exists outs h q' rest,
    do_calls h0 (Some q) cs = Ok (outs, h, Some q') /\ fifo_run [] cs outs rest /\
    delete_queue h (Some q') = Ok (if dtor then concat (map option_list rest) else [], h0).
Proof.
  unfold init_queue. destruct calloc_queue; [|done]. intros [= <-].
  destruct (calls_refine h0 h0 (mkQueue None None dtor) [] cs) as (outs & h & q' & l & E & Hf & Ho & Hd).
  { exists []. split; [apply init_repr|]. split; [set_solver|done]. }
  exists outs, h, q', l. split; [done|]. split; [done|].
  apply queue_over_delete in Ho. by rewrite Hd in Ho.
Qed.

End queue.

(** ** What the queue promises its clients

    A client sees a list that grows at one end and shrinks at the other. *)

Class Fifo (Q R : Type) := {
  fifo_list : Q -> list R;
  fifo_put : Q -> R -> Q;
  fifo_take : Q -> option R * Q;
  fifo_peek : Q -> option R;
}.

Class FifoLaws (Q R : Type) `{Fifo Q R} : Prop := {
  fifo_put_list q r : fifo_list (fifo_put q r) = fifo_list q ++ [r];
  fifo_take_head q : (fifo_take q).1 = head (fifo_list q);
  fifo_take_tail q : fifo_list (fifo_take q).2 = tail (fifo_list q);
  fifo_peek_head q : fifo_peek q = head (fifo_list q);
}.

(** Lists keep the promise, *)
#[export] Instance list_fifo {R} : Fifo (list R) R := {|
  fifo_list := id;
  fifo_put := fun q r => q ++ [r];
  fifo_take := fun q => (head q, tail q);
  fifo_peek := head;
|}.

#[export] Instance list_fifo_laws {R} : FifoLaws (list R) R.
Proof. by split. Qed.

(** and so does the linked queue, where its [calloc] is granted: a queue and its
    heap, whose elements are not [NULL]. *)
Section linked.
Context {R : Type} (calloc_node : gmap loc (ListNode R) -> option loc).
Context (calloc_granted : forall h, is_Some (calloc_node h)).
Context (calloc_fresh : forall h a, calloc_node h = Some a -> h !! a = None).
Implicit Types (x : gmap loc (ListNode R) * Queue).

Definition well_linked x : Prop := exists ls l, queue_repr x.1 x.2 ls (map Some l).

(** The elements, from the front on. *)
Fixpoint walk (fuel : nat) (h : gmap loc (ListNode R)) (p : option loc) : list R :=
  match fuel, p with
  | S fuel, Some a =>
      match h !! a with
      | Some n => option_list (ln_data n) ++ walk fuel h (ln_next n)
      | None => []
      end
  | _, _ => []
  end.

Definition linked_list x : list R := walk (size x.1) x.1 (q_front x.2).

Definition linked_enqueue x (r : R) : gmap loc (ListNode R) * Queue :=
  match enqueue calloc_node x.1 (Some x.2) (Some r) with
  | Ok (h, Some q) => (h, q)
  | _ => x
  end.

Definition linked_dequeue x : option R * (gmap loc (ListNode R) * Queue) :=
  match dequeue x.1 (Some x.2) with
  | Ok (d, h, Some q) => (d, (h, q))
  | _ => (None, x)
  end.

Definition linked_front x : option R :=
  match get_front x.1 (Some x.2) with Ok d => d | _ => None end.

Lemma walk_segment fuel h p ls l :
  segment h p ls (map Some l) -> (length ls <= fuel)%nat -> walk fuel h (head ls) = l.
Proof.
  revert fuel p l. induction ls as [|a ls IH]; intros fuel p [|r l] Hs Hf; try done.
  - by destruct fuel.
  - simpl in Hf. destruct fuel as [|fuel]; [lia|]. destruct Hs as [Ha Hs]. cbn [head walk]. rewrite Ha.
    simpl. f_equal. eapply IH; [done|lia].
Qed.

Lemma linked_list_repr x ls l : queue_repr x.1 x.2 ls (map Some l) -> linked_list x = l.
Proof.
  intros Hr. pose proof (repr_length_size _ _ _ _ Hr) as Hl. destruct Hr as (_ & Hs & Ef & _).
  unfold linked_list. rewrite Ef. by eapply walk_segment.
Qed.

Lemma linked_enqueue_spec x r :
  well_linked x -> well_linked (linked_enqueue x r) /\ linked_list (linked_enqueue x r) = linked_list x ++ [r].
Proof.
  intros (ls & l & Hr). destruct (calloc_granted x.1) as [a Ha].
  destruct (enqueue_spec calloc_node _ _ _ _ a (Some r) Hr Ha (calloc_fresh _ _ Ha)) as (h' & q' & E & Hr' & _).
  unfold linked_enqueue. rewrite E. rewrite (linked_list_repr x ls l) by done.
  change (map Some l ++ [Some r]) with (map Some l ++ map Some [r]) in Hr'. rewrite <- map_app in Hr'.
  split; [by eexists _, _|]. by apply (linked_list_repr (h', q')) in Hr'.
Qed.

Lemma linked_dequeue_spec x :
  well_linked x ->
  well_linked (linked_dequeue x).2 /\ (linked_dequeue x).1 = head (linked_list x) /\
  linked_list (linked_dequeue x).2 = tail (linked_list x).
Proof.
  intros (ls & l & Hr). rewrite (linked_list_repr x ls l) by done. unfold linked_dequeue.
  pose proof (proj1 (proj2 Hr)) as Hs. destruct l as [|r l], ls as [|a ls]; try done.
  - rewrite dequeue_empty by done. split; [by exists [], []|]. split; [done|].
    by apply (linked_list_repr _ [] []).
  - apply dequeue_spec in Hr as (h' & q' & -> & Hr' & _); [|exact calloc_node]. cbn [fst snd].
    split; [by eexists _, _|]. split; [done|]. by apply (linked_list_repr (h', q')) in Hr'.
Qed.

Definition linked : Type := sig well_linked.

#[local] Instance linked_fifo : Fifo linked R := {|
  fifo_list := fun q => linked_list (`q);
  fifo_put := fun q r => exist _ (linked_enqueue (`q) r) (proj1 (linked_enqueue_spec _ r (proj2_sig q)));
  fifo_take := fun q =>
    ((linked_dequeue (`q)).1, exist _ (linked_dequeue (`q)).2 (proj1 (linked_dequeue_spec _ (proj2_sig q))));
  fifo_peek := fun q => linked_front (`q);
|}.

#[local] Instance linked_fifo_laws : FifoLaws linked R.
Proof.
  split; cbn.
  - intros [x Hx] r. by apply linked_enqueue_spec.
  - intros [x Hx]. by apply linked_dequeue_spec.
  - intros [x Hx]. by apply linked_dequeue_spec.
  - intros [x (ls & l & Hr)]. cbn. rewrite (linked_list_repr x ls l) by done. unfold linked_front.
    destruct (front_rear_spec _ _ _ _ Hr) as [-> _]. by destruct l.
Qed.

End linked.

(** An allocator that takes the first address past those in use. *)
Definition calloc_next {D} (h : gmap loc (ListNode D)) : option loc := Some (fresh (dom h)).

Lemma calloc_next_fresh {D} (h : gmap loc (ListNode D)) a : calloc_next h = Some a -> h !! a = None.
Proof. intros [= <-]. apply not_elem_of_dom. apply is_fresh. Qed.

Lemma queue_is_fifo_witness :
  init_queue true true = Some (mkQueue None None true) /\
  exists outs h q' rest,
    do_calls calloc_next ∅ (Some (mkQueue None None true))
      [Enqueue (Some 1%Z); Enqueue (Some 2%Z); Dequeue; GetRear; Enqueue (Some 3%Z)] = Ok (outs, h, Some q') /\
    fifo_run calloc_next [] [Enqueue (Some 1%Z); Enqueue (Some 2%Z); Dequeue; GetRear; Enqueue (Some 3%Z)]
      outs rest /\
    delete_queue h (Some q') = Ok (concat (map option_list rest), ∅).
Proof.
  split; [reflexivity|].
  apply (queue_is_fifo calloc_next true calloc_next_fresh ∅ (mkQueue None None true) true). reflexivity.
Defined.

Example fifo_run_example :
  match do_calls calloc_next ∅ (init_queue true false)
    [Enqueue (Some 1%Z); Enqueue (Some 2%Z); Dequeue; GetRear; Dequeue; Dequeue; GetFront] with
  | Ok (outs, h, q) => outs = [Some 1%Z; Some 2%Z; Some 2%Z; None; None] /\ size h = 0%nat
  | _ => False
  end.
Proof. vm_compute. by split. Qed.
