(* ===== verification/Rdb.v ===== *)
(** The parser of RDB files of [rdb_file_parser.c]: the header, the lengths and
    the auxiliary fields, over a file given as the bytes still to be read. *)

From S2P Require Import Prelude CLib.

Definition MAGIC_NMB_SZ : Z := 5.
Definition REDIS_VER_SZ : Z := 4.
Definition LENGTH_MASK : Z := 63.

(** The opcodes of [RedisOpCodes]. *)
Definition AUX : Z := 250.
Definition RESIZEDB : Z := 251.
Definition EXPIRETIMEMS : Z := 252.
Definition EXPIRETIME : Z := 253.
Definition SELECTDB : Z := 254.
Definition _EOF : Z := 255.

Inductive KeyValueStatesRdb := READING_KEY | READING_VALUE.

Inductive RdbLenEncodingTypes :=
  | REDIS_RDB_6BITLEN | REDIS_RDB_14BITLEN | REDIS_RDB_32BITLEN | REDIS_SPECIAL_FORMAT.

#[export] Instance RdbLenEncodingTypes_eq_dec : EqDecision RdbLenEncodingTypes.
Proof. solve_decision. Defined.

Record RdbLengthEncoding := mkRdbLengthEncoding {
  encoding_type : RdbLenEncodingTypes;
  length_or_format : Z;
}.

(** ** Reading *)

(** [fread(dst, 1, n, fp)]: how much was read, the object and the file. *)
Definition fread (dst : list byte) (n : Z) (fp : list byte) : res (Z * list byte * list byte) :=
  let got := take (Z.to_nat n) fp in
  dst ← memcpy dst 0 got;
  Ok (Z.of_nat (length got), dst, drop (Z.to_nat n) fp).

(** [fread] of one byte into a variable, which keeps its value at the end. *)
Definition fread_byte (old : Z) (fp : list byte) : Z * Z * list byte :=
  match fp with [] => (0, old, []) | b :: fp => (1, byte_val b, fp) end.

(** [strcmp(object, literal)==0] where the object need not hold a NUL: running
    past its end is undefined. *)
Fixpoint strcmp_object (object literal : list byte) : res bool :=
  match object, literal with
  | [], _ => UB
  | b :: _, [] => Ok (bool_decide (b = NUL))
  | b :: object, c :: literal =>
      if decide (b = c) then strcmp_object object literal else Ok false
  end.

(** ** The header *)

Definition is_magic_header_correct (data : option (list byte)) (nr_rd_el : Z) : res bool :=
  match data with
  | None => Ok false
  | Some data => if nr_rd_el <? MAGIC_NMB_SZ then Ok false else strcmp_object data (bs "REDIS")
  end.

Definition available_versions : list (list byte) :=
  map bs ["0001"; "0002"; "0003"; "0004"; "0005"; "0006"; "0007"; "0008"; "0009"; "0010"; "0011"]%string.

(** The loop [do ... while (version)] over the versions. *)
Fixpoint version_loop (versions : list (list byte)) (data : list byte) : res bool :=
  match versions with
  | [] => Ok false
  | v :: versions =>
      same ← strcmp_object data v;
      if (same : bool) then Ok true else version_loop versions data
  end.

Definition is_version_number_correct (data : option (list byte)) (nr_rd_el : Z) : res bool :=
  match data with
  | None => Ok false
  | Some data => if nr_rd_el <? REDIS_VER_SZ then Ok false else version_loop available_versions data
  end.

Section rdb.
Context `{Heap}.

(** The test is on the address of the variable, so that it never fails. *)
Definition allocate_mem (n : nat) (size : Z) : bool * option (list byte) :=
  (true, if heap_grants n size then Some (calloc size) else None).

Definition parse_rdb_header (fp : list byte) : res (bool * list byte) :=
  let '(ok, buf) := allocate_mem 0 MAGIC_NMB_SZ in
  if negb ok then Ok (false, fp)
  else
    buf ← deref buf;
    '(fread_rtn, buf, fp) ← fread buf MAGIC_NMB_SZ fp;
    magic ← is_magic_header_correct (Some buf) fread_rtn;
    if negb magic then Ok (false, fp)
    else
      let '(ok, buf) := allocate_mem 1 REDIS_VER_SZ in
      if negb ok then Ok (false, fp)
      else
        buf ← deref buf;
        '(fread_rtn, buf, fp) ← fread buf 4 fp;
        version ← is_version_number_correct (Some buf) fread_rtn;
        Ok (version : bool, fp).

(** ** Lengths *)

(** [char] is signed and shifts of negative values are those of two's
    complement. *)
Definition parse_length_encoding (byte_ : Z) (fp : list byte) : res (RdbLengthEncoding * list byte) :=
  let temp := Z.shiftr byte_ 6 in
  if temp =? 0 then Ok (mkRdbLengthEncoding REDIS_RDB_6BITLEN (Z.land byte_ LENGTH_MASK), fp)
  else if temp =? 1 then
    let '(fread_rtn, extra_byte, fp) := fread_byte 0 fp in
    if fread_rtn <? 1 then Ok (mkRdbLengthEncoding REDIS_RDB_14BITLEN (-1), fp)
    else Ok (mkRdbLengthEncoding REDIS_RDB_14BITLEN
               (Z.lor (Z.shiftl extra_byte 8) (Z.land byte_ LENGTH_MASK)), fp)
  else if temp =? 2 then
    '(fread_rtn, length, fp) ← fread (calloc 4) 4 fp;
    if fread_rtn <? 4 then Ok (mkRdbLengthEncoding REDIS_RDB_32BITLEN (-1), fp)
    else
      l0 ← aread length 0; l1 ← aread length 1; l2 ← aread length 2; l3 ← aread length 3;
      Ok (mkRdbLengthEncoding REDIS_RDB_32BITLEN
            (Z.lor (Z.lor (Z.lor (Z.shiftl (char_val l3) 24) (Z.shiftl (char_val l2) 16))
                     (Z.shiftl (char_val l1) 8)) (char_val l0)), fp)
  else Ok (mkRdbLengthEncoding REDIS_SPECIAL_FORMAT (Z.land byte_ LENGTH_MASK), fp).

(** ** Strings *)

(** What [get_str] leaves in the object, whether it reports an error, and the
    file. *)
Definition get_str (string : option (list byte)) (size : Z) (fp : list byte)
    : res (option (list byte) * bool * list byte) :=
  match string with
  | None => Ok (None, false, fp)
  | Some object =>
      if size =? 0 then Ok (string, false, fp)
      else
        '(fread_rtn, object, fp) ← fread object size fp;
        if fread_rtn <? size then Ok (Some object, true, fp)
        else
          object ← awrite object size NUL;
          Ok (Some object, false, fp)
  end.

Definition size_of_int (z : Z) : Z := z mod 2 ^ 64.

(** [next_reading_state], [kvp_arr] and [is_rdb_file_correct] are passed and
    returned. *)
Definition label_len_encoding_and_get_str (next_reading_state : KeyValueStatesRdb)
    (kvp_arr : option (list byte) * option (list byte)) (rdb : RdbLengthEncoding)
    (is_rdb_file_correct : Z) (buf : option (list byte)) (fp : list byte)
    : res (KeyValueStatesRdb * (option (list byte) * option (list byte)) * Z * list byte) :=
  match encoding_type rdb with
  | REDIS_RDB_6BITLEN | REDIS_RDB_14BITLEN | REDIS_RDB_32BITLEN =>
      '(str, err, fp) ← get_str buf (size_of_int (length_or_format rdb)) fp;
      let correct := if (err : bool) then 0 else is_rdb_file_correct in
      match next_reading_state with
      | READING_KEY => Ok (READING_VALUE, (str, kvp_arr.2), correct, fp)
      | READING_VALUE => Ok (READING_KEY, (kvp_arr.1, str), correct, fp)
      end
  | REDIS_SPECIAL_FORMAT => Ok (next_reading_state, kvp_arr, 0, fp)
  end.

Definition is_next_state_an_opcode (byte : Z) : bool :=
  (byte =? SELECTDB) || (byte =? AUX) || (byte =? RESIZEDB) || (byte =? EXPIRETIMEMS)
  || (byte =? EXPIRETIME) || (byte =? _EOF).

(** ** Auxiliary fields *)

Definition aux_settings : list (list byte) :=
  map bs ["redis-ver"; "redis-bits"; "ctime"; "used-mem"]%string.

(** The lines printed on standard output: a key and a value each. *)
Definition auxiliary_field_settings (key value : option (list byte)) : list (list byte * list byte) :=
  match key, value with
  | Some key, Some value =>
      flat_map (fun setting => if strcmp_eq setting key then [(c_str key, c_str value)] else [])
        aux_settings
  | _, _ => []
  end.

(** The buffer for a string of that length; [calloc] of a negative [int] is a
    request for more than there is. *)
Definition calloc_string (length : Z) : res (option (list byte)) :=
  ub_unless (length + 1 <=? INT_MAX)
    (Ok (if length + 1 <? 0 then None
         else if heap_grants 0 (length + 1) then Some (calloc (length + 1)) else None)).

(** [deallocate_arr] on the array of two texts: each is freed and cleared. *)
Definition deallocate_arr (arr : option (list byte) * option (list byte))
    : option (list byte) * option (list byte) :=
  let clear (p : option (list byte)) := match p with Some _ => None | None => p end in
  (clear arr.1, clear arr.2).

(** What [parse_aux] leaves: the next byte, the flag, the file and the lines. *)
Abbreviation aux_result := (Z * Z * list byte * list (list byte * list byte))%type.

Fixpoint aux_loop (fuel : nat) (next : Z) (state : KeyValueStatesRdb)
    (kvp_arr : option (list byte) * option (list byte)) (correct : Z) (fp : list byte) : res aux_result :=
  match fuel with
  | O => OOF
  | S fuel =>
      '(rdb, fp) ← parse_length_encoding next fp;
      if length_or_format rdb =? -1 then Ok (next, 0, fp, [])
      else
        buf ← calloc_string (length_or_format rdb);
        '(state, kvp_arr, correct, fp) ← label_len_encoding_and_get_str state kvp_arr rdb correct buf fp;
        let done := match state with READING_KEY => negb (correct =? 0) | READING_VALUE => false end in
        let out := if done then auxiliary_field_settings kvp_arr.1 kvp_arr.2 else [] in
        let kvp_arr := if done then deallocate_arr kvp_arr else kvp_arr in
        if correct =? 0 then Ok (next, correct, fp, out)
        else
          let '(fread_rtn, next, fp) := fread_byte next fp in
          if fread_rtn =? 0 then Ok (next, 0, fp, out)
          else if is_next_state_an_opcode next then Ok (next, correct, fp, out)
          else
            '(next, correct, fp, rest) ← aux_loop fuel next state kvp_arr correct fp;
            Ok (next, correct, fp, out ++ rest)
  end.

Definition parse_aux (prev next correct : Z) (fp : list byte) : res aux_result :=
  if negb (prev =? AUX) then Ok (next, 0, fp, [])
  else if is_next_state_an_opcode next then Ok (next, if next =? SELECTDB then 1 else 0, fp, [])
  else aux_loop (S (length fp)) next READING_KEY (None, None) correct fp.

(** The states are read as signed [char]. *)
Definition handle_aux_state (prev_state next_state correct : Z) (fp : list byte)
    : res (Z * aux_result) :=
  if negb (int8 prev_state =? 15) || negb (int8 next_state =? AUX) then
    Ok (prev_state, (next_state, 0, fp, []))
  else
    let prev_state := next_state in
    let '(fread_rtn, next_state, fp) := fread_byte next_state fp in
    if fread_rtn <? 1 then Ok (prev_state, (next_state, 0, fp, []))
    else
      r ← parse_aux prev_state next_state correct fp;
      Ok (prev_state, r).

(** The main loop, bounded by [fuel]: every state but [AUX] goes round for ever.
    The function ends without a value ([None]). *)
Fixpoint rdb_loop (fuel : nat) (curr_state next_state correct : Z) (fp : list byte)
    : res (option Z) :=
  if correct =? 0 then Ok None
  else
    match fuel with
    | O => OOF
    | S fuel =>
        if next_state =? AUX then
          '(curr_state, (next_state, correct, fp, _)) ← handle_aux_state curr_state next_state correct fp;
          rdb_loop fuel curr_state next_state correct fp
        else rdb_loop fuel curr_state next_state correct fp
    end.

(** [file] is what [fopen] opens, if it does. *)
Definition redis_rdb_file_parser (fuel : nat) (file : option (list byte)) : res (option Z) :=
  match file with
  | None => Ok (Some 0)
  | Some fp =>
      '(ok, fp) ← parse_rdb_header fp;
      if negb ok then Ok (Some 0)
      else
        match fp with
        | [] => UB (* [next_state] has no value *)
        | b :: fp =>
            let next_state := byte_val b in
            if next_state =? 0 then Ok (Some 0) else rdb_loop fuel 15 next_state 1 fp
        end
  end.

(** ** The header overreads *)

Lemma strcmp_object_same_length object literal :
  length object = length literal ->
  strcmp_object object literal = if decide (object = literal) then UB else Ok false.
Proof.
  revert literal. induction object as [|b object IH]; intros [|c literal] Hl; try done.
  cbn [strcmp_object]. injection Hl as Hl. destruct (decide (b = c)) as [->|Hbc].
  - rewrite IH by done. destruct (decide (object = literal)) as [->|Hn].
    + by rewrite decide_True.
    + rewrite decide_False by congruence. done.
  - rewrite decide_False by congruence. done.
Qed.

Lemma fread_fits dst n fp :
  (Z.to_nat n <= length dst)%nat ->
  let got := take (Z.to_nat n) fp in
  fread dst n fp = Ok (Z.of_nat (length got), got ++ drop (length got) dst, drop (Z.to_nat n) fp).
Proof.
  intros Hn got. unfold fread. fold got. unfold memcpy.
  assert (length got <= Z.to_nat n)%nat by (unfold got; rewrite length_take; lia). if_true. done.
Qed.

Definition magic : list byte := bs "REDIS".

Lemma header_spec fp :
  (forall n z, heap_grants n z = true) ->
  parse_rdb_header fp = if decide (take 5 fp = magic) then UB else Ok (false, drop 5 fp).
Proof.
  intros Hh. unfold parse_rdb_header, allocate_mem. rewrite !Hh. cbn [negb deref mbind res_bind].
  rewrite fread_fits by (unfold calloc; rewrite length_replicate; reflexivity).
  change (Z.to_nat MAGIC_NMB_SZ) with 5%nat. cbn [mbind res_bind]. unfold is_magic_header_correct, MAGIC_NMB_SZ.
  case_if.
  - rewrite decide_False; [done|]. intros E. rewrite E in Hif. vm_compute in Hif. done.
  - assert (length (take 5 fp) = 5%nat) as El by (pose proof (length_take fp 5); lia).
    rewrite El. change (drop 5 (calloc 5)) with ([] : list byte). rewrite app_nil_r.
    rewrite strcmp_object_same_length by done. by destruct (decide _).
Qed.

Lemma handle_aux_state_refuses prev next correct fp :
  handle_aux_state prev next correct fp = Ok (prev, (next, 0, fp, [])).
Proof.
  unfold handle_aux_state. replace (int8 next =? AUX) with false; [by rewrite orb_true_r|].
  symmetry. apply Z.eqb_neq. unfold int8, AUX. pose proof (Z.mod_pos_bound (next + 2 ^ 7) (2 ^ 8)). lia.
Qed.

(** ** Lengths *)

Lemma lor_low a b k : 0 <= k -> 0 <= b < 2 ^ k -> Z.lor (a * 2 ^ k) b = a * 2 ^ k + b.
Proof.
  intros Hk Hb. rewrite <- Z.add_lor_land. enough (Z.land (a * 2 ^ k) b = 0) by lia.
  apply Z.bits_inj'. intros i Hi. rewrite Z.land_spec, Z.bits_0.
  destruct (Z.lt_ge_cases i k) as [Hik|Hik].
  - by rewrite Z.mul_pow2_bits_low.
  - rewrite <- (Z.mod_small b (2 ^ k)) by done. rewrite Z.mod_pow2_bits_high by lia. apply andb_false_r.
Qed.

(** Four bytes below 128, the lowest first. *)
Lemma le_value l0 l1 l2 l3 :
  0 <= l0 < 128 -> 0 <= l1 < 128 -> 0 <= l2 < 128 -> 0 <= l3 < 128 ->
  Z.lor (Z.lor (Z.lor (Z.shiftl l3 24) (Z.shiftl l2 16)) (Z.shiftl l1 8)) l0
  = l3 * 2 ^ 24 + l2 * 2 ^ 16 + l1 * 2 ^ 8 + l0.
Proof.
  intros. rewrite !Z.shiftl_mul_pow2 by lia. rewrite (lor_low l3 (l2 * 2 ^ 16) 24) by lia.
  replace (l3 * 2 ^ 24 + l2 * 2 ^ 16) with ((l3 * 2 ^ 8 + l2) * 2 ^ 16) by lia.
  rewrite (lor_low _ (l1 * 2 ^ 8) 16) by lia.
  replace ((l3 * 2 ^ 8 + l2) * 2 ^ 16 + l1 * 2 ^ 8) with ((l3 * 2 ^ 16 + l2 * 2 ^ 8 + l1) * 2 ^ 8) by lia.
  rewrite (lor_low _ l0 8) by lia. lia.
Qed.

(** The [i]-th byte of a length, the lowest being the 0th. *)
Definition le_byte (n i : Z) : Z := n / 2 ^ (8 * i) mod 256.
Definition le_ok (n : Z) : Prop :=
  0 <= n < INT_MAX /\ le_byte n 0 < 128 /\ le_byte n 1 < 128 /\ le_byte n 2 < 128.

#[export] Instance le_ok_dec n : Decision (le_ok n).
Proof. unfold le_ok. apply _. Defined.

Lemma le_byte_range n i : 0 <= le_byte n i < 256.
Proof. unfold le_byte. apply Z.mod_pos_bound. lia. Qed.

Lemma le_byte_sum n :
  0 <= n < 2 ^ 31 ->
  n = le_byte n 3 * 2 ^ 24 + le_byte n 2 * 2 ^ 16 + le_byte n 1 * 2 ^ 8 + le_byte n 0 /\ le_byte n 3 < 128.
Proof.
  intros Hn. unfold le_byte. change (2 ^ (8 * 3)) with (2 ^ 24). change (2 ^ (8 * 2)) with (2 ^ 16).
  change (2 ^ (8 * 1)) with (2 ^ 8). change (2 ^ (8 * 0)) with 1. rewrite Z.div_1_r.
  change (2 ^ 24) with (2 ^ 8 * (2 ^ 8 * 2 ^ 8)). change (2 ^ 16) with (2 ^ 8 * 2 ^ 8).
  rewrite <- !Z.div_div by lia. change (2 ^ 8) with 256.
  pose proof (Z.div_mod n 256). pose proof (Z.div_mod (n / 256) 256). pose proof (Z.div_mod (n / 256 / 256) 256).
  pose proof (Z.mod_pos_bound n 256). pose proof (Z.mod_pos_bound (n / 256) 256).
  pose proof (Z.mod_pos_bound (n / 256 / 256) 256).
  assert (0 <= n / 256 / 256 / 256 < 128) by (rewrite !Z.div_div by lia; split; [apply Z.div_pos|apply Z.div_lt_upper_bound]; lia).
  rewrite (Z.mod_small (n / 256 / 256 / 256)) by lia. lia.
Qed.

Lemma char_val_byte_of z : 0 <= z < 128 -> char_val (byte_of z) = z.
Proof. intros Hz. rewrite char_val_small; rewrite byte_val_of; lia. Qed.

(** The encodings the function reads back: six bits, or four bytes with the
    lowest first. *)
Definition length_code (n : Z) : list byte :=
  if n <? 64 then [byte_of n]
  else byte_of 128 :: map (fun i => byte_of (le_byte n i)) [0; 1; 2; 3].

Lemma length_code_short n r :
  0 <= n < 64 ->
  parse_length_encoding n r = Ok (mkRdbLengthEncoding REDIS_RDB_6BITLEN n, r).
Proof.
  intros Hn. unfold parse_length_encoding. rewrite Z.shiftr_div_pow2 by lia.
  replace (n / 2 ^ 6 =? 0) with true by (symmetry; apply Z.eqb_eq; apply Z.div_small; lia).
  do 3 f_equal. unfold LENGTH_MASK. change 63 with (Z.ones 6). rewrite Z.land_ones by lia.
  apply Z.mod_small. lia.
Qed.

Lemma parse_four b0 b1 b2 b3 r :
  parse_length_encoding 128 (b0 :: b1 :: b2 :: b3 :: r)
  = Ok (mkRdbLengthEncoding REDIS_RDB_32BITLEN
          (Z.lor (Z.lor (Z.lor (Z.shiftl (char_val b3) 24) (Z.shiftl (char_val b2) 16))
                   (Z.shiftl (char_val b1) 8)) (char_val b0)), r).
Proof. reflexivity. Qed.

Lemma length_code_long n r :
  le_ok n ->
  parse_length_encoding 128 (map (fun i => byte_of (le_byte n i)) [0; 1; 2; 3] ++ r)
  = Ok (mkRdbLengthEncoding REDIS_RDB_32BITLEN n, r).
Proof.
  intros (Hn & H0 & H1 & H2). unfold INT_MAX in Hn.
  destruct (le_byte_sum n) as [Hs H3]; [lia|].
  pose proof (le_byte_range n 0). pose proof (le_byte_range n 1).
  pose proof (le_byte_range n 2). pose proof (le_byte_range n 3).
  cbn [map app]. rewrite parse_four, !char_val_byte_of by lia. rewrite le_value by lia. by rewrite <- Hs.
Qed.

(** ** Strings and fields *)

Definition length_ok (n : Z) : Prop := n < 64 \/ le_ok n.

(** A string on file, and an auxiliary field: a key and a value. *)
Definition rdb_string (s : list byte) : list byte := length_code (Z.of_nat (length s)) ++ s.
Definition rdb_field (p : list byte * list byte) : list byte := rdb_string p.1 ++ rdb_string p.2.

Definition string_ok (s : list byte) : Prop := length_ok (Z.of_nat (length s)).

(** The line printed for a field. *)
Definition shown (p : list byte * list byte) : list (list byte * list byte) :=
  if bool_decide (c_str p.1 ∈ aux_settings) then [(c_str p.1, c_str p.2)] else [].

(** The object of a string read: its bytes and a NUL. *)
Definition object_of (s : list byte) : option (list byte) := Some (s ++ [NUL]).

Lemma c_str_object s : c_str (s ++ [NUL]) = c_str s.
Proof. induction s as [|b s IH]; [done|]. cbn [app c_str]. case_decide; [done|]. by rewrite IH. Qed.

Lemma settings_shown p : auxiliary_field_settings (object_of p.1) (object_of p.2) = shown p.
Proof.
  unfold auxiliary_field_settings, object_of, shown, strcmp_eq. rewrite !c_str_object.
  generalize (c_str p.1) as k. generalize (c_str p.2) as v. clear p. intros v k.
  assert (forall l, NoDup l -> Forall nul_free l ->
    flat_map (fun setting => if bool_decide (c_str setting = k) then [(k, v)] else []) l
    = if bool_decide (k ∈ l) then [(k, v)] else []) as Hl.
  { intros l Hnd Hn. induction Hn as [|x l Hx Hn IH]; [done|]. cbn [flat_map].
    apply NoDup_cons in Hnd as [Hxl Hnd]. rewrite IH by done. rewrite c_str_nul_free by done.
    destruct (decide (x = k)) as [->|Hxk].
    - rewrite !(bool_decide_eq_true_2 (k = k)), (bool_decide_eq_true_2 (k ∈ k :: l)) by (done || by left).
      rewrite bool_decide_eq_false_2 by done. done.
    - rewrite (bool_decide_eq_false_2 (x = k)) by done. cbn [app].
      destruct (decide (k ∈ l)) as [Hk|Hk].
      + rewrite !bool_decide_eq_true_2; [done|by right|done].
      + rewrite !bool_decide_eq_false_2; [done|set_solver|done]. }
  apply Hl; [refine (bool_decide_eq_true_1 _ _); vm_compute; reflexivity|].
  repeat constructor; nul_free_literal.
Qed.

Lemma get_str_whole s r :
  Z.of_nat (length s) < 2 ^ 31 ->
  get_str (Some (calloc (Z.of_nat (length s) + 1))) (size_of_int (Z.of_nat (length s))) (s ++ r)
  = Ok (object_of s, false, r).
Proof.
  intros Hl. unfold get_str, size_of_int. rewrite Z.mod_small by lia. case_if.
  - destruct s; [done|simpl in Hif; lia].
  - rewrite fread_fits by (unfold calloc; rewrite length_replicate; lia).
    rewrite Nat2Z.id, take_app_length, drop_app_length. cbn [mbind res_bind]. if_false.
    unfold calloc. replace (Z.to_nat (Z.of_nat (length s) + 1)) with (length s + 1)%nat by lia.
    rewrite drop_replicate. replace (length s + 1 - length s)%nat with 1%nat by lia.
    cbn [replicate]. rewrite awrite_middle. done.
Qed.

(** A string is read whatever the state, and the loop goes on to the next byte. *)
Lemma string_code s :
  string_ok s ->
  exists b t, rdb_string s = b :: t /\ is_next_state_an_opcode (byte_val b) = false /\
    exists enc, enc <> REDIS_SPECIAL_FORMAT /\
      forall r, parse_length_encoding (byte_val b) (t ++ r)
                = Ok (mkRdbLengthEncoding enc (Z.of_nat (length s)), s ++ r).
Proof.
  intros Hs. unfold rdb_string, length_code. case_if.
  - eexists _, _. split; [reflexivity|]. rewrite byte_val_of by lia. split.
    + unfold is_next_state_an_opcode, SELECTDB, AUX, RESIZEDB, EXPIRETIMEMS, EXPIRETIME, _EOF.
      rewrite !orb_false_iff, !Z.eqb_neq. lia.
    + exists REDIS_RDB_6BITLEN. split; [done|]. intros r. rewrite length_code_short by lia. done.
  - destruct Hs as [|Hs]; [lia|].
    exists (byte_of 128), (map (fun i => byte_of (le_byte (Z.of_nat (length s)) i)) [0; 1; 2; 3] ++ s).
    split; [reflexivity|]. split; [reflexivity|].
    exists REDIS_RDB_32BITLEN. split; [done|]. intros r.
    change (byte_val (byte_of 128)) with 128. rewrite <- (assoc_L (++)). by apply length_code_long.
Qed.

Lemma string_ok_length s : string_ok s -> Z.of_nat (length s) < 2 ^ 31 - 1.
Proof. intros [Hs|[Hs _]]; unfold INT_MAX in *; lia. Qed.

Context (Hheap : forall n z, heap_grants n z = true).

(** A key: one round, which goes on with the first byte of the value. *)
Lemma aux_loop_key fuel s b t x r :
  string_ok s -> rdb_string s = b :: t -> is_next_state_an_opcode (byte_val x) = false ->
  aux_loop (S fuel) (byte_val b) READING_KEY (None, None) 1 (t ++ x :: r)
  = aux_loop fuel (byte_val x) READING_VALUE (object_of s, None) 1 r.
Proof.
  intros Hs Eb Hx. destruct (string_code s Hs) as (b' & t' & Eb' & _ & enc & He & Hp).
  rewrite Eb in Eb'. injection Eb' as <- <-. pose proof (string_ok_length s Hs).
  cbn [aux_loop]. rewrite Hp. cbn [mbind res_bind length_or_format]. if_false.
  unfold calloc_string. rewrite Hheap. unfold INT_MAX. unfold ub_unless. if_true. if_false. cbn [mbind res_bind].
  unfold label_len_encoding_and_get_str. cbn [encoding_type length_or_format].
  rewrite get_str_whole by lia. destruct enc; try done; cbn [mbind res_bind fst snd fread_byte Z.eqb];
    rewrite Hx; destruct (aux_loop _ _ _ _ _ _) as [[[[? ?] ?] ?]| |]; done.
Qed.

(** A value: the field is printed, and the loop ends at an opcode. *)
Lemma aux_loop_value fuel k s b t x r :
  string_ok s -> rdb_string s = b :: t ->
  aux_loop (S fuel) (byte_val b) READING_VALUE (object_of k, None) 1 (t ++ x :: r)
  = if is_next_state_an_opcode (byte_val x) then Ok (byte_val x, 1, r, shown (k, s))
    else '(next, correct, fp, rest) ← aux_loop fuel (byte_val x) READING_KEY (None, None) 1 r;
         Ok (next, correct, fp, shown (k, s) ++ rest).
Proof.
  intros Hs Eb. destruct (string_code s Hs) as (b' & t' & Eb' & _ & enc & He & Hp).
  rewrite Eb in Eb'. injection Eb' as <- <-. pose proof (string_ok_length s Hs).
  cbn [aux_loop]. rewrite Hp. cbn [mbind res_bind length_or_format]. if_false.
  unfold calloc_string. rewrite Hheap. unfold INT_MAX. unfold ub_unless. if_true. if_false. cbn [mbind res_bind].
  unfold label_len_encoding_and_get_str. cbn [encoding_type length_or_format].
  rewrite get_str_whole by lia. rewrite <- (settings_shown (k, s)).
  destruct enc; try done; cbn [mbind res_bind fst snd fread_byte Z.eqb]; done.
Qed.

Lemma aux_loop_fields fields fuel b t opcode rest :
  fields <> [] -> Forall (fun p => string_ok p.1 /\ string_ok p.2) fields ->
  is_next_state_an_opcode (byte_val opcode) = true ->
  concat (map rdb_field fields) = b :: t -> (2 * length fields <= fuel)%nat ->
  aux_loop fuel (byte_val b) READING_KEY (None, None) 1 (t ++ opcode :: rest)
  = Ok (byte_val opcode, 1, rest, flat_map shown fields).
Proof.
  intros Hne Hf Hop. revert fuel b t Hne. induction Hf as [|[k v] fields [Hk Hv] Hf IH];
    intros fuel b t Hne Eb Hfuel; [done|]. cbn [fst snd length] in *.
  destruct (string_code k Hk) as (bk & tk & Ek & _). destruct (string_code v Hv) as (bv & tv & Ev & Hbv & _).
  cbn [map concat] in Eb. unfold rdb_field in Eb at 1. cbn [fst snd] in Eb. rewrite Ek, Ev in Eb.
  injection Eb as <- <-. destruct fuel as [|[|fuel]]; [lia|lia|].
  rewrite <- !(assoc_L (++)). cbn [app]. rewrite (aux_loop_key _ k) by done.
  destruct fields as [|p fields].
  - cbn [map concat app]. rewrite (aux_loop_value _ k v) by done. rewrite Hop. cbn [flat_map]. by rewrite app_nil_r.
  - destruct (concat (map rdb_field (p :: fields))) as [|x r] eqn:Ex.
    + apply Forall_cons in Hf as [[Hp _] _]. destruct (string_code p.1 Hp) as (bp & tp & Ep & _).
      cbn [map concat] in Ex. unfold rdb_field in Ex at 1. by rewrite Ep in Ex.
    + cbn [app]. rewrite (aux_loop_value _ k v) by done.
      assert (is_next_state_an_opcode (byte_val x) = false) as ->.
      { apply Forall_cons in Hf as [[Hp _] _]. destruct (string_code p.1 Hp) as (bp & tp & Ep & Hbp & _).
        cbn [map concat] in Ex. unfold rdb_field in Ex at 1. rewrite Ep in Ex. by injection Ex as <- _. }
      rewrite (IH fuel x r) by (done || lia). done.
Qed.

End rdb.

(** ** Properties *)

Section rdb_properties.
Context `{Heap}.

(** C31. Auxiliary fields are read back: over the encodings of a list of key and
    value strings, followed by an opcode, [parse_aux] consumes exactly the fields
    and the opcode, reports no error, leaves the opcode as the next state, and
    prints the fields whose key is one of the four known settings, in order. *)
Theorem aux_fields_roundtrip fields b t opcode rest :
  (forall n z, heap_grants n z = true) -> fields <> [] ->
  Forall (fun p => string_ok p.1 /\ string_ok p.2) fields ->
  is_next_state_an_opcode (byte_val opcode) = true ->
  concat (map rdb_field fields) = b :: t ->
  parse_aux AUX (byte_val b) 1 (t ++ opcode :: rest)
  = Ok (byte_val opcode, 1, rest, flat_map shown fields).
Proof.
  intros Hh Hne Hf Hop Eb. unfold parse_aux. cbn [negb Z.eqb AUX Pos.eqb].
  assert (is_next_state_an_opcode (byte_val b) = false) as ->.
  { destruct fields as [|p fields]; [done|]. apply Forall_cons in Hf as [[Hp _] _].
    destruct (string_code p.1 Hp) as (bp & tp & Ep & Hbp & _).
    cbn [map concat] in Eb. unfold rdb_field in Eb at 1. rewrite Ep in Eb. by injection Eb as <- _. }
  apply aux_loop_fields; try done.
  enough (2 * length fields <= S (length t))%nat by (rewrite length_app; lia).
  change (S (length t)) with (length (b :: t)). rewrite <- Eb. clear -Hf.
  induction Hf as [|p fields [Hp1 Hp2] Hf IH]; [done|]. cbn [map concat length].
  destruct (string_code _ Hp1) as (? & ? & E1 & _). destruct (string_code _ Hp2) as (? & ? & E2 & _).
  rewrite length_app. unfold rdb_field at 1. rewrite length_app, E1, E2. cbn [length]. lia.
Qed.

(** C32. No file is ever accepted. The magic number is compared in a five-byte
    buffer without a terminator: on a file that does not begin with it the
    parser answers 0, and on one that does the comparison runs past the buffer.
    Behind the header, [handle_aux_state] would refuse every state, because it
    compares a signed [char] with 0xFA. *)
Theorem rdb_file_never_accepted fuel fp prev next correct rest :
  (forall n z, heap_grants n z = true) ->
  redis_rdb_file_parser fuel (Some fp) = (if decide (take 5 fp = magic) then UB else Ok (Some 0)) /\
  handle_aux_state prev next correct rest = Ok (prev, (next, 0, rest, [])).
Proof.
  intros Hh. split; [|apply handle_aux_state_refuses].
  unfold redis_rdb_file_parser. rewrite header_spec by done. by destruct (decide _).
Qed.

(** Which lengths are read back: six-bit lengths and four-byte lengths, lowest
    byte first, whose bytes are below 128. A four-byte length between 128 and
    255 is read as a negative number, the bytes being signed; and of the
    fourteen-bit lengths of the format, high bits first, the two parts are
    exchanged. *)
Lemma lengths_read n fp :
  (0 <= n < 64 -> parse_length_encoding n fp = Ok (mkRdbLengthEncoding REDIS_RDB_6BITLEN n, fp)) /\
  (le_ok n -> parse_length_encoding 128 (map (fun i => byte_of (le_byte n i)) [0; 1; 2; 3] ++ fp)
              = Ok (mkRdbLengthEncoding REDIS_RDB_32BITLEN n, fp)) /\
  (128 <= n < 256 -> parse_length_encoding 128 (map (fun i => byte_of (le_byte n i)) [0; 1; 2; 3] ++ fp)
              = Ok (mkRdbLengthEncoding REDIS_RDB_32BITLEN (n - 256), fp)) /\
  (0 <= n < 2 ^ 14 -> parse_length_encoding (64 + n / 256) (byte_of (n mod 256) :: fp)
              = Ok (mkRdbLengthEncoding REDIS_RDB_14BITLEN (n mod 256 * 256 + n / 256), fp)).
Proof.
  split; [apply length_code_short|]. split; [apply length_code_long|]. split; intros Hn.
  - cbn [map app]. rewrite parse_four. unfold le_byte.
    change (2 ^ (8 * 0)) with 1. rewrite Z.div_1_r, (Z.mod_small n) by lia.
    change (2 ^ (8 * 1)) with 256. change (2 ^ (8 * 2)) with 65536. change (2 ^ (8 * 3)) with 16777216.
    rewrite !(Z.div_small n) by lia. change (char_val (byte_of (0 mod 256))) with 0. rewrite !Z.shiftl_0_l, !Z.lor_0_l.
    unfold char_val. rewrite byte_val_of by lia. unfold int8. do 3 f_equal.
    replace (n + 2 ^ 7) with (n - 128 + 1 * 2 ^ 8) by lia. rewrite Z.mod_add, Z.mod_small; lia.
  - assert (0 <= n / 256 < 64) by (split; [apply Z.div_pos|apply Z.div_lt_upper_bound]; lia).
    pose proof (Z.mod_pos_bound n 256). unfold parse_length_encoding.
    rewrite Z.shiftr_div_pow2 by lia. replace ((64 + n / 256) / 2 ^ 6) with 1.
    2: { change (2 ^ 6) with 64. replace (64 + n / 256) with (n / 256 + 1 * 64) by lia.
         rewrite Z.div_add, Z.div_small; lia. }
    cbn [Z.eqb Pos.eqb fread_byte Z.ltb Z.compare Pos.compare Pos.compare_cont].
    rewrite byte_val_of by lia. do 3 f_equal. unfold LENGTH_MASK. change 63 with (Z.ones 6).
    rewrite Z.land_ones by lia. replace (64 + n / 256) with (n / 256 + 1 * 2 ^ 6) by lia.
    rewrite Z.mod_add, (Z.mod_small (n / 256)) by lia. rewrite Z.shiftl_mul_pow2 by lia. rewrite lor_low; lia.
Qed.

End rdb_properties.

(** ** Witnesses *)

Definition rdb_heap : Heap := fun _ _ => true.
Definition sample_fields : list (list byte * list byte) :=
  [(bs "redis-ver", bs "7.2.0"); (bs "other", bs "x"); (bs "ctime", [])].

Lemma aux_fields_roundtrip_witness :
  @parse_aux rdb_heap AUX 9 1 (tail (concat (map rdb_field sample_fields)) ++ byte_of 254 :: bs "rest")
  = Ok (254, 1, bs "rest", [(bs "redis-ver", bs "7.2.0"); (bs "ctime", [])]).
Proof.
  apply (@aux_fields_roundtrip rdb_heap sample_fields (byte_of 9)
    (tail (concat (map rdb_field sample_fields))) (byte_of 254) (bs "rest")).
  - reflexivity.
  - discriminate.
  - repeat (constructor; [split; left; vm_compute; reflexivity|]). constructor.
  - reflexivity.
  - reflexivity.
Defined.

Lemma rdb_file_never_accepted_witness :
  @redis_rdb_file_parser rdb_heap 0 (Some (bs "REDIS0011")) = UB /\
  @handle_aux_state rdb_heap 15 AUX 1 [] = Ok (15, (AUX, 0, [], [])).
Proof.
  apply (@rdb_file_never_accepted rdb_heap 0 (bs "REDIS0011") 15 AUX 1 []). reflexivity.
Defined.

Example sample_lengths_read :
  @parse_length_encoding (64 + 300 / 256) (byte_of (300 mod 256) :: [])
  = Ok (mkRdbLengthEncoding REDIS_RDB_14BITLEN 11265, []).
Proof. apply (lengths_read 300 []). lia. Defined.
