(* ===== verification/Server.v ===== *)
(** The threads of [server.c]: the acceptor, the manager of the request queue,
    the thread that turns timed-out connections away, and the pool of workers,
    as interleaved steps over the two queues, mutexes and semaphores. *)

From Stdlib Require Import QArith Lqa.
From S2P Require Import Prelude CLib CFloat Errors Net KeyVal Expiry Queue.

#[local] Open Scope Z_scope.

(** ** Time *)

Record Request := mkRequest { fd : Z; ts : timespec }.

Definition get_time_diff (a b : timespec) : timespec :=
  mkTimespec (tv_sec a - tv_sec b) (tv_nsec a - tv_nsec b).

(** [diff_t] is computed like the times of [has_key_expired]. *)
Definition was_waiting_time_exceeded (diff : timespec) (dlt_sec : Q) (max_queue_time : Z) : bool :=
  let max := to_float (inject_Z max_queue_time) in
  let dlt_sec := if Qgt_bool dlt_sec max then max else dlt_sec in
  Qgt_bool (time_sec diff) dlt_sec.

Section waiting.
#[local] Open Scope Q_scope.

Lemma exact_sec_diff a b : exact_sec (get_time_diff a b) == exact_sec a - exact_sec b.
Proof.
  unfold exact_sec, get_time_diff. cbn [tv_sec tv_nsec]. unfold Qdiv, Z.sub.
  rewrite !inject_Z_plus, !inject_Z_opp. lra.
Qed.

(** The rounded difference is not above a second when the exact one is not. *)
Lemma time_sec_one a b :
  clock_ok a -> clock_ok b -> exact_sec a - exact_sec b <= 1 -> time_sec (get_time_diff a b) <= 1.
Proof.
  intros [Ha Ha'] [Hb Hb'] Hd. rewrite <- exact_sec_diff in Hd.
  unfold time_sec, exact_sec, get_time_diff in *. cbn [tv_sec tv_nsec] in *.
  set (s := (tv_sec a - tv_sec b)%Z) in *. set (n := (tv_nsec a - tv_nsec b)%Z) in *.
  assert (- 2 ^ 53 < s < 2 ^ 53)%Z as Hs by (unfold s; lia).
  assert (- 10 ^ 9 < n < 10 ^ 9)%Z as Hn by (unfold n; lia).
  rewrite (to_double_int s) by lia. rewrite (to_double_int n) by lia.
  set (x := inject_Z n / inject_Z (10 ^ 9)) in *.
  assert (x <= inject_Z 1) as Hx.
  { unfold x. apply Qle_shift_div_r; [reflexivity|]. rewrite <- inject_Z_mult, <- Zle_Qle. lia. }
  assert (inject_Z s + to_double x <= inject_Z 1) as Hsum.
  { destruct (Z_lt_ge_dec s 0) as [Hneg|Hpos].
    - apply to_double_mono in Hx. rewrite (to_double_int 1) in Hx by lia.
      assert (inject_Z s <= inject_Z (-1)) by (rewrite <- Zle_Qle; lia).
      change (inject_Z 1) with 1 in *. change (inject_Z (-1)) with (-1) in *. lra.
    - assert (x <= inject_Z (1 - s)) as Hx'.
      { unfold Z.sub. rewrite inject_Z_plus, inject_Z_opp. change (inject_Z 1) with 1. lra. }
      apply to_double_mono in Hx'. rewrite (to_double_int (1 - s)) in Hx' by lia.
      unfold Z.sub in Hx'. rewrite inject_Z_plus, inject_Z_opp in Hx'. lra. }
  apply to_double_mono in Hsum. rewrite (to_double_int 1) in Hsum by lia.
  apply to_float_mono in Hsum. rewrite (to_float_int 1) in Hsum by lia. exact Hsum.
Qed.

(** The limit is one second, whatever larger number of seconds is configured. *)
Lemma exceeded_one diff max_queue_time :
  (1 <= max_queue_time)%Z ->
  was_waiting_time_exceeded diff (inject_Z 1) max_queue_time = Qgt_bool (time_sec diff) 1.
Proof.
  intros Hm. unfold was_waiting_time_exceeded.
  destruct (Qgt_bool (inject_Z 1) (to_float (inject_Z max_queue_time))) eqn:E; [|done].
  apply Qgt_bool_iff in E. rewrite Zle_Qle in Hm. apply to_float_mono in Hm.
  rewrite (to_float_int 1) in Hm by lia. lra.
Qed.
End waiting.

(** ** Locking a mutex

    [plan] is what the next calls of [pthread_mutex_lock] return, 0 once it is
    used up. *)

Inductive lock_outcome := Locked | Exited.

Definition pthread_mutex_lock (plan : list Z) : Z * list Z :=
  match plan with [] => (0, []) | r :: plan => (r, plan) end.

Fixpoint lock_retry (n_retries : nat) (retry_tm rtn : Z) (plan : list Z) (s : Sock)
    : res (lock_outcome * list Z * Sock) :=
  match n_retries with
  | O => Ok (Exited, plan, s)
  | S n_retries =>
      match category (categorize_mtx_lck_error rtn) with
      | ERROR_FATAL => Ok (Exited, plan, s)
      | ERROR_RECOVERABLE =>
          '(slept, s) ← msleep retry_tm 3 s;
          if slept =? -1 then Ok (Exited, plan, s)
          else
            let '(rtn, plan) := pthread_mutex_lock plan in
            if rtn =? 0 then Ok (Locked, plan, s) else lock_retry n_retries retry_tm rtn plan s
      end
  end.

Definition mutex_lock (n_retries : nat) (retry_tm : Z) (plan : list Z) (s : Sock)
    : res (lock_outcome * list Z * Sock) :=
  let '(rtn, plan) := pthread_mutex_lock plan in
  if rtn =? 0 then Ok (Locked, plan, s) else lock_retry n_retries retry_tm rtn plan s.

(** ** Program counters

    Each constructor is the next call of the thread; its arguments are its
    locals. *)

Inductive acc_pc :=
  | A_accept | A_lock (rq : Request) | A_enqueue (rq : Request) | A_unlock | A_post.

Inductive mgr_pc :=
  | M_sleep | M_lock | M_clock
  | M_get_front (curr_tm : timespec)
  | M_test (curr_tm : timespec) (request : option Request)
  | M_dequeue (curr_tm : timespec) (request : Request)
  | M_lock_excd (curr_tm : timespec) (request : Request)
  | M_enqueue (curr_tm : timespec) (request : Request)
  | M_unlock_excd (curr_tm : timespec)
  | M_post (curr_tm : timespec)
  | M_unlock.

Inductive den_pc :=
  | D_wait | D_lock | D_dequeue | D_unlock (rq : option Request) | D_send (rq : Request) | D_close (rq : Request).

Inductive work_pc :=
  | W_wait | W_lock | W_dequeue | W_unlock (rq : option Request) | W_serve (rq : Request) | W_close (rq : Request).

Inductive tid := T_main | T_mgr | T_den | T_work (i : nat).

#[export] Instance tid_eq_dec : EqDecision tid.
Proof. solve_decision. Defined.

Inductive verdict := Served | Denied.

(** [pthread_mutex_unlock] by a thread that is not the owner changes nothing. *)
Definition unlock (m : option tid) (t : tid) : option tid := if decide (m = Some t) then None else m.

Section server.
Context {QT : Type} `{Fifo QT Request}.

(** The objects the threads share, their program counters, and the history:
    the connections accepted, those taken from the request queue, and those
    closed, in order. *)
Record world := mkWorld {
  w_acc : acc_pc; w_mgr : mgr_pc; w_den : den_pc; w_workers : list work_pc;
  req_q : QT; excd_tm_q : QT;
  req_q_mtx : option tid; excd_tm_mtx : option tid;
  req_q_sem : nat; excd_tm_sem : nat;
  accepted : list Request; taken : list Request; closed : list (Request * verdict);
}.

(** [start_server]: the objects and threads before the first connection. *)
Definition start_server (empty : QT) (max_app_workers : nat) : world :=
  mkWorld A_accept M_sleep D_wait (replicate max_app_workers W_wait) empty empty None None 0 0 [] [] [].

(** The loop of [start_server]. [input] is what [accept] answers, with the
    clock of [init_request]; a failed [accept] is tried again. *)
Definition acceptor_step (input : option (Z * timespec)) (w : world) : option world :=
  let '(mkWorld a m d ws rq eq rm em rs es acc tk cl) := w in
  match a with
  | A_accept =>
      match input with
      | None => Some w
      | Some (f, now) =>
          let r := mkRequest f now in
          Some (mkWorld (A_lock r) m d ws rq eq rm em rs es (acc ++ [r]) tk cl)
      end
  | A_lock r =>
      if is_null rm then Some (mkWorld (A_enqueue r) m d ws rq eq (Some T_main) em rs es acc tk cl) else None
  | A_enqueue r => Some (mkWorld A_unlock m d ws (fifo_put rq r) eq rm em rs es acc tk cl)
  | A_unlock => Some (mkWorld A_post m d ws rq eq (unlock rm T_main) em rs es acc tk cl)
  | A_post => Some (mkWorld A_accept m d ws rq eq rm em (S rs) es acc tk cl)
  end.

(** The loop of [th_req_queue_mgr]; [now] is the clock. *)
Definition th_req_queue_mgr (max_queue_time : Z) (now : timespec) (w : world) : option world :=
  let '(mkWorld a m d ws rq eq rm em rs es acc tk cl) := w in
  match m with
  | M_sleep => Some (mkWorld a M_lock d ws rq eq rm em rs es acc tk cl)
  | M_lock =>
      if is_null rm then Some (mkWorld a M_clock d ws rq eq (Some T_mgr) em rs es acc tk cl) else None
  | M_clock => Some (mkWorld a (M_get_front now) d ws rq eq rm em rs es acc tk cl)
  | M_get_front t => Some (mkWorld a (M_test t (fifo_peek rq)) d ws rq eq rm em rs es acc tk cl)
  | M_test t None => Some (mkWorld a M_unlock d ws rq eq rm em rs es acc tk cl)
  | M_test t (Some r) =>
      if was_waiting_time_exceeded (get_time_diff t (ts r)) (inject_Z 1) max_queue_time
      then Some (mkWorld a (M_dequeue t r) d ws rq eq rm em rs es acc tk cl)
      else Some (mkWorld a M_unlock d ws rq eq rm em rs es acc tk cl)
  | M_dequeue t r =>
      let '(o, rq) := fifo_take rq in
      Some (mkWorld a (M_lock_excd t r) d ws rq eq rm em rs es acc (tk ++ option_list o) cl)
  | M_lock_excd t r =>
      if is_null em then Some (mkWorld a (M_enqueue t r) d ws rq eq rm (Some T_mgr) rs es acc tk cl) else None
  | M_enqueue t r => Some (mkWorld a (M_unlock_excd t) d ws rq (fifo_put eq r) rm em rs es acc tk cl)
  | M_unlock_excd t => Some (mkWorld a (M_post t) d ws rq eq rm (unlock em T_mgr) rs es acc tk cl)
  | M_post t => Some (mkWorld a (M_get_front t) d ws rq eq rm em rs (S es) acc tk cl)
  | M_unlock => Some (mkWorld a M_sleep d ws rq eq (unlock rm T_mgr) em rs es acc tk cl)
  end.

(** The loop of [th_excd_tm_q_mgr]. *)
Definition th_excd_tm_q_mgr (w : world) : option world :=
  let '(mkWorld a m d ws rq eq rm em rs es acc tk cl) := w in
  match d with
  | D_wait =>
      match es with
      | O => None
      | S es => Some (mkWorld a m D_lock ws rq eq rm em rs es acc tk cl)
      end
  | D_lock =>
      if is_null em then Some (mkWorld a m D_dequeue ws rq eq rm (Some T_den) rs es acc tk cl) else None
  | D_dequeue =>
      let '(o, eq) := fifo_take eq in
      Some (mkWorld a m (D_unlock o) ws rq eq rm em rs es acc tk cl)
  | D_unlock None => Some (mkWorld a m D_wait ws rq eq rm (unlock em T_den) rs es acc tk cl)
  | D_unlock (Some r) => Some (mkWorld a m (D_send r) ws rq eq rm (unlock em T_den) rs es acc tk cl)
  | D_send r => Some (mkWorld a m (D_close r) ws rq eq rm em rs es acc tk cl)
  | D_close r => Some (mkWorld a m D_wait ws rq eq rm em rs es acc tk (cl ++ [(r, Denied)]))
  end.

(** The loop of [app_worker] in the [i]-th thread of the pool; [W_serve] is the
    call of [args->func]. *)
Definition app_worker (i : nat) (w : world) : option world :=
  let '(mkWorld a m d ws rq eq rm em rs es acc tk cl) := w in
  let goto pc := <[i := pc]> ws in
  match ws !! i with
  | None => None
  | Some W_wait =>
      match rs with
      | O => None
      | S rs => Some (mkWorld a m d (goto W_lock) rq eq rm em rs es acc tk cl)
      end
  | Some W_lock =>
      if is_null rm then Some (mkWorld a m d (goto W_dequeue) rq eq (Some (T_work i)) em rs es acc tk cl)
      else None
  | Some W_dequeue =>
      let '(o, rq) := fifo_take rq in
      Some (mkWorld a m d (goto (W_unlock o)) rq eq rm em rs es acc (tk ++ option_list o) cl)
  | Some (W_unlock None) => Some (mkWorld a m d (goto W_wait) rq eq (unlock rm (T_work i)) em rs es acc tk cl)
  | Some (W_unlock (Some r)) =>
      Some (mkWorld a m d (goto (W_serve r)) rq eq (unlock rm (T_work i)) em rs es acc tk cl)
  | Some (W_serve r) => Some (mkWorld a m d (goto (W_close r)) rq eq rm em rs es acc tk cl)
  | Some (W_close r) => Some (mkWorld a m d (goto W_wait) rq eq rm em rs es acc tk (cl ++ [(r, Served)]))
  end.

(** ** Interleaving *)

(** What the scheduler and the environment choose. *)
Inductive action := Acceptor (input : option (Z * timespec)) | Manager (now : timespec) | Denier | Worker (i : nat).

Context (max_queue_time : Z).

Definition act (c : action) (w : world) : option world :=
  match c with
  | Acceptor input => acceptor_step input w
  | Manager now => th_req_queue_mgr max_queue_time now w
  | Denier => th_excd_tm_q_mgr w
  | Worker i => app_worker i w
  end.

Inductive reachable (w0 : world) : world -> Prop :=
  | reach_start : reachable w0 w0
  | reach_step w c w' : reachable w0 w -> act c w = Some w' -> reachable w0 w'.

Lemma reachable_invariant w0 (P : world -> Prop) :
  P w0 -> (forall w c w', P w -> act c w = Some w' -> P w') -> forall w, reachable w0 w -> P w.
Proof. intros H0 Hs w Hr. induction Hr; eauto. Qed.

(** A run from a list of choices. *)
Fixpoint run_server (cs : list action) (w : world) : option world :=
  match cs with
  | [] => Some w
  | c :: cs => w ← act c w; run_server cs w
  end.

Lemma run_snoc cs c w : run_server (cs ++ [c]) w = run_server cs w ≫= act c.
Proof.
  revert w. induction cs as [|d cs IH]; intros w; cbn [app run_server].
  - cbn [mbind option_bind]. by destruct (act c w).
  - destruct (act d w) as [w1|]; [|done]. apply IH.
Qed.

Lemma run_reachable cs w0 w w' :
  reachable w0 w -> run_server cs w = Some w' -> reachable w0 w'.
Proof.
  revert w. induction cs as [|c cs IH]; intros w Hr E; simpl in E; [by injection E as <-|].
  destruct (act c w) as [w1|] eqn:Ea; [|done]. simpl in E. eapply IH; [|exact E]. by eapply reach_step.
Qed.

(** ** Mutual exclusion *)

(** Whether thread [t] is between the lock and the unlock of the request mutex,
    and of the other one. *)
Definition in_req (w : world) (t : tid) : bool :=
  match t with
  | T_main => match w_acc w with A_enqueue _ | A_unlock => true | _ => false end
  | T_mgr => match w_mgr w with M_sleep | M_lock => false | _ => true end
  | T_den => false
  | T_work i => match w_workers w !! i with Some (W_dequeue | W_unlock _) => true | _ => false end
  end.

Definition in_excd (w : world) (t : tid) : bool :=
  match t with
  | T_mgr => match w_mgr w with M_enqueue _ _ | M_unlock_excd _ => true | _ => false end
  | T_den => match w_den w with D_dequeue | D_unlock _ => true | _ => false end
  | _ => false
  end.

(** [m] is held by exactly the threads that are inside: at most one. *)
Definition guards (m : option tid) (inside : tid -> bool) : Prop :=
  forall t, inside t = true <-> m = Some t.

Lemma guards_same m f g : guards m f -> (forall t, g t = f t) -> guards m g.
Proof. intros Hg Hf t. rewrite Hf. apply Hg. Qed.

Lemma guards_lock f g t :
  guards None f -> g t = true -> (forall t', t' <> t -> g t' = f t') -> guards (Some t) g.
Proof.
  intros Hg Ht Ho t'. destruct (decide (t' = t)) as [->|Hn]; [by rewrite Ht|].
  rewrite Ho by done. split; [intros Hf; by apply Hg in Hf|congruence].
Qed.

Lemma guards_unlock m f g t :
  guards m f -> f t = true -> g t = false -> (forall t', t' <> t -> g t' = f t') ->
  guards (unlock m t) g.
Proof.
  intros Hg Hf Ht Ho. pose proof (proj1 (Hg t) Hf) as ->. unfold unlock. rewrite decide_True by done.
  intros t'. split; [|done]. destruct (decide (t' = t)) as [->|Hn]; [congruence|].
  rewrite Ho by done. intros Hx%Hg. congruence.
Qed.

Definition locks_ok (w : world) : Prop :=
  guards (req_q_mtx w) (in_req w) /\ guards (excd_tm_mtx w) (in_excd w).

(** [step_cases Hs] goes through the cases of a step. *)
Ltac step_cases Hs :=
  repeat match type of Hs with
  | context [match ?x with _ => _ end] => destruct x eqn:?; try discriminate
  end; injection Hs as <-.

(** [inside] compares who is inside before and after a step. *)
Ltac inside :=
  let j := fresh "j" in
  intros [| | |j]; intros; simpl; try done; try congruence;
  match goal with
  | E : ?ws !! ?i = Some _ |- context [<[?i := _]> ?ws !! j] =>
      destruct (decide (j = i)) as [->|];
        [rewrite list_lookup_insert_eq by (eapply lookup_lt_Some; exact E); by rewrite ?E
        |by rewrite list_lookup_insert_ne by done]
  end.

Ltac is_free m := match goal with H : is_null m = true |- _ => destruct m; [discriminate|] end.

(** The status of the thread that moves. *)
Ltac status :=
  simpl; try done;
  match goal with
  | E : ?ws !! ?i = Some _ |- _ =>
      first [by rewrite E | rewrite list_lookup_insert_eq by (eapply lookup_lt_Some; exact E); done]
  end.

Ltac keep_guards Hr := first
  [ solve [eapply guards_same; [exact Hr | inside]]
  | match goal with
    | E : is_null ?m = true |- guards _ _ =>
        solve [destruct m; [discriminate|]; eapply guards_lock; [exact Hr | status | inside]]
    end
  | solve [eapply guards_unlock; [exact Hr | status | status | inside]] ].

Lemma act_locks w c w' : locks_ok w -> act c w = Some w' -> locks_ok w'.
Proof.
  intros [Hr He] Hs. destruct w as [a m d ws rq eq rm em rs es acc tk cl].
  destruct c as [input|now| |i]; simpl in Hs; step_cases Hs; (split; [keep_guards Hr | keep_guards He]).
Qed.

Lemma guards_one m f t t' : guards m f -> f t = true -> f t' = true -> t = t'.
Proof. intros Hg Ht%Hg Ht'%Hg. congruence. Qed.

(** A thread inside can move, unless it is the manager on its way into the
    second mutex. *)
Definition action_of (t : tid) : action :=
  match t with
  | T_main => Acceptor None
  | T_mgr => Manager (mkTimespec 0 0)
  | T_den => Denier
  | T_work i => Worker i
  end.

Definition can_move (w : world) (t : tid) : Prop := is_Some (act (action_of t) w).

Lemma holder_moves w t :
  (in_req w t = true -> can_move w t \/ (t = T_mgr /\ exists r u, w_mgr w = M_lock_excd r u /\ is_Some (excd_tm_mtx w))) /\
  (in_excd w t = true -> can_move w t).
Proof.
  destruct w as [a m d ws rq eq rm em rs es acc tk cl]. unfold can_move. split; intros Hi.
  - destruct t as [| | |i]; simpl in Hi |- *.
    + left. destruct a; try discriminate; by eexists.
    + destruct m as [| | | |? [?|]|? ?|t r|? ?| | |]; try discriminate; try (left; by eexists).
      * left. by destruct (was_waiting_time_exceeded _ _ _).
      * left. by destruct (fifo_take rq).
      * destruct em as [o|]; [|left; by eexists]. right. split; [done|]. eexists t, r. by split.
    + discriminate.
    + left. destruct (ws !! i) as [[| | |[?|]| |]|]; try discriminate; try by eexists.
      by destruct (fifo_take rq).
  - destruct t as [| | |i]; simpl in Hi |- *; try discriminate.
    + destruct m; try discriminate; by eexists.
    + destruct d as [| | |[?|]| |]; try discriminate; try by eexists. by destruct (fifo_take eq).
Qed.

(** ** Where the connections are *)

Definition acc_held (a : acc_pc) : list Request :=
  match a with A_lock r | A_enqueue r => [r] | _ => [] end.
Definition mgr_held (m : mgr_pc) : list Request :=
  match m with M_lock_excd _ r | M_enqueue _ r => [r] | _ => [] end.
Definition den_held (d : den_pc) : list Request :=
  match d with D_unlock (Some r) | D_send r | D_close r => [r] | _ => [] end.
Definition work_held (p : work_pc) : list Request :=
  match p with W_unlock (Some r) | W_serve r | W_close r => [r] | _ => [] end.

Lemma held_update ws i p q :
  ws !! i = Some p ->
  work_held p ++ concat (map work_held (<[i := q]> ws)) ≡ₚ work_held q ++ concat (map work_held ws).
Proof.
  revert i. induction ws as [|x ws IH]; intros [|i] E; try done; simpl in E |- *.
  - injection E as ->. solve_Permutation.
  - rewrite (Permutation_app_swap_app (work_held p)), (IH i) by done. by rewrite Permutation_app_swap_app.
Qed.

Context `{!FifoLaws QT Request}.

(** What the manager read at the front is still there: nobody else is inside. *)
Definition manager_view (w : world) : Prop :=
  match w_mgr w with
  | M_test _ o => o = head (fifo_list (req_q w))
  | M_dequeue t r =>
      head (fifo_list (req_q w)) = Some r /\
      was_waiting_time_exceeded (get_time_diff t (ts r)) (inject_Z 1) max_queue_time = true
  | _ => True
  end.

Lemma act_view w c w' : locks_ok w -> manager_view w -> act c w = Some w' -> manager_view w'.
Proof.
  intros [Hr _] Hv Hs. destruct w as [a m d ws rq eq rm em rs es acc tk cl].
  pose proof (guards_one _ _ T_mgr T_main Hr) as Hmain.
  pose proof (fun i => guards_one _ _ T_mgr (T_work i) Hr) as Hwork. clear Hr.
  unfold manager_view in *. simpl in *.
  destruct c as [input|now| |i]; simpl in Hs; step_cases Hs; simpl; try done.
  - destruct m; try done; discriminate (Hmain eq_refl eq_refl).
  - by rewrite fifo_peek_head.
  - match goal with E : ws !! i = Some _ |- _ => specialize (Hwork i); rewrite E in Hwork end.
    destruct m; try done; discriminate (Hwork eq_refl eq_refl).
Qed.

(** The connections, from their arrival to their end. *)
Definition flow (w : world) : Prop :=
  accepted w = taken w ++ fifo_list (req_q w) ++ acc_held (w_acc w) /\
  taken w ≡ₚ mgr_held (w_mgr w) ++ fifo_list (excd_tm_q w) ++ den_held (w_den w)
             ++ concat (map work_held (w_workers w)) ++ map fst (closed w).

Lemma take_split (q q' : QT) o :
  fifo_take q = (o, q') -> fifo_list q = option_list o ++ fifo_list q' /\ o = head (fifo_list q).
Proof.
  intros E. pose proof (fifo_take_head q) as Hh. pose proof (fifo_take_tail q) as Ht.
  rewrite E in Hh, Ht. simpl in Hh, Ht. rewrite Hh, Ht. by destruct (fifo_list q).
Qed.

(** [worker_moves] replaces the workers after a step by those before it. *)
Ltac worker_moves :=
  match goal with
  | E : ?ws !! ?i = Some _ |- context [<[?i := ?q]> ?ws] =>
      let HU := fresh "HU" in
      pose proof (held_update _ _ _ q E) as HU; simpl in HU;
      try apply Permutation_cons_inv in HU; try rewrite HU
  end.

Lemma act_flow w c w' : manager_view w -> flow w -> act c w = Some w' -> flow w'.
Proof.
  intros Hv [Ha Ht] Hs. destruct w as [a m d ws rq eq rm em rs es acc tk cl].
  unfold manager_view, flow in *. simpl in *.
  destruct c as [input|now| |i]; simpl in Hs; step_cases Hs; simpl; rewrite ?app_nil_r in *; try (by split).
  all: try match goal with E : fifo_take _ = _ |- _ => apply take_split in E as [E Eo]; rewrite E in * end.
  all: rewrite ?map_app, ?fifo_put_list; (split; [subst acc; by rewrite <- ?(assoc_L (++))|]).
  all: try solve [rewrite Ht; solve_Permutation].
  all: try solve [worker_moves; rewrite Ht; solve_Permutation].
  - destruct Hv as [Hv _]. rewrite Hv in Eo. subst o. rewrite Ht. simpl. solve_Permutation.
  - worker_moves. rewrite Ht, <- HU. solve_Permutation.
Qed.

(** ** Who is turned away *)

Definition denied (cl : list (Request * verdict)) : list Request :=
  flat_map (fun p => match p.2 with Denied => [p.1] | Served => [] end) cl.

Lemma denied_snoc cl r v : denied (cl ++ [(r, v)]) = denied cl ++ match v with Denied => [r] | Served => [] end.
Proof. unfold denied. rewrite flat_map_app. by destruct v. Qed.

Section history.
Context (w0 : world).

(** In the run of [cs] from [w0], after some of its choices, a choice is made of
    which [E] holds. *)
Definition happened (cs : list action) (E : list action -> action -> Prop) : Prop :=
  exists cs0 c cs1, cs = cs0 ++ c :: cs1 /\ E cs0 c.

(** What holds after the choices [cs]. *)
Definition after (cs : list action) (P : world -> Prop) : Prop := exists w, run_server cs w0 = Some w /\ P w.

Lemma happened_snoc cs c E : happened cs E -> happened (cs ++ [c]) E.
Proof. intros (cs0 & d & cs1 & -> & HE). exists cs0, d, (cs1 ++ [c]). by rewrite <- (assoc_L (++)). Qed.

Lemma happened_last cs c (E : list action -> action -> Prop) : E cs c -> happened (cs ++ [c]) E.
Proof. intros HE. by exists cs, c, []. Qed.

(** [accept] answered with the connection, and [init_request] read its time. *)
Definition arrived (cs : list action) (r : Request) : Prop :=
  happened cs (fun cs0 c => c = Acceptor (Some (fd r, ts r)) /\ after cs0 (fun w => w_acc w = A_accept)).

(** The manager read the clock, when the connection had arrived. *)
Definition clock_read (cs : list action) (now : timespec) (r : Request) : Prop :=
  happened cs (fun cs0 c => c = Manager now /\ after cs0 (fun w => w_mgr w = M_clock) /\ arrived cs0 r).

(** The manager tested the connection against that time, and it had waited too long. *)
Definition found_late (cs : list action) (r : Request) : Prop :=
  exists now,
    was_waiting_time_exceeded (get_time_diff now (ts r)) (inject_Z 1) max_queue_time = true /\
    happened cs (fun cs0 c => (exists t, c = Manager t) /\
      after cs0 (fun w => w_mgr w = M_test now (Some r)) /\ clock_read cs0 now r).

Lemma found_late_snoc cs c r : found_late cs r -> found_late (cs ++ [c]) r.
Proof. intros (now & He & Hh). exists now. split; [done|]. by apply happened_snoc. Qed.

(** The time the manager has read and not dropped, and the connection it is
    taking out of the queue. *)
Definition mgr_clock (m : mgr_pc) : option timespec :=
  match m with
  | M_get_front t | M_test t _ | M_dequeue t _ | M_lock_excd t _ | M_enqueue t _ | M_unlock_excd t | M_post t => Some t
  | M_sleep | M_lock | M_clock | M_unlock => None
  end.

Definition mgr_late (m : mgr_pc) : list Request :=
  match m with M_dequeue _ r | M_lock_excd _ r | M_enqueue _ r => [r] | _ => [] end.

Definition history_ok (cs : list action) (w : world) : Prop :=
  Forall (arrived cs) (fifo_list (req_q w) ++ acc_held (w_acc w)) /\
  (forall t, mgr_clock (w_mgr w) = Some t -> Forall (clock_read cs t) (fifo_list (req_q w))) /\
  Forall (found_late cs) (mgr_late (w_mgr w) ++ fifo_list (excd_tm_q w) ++ den_held (w_den w) ++ denied (closed w)).

Lemma history_snoc cs c w : history_ok cs w -> history_ok (cs ++ [c]) w.
Proof.
  intros (Ha & Hc & Hf). split_and!.
  - eapply Forall_impl; [exact Ha|]. intros r. apply happened_snoc.
  - intros t Ht. eapply Forall_impl; [by apply Hc|]. intros r. apply happened_snoc.
  - eapply Forall_impl; [exact Hf|]. intros r. apply found_late_snoc.
Qed.

Lemma Forall_perm {A} (P : A -> Prop) l l' : Forall P l -> l ≡ₚ l' -> Forall P l'.
Proof. intros Hl Hp. by eapply Permutation.Permutation_Forall. Qed.

(** The acceptor: a connection arrives, and none is inserted while the manager
    is inside. *)
Lemma history_acceptor cs input w w' :
  locks_ok w -> run_server cs w0 = Some w -> history_ok cs w -> acceptor_step input w = Some w' ->
  history_ok (cs ++ [Acceptor input]) w'.
Proof.
  intros [Hr _] Hrun Hh Hs. apply (history_snoc _ (Acceptor input)) in Hh as (Ha & Hc & Hf).
  destruct w as [a m d ws rq eq rm em rs es acc tk cl]. pose proof (guards_one _ _ T_mgr T_main Hr) as Hmain.
  unfold history_ok. simpl in *. step_cases Hs; simpl in *; rewrite ?app_nil_r in *; try done.
  - split_and!; [|done|done]. apply Forall_app. split; [done|]. apply Forall_singleton.
    apply happened_last. split; [done|]. by eexists.
  - rewrite fifo_put_list. split_and!; [done| |done]. intros t Ht. exfalso.
    destruct m; try done; discriminate (Hmain eq_refl eq_refl).
Qed.

(** The manager: it reads the clock, tests the front, and moves it. *)
Lemma history_manager cs now w w' :
  manager_view w -> run_server cs w0 = Some w -> history_ok cs w ->
  th_req_queue_mgr max_queue_time now w = Some w' -> history_ok (cs ++ [Manager now]) w'.
Proof.
  intros Hv Hrun Hh Hs. pose proof Hh as (Ha0 & Hc0 & _).
  apply (history_snoc _ (Manager now)) in Hh as (Ha & Hc & Hf).
  destruct w as [a m d ws rq eq rm em rs es acc tk cl].
  unfold history_ok, manager_view in *. simpl in *. step_cases Hs; simpl in *; try done.
  - (* the clock *)
    split_and!; [done| |done]. intros t [= <-]. apply Forall_app in Ha0 as [Ha0 _].
    eapply Forall_impl; [exact Ha0|]. intros r Hr. apply happened_last. split; [done|]. split; [by eexists|done].
  - (* a late front *)
    split_and!; [done|done|]. constructor; [|done]. eexists. split; [done|]. apply happened_last.
    split; [by eexists|]. split; [by eexists|]. specialize (Hc0 _ eq_refl).
    destruct (fifo_list rq); [done|]. injection Hv as ->. by apply Forall_cons in Hc0 as [? _].
  - match goal with E : fifo_take rq = _ |- _ => apply take_split in E as [E _]; rewrite E in Ha, Hc end.
    split_and!; [| |done].
    + rewrite <- (assoc_L (++)) in Ha. by apply Forall_app in Ha as [_ Ha].
    + intros t Ht. specialize (Hc t Ht). by apply Forall_app in Hc as [_ Hc].
  - split_and!; [done|done|]. rewrite fifo_put_list. eapply Forall_perm; [exact Hf|]. solve_Permutation.
Qed.

(** The others take connections from the queues. *)
Lemma history_others cs c w w' :
  history_ok cs w -> act c w = Some w' ->
  match c with Denier | Worker _ => history_ok (cs ++ [c]) w' | _ => True end.
Proof.
  intros Hh Hs. apply (history_snoc _ c) in Hh as (Ha & Hc & Hf).
  destruct w as [a m d ws rq eq rm em rs es acc tk cl].
  unfold history_ok. simpl in *. destruct c as [input|now| |i]; [done|done| |]; simpl in Hs; step_cases Hs; simpl in *;
    rewrite ?denied_snoc, ?app_nil_r; try done.
  all: try match goal with E : fifo_take _ = _ |- _ => apply take_split in E as [E _]; rewrite E in * end.
  - split_and!; [done|done|]. eapply Forall_perm; [exact Hf|]. by destruct o; simpl; solve_Permutation.
  - split_and!; [done|done|]. eapply Forall_perm; [exact Hf|]. solve_Permutation.
  - split_and!; [| |done].
    + rewrite <- (assoc_L (++)) in Ha. by apply Forall_app in Ha as [_ Ha].
    + intros t Ht. specialize (Hc t Ht). by apply Forall_app in Hc as [_ Hc].
Qed.

Lemma history_step cs c w w' :
  locks_ok w -> manager_view w -> run_server cs w0 = Some w -> history_ok cs w -> act c w = Some w' ->
  history_ok (cs ++ [c]) w'.
Proof.
  intros Hl Hv Hrun Hh Hs. pose proof (history_others cs c w w' Hh Hs) as Ho.
  destruct c as [input|now| |i]; [by eapply history_acceptor|by eapply history_manager|exact Ho..].
Qed.
End history.

(** ** Semaphores *)

Definition acc_pending (a : acc_pc) : nat := match a with A_unlock | A_post => 1 | _ => 0 end.
Definition mgr_pending (m : mgr_pc) : nat := match m with M_unlock_excd _ | M_post _ => 1 | _ => 0 end.
Definition den_pending (d : den_pc) : nat := match d with D_lock | D_dequeue => 1 | _ => 0 end.
Definition work_pending (p : work_pc) : nat := match p with W_lock | W_dequeue => 1 | _ => 0 end.

(** Every connection in the second queue has its signal: posted, about to be
    posted, or taken by the thread that is about to dequeue; in the first queue
    there may be more signals than connections, as the manager removes some. *)
Definition signals_ok (w : world) : Prop :=
  (length (fifo_list (req_q w))
   <= req_q_sem w + acc_pending (w_acc w) + sum_list_with work_pending (w_workers w))%nat /\
  (length (fifo_list (excd_tm_q w)) = excd_tm_sem w + mgr_pending (w_mgr w) + den_pending (w_den w))%nat /\
  w_den w <> D_unlock None.

Lemma pending_update ws i p q :
  ws !! i = Some p ->
  (sum_list_with work_pending (<[i := q]> ws) + work_pending p
   = sum_list_with work_pending ws + work_pending q)%nat.
Proof.
  revert i. induction ws as [|x ws IH]; intros [|i] E; try done; simpl in E |- *.
  - injection E as ->. lia.
  - specialize (IH i E). lia.
Qed.

Lemma pending_exists ws :
  (0 < sum_list_with work_pending ws)%nat ->
  exists i, ws !! i = Some W_lock \/ ws !! i = Some W_dequeue.
Proof.
  induction ws as [|p ws IH]; simpl; [lia|]. intros Hp.
  destruct (decide (0 < work_pending p)%nat) as [Hw|Hw].
  - exists 0%nat. destruct p; simpl in Hw; try lia; auto.
  - destruct IH as [i Hi]; [lia|]. by exists (S i).
Qed.

Lemma act_signals w c w' : signals_ok w -> act c w = Some w' -> signals_ok w'.
Proof.
  intros (Hr & He & Hd) Hs. destruct w as [a m d ws rq eq rm em rs es acc tk cl].
  unfold signals_ok in *. simpl in *.
  destruct c as [input|now| |i]; simpl in Hs; step_cases Hs; simpl in *; try done.
  all: repeat match goal with
    | E : fifo_take _ = _ |- _ => apply take_split in E as [E ?]; rewrite E in *
    | E : _ !! _ = Some ?p |- context [<[?i := ?q]> _] => pose proof (pending_update _ _ _ q E); clear E
    end.
  all: rewrite ?fifo_put_list, ?length_app in *; simpl in *; try (split; [lia|split; [lia|done]]).
  all: destruct o as [r|]; simpl in *; [by split; [lia|split; [lia|done]]|].
  all: destruct (fifo_list q); [simpl in *|discriminate].
  - lia.
  - split; [lia|by split].
Qed.

(** ** All of it, in every reachable state *)

Definition server_ok (w : world) : Prop :=
  locks_ok w /\ manager_view w /\ flow w /\ signals_ok w.

Lemma server_ok_start empty n : fifo_list empty = [] -> server_ok (start_server empty n).
Proof.
  intros E. unfold server_ok, start_server, locks_ok, manager_view, flow, signals_ok. simpl.
  rewrite E. simpl. split_and!; try done.
  - intros [| | |i]; split; try done. simpl.
    destruct (replicate n W_wait !! i) as [p|] eqn:Ei; [|done]. by apply lookup_replicate in Ei as [-> _].
  - intros [| | |i]; done.
  - by induction n.
  - lia.
Qed.

Lemma server_ok_act w c w' : server_ok w -> act c w = Some w' -> server_ok w'.
Proof.
  intros (Hl & Hv & Hf & Hs) Ha. split_and!.
  - by eapply act_locks.
  - by eapply act_view.
  - by eapply act_flow.
  - by eapply act_signals.
Qed.

Lemma server_ok_reachable empty n w :
  fifo_list empty = [] -> reachable (start_server empty n) w -> server_ok w.
Proof.
  intros E. apply reachable_invariant; [by apply server_ok_start|].
  intros. by eapply server_ok_act.
Qed.

(** ... and in every run. *)
Lemma history_of_run empty n cs w :
  fifo_list empty = [] -> run_server cs (start_server empty n) = Some w -> history_ok (start_server empty n) cs w.
Proof.
  intros E. revert w. induction cs as [|c cs IH] using rev_ind; intros w Hw.
  - injection Hw as <-. unfold history_ok, start_server. simpl. rewrite E. simpl. done.
  - rewrite run_snoc in Hw. destruct (run_server cs _) as [w1|] eqn:Ew; [|done]. cbn in Hw.
    destruct (server_ok_reachable empty n w1) as (Hl & Hv & _); [done|by eapply run_reachable; [constructor|]|].
    eapply history_step; [done|done|exact Ew|by apply IH|exact Hw].
Qed.

(** C18. No connection is lost, served twice or out of turn: in every reachable
    state the connections accepted are, in order of arrival, those taken from the
    request queue, those in it, and the one the main thread is about to insert;
    and those taken are, each once, in the hands of the manager, in the queue of
    the timed-out, in the hands of the thread that turns away or of a worker, or
    closed. *)
Theorem connections_conserved empty n w :
  fifo_list empty = [] -> reachable (start_server empty n) w ->
  accepted w = taken w ++ fifo_list (req_q w) ++ acc_held (w_acc w) /\
  taken w ≡ₚ mgr_held (w_mgr w) ++ fifo_list (excd_tm_q w) ++ den_held (w_den w)
             ++ concat (map work_held (w_workers w)) ++ map fst (closed w).
Proof. intros E Hr. apply (server_ok_reachable _ _ _ E Hr). Qed.

(** C19. The locks work: at most one thread at a time is between the lock and the
    unlock of each mutex, and there is no deadlock - whoever holds a mutex can take
    its next step, or is the manager waiting for the second mutex, whose holder
    can. *)
Theorem locks_exclusive_and_live empty n w :
  fifo_list empty = [] -> reachable (start_server empty n) w ->
  (forall t t', in_req w t = true -> in_req w t' = true -> t = t') /\
  (forall t t', in_excd w t = true -> in_excd w t' = true -> t = t') /\
  (forall t, req_q_mtx w = Some t ->
     can_move w t \/ t = T_mgr /\ exists t', excd_tm_mtx w = Some t' /\ can_move w t') /\
  (forall t, excd_tm_mtx w = Some t -> can_move w t).
Proof.
  intros E Hr. destruct (server_ok_reachable _ _ _ E Hr) as ([Hq He] & _). split_and!.
  - intros t t'. by apply (guards_one _ _ _ _ Hq).
  - intros t t'. by apply (guards_one _ _ _ _ He).
  - intros t Ht%Hq. destruct (holder_moves w t) as [Hm _]. destruct (Hm Ht) as [?|(-> & _ & _ & _ & [t' Ht'])].
    + by left.
    + right. split; [done|]. exists t'. split; [done|]. apply (holder_moves w t'). by apply He.
  - intros t Ht%He. by apply (holder_moves w t).
Qed.

(** C20. No connection is stranded: as long as one waits in the request queue, a
    signal for the workers is posted, or about to be, or a worker has taken one and
    is about to dequeue; and the thread that turns connections away never finds its
    queue empty. *)
Theorem no_connection_stranded empty n w :
  fifo_list empty = [] -> reachable (start_server empty n) w ->
  (fifo_list (req_q w) <> [] ->
     (0 < req_q_sem w)%nat \/ w_acc w = A_unlock \/ w_acc w = A_post \/
     exists i, w_workers w !! i = Some W_lock \/ w_workers w !! i = Some W_dequeue) /\
  w_den w <> D_unlock None.
Proof.
  intros E Hr. destruct (server_ok_reachable _ _ _ E Hr) as (_ & _ & _ & (Hq & _ & Hd)).
  split; [|exact Hd]. intros Hne. destruct (fifo_list (req_q w)) as [|r l]; [done|]. simpl in Hq.
  destruct (decide (0 < req_q_sem w)%nat) as [|Hn]; [by left|]. right.
  destruct (decide (0 < sum_list_with work_pending (w_workers w))%nat) as [Hw|Hw].
  - right; right. by apply pending_exists.
  - destruct (w_acc w); simpl in Hq; try lia; [by left|right; by left].
Qed.

(** C29. Only late connections are turned away, and the limit is one second: with
    any configured time of at least one second, whenever a run has closed a
    connection as [Denied], there was before, in this order: its [accept], with the
    arrival time; a call of [th_req_queue_mgr] that read the clock; and a test of
    the connection against that reading, which was more than one second after the
    arrival, in exact time, rounding included. *)
Theorem denied_after_one_second empty n cs w r :
  fifo_list empty = [] -> run_server cs (start_server empty n) = Some w -> 1 <= max_queue_time ->
  (r, Denied) ∈ closed w ->
  exists cs1 cs2 cs3 cs4 now now' w1 w2 w3,
    cs = cs1 ++ Acceptor (Some (fd r, ts r)) :: cs2 ++ Manager now :: cs3 ++ Manager now' :: cs4 /\
    run_server cs1 (start_server empty n) = Some w1 /\ w_acc w1 = A_accept /\
    run_server (cs1 ++ Acceptor (Some (fd r, ts r)) :: cs2) (start_server empty n) = Some w2 /\ w_mgr w2 = M_clock /\
    run_server (cs1 ++ Acceptor (Some (fd r, ts r)) :: cs2 ++ Manager now :: cs3) (start_server empty n) = Some w3 /\
    w_mgr w3 = M_test now (Some r) /\
    was_waiting_time_exceeded (get_time_diff now (ts r)) (inject_Z 1) max_queue_time = true /\
    (clock_ok now -> clock_ok (ts r) -> (1 < exact_sec now - exact_sec (ts r))%Q).
Proof.
  intros E Hr Hm Hin. destruct (history_of_run _ _ _ _ E Hr) as (_ & _ & Hd).
  rewrite !Forall_app in Hd. destruct Hd as (_ & _ & _ & Hd).
  rewrite Forall_forall in Hd. destruct (Hd r) as (now & Hnow & Hh).
  { unfold denied. apply list_elem_of_In, in_flat_map. exists (r, Denied).
    split; [by apply list_elem_of_In|by left]. }
  destruct Hh as (cs' & ? & cs4 & -> & [now' ->] & (w3 & E3 & M3) & cs'' & ? & cs3 & -> & -> & (w2 & E2 & M2)
    & cs1 & ? & cs2 & -> & -> & (w1 & E1 & M1)).
  assert (forall c (l l' k : list action), (l ++ c :: l') ++ k = l ++ c :: l' ++ k) as Hassoc
    by (intros; by rewrite <- (assoc_L (++))).
  exists cs1, cs2, cs3, cs4, now, now', w1, w2, w3.
  split_and!; [by rewrite !Hassoc|done|done|done|done| |done|done|].
  { by rewrite Hassoc in E3. }
  intros Hc Hc'. rewrite exceeded_one in Hnow by done.
  apply Qgt_bool_iff in Hnow. destruct (Qlt_le_dec 1 (exact_sec now - exact_sec (ts r))) as [|Hle]; [done|].
  apply time_sec_one in Hle; [|done|done]. exfalso. by apply (Qlt_not_le _ _ Hnow).
Qed.

End server.

(** ** Locking with retries *)

(** A mutex whose owner died is tried again; any other error, or too many of
    them, ends the program. *)
Lemma lock_retry_absorbs n tm errs r rest s :
  Forall (eq EOWNERDEAD) errs -> (length errs < n)%nat -> calm s -> r <> EOWNERDEAD ->
  exists s', lock_retry n tm EOWNERDEAD (errs ++ r :: rest) s
    = Ok (if r =? 0 then Locked else Exited, rest, s').
Proof.
  intros Herr. revert n s. induction Herr as [|e errs <- Herr IH]; intros n s Hn Hs Hr;
    (destruct n as [|n]; [simpl in Hn; lia|]); cbn [lock_retry app pthread_mutex_lock];
    change (category (categorize_mtx_lck_error EOWNERDEAD)) with ERROR_RECOVERABLE; cbv iota;
    destruct (msleep_calm tm 3 s Hs) as (s1 & -> & Hs1 & _); cbn [mbind res_bind Z.eqb].
  - destruct (r =? 0) eqn:E; [by exists s1|]. destruct n as [|n]; [by exists s1|].
    cbn [lock_retry]. exists s1. unfold categorize_mtx_lck_error. cbn [category].
    by replace (r =? EOWNERDEAD) with false by (symmetry; by apply Z.eqb_neq).
  - destruct (IH n s1) as (s' & E); [simpl in Hn; lia|done|done|]. by exists s'.
Qed.

(** Once the pending errors are retried, [mutex_lock] returns with the lock
    exactly when [pthread_mutex_lock] gives it. *)
Lemma mutex_lock_absorbs n tm errs r rest s :
  Forall (eq EOWNERDEAD) errs -> (length errs <= n)%nat -> calm s -> r <> EOWNERDEAD ->
  exists s', mutex_lock n tm (errs ++ r :: rest) s = Ok (if r =? 0 then Locked else Exited, rest, s').
Proof.
  intros Herr Hn Hs Hr. unfold mutex_lock. destruct Herr as [|e errs <- Herr]; cbn [app pthread_mutex_lock].
  - destruct (r =? 0) eqn:E; [by exists s|]. exists s. destruct n as [|n]; [done|]. cbn [lock_retry].
    unfold categorize_mtx_lck_error. cbn [category].
    by replace (r =? EOWNERDEAD) with false by (symmetry; by apply Z.eqb_neq).
  - cbn [Z.eqb EOWNERDEAD]. by apply lock_retry_absorbs.
Qed.

(** ** Witnesses: two connections, one served and one turned away *)

Definition two_connections : list action :=
  Acceptor (Some (4, mkTimespec 10 0)) :: replicate 4 (Acceptor None)
  ++ Acceptor (Some (5, mkTimespec 10 500)) :: replicate 4 (Acceptor None)
  ++ replicate 4 (Worker 0)
  ++ replicate 13 (Manager (mkTimespec 12 0)) ++ replicate 6 Denier.

Definition sample_world : world (QT := list Request) :=
  default (start_server [] 2) (run_server 500 two_connections (start_server [] 2)).

Lemma sample_world_reachable : reachable 500 (start_server [] 2) sample_world.
Proof. apply (run_reachable 500 two_connections _ (start_server [] 2)); [constructor|]. vm_compute. reflexivity. Qed.

Lemma connections_conserved_witness :
  accepted sample_world = [mkRequest 4 (mkTimespec 10 0); mkRequest 5 (mkTimespec 10 500)] /\
  accepted sample_world = taken sample_world ++ fifo_list (req_q sample_world) ++ acc_held (w_acc sample_world) /\
  taken sample_world ≡ₚ mgr_held (w_mgr sample_world) ++ fifo_list (excd_tm_q sample_world)
    ++ den_held (w_den sample_world) ++ concat (map work_held (w_workers sample_world))
    ++ map fst (closed sample_world).
Proof.
  split; [vm_compute; reflexivity|].
  apply (connections_conserved 500 [] 2 sample_world); [reflexivity | apply sample_world_reachable].
Defined.

Lemma locks_exclusive_and_live_witness :
  (forall t t', in_req sample_world t = true -> in_req sample_world t' = true -> t = t') /\
  (forall t t', in_excd sample_world t = true -> in_excd sample_world t' = true -> t = t') /\
  (forall t, req_q_mtx sample_world = Some t ->
     can_move 500 sample_world t \/
     t = T_mgr /\ exists t', excd_tm_mtx sample_world = Some t' /\ can_move 500 sample_world t') /\
  (forall t, excd_tm_mtx sample_world = Some t -> can_move 500 sample_world t).
Proof.
  apply (locks_exclusive_and_live 500 [] 2 sample_world); [reflexivity | apply sample_world_reachable].
Defined.

Lemma no_connection_stranded_witness :
  (fifo_list (req_q sample_world) <> [] ->
     (0 < req_q_sem sample_world)%nat \/ w_acc sample_world = A_unlock \/ w_acc sample_world = A_post \/
     exists i, w_workers sample_world !! i = Some W_lock \/ w_workers sample_world !! i = Some W_dequeue) /\
  w_den sample_world <> D_unlock None.
Proof.
  apply (no_connection_stranded 500 [] 2 sample_world); [reflexivity | apply sample_world_reachable].
Defined.

Lemma denied_after_one_second_witness :
  exists cs1 cs2 cs3 cs4 now now' w1 w2 w3,
    two_connections = cs1 ++ Acceptor (Some (5, mkTimespec 10 500)) :: cs2 ++ Manager now :: cs3 ++ Manager now' :: cs4 /\
    run_server 500 cs1 (start_server [] 2) = Some w1 /\ w_acc w1 = A_accept /\
    run_server 500 (cs1 ++ Acceptor (Some (5, mkTimespec 10 500)) :: cs2) (start_server [] 2) = Some w2 /\
    w_mgr w2 = M_clock /\
    run_server 500 (cs1 ++ Acceptor (Some (5, mkTimespec 10 500)) :: cs2 ++ Manager now :: cs3) (start_server [] 2) = Some w3 /\
    w_mgr w3 = M_test now (Some (mkRequest 5 (mkTimespec 10 500))) /\
    was_waiting_time_exceeded (get_time_diff now (mkTimespec 10 500)) (inject_Z 1) 500 = true /\
    (clock_ok now -> clock_ok (mkTimespec 10 500) ->
     (1 < exact_sec now - exact_sec (mkTimespec 10 500))%Q).
Proof.
  apply (denied_after_one_second 500 [] 2 two_connections sample_world (mkRequest 5 (mkTimespec 10 500))).
  - reflexivity.
  - vm_compute. reflexivity.
  - lia.
  - vm_compute. left.
Defined.
