(* ===== verification/Boot.v ===== *)
(** The start of the server ([server.c]): the listening socket, the shared
    objects, and the threads with their argument blocks, from
    [get_server_sock] and [start_server] up to the first [accept], with the
    prologue [run_thread] of each thread. *)

From S2P Require Import Prelude CLib CFloat KeyVal Queue Server.

(** ** The listening socket *)

(** What the kernel knows of a socket. *)
Record SockState := mkSockState { bound : bool; listening : bool; reuse : bool }.

(** The answers of [socket], [bind] and [listen] for one address of the list
    that [getaddrinfo] gives. *)
Record AddrAnswers := mkAnswers { on_socket : Z; on_bind : Z; on_listen : Z }.

Abbreviation sockets := (gmap Z SockState).

(** The loop over the addresses. *)
Fixpoint get_server_sock_loop (l_item : list AddrAnswers) (fd : Z) (net : sockets) : Z * sockets :=
  match l_item with
  | [] => (fd, net)
  | a :: ai_next =>
      let fd := on_socket a in
      if fd <? 0 then get_server_sock_loop ai_next fd net
      else
        let bind_result := on_bind a in
        let listen_result := on_listen a in
        let s := mkSockState (bind_result =? 0) (listen_result =? 0) false in
        if (bind_result =? 0) && (listen_result =? 0)
        then (fd, <[fd := mkSockState (bound s) (listening s) true]> net)
        else get_server_sock_loop ai_next fd (<[fd := s]> net)
  end.

(** [getaddrinfo] is what it finds for a service, [None] when it fails; no
    result is [exit(EXIT_FAILURE)]. *)
Definition get_server_sock (getaddrinfo : list byte -> option (list AddrAnswers)) (service : list byte)
    (maxpending : Z) : option (Z * sockets) :=
  if maxpending <? 1 then None
  else
    match getaddrinfo service with
    | None => Some (-1, ∅)
    | Some l => Some (get_server_sock_loop l (-1) ∅)
    end.

(** The port the server listens on. *)
Definition SERVICE : list byte := bs "6479".

(** The [SO_RCVTIMEO] a worker sets on its connection; [None] leaves the socket
    as it is. *)
Definition set_recv_tmout (sec usec : Z) : option (Z * Z) :=
  if ((sec =? 0) && (usec =? 0)) || (sec <? 0) || (usec <? 0) then None else Some (sec, usec).

(** ** The objects of the server *)

Inductive routine := R_th_req_queue_mgr | R_th_excd_tm_q_mgr | R_app_worker.

#[export] Instance routine_eq_dec : EqDecision routine.
Proof. solve_decision. Defined.

Record ThReqQueueMngrArgs := mkMngrArgs {
  mg_req_q : option loc; mg_req_q_mtx : option loc;
  mg_excd_tm_q : option loc; mg_excd_tm_mtx : option loc; mg_excd_tm_sem : option loc;
  mg_max_queue_time : Z
}.

Record ThExcdTmQMgr := mkExcdArgs {
  ex_excd_tm_q : option loc; ex_excd_tm_mtx : option loc; ex_excd_tm_sem : option loc
}.

Record ThreadFunc := mkThreadFunc { tf_fptr : option routine; tf_args : option loc }.

Section boot.
(** The type of the function a worker runs on a connection. *)
Context {Fn : Type}.

Record AppWorker := mkAppWorker {
  aw_id : Z; aw_req_q : option loc; aw_req_q_mtx : option loc; aw_req_q_sem : option loc;
  aw_func : option Fn; aw_recv_timeout : Z
}.

(** [init_request] on the descriptor of a new connection: its two objects are not
    checked. *)
Definition init_request (fd : Z) (rq_ok ts_ok : bool) (now : timespec) : res Request :=
  ub_unless (rq_ok && ts_ok) (Ok (mkRequest fd now)).

(** What [calloc] gives for each type is the object with all fields zero; a
    mutex and a semaphore are [None] until they are initialised. *)
Inductive obj :=
  | OMutex (m : option (option tid))
  | OSem (s : option nat)
  | OQueue (q : Queue)
  | OMngrArgs (a : ThReqQueueMngrArgs)
  | OExcdArgs (a : ThExcdTmQMgr)
  | OAppWorker (a : AppWorker)
  | OThreadFunc (a : ThreadFunc).

(** ** The process that starts

    [grants] answers the next calls of [calloc], which succeed once it is used
    up; [creates] is what the next calls of [pthread_create] return, 0 once it
    is used up; [started] are the arguments of the threads that run
    [run_thread], in order. *)
Record Sys := mkSys {
  mem : gmap loc obj;
  next_loc : loc;
  grants : list bool;
  creates : list Z;
  started : list (option loc)
}.

(** A result is [None] when the process has called [exit]. *)
Definition boot (A : Type) : Type := Sys -> res (option A * Sys).

#[local] Instance boot_ret : MRet boot := fun A a s => Ok (Some a, s).
#[local] Instance boot_bind : MBind boot := fun A B f m s =>
  '(o, s) ← m s;
  match o with Some a => f a s | None => Ok (None, s) end.

Definition exit_failure {A} : boot A := fun s => Ok (None, s).
Definition undefined {A} : boot A := fun _ => UB.
Definition out_of_fuel {A} : boot A := fun _ => OOF.

Definition calloc_obj (o : obj) : boot (option loc) := fun s =>
  match grants s with
  | false :: g => Ok (Some None, mkSys (mem s) (next_loc s) g (creates s) (started s))
  | g =>
      let a := next_loc s in
      Ok (Some (Some a), mkSys (<[a := o]> (mem s)) (a + 1) (tail g) (creates s) (started s))
  end.

(** A store through a pointer, and the release of an object. *)
Definition put (p : option loc) (o : obj) : boot unit := fun s =>
  a ← deref p;
  ub_unless (negb (is_null (mem s !! a)))
    (Ok (Some (), mkSys (<[a := o]> (mem s)) (next_loc s) (grants s) (creates s) (started s))).

Definition free_obj (p : option loc) : boot unit := fun s =>
  a ← deref p;
  ub_unless (negb (is_null (mem s !! a)))
    (Ok (Some (), mkSys (delete a (mem s)) (next_loc s) (grants s) (creates s) (started s))).

Definition load_obj (p : option loc) : boot obj := fun s =>
  a ← deref p; o ← deref (mem s !! a); Ok (Some o, s).

(** ** Threads *)

Definition pthread_create (args : option loc) : boot Z := fun s =>
  let err := default 0 (head (creates s)) in
  Ok (Some err, mkSys (mem s) (next_loc s) (grants s) (tail (creates s))
                  (if err =? 0 then started s ++ [args] else started s)).

Definition create_thread (args : option loc) : boot unit :=
  err ← pthread_create args;
  if err =? 0 then mret () else exit_failure.

(** [run_thread] up to the call of the thread's function: which one, on what. *)
Definition run_thread (_args : option loc) : boot (routine * option loc) :=
  o ← load_obj _args;
  match o with
  | OThreadFunc args =>
      let fn_args := tf_args args in
      let fnc := tf_fptr args in
      _ ← free_obj _args;
      match fnc with Some f => mret (f, fn_args) | None => undefined end
  | _ => undefined
  end.

(** [if(!th_func || !th_func_args)] exits. *)
Definition init_th_req_queue_mgr (req_q req_q_mtx excd_tm_q excd_tm_mtx excd_tm_sem : option loc)
    (max_queue_time : Z) : boot (option loc) :=
  th_func ← calloc_obj (OThreadFunc (mkThreadFunc None None));
  th_func_args ← calloc_obj (OMngrArgs (mkMngrArgs None None None None None 0));
  if is_null th_func || is_null th_func_args then exit_failure
  else
    _ ← put th_func_args
          (OMngrArgs (mkMngrArgs req_q req_q_mtx excd_tm_q excd_tm_mtx excd_tm_sem max_queue_time));
    _ ← put th_func (OThreadFunc (mkThreadFunc (Some R_th_req_queue_mgr) th_func_args));
    mret th_func.

Definition init_th_excd_tm_q_mgr (excd_tm_q excd_tm_mtx excd_tm_sem : option loc) : boot (option loc) :=
  th_func ← calloc_obj (OThreadFunc (mkThreadFunc None None));
  th_func_args ← calloc_obj (OExcdArgs (mkExcdArgs None None None));
  if is_null th_func || is_null th_func_args then exit_failure
  else
    _ ← put th_func_args (OExcdArgs (mkExcdArgs excd_tm_q excd_tm_mtx excd_tm_sem));
    _ ← put th_func (OThreadFunc (mkThreadFunc (Some R_th_excd_tm_q_mgr) th_func_args));
    mret th_func.

Definition init_worker_th (req_q req_q_mtx req_q_sem : option loc) (id : Z) (fptr : option Fn)
    (recv_timeout : Z) : boot (option loc) :=
  th_func ← calloc_obj (OThreadFunc (mkThreadFunc None None));
  th_func_args ← calloc_obj (OAppWorker (mkAppWorker 0 None None None None 0));
  if is_null th_func || is_null th_func_args then exit_failure
  else
    _ ← put th_func_args (OAppWorker (mkAppWorker id req_q req_q_mtx req_q_sem fptr recv_timeout));
    _ ← put th_func (OThreadFunc (mkThreadFunc (Some R_app_worker) th_func_args));
    mret th_func.

Fixpoint pool_loop (fuel : nat) (req_q_mtx req_q req_q_sem : option loc) (fptr : option Fn)
    (max_app_workers recv_timeout nr_thds_created : Z) : boot unit :=
  if nr_thds_created <? max_app_workers then
    match fuel with
    | O => out_of_fuel
    | S fuel =>
        th ← init_worker_th req_q req_q_mtx req_q_sem nr_thds_created fptr recv_timeout;
        _ ← create_thread th;
        pool_loop fuel req_q_mtx req_q req_q_sem fptr max_app_workers recv_timeout
          (uint32 (nr_thds_created + 1))
    end
  else mret ().

Definition create_workers_pool (req_q_mtx req_q req_q_sem : option loc) (fptr : option Fn)
    (max_app_workers recv_timeout : Z) : boot unit :=
  pool_loop (Z.to_nat max_app_workers) req_q_mtx req_q req_q_sem fptr max_app_workers recv_timeout 0.

(** ** [start_server] up to its loop *)

(** [pthread_mutex_init] and [sem_init] on an object. *)
Definition pthread_mutex_init (p : option loc) : boot unit := put p (OMutex (Some None)).
Definition sem_init (p : option loc) (value : nat) : boot unit := put p (OSem (Some value)).

(** [init_queue], whose object is the one [Queue.init_queue] describes. *)
Definition new_queue (func : bool) : boot (option loc) := calloc_obj (OQueue (mkQueue None None func)).

(** The pointers that [start_server] hands to its threads. *)
Record Shared := mkShared {
  sh_req_q : option loc; sh_req_q_mtx : option loc; sh_req_q_sem : option loc;
  sh_excd_tm_q : option loc; sh_excd_tm_mtx : option loc; sh_excd_tm_sem : option loc
}.

Definition shared_objects : boot Shared :=
  excd_tm_mtx ← calloc_obj (OMutex None);
  req_q_mtx ← calloc_obj (OMutex None);
  excd_tm_q ← new_queue false;
  req_q ← new_queue false;
  excd_tm_sem ← calloc_obj (OSem None);
  req_q_sem ← calloc_obj (OSem None);
  _ ← pthread_mutex_init req_q_mtx;
  _ ← pthread_mutex_init excd_tm_mtx;
  _ ← sem_init excd_tm_sem 0;
  _ ← sem_init req_q_sem 0;
  mret (mkShared req_q req_q_mtx req_q_sem excd_tm_q excd_tm_mtx excd_tm_sem).

(** The server's pointers with the socket it accepts on and the kernel's
    sockets; the inner [None] is the return of [start_server] when there is no
    socket. *)
Definition boot_server (fptr : option Fn) (maxpending max_queue_time max_app_workers recv_timeout : Z)
    (getaddrinfo : list byte -> option (list AddrAnswers)) : boot (option (Shared * Z * sockets)) :=
  sh ← shared_objects;
  th_rq_q_mng ← init_th_req_queue_mgr (sh_req_q sh) (sh_req_q_mtx sh) (sh_excd_tm_q sh)
                  (sh_excd_tm_mtx sh) (sh_excd_tm_sem sh) (int32 max_queue_time);
  _ ← create_thread th_rq_q_mng;
  th_exd_tm_mgr ← init_th_excd_tm_q_mgr (sh_excd_tm_q sh) (sh_excd_tm_mtx sh) (sh_excd_tm_sem sh);
  _ ← create_thread th_exd_tm_mgr;
  _ ← create_workers_pool (sh_req_q_mtx sh) (sh_req_q sh) (sh_req_q_sem sh) fptr max_app_workers recv_timeout;
  match get_server_sock getaddrinfo SERVICE (int32 maxpending) with
  | None => exit_failure
  | Some (server_fd, net) => mret (if server_fd =? -1 then None else Some (sh, server_fd, net))
  end.
End boot.

(** A timeout is set when it is one; [main] gives 0 seconds, so a worker waits
    for a silent client without end. *)
Lemma set_recv_tmout_spec sec usec :
  set_recv_tmout sec usec = Some (sec, usec) <-> 0 <= sec /\ 0 <= usec /\ (sec <> 0 \/ usec <> 0).
Proof.
  unfold set_recv_tmout. case_if; [split; [done|]|split; [|done]; intros _; lia].
  rewrite !orb_true_iff, andb_true_iff, !Z.eqb_eq, !Z.ltb_lt in Hif. lia.
Qed.

(** The connection the main thread goes on with is the object of
    [init_request], when its memory is granted. *)
Lemma acceptor_init_request `{Fifo QT Request} f now (w : world (QT := QT)) :
  w_acc w = A_accept ->
  exists r w', init_request f true true now = Ok r /\ acceptor_step (Some (f, now)) w = Some w' /\
    w_acc w' = A_lock r /\ accepted w' = accepted w ++ [r].
Proof. destruct w; simpl. intros ->. by eexists _, _. Qed.

(** ** Starting threads one after the other *)

Section threads.
Context {Fn : Type}.
Implicit Types (s : @Sys Fn).
Abbreviation block := (routine * @obj Fn)%type.

#[local] Existing Instance boot_ret.
#[local] Existing Instance boot_bind.

(** The objects of a new thread: its [ThreadFunc], and its argument block. *)
Definition with_thread (f : routine) (o : @obj Fn) s : @Sys Fn :=
  let a := next_loc s in
  mkSys (<[a := OThreadFunc (mkThreadFunc (Some f) (Some (a + 1)))]> (<[a + 1 := o]> (mem s)))
    (a + 2) (grants s) (creates s) (started s).

Definition new_thread (f : routine) (zero o : @obj Fn) : @boot Fn (option loc) :=
  th_func ← calloc_obj (OThreadFunc (mkThreadFunc None None));
  th_func_args ← calloc_obj zero;
  if is_null th_func || is_null th_func_args then exit_failure
  else
    _ ← put th_func_args o;
    _ ← put th_func (OThreadFunc (mkThreadFunc (Some f) th_func_args));
    mret th_func.

Lemma new_thread_granted f zero o s :
  grants s = [] -> new_thread f zero o s = Ok (Some (Some (next_loc s)), with_thread f o s).
Proof.
  intros Hg. unfold new_thread, calloc_obj, mbind, boot_bind. rewrite Hg. simpl.
  unfold put, deref, ub_unless. simpl. rewrite lookup_insert_eq. simpl.
  rewrite lookup_insert_ne by lia. rewrite lookup_insert_ne by lia. rewrite lookup_insert_eq. simpl.
  unfold mret, boot_ret, with_thread. rewrite Hg. do 2 f_equal. f_equal; [|lia].
  apply map_eq. intros j. rewrite !lookup_insert. by repeat case_decide.
Qed.

Definition spawn (b : block) s : @Sys Fn :=
  let s' := with_thread b.1 b.2 s in
  mkSys (mem s') (next_loc s') (grants s') (tail (creates s')) (started s' ++ [Some (next_loc s)]).

(** Threads for a list of blocks, each created before the next is prepared. *)
Fixpoint spawn_seq (zero : routine -> @obj Fn) (bs : list block) : @boot Fn unit :=
  match bs with
  | [] => mret ()
  | b :: bs => th ← new_thread b.1 (zero b.1) b.2; _ ← create_thread th; spawn_seq zero bs
  end.

Lemma create_granted p s :
  default 0 (head (creates s)) = 0 ->
  create_thread p s = Ok (Some (), mkSys (mem s) (next_loc s) (grants s) (tail (creates s)) (started s ++ [p])).
Proof. intros E. unfold create_thread, pthread_create, mbind, boot_bind. simpl. by rewrite E. Qed.

Lemma spawn_seq_all zero bs s :
  grants s = [] -> Forall (eq 0) (take (length bs) (creates s)) ->
  spawn_seq zero bs s = Ok (Some (), foldl (fun s b => spawn b s) s bs).
Proof.
  revert s. induction bs as [|b bs IH]; intros s Hg Hc; [done|]. cbn [spawn_seq foldl].
  unfold mbind at 1, boot_bind. rewrite new_thread_granted by done. cbn [mbind res_bind].
  unfold mbind, boot_bind. rewrite create_granted.
  - cbn [mbind res_bind]. rewrite IH; [done|done|]. cbn. destruct (creates s) as [|r c]; [by destruct (length bs)|].
    by apply Forall_cons in Hc as [_ Hc].
  - cbn. destruct (creates s) as [|r c]; [done|]. by apply Forall_cons in Hc as [<- _].
Qed.

(** When a thread cannot be created, the process exits with those before it. *)
Lemma spawn_seq_exit zero bs s j r rest :
  grants s = [] -> creates s = replicate j 0 ++ r :: rest -> r <> 0 -> (j < length bs)%nat ->
  exists s', spawn_seq zero bs s = Ok (None, s') /\ length (started s') = (length (started s) + j)%nat.
Proof.
  intros Hg Hc Hr. revert s j Hg Hc. induction bs as [|b bs IH]; intros s j Hg Hc Hj; simpl in Hj; [lia|].
  cbn [spawn_seq]. unfold mbind at 1, boot_bind. rewrite new_thread_granted by done. cbn [mbind res_bind].
  destruct j as [|j]; unfold mbind, boot_bind.
  - unfold create_thread, pthread_create, mbind, boot_bind. cbn. rewrite Hc. simpl.
    replace (r =? 0) with false by (symmetry; by apply Z.eqb_neq). eexists. split; [done|]. simpl. lia.
  - rewrite create_granted by (cbn; by rewrite Hc). cbn [mbind res_bind].
    destruct (IH (mkSys (mem (with_thread b.1 b.2 s)) (next_loc s + 2) (grants s) (tail (creates s))
      (started s ++ [Some (next_loc s)])) j) as (s' & E & Hl); [done|cbn; by rewrite Hc|lia|].
    exists s'. split; [exact E|]. rewrite Hl. cbn. rewrite length_app. simpl. lia.
Qed.

(** ** What the threads find *)

(** Every object is below the next address. *)
Definition fresh_above s : Prop := forall a, next_loc s <= a -> mem s !! a = None.

Definition spawn_all (bs : list block) s : @Sys Fn := foldl (fun s b => spawn b s) s bs.

Lemma spawn_fresh b s : fresh_above s -> fresh_above (spawn b s).
Proof.
  intros Hf a Ha. cbn in *. rewrite !lookup_insert_ne by lia. apply Hf. lia.
Qed.

Lemma spawn_keeps b s a : a < next_loc s -> mem (spawn b s) !! a = mem s !! a.
Proof. intros Ha. cbn. by rewrite !lookup_insert_ne by lia. Qed.

Lemma spawn_all_keeps bs s a : a < next_loc s -> mem (spawn_all bs s) !! a = mem s !! a.
Proof.
  revert s. induction bs as [|b bs IH]; intros s Ha; [done|]. unfold spawn_all in *. cbn [foldl].
  rewrite IH; [by apply spawn_keeps|cbn; lia].
Qed.

Lemma spawn_all_block bs s i b :
  bs !! i = Some b ->
  mem (spawn_all bs s) !! (next_loc s + 2 * Z.of_nat i)
  = Some (OThreadFunc (mkThreadFunc (Some b.1) (Some (next_loc s + 2 * Z.of_nat i + 1)))) /\
  mem (spawn_all bs s) !! (next_loc s + 2 * Z.of_nat i + 1) = Some b.2.
Proof.
  revert s i. induction bs as [|b' bs IH]; intros s [|i] Hi; try done; simpl in Hi.
  - injection Hi as ->. change (spawn_all (b :: bs) s) with (spawn_all bs (spawn b s)).
    rewrite !spawn_all_keeps by (cbn; lia). rewrite Z.mul_0_r, Z.add_0_r. cbn.
    rewrite lookup_insert_eq, lookup_insert_ne, lookup_insert_eq by lia. done.
  - change (spawn_all (b' :: bs) s) with (spawn_all bs (spawn b' s)).
    replace (next_loc s + 2 * Z.of_nat (S i)) with (next_loc (spawn b' s) + 2 * Z.of_nat i) by (cbn; lia).
    by apply IH.
Qed.

Lemma spawn_all_started bs s :
  started (spawn_all bs s)
  = started s ++ imap (fun i _ => Some (next_loc s + 2 * Z.of_nat i)) bs.
Proof.
  revert s. induction bs as [|b bs IH]; intros s; [by rewrite app_nil_r|].
  change (spawn_all (b :: bs) s) with (spawn_all bs (spawn b s)). rewrite IH. cbn.
  rewrite <- (assoc_L (++)). cbn. rewrite Z.add_0_r. do 2 f_equal. apply imap_ext. intros i x _. cbn. f_equal. lia.
Qed.

(** [run_thread] in the threads of a list, in that order. *)
Fixpoint run_threads (ls : list (option loc)) : @boot Fn (list (routine * option loc)) :=
  match ls with
  | [] => mret []
  | p :: ls => c ← run_thread p; cs ← run_threads ls; mret (c :: cs)
  end.

Definition without (ls : list loc) s : @Sys Fn :=
  mkSys (foldl (fun m a => delete a m) (mem s) ls) (next_loc s) (grants s) (creates s) (started s).

Lemma without_lookup ls s a :
  mem (without ls s) !! a = if decide (a ∈ ls) then None else mem s !! a.
Proof.
  unfold without. cbn. generalize (mem s). induction ls as [|b ls IH]; intros m; cbn [foldl].
  - by rewrite decide_False by set_solver.
  - rewrite IH. destruct (decide (a = b)) as [->|Hn].
    + rewrite (decide_True (P := b ∈ b :: ls)) by set_solver. case_decide; [done|]. by rewrite lookup_delete_eq.
    + rewrite lookup_delete_ne by done. do 2 case_decide; try done; set_solver.
Qed.

Lemma run_threads_all ls s (f : loc -> routine) (args : loc -> option loc) :
  NoDup ls -> (forall a, a ∈ ls -> mem s !! a = Some (OThreadFunc (mkThreadFunc (Some (f a)) (args a)))) ->
  run_threads (map Some ls) s = Ok (Some (map (fun a => (f a, args a)) ls), without ls s).
Proof.
  revert s. induction ls as [|a ls IH]; intros s Hnd Hm.
  - destruct s. done.
  - apply NoDup_cons in Hnd as [Ha Hnd]. cbn [map run_threads].
    assert (mem s !! a = Some (OThreadFunc (mkThreadFunc (Some (f a)) (args a)))) as Em by (apply Hm; by left).
    assert (run_thread (Some a) s = Ok (Some (f a, args a), without [a] s)) as E.
    { unfold run_thread, mbind, boot_bind, load_obj. cbn [deref mbind res_bind]. rewrite Em. cbn.
      unfold free_obj, mbind, boot_bind. cbn [deref mbind res_bind]. rewrite Em. done. }
    unfold mbind at 1, boot_bind. rewrite E. cbn [mbind res_bind].
    unfold mbind at 1, boot_bind. rewrite IH; [done|done|].
    intros b Hb. rewrite without_lookup, decide_False by set_solver. apply Hm. by right.
Qed.
End threads.

(** ** The start as a sequence of threads *)

Section start_up.
Context {Fn : Type}.
Abbreviation block := (routine * @obj Fn)%type.

#[local] Existing Instance boot_ret.
#[local] Existing Instance boot_bind.

Lemma boot_bind_Ok {A B} (m : @boot Fn A) (f : A -> @boot Fn B) s s' a :
  m s = Ok (Some a, s') -> (m ≫= f) s = f a s'.
Proof. intros E. unfold mbind, boot_bind. by rewrite E. Qed.

Lemma boot_bind_exit {A B} (m : @boot Fn A) (f : A -> @boot Fn B) s s' :
  m s = Ok (None, s') -> (m ≫= f) s = Ok (None, s').
Proof. intros E. unfold mbind, boot_bind. by rewrite E. Qed.

Lemma boot_bind_assoc {A B C} (m : @boot Fn A) (f : A -> @boot Fn B) (g : B -> @boot Fn C) s :
  ((m ≫= f) ≫= g) s = (m ≫= (fun a => f a ≫= g)) s.
Proof. unfold mbind, boot_bind. destruct (m s) as [[[a|] s']| |]; done. Qed.

(** The same continuation after the same first part. *)
Lemma boot_bind_ext {A B} (m : @boot Fn A) (f g : A -> @boot Fn B) s :
  (forall a s', f a s' = g a s') -> (m ≫= f) s = (m ≫= g) s.
Proof. intros E. unfold mbind, boot_bind. destruct (m s) as [[[a|] s']| |]; [apply E|done..]. Qed.

Lemma spawn_seq_cons zero b (bs : list block) s :
  spawn_seq zero (b :: bs) s = (new_thread b.1 (zero b.1) b.2 ≫= fun th => create_thread th ≫= fun _ => spawn_seq zero bs) s.
Proof. done. Qed.

Definition zero_args (f : routine) : @obj Fn :=
  match f with
  | R_th_req_queue_mgr => OMngrArgs (mkMngrArgs None None None None None 0)
  | R_th_excd_tm_q_mgr => OExcdArgs (mkExcdArgs None None None)
  | R_app_worker => OAppWorker (mkAppWorker 0 None None None None 0)
  end.

Definition worker_block (q m sem : option loc) (fptr : option Fn) (rt i : Z) : block :=
  (R_app_worker, OAppWorker (mkAppWorker i q m sem fptr rt)).

Lemma pool_loop_seq n fuel m q sem fptr w rt k s :
  0 <= k -> k + Z.of_nat n = w -> w < 2 ^ 32 -> (n <= fuel)%nat ->
  pool_loop fuel m q sem fptr w rt k s
  = spawn_seq zero_args (map (worker_block q m sem fptr rt) (seqZ k (Z.of_nat n))) s.
Proof.
  revert fuel k s. induction n as [|n IH]; intros fuel k s Hk Hw Hw' Hf.
  - destruct fuel; cbn [pool_loop]; by if_false.
  - destruct fuel as [|fuel]; [lia|]. cbn [pool_loop]. if_true.
    rewrite seqZ_cons by lia. cbn [map]. rewrite spawn_seq_cons.
    apply boot_bind_ext. intros th s1. apply boot_bind_ext. intros [] s2.
    replace (Z.pred (Z.of_nat (S n))) with (Z.of_nat n) by lia.
    destruct (Z.eq_dec (k + 1) (2 ^ 32)) as [E|E].
    + lia.
    + rewrite uint32_small by lia. apply IH; lia.
Qed.

(** The state behind [sem_init]: the shared objects. *)
Definition sys0 (plan : list Z) : @Sys Fn := mkSys ∅ 1 [] plan [].

Definition sh0 : Shared := mkShared (Some 4) (Some 2) (Some 6) (Some 3) (Some 1) (Some 5).

Definition objects0 : gmap loc (@obj Fn) :=
  <[1 := OMutex (Some None)]> (<[2 := OMutex (Some None)]> (<[3 := OQueue (mkQueue None None false)]>
  (<[4 := OQueue (mkQueue None None false)]> (<[5 := OSem (Some 0%nat)]> (<[6 := OSem (Some 0%nat)]> ∅))))).

Definition base (plan : list Z) : @Sys Fn := mkSys objects0 7 [] plan [].

Lemma shared_objects_spec plan : shared_objects (sys0 plan) = Ok (Some sh0, base plan).
Proof. vm_compute. reflexivity. Qed.

Definition boot_blocks (fptr : option Fn) (mq w rt : Z) : list block :=
  (R_th_req_queue_mgr, OMngrArgs (mkMngrArgs (Some 4) (Some 2) (Some 3) (Some 1) (Some 5) (int32 mq)))
  :: (R_th_excd_tm_q_mgr, OExcdArgs (mkExcdArgs (Some 3) (Some 1) (Some 5)))
  :: map (worker_block (Some 4) (Some 2) (Some 6) fptr rt) (seqZ 0 w).

Lemma boot_blocks_length fptr mq w rt : length (boot_blocks fptr mq w rt) = (2 + Z.to_nat w)%nat.
Proof. unfold boot_blocks. simpl. by rewrite length_map, length_seqZ. Qed.

Definition open_socket (maxpending : Z) (al : list byte -> option (list AddrAnswers)) : @boot Fn (option (Shared * Z * sockets)) :=
  match get_server_sock al SERVICE (int32 maxpending) with
  | None => exit_failure
  | Some (fd, net) => mret (if fd =? -1 then None else Some (sh0, fd, net))
  end.

Lemma boot_server_seq fptr maxpending mq w rt al plan :
  0 <= w < 2 ^ 32 ->
  boot_server fptr maxpending mq w rt al (sys0 plan)
  = (spawn_seq zero_args (boot_blocks fptr mq w rt) ≫= fun _ => open_socket maxpending al) (base plan).
Proof.
  intros Hw. unfold boot_server. rewrite (boot_bind_Ok _ _ _ _ _ (shared_objects_spec plan)).
  unfold boot_blocks. change (spawn_seq zero_args (?b1 :: ?b2 :: ?l)) with (new_thread b1.1 (zero_args b1.1) b1.2 ≫= fun th => create_thread th ≫= fun _ => spawn_seq zero_args (b2 :: l)).
  rewrite boot_bind_assoc. apply boot_bind_ext. intros th s1.
  rewrite boot_bind_assoc. apply boot_bind_ext. intros _ s2.
  change (spawn_seq zero_args (?b1 :: ?l)) with (new_thread b1.1 (zero_args b1.1) b1.2 ≫= fun th => create_thread th ≫= fun _ => spawn_seq zero_args l).
  rewrite boot_bind_assoc. apply boot_bind_ext. intros th' s3.
  rewrite boot_bind_assoc. apply boot_bind_ext. intros _ s4.
  unfold mbind at 1 2, boot_bind, create_workers_pool.
  rewrite (pool_loop_seq (Z.to_nat w)) by lia. by rewrite Z2Nat.id by lia.
Qed.

(** Where the [i]-th thread's objects are. *)
Definition thread_at (i : nat) : loc := 7 + 2 * Z.of_nat i.

Lemma seqZ_index n i : (i < n)%nat -> seqZ 0 (Z.of_nat n) !! i = Some (Z.of_nat i).
Proof. intros Hi. rewrite lookup_seqZ. lia. Qed.

Lemma thread_func_at (bs : list block) (s : @Sys Fn) a t :
  Forall (fun b => forall t, b.2 <> OThreadFunc t) bs ->
  mem (spawn_all bs s) !! a = Some (OThreadFunc t) ->
  (exists i, (i < length bs)%nat /\ a = next_loc s + 2 * Z.of_nat i) \/ mem s !! a = Some (OThreadFunc t).
Proof.
  intros Hbs. revert s. induction Hbs as [|b bs Hb _ IH]; intros s Ha; [by right|].
  change (spawn_all (b :: bs) s) with (spawn_all bs (spawn b s)) in Ha.
  destruct (IH _ Ha) as [(i & Hi & ->)|E].
  - left. exists (S i). cbn. split; lia.
  - cbn in E. rewrite !lookup_insert in E. repeat case_decide; subst.
    + left. exists 0%nat. cbn. split; lia.
    + injection E as E. by apply Hb in E.
    + by right.
Qed.

(** The functions the threads call once all have run their prologue, and what is
    left in memory. *)
Lemma run_all_blocks plan (bs : list block) :
  Forall (fun b => forall t, b.2 <> OThreadFunc t) bs ->
  exists s', run_threads (started (spawn_all bs (base plan))) (spawn_all bs (base plan))
      = Ok (Some (imap (fun i b => (b.1, Some (thread_at i + 1))) bs), s') /\
    (forall a, a < 7 -> mem s' !! a = objects0 !! a) /\
    (forall i b, bs !! i = Some b -> mem s' !! (thread_at i + 1) = Some b.2) /\
    (forall a t, mem s' !! a <> Some (OThreadFunc t)).
Proof.
  intros Hbs. set (s := spawn_all bs (base plan)).
  set (ls := map thread_at (seq 0 (length bs))).
  set (f := fun a => default R_app_worker (fst <$> bs !! Z.to_nat ((a - 7) / 2))).
  assert (forall i, Z.to_nat ((thread_at i - 7) / 2) = i) as Hat.
  { intros i. unfold thread_at. replace (7 + 2 * Z.of_nat i - 7) with (Z.of_nat i * 2) by lia.
    rewrite Z.div_mul by lia. lia. }
  assert (started s = map Some ls) as Hst.
  { unfold s. rewrite spawn_all_started. cbn [started base app]. unfold ls. rewrite map_map.
    apply list_eq. intros i. rewrite list_lookup_imap, !list_lookup_fmap.
    destruct (bs !! i) as [b|] eqn:E.
    - pose proof (lookup_lt_Some _ _ _ E). by rewrite lookup_seq_lt.
    - apply lookup_ge_None in E. by rewrite lookup_seq_ge. }
  assert (forall a, a ∈ ls <-> exists i, (i < length bs)%nat /\ a = thread_at i) as Hin.
  { intros a. unfold ls. rewrite list_elem_of_fmap. setoid_rewrite elem_of_seq. naive_solver lia. }
  assert (forall a t, mem s !! a = Some (OThreadFunc t) -> a ∈ ls) as Hfuncs.
  { intros a t Ha. apply Hin. destruct (thread_func_at bs (base plan) a t) as [(i & Hi & ->)|Hb]; try done.
    - exists i. split; [done|]. unfold thread_at. cbn. lia.
    - exfalso. assert (map_Forall (fun _ o => o <> OThreadFunc t) objects0) as Hf.
      { unfold objects0. repeat (apply map_Forall_insert_2; [done|]). apply map_Forall_empty. }
      by apply (Hf a _ Hb). }
  exists (without ls s). split_and!.
  - rewrite Hst, (run_threads_all ls s f (fun a => Some (a + 1))).
    + do 3 f_equal. unfold ls. rewrite map_map. apply list_eq. intros i.
      rewrite list_lookup_imap, list_lookup_fmap. destruct (bs !! i) as [b|] eqn:E.
      * pose proof (lookup_lt_Some _ _ _ E). rewrite lookup_seq_lt by done. cbn. unfold f. by rewrite Hat, E.
      * apply lookup_ge_None in E. by rewrite lookup_seq_ge.
    + apply NoDup_fmap_2; [|apply NoDup_seq]. intros i j E. unfold thread_at in E. lia.
    + intros a (i & Hi & ->)%Hin. destruct (lookup_lt_is_Some_2 bs i Hi) as [b E].
      unfold f. rewrite Hat, E. cbn. by apply (spawn_all_block bs (base plan)).
  - intros a Ha. rewrite without_lookup, decide_False.
    + by apply spawn_all_keeps.
    + intros (i & _ & ->)%Hin. unfold thread_at in Ha. lia.
  - intros i b E. rewrite without_lookup, decide_False.
    + by apply (spawn_all_block bs (base plan)).
    + intros (j & _ & Hj)%Hin. unfold thread_at in Hj. lia.
  - intros a t. rewrite without_lookup. case_decide as Ha; [done|]. intros E. by apply Ha, (Hfuncs a t).
Qed.

End start_up.

(** ** Properties *)

(** An address the server can use. *)
Definition usable (a : AddrAnswers) : Prop := 0 <= on_socket a /\ on_bind a = 0 /\ on_listen a = 0.

#[export] Instance usable_dec a : Decision (usable a).
Proof. unfold usable. apply _. Defined.

Lemma usable_answers a :
  0 <= on_socket a -> usable a <-> (on_bind a =? 0) && (on_listen a =? 0) = true.
Proof. intros Hs. unfold usable. rewrite andb_true_iff, !Z.eqb_eq. tauto. Qed.

(** What is known of the sockets opened so far. *)
Definition unusable_sockets (net : sockets) : Prop :=
  map_Forall (fun _ s => bound s && listening s = false) net.

Lemma sock_loop_usable l1 a l2 fd net :
  Forall (fun b => ~ usable b) l1 -> usable a ->
  (get_server_sock_loop (l1 ++ a :: l2) fd net).1 = on_socket a /\
  (get_server_sock_loop (l1 ++ a :: l2) fd net).2 !! on_socket a = Some (mkSockState true true true) /\
  (forall f, is_Some ((get_server_sock_loop (l1 ++ a :: l2) fd net).2 !! f) <->
     is_Some (net !! f) \/ (0 <= f /\ f ∈ map on_socket (l1 ++ [a]))).
Proof.
  intros Hl (Hs & Hb & Hli). revert fd net. induction Hl as [|b l1 Hu _ IH]; intros fd net; cbn [app get_server_sock_loop].
  - if_false. rewrite Hb, Hli. cbn. split_and!; [done|by rewrite lookup_insert_eq|]. intros f.
    destruct (decide (f = on_socket a)) as [->|Hn].
    + rewrite lookup_insert_eq. split; [right; set_solver|by eexists].
    + rewrite lookup_insert_ne by done. set_solver.
  - case_if.
    + destruct (IH (on_socket b) net) as (E1 & E2 & E3). split_and!; [done|done|]. intros f. rewrite E3.
      set_solver by lia.
    + destruct ((on_bind b =? 0) && (on_listen b =? 0)) eqn:Eb; [by apply usable_answers in Eb|].
      destruct (IH (on_socket b) (<[on_socket b := mkSockState (on_bind b =? 0) (on_listen b =? 0) false]> net))
        as (E1 & E2 & E3). split_and!; [done|done|]. intros f. rewrite E3.
      destruct (decide (f = on_socket b)) as [->|Hn].
      * rewrite lookup_insert_eq. split; [right; set_solver|left; by eexists].
      * rewrite lookup_insert_ne by done. set_solver.
Qed.

(** What is known of a socket after its [bind] and [listen]. *)
Definition left_by (a : AddrAnswers) : SockState := mkSockState (on_bind a =? 0) (on_listen a =? 0) false.

Lemma sock_loop_unusable l fd net :
  Forall (fun b => ~ usable b) l -> unusable_sockets net ->
  (get_server_sock_loop l fd net).1 = default fd (last (map on_socket l)) /\
  unusable_sockets (get_server_sock_loop l fd net).2 /\
  (forall a, last l = Some a -> 0 <= on_socket a ->
   (get_server_sock_loop l fd net).2 !! on_socket a = Some (left_by a)).
Proof.
  intros Hl. revert fd net. induction Hl as [|b l Hu _ IH]; intros fd net Hn; [done|].
  assert (default fd (last (map on_socket (b :: l))) = default (on_socket b) (last (map on_socket l))) as ->.
  { cbn [map]. rewrite last_cons. by destruct (last _). }
  cbn [get_server_sock_loop]. rewrite last_cons. case_if.
  - destruct (IH (on_socket b) net Hn) as (E1 & E2 & E3). split_and!; [done|done|]. intros a Ha Hs.
    destruct (last l) as [a'|]; [by apply E3|]. injection Ha as <-. lia.
  - destruct ((on_bind b =? 0) && (on_listen b =? 0)) eqn:Eb; [by apply usable_answers in Eb|].
    destruct (IH (on_socket b) (<[on_socket b := left_by b]> net)) as (E1 & E2 & E3); [by apply map_Forall_insert_2|].
    split_and!; [done|done|]. intros a Ha Hs. destruct (last l) as [a'|] eqn:El; [by apply E3|].
    injection Ha as <-. apply last_None in El as ->. apply lookup_insert_eq.
Qed.

(** C30. What [get_server_sock] returns. If some address can be bound and listened
    on, it is the socket of the first such address, bound and listening, with
    the option for address reuse set only when both are done; the sockets of
    the addresses before it stay open. If none can, the answer is not an error but
    whatever [socket] said of the last address: -1, or a socket in the state its
    [bind] and [listen] have left it in, which is never both bound and
    listening - it may be bound only, or listening on another port than the one
    asked for. [start_server] takes it for a good one unless it is -1. *)
Theorem server_socket getaddrinfo service maxpending l :
  1 <= maxpending -> getaddrinfo service = Some l ->
  exists fd net, get_server_sock getaddrinfo service maxpending = Some (fd, net) /\
    (forall l1 a l2, l = l1 ++ a :: l2 -> Forall (fun b => ~ usable b) l1 -> usable a ->
       fd = on_socket a /\ net !! fd = Some (mkSockState true true true) /\
       (forall f, is_Some (net !! f) <-> 0 <= f /\ f ∈ map on_socket (l1 ++ [a]))) /\
    (Forall (fun b => ~ usable b) l ->
       fd = default (-1) (last (map on_socket l)) /\ unusable_sockets net /\
       (forall a, last l = Some a -> 0 <= on_socket a -> net !! fd = Some (left_by a))).
Proof.
  intros Hm Hg. unfold get_server_sock. if_false. rewrite Hg.
  destruct (get_server_sock_loop l (-1) ∅) as [fd net] eqn:E. exists fd, net. split_and!; [done| |].
  - intros l1 a l2 -> Hl Ha. destruct (sock_loop_usable l1 a l2 (-1) ∅ Hl Ha) as (E1 & E2 & E3).
    rewrite E in *. cbn [fst snd] in *. subst fd. split_and!; [done|done|]. intros f. rewrite E3.
    rewrite lookup_empty. split; [intros [[? [=]]|?]; done|by right].
  - intros Hl. destruct (sock_loop_unusable l (-1) ∅ Hl) as (E1 & E2 & E3); [apply map_Forall_empty|].
    rewrite E in *. cbn [fst snd] in *. split_and!; [done|done|]. intros a Ha Hs. rewrite E1.
    assert (last (map on_socket l) = Some (on_socket a)) as ->.
    { change (map on_socket l) with (on_socket <$> l). by rewrite fmap_last, Ha. }
    by apply E3.
Qed.

(** ** The world the threads start in *)

Section worlds.
Context {Fn : Type}.
Implicit Types (m : gmap loc (@obj Fn)).

(** The content of the shared objects. *)
Definition queue_at m (p : option loc) : option (list Request) :=
  a ← p; o ← m !! a;
  match o with OQueue q => if is_null (q_front q) && is_null (q_rear q) then Some [] else None | _ => None end.
Definition mutex_at m (p : option loc) : option (option tid) :=
  a ← p; o ← m !! a; match o with OMutex (Some owner) => Some owner | _ => None end.
Definition sem_at m (p : option loc) : option nat :=
  a ← p; o ← m !! a; match o with OSem (Some v) => Some v | _ => None end.

(** The world of [Server]: the main thread before [accept], a manager, a thread
    that turns away and the workers before their first call, as many as run the
    function of each. *)
Definition world_of (sh : Shared) m (calls : list (routine * option loc)) : option (world (QT := list Request)) :=
  rq ← queue_at m (sh_req_q sh); eq ← queue_at m (sh_excd_tm_q sh);
  rm ← mutex_at m (sh_req_q_mtx sh); em ← mutex_at m (sh_excd_tm_mtx sh);
  rs ← sem_at m (sh_req_q_sem sh); es ← sem_at m (sh_excd_tm_sem sh);
  let run f := filter (fun c : routine * option loc => c.1 = f) calls in
  match run R_th_req_queue_mgr, run R_th_excd_tm_q_mgr with
  | [_], [_] => Some (mkWorld A_accept M_sleep D_wait (map (fun _ => W_wait) (run R_app_worker)) rq eq rm em rs es [] [] [])
  | _, _ => None
  end.

(** What each thread was given. *)
Definition given (sh : Shared) m (fptr : option Fn) (max_queue_time recv_timeout : Z) (workers : nat)
    (calls : list (routine * option loc)) : Prop :=
  exists mgr excd ws,
    calls = (R_th_req_queue_mgr, Some mgr) :: (R_th_excd_tm_q_mgr, Some excd)
            :: map (fun a => (R_app_worker, Some a)) ws /\
    m !! mgr = Some (OMngrArgs (mkMngrArgs (sh_req_q sh) (sh_req_q_mtx sh) (sh_excd_tm_q sh)
                                  (sh_excd_tm_mtx sh) (sh_excd_tm_sem sh) max_queue_time)) /\
    m !! excd = Some (OExcdArgs (mkExcdArgs (sh_excd_tm_q sh) (sh_excd_tm_mtx sh) (sh_excd_tm_sem sh))) /\
    length ws = workers /\
    (forall i a, ws !! i = Some a ->
       m !! a = Some (OAppWorker (mkAppWorker (Z.of_nat i) (sh_req_q sh) (sh_req_q_mtx sh)
                                    (sh_req_q_sem sh) fptr recv_timeout))).

Definition boot_calls (w : nat) : list (routine * option loc) :=
  (R_th_req_queue_mgr, Some 8) :: (R_th_excd_tm_q_mgr, Some 10)
  :: map (fun i => (R_app_worker, Some (thread_at (2 + i) + 1))) (seq 0 w).

Lemma boot_calls_blocks (fptr : option Fn) mq w rt :
  imap (fun i b => (b.1, Some (thread_at i + 1))) (boot_blocks fptr mq (Z.of_nat w) rt) = boot_calls w.
Proof.
  unfold boot_blocks, boot_calls. cbn [imap]. do 2 f_equal. apply list_eq. intros i.
  rewrite list_lookup_imap, !list_lookup_fmap.
  destruct (decide (i < w)%nat) as [Hi|Hi].
  - rewrite seqZ_index, lookup_seq_lt by done. done.
  - rewrite lookup_seqZ_ge, lookup_seq_ge by lia. done.
Qed.

(** How many threads run each function. *)
Lemma boot_calls_run f w :
  filter (fun c : routine * option loc => c.1 = f) (boot_calls w)
  = match f with
    | R_th_req_queue_mgr => [(R_th_req_queue_mgr, Some 8)]
    | R_th_excd_tm_q_mgr => [(R_th_excd_tm_q_mgr, Some 10)]
    | R_app_worker => map (fun i => (R_app_worker, Some (thread_at (2 + i) + 1))) (seq 0 w)
    end.
Proof.
  unfold boot_calls. set (ws := map _ _).
  assert (filter (fun c : routine * option loc => c.1 = f) ws
          = if decide (f = R_app_worker) then ws else []) as Hf.
  { unfold ws. generalize (seq 0 w). intros l. induction l as [|i l IH]; [by case_decide|].
    cbn [map]. rewrite filter_cons, IH. repeat case_decide; try done; congruence. }
  rewrite !filter_cons, Hf. by destruct f.
Qed.

Lemma boot_calls_world m w :
  (forall a, a < 7 -> m !! a = objects0 !! a) ->
  world_of sh0 m (boot_calls w) = Some (start_server [] w).
Proof.
  intros Hm. unfold world_of, queue_at, mutex_at, sem_at, sh0, sh_req_q, sh_excd_tm_q, sh_req_q_mtx,
    sh_excd_tm_mtx, sh_req_q_sem, sh_excd_tm_sem.
  cbn [mbind option_bind]. rewrite !Hm by lia. rewrite !boot_calls_run. cbn.
  rewrite map_map. assert (map (fun _ : nat => W_wait) (seq 0 w) = replicate w W_wait) as ->; [|done].
  transitivity (replicate (length (seq 0 w)) W_wait); [by apply const_fmap | by rewrite length_seq].
Qed.

Lemma boots_all (fptr : option Fn) maxpending max_queue_time w recv_timeout getaddrinfo fd net plan :
  get_server_sock getaddrinfo SERVICE (int32 maxpending) = Some (fd, net) -> fd <> -1 -> Z.of_nat w < 2 ^ 32 ->
  Forall (eq 0) (take (2 + w) plan) ->
  exists sh s calls s',
    boot_server fptr maxpending max_queue_time (Z.of_nat w) recv_timeout getaddrinfo (sys0 plan)
    = Ok (Some (Some (sh, fd, net)), s) /\
    run_threads (started s) s = Ok (Some calls, s') /\
    given sh (mem s') fptr (int32 max_queue_time) recv_timeout w calls /\
    world_of sh (mem s') calls = Some (start_server [] w) /\
    (forall a t, mem s' !! a <> Some (OThreadFunc t)).
Proof.
  intros Hsock Hfd Hw Hc. rewrite boot_server_seq by lia. set (bs := boot_blocks fptr max_queue_time (Z.of_nat w) recv_timeout).
  assert (length bs = (2 + w)%nat) as Hlen by (unfold bs; rewrite boot_blocks_length; lia).
  destruct (run_all_blocks plan bs) as (s' & Er & Hlow & Hblk & Hno).
  { unfold bs, boot_blocks. repeat (constructor; [done|]). apply Forall_fmap, Forall_true. done. }
  exists sh0, (spawn_all bs (base plan)), (boot_calls w), s'. split_and!.
  - rewrite (boot_bind_Ok _ _ _ (spawn_all bs (base plan)) ()).
    + unfold open_socket. rewrite Hsock. by replace (fd =? -1) with false by (symmetry; by apply Z.eqb_neq).
    + apply spawn_seq_all; [done|]. by rewrite Hlen.
  - rewrite Er. unfold bs. by rewrite boot_calls_blocks.
  - exists 8, 10, (map (fun i => thread_at (2 + i) + 1) (seq 0 w)). split_and!.
    + unfold boot_calls. by rewrite map_map.
    + by apply (Hblk 0%nat (R_th_req_queue_mgr, _)).
    + by apply (Hblk 1%nat (R_th_excd_tm_q_mgr, _)).
    + by rewrite length_map, length_seq.
    + intros i a E. rewrite list_lookup_fmap in E. destruct (seq 0 w !! i) as [k|] eqn:Ek; [|done].
      apply lookup_seq in Ek as [-> Hi]. injection E as <-.
      apply (Hblk (2 + i)%nat (worker_block (Some 4) (Some 2) (Some 6) fptr recv_timeout (Z.of_nat i))).
      change (map (worker_block (Some 4) (Some 2) (Some 6) fptr recv_timeout) (seqZ 0 (Z.of_nat w)) !! i
        = Some (worker_block (Some 4) (Some 2) (Some 6) fptr recv_timeout (Z.of_nat i))).
      by rewrite list_lookup_fmap, seqZ_index.
  - by apply boot_calls_world.
  - done.
Qed.

Lemma boots_exit (fptr : option Fn) maxpending max_queue_time w recv_timeout getaddrinfo plan j r rest :
  Z.of_nat w < 2 ^ 32 -> plan = replicate j 0 ++ r :: rest -> r <> 0 -> (j < 2 + w)%nat ->
  exists s', boot_server fptr maxpending max_queue_time (Z.of_nat w) recv_timeout getaddrinfo (sys0 plan)
    = Ok (None, s') /\ length (started s') = j.
Proof.
  intros Hw Hp Hr Hj. rewrite boot_server_seq by lia.
  destruct (spawn_seq_exit zero_args (boot_blocks fptr max_queue_time (Z.of_nat w) recv_timeout) (base plan) j r rest)
    as (s' & E & Hl); [done|done|done|rewrite boot_blocks_length; lia|].
  exists s'. split; [by apply boot_bind_exit|done].
Qed.

(** C21. The start of the server. When memory is granted: if every thread can be
    created, [start_server] reaches its loop with the socket it was given; each
    thread, after its prologue, calls its function on its own argument block,
    the workers numbered from 0, all on the same queues, mutexes and
    semaphores, and no [ThreadFunc] is left in memory: it is the world from
    which the threads of [Server] are started. If the [j]-th thread cannot be
    created, the process exits with exactly the [j] threads before it. *)
Theorem server_boots (fptr : option Fn) maxpending max_queue_time w recv_timeout getaddrinfo fd net plan :
  get_server_sock getaddrinfo SERVICE (int32 maxpending) = Some (fd, net) -> fd <> -1 -> Z.of_nat w < 2 ^ 32 ->
  (Forall (eq 0) (take (2 + w) plan) ->
   exists sh s calls s',
     boot_server fptr maxpending max_queue_time (Z.of_nat w) recv_timeout getaddrinfo (sys0 plan)
     = Ok (Some (Some (sh, fd, net)), s) /\
     run_threads (started s) s = Ok (Some calls, s') /\
     given sh (mem s') fptr (int32 max_queue_time) recv_timeout w calls /\
     world_of sh (mem s') calls = Some (start_server [] w) /\
     (forall a t, mem s' !! a <> Some (OThreadFunc t))) /\
  (forall j r rest, plan = replicate j 0 ++ r :: rest -> r <> 0 -> (j < 2 + w)%nat ->
   exists s', boot_server fptr maxpending max_queue_time (Z.of_nat w) recv_timeout getaddrinfo (sys0 plan)
     = Ok (None, s') /\ length (started s') = j).
Proof.
  intros Hsock Hfd Hw. split; [by apply boots_all|]. intros j r rest. by apply boots_exit.
Qed.
End worlds.

(** ** Witnesses *)

(** An address whose port is taken: [bind] fails and [listen] succeeds. *)
Definition taken_address : AddrAnswers := mkAnswers 3 (-1) 0.

Lemma server_socket_witness :
  exists fd net, get_server_sock (fun _ => Some [taken_address]) SERVICE 10 = Some (fd, net) /\
    (forall l1 a l2, [taken_address] = l1 ++ a :: l2 -> Forall (fun b => ~ usable b) l1 -> usable a ->
       fd = on_socket a /\ net !! fd = Some (mkSockState true true true) /\
       (forall f, is_Some (net !! f) <-> 0 <= f /\ f ∈ map on_socket (l1 ++ [a]))) /\
    (Forall (fun b => ~ usable b) [taken_address] ->
       fd = default (-1) (last (map on_socket [taken_address])) /\ unusable_sockets net /\
       (forall a, last [taken_address] = Some a -> 0 <= on_socket a -> net !! fd = Some (left_by a))).
Proof. apply (server_socket (fun _ => Some [taken_address]) SERVICE 10 [taken_address]); [lia|reflexivity]. Defined.

Definition free_address : AddrAnswers := mkAnswers 4 0 0.

Definition sample_sockets : sockets :=
  <[4 := mkSockState true true true]> (<[3 := mkSockState false true false]> ∅).

Lemma server_boots_witness :
  (Forall (eq 0) (take (2 + 2) [0; 0; 0; 0; 11]) ->
   exists sh s calls s',
     boot_server (Some ()) 10 500 (Z.of_nat 2) 0 (fun _ => Some [taken_address; free_address]) (sys0 [0; 0; 0; 0; 11])
     = Ok (Some (Some (sh, 4, sample_sockets)), s) /\
     run_threads (started s) s = Ok (Some calls, s') /\
     given sh (mem s') (Some ()) (int32 500) 0 2 calls /\
     world_of sh (mem s') calls = Some (start_server [] 2) /\
     (forall a t, mem s' !! a <> Some (OThreadFunc t))) /\
  (forall j r rest, [0; 0; 0; 0; 11] = replicate j 0 ++ r :: rest -> r <> 0 -> (j < 2 + 2)%nat ->
   exists s', boot_server (Some ()) 10 500 (Z.of_nat 2) 0 (fun _ => Some [taken_address; free_address]) (sys0 [0; 0; 0; 0; 11])
     = Ok (None, s') /\ length (started s') = j).
Proof.
  apply (server_boots (Some ()) 10 500 2 0 (fun _ => Some [taken_address; free_address]) 4 sample_sockets).
  - vm_compute. reflexivity.
  - discriminate.
  - lia.
Defined.
