(* ===== verification/Session.v ===== *)
(** Connections served one after the other on the one store of the program:
    what a worker of [server.c] does with the connections it dequeues, when no
    other worker runs at the same time. *)

From S2P Require Import Prelude CLib Errors Net Protocol SimpleMap KeyVal.
From S2P Require Import SetParser SetExec GetCmd Match Echo Config Dispatch App.

(** ** The worker's connections *)

Section session.
Context `{Fnmatch} `{Heap}.
Context (config_dict : Store) (clock : nat -> nat -> timespec).

(** [args->func(&rq->fd)] for each connection in turn; the store is the global
    [sm] of [app.c], so each connection finds what the one before it left.
    [clock c i] is the time of the [i]-th message of connection [c]. *)
Fixpoint serve (c : nat) (sm : Store) (conns : list Sock) : res (list Sock * Store) :=
  match conns with
  | [] => Ok ([], sm)
  | s :: conns =>
      '(s, sm) ← app_code config_dict (clock c) sm s;
      '(served, sm) ← serve (S c) sm conns;
      Ok (s :: served, sm)
  end.
End session.

Section abstract.
Context `{Fnmatch}.

(** The abstract server on a list of conversations: what it sends in each, and
    where it ends. *)
Fixpoint redis_sessions (entries : list entry) (clock : nat -> nat -> timespec) (c : nat)
    (convs : list (list (list (list byte)))) (m : keyspace) : list (list byte) * keyspace :=
  match convs with
  | [] => ([], m)
  | requests :: convs =>
      let '(out, m) := redis_run entries (clock c) 0 requests m in
      let '(outs, m) := redis_sessions entries clock (S c) convs m in
      (out :: outs, m)
  end.

(** A conversation is the sequence of its parts: the abstract server does not
    see where a client stops and goes on later. *)
Lemma redis_run_app entries clock i requests1 requests2 m :
  redis_run entries clock i (requests1 ++ requests2) m
  = let '(out1, m1) := redis_run entries clock i requests1 m in
    let '(out2, m2) := redis_run entries clock (i + length requests1) requests2 m1 in
    (out1 ++ out2, m2).
Proof.
  revert i m. induction requests1 as [|words requests1 IH]; intros i m; cbn [app redis_run length].
  - rewrite Nat.add_0_r. by destruct (redis_run entries clock i requests2 m).
  - destruct (redis_step entries words (clock i) m) as [reply m1]. rewrite IH.
    replace (i + S (length requests1))%nat with (S i + length requests1)%nat by lia.
    destruct (redis_run entries clock (S i) requests1 m1) as [out1 m2].
    destruct (redis_run entries clock (S i + length requests1) requests2 m2) as [out2 m3].
    by rewrite (assoc_L (++)).
Qed.
End abstract.

(** ** Refinement *)

Section simulation.
Context `{FnmatchLaws} `{Heap}.
Context (cfg : Store) (entries : list entry) (Hcfg : config_ok cfg entries).
Context (Hheap : forall n z, heap_grants n z = true) (clock : nat -> nat -> timespec).

Lemma serve_simulates k convs c sm m :
  Forall (Forall sendable) convs -> holds sm m -> roomy (length (concat convs) + k) sm ->
  exists served sm', serve cfg clock c sm (map (fun requests => sock_of (wire requests)) convs) = Ok (served, sm') /\
    map tx served = (redis_sessions entries clock c convs m).1 /\
    holds sm' (redis_sessions entries clock c convs m).2 /\ roomy k sm'.
Proof.
  intros Hc. revert c sm m. induction Hc as [|requests convs Hr _ IH]; intros c sm m Hh Hroom.
  - by exists [], sm.
  - cbn [map serve redis_sessions concat] in *. rewrite length_app in Hroom.
    rewrite <- Nat.add_assoc in Hroom.
    destruct (app_code_simulates cfg entries Hcfg Hheap (clock c) (length (concat convs) + k) requests sm m
      (sock_of (wire requests))) as (s1 & sm1 & -> & Htx & Hh1 & Hroom1); try done.
    cbn [mbind res_bind]. destruct (redis_run entries (clock c) 0 requests m) as [out m1]. cbn [fst snd] in *.
    destruct (IH (S c) sm1 m1 Hh1 Hroom1) as (served & sm' & -> & Hout & Hh' & Hroom').
    destruct (redis_sessions entries clock (S c) convs m1) as [outs m2]. cbn [fst snd mbind res_bind] in *.
    exists (s1 :: served), sm'. split_and!; try done. cbn [map]. by rewrite Htx, Hout.
Qed.
End simulation.

(** ** From a fresh start *)

Section properties.
Context `{FnmatchLaws} `{Heap}.

(** The key space outlives the connections: clients that connect one after the
    other to a freshly started server are each sent exactly the answers of the
    abstract server, which goes on from the key space the clients before have
    left - a key set on one connection is found on the next, with what is left of
    its lifetime. *)
Lemma sessions_refine_runs cfg entries clock convs :
  config_ok cfg entries -> (forall n z, heap_grants n z = true) ->
  Forall (Forall sendable) convs -> Z.of_nat (length (concat convs)) <= 2 ^ 28 ->
  exists served sm',
    serve cfg clock 0 create_simple_map (map (fun requests => sock_of (wire requests)) convs) = Ok (served, sm') /\
    map tx served = (redis_sessions entries clock 0 convs ∅).1 /\
    holds sm' (redis_sessions entries clock 0 convs ∅).2.
Proof.
  intros Hcfg Hheap Hc Hn.
  destruct (serve_simulates cfg entries Hcfg Hheap clock 0 convs 0 create_simple_map ∅) as (ss & sm' & ? & ? & ? & _).
  - done.
  - apply holds_create.
  - unfold roomy. simpl. lia.
  - by exists ss, sm'.
Qed.
End properties.

(** ** Example: a key set on one connection and read on another *)

Definition sample_sessions : list (list (list (list byte))) :=
  [[map bs ["set"; "k"; "v"]%string]; [map bs ["GET"; "k"]%string; map bs ["GET"; "other"]%string]].

Definition sample_clock (c i : nat) : timespec := mkTimespec (Z.of_nat c) (Z.of_nat i).

Example sample_sessions_served :
  (exists served sm',
    @serve glob grants_all sample_map sample_clock 0 create_simple_map
      (map (fun requests => sock_of (wire requests)) sample_sessions) = Ok (served, sm') /\
    map tx served = (@redis_sessions glob sample_config sample_clock 0 sample_sessions ∅).1 /\
    holds sm' (@redis_sessions glob sample_config sample_clock 0 sample_sessions ∅).2) /\
  (@redis_sessions glob sample_config sample_clock 0 sample_sessions ∅).1
  = [sent ok_reply; sent (encode (bulk (bs "v"))) ++ sent nil_reply].
Proof.
  split; [|vm_compute; reflexivity].
  apply (@sessions_refine_runs glob glob_laws grants_all sample_map sample_config).
  - apply sample_config_ok.
  - reflexivity.
  - repeat (constructor; [repeat (constructor; [split; [discriminate | split; [vm_compute; reflexivity |
      split; [refine (bool_decide_eq_true_1 _ _); vm_compute; reflexivity | vm_compute; reflexivity]]] |]); constructor|]).
    constructor.
  - vm_compute. discriminate.
Defined.
