(* ===== verification/Client.v ===== *)
(** The test client ([client/client.c]): one [SET] command, sent with as many
    calls of [send] as the kernel takes, and then a loop that prints what
    arrives. *)

From S2P Require Import Prelude CLib Errors Net Protocol SimpleMap KeyVal.
From S2P Require Import SetParser SetExec GetCmd Match Echo Config Dispatch App Boot.

Definition PORT : Z := 6379.
Definition BUFFER_SIZE : Z := 1024.

(** The commands that are sent: one. *)
Definition cmd_str_a : list (list byte) :=
  [bs "*5" ++ crlf ++ bs "$3" ++ crlf ++ bs "SET" ++ crlf ++ bs "$10" ++ crlf ++ bs "anotherkey" ++ crlf
   ++ bs "$23" ++ crlf ++ bs "will expire in a minute" ++ crlf ++ bs "$2" ++ crlf ++ bs "EX" ++ crlf
   ++ bs "$2" ++ crlf ++ bs "60" ++ crlf].

(** ** Sending *)

(** [while(b_sent<b_to_send)] for one command. [b_sent] is compared as a
    [size_t]; the pointer [start_pos] is the position reached in [text].
    [false] is the [return] after a [send] of nothing or an error. *)
Fixpoint send_loop (fuel : nat) (text : list byte) (b_to_send b_sent rmn_bt start_pos : Z) (s : Sock)
    : res (bool * Sock) :=
  if b_sent mod 2 ^ 64 <? b_to_send then
    match fuel with
    | O => OOF
    | S fuel =>
        '(rtn, _, s) ← sys_send (take (Z.to_nat rmn_bt) (drop (Z.to_nat start_pos) text)) s;
        if (rtn =? 0) || (rtn =? -1) then Ok (false, s)
        else
          let b_sent := b_sent + rtn in
          send_loop fuel text b_to_send b_sent (b_to_send - b_sent) (start_pos + rtn) s
    end
  else Ok (true, s).

(** The loop over the commands. *)
Fixpoint send_all (cmds : list (list byte)) (s : Sock) : res (bool * Sock) :=
  match cmds with
  | [] => Ok (true, s)
  | text :: cmds =>
      '(ok, s) ← send_loop (length text) text (strlen text) 0 (strlen text) 0 s;
      if ok : bool then send_all cmds s else Ok (false, s)
  end.

(** ** Receiving *)

(** What a call of [recv] stores, or [None] when it fails; at the end of the
    list the peer has closed. *)
Abbreviation answers := (list (option (list byte))).

(** [puts] reads up to the NUL of the object. *)
Definition puts (buf : list byte) : res (list byte) :=
  ub_unless (bool_decide (NUL ∈ buf)) (Ok (c_str buf ++ [LF])).

(** The [while(1)] loop; the buffer is never cleared.  The result is what
    [puts] has printed. *)
Fixpoint recv_loop (arrivals : answers) (buf : list byte) : res (list (list byte)) :=
  match arrivals with
  | [] | None :: _ => Ok []
  | Some bytes :: arrivals =>
      if Z.of_nat (length bytes) =? 0 then Ok []
      else
        buf ← memcpy buf 0 bytes;
        line ← puts buf;
        lines ← recv_loop arrivals buf;
        Ok (line :: lines)
  end.

(** [main]: what it returns, the socket, and what [puts] has printed. [sock] and
    [pton] are the answers of [socket] and [inet_pton], and [connect] answers for
    each port of the machine. *)
Definition main (sock pton : Z) (connect : Z -> Z) (s : Sock) (arrivals : answers)
    : res (Z * Sock * list (list byte)) :=
  if sock <? 0 then Ok (-1, s, [])
  else if pton <=? 0 then Ok (-1, s, [])
  else if connect PORT <? 0 then Ok (-1, s, [])
  else
    '(ok, s) ← send_all cmd_str_a s;
    if negb ok then Ok (0, s, [])
    else
      lines ← recv_loop arrivals (calloc 1024);
      Ok (0, s, lines).

(** ** Lemmas *)

Definition client_request : list (list byte) :=
  map bs ["SET"; "anotherkey"; "will expire in a minute"; "EX"; "60"]%string.

(** The literal is the encoding of the request. *)
Lemma cmd_is_wire : cmd_str_a = [wire [client_request]].
Proof. vm_compute. reflexivity. Qed.

(** A [send] that takes something and raises no error. *)
Definition takes (i : tx_item) : Prop := match i with TxCount n => 0 < n | TxErr _ => False end.

#[export] Instance takes_dec i : Decision (takes i).
Proof. destruct i; simpl; apply _. Defined.

Lemma sys_send_takes buf s :
  Forall takes (tx_plan s) -> buf <> [] ->
  exists n plan, sys_send buf s = Ok (Z.of_nat n, 0, mkSock (rx s) plan (naps s) (tx s ++ take n buf)) /\
    (1 <= n <= length buf)%nat /\ Forall takes plan.
Proof.
  intros Hp Hb. unfold sys_send. assert (1 <= length buf)%nat by (destruct buf; simpl; [done|lia]).
  destruct (tx_plan s) as [|[e|n] plan] eqn:E.
  - exists (length buf), []. rewrite take_ge by lia. split; [done|]. split; [lia|constructor].
  - by apply Forall_cons in Hp as [[] _].
  - apply Forall_cons in Hp as [Hn Hp]. simpl in Hn.
    exists (length (take (Z.to_nat n) buf)), plan. rewrite length_take. split; [|split; [lia|done]].
    do 3 f_equal. destruct (decide (Z.to_nat n <= length buf)%nat).
    + by rewrite Nat.min_l by lia.
    + by rewrite Nat.min_r, !take_ge by lia.
Qed.

(** However the kernel cuts it, the whole text goes out, once and in order. *)
Lemma send_loop_sends (done_ : nat) fuel text s :
  Forall takes (tx_plan s) -> (done_ <= length text)%nat -> Z.of_nat (length text) < 2 ^ 63 ->
  (length text - done_ <= fuel)%nat ->
  exists s', send_loop fuel text (Z.of_nat (length text)) (Z.of_nat done_)
      (Z.of_nat (length text) - Z.of_nat done_) (Z.of_nat done_) s = Ok (true, s') /\
    tx s' = tx s ++ drop done_ text /\ Forall takes (tx_plan s').
Proof.
  revert done_ s. induction fuel as [|fuel IH]; intros d s Hp Hd Hl Hf; cbn [send_loop];
    rewrite (Z.mod_small (Z.of_nat d)) by lia.
  - if_false. exists s. rewrite drop_ge, app_nil_r by lia. done.
  - case_if.
    + replace (Z.to_nat (Z.of_nat (length text) - Z.of_nat d)) with (length text - d)%nat by lia.
      rewrite Nat2Z.id, take_ge by (rewrite length_drop; lia).
      assert (drop d text <> []) as Hne by (intros E%(f_equal length); rewrite length_drop in E; simpl in E; lia).
      destruct (sys_send_takes (drop d text) s Hp Hne) as (n & plan & -> & Hn & Hp').
      rewrite length_drop in Hn. cbn [mbind res_bind]. rewrite orb_false_intro by (apply Z.eqb_neq; lia).
      rewrite <- Nat2Z.inj_add.
      destruct (IH (d + n)%nat (mkSock (rx s) plan (naps s) (tx s ++ take n (drop d text)))) as (s' & E & Ht & Hp2);
        [done|lia|done|lia|].
      exists s'. split; [exact E|]. split; [|done].
      rewrite Ht. cbn [tx]. by rewrite <- (assoc_L (++)), <- drop_drop, take_drop.
    + exists s. rewrite drop_ge, app_nil_r by lia. done.
Qed.

Lemma send_all_sends s :
  Forall takes (tx_plan s) ->
  exists s', send_all cmd_str_a s = Ok (true, s') /\ tx s' = tx s ++ wire [client_request].
Proof.
  intros Hp. rewrite cmd_is_wire. cbn [send_all].
  assert (strlen (wire [client_request]) = Z.of_nat (length (wire [client_request]))) as -> by (vm_compute; reflexivity).
  destruct (send_loop_sends 0 (length (wire [client_request])) (wire [client_request]) s Hp) as (s' & E & Ht & _);
    [lia|vm_compute; reflexivity|lia|].
  rewrite Z.sub_0_r in E. change (Z.of_nat 0) with 0 in E. rewrite E. cbn [mbind res_bind]. by exists s'.
Qed.

(** ** Properties *)

(** What the buffer holds after an answer with its NUL. *)
Lemma puts_text (text rest : list byte) : nul_free text -> puts (text ++ NUL :: rest) = Ok (text ++ [LF]).
Proof.
  intros Hn. unfold puts. rewrite bool_decide_eq_true_2 by set_solver. cbn [ub_unless].
  rewrite c_str_app by done. cbn [c_str]. by rewrite decide_True, app_nil_r by done.
Qed.

Lemma memcpy_start (buf bytes : list byte) :
  (length bytes <= length buf)%nat -> memcpy buf 0 bytes = Ok (bytes ++ drop (length bytes) buf).
Proof. intros Hl. unfold memcpy. by if_true. Qed.

Lemma recv_loop_texts texts buf :
  Forall (fun t => nul_free t /\ Z.of_nat (length t) < 1024) texts -> Z.of_nat (length buf) = 1024 ->
  recv_loop (map (fun t => Some (t ++ [NUL])) texts) buf = Ok (map (fun t => t ++ [LF]) texts).
Proof.
  intros Ht. revert buf. induction Ht as [|t texts [Hn Hl] _ IH]; intros buf Hb; [done|].
  cbn [map recv_loop]. rewrite length_app. cbn [length]. if_false.
  rewrite memcpy_start by (rewrite length_app; simpl; lia). cbn [mbind res_bind].
  rewrite <- (assoc_L (++)). cbn [app]. rewrite puts_text by done. cbn [mbind res_bind].
  rewrite IH; [done|]. rewrite length_app. cbn [length]. rewrite length_drop, length_app. simpl. lia.
Qed.

(** What the client prints. Answers that arrive whole, each with the NUL the
    server sends behind its text and shorter than the buffer, are printed one
    per line, although the buffer is never cleared; an answer that fills the buffer without a
    NUL makes [puts] read on behind it. *)
Lemma client_prints texts :
  Forall (fun t => nul_free t /\ Z.of_nat (length t) < BUFFER_SIZE) texts ->
  recv_loop (map (fun t => Some (t ++ [NUL])) texts) (calloc 1024) = Ok (map (fun t => t ++ [LF]) texts) /\
  (forall bytes arrivals, nul_free bytes -> Z.of_nat (length bytes) = BUFFER_SIZE ->
     recv_loop (Some bytes :: arrivals) (calloc 1024) = UB).
Proof.
  intros Ht. assert (length (calloc 1024) = 1024%nat) as Hc by apply length_replicate. split.
  - apply recv_loop_texts; [done|]. by rewrite Hc.
  - unfold BUFFER_SIZE. intros bytes arrivals Hn Hl. cbn [recv_loop]. if_false.
    rewrite memcpy_start by lia. cbn [mbind res_bind]. rewrite drop_ge, app_nil_r by lia.
    unfold puts. by rewrite bool_decide_eq_false_2.
Qed.

(** A first [send] that fails. *)
Lemma send_all_fails e p s :
  tx_plan s = TxErr e :: p ->
  send_all cmd_str_a s = if e =? EPIPE then SIGPIPE else Ok (false, mkSock (rx s) p (naps s) (tx s)).
Proof.
  intros E. unfold cmd_str_a. cbn [send_all]. set (text := bs "*5" ++ _).
  destruct (length text) as [|n] eqn:El; [by vm_compute in El|]. cbn [send_loop].
  change (0 mod 2 ^ 64 <? strlen text) with true. cbv iota. unfold sys_send. rewrite E.
  by destruct (e =? EPIPE).
Qed.

(** C25. The test client, at the port 6379 of the machine:

    - if nobody listens there it returns -1 and nothing has been sent; so it does
      beside the server of this repository, which listens on another port;
    - if it is connected, its [SET] goes out once and in order however the
      kernel cuts the sends, and answers that arrive whole, each with the NUL
      the server sends behind its text, are printed one per line, although the
      buffer is never cleared, and it returns 0;
    - an answer that fills the buffer without a NUL makes [puts] read on behind it;
    - if the first [send] fails it returns 0 without a look at what arrives, and
      if the peer has closed, the signal ends it. *)
Theorem client_outcome connect s :
  (connect PORT < 0 -> forall arrivals, main 3 1 connect s arrivals = Ok (-1, s, [])) /\
  ((forall port, 0 <= connect port <-> decimal port = SERVICE) ->
     forall arrivals, main 3 1 connect s arrivals = Ok (-1, s, [])) /\
  (0 <= connect PORT -> Forall takes (tx_plan s) ->
     exists s', tx s' = tx s ++ wire [client_request] /\
       (forall texts, Forall (fun t => nul_free t /\ Z.of_nat (length t) < BUFFER_SIZE) texts ->
          main 3 1 connect s (map (fun t => Some (t ++ [NUL])) texts) = Ok (0, s', map (fun t => t ++ [LF]) texts)) /\
       (forall bytes arrivals, nul_free bytes -> Z.of_nat (length bytes) = BUFFER_SIZE ->
          main 3 1 connect s (Some bytes :: arrivals) = UB)) /\
  (0 <= connect PORT -> forall e p arrivals, tx_plan s = TxErr e :: p ->
     main 3 1 connect s arrivals
     = if e =? EPIPE then SIGPIPE else Ok (0, mkSock (rx s) p (naps s) (tx s), [])).
Proof.
  assert (connect PORT < 0 -> forall arrivals, main 3 1 connect s arrivals = Ok (-1, s, [])) as Hno.
  { intros Hc arrivals. unfold main. cbn [Z.ltb Z.leb Z.compare]. by if_true. }
  split_and!; [exact Hno| | |].
  - intros Hc. apply Hno. destruct (Z_lt_ge_dec (connect PORT) 0) as [|Hge]; [done|].
    assert (decimal PORT = SERVICE) as E by (apply Hc; lia). by vm_compute in E.
  - intros Hc Hp. destruct (send_all_sends s Hp) as (s' & E & Ht). exists s'. split; [exact Ht|].
    unfold main. cbn [Z.ltb Z.leb Z.compare]. if_false. rewrite E. cbn [mbind res_bind negb]. split.
    + intros texts Htx. destruct (client_prints texts Htx) as [Er _]. by rewrite Er.
    + intros bytes arrivals Hn Hl. destruct (client_prints []) as [_ Hub]; [constructor|]. by rewrite Hub.
  - intros Hc e p arrivals E. unfold main. cbn [Z.ltb Z.leb Z.compare]. if_false.
    rewrite (send_all_fails e p) by done. by destruct (e =? EPIPE).
Qed.

(** ** Examples *)

(** Three sends: 10 bytes, 1 byte, the rest; and two answers. *)
Example client_prints_two_answers :
  exists s', main 3 1 (fun _ => 0) (mkSock [] [TxCount 10; TxCount 1] [] [])
    (map (fun t => Some (t ++ [NUL])) [bs "$3" ++ crlf ++ bs "abc" ++ crlf; bs "+OK" ++ crlf])
  = Ok (0, s', map (fun t => t ++ [LF]) [bs "$3" ++ crlf ++ bs "abc" ++ crlf; bs "+OK" ++ crlf]) /\
  tx s' = wire [client_request].
Proof. eexists. split; vm_compute; reflexivity. Qed.

Lemma client_outcome_witness :
  (forall arrivals, main 3 1 (fun _ => -1) (sock_of []) arrivals = Ok (-1, sock_of [], [])) /\
  exists s', tx s' = [] ++ wire [client_request] /\
    (forall texts, Forall (fun t => nul_free t /\ Z.of_nat (length t) < BUFFER_SIZE) texts ->
       main 3 1 (fun _ => 0) (mkSock [] [TxCount 10; TxCount 1] [] []) (map (fun t => Some (t ++ [NUL])) texts)
       = Ok (0, s', map (fun t => t ++ [LF]) texts)) /\
    (forall bytes arrivals, nul_free bytes -> Z.of_nat (length bytes) = BUFFER_SIZE ->
       main 3 1 (fun _ => 0) (mkSock [] [TxCount 10; TxCount 1] [] []) (Some bytes :: arrivals) = UB).
Proof.
  split.
  - apply (proj1 (client_outcome (fun _ => -1) (sock_of []))). reflexivity.
  - apply (client_outcome (fun _ => 0) (mkSock [] [TxCount 10; TxCount 1] [] [])); [lia|repeat constructor].
Defined.
