(* ===== verification/Race.v ===== *)
(** Two workers in [set] at the same time. The program's store is one
    [SimpleMap] that every worker uses without a lock ([app.c], [simple_map.c]);
    here [set] is a thread that touches the shared map one access at a time, the
    growth of its arrays included, which alone does what [set] does and with
    another one does not. *)

From S2P Require Import Prelude CLib SimpleMap KeyVal Queue Server.

(** ** The shared map

    The map with the two arrays its pointers lead to, and whether [realloc] has
    freed the object a pointer leads to: an access through such a pointer is
    undefined, whether or not the new array is at the same address. *)

Record shared (K V : Type) := mkShared {
  sh_map : SimpleMap K V;
  keys_freed : bool;
  values_freed : bool
}.
Arguments mkShared {K V} sh_map keys_freed values_freed.
Arguments sh_map {K V} _.
Arguments keys_freed {K V} _.
Arguments values_freed {K V} _.

(** A map nobody is growing. *)
Definition live {K V} (sm : SimpleMap K V) : shared K V := mkShared sm false false.

Section access.
Context {K V : Type}.
Implicit Types (sh : shared K V).

(** [sm->keys] and [sm->values] as pointers that are followed. *)
Definition the_keys sh : res (list (slot (KeyWrapper K))) :=
  if keys_freed sh then UB else deref (sm_keys (sh_map sh)).
Definition the_values sh : res (list (slot (ValueWrapper V))) :=
  if values_freed sh then UB else deref (sm_values (sh_map sh)).

(** Stores to the fields of the map; a new array is not a freed one. *)
Definition put_keys (ks : option (list (slot (KeyWrapper K)))) sh : shared K V :=
  mkShared (mkSM ks (sm_values (sh_map sh)) (sm_capacity (sh_map sh)) (sm_top (sh_map sh))) false (values_freed sh).
Definition put_values (vs : option (list (slot (ValueWrapper V)))) sh : shared K V :=
  mkShared (mkSM (sm_keys (sh_map sh)) vs (sm_capacity (sh_map sh)) (sm_top (sh_map sh))) (keys_freed sh) false.
Definition put_capacity (n : Z) sh : shared K V :=
  mkShared (mkSM (sm_keys (sh_map sh)) (sm_values (sh_map sh)) n (sm_top (sh_map sh))) (keys_freed sh) (values_freed sh).
Definition put_top (n : Z) sh : shared K V :=
  mkShared (mkSM (sm_keys (sh_map sh)) (sm_values (sh_map sh)) (sm_capacity (sh_map sh)) n) (keys_freed sh) (values_freed sh).
Definition free_keys sh : shared K V := mkShared (sh_map sh) true (values_freed sh).
Definition free_values sh : shared K V := mkShared (sh_map sh) (keys_freed sh) true.
End access.

(** ** [set] as a thread *)

Section thread.
Context {K V : Type} `{Heap}.
Context (cmp_fptr : option K -> option K -> res bool).
Implicit Types (sm : SimpleMap K V) (sh : shared K V) (kvp : KeyValuePair K V).

(** The next access to the map: [F_] in [__find], [S_] in [__set], [D_] in
    [__double_arrays], [U_] in [__upgrade]; the arguments are the locals. *)
Inductive set_pc :=
  | F_start
  | F_loop (i : Z)
  | F_slot (i : Z)
  | F_cmp (i : Z)
  | S_check
  | S_full
  | D_check
  | D_keys (new_capacity : Z)
  | D_values (new_capacity : Z) (keys : list (slot (KeyWrapper K)))
  | D_back (keys : list (slot (KeyWrapper K)))
  | D_put_keys (new_capacity : Z) (keys : list (slot (KeyWrapper K))) (values : list (slot (ValueWrapper V)))
  | D_put_values (new_capacity : Z) (values : list (slot (ValueWrapper V)))
  | D_put_capacity (new_capacity : Z)
  | S_top_read
  | S_top_write (top : Z)
  | S_key
  | S_value
  | U_check (pos : Z)
  | U_old_v (pos : Z)
  | U_old_k (pos : Z) (old_v : option V)
  | U_new_v (pos : Z) (old_v : option V) (old_k : option K)
  | U_new_k (pos : Z) (old_v : option V) (old_k : option K)
  | Ret (rtn : SetKeyValueRtn) (key_par : KeyValuePair K V).

Definition set_start kvp : set_pc :=
  if is_null (kvp_key kvp) then Ret ERROR_SET_SM_RTN kvp else F_start.

(** One access; a guard that reads several fields is one of them. [sm->top++]
    is a read and a write, and the two stores of [__set] read [sm->top] again. The
    arrays that [realloc] returns are locals of [__double_arrays] until they are
    stored: in between [sm->keys], and then [sm->values], lead to freed objects. *)
Definition set_step kvp (pc : set_pc) sh : res (set_pc * shared K V) :=
  let failed := Ret ERROR_SET_SM_RTN kvp in
  let sm := sh_map sh in
  match pc with
  | F_start => Ok (if is_null (sm_keys sm) then failed else F_loop 0, sh)
  | F_loop i => Ok (if i <=? sm_top sm then F_slot i else S_check, sh)
  | F_slot i =>
      ks ← the_keys sh;
      s ← aread ks i;
      null ← slot_null s;
      Ok (if (null : bool) then failed else F_cmp i, sh)
  | F_cmp i =>
      ks ← the_keys sh;
      s ← aread ks i;
      w ← slot_deref s;
      equal ← cmp_fptr (kw_key w) (kvp_key kvp);
      Ok (if (equal : bool) then U_check i else F_loop (i + 1), sh)
  | S_check =>
      Ok (if is_null (sm_keys sm) || is_null (sm_values sm) || (sm_capacity sm =? 0)
          then failed else S_full, sh)
  | S_full => Ok (if __is_full sm then D_check else S_top_read, sh)
  | D_check =>
      if is_null (sm_keys sm) || is_null (sm_values sm) || (sm_capacity sm =? 0) || negb (__is_full sm)
      then Ok (failed, sh)
      else
        let new_capacity := 2 * sm_capacity sm in
        ub_unless (new_capacity <=? INT_MAX) (Ok (D_keys new_capacity, sh))
  | D_keys n =>
      ks ← the_keys sh;
      Ok (if heap_grants 0 (n * sizeof_ptr)
          then (D_values n (realloc_grow ks n), free_keys sh) else (failed, sh))
  | D_values n keys =>
      vs ← the_values sh;
      Ok (if heap_grants 1 (n * sizeof_ptr)
          then (D_put_keys n keys (realloc_grow vs n), free_values sh) else (D_back keys, sh))
  | D_back keys =>
      let keys := if heap_grants 2 (sm_capacity sm * sizeof_ptr)
                  then Some (take (Z.to_nat (sm_capacity sm)) keys) else None in
      Ok (failed, put_keys keys sh)
  | D_put_keys n keys values => Ok (D_put_values n values, put_keys (Some keys) sh)
  | D_put_values n values => Ok (D_put_capacity n, put_values (Some values) sh)
  | D_put_capacity n => Ok (S_top_read, put_capacity n sh)
  | S_top_read => Ok (S_top_write (sm_top sm), sh)
  | S_top_write top => Ok (S_key, put_top (top + 1) sh)
  | S_key =>
      ks ← the_keys sh;
      ks ← awrite ks (sm_top sm) (Ptr (mkKeyWrapper (kvp_key kvp)));
      Ok (S_value, put_keys (Some ks) sh)
  | S_value =>
      vs ← the_values sh;
      vs ← awrite vs (sm_top sm) (Ptr (mkValueWrapper (kvp_value kvp)));
      Ok (Ret SUCESS_SET kvp, put_values (Some vs) sh)
  | U_check pos =>
      Ok (if is_null (sm_values sm) || is_null (sm_keys sm) || (pos <? 0) || (sm_top sm <? pos)
          then failed else U_old_v pos, sh)
  | U_old_v pos =>
      vs ← the_values sh;
      s ← aread vs pos; w ← slot_deref s;
      Ok (U_old_k pos (vw_value w), sh)
  | U_old_k pos old_v =>
      ks ← the_keys sh;
      s ← aread ks pos; w ← slot_deref s;
      Ok (U_new_v pos old_v (kw_key w), sh)
  | U_new_v pos old_v old_k =>
      vs ← the_values sh;
      s ← aread vs pos; _ ← slot_deref s;
      vs ← awrite vs pos (Ptr (mkValueWrapper (kvp_value kvp)));
      Ok (U_new_k pos old_v old_k, put_values (Some vs) sh)
  | U_new_k pos old_v old_k =>
      ks ← the_keys sh;
      s ← aread ks pos; _ ← slot_deref s;
      ks ← awrite ks pos (Ptr (mkKeyWrapper (kvp_key kvp)));
      Ok (Ret SUCESS_UPGRADE (mkKVP old_k old_v), put_keys (Some ks) sh)
  | Ret _ _ => Ok (pc, sh)
  end.

(** A thread alone. *)
Fixpoint set_steps (n : nat) kvp (pc : set_pc) sh : res (set_pc * shared K V) :=
  match n with
  | O => Ok (pc, sh)
  | S n => '(pc, sh) ← set_step kvp pc sh; set_steps n kvp pc sh
  end.

(** The outcome of a thread that has returned. *)
Definition returned (o : res (set_pc * shared K V)) : res (SetKeyValueRtn * shared K V * KeyValuePair K V) :=
  '(pc, sh) ← o;
  match pc with Ret rtn kvp => Ok (rtn, sh, kvp) | _ => OOF end.

(** What [set] returns, on a map nobody else is growing. *)
Definition on_live (o : res (SetKeyValueRtn * SimpleMap K V * KeyValuePair K V))
    : res (SetKeyValueRtn * shared K V * KeyValuePair K V) :=
  '(rtn, sm, kvp) ← o; Ok (rtn, live sm, kvp).

(** ** Two threads *)

Record race := mkRace { r_sm : shared K V; r_1 : set_pc; r_2 : set_pc }.

(** A schedule says who moves: [true] is the first thread. *)
Fixpoint run_schedule (kvp1 kvp2 : KeyValuePair K V) (schedule : list bool) (r : race) : res race :=
  match schedule with
  | [] => Ok r
  | true :: schedule =>
      '(pc, sh) ← set_step kvp1 (r_1 r) (r_sm r);
      run_schedule kvp1 kvp2 schedule (mkRace sh pc (r_2 r))
  | false :: schedule =>
      '(pc, sh) ← set_step kvp2 (r_2 r) (r_sm r);
      run_schedule kvp1 kvp2 schedule (mkRace sh (r_1 r) pc)
  end.

(** ** One thread alone is [set] *)

Lemma steps_add m n kvp pc sh :
  set_steps (m + n) kvp pc sh = '(pc, sh) ← set_steps m kvp pc sh; set_steps n kvp pc sh.
Proof.
  revert pc sh. induction m as [|m IH]; intros pc sh; [done|]. cbn [Nat.add set_steps].
  destruct (set_step kvp pc sh) as [[pc' sh']| |]; cbn [mbind res_bind]; [apply IH|done..].
Qed.

Lemma steps_ret n kvp rtn kvp' sh : set_steps n kvp (Ret rtn kvp') sh = Ok (Ret rtn kvp', sh).
Proof. induction n as [|n IH]; [done|]. cbn. exact IH. Qed.

(** The part of [set] behind [__find]. *)
Definition set_rest sm kvp (pos : Z) : res (SetKeyValueRtn * SimpleMap K V * KeyValuePair K V) :=
  if (pos =? FIND_KEY_ERROR) || (pos =? KEY_ARR_ERROR) then Ok (ERROR_SET_SM_RTN, sm, kvp)
  else if pos =? KEY_NOT_FOUND then
    '(ok, sm) ← __set sm kvp;
    if (ok : bool) then Ok (SUCESS_SET, sm, kvp) else Ok (ERROR_SET_SM_RTN, sm, kvp)
  else
    '(ok, sm, kvp) ← __upgrade sm pos kvp;
    if (ok : bool) then Ok (SUCESS_UPGRADE, sm, kvp) else Ok (ERROR_SET_SM_RTN, sm, kvp).

Lemma returned_ret n kvp rtn kvp' sh : returned (set_steps n kvp (Ret rtn kvp') sh) = Ok (rtn, sh, kvp').
Proof. by rewrite steps_ret. Qed.

Lemma store_alone f sm kvp :
  returned (set_steps (4 + f) kvp S_top_read (live sm))
  = (ks ← deref (sm_keys sm);
     vs ← deref (sm_values sm);
     ks ← awrite ks (sm_top sm + 1) (Ptr (mkKeyWrapper (kvp_key kvp)));
     vs ← awrite vs (sm_top sm + 1) (Ptr (mkValueWrapper (kvp_value kvp)));
     Ok (SUCESS_SET, live (mkSM (Some ks) (Some vs) (sm_capacity sm) (sm_top sm + 1)), kvp)).
Proof.
  destruct sm as [[ks|] [vs|] cap top]; cbn; try done.
  - destruct (awrite ks _ _) as [ks'| |]; [|done..]. cbn.
    destruct (awrite vs _ _) as [vs'| |]; [|done..]. cbn. apply returned_ret.
  - pose proof (awrite_not_OOF ks (top + 1) (Ptr (mkKeyWrapper (kvp_key kvp)))).
    destruct (awrite ks _ _) as [ks'|fault|] eqn:E; [done| |done]. by apply awrite_stops in E as ->.
Qed.

(** The growth of the arrays, from the test of [__double_arrays]. *)
Lemma double_alone f sm kvp :
  is_null (sm_keys sm) = false -> is_null (sm_values sm) = false ->
  returned (set_steps (10 + f) kvp D_check (live sm))
  = '(grown, sm) ← __double_arrays sm;
    if (grown : bool) then returned (set_steps (4 + f) kvp S_top_read (live sm))
    else Ok (ERROR_SET_SM_RTN, live sm, kvp).
Proof.
  destruct sm as [[ks|] [vs|] cap top]; try done. intros _ _. unfold __double_arrays.
  change (10 + f)%nat with (S (9 + f)). cbn [set_steps set_step sm_keys sm_values sm_capacity sh_map live is_null orb].
  destruct ((cap =? 0) || _); [apply returned_ret|]. unfold ub_unless.
  destruct (2 * cap <=? INT_MAX); [|done]. cbn [mbind res_bind].
  change (9 + f)%nat with (S (8 + f)). cbn [set_steps set_step the_keys live keys_freed deref sh_map sm_keys mbind res_bind].
  destruct (heap_grants 0 _); [|apply returned_ret]. cbn [negb].
  change (8 + f)%nat with (S (7 + f)).
  cbn [set_steps set_step the_values live values_freed free_keys deref sh_map sm_values mbind res_bind].
  destruct (heap_grants 1 _); cbn [negb mbind res_bind].
  { change (7 + f)%nat with (S (S (S (4 + f)))). cbn [set_steps set_step mbind res_bind]. done. }
  change (7 + f)%nat with (S (6 + f)). cbn [set_steps set_step mbind res_bind]. apply returned_ret.
Qed.

Lemma new_alone f sm kvp :
  is_null (kvp_key kvp) = false ->
  returned (set_steps (12 + f) kvp S_check (live sm)) = on_live (set_rest sm kvp KEY_NOT_FOUND).
Proof.
  intros Hk. change (set_rest sm kvp KEY_NOT_FOUND) with
    ('(ok, sm) ← __set sm kvp;
     if (ok : bool) then Ok (SUCESS_SET, sm, kvp) else Ok (ERROR_SET_SM_RTN, sm, kvp)).
  unfold __set. rewrite Hk, orb_false_r.
  change (12 + f)%nat with (S (S (10 + f))). cbn [set_steps set_step sh_map live].
  destruct (is_null (sm_keys sm) || is_null (sm_values sm) || _) eqn:E; cbn [mbind res_bind];
    [exact (returned_ret (S (10 + f)) _ _ _ _)|].
  rewrite !orb_false_iff in E. destruct E as ((Ek & Ev) & _). cbn [set_steps set_step mbind res_bind sh_map].
  change (sh_map (live sm)) with sm. destruct (__is_full sm).
  - rewrite double_alone by done. destruct (__double_arrays sm) as [[[] sm']| |]; [|done..]. cbn [mbind res_bind].
    rewrite store_alone. cbn. destruct (sm_keys sm') as [ks|]; [|done]. cbn.
    destruct (sm_values sm') as [vs|]; [|done]. cbn.
    destruct (awrite ks _ _); [|done..]. cbn. by destruct (awrite vs _ _).
  - change (10 + f)%nat with (4 + (6 + f))%nat. rewrite store_alone. cbn.
    destruct (sm_keys sm) as [ks|]; [|done]. cbn. destruct (sm_values sm) as [vs|]; [|done]. cbn.
    destruct (awrite ks _ _); [|done..]. cbn. by destruct (awrite vs _ _).
Qed.

Lemma upgrade_alone f sm kvp pos :
  is_null (kvp_key kvp) = false -> 0 <= pos ->
  returned (set_steps (5 + f) kvp (U_check pos) (live sm)) = on_live (set_rest sm kvp pos).
Proof.
  intros Hk Hp. unfold set_rest. unfold FIND_KEY_ERROR, KEY_ARR_ERROR, KEY_NOT_FOUND.
  replace (pos =? -1) with false by lia. replace (pos =? -2) with false by lia.
  replace (pos =? -3) with false by lia. cbn [orb]. unfold __upgrade. rewrite Hk, orb_false_r.
  change (5 + f)%nat with (S (4 + f)). cbn [set_steps set_step mbind res_bind sh_map live].
  destruct (is_null _ || _ || _ || _) eqn:E; [apply returned_ret|].
  rewrite !orb_false_iff in E. destruct E as (((Ev & Ek) & _) & _).
  destruct sm as [[ks|] [vs|] cap top]; try done. cbn.
  destruct (aread vs pos) as [[| |[v]]| |] eqn:E1; try done. cbn.
  destruct (aread ks pos) as [[| |[k]]| |] eqn:E2; try done. cbn. rewrite E1. cbn.
  destruct (awrite vs _ _) as [vs'| |]; [|done..]. cbn. rewrite E2. cbn.
  destruct (awrite ks _ _) as [ks'| |]; [|done..]. cbn. apply returned_ret.
Qed.

(** The search, from position [i]. *)
Lemma search_alone n sm ks kvp i f :
  is_null (kvp_key kvp) = false -> sm_keys sm = Some ks -> 0 <= i -> (Z.to_nat (sm_top sm + 1 - i) <= n)%nat ->
  returned (set_steps (3 * n + 13 + f) kvp (F_loop i) (live sm))
  = on_live (pos ← find_loop n ks (sm_top sm) (kvp_key kvp) cmp_fptr i; set_rest sm kvp pos).
Proof.
  intros Hk Hks. revert i. induction n as [|n IH]; intros i Hi Hn.
  - change (3 * 0 + 13 + f)%nat with (S (12 + f)). cbn [set_steps set_step find_loop mbind res_bind sh_map live].
    case_if; [lia|]. cbn [mbind res_bind]. by apply new_alone.
  - replace (3 * S n + 13 + f)%nat with (S (S (S (3 * n + 13 + f)))) by lia.
    cbn [set_steps set_step find_loop mbind res_bind sh_map live]. case_if.
    + cbn [set_steps set_step the_keys live keys_freed sh_map]. rewrite Hks. cbn [deref mbind res_bind].
      destruct (aread ks i) as [[| |w]| |] eqn:Ea; try done; cbn [mbind res_bind slot_null slot_deref].
      * exact (returned_ret _ _ _ _ _).
      * cbn [set_step the_keys live keys_freed sh_map]. rewrite Hks. cbn [deref mbind res_bind]. rewrite Ea.
        cbn [slot_deref mbind res_bind].
        pose proof Hk as Hk'. destruct (kvp_key kvp) as [k|] eqn:Ekey; [|done].
        destruct (cmp_fptr (kw_key w) (Some k)) as [[]| |]; cbn [mbind res_bind returned]; try done.
        -- replace (3 * n + 13 + f)%nat with (5 + (3 * n + 8 + f))%nat by lia.
           apply (upgrade_alone _ sm); [|lia]. by rewrite Ekey.
        -- by apply IH; lia.
    + change (returned (set_steps (S (S (3 * n + 13 + f))) kvp S_check (live sm))
        = on_live (set_rest sm kvp KEY_NOT_FOUND)).
      replace (S (S (3 * n + 13 + f))) with (12 + (3 * n + 3 + f))%nat by lia. by apply (new_alone _ sm).
Qed.

(** The number of accesses that is enough. *)
Definition set_accesses sm : nat := 3 * Z.to_nat (sm_top sm + 1) + 14.

Lemma set_alone sm kvp n :
  (set_accesses sm <= n)%nat ->
  returned (set_steps n kvp (set_start kvp) (live sm)) = on_live (set sm kvp cmp_fptr).
Proof.
  intros Hn. unfold set, set_start. destruct (is_null (kvp_key kvp)) eqn:Hk; [apply returned_ret|].
  unfold set_accesses in Hn. destruct n as [|n]; [lia|]. cbn [set_steps set_step mbind res_bind sh_map live].
  unfold __find. rewrite Hk. destruct (sm_keys sm) as [ks|] eqn:Hks; cbn [is_null mbind res_bind].
  - replace n with (3 * Z.to_nat (sm_top sm + 1) + 13 + (n - (3 * Z.to_nat (sm_top sm + 1) + 13)))%nat by lia.
    rewrite (search_alone _ _ ks) by (done || lia). done.
  - rewrite returned_ret. done.
Qed.

(** ** Two threads at once *)

Lemma run_first n kvp1 kvp2 rest sh p1 p2 :
  run_schedule kvp1 kvp2 (replicate n true ++ rest) (mkRace sh p1 p2)
  = '(pc, sh) ← set_steps n kvp1 p1 sh; run_schedule kvp1 kvp2 rest (mkRace sh pc p2).
Proof.
  revert sh p1. induction n as [|n IH]; intros sh p1; [done|]. cbn [replicate app run_schedule set_steps r_1 r_2 r_sm].
  destruct (set_step kvp1 p1 sh) as [[pc' sh']| |]; cbn [mbind res_bind]; [apply IH|done..].
Qed.

Lemma run_second n kvp1 kvp2 rest sh p1 p2 :
  run_schedule kvp1 kvp2 (replicate n false ++ rest) (mkRace sh p1 p2)
  = '(pc, sh) ← set_steps n kvp2 p2 sh; run_schedule kvp1 kvp2 rest (mkRace sh p1 pc).
Proof.
  revert sh p2. induction n as [|n IH]; intros sh p2; [done|]. cbn [replicate app run_schedule set_steps r_1 r_2 r_sm].
  destruct (set_step kvp2 p2 sh) as [[pc' sh']| |]; cbn [mbind res_bind]; [apply IH|done..].
Qed.

(** A search that finds nothing changes nothing. *)
Lemma scan_steps cmp k v sm (l1 l2 : list (K * option V)) jk :
  sm_keys sm = Some (map kslot (l1 ++ l2) ++ jk) -> sm_top sm = Z.of_nat (length (l1 ++ l2)) - 1 ->
  decides cmp_fptr cmp k l2 -> assoc_find cmp k l2 = None ->
  set_steps (3 * length l2) (mkKVP (Some k) v) (F_loop (Z.of_nat (length l1))) (live sm)
  = Ok (F_loop (Z.of_nat (length (l1 ++ l2))), live sm).
Proof.
  intros Hks Ht Hd. revert l1 Hks Ht. induction Hd as [|p l2 [Hp _] _ IH]; intros l1 Hks Ht Hf.
  - by rewrite app_nil_r.
  - cbn [assoc_find] in Hf. destruct (cmp p.1 k) eqn:Ec; [done|].
    destruct (assoc_find cmp k l2) eqn:Ef; [done|].
    replace (3 * length (p :: l2))%nat with (S (S (S (3 * length l2)))) by (cbn [length]; lia).
    cbn [set_steps set_step mbind res_bind live sh_map]. rewrite Ht, length_app. cbn [length]. if_true.
    cbn [set_step the_keys live keys_freed sh_map]. rewrite Hks. cbn [deref mbind res_bind].
    assert (aread (map kslot (l1 ++ p :: l2) ++ jk) (Z.of_nat (length l1)) = Ok (kslot p)) as Ea
      by (apply map_slot_lookup, list_lookup_middle; done).
    rewrite Ea. cbn [mbind res_bind slot_null kslot set_step the_keys live keys_freed sh_map]. rewrite Hks. cbn [deref mbind res_bind].
    rewrite Ea. cbn [mbind res_bind slot_deref kslot kw_key kvp_key]. rewrite Hp. cbn [mbind res_bind].
    replace (Z.of_nat (length l1) + 1) with (Z.of_nat (length (l1 ++ [p]))) by (rewrite length_app; simpl; lia).
    specialize (IH (l1 ++ [p])). rewrite <- (assoc_L (++)) in IH. cbn [app] in IH.
    rewrite IH by done. by rewrite length_app.
Qed.

(** ... and leads to the store, or, in a full map, to its growth. *)
Definition ready_accesses (l : list (K * option V)) : nat := 1 + (3 * length l + 3).

Lemma search_steps cmp k v sm l :
  smap_repr sm l -> decides cmp_fptr cmp k l -> assoc_find cmp k l = None ->
  set_steps (ready_accesses l) (mkKVP (Some k) v) F_start (live sm)
  = Ok (if __is_full sm then D_check else S_top_read, live sm).
Proof.
  intros R Hd Hf. destruct (repr_not_null _ _ R) as (Ek & Ev & Ec).
  destruct R as (jk & jv & Hk & Hv & Ht & Hc & Hj & Hcap). unfold ready_accesses.
  rewrite steps_add. cbn [set_steps set_step live sh_map]. rewrite Ek. cbn [mbind res_bind]. rewrite steps_add.
  pose proof (scan_steps cmp k v sm [] l jk Hk Ht Hd Hf) as E. cbn [app length] in E.
  change (Z.of_nat 0) with 0 in E. rewrite E. cbn [set_steps set_step mbind res_bind live sh_map].
  if_false. cbn [set_step live sh_map]. by rewrite Ek, Ev, Ec.
Qed.

Lemma ready_steps cmp k v sm l :
  smap_repr sm l -> Z.of_nat (length l) < sm_capacity sm ->
  decides cmp_fptr cmp k l -> assoc_find cmp k l = None ->
  set_steps (ready_accesses l) (mkKVP (Some k) v) F_start (live sm) = Ok (S_top_read, live sm).
Proof.
  intros R Hroom Hd Hf. rewrite (search_steps cmp k v sm l) by done.
  destruct R as (jk & jv & _ & _ & Ht & _). unfold __is_full. by if_false.
Qed.

(** A full map whose keys [realloc] has moved. *)
Lemma grow_steps cmp k v sm l :
  smap_repr sm l -> Z.of_nat (length l) = sm_capacity sm -> 2 * sm_capacity sm <= INT_MAX ->
  heap_grants 0 (2 * sm_capacity sm * sizeof_ptr) = true ->
  decides cmp_fptr cmp k l -> assoc_find cmp k l = None ->
  exists keys, set_steps (ready_accesses l + 2) (mkKVP (Some k) v) F_start (live sm)
    = Ok (D_values (2 * sm_capacity sm) keys, free_keys (live sm)).
Proof.
  intros R Hfull Hmax Hg Hd Hf. destruct (repr_not_null _ _ R) as (Ek & Ev & Ec).
  assert (__is_full sm = true) as Eful.
  { destruct R as (jk & jv & _ & _ & Ht & _). unfold __is_full. apply Z.eqb_eq. lia. }
  pose proof R as (jk & jv & Hk & _). eexists.
  rewrite steps_add, (search_steps cmp k v sm l), Eful by done.
  cbn [set_steps set_step mbind res_bind live sh_map]. rewrite Ek, Ev, Ec, Eful. cbn [negb orb].
  unfold ub_unless. if_true. cbn [mbind res_bind set_step set_steps the_keys live keys_freed sh_map].
  rewrite Hk, Hg. done.
Qed.

(** Both threads have searched and found nothing. *)
Definition both_ready (l : list (K * option V)) : list bool :=
  replicate (ready_accesses l) true ++ replicate (ready_accesses l) false.

Lemma run_both_ready cmp k1 v1 k2 v2 sm l rest :
  smap_repr sm l -> Z.of_nat (length l) < sm_capacity sm ->
  decides cmp_fptr cmp k1 l -> assoc_find cmp k1 l = None ->
  decides cmp_fptr cmp k2 l -> assoc_find cmp k2 l = None ->
  run_schedule (mkKVP (Some k1) v1) (mkKVP (Some k2) v2) (both_ready l ++ rest) (mkRace (live sm) F_start F_start)
  = run_schedule (mkKVP (Some k1) v1) (mkKVP (Some k2) v2) rest (mkRace (live sm) S_top_read S_top_read).
Proof.
  intros R Hroom Hd1 Hf1 Hd2 Hf2. unfold both_ready. rewrite <- (assoc_L (++)), run_first.
  rewrite (ready_steps cmp k1 v1 sm l) by done. cbn [mbind res_bind]. rewrite run_second.
  by rewrite (ready_steps cmp k2 v2 sm l) by done.
Qed.

(** The race of two [set]s whose keys are new. *)
Context (cmp : K -> K -> bool) (l : list (K * option V)) (k1 k2 : K) (v1 v2 : option V).
Context (a b : slot (KeyWrapper K)) (jk : list (slot (KeyWrapper K))).
Context (c d : slot (ValueWrapper V)) (jv : list (slot (ValueWrapper V))) (cap : Z).

Abbreviation len := (Z.of_nat (length l)).
Abbreviation before := (mkSM (Some (map kslot l ++ a :: b :: jk)) (Some (map vslot l ++ c :: d :: jv)) cap (len - 1)).
Abbreviation won rtn k v := (Ret rtn (mkKVP (Some k) v)).

(** Both read [sm->top] before either writes it: they store in the same slot. *)
Definition same_slot : list bool := [true; false; true; false].

Lemma run_same_slot rest :
  run_schedule (mkKVP (Some k1) v1) (mkKVP (Some k2) v2) (same_slot ++ rest) (mkRace (live before) S_top_read S_top_read)
  = run_schedule (mkKVP (Some k1) v1) (mkKVP (Some k2) v2) rest
      (mkRace (live (mkSM (sm_keys before) (sm_values before) cap len)) S_key S_key).
Proof.
  cbn. replace (len - 1 + 1) with len by lia. done.
Qed.

Lemma run_lost_key :
  run_schedule (mkKVP (Some k1) v1) (mkKVP (Some k2) v2) (same_slot ++ [true; true; false; false])
    (mkRace (live before) S_top_read S_top_read)
  = Ok (mkRace (live (mkSM (Some (map kslot (l ++ [(k2, v2)]) ++ b :: jk)) (Some (map vslot (l ++ [(k2, v2)]) ++ d :: jv)) cap len))
          (won SUCESS_SET k1 v1) (won SUCESS_SET k2 v2)).
Proof.
  rewrite run_same_slot. cbn. rewrite awrite_after_map. cbn. rewrite awrite_after_map. cbn.
  rewrite awrite_after_map. cbn. rewrite awrite_after_map. cbn.
  rewrite !map_app, <- !(assoc_L (++)). done.
Qed.

Lemma run_mixed_pair :
  run_schedule (mkKVP (Some k1) v1) (mkKVP (Some k2) v2) (same_slot ++ [true; false; false; true])
    (mkRace (live before) S_top_read S_top_read)
  = Ok (mkRace (live (mkSM (Some (map kslot (l ++ [(k2, v1)]) ++ b :: jk)) (Some (map vslot (l ++ [(k2, v1)]) ++ d :: jv)) cap len))
          (won SUCESS_SET k1 v1) (won SUCESS_SET k2 v2)).
Proof.
  rewrite run_same_slot. cbn. rewrite awrite_after_map. cbn. rewrite awrite_after_map. cbn.
  rewrite awrite_after_map. cbn. rewrite awrite_after_map. cbn.
  rewrite !map_app, <- !(assoc_L (++)). done.
Qed.

(** The second increments before the first stores: both store in the second
    slot, and the first stays as it was. *)
Definition hole : list bool := [true; true; false; false; true; true; false; false].

Lemma run_hole :
  run_schedule (mkKVP (Some k1) v1) (mkKVP (Some k2) v2) hole (mkRace (live before) S_top_read S_top_read)
  = Ok (mkRace (live (mkSM (Some (map kslot l ++ a :: kslot (k2, v2) :: jk)) (Some (map vslot l ++ c :: vslot (k2, v2) :: jv))
                  cap (len + 1)))
          (won SUCESS_SET k1 v1) (won SUCESS_SET k2 v2)).
Proof.
  assert (forall A (x y z : A) m j, length m = length l ->
    awrite (m ++ x :: y :: j) (len + 1) z = Ok (m ++ x :: z :: j)) as Hw.
  { intros A x y z m j Hl. replace (m ++ x :: y :: j) with ((m ++ [x]) ++ y :: j) by (by rewrite <- (assoc_L (++))).
    replace (len + 1) with (Z.of_nat (length (m ++ [x]))) by (rewrite length_app; simpl; lia).
    rewrite awrite_middle. by rewrite <- (assoc_L (++)). }
  unfold hole. cbn. replace (len - 1 + 1) with len by lia.
  rewrite Hw by apply length_map. cbn. rewrite Hw by apply length_map. cbn.
  rewrite Hw by apply length_map. cbn. rewrite Hw by apply length_map. done.
Qed.
End thread.

(** ** What the threads leave behind *)

Section aftermath.
Context {K V : Type} `{Heap}.
Implicit Types (l : list (K * option V)) (cmp : K -> K -> bool) (cmp_fptr : option K -> option K -> res bool).

(** A search that comes to a slot without a wrapper ends there. *)
Lemma find_hole cmp_fptr cmp k l1 l2 a rest top fuel :
  decides cmp_fptr cmp k l2 -> assoc_find cmp k l2 = None -> (forall w, a <> Ptr w) ->
  Z.of_nat (length (l1 ++ l2)) <= top -> (length l2 < fuel)%nat ->
  find_loop fuel (map kslot (l1 ++ l2) ++ a :: rest) top (Some k) cmp_fptr (Z.of_nat (length l1))
  = if a is Null then Ok KEY_ARR_ERROR else UB.
Proof.
  intros Hd. revert l1 fuel. induction Hd as [|p l2 [Hp _] _ IH]; intros l1 fuel Hf Ha Ht Hn;
    (destruct fuel as [|fuel]; [simpl in Hn; lia|]); cbn [find_loop]; rewrite length_app in Ht; cbn [length] in *.
  - if_true. rewrite app_nil_r. rewrite <- (length_map kslot l1), aread_middle.
    destruct a as [| |w]; [done..|]. by destruct (Ha w).
  - if_true. rewrite (map_slot_lookup kslot _ _ _ p) by (by apply list_lookup_middle).
    cbn [assoc_find] in Hf. cbn [mbind res_bind kslot slot_null slot_deref kw_key]. rewrite Hp.
    destruct (cmp p.1 k); [done|]. destruct (assoc_find cmp k l2); [done|]. cbn [mbind res_bind].
    specialize (IH (l1 ++ [p]) fuel). rewrite <- (assoc_L (++)) in IH. cbn [app] in IH.
    replace (Z.of_nat (length l1) + 1) with (Z.of_nat (length (l1 ++ [p]))) by (rewrite length_app; simpl; lia).
    apply IH; [done|done| |lia]. rewrite length_app. cbn [length]. lia.
Qed.

(** C15. Two threads at once: on any map with room for two more keys, two workers
    that set two new keys can both be told that their key is stored, while

    - the first key and its value are gone;
    - or the second key is stored with the value of the first;
    - or [top] has moved by two over a slot that was never written: from then on
      every search for a key that is not among the old ones fails or reads
      indeterminate memory. *)
Theorem unlocked_sets_race cmp_fptr cmp (sm : SimpleMap K V) l k1 v1 k2 v2 :
  smap_repr sm l -> Z.of_nat (length l) + 2 <= sm_capacity sm ->
  decides cmp_fptr cmp k1 l -> assoc_find cmp k1 l = None ->
  decides cmp_fptr cmp k2 l -> assoc_find cmp k2 l = None ->
  (forall ks w, sm_keys sm = Some ks -> aread ks (sm_top sm + 1) <> Ok (Ptr w)) ->
  let kvp1 := mkKVP (Some k1) v1 in
  let kvp2 := mkKVP (Some k2) v2 in
  let ends schedule sm' :=
    run_schedule cmp_fptr kvp1 kvp2 schedule (mkRace (live sm) (set_start kvp1) (set_start kvp2))
    = Ok (mkRace (live sm') (Ret SUCESS_SET kvp1) (Ret SUCESS_SET kvp2)) in
  (exists schedule sm', ends schedule sm' /\ smap_repr sm' (l ++ [(k2, v2)])) /\
  (exists schedule sm', ends schedule sm' /\ smap_repr sm' (l ++ [(k2, v1)])) /\
  (exists schedule sm', ends schedule sm' /\ sm_top sm' = sm_top sm + 2 /\
     forall k, decides cmp_fptr cmp k l -> assoc_find cmp k l = None ->
       __find sm' (Some k) cmp_fptr = Ok KEY_ARR_ERROR \/ __find sm' (Some k) cmp_fptr = UB).
Proof.
  intros R Hroom Hd1 Hf1 Hd2 Hf2 Hslot kvp1 kvp2 ends.
  pose proof (fun rest => run_both_ready cmp_fptr cmp k1 v1 k2 v2 sm l rest R ltac:(lia) Hd1 Hf1 Hd2 Hf2) as Hready.
  destruct R as (ks & vs & Hk & Hv & Ht & Hc & Hj & Hcap).
  destruct ks as [|a [|b jk]]; cbn [length] in *; [lia|lia|]. destruct vs as [|c [|d jv]]; try done.
  destruct sm as [sks svs cap top]. cbn [sm_keys sm_values sm_capacity sm_top] in *. subst sks svs cap top.
  assert (forall x, smap_repr (mkSM (Some (map kslot (l ++ [x]) ++ b :: jk))
    (Some (map vslot (l ++ [x]) ++ d :: jv)) (Z.of_nat (length l + S (S (length jk)))) (Z.of_nat (length l))) (l ++ [x])) as Hr.
  { intros x. exists (b :: jk), (d :: jv). cbn. rewrite length_app. cbn.
    cbn in Hj. split_and!; try done; lia. }
  split_and!.
  - eexists (both_ready l ++ same_slot ++ [true; true; false; false]), _. split.
    + unfold ends. rewrite Hready. apply run_lost_key.
    + apply Hr.
  - eexists (both_ready l ++ same_slot ++ [true; false; false; true]), _. split.
    + unfold ends. rewrite Hready. apply run_mixed_pair.
    + apply Hr.
  - eexists (both_ready l ++ hole), _. split; [|split].
    + unfold ends. rewrite Hready. apply run_hole.
    + cbn. lia.
    + intros k Hd Hf. unfold __find. cbn [is_null sm_keys sm_top].
      pose proof (find_hole cmp_fptr cmp k [] l a (kslot (k2, v2) :: jk) (Z.of_nat (length l) + 1)
        (Z.to_nat (Z.of_nat (length l) + 1 + 1)) Hd Hf) as E.
      cbn [app length] in E. change (Z.of_nat 0) with 0 in E. rewrite E; [by destruct a; auto| |lia|lia].
      intros w ->. eapply (Hslot _ w eq_refl). cbn [sm_top].
      replace (Z.of_nat (length l) - 1 + 1) with (Z.of_nat (length (map kslot l))) by (rewrite length_map; lia).
      apply aread_middle.
Qed.
End aftermath.

(** ** The workers of the program do overlap *)

(** Two connections, and a worker for each. *)
Definition two_served : list action :=
  Acceptor (Some (4, mkTimespec 10 0)) :: replicate 4 (Acceptor None)
  ++ Acceptor (Some (5, mkTimespec 10 0)) :: replicate 4 (Acceptor None)
  ++ replicate 4 (Worker 0) ++ replicate 4 (Worker 1).

(** Nothing keeps both workers of [main] from running [app_code], and so [set],
    at the same time. *)
Lemma workers_overlap :
  exists w : world (QT := list Request), reachable 500 (start_server [] 2) w /\
    w_workers w = [W_serve (mkRequest 4 (mkTimespec 10 0)); W_serve (mkRequest 5 (mkTimespec 10 0))].
Proof.
  exists (default (start_server [] 2) (run_server 500 two_served (start_server [] 2))). split.
  - apply (run_reachable 500 two_served _ (start_server [] 2)); [constructor|]. vm_compute. reflexivity.
  - vm_compute. reflexivity.
Qed.

(** ** Witnesses *)

(** A map of one pair with three free slots, as [realloc] leaves them. *)
Definition sample_shared : SimpleMap nat nat :=
  mkSM (Some [kslot (1%nat, Some 10%nat); Junk; Junk; Junk]) (Some [vslot (1%nat, Some 10%nat); Junk; Junk; Junk]) 4 0.

Lemma sample_shared_repr : smap_repr sample_shared [(1%nat, Some 10%nat)].
Proof. exists [Junk; Junk; Junk], [Junk; Junk; Junk]. vm_compute. repeat split; discriminate. Qed.

Lemma unlocked_sets_race_witness :
  let kvp1 := mkKVP (Some 2%nat) (Some 20%nat) in
  let kvp2 := mkKVP (Some 3%nat) (Some 30%nat) in
  let ends schedule sm' :=
    @run_schedule nat nat generous compare_nat kvp1 kvp2 schedule
      (mkRace (live sample_shared) (set_start kvp1) (set_start kvp2))
    = Ok (mkRace (live sm') (Ret SUCESS_SET kvp1) (Ret SUCESS_SET kvp2)) in
  (exists schedule sm', ends schedule sm' /\ smap_repr sm' ([(1%nat, Some 10%nat)] ++ [(3%nat, Some 30%nat)])) /\
  (exists schedule sm', ends schedule sm' /\ smap_repr sm' ([(1%nat, Some 10%nat)] ++ [(3%nat, Some 20%nat)])) /\
  (exists schedule sm', ends schedule sm' /\ sm_top sm' = sm_top sample_shared + 2 /\
     forall k, decides compare_nat Nat.eqb k [(1%nat, Some 10%nat)] ->
       assoc_find Nat.eqb k [(1%nat, Some 10%nat)] = None ->
       __find sm' (Some k) compare_nat = Ok KEY_ARR_ERROR \/ __find sm' (Some k) compare_nat = UB).
Proof.
  apply (@unlocked_sets_race nat nat generous compare_nat Nat.eqb sample_shared [(1%nat, Some 10%nat)]
           2%nat (Some 20%nat) 3%nat (Some 30%nat)).
  - apply sample_shared_repr.
  - vm_compute. discriminate.
  - constructor; [split; reflexivity|constructor].
  - reflexivity.
  - constructor; [split; reflexivity|constructor].
  - reflexivity.
  - intros ks w [= <-]. discriminate.
Defined.
