(* ===== verification/Reader.v ===== *)
(** [get] beside [set]: two workers in the store at the same time, one of them
    reading. [get] of [simple_map.c] one access at a time, alone and interleaved
    with the thread of [Race]. *)

From S2P Require Import Prelude CLib SimpleMap KeyVal Race.

(** ** [get] as a thread *)

Section thread.
Context {K V : Type} `{Heap}.
Context (cmp_fptr : option K -> option K -> res bool).
Implicit Types (sm : SimpleMap K V) (sh : shared K V) (key : option K).

(** The next access to the map: [GF_] in [__find], then the two reads of the pair. *)
Inductive get_pc :=
  | GF_start
  | GF_loop (i : Z)
  | GF_slot (i : Z)
  | GF_cmp (i : Z)
  | G_key (pos : Z)
  | G_value (pos : Z) (kvp_key : option K)
  | G_ret (rtn : option (KeyValuePair K V)).

Definition get_start key : get_pc := if is_null key then G_ret None else GF_start.

(** One access; a reader leaves the map as it is. *)
Definition get_step key (pc : get_pc) sh : res get_pc :=
  let sm := sh_map sh in
  match pc with
  | GF_start => Ok (if is_null (sm_keys sm) then G_ret None else GF_loop 0)
  | GF_loop i => Ok (if i <=? sm_top sm then GF_slot i else G_ret None)
  | GF_slot i =>
      ks ← the_keys sh;
      s ← aread ks i;
      null ← slot_null s;
      Ok (if (null : bool) then G_ret None else GF_cmp i)
  | GF_cmp i =>
      ks ← the_keys sh;
      s ← aread ks i;
      w ← slot_deref s;
      equal ← cmp_fptr (kw_key w) key;
      Ok (if (equal : bool) then G_key i else GF_loop (i + 1))
  | G_key pos =>
      ks ← the_keys sh;
      s ← aread ks pos; w ← slot_deref s;
      Ok (G_value pos (kw_key w))
  | G_value pos kvp_key =>
      vs ← the_values sh;
      s ← aread vs pos; w ← slot_deref s;
      Ok (G_ret (Some (mkKVP kvp_key (vw_value w))))
  | G_ret _ => Ok pc
  end.

Fixpoint get_steps (n : nat) key (pc : get_pc) sh : res get_pc :=
  match n with
  | O => Ok pc
  | S n => pc ← get_step key pc sh; get_steps n key pc sh
  end.

Definition got (o : res get_pc) : res (option (KeyValuePair K V)) :=
  pc ← o; match pc with G_ret rtn => Ok rtn | _ => OOF end.

(** ** A writer and a reader *)

Record pair_of := mkPair { p_sm : shared K V; p_set : @set_pc K V; p_get : get_pc }.

(** [true] is a step of the writer. *)
Fixpoint run_pair (kvp : KeyValuePair K V) key (schedule : list bool) (r : pair_of) : res pair_of :=
  match schedule with
  | [] => Ok r
  | true :: schedule =>
      '(pc, sh) ← set_step cmp_fptr kvp (p_set r) (p_sm r);
      run_pair kvp key schedule (mkPair sh pc (p_get r))
  | false :: schedule =>
      pc ← get_step key (p_get r) (p_sm r);
      run_pair kvp key schedule (mkPair (p_sm r) (p_set r) pc)
  end.

(** ** The reader alone is [get] *)

Lemma got_ret n key o sh : got (get_steps n key (G_ret o) sh) = Ok o.
Proof. induction n as [|n IH]; [done|]. exact IH. Qed.

Definition get_rest sm (pos : Z) : res (option (KeyValuePair K V)) :=
  if (pos =? KEY_NOT_FOUND) || (pos =? FIND_KEY_ERROR) || (pos =? KEY_ARR_ERROR) then Ok None
  else
    ks ← deref (sm_keys sm);
    vs ← deref (sm_values sm);
    kslot ← aread ks pos; kw ← slot_deref kslot;
    vslot ← aread vs pos; vw ← slot_deref vslot;
    Ok (Some (mkKVP (kw_key kw) (vw_value vw))).

Lemma pair_alone f key sm ks pos :
  sm_keys sm = Some ks -> 0 <= pos ->
  got (get_steps (2 + f) key (G_key pos) (live sm)) = get_rest sm pos.
Proof.
  intros Hks Hp. unfold get_rest, KEY_NOT_FOUND, FIND_KEY_ERROR, KEY_ARR_ERROR.
  replace (pos =? -3) with false by lia. replace (pos =? -1) with false by lia.
  replace (pos =? -2) with false by lia. cbn [orb].
  destruct sm as [sks [vs|] cap top]; cbn in Hks; subst sks; cbn.
  - destruct (aread ks pos) as [[| |[k]]| |]; try done. cbn.
    destruct (aread vs pos) as [[| |[v]]| |]; try done. apply got_ret.
  - pose proof (aread_not_OOF ks pos). destruct (aread ks pos) as [[| |[k]]|fault|] eqn:E; try done.
    by apply aread_stops in E as ->.
Qed.

Lemma get_search_alone n sm ks key i f :
  is_null key = false -> sm_keys sm = Some ks -> 0 <= i -> (Z.to_nat (sm_top sm + 1 - i) <= n)%nat ->
  got (get_steps (3 * n + 3 + f) key (GF_loop i) (live sm))
  = pos ← find_loop n ks (sm_top sm) key cmp_fptr i; get_rest sm pos.
Proof.
  intros Hk Hks. revert i. induction n as [|n IH]; intros i Hi Hn.
  - change (3 * 0 + 3 + f)%nat with (S (2 + f)). cbn [get_steps get_step find_loop mbind res_bind live sh_map].
    case_if; [lia|]. apply got_ret.
  - replace (3 * S n + 3 + f)%nat with (S (S (S (3 * n + 3 + f)))) by lia.
    cbn [get_steps get_step find_loop mbind res_bind live sh_map]. case_if; [|exact (got_ret (S (S (3 * n + 3 + f))) _ _ _)].
    cbn [get_steps get_step the_keys live keys_freed sh_map]. rewrite Hks. cbn [deref mbind res_bind].
    destruct (aread ks i) as [[| |w]| |] eqn:Ea; try done; cbn [mbind res_bind slot_null slot_deref get_step the_keys live keys_freed sh_map].
    + exact (got_ret _ _ _ _).
    + rewrite Hks. cbn [deref mbind res_bind]. rewrite Ea. cbn [slot_deref mbind res_bind].
      destruct key as [k|]; [|done].
      destruct (cmp_fptr (kw_key w) (Some k)) as [[]| |]; cbn [mbind res_bind got]; try done.
      * replace (3 * n + 3 + f)%nat with (2 + (3 * n + 1 + f))%nat by lia. by apply (pair_alone _ _ _ ks).
      * by apply IH; lia.
Qed.
(** The number of accesses that is enough. *)
Definition get_accesses sm : nat := 3 * Z.to_nat (sm_top sm + 1) + 4.

Lemma get_alone sm key n :
  (get_accesses sm <= n)%nat -> got (get_steps n key (get_start key) (live sm)) = get sm key cmp_fptr.
Proof.
  intros Hn. unfold get, get_start. destruct (is_null key) eqn:Hk; [apply got_ret|].
  unfold get_accesses in Hn. destruct n as [|n]; [lia|]. cbn [get_steps get_step mbind res_bind live sh_map].
  unfold __find. rewrite Hk. destruct (sm_keys sm) as [ks|] eqn:Hks; cbn [is_null mbind res_bind].
  - replace n with (3 * Z.to_nat (sm_top sm + 1) + 3 + (n - (3 * Z.to_nat (sm_top sm + 1) + 3)))%nat by lia.
    rewrite (get_search_alone _ _ ks) by (done || lia). unfold get_rest. by rewrite Hks.
  - apply got_ret.
Qed.
End thread.

(** ** The first pair of a key *)

Section first.
Context {K V : Type}.
Implicit Types (l : list (K * option V)) (cmp : K -> K -> bool).

Lemma assoc_find_none cmp k l i p : assoc_find cmp k l = None -> l !! i = Some p -> cmp p.1 k = false.
Proof.
  revert i. induction l as [|p' l IH]; intros i Hf Hi; [done|]. simpl in Hf.
  destruct (cmp p'.1 k) eqn:Ec; [done|]. destruct (assoc_find cmp k l); [done|].
  destruct i as [|i]; simpl in Hi; [by simplify_eq|by eapply IH].
Qed.

Lemma assoc_find_before cmp k l q i p :
  assoc_find cmp k l = Some q -> l !! i = Some p -> (i <= q)%nat -> cmp p.1 k = bool_decide (i = q).
Proof.
  revert q i. induction l as [|p' l IH]; intros q i Hf Hi Hle; [done|]. simpl in Hf.
  destruct (cmp p'.1 k) eqn:Ec.
  - injection Hf as <-. destruct i; [|lia]. simpl in Hi. by simplify_eq.
  - destruct (assoc_find cmp k l) as [q'|] eqn:Ef; [|done]. injection Hf as <-.
    destruct i as [|i]; simpl in Hi; [by simplify_eq|]. rewrite (IH q' i) by (done || lia).
    apply bool_decide_ext. lia.
Qed.
End first.

(** ** A writer of a new key and a reader *)

Section beside.
Context {K V : Type} `{Heap}.
Context (cmp_fptr : option K -> option K -> res bool) (cmp : K -> K -> bool).
Context (l : list (K * option V)) (k1 : K) (v1 : option V).
Context (a : slot (KeyWrapper K)) (jk : list (slot (KeyWrapper K))).
Context (b : slot (ValueWrapper V)) (jv : list (slot (ValueWrapper V))) (cap : Z).
Context (Hroom : Z.of_nat (length l) < cap).
Context (Hnew : decides cmp_fptr cmp k1 l) (Hnone : assoc_find cmp k1 l = None).

Abbreviation len := (Z.of_nat (length l)).
Abbreviation kvp1 := (mkKVP (Some k1) v1).
Abbreviation ks0 := (map kslot l ++ a :: jk).
Abbreviation vs0 := (map vslot l ++ b :: jv).
Abbreviation ks1 := (map kslot l ++ kslot (k1, v1) :: jk).
Abbreviation vs1 := (map vslot l ++ vslot (k1, v1) :: jv).
Abbreviation before := (mkSM (Some ks0) (Some vs0) cap (len - 1)).

(** Where the writer is, and what it has done to the map so far. *)
Inductive writer_at : @set_pc K V -> shared K V -> Prop :=
  | At_start : writer_at F_start (live before)
  | At_loop (i : nat) : (i <= length l)%nat -> writer_at (F_loop (Z.of_nat i)) (live before)
  | At_slot (i : nat) : (i < length l)%nat -> writer_at (F_slot (Z.of_nat i)) (live before)
  | At_cmp (i : nat) : (i < length l)%nat -> writer_at (F_cmp (Z.of_nat i)) (live before)
  | At_check : writer_at S_check (live before)
  | At_full : writer_at S_full (live before)
  | At_top_read : writer_at S_top_read (live before)
  | At_top_write : writer_at (S_top_write (len - 1)) (live before)
  | At_key : writer_at S_key (live (mkSM (Some ks0) (Some vs0) cap len))
  | At_value : writer_at S_value (live (mkSM (Some ks1) (Some vs0) cap len))
  | At_end : writer_at (Ret SUCESS_SET kvp1) (live (mkSM (Some ks1) (Some vs1) cap len)).

Lemma writer_step pc sh :
  writer_at pc sh -> exists pc' sh', set_step cmp_fptr kvp1 pc sh = Ok (pc', sh') /\ writer_at pc' sh'.
Proof.
  intros [|i Hi|i Hi|i Hi| | | | | | |]; cbn [set_step the_keys the_values live keys_freed values_freed sh_map sm_keys sm_values sm_capacity sm_top is_null
    deref mbind res_bind].
  - eexists _, _. split; [done|]. apply (At_loop 0). lia.
  - eexists _, _. split; [done|]. case_if; [apply At_slot; lia|apply At_check].
  - destruct (lookup_lt_is_Some_2 l i Hi) as [p Ep]. rewrite (map_slot_lookup kslot _ _ _ _ Ep).
    eexists _, _. split; [done|]. by apply At_cmp.
  - destruct (lookup_lt_is_Some_2 l i Hi) as [p Ep]. rewrite (map_slot_lookup kslot _ _ _ _ Ep).
    cbn [kslot slot_deref kw_key kvp_key mbind res_bind].
    rewrite (proj1 (Forall_lookup_1 _ _ _ _ Hnew Ep)), (assoc_find_none _ _ _ _ _ Hnone Ep).
    eexists _, _. split; [done|]. replace (Z.of_nat i + 1) with (Z.of_nat (S i)) by lia. apply At_loop. lia.
  - eexists _, _. split; [done|]. if_false. apply At_full.
  - eexists _, _. split; [done|]. unfold __is_full. cbn [sm_capacity sm_top]. if_false. apply At_top_read.
  - eexists _, _. split; [done|]. apply At_top_write.
  - eexists _, _. split; [done|]. replace (len - 1 + 1) with len by lia. apply At_key.
  - rewrite awrite_after_map. eexists _, _. split; [done|]. apply At_value.
  - rewrite awrite_after_map. eexists _, _. split; [done|]. apply At_end.
  - eexists _, _. split; [done|]. apply At_end.
Qed.

(** The old pairs are where they were, all the time. *)
Lemma writer_keeps pc sh :
  writer_at pc sh ->
  exists jk' jv' top', sh = live (mkSM (Some (map kslot l ++ jk')) (Some (map vslot l ++ jv')) cap top') /\ len - 1 <= top'.
Proof. intros []; eexists _, _, _; (split; [reflexivity|lia]). Qed.

(** The reader of an old key, which is at [q], and how far it has to go. *)
Context (k : K) (q : nat) (p : K * option V).
Context (Hold : decides cmp_fptr cmp k l) (Hq : assoc_find cmp k l = Some q) (Hp : l !! q = Some p).

Inductive reader_at : @get_pc K V -> nat -> Prop :=
  | Rd_start : reader_at GF_start (3 * q + 6)
  | Rd_loop (i : nat) : (i <= q)%nat -> reader_at (GF_loop (Z.of_nat i)) (3 * (q - i) + 5)
  | Rd_slot (i : nat) : (i <= q)%nat -> reader_at (GF_slot (Z.of_nat i)) (3 * (q - i) + 4)
  | Rd_cmp (i : nat) : (i <= q)%nat -> reader_at (GF_cmp (Z.of_nat i)) (3 * (q - i) + 3)
  | Rd_key : reader_at (G_key (Z.of_nat q)) 2
  | Rd_value : reader_at (G_value (Z.of_nat q) (Some p.1)) 1
  | Rd_end : reader_at (G_ret (Some (mkKVP (Some p.1) p.2))) 0.

Lemma reader_step pc n wpc sh :
  writer_at wpc sh -> reader_at pc n ->
  exists pc' n', get_step cmp_fptr (Some k) pc sh = Ok pc' /\ reader_at pc' n' /\ (n' <= n - 1)%nat.
Proof.
  intros (jk' & jv' & top' & -> & Ht)%writer_keeps. pose proof (lookup_lt_Some _ _ _ Hp) as Hlt.
  intros [|i Hi|i Hi|i Hi| | |];
    cbn [get_step the_keys the_values live keys_freed values_freed sh_map sm_keys sm_values sm_top is_null deref mbind res_bind].
  - eexists _, _. split; [done|]. split; [apply (Rd_loop 0); lia|lia].
  - if_true. eexists _, _. split; [done|]. split; [by apply Rd_slot|lia].
  - destruct (lookup_lt_is_Some_2 l i ltac:(lia)) as [p' Ep]. rewrite (map_slot_lookup kslot _ _ _ _ Ep).
    eexists _, _. split; [done|]. split; [by apply Rd_cmp|lia].
  - destruct (lookup_lt_is_Some_2 l i ltac:(lia)) as [p' Ep]. rewrite (map_slot_lookup kslot _ _ _ _ Ep).
    cbn [kslot slot_deref kw_key mbind res_bind].
    rewrite (proj1 (Forall_lookup_1 _ _ _ _ Hold Ep)), (assoc_find_before _ _ _ _ _ _ Hq Ep Hi).
    case_bool_decide as E; eexists _, _; (split; [done|]); [subst i; split; [apply Rd_key|lia]|].
    replace (Z.of_nat i + 1) with (Z.of_nat (S i)) by lia. split; [apply Rd_loop; lia|lia].
  - rewrite (map_slot_lookup kslot _ _ _ _ Hp). eexists _, _. split; [done|]. split; [apply Rd_value|lia].
  - rewrite (map_slot_lookup vslot _ _ _ _ Hp). eexists _, _. split; [done|]. split; [apply Rd_end|lia].
  - eexists _, _. split; [done|]. split; [apply Rd_end|lia].
Qed.

Lemma pair_runs schedule wpc sh pc n :
  writer_at wpc sh -> reader_at pc n ->
  exists r n', run_pair cmp_fptr kvp1 (Some k) schedule (mkPair sh wpc pc) = Ok r /\ reader_at (p_get r) n' /\
    (n' <= n - length (filter (eq false) schedule))%nat.
Proof.
  revert wpc sh pc n. induction schedule as [|[] schedule IH]; intros wpc sh pc n Hw Hr; cbn [run_pair p_sm p_set p_get].
  - eexists _, n. split; [done|]. split; [done|]. simpl. lia.
  - destruct (writer_step _ _ Hw) as (wpc' & sh' & -> & Hw'). cbn [mbind res_bind].
    rewrite filter_cons_False by done. by apply IH with (n := n).
  - destruct (reader_step _ _ _ _ Hw Hr) as (pc' & n' & -> & Hr' & Hn'). cbn [mbind res_bind].
    destruct (IH _ _ _ _ Hw Hr') as (r & m & E & Hm & Hle). exists r, m. split; [done|]. split; [done|].
    rewrite filter_cons_True by done. cbn [length]. lia.
Qed.
End beside.

(** ** A reader of the new key *)

Section half.
Context {K V : Type} `{Heap}.
Context (cmp_fptr : option K -> option K -> res bool) (cmp : K -> K -> bool).
Implicit Types (sm : SimpleMap K V) (kvp : KeyValuePair K V) (l : list (K * option V)).
Implicit Types (v : option V) (b : slot (ValueWrapper V)).

Lemma run_writer n kvp key rest sh wpc pc :
  run_pair cmp_fptr kvp key (replicate n true ++ rest) (mkPair sh wpc pc)
  = '(wpc, sh) ← set_steps cmp_fptr n kvp wpc sh; run_pair cmp_fptr kvp key rest (mkPair sh wpc pc).
Proof.
  revert sh wpc. induction n as [|n IH]; intros sh wpc; [done|]. cbn [replicate app run_pair set_steps p_sm p_set p_get].
  destruct (set_step cmp_fptr kvp wpc sh) as [[wpc' sh']| |]; cbn [mbind res_bind]; [apply IH|done..].
Qed.

Lemma run_reader n kvp key sh wpc pc :
  run_pair cmp_fptr kvp key (replicate n false) (mkPair sh wpc pc)
  = pc ← get_steps cmp_fptr n key pc sh; Ok (mkPair sh wpc pc).
Proof.
  revert pc. induction n as [|n IH]; intros pc; [done|]. cbn [replicate run_pair get_steps p_sm p_set p_get].
  destruct (get_step cmp_fptr key pc sh) as [pc'| |]; cbn [mbind res_bind]; [apply IH|done..].
Qed.

Lemma got_UB (o : res (@get_pc K V)) : got o = UB -> o = UB.
Proof. destruct o as [[]|f|]; cbn; congruence. Qed.

(** A search in a map whose new key is there and whose new value is not. *)
Lemma get_half l k1 v1 k jk b jv cap :
  decides cmp_fptr cmp k (l ++ [(k1, v1)]) -> assoc_find cmp k l = None -> cmp k1 k = true ->
  (forall w, b <> Ptr w) ->
  get (mkSM (Some (map kslot l ++ kslot (k1, v1) :: jk)) (Some (map vslot l ++ b :: jv)) cap (Z.of_nat (length l)))
    (Some k) cmp_fptr = UB.
Proof.
  intros Hd Hf Hk Hb. unfold get, __find. cbn [is_null sm_keys sm_top].
  pose proof (find_loop_spec cmp_fptr cmp k [] _ jk _ Hd eq_refl) as E. rewrite assoc_find_app in E by done.
  cbn [assoc_find fst app] in E. rewrite Hk, map_app, <- (assoc_L (++)) in E. cbn [map app fmap option_fmap option_map] in E.
  rewrite length_app in E. cbn [length] in E.
  replace (Z.of_nat (length l + 1) - 1) with (Z.of_nat (length l)) in E by lia.
  replace (Z.to_nat (Z.of_nat (length l) + 1)) with (length l + 1)%nat by lia.
  change (Z.of_nat 0) with 0 in E. rewrite E. cbn [mbind res_bind]. rewrite Nat.add_0_r, Nat.add_0_l.
  unfold KEY_NOT_FOUND, FIND_KEY_ERROR, KEY_ARR_ERROR.
  if_false. cbn [sm_keys sm_values deref mbind res_bind].
  rewrite aread_after_map. cbn [mbind res_bind slot_deref kslot]. rewrite aread_after_map. cbn [mbind res_bind].
  destruct b as [| |w]; [done..|]. by destruct (Hb w).
Qed.

(** A reader of a stored key, beside the writer. *)
Lemma get_old l k1 v1 k p schedule sm :
  smap_repr sm l -> Z.of_nat (length l) < sm_capacity sm ->
  decides cmp_fptr cmp k1 l -> assoc_find cmp k1 l = None ->
  decides cmp_fptr cmp k l -> assoc_get cmp k l = Some p ->
  exists r, run_pair cmp_fptr (mkKVP (Some k1) v1) (Some k) schedule
      (mkPair (live sm) (set_start (mkKVP (Some k1) v1)) (get_start (Some k))) = Ok r /\
    ((get_accesses sm <= length (filter (eq false) schedule))%nat ->
     p_get r = G_ret (Some (mkKVP (Some p.1) p.2))).
Proof.
  intros (ks & vs & Hk & Hv & Ht & Hc & Hj & Hcap) Hroom Hd1 Hf1 Hd Hp.
  destruct ks as [|a jk]; cbn [length] in *; [lia|]. destruct vs as [|b jv]; [done|].
  destruct sm as [sks svs cap top]. cbn [sm_keys sm_values sm_capacity sm_top] in *. subst sks svs top.
  unfold assoc_get in Hp. destruct (assoc_find cmp k l) as [q|] eqn:Hq; [|done].
  destruct (pair_runs cmp_fptr cmp l k1 v1 a jk b jv cap Hroom Hd1 Hf1 k q p Hd Hq Hp schedule F_start
    (live (mkSM (Some (map kslot l ++ a :: jk)) (Some (map vslot l ++ b :: jv)) cap (Z.of_nat (length l) - 1)))
    GF_start (3 * q + 6)) as (r & n & E & Hr & Hn); [constructor..|].
  exists r. split; [exact E|]. intros Hacc. unfold get_accesses in Hacc. cbn [sm_top] in Hacc.
  apply lookup_lt_Some in Hp. assert (n = 0)%nat as -> by lia. inversion Hr; try done; lia.
Qed.

(** A reader of the new key, between the two stores of the writer. *)
Lemma get_new l k1 v1 k sm :
  smap_repr sm l -> Z.of_nat (length l) < sm_capacity sm ->
  decides cmp_fptr cmp k1 l -> assoc_find cmp k1 l = None ->
  (forall vs w, sm_values sm = Some vs -> aread vs (sm_top sm + 1) <> Ok (Ptr w)) ->
  decides cmp_fptr cmp k (l ++ [(k1, v1)]) -> assoc_find cmp k l = None -> cmp k1 k = true ->
  exists schedule, run_pair cmp_fptr (mkKVP (Some k1) v1) (Some k) schedule
    (mkPair (live sm) (set_start (mkKVP (Some k1) v1)) (get_start (Some k))) = UB.
Proof.
  intros R Hroom Hd1 Hf1 Hslot Hd Hf Heq. pose proof (ready_steps cmp_fptr cmp k1 v1 sm l R Hroom Hd1 Hf1) as Hready.
  destruct R as (ks & vs & Hk & Hv & Ht & Hc & Hj & Hcap).
  destruct ks as [|a jk]; cbn [length] in *; [lia|]. destruct vs as [|b jv]; [done|].
  destruct sm as [sks svs cap top]. cbn [sm_keys sm_values sm_capacity sm_top] in *. subst sks svs top.
  exists (replicate (ready_accesses l) true ++ replicate 3 true ++ replicate (3 * length l + 7) false).
  unfold set_start. cbn [is_null kvp_key]. rewrite run_writer, Hready. cbn [mbind res_bind]. rewrite run_writer.
  cbn [set_steps set_step the_keys live put_top put_keys keys_freed values_freed sh_map sm_keys sm_values sm_capacity
    sm_top deref mbind res_bind].
  replace (Z.of_nat (length l) - 1 + 1) with (Z.of_nat (length l)) in * by lia.
  rewrite awrite_after_map. cbn [mbind res_bind]. rewrite run_reader.
  rewrite (got_UB (get_steps _ _ _ _ _)); [done|].
  etransitivity; [|apply (get_half l k1 v1 k jk b jv cap); [done..|]].
  - apply get_alone. unfold get_accesses. cbn [sm_top]. lia.
  - intros w ->. apply (Hslot _ w eq_refl). apply aread_after_map.
Qed.

(** ** Properties *)

(** C26. The threads of the store alone: a worker that runs [set] or [get] access
    by access, while no other touches the map, does what [set] and [get] do,
    undefined behaviour included, after at most three accesses per stored key
    and fourteen, or four, more; and no pointer of the map is left dangling. *)
Theorem store_threads_alone sm kvp key n :
  (set_accesses sm <= n)%nat ->
  returned (set_steps cmp_fptr n kvp (set_start kvp) (live sm)) = on_live (set sm kvp cmp_fptr) /\
  got (get_steps cmp_fptr n key (get_start key) (live sm)) = get sm key cmp_fptr.
Proof.
  intros Hn. split; [by apply set_alone|]. apply get_alone. unfold set_accesses, get_accesses in *. lia.
Qed.

(** A reader that comes while the keys are being moved. *)
Lemma get_moving l k1 v1 k sm :
  smap_repr sm l -> Z.of_nat (length l) = sm_capacity sm -> 2 * sm_capacity sm <= INT_MAX ->
  heap_grants 0 (2 * sm_capacity sm * sizeof_ptr) = true ->
  decides cmp_fptr cmp k1 l -> assoc_find cmp k1 l = None ->
  run_pair cmp_fptr (mkKVP (Some k1) v1) (Some k) (replicate (ready_accesses l + 2) true ++ replicate 3 false)
    (mkPair (live sm) (set_start (mkKVP (Some k1) v1)) (get_start (Some k))) = UB.
Proof.
  intros R Hfull Hmax Hg Hd Hf. destruct (grow_steps cmp_fptr cmp k1 v1 sm l R) as [keys E]; try done.
  rewrite run_writer. unfold set_start. cbn [is_null kvp_key]. rewrite E. cbn [mbind res_bind]. rewrite run_reader.
  destruct (repr_not_null _ _ R) as (Ek & _). destruct R as (jk & jv & _ & _ & Ht & _ & _ & Hcap).
  unfold get_start. cbn [is_null get_steps get_step free_keys live sh_map]. rewrite Ek. cbn [mbind res_bind get_step sh_map].
  change (sm_top (sh_map (free_keys (live sm)))) with (sm_top sm).
  by replace (0 <=? sm_top sm) with true by (symmetry; apply Z.leb_le; lia).
Qed.

(** C16. A [get] beside the [set] of a new key:

    - in a map with room for it, whoever asks for a key that is stored already
      gets its pair, whatever the order of the accesses, as soon as enough of
      them are the reader's;
    - in such a map, whoever asks for the new key can come between the two stores
      of [__set]: then the key is found and its value is a null or indeterminate
      pointer, which [get] dereferences;
    - in a full map whose growth is granted, whoever asks for any key, stored or
      not, can come between the [realloc] of the keys and the store of its
      result: then [get] reads the array that is no longer there. *)
Theorem get_beside_set sm l k1 v1 :
  smap_repr sm l -> decides cmp_fptr cmp k1 l -> assoc_find cmp k1 l = None ->
  let kvp1 := mkKVP (Some k1) v1 in
  let run k schedule :=
    run_pair cmp_fptr kvp1 (Some k) schedule (mkPair (live sm) (set_start kvp1) (get_start (Some k))) in
  (Z.of_nat (length l) < sm_capacity sm -> forall k p schedule,
     decides cmp_fptr cmp k l -> assoc_get cmp k l = Some p ->
     exists r, run k schedule = Ok r /\
       ((get_accesses sm <= length (filter (eq false) schedule))%nat ->
        p_get r = G_ret (Some (mkKVP (Some p.1) p.2)))) /\
  (Z.of_nat (length l) < sm_capacity sm ->
     (forall vs w, sm_values sm = Some vs -> aread vs (sm_top sm + 1) <> Ok (Ptr w)) -> forall k,
     decides cmp_fptr cmp k (l ++ [(k1, v1)]) -> assoc_find cmp k l = None -> cmp k1 k = true ->
     exists schedule, run k schedule = UB) /\
  (Z.of_nat (length l) = sm_capacity sm -> 2 * sm_capacity sm <= INT_MAX ->
     heap_grants 0 (2 * sm_capacity sm * sizeof_ptr) = true -> forall k,
     exists schedule, run k schedule = UB).
Proof.
  intros R Hd1 Hf1 kvp1 run. split_and!.
  - intros Hroom k p schedule Hd Hp. by apply (get_old l k1 v1).
  - intros Hroom Hslot k Hd Hf Heq. by apply (get_new l k1 v1).
  - intros Hfull Hmax Hg k. eexists. by apply (get_moving l).
Qed.
End half.

(** ** Witnesses *)

Lemma store_threads_alone_witness :
  returned (@set_steps nat nat generous compare_nat 17 (mkKVP (Some 2%nat) (Some 20%nat))
    (set_start (mkKVP (Some 2%nat) (Some 20%nat))) (live sample_shared))
  = on_live (@set nat nat generous sample_shared (mkKVP (Some 2%nat) (Some 20%nat)) compare_nat) /\
  got (get_steps compare_nat 17 (Some 1%nat) (get_start (Some 1%nat)) (live sample_shared))
  = get sample_shared (Some 1%nat) compare_nat.
Proof. apply (@store_threads_alone nat nat generous compare_nat). vm_compute. lia. Defined.

(** The map with one more pair than it has room for. *)
Definition full_shared : SimpleMap nat nat :=
  mkSM (Some [kslot (1%nat, Some 10%nat)]) (Some [vslot (1%nat, Some 10%nat)]) 1 0.

Lemma full_shared_repr : smap_repr full_shared [(1%nat, Some 10%nat)].
Proof. exists [], []. vm_compute. repeat split; discriminate. Qed.

Lemma get_beside_set_witness :
  let kvp1 := mkKVP (Some 2%nat) (Some 20%nat) in
  let run sm k schedule :=
    @run_pair nat nat generous compare_nat kvp1 (Some k) schedule
      (mkPair (live sm) (set_start kvp1) (get_start (Some k))) in
  (forall schedule, exists r, run sample_shared 1%nat schedule = Ok r /\
     ((get_accesses sample_shared <= length (filter (eq false) schedule))%nat ->
      p_get r = G_ret (Some (mkKVP (Some 1%nat) (Some 10%nat))))) /\
  (exists schedule, run sample_shared 2%nat schedule = UB) /\
  (exists schedule, run full_shared 1%nat schedule = UB).
Proof.
  assert (decides compare_nat Nat.eqb 2%nat [(1%nat, Some 10%nat)]) as Hd
    by (constructor; [split; reflexivity|constructor]).
  split; [|split].
  - intros schedule.
    apply (@get_beside_set nat nat generous compare_nat Nat.eqb sample_shared [(1%nat, Some 10%nat)] 2%nat (Some 20%nat)
      sample_shared_repr Hd eq_refl) with (p := (1%nat, Some 10%nat)).
    + vm_compute. reflexivity.
    + constructor; [split; reflexivity|constructor].
    + reflexivity.
  - apply (proj1 (proj2 (@get_beside_set nat nat generous compare_nat Nat.eqb sample_shared [(1%nat, Some 10%nat)] 2%nat (Some 20%nat)
      sample_shared_repr Hd eq_refl))).
    + vm_compute. reflexivity.
    + intros vs w [= <-]. discriminate.
    + repeat (constructor; [split; reflexivity|]). constructor.
    + reflexivity.
    + reflexivity.
  - apply (proj2 (proj2 (@get_beside_set nat nat generous compare_nat Nat.eqb full_shared [(1%nat, Some 10%nat)] 2%nat (Some 20%nat)
      full_shared_repr Hd eq_refl))).
    + reflexivity.
    + vm_compute. discriminate.
    + reflexivity.
Defined.
