(* ===== verification/Safety.v ===== *)
(** The types of messages: what [lexer] builds out of any stream, and what the
    server can do with it. *)

From S2P Require Import Prelude CLib Errors Net Protocol SimpleMap KeyVal.
From S2P Require Import SetParser SetExec GetCmd Match Echo Config Dispatch.

(** ** Nodes with the nodes below them *)

Lemma node_nested_ind (P : node -> Prop) :
  (forall c z, P (NBulk c z)) -> (forall l z, Forall P l -> P (NArray l z)) ->
  (forall t z, P (NArrayBase t z)) -> forall n, P n.
Proof.
  intros Hb Ha Hn. fix IH 1. intros [c z|l z|t z]; [apply Hb| |apply Hn].
  apply Ha. induction l as [|n l IHl]; constructor; [apply IH|exact IHl].
Qed.

(** [P] holds of a node and of every node below it. *)
Fixpoint every (P : node -> Prop) (n : node) : Prop :=
  P n /\
  match n with
  | NArray l _ => (fix all (l : list node) : Prop := match l with [] => True | n :: l => every P n /\ all l end) l
  | _ => True
  end.

Lemma every_array P l z : every P (NArray l z) <-> P (NArray l z) /\ Forall (every P) l.
Proof.
  cbn [every]. split; intros [H Hl]; (split; [exact H|]); clear H.
  - induction l as [|n l IH]; [constructor|]. destruct Hl as [Hn Hl]. constructor; [exact Hn|by apply IH].
  - induction Hl as [|n l Hn _ IH]; by split.
Qed.

Lemma every_head P n : every P n -> P n.
Proof. destruct n; by intros [? _]. Qed.

(** The type of a node: a bulk string has a text and carries its size, an array
    has its number of elements (as an [unsigned int]) and is not empty, and the
    content of a nil or empty array is a bare [BaseNode]. *)
Definition node_ok (n : node) : Prop :=
  match n with
  | NBulk (Some c) z => z = Z.of_nat (length c) /\ z <= PROTO_MAX_BULK_SIZE
  | NBulk None _ => False
  | NArray l z => uint32 z = Z.of_nat (length l) /\ l <> []
  | NArrayBase t z => (t = NILL_ARRAY \/ t = EMPTY_ARRAY) /\ z = 1
  end.

Definition typed (n : node) : Prop := every node_ok n.

(** ** A postcondition of a computation *)

(** Whatever [o] returns satisfies [P]. *)
Definition post {A} (P : A -> Prop) (o : res A) : Prop := forall a, o = Ok a -> P a.

Lemma post_ok {A} (P : A -> Prop) a : P a -> post P (Ok a).
Proof. by intros H b [= <-]. Qed.

Lemma post_UB {A} (P : A -> Prop) : post P UB.
Proof. done. Qed.

Lemma post_OOF {A} (P : A -> Prop) : post P OOF.
Proof. done. Qed.

Lemma post_bind {A B} (Q : A -> Prop) (P : B -> Prop) (m : res A) (f : A -> res B) :
  post Q m -> (forall a, Q a -> post P (f a)) -> post P (m ≫= f).
Proof. intros Hm Hf b H. apply bind_Ok_inv in H as (a & E & H). by apply (Hf a (Hm a E)). Qed.

Lemma post_any {A} (m : res A) : post (fun _ => True) m.
Proof. done. Qed.

Create HintDb typing discriminated.
#[local] Hint Resolve post_UB post_OOF post_any : typing.

(** ** What the reader returns *)

Lemma size_loop_range fuel buf n st neg s :
  post (fun p => - 2 ^ 31 <= p.1 < 2 ^ 31) (get_el_size_loop fuel buf n st neg s).
Proof.
  revert buf n st neg s. induction fuel as [|fuel IH]; intros buf n st neg s; [done|].
  cbn [get_el_size_loop]. case_if; [by apply post_ok|].
  destruct (sys_recv true 1 s) as [[[r bytes] e] s1]. case_if; [by apply post_ok|].
  apply (post_bind (fun _ => True)); [done|]. intros buf1 _.
  destruct st; (apply (post_bind (fun _ => True)); [done|]; intros c _);
    repeat (case_decide || case_if); auto; try (by apply post_ok).
  all: apply (post_bind (fun _ => True)); [done|]; intros buf2 _; apply post_ok, int32_range.
Qed.

Lemma get_el_size_range s : post (fun p => - 2 ^ 31 <= p.1 < 2 ^ 31) (get_el_size s).
Proof. apply size_loop_range. Qed.

(** What [recv] reports is what it stores, and never more than asked for. *)
Definition received (n : Z) (p : Z * list byte * Sock) : Prop :=
  p.1.1 = -1 \/ (p.1.1 = Z.of_nat (length p.1.2) /\ p.1.1 <= Z.max 0 n).

Lemma sys_recv_received b n s rtn bytes e s' :
  sys_recv b n s = (rtn, bytes, e, s') -> received n (rtn, bytes, s').
Proof.
  unfold sys_recv, received. destruct (rx s) as [|[x|x] r] eqn:E.
  - intros [= <- <- _ _]. right. simpl. lia.
  - destruct b; [|intros [= <- _ _ _]; by left].
    destruct (take_bytes n (RxByte x :: r)) as [bs' r'] eqn:Et. intros [= <- <- _ _]. right.
    apply take_bytes_split in Et as [_ Hl]. cbn [fst snd]. by split.
  - intros [= <- _ _ _]. by left.
Qed.

Lemma recv_received tm b n k s : post (received n) (recv_resp_fm_clnt tm b n k s).
Proof.
  assert (forall k e s, post (received n) (recv_retry tm k b n e s)) as Hr.
  { clear. induction k as [|k IH]; intros e s; cbn [recv_retry]; [apply post_ok; by left|].
    case_decide; [apply post_ok; by left|]. apply (post_bind (fun _ => True)); [done|]. intros [r s1] _.
    case_if; [apply post_ok; by left|]. destruct (sys_recv b n s1) as [[[rtn bytes] e'] s2] eqn:E.
    case_if; [apply post_ok; by eapply sys_recv_received|apply IH]. }
  unfold recv_resp_fm_clnt. destruct (sys_recv b n s) as [[[rtn bytes] e] s1] eqn:E.
  case_if; [apply post_ok; by eapply sys_recv_received|apply Hr].
Qed.

(** ... so a block that is read completely has its length. *)
Lemma read_exact_length b len s :
  0 <= len -> post (fun p => p.1.1 = 0 \/ p.1.1 = -1 \/ Z.of_nat (length p.1.2) = len) (read_exact_bytes b len s).
Proof.
  intros Hl. unfold read_exact_bytes. apply (post_bind (received len)); [apply recv_received|].
  intros [[rtn bytes] s1] Hr. unfold received in Hr. cbn [fst snd] in Hr.
  repeat case_if; apply post_ok; cbn [fst snd]; auto. right. right. lia.
Qed.

Section lexer.
Context `{Heap}.

Definition returns_typed (o : option node * Sock) : Prop :=
  match o.1 with Some n => typed n | None => True end.

Lemma typed_bulk c z : z = Z.of_nat (length c) -> z <= PROTO_MAX_BULK_SIZE -> typed (NBulk (Some c) z).
Proof. by intros. Qed.

Lemma lex_bulk_typed s : post returns_typed (lex_bulk_str s).
Proof.
  unfold lex_bulk_str. apply (post_bind (fun p => - 2 ^ 31 <= p.1 < 2 ^ 31)); [apply get_el_size_range|].
  intros [z s1] Hz. cbn [fst] in Hz. case_if; [by apply post_ok|]. case_if.
  { apply (post_bind (fun _ => True)); [done|]. intros [ok s2] _. case_if; by apply post_ok. }
  case_if; [by intros o|]. case_if; [by apply post_ok|].
  apply (post_bind (fun p => p.1.1 = 0 \/ p.1.1 = -1 \/ Z.of_nat (length p.1.2) = size_t z)).
  { apply read_exact_length. unfold size_t. apply Z.mod_pos_bound. lia. }
  intros [[rtn buf] s2] Hb. cbn [fst snd] in Hb. case_if; [by apply post_ok|].
  apply (post_bind (fun _ => True)); [done|]. intros [ok s3] _. case_if; [by apply post_ok|].
  apply (post_bind typed).
  - unfold new_bulk_str, ub_unless. case_if; [lia|]. case_if; [|done]. apply post_ok.
    apply typed_bulk; [|lia]. unfold size_t in Hb.
    match goal with H : (_ || _) = false |- _ => apply orb_false_iff in H as [? ?] | _ => idtac end.
    zify_bool. rewrite Z.mod_small in Hb by lia. lia.
  - intros n Hn. by apply post_ok.
Qed.

Lemma elems_not_empty {A} (l : list A) z : uint32 z = Z.of_nat (length l) -> uint32 z <> 0 -> l <> [].
Proof. by intros E Hne ->. Qed.

Lemma lexer_typed fuel :
  (forall s, post returns_typed (lexer fuel s)) /\
  (forall z elems i s, Forall typed elems -> Z.of_nat (length elems) = i -> i <= uint32 z -> uint32 z <> 0 ->
     post returns_typed (lex_elems fuel z elems i s)).
Proof.
  assert (forall z elems i s, Forall typed elems -> Z.of_nat (length elems) = i -> uint32 z <= i ->
    i <= uint32 z -> uint32 z <> 0 -> post returns_typed (Ok (Some (NArray elems z), s))) as Hdone.
  { intros z elems i s Ht Hi Hz Hz' Hne. apply post_ok. apply every_array. split; [|done].
    split; [lia|]. apply (elems_not_empty _ z); [lia|done]. }
  induction fuel as [|fuel [IHl IHe]].
  - split; [done|]. intros z elems i s Ht Hi Hz Hne. cbn [lex_elems]. case_if; [done|]. by eapply Hdone.
  - split.
    + intros s. cbn [lexer]. apply (post_bind (fun p => - 2 ^ 31 <= p.1 < 2 ^ 31)); [apply get_el_size_range|].
      intros [z s1] Hz. cbn [fst] in Hz. case_if; [by apply post_ok|].
      case_if; [by apply post_ok; split; [split; [left|]|]|].
      case_if; [by apply post_ok; split; [split; [right|]|]|].
      apply IHe; [constructor|done|apply uint32_range|]. unfold uint32.
      destruct (Z_lt_ge_dec z 0).
      * replace z with (z + 2 ^ 32 + (-1) * 2 ^ 32) by lia. rewrite Z.mod_add, Z.mod_small; lia.
      * rewrite Z.mod_small; lia.
    + intros z elems i s Ht Hi Hz Hne. cbn [lex_elems]. case_if; [|by eapply Hdone].
      apply (post_bind (fun _ => True)); [done|]. intros [[rtn c] s1] _. case_if.
      { apply (post_bind (fun _ => True)); [done|]. intros f _. by apply post_ok. }
      apply (post_bind returns_typed).
      { repeat case_decide; [apply lex_bulk_typed|apply IHl|done]. }
      intros [[n|] s2] Hn; cbn [returns_typed fst] in Hn.
      * apply IHe; [|rewrite length_app; simpl; lia|lia|done].
        apply Forall_app. split; [done|by constructor].
      * apply (post_bind (fun _ => True)); [done|]. intros f _. by apply post_ok.
Qed.

Lemma lex_typed s n s' : lex s = Ok (Some n, s') -> typed n.
Proof. intros E. exact (proj1 (lexer_typed _) s _ E). Qed.
End lexer.

(** ** Printing and releasing *)

(** Whether a nil or empty array is in the message. *)
Fixpoint has_bare (n : node) : bool :=
  match n with
  | NBulk _ _ => false
  | NArray l _ => existsb has_bare l
  | NArrayBase _ _ => true
  end.

(** [runs o b]: [o] returns, unless [b], when it is undefined. *)
Definition runs {A} (o : res A) (bad : bool) : Prop :=
  if bad then o = UB else exists a, o = Ok a.

Lemma runs_bind {A B} (m : res A) (f : A -> res B) b c :
  runs m b -> (forall a, m = Ok a -> runs (f a) c) -> runs (m ≫= f) (b || c).
Proof.
  unfold runs. intros Hm Hf. destruct b; cbn [orb]; [by rewrite Hm|].
  destruct Hm as [a Ea]. rewrite Ea. by apply Hf.
Qed.

Lemma runs_ok {A} (a : A) : runs (Ok a) false.
Proof. by exists a. Qed.

Lemma print_runs n level : runs (print_node n level) (has_bare n).
Proof.
  revert level. induction n as [c z|l z IH|t z] using node_nested_ind; intros level; [apply runs_ok| |done].
  cbn [print_node has_bare]. rewrite <- (orb_false_r (existsb _ _)). apply runs_bind; [|intros; apply runs_ok].
  generalize 0. induction IH as [|n l Hn _ IHl]; intros i; [apply runs_ok|]. cbn [existsb].
  apply runs_bind; [apply Hn|]. intros t _. rewrite <- (orb_false_r (existsb _ _)).
  apply runs_bind; [apply IHl|]. intros; apply runs_ok.
Qed.

Lemma print_array_runs n : runs (print_array [n] 0) (has_bare n).
Proof.
  unfold print_array, print_nodes. rewrite <- (orb_false_r (has_bare n)).
  apply runs_bind; [apply print_runs|]. intros; apply runs_ok.
Qed.

(** What is released of a message: everything but its [ArrayNode]s. *)
Lemma delete_node_frees n :
  delete_node n = if has_bare n then UB else Ok (filter released (allocated n)).
Proof.
  induction n as [c z|l z IH|t z] using node_nested_ind; [done| |done].
  change (delete_node (NArray l z)) with (freed ← delete_array l; Ok (freed ++ [OBaseNode])).
  assert (delete_array l = if existsb has_bare l then UB else Ok (filter released (objects l))) as ->.
  { induction IH as [|n l Hn _ IHl]; [done|]. cbn [delete_array existsb]. rewrite Hn.
    destruct (has_bare n); [done|]. cbn [mbind res_bind orb]. rewrite IHl.
    destruct (existsb has_bare l); [done|]. cbn [mbind res_bind]. unfold objects. cbn [map concat].
    by rewrite filter_app. }
  cbn [has_bare]. destruct (existsb has_bare l); [done|]. cbn [mbind res_bind].
  change (allocated (NArray l z)) with ((fix go (l : list node) : list object :=
    match l with [] => [] | n :: l => allocated n ++ go l end) l ++ [OBaseNode; OArrayNode]).
  rewrite filter_app. do 2 f_equal. unfold objects. clear. induction l as [|n l IH]; [done|].
  cbn [map concat]. by rewrite !filter_app, IH.
Qed.

Lemma delete_array_frees n :
  delete_array [n] = if has_bare n then UB else Ok (filter released (allocated n)).
Proof.
  cbn [delete_array]. rewrite delete_node_frees. destruct (has_bare n); [done|]. cbn [mbind res_bind].
  by rewrite app_nil_r.
Qed.

(** ** Executing *)

(** A typed message without nil and empty arrays. *)
Definition sound (n : node) : Prop := typed n /\ has_bare n = false.

Lemma sound_array l z : sound (NArray l z) -> Forall sound l.
Proof.
  intros [[_ Ht]%every_array Hb]. cbn [has_bare] in Hb.
  induction Ht as [|n l Hn _ IH]; [constructor|]. cbn [existsb] in Hb. apply orb_false_iff in Hb as [Hb Hbs].
  constructor; [by split|by apply IH].
Qed.

Lemma sound_arg n : sound n -> arg_ok n.
Proof. intros [Hn%every_head _]. by destruct n as [[c|] z| |]. Qed.

Lemma sound_args l : Forall sound l -> Forall arg_ok l.
Proof. intros Hl. eapply Forall_impl; [exact Hl|]. apply sound_arg. Qed.

(** The bytes [ECHO] reserves for a message, from above. *)
Fixpoint echo_bound (n : node) : Z :=
  match n with
  | NBulk c _ => 14 + Z.of_nat (length (default [] c))
  | NArray l _ =>
      23 + (fix go (l : list node) : Z := match l with [] => 0 | n :: l => echo_bound n + go l end) l
  | NArrayBase _ _ => 0
  end.

Fixpoint echo_bounds (l : list node) : Z :=
  match l with [] => 0 | n :: l => echo_bound n + echo_bounds l end.

Lemma echo_bound_array l z : echo_bound (NArray l z) = 23 + echo_bounds l.
Proof. done. Qed.

Lemma echo_bound_nonneg n : 0 <= echo_bound n.
Proof.
  induction n as [c z|l z IH|t z] using node_nested_ind; [simpl; lia| |done].
  rewrite echo_bound_array. enough (0 <= echo_bounds l) by lia.
  induction IH as [|n l Hn _ IHl]; [done|]. cbn [echo_bounds]. lia.
Qed.

Lemma echo_bounds_nonneg l : 0 <= echo_bounds l.
Proof. induction l as [|n l IH]; [done|]. cbn [echo_bounds]. pose proof (echo_bound_nonneg n). lia. Qed.

Lemma strlen_snprintf n text : 0 <= n -> 0 <= strlen (snprintf (n + 1) text) <= n.
Proof.
  intros Hn. unfold strlen, snprintf. pose proof (length_c_str (take (Z.to_nat (n + 1 - 1)) text)).
  rewrite length_take in *. lia.
Qed.

Lemma echo_runs fuel l size :
  (weights l <= fuel)%nat -> Forall sound l -> 0 <= size -> size + echo_bounds l < INT_MAX ->
  exists o size', __handle_echo_cmd fuel l size = Ok (o, size') /\ size <= size' <= size + echo_bounds l.
Proof.
  revert l size. induction fuel as [|fuel IH]; intros l size Hf Hl Hs Hb.
  { destruct l as [|n l]; [|simpl in Hf; pose proof (weight_pos n); lia]. exists None, size. split; [done|simpl; lia]. }
  destruct Hl as [|n l Hn Hl]; [exists None, size; split; [done|simpl; lia]|].
  cbn [weights echo_bounds] in *. pose proof (weight_pos n). pose proof (echo_bounds_nonneg l).
  assert (forall z t, 0 <= z < INT_MAX -> exists r, sprint_alloc z t = Ok r) as Hsprint.
  { intros z t Hz. unfold sprint_alloc, ub_unless. if_true. by eexists. }
  cbn [__handle_echo_cmd]. destruct n as [[c|] z|es z|t z].
  - cbn [echo_bound default id] in *. unfold id in *.
    destruct (IH l size) as (nx & s1 & -> & Hs1); [lia|done|done|lia|]. cbn [mbind res_bind deref].
    pose proof (strlen_snprintf MAX_BYTES_BULK_STR (decimal z)) as Hd. unfold MAX_BYTES_BULK_STR in *.
    assert (0 <= strlen c <= Z.of_nat (length c)) as Hc.
    { unfold strlen. pose proof (length_c_str c). lia. }
    edestruct Hsprint as [r ->]; [|cbn [mbind res_bind]; eexists _, _; split; [done|]]; lia.
  - by destruct Hn as [[? _] _].
  - rewrite echo_bound_array, weight_array in *. pose proof (echo_bounds_nonneg es).
    destruct (IH es size) as (el & s1 & -> & Hs1); [lia|by apply sound_array in Hn|done|lia|]. cbn [mbind res_bind].
    destruct (IH l s1) as (nx & s2 & -> & Hs2); [lia|done|lia|lia|]. cbn [mbind res_bind].
    pose proof (strlen_snprintf MAX_BYTES_ARR_SIZE (decimal z)) as Hd. unfold MAX_BYTES_ARR_SIZE in *.
    edestruct Hsprint as [r ->]; [|cbn [mbind res_bind]; eexists _, _; split; [done|]]; lia.
  - by destruct Hn as [_ ?].
Qed.

Section execution.
Context `{FnmatchLaws} `{Heap}.
Context (cfg : Store) (entries : list entry) (Hcfg : config_ok cfg entries).
Context (Hheap : forall n z, heap_grants n z = true).

Lemma get_runs l sm m now :
  Forall arg_ok l -> holds sm m ->
  exists o sm' log m', handle_get_cmd l sm now = Ok (o, sm', log) /\ holds sm' m' /\ grows sm sm'.
Proof.
  intros Hl Hh. assert ((exists c, l = [bulk c] /\ c <> []) \/ (forall c, l = [bulk c] -> c = [])) as [(c & -> & Hc)|Hn].
  { destruct l as [|[[c|] z| |] [|n l]]; try (by right; intros c').
    destruct (decide (z = Z.of_nat (length c))) as [->|Hz].
    - destruct c as [|b c]; [right; intros c [= <-]; done|]. left. by exists (b :: c).
    - right. intros c' [= -> E]. by rewrite E in Hz. }
  - apply Forall_cons in Hl as [Hl _]. destruct (handle_get_spec c sm m now) as (sm' & log & E & H' & _ & Hg); [|done|].
    + apply (bulk_text_ok c Hl Hc).
    + by eexists _, sm', log, _.
  - rewrite get_refuses by done. by exists None, sm, [], m.
Qed.

Lemma conf_runs l : Forall arg_ok l -> exists o, handle_conf_cmd l cfg = Ok o.
Proof.
  intros Hl. destruct Hcfg as [R He Hne Hn Hsize]. unfold handle_conf_cmd.
  destruct Hl as [|[[c|] z|es z|t z] l Hc Hl]; [by eexists| |done|by eexists..].
  destruct (repr_not_null _ _ R) as (Ek & Ev & _). rewrite Ek, Ev. cbn [orb is_null].
  rewrite search_table_spec by apply config_cmd_options_ok. cbn [mbind res_bind].
  destruct (table_find _ _) as [[]|]; try by eexists.
  destruct l as [|n l].
  - unfold handle_conf_get. by eexists.
  - eexists. apply (conf_get_spec cfg entries (n :: l)); try done. by apply selected_fits.
Qed.

Lemma echo_cmd_runs l :
  Forall sound l -> echo_bounds l < INT_MAX -> exists o, handle_echo_cmd l = Ok o.
Proof.
  intros Hl Hb. unfold handle_echo_cmd.
  destruct (echo_runs (weights l) l 0) as (o & z & -> & _); try done. by eexists.
Qed.

Lemma parse_runs fuel l d sm m now :
  (weights l <= fuel)%nat -> Forall sound l -> echo_bounds l < INT_MAX -> holds sm m -> can_grow sm ->
  exists o sm' log m', parse_loop fuel l d sm cfg now = Ok (o, sm', log) /\ holds sm' m' /\ grows sm sm'.
Proof.
  intros Hf Hl Hb Hh Hg. revert l d Hf Hl Hb. induction fuel as [|fuel IH]; intros l d Hf Hl Hb.
  { destruct l as [|n l]; [|simpl in Hf; pose proof (weight_pos n); lia]. by exists None, sm, [], m. }
  destruct Hl as [|n l Hn Hl]; [by exists None, sm, [], m|]. cbn [weights echo_bounds parse_loop] in *.
  pose proof (echo_bound_nonneg n). pose proof (echo_bounds_nonneg l).
  destruct n as [c z|es z|t z]; [| |by destruct Hn].
  - case_if; [|by exists None, sm, [], m].
    assert (forall o : res (option (list byte)), (exists r, o = Ok r) -> exists a sm' log m',
      (rtn ← o; Ok (rtn, sm, @nil freed)) = Ok (a, sm', log) /\ holds sm' m' /\ grows sm sm') as Hpure.
    { intros o [r ->]. by exists r, sm, [], m. }
    destruct c as [c|]; [|by destruct Hn as [[? _] _]].
    rewrite find_redis_cmd_spec. cbn [mbind res_bind]. apply sound_args in Hl as Hargs.
    destruct (default _ _).
    + by exists None, sm, [], m.
    + apply Hpure. apply echo_cmd_runs; [done|lia].
    + destruct (set_refines l sm m now Hargs Hh Hg) as (sm' & log & -> & H' & Hgr). by eexists _, sm', log, _.
    + by apply (get_runs l sm m).
    + by apply Hpure, conf_runs.
  - rewrite echo_bound_array, weight_array in *. apply IH; [lia|by apply sound_array in Hn|lia].
Qed.

Lemma command_runs n sm m now :
  sound n -> echo_bound n < INT_MAX -> holds sm m -> can_grow sm ->
  exists o sm' log m', parse_command [n] sm cfg now = Ok (o, sm', log) /\ holds sm' m' /\ grows sm sm'.
Proof.
  intros Hn Hb Hh Hg. apply (parse_runs _ _ _ _ m); try done; [by apply Forall_singleton|].
  cbn [echo_bounds]. lia.
Qed.
End execution.

(** ** Properties *)

Section properties.
Context `{Heap}.

(** C11. The type of messages: whatever arrives on a connection, a message that
    [lexer] returns is typed - each bulk string has a text of its size, within
    the limit, each array as many elements as it says. [print_array] and
    [delete_array] run through it, and the latter releases each object once but
    the [ArrayNode]s, which stay allocated; unless a nil or an empty array is
    somewhere in it: then, and only then, both use its bare node as a node. *)
Theorem message_typed s n s' :
  lex s = Ok (Some n, s') ->
  typed n /\
  (if has_bare n then print_array [n] 0 = UB /\ delete_array [n] = UB
   else (exists t, print_array [n] 0 = Ok t) /\ delete_array [n] = Ok (filter released (allocated n))).
Proof.
  intros E. split; [by eapply lex_typed|]. pose proof (print_array_runs n) as Hp.
  pose proof (delete_array_frees n) as Hd. unfold runs in *. by destruct (has_bare n).
Qed.
End properties.

Section type_safety.
Context `{FnmatchLaws} `{Heap}.

(** C4. Type safety of the commands: a typed message without nil and empty arrays
    never goes wrong - any command or none, any number of arguments, nested
    arrays in any place, any depth - and leaves a well-formed store; only the
    size [ECHO] counts in an [int] is bounded. *)
Theorem typed_message_runs cfg entries n sm m now :
  config_ok cfg entries -> (forall n z, heap_grants n z = true) ->
  typed n -> has_bare n = false -> echo_bound n < INT_MAX -> holds sm m -> can_grow sm ->
  exists o sm' log m', parse_command [n] sm cfg now = Ok (o, sm', log) /\ holds sm' m'.
Proof.
  intros Hcfg Hheap Ht Hb Hsize Hh Hg.
  destruct (command_runs cfg entries Hcfg Hheap n sm m now) as (o & sm' & log & m' & E & H' & _); try done.
  by exists o, sm', log, m'.
Qed.
End type_safety.

(** ** Requests that are not typed *)

Section fatal.
Context `{Heap}.

(** The size of an array of one element. *)
Lemma lex_one s r : rx s = rx_data (bs "1" ++ crlf) ++ r ->
  lex s = lex_elems (length (rx s)) 1 [] 0 (with_rx r s).
Proof.
  intros Hrx. unfold lex. cbn [lexer]. by rewrite (get_el_size_decimal 1 s r).
Qed.

(** C36. What a client can send to bring the server down: the empty and the nil
    array are accepted and then used as nodes; the nil bulk string [$-1] makes
    [new_bulk_str] write in front of address 0; and an element that is
    neither a bulk string nor an array leaves [current] without a value. *)
Theorem fatal_requests s r :
  (forall is_nil : bool, rx s = rx_data (bs (if is_nil then "-1" else "0") ++ crlf) ++ r ->
     exists n, lex s = Ok (Some n, with_rx r s) /\ print_array [n] 0 = UB /\ delete_array [n] = UB) /\
  (rx s = rx_data (bs "1" ++ crlf ++ bs "$-1" ++ crlf) ++ r -> lex s = UB) /\
  (forall b, b <> DOLLAR_BYTE -> b <> ASTERISK_BYTE -> rx s = rx_data (bs "1" ++ crlf ++ [b]) ++ r -> lex s = UB).
Proof.
  split_and!.
  - intros is_nil Hrx. by apply (empty_array_is_fatal is_nil).
  - intros Hrx. rewrite (assoc_L (++)), rx_data_app, <- (assoc_L (++)) in Hrx.
    rewrite (lex_one s (rx_data (bs "$-1" ++ crlf) ++ r)) by done. rewrite Hrx.
    change (length (rx_data (bs "1" ++ crlf) ++ ?l)) with (S (S (S (length l)))). cbn [lex_elems].
    change (0 <? uint32 1) with true. cbv iota.
    rewrite (read_byte DOLLAR_BYTE (rx_data (bs "-1" ++ crlf) ++ r)) by done. cbn [mbind res_bind].
    change ((1 =? 0) || (1 =? -1)) with false. cbv iota. rewrite decide_True by done.
    unfold lex_bulk_str. by rewrite (get_el_size_minus_one _ r).
  - intros b Hd Ha Hrx. rewrite (assoc_L (++)), rx_data_app, <- (assoc_L (++)) in Hrx.
    rewrite (lex_one s (rx_data [b] ++ r)) by done. rewrite Hrx.
    change (length (rx_data (bs "1" ++ crlf) ++ ?l)) with (S (S (S (length l)))). cbn [lex_elems].
    change (0 <? uint32 1) with true. cbv iota.
    rewrite (read_byte b r) by done. cbn [mbind res_bind].
    change ((1 =? 0) || (1 =? -1)) with false. cbv iota.
    by rewrite !decide_False by congruence.
Qed.
End fatal.

(** ** Witnesses *)

Definition sample_message : node := NArray [bulk (bs "ECHO"); NArray [bulk (bs "a"); bulk (bs "b")] 2] 2.

Lemma message_typed_witness :
  typed sample_message /\
  (if has_bare sample_message then print_array [sample_message] 0 = UB /\ delete_array [sample_message] = UB
   else (exists t, print_array [sample_message] 0 = Ok t) /\
     delete_array [sample_message] = Ok (filter released (allocated sample_message))).
Proof.
  apply (@message_typed gib_heap (sock_of (tail (encode sample_message))) sample_message (sock_of [])).
  vm_compute. reflexivity.
Defined.

(** [ECHO] with an array among its arguments. *)
Lemma typed_message_runs_witness :
  exists o sm' log m',
    @parse_command glob grants_all [sample_message] create_simple_map sample_map noon = Ok (o, sm', log) /\
    holds sm' m'.
Proof.
  apply (@typed_message_runs glob glob_laws grants_all sample_map sample_config sample_message create_simple_map ∅).
  - apply sample_config_ok.
  - reflexivity.
  - vm_compute. repeat split; discriminate.
  - reflexivity.
  - vm_compute. reflexivity.
  - apply holds_create.
  - apply create_can_grow.
Defined.

Lemma fatal_requests_witness :
  @lex gib_heap (sock_of (bs "1" ++ crlf ++ bs "$-1" ++ crlf)) = UB /\
  @lex gib_heap (sock_of (bs "1" ++ crlf ++ bs ":")) = UB.
Proof.
  split.
  - apply (@fatal_requests gib_heap (sock_of (bs "1" ++ crlf ++ bs "$-1" ++ crlf)) []). reflexivity.
  - apply (@fatal_requests gib_heap (sock_of (bs "1" ++ crlf ++ bs ":")) []) with ":"%byte.
    + discriminate.
    + discriminate.
    + reflexivity.
Defined.
