(* ===== verification/Program.v ===== *)
(** The whole program ([main] of [app.c]): from the command line to the
    answers of the clients. *)

From S2P Require Import Prelude CLib Errors Net Protocol SimpleMap KeyVal Queue.
From S2P Require Import SetParser SetExec GetCmd Match Echo Config Dispatch App Setup.
From S2P Require Import Server Boot Session.

(** The function [main] gives to the workers. *)
Inductive app_function := F_app_code.

Section main.
Context `{Heap}.
#[local] Existing Instance boot_ret.
#[local] Existing Instance boot_bind.

(** [setup(argc, argv, &sm, &config_dict)] and [start_server(&app_code, 10, 500,
    2, 0)] up to its loop: the two globals and what the server has started; the
    inner [None] is a return without a socket. *)
Definition main (answers : list opt_answer) (now : timespec) (getaddrinfo : list byte -> option (list AddrAnswers))
    : @boot app_function (option (Store * Store * (Shared * Z * sockets))) := fun s =>
  r ← setup answers now;
  match r with
  | None => exit_failure s
  | Some (sm, config_dict) =>
      (started ← boot_server (Some F_app_code) 10 500 2 0 getaddrinfo;
       mret (b ← started; Some (sm, config_dict, b))) s
  end.
End main.

Section properties.
Context `{FnmatchLaws} `{Heap}.

(** C1. The program from its start: called with both options, on a machine that
    grants memory and threads and has an address to listen on, [main] reaches
    its loop with the socket of that address; its threads start in the initial world of
    [Server], two workers among them with [app_code] to run; and on the two maps
    it has made, clients served one after the other are sent the answers of the
    abstract server, [CONFIG GET] answering the two options. *)
Theorem program_serves answers now dir dbfilename getaddrinfo fd net clock convs :
  well_formed answers ->
  last_given "d"%byte answers = Some dir -> last_given "c"%byte answers = Some dbfilename ->
  nul_free dir -> nul_free dbfilename ->
  1 <= Z.of_nat (length dir) <= 2 ^ 20 -> 1 <= Z.of_nat (length dbfilename) <= 2 ^ 20 ->
  (forall n z, heap_grants n z = true) ->
  get_server_sock getaddrinfo SERVICE 10 = Some (fd, net) -> fd <> -1 ->
  Forall (Forall sendable) convs -> Z.of_nat (length (concat convs)) <= 2 ^ 28 ->
  exists sm cfg sh s calls s' served sm',
    main answers now getaddrinfo (sys0 []) = Ok (Some (Some (sm, cfg, (sh, fd, net))), s) /\
    run_threads (Boot.started s) s = Ok (Some calls, s') /\
    given sh (mem s') (Some F_app_code) 500 0 2 calls /\
    world_of sh (mem s') calls = Some (start_server [] 2) /\
    serve cfg clock 0 sm (map (fun requests => sock_of (wire requests)) convs) = Ok (served, sm') /\
    let entries := [config_entry (bs "dir") dir now; config_entry (bs "dbfilename") dbfilename now] in
    map tx served = (redis_sessions entries clock 0 convs ∅).1 /\
    holds sm' (redis_sessions entries clock 0 convs ∅).2.
Proof.
  intros Hw Hd Hf Nd Nf Ld Lf Hheap Hsock Hfd Hc Hn.
  destruct (setup_makes_config answers now dir dbfilename) as (cfg & Esetup & Hcfg); try done.
  destruct (boots_all (Some F_app_code) 10 500 2 0 getaddrinfo fd net []) as (sh & s & calls & s' & Eb & Er & Hg & Hworld & _);
    [done|done|lia|by constructor|].
  destruct (serve_simulates cfg _ Hcfg Hheap clock 0 convs 0 create_simple_map ∅) as (served & sm' & Es & Ht & Hh & _).
  - done.
  - apply holds_create.
  - unfold roomy. simpl. lia.
  - exists create_simple_map, cfg, sh, s, calls, s', served, sm'.
    split; [|by repeat (split; [assumption|])]. clear - Esetup Eb.
    unfold main. rewrite Esetup. cbn [mbind res_bind]. change (Z.of_nat 2) with 2 in Eb.
    rewrite (boot_bind_Ok _ _ _ _ _ Eb). reflexivity.
Qed.
End properties.

(** ** Witness *)

Lemma program_serves_witness :
  exists sm cfg sh s calls s' served sm',
    @main grants_all [("d"%byte, Some (bs "/data")); ("c"%byte, Some (bs "a.rdb"))] noon (fun _ => Some [taken_address; free_address]) (sys0 [])
    = Ok (Some (Some (sm, cfg, (sh, 4, sample_sockets))), s) /\
    run_threads (Boot.started s) s = Ok (Some calls, s') /\
    given sh (mem s') (Some F_app_code) 500 0 2 calls /\
    world_of sh (mem s') calls = Some (start_server [] 2) /\
    @serve glob grants_all cfg sample_clock 0 sm (map (fun requests => sock_of (wire requests)) sample_sessions) = Ok (served, sm') /\
    let entries := [config_entry (bs "dir") (bs "/data") noon; config_entry (bs "dbfilename") (bs "a.rdb") noon] in
    map tx served = (@redis_sessions glob entries sample_clock 0 sample_sessions ∅).1 /\
    holds sm' (@redis_sessions glob entries sample_clock 0 sample_sessions ∅).2.
Proof.
  apply (@program_serves glob glob_laws grants_all [("d"%byte, Some (bs "/data")); ("c"%byte, Some (bs "a.rdb"))] noon
           (bs "/data") (bs "a.rdb") (fun _ => Some [taken_address; free_address]) 4 sample_sockets sample_clock sample_sessions).
  - constructor; [split; [right; reflexivity | eexists; reflexivity]|].
    constructor; [split; [left; reflexivity | eexists; reflexivity]|]. constructor.
  - reflexivity.
  - reflexivity.
  - nul_free_literal.
  - nul_free_literal.
  - vm_compute. split; discriminate.
  - vm_compute. split; discriminate.
  - reflexivity.
  - vm_compute. reflexivity.
  - discriminate.
  - repeat (constructor; [repeat (constructor; [split; [discriminate | split; [vm_compute; reflexivity |
      split; [refine (bool_decide_eq_true_1 _ _); vm_compute; reflexivity | vm_compute; reflexivity]]] |]); constructor|]).
    constructor.
  - vm_compute. discriminate.
Defined.
