(* ===== verification/Robust.v ===== *)
(** The request loop on any connection whatever: how it can end. Which messages
    bring the server down ([fatal]), and that nothing else does, but a sleep that is
    interrupted and a peer that is gone when it is answered. *)

From S2P Require Import Prelude CLib Errors Net Protocol SimpleMap KeyVal.
From S2P Require Import SetParser SetExec GetCmd Match Echo Config Dispatch App Termination Safety.

(** ** How a computation on a socket can end *)

(** What is still to come on [s'] was still to come on [s]. *)
Definition follows (s s' : Sock) : Prop :=
  naps s' ⊆ naps s /\ tx_plan s' ⊆ tx_plan s /\ (length (rx s') <= length (rx s))%nat.

#[export] Instance follows_preorder : PreOrder follows.
Proof.
  split; [done|]. intros s1 s2 s3 (Hn & Ht & Hr) (Hn' & Ht' & Hr').
  split_and!; [set_solver|set_solver|lia].
Qed.

(** A computation that starts on [s]: it returns what satisfies [Q]; or it is
    undefined, by an interrupted sleep or because of [bad]; or a send meets a
    closed connection. *)
Definition outcome {A} (s : Sock) (bad : Prop) (Q : A -> Prop) (o : res A) : Prop :=
  match o with
  | Ok a => Q a
  | UB => Some EINTR ∈ naps s \/ bad
  | SIGPIPE => TxErr EPIPE ∈ tx_plan s
  | OOF => True
  end.

(** The usual [Q]: a socket that follows. *)
Definition onwards {A} (s : Sock) (p : A * Sock) : Prop := follows s p.2.

Lemma outcome_bind {A B} s bad (R : A -> Prop) (Q : B -> Prop) (m : res A) (f : A -> res B) :
  outcome s bad R m -> (forall a, m = Ok a -> R a -> outcome s bad Q (f a)) -> outcome s bad Q (m ≫= f).
Proof. destruct m as [a|[]|]; cbn [mbind res_bind outcome]; [|done..]. intros HR Hf. by apply Hf. Qed.

(** ... when the rest starts on a later socket. *)
Lemma outcome_follows {A} s s' (bad bad' : Prop) (Q Q' : A -> Prop) o :
  follows s s' -> (bad' -> bad) -> (forall a, Q' a -> Q a) -> outcome s' bad' Q' o -> outcome s bad Q o.
Proof.
  intros (Hn & Ht & _) Hb HQ. destruct o as [a|[]|]; cbn [outcome]; [apply HQ| |apply Ht|done].
  intros [H'|H']; [left; by apply Hn|right; by apply Hb].
Qed.

Lemma outcome_later {A} s s' (bad : Prop) (o : res (A * Sock)) :
  follows s s' -> outcome s' bad (onwards s') o -> outcome s bad (onwards s) o.
Proof.
  intros Hs. eapply outcome_follows; [exact Hs|done|]. intros p Hp. unfold onwards in *. by etrans.
Qed.

(** ... and for two parts that both hand the socket on. *)
Lemma outcome_seq {A B} s bad (m : res (A * Sock)) (f : A * Sock -> res (B * Sock)) :
  outcome s bad (onwards s) m ->
  (forall a s', m = Ok (a, s') -> follows s s' -> outcome s' bad (onwards s') (f (a, s'))) ->
  outcome s bad (onwards s) (m ≫= f).
Proof.
  intros Hm Hf. eapply outcome_bind; [exact Hm|]. intros [a s'] E Hs. unfold onwards in Hs. cbn [snd] in Hs.
  eapply outcome_later; [exact Hs|]. by apply Hf.
Qed.

(** A step that leaves the socket alone. *)
Lemma outcome_pure {A B} s (bad : Prop) (Q : B -> Prop) (m : res A) (f : A -> res B) :
  m <> SIGPIPE -> (m = UB -> bad) -> (forall a, m = Ok a -> outcome s bad Q (f a)) -> outcome s bad Q (m ≫= f).
Proof.
  destruct m as [a|[]|]; cbn [mbind res_bind outcome]; [|naive_solver..]. intros _ _ Hf. by apply Hf.
Qed.

Lemma outcome_ok {A} s bad (a : A) : outcome s bad (onwards s) (Ok (a, s)).
Proof. cbn [outcome]. unfold onwards. by reflexivity. Qed.

Lemma outcome_returns {A} s s' bad (a : A) : follows s s' -> outcome s bad (onwards s) (Ok (a, s')).
Proof. done. Qed.

Create HintDb outcome discriminated.
#[local] Hint Resolve outcome_ok outcome_returns : outcome.

(** [outcome_tac] follows a function that only calls others on the socket. *)
Ltac outcome_tac :=
  repeat first
    [ solve [auto with outcome]
    | case_if | case_decide
    | apply outcome_seq; [solve [auto with outcome]|intros ? ? ? ?]
    | match goal with |- context [let '(_, _) := ?x in _] => destruct x end ].

(** ** The socket functions *)

Lemma sys_recv_follows b n s rtn bytes e s' : sys_recv b n s = (rtn, bytes, e, s') -> follows s s'.
Proof.
  intros E. apply sys_recv_consumes in E as Hc. unfold consumes in Hc. revert E. unfold sys_recv, follows.
  destruct (rx s) as [|[x|x] r] eqn:Er; [by intros [= _ _ _ <-]; rewrite Er| |].
  - destruct b; [|by intros [= _ _ _ <-]; rewrite Er]. destruct (take_bytes _ _). intros [= _ _ _ <-].
    cbn [naps tx_plan rx with_rx] in *. split_and!; [done|done|lia].
  - intros [= _ _ _ <-]. cbn [naps tx_plan rx with_rx length] in *. split_and!; [done|done|lia].
Qed.

Lemma sys_send_outcome buf s bad : outcome s bad (onwards s) (sys_send buf s).
Proof.
  unfold sys_send, onwards, follows. destruct (tx_plan s) as [|[e|n] p] eqn:E; cbn [outcome snd naps tx_plan rx].
  - split_and!; [done|set_solver|lia].
  - destruct (Z.eqb_spec e EPIPE) as [->|_]; cbn [outcome snd naps tx_plan rx]; rewrite ?E; [by left|].
    split_and!; [done|set_solver|lia].
  - split_and!; [done|set_solver|lia].
Qed.

Lemma msleep_outcome m k s bad : outcome s bad (onwards s) (msleep m k s).
Proof.
  unfold msleep, nanosleep. destruct (naps s) as [|[e|] n] eqn:E.
  - change (negb (0 =? -1)) with true. cbv iota. apply outcome_ok.
  - change (negb (-1 =? -1)) with false. cbv iota. destruct (Z.eqb_spec e EINTR) as [->|_]; cbn [outcome].
    + rewrite E. left. by left.
    + unfold onwards, follows. cbn [snd naps tx_plan rx]. rewrite E. split_and!; [set_solver|done|lia].
  - change (negb (0 =? -1)) with true. cbv iota. cbn [outcome]. unfold onwards, follows.
    cbn [snd naps tx_plan rx]. rewrite E. split_and!; [set_solver|done|lia].
Qed.
#[local] Hint Resolve sys_send_outcome msleep_outcome : outcome.

Lemma recv_retry_outcome tm k b n e s bad : outcome s bad (onwards s) (recv_retry tm k b n e s).
Proof.
  revert e s. induction k as [|k IH]; intros e s; cbn [recv_retry]; [apply outcome_ok|].
  case_decide; [apply outcome_ok|]. apply outcome_seq; [apply msleep_outcome|]. intros r s1 _ _.
  case_if; [apply outcome_ok|]. destruct (sys_recv b n s1) as [[[rtn bytes] e'] s2] eqn:E.
  apply sys_recv_follows in E. case_if; [by apply outcome_returns|].
  by eapply outcome_later.
Qed.

Lemma recv_outcome tm b n k s bad : outcome s bad (onwards s) (recv_resp_fm_clnt tm b n k s).
Proof.
  unfold recv_resp_fm_clnt. destruct (sys_recv b n s) as [[[rtn bytes] e'] s2] eqn:E.
  apply sys_recv_follows in E. case_if; [by apply outcome_returns|].
  eapply outcome_later; [exact E|apply recv_retry_outcome].
Qed.

Lemma send_retry_outcome tm k buf e s bad : outcome s bad (onwards s) (send_retry tm k buf e s).
Proof.
  revert e s. induction k as [|k IH]; intros e s; cbn [send_retry]; [apply outcome_ok|].
  case_decide; [apply outcome_ok|]. apply outcome_seq; [apply msleep_outcome|]. intros r s1 _ _.
  case_if; [apply outcome_ok|]. apply outcome_seq; [apply sys_send_outcome|]. intros [rtn e'] s2 _ _.
  case_if; [apply outcome_ok|apply IH].
Qed.

Lemma send_outcome tm buf k s bad : outcome s bad (onwards s) (send_resp_to_clnt tm buf k s).
Proof.
  unfold send_resp_to_clnt. apply outcome_seq; [apply sys_send_outcome|]. intros [rtn e'] s2 _ _.
  case_if; [apply outcome_ok|apply send_retry_outcome].
Qed.
#[local] Hint Resolve recv_outcome send_outcome : outcome.

Lemma read_exact_outcome b n s bad : outcome s bad (onwards s) (read_exact_bytes b n s).
Proof. unfold read_exact_bytes. apply outcome_seq; [auto with outcome|]. intros [r bytes] s1 _ _. outcome_tac. Qed.
#[local] Hint Resolve read_exact_outcome : outcome.

Lemma terminator_outcome s bad : outcome s bad (onwards s) (is_valid_terminator s).
Proof.
  unfold is_valid_terminator. apply outcome_seq; [auto with outcome|]. intros [r c] s1 _ _.
  case_if; [apply outcome_ok|]. case_decide; [apply outcome_ok|].
  apply outcome_seq; [auto with outcome|]. intros [r' c'] s2 _ _. outcome_tac.
Qed.

(** ** The reader

    Where the reader is undefined, if no sleep is interrupted. *)

(** As many digits as the buffer of [get_el_size] has bytes. *)
Definition long_number (s : Sock) : Prop := MAX_ARRAY_SIZE <= leading_digits (rx s).

Lemma quiet_bind {A B} (Q : B -> Prop) (m : res A) (f : A -> res B) :
  m <> SIGPIPE -> (forall a, f a <> SIGPIPE /\ post Q (f a)) -> m ≫= f <> SIGPIPE /\ post Q (m ≫= f).
Proof. intros Hm Hf. destruct m as [a|[]|]; [apply Hf|done..]. Qed.

Lemma size_loop_quiet fuel buf n st neg s0 s :
  follows s0 s -> get_el_size_loop fuel buf n st neg s <> SIGPIPE /\
  post (onwards s0) (get_el_size_loop fuel buf n st neg s).
Proof.
  revert buf n st neg s. induction fuel as [|fuel IH]; intros buf n st neg s Hs; [done|].
  cbn [get_el_size_loop]. case_if; [split; [done|by apply post_ok]|].
  destruct (sys_recv true 1 s) as [[[r bytes] e] s1] eqn:E. apply sys_recv_follows in E.
  assert (follows s0 s1) as Hs1 by (by etrans). case_if; [split; [done|by apply post_ok]|].
  apply quiet_bind; [destruct bytes; [done|by intros ?%awrite_stops]|]. intros buf1.
  destruct st; (apply quiet_bind; [by intros ?%aread_stops|]; intros c); repeat (case_decide || case_if);
    try (by apply IH); try (split; [done|by apply post_ok]).
  all: apply quiet_bind; [by intros ?%awrite_stops|]; intros buf2; split; [done|by apply post_ok].
Qed.

Lemma size_on_socket s (bad : Prop) :
  (long_number s -> bad) -> outcome s bad (onwards s) (get_el_size s).
Proof.
  intros Hbad. destruct (size_loop_quiet (S (length (rx s))) (calloc MAX_ARRAY_SIZE) 0 START_STATE false s s)
    as [Hpipe Hok]; [done|]. fold (get_el_size s) in Hpipe, Hok. pose proof (get_el_size_outcome s) as Ho.
  destruct (get_el_size s) as [p|[]|]; [by apply Hok| |done|done]. right. apply Hbad.
  unfold size_outcome, long_number in *. lia.
Qed.

Section reader.
Context `{Heap}.

(** A [$] in front of the size -1: [new_bulk_str] gets no text. *)
Definition nil_string (s : Sock) : Prop := exists s1, get_el_size s = Ok (-1, s1).

(** One element, as the loop of [lexer] reads it. *)
Definition lex_element (fuel : nat) (s : Sock) : res (option node * Sock) :=
  '(rtn, c, s) ← read_exact_bytes true 1 s;
  if (rtn =? 0) || (rtn =? -1) then Ok (None, s)
  else if decide (c = [DOLLAR_BYTE]) then lex_bulk_str s
  else if decide (c = [ASTERISK_BYTE]) then lexer fuel s
  else UB.

Lemma lex_elems_step fuel z elems i s :
  lex_elems (S fuel) z elems i s
  = if i <? uint32 z then
      '(current, s) ← lex_element fuel s;
      match current with
      | None => _ ← delete_previous elems z; Ok (None, s)
      | Some n => lex_elems fuel z (elems ++ [n]) (i + 1) s
      end
    else Ok (Some (NArray elems z), s).
Proof.
  cbn [lex_elems]. unfold lex_element. destruct (i <? uint32 z); [|done].
  destruct (read_exact_bytes true 1 s) as [[[rtn c] s1]|[]|]; [|done..]. cbn [mbind res_bind].
  by destruct ((rtn =? 0) || (rtn =? -1)).
Qed.

(** The array at [s], behind its [*], cannot be read: its number of elements is
    too long, or one of its elements cannot be read. *)
Inductive breaks : Sock -> Prop :=
  | B_size s : long_number s -> breaks s
  | B_elems s z s1 :
      get_el_size s = Ok (z, s1) -> z <> -2 -> z <> -1 -> z <> 0 -> breaks_elems z [] s1 -> breaks s
(** ... the elements of an array of size [z] behind the first, [elems]: the next
    cannot be read, or one after it; or the message breaks off here, and what is
    released then has a nil or empty array in it. *)
with breaks_elems : Z -> list node -> Sock -> Prop :=
  | E_here z elems s : Z.of_nat (length elems) < uint32 z -> breaks_element s -> breaks_elems z elems s
  | E_later z elems s fuel n s1 :
      Z.of_nat (length elems) < uint32 z -> lex_element fuel s = Ok (Some n, s1) ->
      breaks_elems z (elems ++ [n]) s1 -> breaks_elems z elems s
  | E_cut_off z elems s fuel s1 :
      Z.of_nat (length elems) < uint32 z -> lex_element fuel s = Ok (None, s1) ->
      existsb has_bare elems = true -> breaks_elems z elems s
(** ... an element: it is of no kind, or a string without a text or with too long
    a size, or an array that cannot be read. *)
with breaks_element : Sock -> Prop :=
  | E_kind s c s1 :
      read_exact_bytes true 1 s = Ok (1, c, s1) -> c <> [DOLLAR_BYTE] -> c <> [ASTERISK_BYTE] -> breaks_element s
  | E_string s s1 :
      read_exact_bytes true 1 s = Ok (1, [DOLLAR_BYTE], s1) -> long_number s1 \/ nil_string s1 -> breaks_element s
  | E_array s s1 : read_exact_bytes true 1 s = Ok (1, [ASTERISK_BYTE], s1) -> breaks s1 -> breaks_element s.

(** The connections that fit in memory. *)
Definition finite (s : Sock) : Prop := Z.of_nat (length (rx s)) < 2 ^ 63.

Lemma finite_follows s s' : follows s s' -> finite s -> finite s'.
Proof. intros (_ & _ & Hr). unfold finite. lia. Qed.

(** A string whose block has arrived has a size of that length. *)
Lemma new_bulk_defined b s z bytes s' :
  finite s -> - 2 ^ 31 <= z < 2 ^ 31 -> z <> 0 ->
  read_exact_bytes b (size_t z) s = Ok (1, bytes, s') ->
  new_bulk_str (Some bytes) z = Ok (NBulk (Some bytes) z).
Proof.
  unfold finite, size_t. intros Hs Hz Hz0 E.
  pose proof (proj2 (read_exact_consumes _ _ _ _ _ _ E) eq_refl) as Hc.
  assert (0 <= z) as Hpos.
  { destruct (Z_lt_ge_dec z 0); [|lia]. exfalso.
    replace z with (z + 2 ^ 64 + (-1) * 2 ^ 64) in Hc by lia. rewrite Z.mod_add, Z.mod_small in Hc by lia. lia. }
  rewrite Z.mod_small in E by lia. pose proof (read_exact_length b z s Hpos _ E) as Hl.
  cbn [fst snd] in Hl. unfold new_bulk_str, ub_unless. if_false. by if_true.
Qed.

Lemma lex_bulk_outcome s (bad : Prop) :
  finite s -> (long_number s \/ nil_string s -> bad) -> outcome s bad (onwards s) (lex_bulk_str s).
Proof.
  intros Hfin Hbad. unfold lex_bulk_str.
  apply outcome_seq; [apply size_on_socket; auto|]. intros z s1 E Hs1.
  pose proof (get_el_size_range s _ E) as Hz. cbn [fst] in Hz. pose proof (finite_follows _ _ Hs1 Hfin).
  case_if; [apply outcome_ok|]. case_if.
  { apply outcome_seq; [apply terminator_outcome|]. intros ok s2 _ _. case_if; apply outcome_ok. }
  case_if. { cbn [outcome mbind res_bind new_bulk_str]. right. apply Hbad. right. exists s1. by subst. }
  case_if; [apply outcome_ok|]. apply outcome_seq; [apply read_exact_outcome|]. intros [rtn buf] s2 E2 _.
  case_if; [apply outcome_ok|]. apply outcome_seq; [apply terminator_outcome|]. intros ok s3 _ _.
  case_if; [apply outcome_ok|]. zify_bool.
  destruct (read_exact_cases _ _ _ _ _ _ E2) as [->|[->| ->]]; [done..|].
  rewrite (new_bulk_defined _ s1 z buf s2) by done. apply outcome_ok.
Qed.

Lemma delete_previous_stops elems z f :
  delete_previous elems z = Stop f -> f = Undefined /\ existsb has_bare elems = true.
Proof.
  destruct elems as [|n l]; [done|]. unfold delete_previous. rewrite delete_array_frees. cbn [has_bare].
  destruct (existsb has_bare (n :: l)); [by intros [= <-]|done].
Qed.

Lemma lexer_outcome fuel :
  (forall s, finite s -> outcome s (breaks s) (onwards s) (lexer fuel s)) /\
  (forall z elems s, finite s ->
     outcome s (breaks_elems z elems s) (onwards s) (lex_elems fuel z elems (Z.of_nat (length elems)) s)).
Proof.
  induction fuel as [|fuel [IHl IHe]].
  { split; [done|]. intros z elems s Hs. cbn [lex_elems]. case_if; [done|apply outcome_ok]. }
  split.
  - intros s Hs. cbn [lexer]. apply outcome_seq; [apply size_on_socket, B_size|]. intros z s1 E Hs1.
    do 3 (case_if; [apply outcome_ok|]). zify_bool.
    eapply outcome_follows; [done|by apply (B_elems s z s1)|done|]. apply (IHe z []). by eapply finite_follows.
  - intros z elems s Hs. rewrite lex_elems_step. case_if; [|apply outcome_ok].
    assert (outcome s (breaks_element s) (onwards s) (lex_element fuel s)) as Hel.
    { unfold lex_element. apply outcome_seq; [apply read_exact_outcome|]. intros [rtn c] s1 E Hs1.
      pose proof (finite_follows _ _ Hs1 Hs). case_if; [apply outcome_ok|]. zify_bool.
      destruct (read_exact_cases _ _ _ _ _ _ E) as [->|[->| ->]]; [done..|].
      case_decide as Hd; [subst c; apply lex_bulk_outcome; [done|by apply (E_string s s1)]|].
      case_decide as Ha; [|right; by apply (E_kind s c s1)]. subst c.
      eapply outcome_follows; [done|by apply (E_array s s1)|done|by apply IHl]. }
    eapply outcome_seq; [eapply outcome_follows; [done| |done|exact Hel]; by apply E_here|].
    intros [n|] s1 E Hs1.
    + replace (Z.of_nat (length elems) + 1) with (Z.of_nat (length (elems ++ [n])))
        by (rewrite length_app; simpl; lia).
      eapply outcome_follows; [done| |done|apply IHe; by eapply finite_follows]. by apply (E_later z elems s fuel n s1).
    + apply outcome_pure; [by intros [? _]%delete_previous_stops| |intros; apply outcome_ok].
      intros [_ Hb]%delete_previous_stops. by apply (E_cut_off z elems s fuel s1).
Qed.

Lemma lex_outcome s : finite s -> outcome s (breaks s) (onwards s) (lex s).
Proof. apply lexer_outcome. Qed.
End reader.

(** ** What [ECHO] counts

    It is bounded by what has arrived. *)

Section sizes.
Context `{Heap}.

Definition echo_within (bound : Z) (p : option node * Sock) : Prop :=
  match p.1 with
  | Some n => echo_bound n + 6 * Z.of_nat (length (rx p.2)) <= bound
  | None => True
  end.

Lemma lex_bulk_echo s : post (echo_within (6 * Z.of_nat (length (rx s)))) (lex_bulk_str s).
Proof.
  intros [[n|] s'] E; [|done]. unfold lex_bulk_str in E. apply bind_Ok_inv in E as ([z s1] & E1 & E).
  apply get_el_size_range in E1 as Hz. apply get_el_size_consumes in E1 as [_ Hc]. cbn [fst] in Hz.
  unfold echo_within. cbn [fst snd]. revert E. case_if; [done|]. zify_bool.
  destruct Hc as [-> |Hc]; [done|]. case_if.
  { intros ([ok s2] & E2 & E)%bind_Ok_inv. apply is_valid_terminator_consumes in E2. revert E.
    case_if; [done|]. intros [= <- <-]. simpl. lia. }
  case_if; [done|]. case_if; [done|]. intros ([[rtn buf] s2] & E2 & E)%bind_Ok_inv.
  assert (0 <= size_t z) by (unfold size_t; apply Z.mod_pos_bound; lia).
  pose proof (read_exact_length _ _ _ ltac:(done) _ E2) as Hl. cbn [fst snd] in Hl.
  apply read_exact_cases in E2 as Hr. apply read_exact_consumes in E2 as [_ Hc2]. revert E. case_if; [done|].
  zify_bool. assert (rtn = 1) as -> by lia. specialize (Hc2 eq_refl).
  intros ([ok s3] & E3 & E)%bind_Ok_inv. apply is_valid_terminator_consumes in E3. revert E. case_if; [done|].
  intros (m & Em & [= <- <-])%bind_Ok_inv. revert Em. unfold new_bulk_str, ub_unless.
  case_if; [lia|]. case_if; [|done]. intros [= <-]. cbn [echo_bound default id]. unfold id. lia.
Qed.

Lemma echo_bounds_snoc l n : echo_bounds (l ++ [n]) = echo_bounds l + echo_bound n.
Proof. induction l as [|a l IH]; cbn [app echo_bounds]; lia. Qed.

Lemma lexer_echo fuel :
  (forall s, post (echo_within (6 * Z.of_nat (length (rx s)) + 5)) (lexer fuel s)) /\
  (forall z elems i s,
     post (echo_within (23 + echo_bounds elems + 6 * Z.of_nat (length (rx s)))) (lex_elems fuel z elems i s)).
Proof.
  assert (forall z elems (s : Sock), echo_within (23 + echo_bounds elems + 6 * Z.of_nat (length (rx s)))
    (Some (NArray elems z), s)) as Hdone.
  { intros. unfold echo_within. cbn [fst snd]. rewrite echo_bound_array. lia. }
  induction fuel as [|fuel [IHl IHe]].
  { split; [done|]. intros z elems i s. cbn [lex_elems]. case_if; [done|by apply post_ok]. }
  split.
  - intros s p E. cbn [lexer] in E. apply bind_Ok_inv in E as ([z s1] & E1 & E).
    apply get_el_size_consumes in E1 as [Hs Hc]. revert E. case_if; [by intros [= <-]|]. zify_bool.
    do 2 (case_if; [intros [= <-]; unfold echo_within; cbn [fst snd echo_bound]; lia|]).
    intros E. apply IHe in E. revert E. unfold echo_within. destruct p as [[n|] s2]; [|done].
    cbn [fst snd echo_bounds]. lia.
  - intros z elems i s p. rewrite lex_elems_step. case_if; [|intros [= <-]; apply Hdone].
    intros ([current s1] & E1 & E)%bind_Ok_inv.
    assert (echo_within (6 * Z.of_nat (length (rx s))) (current, s1)) as Hel.
    { unfold lex_element in E1. apply bind_Ok_inv in E1 as ([[rtn c] s0] & E0 & E1).
      apply read_exact_cases in E0 as Hr. apply read_exact_consumes in E0 as [_ Hc0]. revert E1.
      case_if; [by intros [= <- <-]|]. zify_bool. assert (rtn = 1) as -> by lia. specialize (Hc0 eq_refl).
      assert (forall b, b <= 6 * Z.of_nat (length (rx s)) -> echo_within b (current, s1) ->
        echo_within (6 * Z.of_nat (length (rx s))) (current, s1)) as Hle.
      { intros b Hb. unfold echo_within. destruct current; cbn [fst snd]; [lia|done]. }
      case_decide; [intros Hb%lex_bulk_echo; eapply Hle; [|exact Hb]; lia|].
      case_decide; [|done]. intros Hb%IHl. eapply Hle; [|exact Hb]. lia. }
    destruct current as [n|]; [|by apply bind_Ok_inv in E as (f & _ & [= <-])].
    apply IHe in E. revert E Hel. unfold echo_within. destruct p as [[m|] s2]; [|done].
    cbn [fst snd]. rewrite echo_bounds_snoc. lia.
Qed.

Lemma lex_echo s n s' : lex s = Ok (Some n, s') -> echo_bound n <= 6 * Z.of_nat (length (rx s)) + 5.
Proof. intros E%lexer_echo. unfold echo_within in E. cbn [fst snd] in E. lia. Qed.
End sizes.

(** ** The messages that bring the server down *)

Section fatal.
Context `{Heap}.

(** A message starts at [s] that cannot be read, or that has a nil or empty array
    in it: printing it uses the array's bare node. *)
Definition fatal (s : Sock) : Prop :=
  exists s1, recv_resp_fm_clnt 0 true 1 3 s = Ok (1, [ASTERISK_BYTE], s1) /\
    (breaks s1 \/ exists n s2, lex s1 = Ok (Some n, s2) /\ has_bare n = true).
End fatal.

(** The rounds of [app_code]: from message [i], store [sm] and connection [s] the
    loop comes to message [i'], store [sm'] and connection [s']. *)
Inductive comes_to `{Fnmatch} `{Heap} (cfg : Store) (clock : nat -> timespec) :
    nat -> Store -> Sock -> nat -> Store -> Sock -> Prop :=
  | C_start i sm s : comes_to cfg clock i sm s i sm s
  | C_skip i sm s s1 sm1 i' sm' s' :
      app_round cfg (clock i) sm s = Ok (R_skip, s1, sm1) ->
      comes_to cfg clock i sm1 s1 i' sm' s' -> comes_to cfg clock i sm s i' sm' s'
  | C_served i sm s s1 sm1 i' sm' s' :
      app_round cfg (clock i) sm s = Ok (R_served, s1, sm1) ->
      comes_to cfg clock (S i) sm1 s1 i' sm' s' -> comes_to cfg clock i sm s i' sm' s'.

Section survival.
Context `{FnmatchLaws} `{Heap}.
Context (cfg : Store) (entries : list entry) (Hcfg : config_ok cfg entries).
Context (Hheap : forall n z, heap_grants n z = true) (clock : nat -> timespec).

Lemma roomy_less n k sm : (k <= n)%nat -> roomy n sm -> roomy k sm.
Proof. unfold roomy. intros. lia. Qed.

Lemma holds_top sm m : holds sm m -> -1 <= sm_top sm.
Proof. intros [(l & (jk & jv & _ & _ & -> & _) & _) _]. lia. Qed.

(** A message is printed, executed and released. *)
Lemma message_runs n sm m now :
  typed n -> echo_bound n < INT_MAX -> holds sm m -> can_grow sm ->
  has_bare n = false ->
  exists t f o sm' log m', print_array [n] 0 = Ok t /\ delete_array [n] = Ok f /\
    parse_command [n] sm cfg now = Ok (o, sm', log) /\ holds sm' m' /\ grows sm sm'.
Proof.
  intros Ht Hsize Hh Hg Hb. pose proof (print_array_runs n) as Hp. unfold runs in Hp. rewrite Hb in Hp.
  destruct Hp as [t Et]. pose proof (delete_array_frees n) as Hd. rewrite Hb in Hd.
  destruct (command_runs cfg entries Hcfg Hheap n sm m now) as (o & sm1 & log & m1 & E & Hh1 & Hg1); try done.
  by eexists t, _, o, sm1, log, m1.
Qed.

(** What a round leaves. *)
Definition round_ok sm s (p : round_end * Sock * Store) : Prop :=
  follows s p.1.2 /\ (exists m, holds p.2 m) /\ grows sm p.2.

Lemma round_outcome now sm m s :
  holds sm m -> roomy (length (rx s)) sm -> outcome s (fatal s) (round_ok sm s) (app_round cfg now sm s).
Proof.
  intros Hh Hroom. destruct (rx s) as [|x r] eqn:Ex.
  { rewrite last_round by done. split_and!; [done|by exists m|apply grows_refl]. }
  assert (can_grow sm) as Hg by (by eapply roomy_can_grow).
  pose proof (holds_top sm m Hh) as Htop. destruct Hroom as [Hlen _]. rewrite <- Ex in Hlen.
  assert (forall next s', follows s s' -> round_ok sm s (next, s', sm)) as Hsame.
  { intros next s' Hs'. split_and!; [done|by exists m|apply grows_refl]. }
  unfold app_round. eapply outcome_bind; [apply recv_outcome|]. intros [[rtn buff] s1] E1 Hs1.
  unfold onwards in Hs1. cbn [snd] in Hs1. case_if; [by apply Hsame|]. case_if; [by apply Hsame|].
  case_decide as Hstar; [subst buff|by apply Hsame]. zify_bool.
  assert (rtn = 1) as ->.
  { apply recv_received in E1. unfold received in E1. cbn [fst snd length] in E1. lia. }
  assert (finite s1) as Hfin by (destruct Hs1 as (_ & _ & ?); unfold finite; lia).
  eapply outcome_bind.
  { eapply outcome_follows; [exact Hs1| |done|by apply lex_outcome]. intros Hb. exists s1. auto. }
  intros [[n|] s2] E2 Hs2; cbn beta in Hs2; unfold onwards in Hs2; cbn [snd] in Hs2;
    assert (follows s s2) as Hs2' by (by etrans).
  2: { eapply outcome_bind; [eapply outcome_later; [exact Hs2'|apply send_outcome]|].
       intros [r3 s3] _ Hs3. by apply Hsame. }
  destruct (has_bare n) eqn:Hb.
  { pose proof (print_array_runs n) as Hp. rewrite Hb in Hp. unfold runs in Hp. rewrite Hp. right.
    exists s1. split; [done|]. right. by exists n, s2. }
  destruct (message_runs n sm m now) as (t & f & o & sm1 & log & m1 & Et & Ef & Ec & Hh1 & Hg1); try done.
  { by eapply lex_typed. }
  { apply lex_echo in E2. destruct Hs1 as (_ & _ & ?). unfold INT_MAX. lia. }
  rewrite Et, Ec. cbn [mbind res_bind].
  eapply outcome_bind; [eapply outcome_later; [exact Hs2'|apply send_outcome]|].
  intros [r3 s3] _ Hs3. rewrite Ef. cbn [mbind res_bind].
  case_if; (split_and!; [exact Hs3|by exists m1|done]).
Qed.

(** The loop, with the fuel that it is given. *)
Definition loop_ok i sm s (o : res (Sock * Store)) : Prop :=
  match o with
  | Ok (_, sm') => exists m', holds sm' m'
  | SIGPIPE => TxErr EPIPE ∈ tx_plan s
  | UB => Some EINTR ∈ naps s \/ exists i' sm' s', comes_to cfg clock i sm s i' sm' s' /\ fatal s'
  | OOF => False
  end.

Lemma loop_ok_next i j sm sm1 s s1 o :
  follows s s1 ->
  (forall i' sm' s', comes_to cfg clock j sm1 s1 i' sm' s' -> comes_to cfg clock i sm s i' sm' s') ->
  loop_ok j sm1 s1 o -> loop_ok i sm s o.
Proof.
  intros (Hn & Ht & _) Hc. destruct o as [[? ?]|[]|]; cbn [loop_ok]; [done| |apply Ht|done].
  intros [Hi|(i' & sm' & s' & Hc' & Hf)]; [left; by apply Hn|]. right. exists i', sm', s'. auto.
Qed.

Lemma app_loop_ok fuel i sm m s :
  holds sm m -> roomy (length (rx s)) sm -> (length (rx s) < fuel)%nat ->
  loop_ok i sm s (app_loop cfg clock fuel i sm s).
Proof.
  revert i sm m s. induction fuel as [|fuel IH]; intros i sm m s Hh Hroom Hf; [lia|]. cbn [app_loop].
  pose proof (round_outcome (clock i) sm m s Hh Hroom) as Ho. pose proof (app_round_not_OOF cfg (clock i) sm s).
  destruct (app_round cfg (clock i) sm s) as [[[next s1] sm1]|[]|] eqn:E; cbn [mbind res_bind outcome] in *; [| |done|done].
  2: { destruct Ho as [Ho|Ho]; [by left|right]. exists i, sm, s. split; [apply C_start|done]. }
  destruct Ho as (Hs1 & (m1 & Hh1) & Hg1). cbn [fst snd] in *.
  pose proof (app_round_consumes _ _ _ _ _ _ _ E) as Hr.
  destruct next; [by exists m1| |]; specialize (Hr ltac:(done)).
  all: assert (roomy (length (rx s1)) sm1) as Hroom1
    by (eapply roomy_grows; [|exact Hg1]; by eapply roomy_less; [|exact Hroom]).
  - eapply loop_ok_next; [done|by intros; eapply C_skip|]. eapply (IH i sm1 m1 s1); [done|done|lia].
  - eapply loop_ok_next; [done|by intros; eapply C_served|]. eapply (IH (S i) sm1 m1 s1); [done|done|lia].
Qed.
End survival.

(** ** Property *)

Section properties.
Context `{FnmatchLaws} `{Heap}.

(** C5. How the request loop can end, on any connection: whatever arrives - any
    bytes, broken or nested messages, commands of any kind, errors of the connection
    or its end at any point - and whichever sends and sleeps fail, it ends. Unless
    the process goes down with it, the store is well-formed; and the process goes
    down in three ways only: by [SIGPIPE], when a send meets a connection that the
    client has closed, since neither [send] nor the process guards against it; by an
    interrupted sleep, which [msleep] cannot handle; or because the loop comes to a
    fatal message: one with a number of 8192 digits or more, with an element of no
    known kind or a nil string in it, or with a nil or empty array in it. The heap
    grants what is asked of it, and the store has room for what arrives. *)
Theorem app_survives cfg entries clock sm m s :
  config_ok cfg entries -> (forall n z, heap_grants n z = true) ->
  holds sm m -> roomy (length (rx s)) sm ->
  match app_code cfg clock sm s with
  | Ok (_, sm') => exists m', holds sm' m'
  | SIGPIPE => TxErr EPIPE ∈ tx_plan s
  | UB => Some EINTR ∈ naps s \/ exists i' sm' s', comes_to cfg clock 0 sm s i' sm' s' /\ fatal s'
  | OOF => False
  end.
Proof.
  intros Hcfg Hheap Hh Hroom. unfold app_code.
  exact (app_loop_ok cfg entries Hcfg Hheap clock _ 0 sm m s Hh Hroom (Nat.lt_succ_diag_r _)).
Qed.
End properties.

(** ** Witness *)

(** A stray byte, an [ECHO] of an array, and a message that the connection
    breaks off; no answer can be sent. *)
Definition broken_sock : Sock :=
  mkSock (rx_data (bs "x" ++ encode sample_message ++ bs "*2") ++ [RxErr EFAULT]) [TxErr EFAULT; TxErr EFAULT] [] [].

Lemma app_survives_witness :
  match @app_code glob grants_all sample_map (fun _ => noon) create_simple_map broken_sock with
  | Ok (_, sm') => exists m', holds sm' m'
  | SIGPIPE => TxErr EPIPE ∈ tx_plan broken_sock
  | UB => Some EINTR ∈ naps broken_sock \/
      exists i' sm' s', @comes_to glob grants_all sample_map (fun _ => noon) 0 create_simple_map broken_sock i' sm' s' /\
        @fatal grants_all s'
  | OOF => False
  end.
Proof.
  apply (@app_survives glob glob_laws grants_all sample_map sample_config (fun _ => noon) create_simple_map ∅).
  - apply sample_config_ok.
  - reflexivity.
  - apply holds_create.
  - vm_compute. split; discriminate.
Defined.

(** There it returns; a client that has closed the connection before it is
    answered ends the process; and so does an empty array. *)
Example broken_sock_survived :
  match @app_code glob grants_all sample_map (fun _ => noon) create_simple_map broken_sock with
  | Ok _ => true | _ => false end = true /\
  @app_code glob grants_all sample_map (fun _ => noon) create_simple_map
    (mkSock (rx_data (encode sample_message)) [TxErr EPIPE] [] []) = SIGPIPE /\
  @app_code glob grants_all sample_map (fun _ => noon) create_simple_map (sock_of (bs "*0" ++ crlf)) = UB.
Proof. split_and!; vm_compute; reflexivity. Qed.
