(* ===== verification/Workers.v ===== *)
(** Several connections at the same time: the workers of [server.c] go on with
    their connections in any order, one round of the request loop of [app.c] after the other,
    on the one store. What the clients see is one run of the abstract server on one order
    of all commands. *)

From S2P Require Import Prelude CLib Errors Net Protocol SimpleMap KeyVal.
From S2P Require Import SetParser SetExec GetCmd Match Echo Config Dispatch App.

(** ** The workers

    A connection with its worker: the socket, and whether the loop goes on. *)
Record conn := mkConn { c_sock : Sock; c_open : bool }.

Definition goes_on (next : round_end) : bool := match next with R_over => false | _ => true end.

Section workers.
Context `{Fnmatch} `{Heap}.
Context (config_dict : Store) (clock : nat -> timespec).

(** [schedule] says whose round is next; the [k]-th round is at [clock k]. The
    commands of two rounds do not overlap; what happens if they do is [Race]. *)
Fixpoint work (k : nat) (schedule : list nat) (sm : Store) (conns : list conn) : res (list conn * Store) :=
  match schedule with
  | [] => Ok (conns, sm)
  | w :: schedule =>
      match conns !! w with
      | Some (mkConn s true) =>
          '(next, s, sm) ← app_round config_dict (clock k) sm s;
          work (S k) schedule sm (<[w := mkConn s (goes_on next)]> conns)
      | _ => work (S k) schedule sm conns
      end
  end.
End workers.

(** ** The order of the commands *)

(** A command: whose, when and what. *)
Record command := mkCommand { c_client : nat; c_time : nat; c_words : list (list byte) }.

(** Which request each round comes to. *)
Fixpoint order (k : nat) (schedule : list nat) (convs : list (list (list (list byte)))) : list command :=
  match schedule with
  | [] => []
  | w :: schedule =>
      match convs !! w with
      | Some (words :: requests) => mkCommand w k words :: order (S k) schedule (<[w := requests]> convs)
      | _ => order (S k) schedule convs
      end
  end.

(** The abstract server on commands of several clients: each answer with the
    client it is for. *)
Fixpoint redis_commands `{Fnmatch} (entries : list entry) (clock : nat -> timespec) (cmds : list command)
    (m : keyspace) : list (nat * list byte) * keyspace :=
  match cmds with
  | [] => ([], m)
  | c :: cmds =>
      let '(reply, m) := redis_step entries (c_words c) (clock (c_time c)) m in
      let '(out, m) := redis_commands entries clock cmds m in
      ((c_client c, sent (default error_msg reply)) :: out, m)
  end.

(** What one client asks for and what it is sent. *)
Definition asked_by (w : nat) (cmds : list command) : list (list (list byte)) :=
  map c_words (filter (fun c => c_client c = w) cmds).

Definition sent_to (w : nat) (out : list (nat * list byte)) : list byte :=
  concat (map snd (filter (fun p => p.1 = w) out)).

(** How many rounds a client gets. *)
Definition rounds (w : nat) (schedule : list nat) : nat := length (filter (eq w) schedule).

Lemma rounds_cons w v schedule :
  rounds w (v :: schedule) = if decide (w = v) then S (rounds w schedule) else rounds w schedule.
Proof. unfold rounds. rewrite filter_cons. by case_decide. Qed.

Lemma asked_by_cons w c cmds :
  asked_by w (c :: cmds) = if decide (c_client c = w) then c_words c :: asked_by w cmds else asked_by w cmds.
Proof. unfold asked_by. rewrite filter_cons. by case_decide. Qed.

Lemma sent_to_cons w v b out :
  sent_to w ((v, b) :: out) = if decide (v = w) then b ++ sent_to w out else sent_to w out.
Proof. unfold sent_to. rewrite filter_cons. cbn [fst]. by case_decide. Qed.

(** The order keeps each client's own, and a client is served as far as it has
    rounds. *)
Lemma order_keeps w schedule k convs requests :
  convs !! w = Some requests -> asked_by w (order k schedule convs) = take (rounds w schedule) requests.
Proof.
  revert k convs requests. induction schedule as [|v schedule IH]; intros k convs requests Hw; [done|].
  cbn [order]. rewrite rounds_cons. destruct (decide (w = v)) as [<-|Hne].
  - rewrite Hw. destruct requests as [|words requests].
    + rewrite (IH _ _ [] Hw). by rewrite !take_nil.
    + rewrite asked_by_cons, decide_True by done. cbn [take]. f_equal. apply IH.
      apply list_lookup_insert_eq. by eapply lookup_lt_Some.
  - destruct (convs !! v) as [[|words rest]|]; [by apply IH| |by apply IH].
    rewrite asked_by_cons, decide_False by (simpl; congruence). apply IH. by rewrite list_lookup_insert_ne.
Qed.

(** ** Refinement *)

(** A connection of a client with [requests] still to be sent. *)
Definition waits (requests : list (list (list byte))) (c : conn) : Prop :=
  if c_open c then rx (c_sock c) = rx_data (wire requests) /\ tx_plan (c_sock c) = [] else requests = [].

(** The requests that are still to come. *)
Definition pending (convs : list (list (list (list byte)))) : nat := length (concat convs).

Lemma pending_insert convs w words requests :
  convs !! w = Some (words :: requests) -> pending convs = S (pending (<[w := requests]> convs)).
Proof.
  unfold pending. revert w. induction convs as [|c convs IH]; intros [|w] E; simpl in *; try done.
  - injection E as ->. done.
  - rewrite !length_app. rewrite (IH w) by done. lia.
Qed.

(** What becomes of a client in a run that sends [out]. *)
Definition served_by (w : nat) (n : nat) (schedule : list nat) (out : list (nat * list byte)) (c c' : conn) : Prop :=
  tx (c_sock c') = tx (c_sock c) ++ sent_to w out /\
  (c_open c = false \/ (n < rounds w schedule)%nat -> c_open c' = false).

Lemma served_other w v b n schedule out c c' :
  w <> v -> served_by w n schedule out c c' ->
  served_by w n (v :: schedule) out c c' /\ served_by w n (v :: schedule) ((v, b) :: out) c c'.
Proof.
  intros Hne [Ht Ho]. unfold served_by.
  by rewrite rounds_cons, sent_to_cons, (decide_False (P := w = v)), (decide_False (P := v = w)) by congruence.
Qed.

Lemma served_answer w b n schedule out s s1 c' :
  tx s1 = tx s ++ b -> served_by w n schedule out (mkConn s1 true) c' ->
  served_by w (S n) (w :: schedule) ((w, b) :: out) (mkConn s true) c'.
Proof.
  intros E [Ht Ho]. unfold served_by. rewrite rounds_cons, sent_to_cons, !decide_True by done. cbn [c_sock c_open] in *.
  split; [by rewrite Ht, E, (assoc_L (++))|]. intros [?|?]; [done|]. apply Ho. right. lia.
Qed.

Lemma served_last w schedule out s o c' :
  served_by w 0 schedule out (mkConn s false) c' -> served_by w 0 (w :: schedule) out (mkConn s o) c'.
Proof. intros [Ht Ho]. split; [done|]. intros _. by apply Ho; left. Qed.

(** The same for all of them, and what a round of [v] adds to the rest of the
    run. *)
Definition all_served (convs : list (list (list (list byte)))) (schedule : list nat)
    (out : list (nat * list byte)) (conns conns' : list conn) : Prop :=
  forall w requests c, convs !! w = Some requests -> conns !! w = Some c ->
  exists c', conns' !! w = Some c' /\ served_by w (length requests) schedule out c c'.

Lemma all_served_last convs v schedule out conns s o conns' :
  convs !! v = Some [] -> conns !! v = Some (mkConn s o) ->
  all_served convs schedule out (<[v := mkConn s false]> conns) conns' ->
  all_served convs (v :: schedule) out conns conns'.
Proof.
  intros Er Ec Hall w rs c Ew Ecw. pose proof (lookup_lt_Some _ _ _ Ec). destruct (decide (w = v)) as [->|Hne].
  - destruct (Hall v [] (mkConn s false)) as (c' & ? & Hc); [done|by apply list_lookup_insert_eq|].
    simplify_eq. exists c'. split; [done|]. by apply served_last.
  - destruct (Hall w rs c) as (c' & ? & Hc); [done|by rewrite list_lookup_insert_ne|].
    exists c'. split; [done|]. by apply (served_other w v []).
Qed.

Lemma all_served_none convs v schedule out conns conns' :
  convs !! v = None -> all_served convs schedule out conns conns' ->
  all_served convs (v :: schedule) out conns conns'.
Proof.
  intros Er Hall w rs c Ew Ec. destruct (Hall w rs c Ew Ec) as (c' & ? & Hc). exists c'. split; [done|].
  apply (served_other w v []); [congruence|done].
Qed.

Lemma all_served_answer convs v schedule b out conns s s1 words requests conns' :
  convs !! v = Some (words :: requests) -> conns !! v = Some (mkConn s true) -> tx s1 = tx s ++ b ->
  all_served (<[v := requests]> convs) schedule out (<[v := mkConn s1 true]> conns) conns' ->
  all_served convs (v :: schedule) ((v, b) :: out) conns conns'.
Proof.
  intros Er Ec Etx Hall w rs c Ew Ecw. pose proof (lookup_lt_Some _ _ _ Ec). pose proof (lookup_lt_Some _ _ _ Er).
  destruct (decide (w = v)) as [->|Hne].
  - destruct (Hall v requests (mkConn s1 true)) as (c' & ? & Hc); [by apply list_lookup_insert_eq..|].
    simplify_eq. exists c'. split; [done|]. by apply (served_answer v _ _ _ _ s s1).
  - destruct (Hall w rs c) as (c' & ? & Hc); [by rewrite list_lookup_insert_ne..|].
    exists c'. split; [done|]. by apply served_other.
Qed.

Section simulation.
Context `{FnmatchLaws} `{Heap}.
Context (cfg : Store) (entries : list entry) (Hcfg : config_ok cfg entries).
Context (Hheap : forall n z, heap_grants n z = true) (clock : nat -> timespec).

Lemma work_simulates schedule k convs conns sm m :
  Forall2 waits convs conns -> Forall (Forall sendable) convs -> holds sm m -> roomy (pending convs) sm ->
  let answers := redis_commands entries clock (order k schedule convs) m in
  exists conns' sm', work cfg clock k schedule sm conns = Ok (conns', sm') /\ holds sm' answers.2 /\
    all_served convs schedule answers.1 conns conns'.
Proof.
  revert k convs conns sm m.
  induction schedule as [|v schedule IH]; intros k convs conns sm m Hwait Hs Hh Hroom; cbn [work order].
  { exists conns, sm. split_and!; [done..|]. intros w requests c _ E. exists c. split; [done|].
    split; [by rewrite app_nil_r|]. unfold rounds. simpl. intros [?|?]; [done|lia]. }
  destruct (convs !! v) as [requests|] eqn:Er.
  2: { assert (conns !! v = None) as -> by (apply lookup_ge_None; rewrite <- (Forall2_length _ _ _ Hwait);
         by apply lookup_ge_None).
       destruct (IH (S k) convs conns sm m) as (conns' & sm' & E & Hh' & Hout); [done..|].
       exists conns', sm'. split_and!; [done..|]. by apply all_served_none. }
  destruct (Forall2_lookup_l _ _ _ _ _ Hwait Er) as ([s o] & Ec & Hv). rewrite Ec.
  unfold waits in Hv. cbn [c_sock c_open] in Hv.
  destruct o, requests as [|words requests]; [destruct Hv as [Hrx Htx]..| |done].
  - rewrite last_round by done. cbn [mbind res_bind goes_on].
    destruct (IH (S k) convs (<[v := mkConn s false]> conns) sm m) as (conns' & sm' & E & Hh' & Hout); try done.
    { rewrite <- (list_insert_id convs v []) by done. by apply Forall2_insert. }
    exists conns', sm'. split_and!; [done..|]. by apply (all_served_last _ _ _ _ _ s true).
  - assert (sendable words /\ Forall sendable requests) as [Hw Hr]
      by (apply Forall_cons; by eapply Forall_lookup_1 in Hs).
    rewrite (pending_insert _ _ _ _ Er) in Hroom. cbn [redis_commands c_words c_time c_client].
    destruct (request_round cfg entries Hcfg Hheap words requests (clock k) sm m s) as (sm1 & -> & Hh1 & Hg1);
      [done|done|by eapply roomy_can_grow|done|done|].
    cbn [mbind res_bind goes_on]. destruct (redis_step entries words (clock k) m) as [reply m1]. cbn [fst snd] in *.
    set (s1 := mkSock _ _ _ _).
    destruct (IH (S k) (<[v := requests]> convs) (<[v := mkConn s1 true]> conns) sm1 m1)
      as (conns' & sm' & E & Hh' & Hout);
      [by apply Forall2_insert|by apply Forall_insert|done|by eapply roomy_grows|].
    destruct (redis_commands entries clock _ m1) as [out m2]. cbn [fst snd] in *.
    exists conns', sm'. split_and!; [done..|]. by eapply (all_served_answer _ _ _ _ _ _ s s1).
  - destruct (IH (S k) convs conns sm m) as (conns' & sm' & E & Hh' & Hout); [done..|].
    exists conns', sm'. split_and!; [done..|]. apply (all_served_last _ _ _ _ _ s false); [done..|].
    by rewrite list_insert_id.
Qed.
End simulation.

(** ** Property *)

(** A client that has connected and sends its requests. *)
Definition connected (requests : list (list (list byte))) : conn := mkConn (sock_of (wire requests)) true.

Section properties.
Context `{FnmatchLaws} `{Heap}.

(** C2. Clients at the same time: whatever the order in which the workers go on with
    their connections, what the clients of a freshly started server see is one run of the
    abstract server on one key space, over one order of all commands that keeps
    the order of each client. Each client is sent exactly the answers to its own
    requests, as many as it had rounds, and its connection is over after the last
    one. Rounds do not overlap here: that two commands do not run at once is what
    the server would have to see to, and does not. *)
Theorem clients_interleave cfg entries clock schedule convs :
  config_ok cfg entries -> (forall n z, heap_grants n z = true) ->
  Forall (Forall sendable) convs -> Z.of_nat (pending convs) <= 2 ^ 28 ->
  let cmds := order 0 schedule convs in
  let answers := redis_commands entries clock cmds ∅ in
  exists conns sm',
    work cfg clock 0 schedule create_simple_map (map connected convs) = Ok (conns, sm') /\
    holds sm' answers.2 /\
    forall w requests, convs !! w = Some requests ->
      asked_by w cmds = take (rounds w schedule) requests /\
      exists c, conns !! w = Some c /\ tx (c_sock c) = sent_to w answers.1 /\
        ((length requests < rounds w schedule)%nat -> c_open c = false).
Proof.
  intros Hcfg Hheap Hs Hn. cbv zeta.
  destruct (work_simulates cfg entries Hcfg Hheap clock schedule 0 convs (map connected convs) create_simple_map ∅)
    as (conns & sm' & E & Hh & Hall); [|done|apply holds_create|by unfold roomy; simpl; lia|].
  { apply Forall2_fmap_r, Forall_Forall2_diag, Forall_true. done. }
  exists conns, sm'. split_and!; [done..|]. intros w requests Ew. split; [by apply order_keeps|].
  destruct (Hall w requests (connected requests) Ew) as (c & Ec & Htx & Ho).
  { change (map connected convs) with (connected <$> convs). by rewrite list_lookup_fmap, Ew. }
  exists c. split; [done|]. split; [exact Htx|]. auto.
Qed.
End properties.

(** ** Witness: two clients and a third that is never served *)

Definition sample_clients : list (list (list (list byte))) :=
  [[map bs ["SET"; "k"; "1"]%string; map bs ["GET"; "k"]%string];
   [map bs ["SET"; "k"; "2"; "GET"]%string];
   [map bs ["GET"; "k"]%string]].

Definition sample_schedule : list nat := [0; 1; 1; 0; 0]%nat.

Lemma clients_interleave_witness :
  (exists conns sm',
    @work glob grants_all sample_map (fun _ => noon) 0 sample_schedule create_simple_map (map connected sample_clients)
      = Ok (conns, sm') /\
    holds sm' (@redis_commands glob sample_config (fun _ => noon) (order 0 sample_schedule sample_clients) ∅).2 /\
    forall w requests, sample_clients !! w = Some requests ->
      asked_by w (order 0 sample_schedule sample_clients) = take (rounds w sample_schedule) requests /\
      exists c, conns !! w = Some c /\
        tx (c_sock c)
        = sent_to w (@redis_commands glob sample_config (fun _ => noon) (order 0 sample_schedule sample_clients) ∅).1 /\
        ((length requests < rounds w sample_schedule)%nat -> c_open c = false)) /\
  map (fun w => sent_to w (@redis_commands glob sample_config (fun _ => noon) (order 0 sample_schedule sample_clients) ∅).1)
    [0; 1; 2]%nat
  = [sent ok_reply ++ sent (encode (bulk (bs "2"))); sent (encode (bulk (bs "1"))); []].
Proof.
  split; [|vm_compute; reflexivity].
  apply (@clients_interleave glob glob_laws grants_all sample_map sample_config (fun _ => noon) sample_schedule sample_clients).
  - apply sample_config_ok.
  - reflexivity.
  - repeat (constructor; [repeat (constructor; [split; [discriminate | split; [vm_compute; reflexivity |
      split; [refine (bool_decide_eq_true_1 _ _); vm_compute; reflexivity | vm_compute; reflexivity]]] |]); constructor|]).
    constructor.
  - vm_compute. discriminate.
Defined.
